(* ===== verification/_CoqProject ===== *)
-Q . S2P
Prelude.v
Text.v
F64.v
Gelf.v
Filter.v
Matcher.v
Samples.v
Admission.v
SeqCounter.v
PreBuffer.v
Epoch.v
EpochSpec.v
Trigger.v
TriggerSpec.v
Bookmarks.v
BookmarksSpec.v
Resolver.v
ResolverSpec.v
MemStore.v
MemStoreInv.v
MemStoreOps.v
MemStoreSpec.v
Cursor.v
Pipeline.v
PipeInv.v
SpanStore.v
SpanSpec.v
DomainData.v
DataFile.v
DataSpec.v
Session.v
SessionSpec.v
SessionRuns.v
Processor.v
ProcessorSpec.v
Domain.v
CaptureSpec.v
Export.v
ExportSpec.v
CursorSpec.v
Sdk.v
Measure.v
MeasureSpec.v
Threshold.v
ThresholdSpec.v
Collector.v
CollectorSamples.v
CollectorSpec.v
History.v
HistorySpec.v
Persist.v
PersistSpec.v
CollReg.v
CollRegSpec.v
CollRegRuns.v
CollRegFiles.v
CollRegProgress.v
CollRegRestart.v
Project.v
ProjectSpec.v
Diff.v
DiffSpec.v
Capped.v
LogProfile.v
LogProfileSpec.v
LogFields.v
LogFieldsSpec.v
Params.v
Metrics.v
Domains.v
CaseLoad.v
CaseFront.v
CaseSpec.v
Reads.v
Broker.v
BrokerSpec.v
BrokerData.v
GelfRecv.v
ReadsSpec.v
MetricsSpec.v
