(* ===== verification/Prelude.v ===== *)
(** * logmon: a verification library for the broker's core

    logmon is a broker that receives log records and spans, keeps the last ones
    of each domain in memory, and serves them to sessions that filter, export,
    bookmark and trigger on them; its collectors measure spans and record runs.
    This library translates the core of the broker, and the filter builder of
    its client, into executable definitions and proves what they promise. Paths
    below are under [src/crates/core/src/] unless they say otherwise.

    ** The parts and how they meet

    A record arrives at its domain's log task ([Processor]), which evaluates the
    filters and triggers of every session bound to the domain ([Session],
    [Trigger], on the language of [Filter], evaluated by [Matcher]), records the
    storage policy it decided under ([Epoch]), stores the record in the ring
    ([MemStore]) and in the pre-trigger buffer ([PreBuffer]) of the domain's
    [Pipeline], which numbers it from the counter it shares with the span ring
    ([SeqCounter], [SpanStore]), and, when a trigger fires, flushes the lead-up
    into the ring. Readers go through a resolved filter ([Resolver] over
    [Bookmarks]): an export is graded by a verdict ([Export]), a cursor reads and
    advances ([Cursor], [Bookmarks]). A span also feeds the collectors of its
    domain ([Collector] over [Measure], its rolling guard [Threshold]); the
    registry of collectors ([CollReg]) writes their files ([Persist]) with the
    runs they recorded ([History]), a read projects them ([Project]) and two of
    them are compared ([Diff]). Beside the records a domain keeps a registry of
    facts ([DomainData], [DataFile]). A request comes in through a handler: it
    decodes its parameters ([Params]), reads or clears the domain its session is
    bound to ([Reads], with the profiles of [LogProfile] and [LogFields]), or
    changes the sessions, the domains, the collectors and the facts together
    ([Broker]). A domain ([Domains]) is created with its receivers, which count
    what they lose ([Metrics]), or opened sealed from a case ([CaseLoad]).

    ** Which file models which code

    - [Prelude]: machine integers, tactics, hints, lists, sorting, comparisons.
    - [Text]: [str] on UTF-8 bytes; the interface [Externals] to the crates.
    - [F64]: binary64 and its parser. [Samples]: concrete records and filters.
    - [Gelf]: [gelf/message.rs] (levels and records).
    - [Filter]: [filter/parser.rs]. [Matcher]: [filter/matcher.rs],
      [span/types.rs]. [Admission]: [filter/admission.rs]. [Resolver],
      [ResolverSpec]: [filter/bookmark_resolver.rs].
    - [SeqCounter], [PreBuffer], [Epoch], [Trigger], [Pipeline], with [EpochSpec],
      [TriggerSpec], [PipeInv]: the files of [engine/] with those names.
    - [MemStore], [Cursor] and [MemStoreInv], [MemStoreOps], [MemStoreSpec],
      [CursorSpec]: [store/memory.rs]. [Bookmarks], [BookmarksSpec]:
      [store/bookmarks.rs]. [SpanStore], [SpanSpec]: [span/store.rs].
    - [Session], [SessionSpec], [SessionRuns]: [daemon/session.rs] and the records
      of [daemon/persistence.rs].
    - [Processor], [ProcessorSpec], [Domain], [CaptureSpec]:
      [daemon/log_processor.rs], [daemon/span_processor.rs]; [Domain] runs a whole
      domain as a state machine.
    - [Export], [ExportSpec]: [handle_logs_export] of [daemon/rpc_handler.rs].
    - [DomainData], [DataFile], [DataSpec]: [domain_data/].
    - [Measure], [MeasureSpec], [CollectorSamples]: [collector/sketch.rs],
      [exact.rs], [intern.rs], [sample.rs]; [Collector], [CollectorSpec]:
      [collector/state.rs]; [Threshold], [ThresholdSpec]: [threshold.rs];
      [History], [HistorySpec]: [history.rs]; [Persist], [PersistSpec]:
      [persist.rs]; [CollReg], [CollRegSpec], [CollRegRuns], [CollRegFiles],
      [CollRegProgress], [CollRegRestart]: [registry.rs]; [Project],
      [ProjectSpec]: [project.rs]; [Diff], [DiffSpec]: [diff.rs].
    - [Capped]: capped tables, for [LogProfile], [LogProfileSpec]:
      [logs/profile.rs], and [LogFields], [LogFieldsSpec]: [logs/fields.rs].
    - [Metrics], [MetricsSpec]: [receiver/metrics.rs], [throttle.rs]. [Domains]:
      [daemon/domain.rs], [daemon/domain_lifecycle.rs], and [domain_to_info] and
      [assemble_case_domain] of [daemon/rpc_handler.rs]. [GelfRecv]:
      [parse_gelf_message] of [gelf/message.rs], [gelf/tcp.rs], [gelf/udp.rs].
    - [CaseLoad], [CaseSpec]: [cases/load.rs], [cases/bundle.rs],
      [cases/naming.rs]; [CaseFront]: [cases/read.rs], and [front_matter] of
      [cases/document.rs] with [yaml_str] of [collector/document.rs].
    - [daemon/rpc_handler.rs]: [Params] reads parameters; [Reads], [ReadsSpec] has
      the handlers that work on the bound domain alone (logs, traces, spans,
      bookmarks, clearing); [Broker] those that change more than one component
      (domains, filters, triggers, sessions, domain_data, cases.load), with the
      session's start and end of [daemon/server.rs] and, as [serve], the
      dispatch. Over runs of [serve]: [BrokerSpec], with the broker that the
      witnesses run, and [BrokerData].
    - [Sdk]: [src/crates/sdk/src/filter.rs].

    A definition bears the name of the function or type it translates; where the
    code has a block or a loop body that needs a name of its own, the name says
    what the block does. A struct is a record with a prefix on its fields, an
    [enum] an inductive type with the same constructors.

    ** How the code is read

    - Integers: a [u64], [u32] or [usize] is an [N] (a list index a [nat]) with its
      wrap-around or saturation written where the code can reach it, an [i64] or
      [i128] a [Z], [as] a function. A [str] is its bytes, an [f64] a [spec_float].
      A time is a [Z] of nanoseconds.
    - Errors: what returns a [Result] returns a sum or a result type of its own;
      [None] of a partial operation is a panic or a malformed value, as each
      definition says. The handlers' own refusals carry their text; the wording
      of another component's error, and of a note or a mark, is not modelled.
    - Locks: what runs under one lock is one step. One record, or one span, is
      processed to the end before the next of its domain, as the domain's task
      does; requests fall between, each taken whole by [serve]. Cursor reads are
      two steps (take, commit) and collector file work is one step per lock taken,
      with anything in between. The bare atomics of triggers and thresholds are
      written by one task.
    - Maps: a [HashMap] is a [gmap]; where its iteration order could show, the
      order is an argument, and the theorems hold for each. The order of a
      directory listing is an argument too.
    - The world: whether a write, a rename or a removal succeeds, the clock and the
      reply of chrono's formatting are arguments. A file is the value it was
      written from; [serde_json] reads back what it wrote, but for floats, which it
      may read back as a neighbour: where a run or a threshold is read back
      ([CollRegRestart.collector_survives]) that is an argument ([JsonBack]).
    - Other crates: [Externals] (regex, JSON values, Unicode case), [JsonScalars],
      [JsonNumbers], [JsonReader] (what [serde_json] says of a value) and
      [SketchCrate] (the quantile sketch) are class parameters, and so are the JSON
      reader and chrono's instants of a GELF message ([GelfInput]); what a socket
      answers is a [Sockets]; an archive is its entries with what reading each
      yields, and the parsers of a case's records and registry are arguments
      of [CaseLoad.load], with that of the front matter, which is [CaseFront]'s;
      [ExternalsLaws],
      [SketchLaws] and [SketchBytes] state the documented behaviour that theorems
      use, each with a concrete instance on which the witnesses evaluate.
    - Fuel: loops that are not structural take fuel that always suffices, proved
      where it matters: a connection takes one more than its bytes
      ([GelfRecv.connection_frames]), a value of the front matter twice its text
      ([CaseSpec.value_fed]), the label loop takes one more than the runs held
      ([HistorySpec.reserve_label_total]), the path walk the depth cap of 64
      ([ProjectSpec.walk_path_total]), a binary search the length of the list, a file
      set aside one more than the files there are, and the printers of numbers
      the digits of their width.

    ** What the theorems show

    - Storage: the ring holds the newest seqs it was offered and loses none
      silently ([MemStoreSpec]); nothing that arrived vanishes unaccounted and a
      [complete] export is complete ([ExportSpec]); the epoch log never vouches for
      a narrowed range ([EpochSpec]); a trace is read in full ([SpanSpec],
      [PreBuffer]); a firing trigger captures its lead-up and touches no other
      domain ([CaptureSpec]); debouncing is exact ([TriggerSpec]).
    - Reading: a cursor delivers each record once and catches up, and requests that
      read one cursor at once advance it without holes ([CursorSpec]); bookmarks are
      swept exactly and move with their session ([BookmarksSpec]); a
      resolved filter means what it says ([ResolverSpec]); a refused filter matches
      nothing ([Admission]); what the client builds the broker reads back,
      a lone [ALL] or [NONE] as the keyword it is ([Sdk]).
    - Sessions: names are exclusive, the registry's invariant, restart
      ([SessionRuns], [SessionSpec]).
    - Facts: durable, bounded, the broker's own out of reach ([DataSpec]).
    - Requests: over any run of them the domains stay within their bounds and a
      loaded case never changes ([BrokerSpec]); every pre-trigger buffer is as long
      as its domain's sessions ask, a batch is answered entry by entry and a drop
      takes exactly what it names ([BrokerData]); a query without
      a cursor leaves its domain as it was, and a profile is of exactly the records
      it says ([ReadsSpec]).
    - Cases: what is accepted opens, a bundle gives back what was packed, and the
      front matter that a capture writes is read back ([CaseSpec]). Receivers: a
      connection gives exactly the messages between its NULs, in bounded memory
      ([GelfRecv]); what a full channel loses is counted and said, and what is
      offered once a processor has stopped is lost uncounted ([MetricsSpec]).
    - Log profiles: every matching record is in a row or in a total, whatever was
      capped and in whatever order the tables are walked ([LogProfileSpec],
      [LogFieldsSpec]).
    - Collectors: every figure is that of exactly the spans it speaks for
      ([CollectorSpec], [ThresholdSpec]); files and live collectors agree under any
      interleaving, file work ends, a restart restores what was armed and keeps its
      runs, without their breakdowns ([CollRegRestart], [CollRegProgress], [PersistSpec], [HistorySpec]);
      self time and call paths account for every nanosecond and record, and what a
      profile withholds it explains ([ProjectSpec]); two arms are
      compared only where they measured the same population, or the reply says so
      ([DiffSpec]).

    ** Not modelled

    Sockets, servers, the loops of a connection, threads and signals
    ([daemon/server.rs] but for a session's start and end, [transport.rs],
    [process.rs], the accept loops of [gelf/], [receiver/otlp/], [keepalive.rs],
    [rejection.rs]): their behaviour is tokio's and the kernel's. JSON encoding
    and the decoding of whole structures, which serde derives; the handlers of
    collectors, of [traces.profile], [cases.create], [status.get] and
    [tools.manifest]. The rest of a case document and the writing of case files
    ([cases/document.rs], [cases/write.rs]), collector documents
    ([collector/document.rs]), text rendering ([render/]) and the [Display] impls;
    the configuration file ([daemon/persistence.rs]); code generated from protobuf;
    the MCP shim, the command line, the service installer and the build tasks; the
    client's connection. Between [assign_seq] and the append of a record a
    [logs.clear] of another task can fall; that window lies outside [Domain]'s
    steps, which take a record whole. Two requests of different connections run
    one after the other in [serve], where the code takes a lock per component. *)

From Stdlib Require Sorting.Sorted Ascii.
From stdpp Require sorting.
From stdpp Require Export prelude gmap strings.

Set Default Proof Using "Type".

Declare Scope logmon_scope.
Delimit Scope logmon_scope with logmon.
Local Open Scope N_scope.

(** ** Machine integers

    A [u64] is an [N]; the width is written where the code depends on it. *)

Definition u64_max : N := 18446744073709551615.

(** [AtomicU64::fetch_add] and friends: addition modulo 2^64. *)
Definition u64_wrap (n : N) : N := n mod (u64_max + 1).
Definition u64_add (a b : N) : N := u64_wrap (a + b).

(** [u64::saturating_add]. [u64::saturating_sub] is [N.sub]. *)
Definition sat_add (a b : N) : N := N.min (a + b) u64_max.

(** [i64]s are [Z]s. *)
Definition i64_max : Z := 9223372036854775807.
Definition i64_min : Z := -9223372036854775808.
Definition fits_i64 (z : Z) : bool := ((i64_min <=? z) && (z <=? i64_max))%Z.
(** Wrap-around: [as i64] of a wider integer, or an operation past the range. *)
Definition i64_cast (z : Z) : Z := ((z - i64_min) mod (2 * (i64_max + 1)) + i64_min)%Z.

Lemma i64_cast_range z : (i64_min ≤ i64_cast z ≤ i64_max)%Z.
Proof.
  unfold i64_cast. pose proof (Z.mod_pos_bound (z - i64_min) (2 * (i64_max + 1)) ltac:(done)).
  unfold i64_min, i64_max in *. lia.
Qed.

Lemma i64_cast_small z : (i64_min ≤ z ≤ i64_max)%Z → i64_cast z = z.
Proof. intros H. unfold i64_cast, i64_min, i64_max in *. rewrite Z.mod_small by lia. lia. Qed.

Lemma u64_add_small a b : a + b ≤ u64_max → u64_add a b = a + b.
Proof. intros H. unfold u64_add, u64_wrap. apply N.mod_small. lia. Qed.

Lemma u64_add_le a b : u64_add a b ≤ u64_max.
Proof.
  unfold u64_add, u64_wrap.
  pose proof (N.mod_lt (a + b) (u64_max + 1) ltac:(done)). lia.
Qed.

Lemma sat_add_small a b : a + b ≤ u64_max → sat_add a b = a + b.
Proof. unfold sat_add. lia. Qed.

(** ** Tactics shared by every file *)

(** Case on the innermost [match] or [if] of the goal, keeping the equation. *)
Ltac case_goal :=
  match goal with
  | |- context [match ?x with _ => _ end] =>
      lazymatch x with
      | context [match _ with _ => _ end] => fail
      | _ => destruct x eqn:?
      end
  end.

(** Boolean comparisons on [N] and [nat] into their propositions. *)
Ltac bool_to_prop :=
  repeat match goal with
  | H : (_ && _)%bool = true |- _ => apply andb_true_iff in H as [? ?]
  | H : (_ || _)%bool = false |- _ => apply orb_false_iff in H as [? ?]
  | H : negb _ = true |- _ => apply negb_true_iff in H
  | H : negb _ = false |- _ => apply negb_false_iff in H
  | H : (_ <? _) = true |- _ => apply N.ltb_lt in H
  | H : (_ <? _) = false |- _ => apply N.ltb_ge in H
  | H : (_ <=? _) = true |- _ => apply N.leb_le in H
  | H : (_ <=? _) = false |- _ => apply N.leb_gt in H
  | H : (_ =? _) = true |- _ => apply N.eqb_eq in H
  | H : (_ =? _) = false |- _ => apply N.eqb_neq in H
  | H : (_ <? _)%nat = true |- _ => apply Nat.ltb_lt in H
  | H : (_ <? _)%nat = false |- _ => apply Nat.ltb_ge in H
  | H : (_ <=? _)%nat = true |- _ => apply Nat.leb_le in H
  | H : (_ <=? _)%nat = false |- _ => apply Nat.leb_gt in H
  | H : (_ =? _)%nat = true |- _ => apply Nat.eqb_eq in H
  | H : (_ =? _)%nat = false |- _ => apply Nat.eqb_neq in H
  | H : bool_decide _ = true |- _ => apply bool_decide_eq_true in H
  | H : bool_decide _ = false |- _ => apply bool_decide_eq_false in H
  end.

Create HintDb logmon discriminated.

(** [retain] and [Iterator::filter] with a [bool] test are [List.filter]. *)
Lemma elem_of_lfilter {A} (f : A → bool) l x : x ∈ List.filter f l ↔ f x = true ∧ x ∈ l.
Proof. rewrite list_elem_of_In, filter_In, <-list_elem_of_In. tauto. Qed.

#[export] Instance lfilter_Permutation {A} (f : A → bool) :
  Proper (Permutation ==> Permutation) (List.filter f).
Proof. induction 1; simpl; repeat case_goal; try done; try (by constructor). by etrans. Qed.

Lemma filter_all {A} (P : A → Prop) `{!∀ x, Decision (P x)} (l : list A) :
  (∀ x, x ∈ l → P x) → filter P l = l.
Proof.
  induction l as [|x l IH]; [done|]. intros Hp. rewrite filter_cons_True by (apply Hp; by left).
  f_equal. apply IH. intros y Hy. apply Hp. by right.
Qed.

(** ** Lists ordered by a key *)

Section keyed.
Context {A : Type} (key : A → N).
Implicit Types (l : list A) (x y : A) (k : N).

(** Strictly ascending keys: ordered and distinct. *)
Definition ascending (l : list A) : Prop :=
  Sorted.StronglySorted (λ x y, key x < key y) l.

Lemma ascending_cons x l :
  ascending (x :: l) ↔ (∀ y, y ∈ l → key x < key y) ∧ ascending l.
Proof.
  unfold ascending. split.
  - intros H. apply Sorted.StronglySorted_inv in H as [Hl Hx].
    split; [|done]. by rewrite Forall_forall in Hx.
  - intros [Hx Hl]. constructor; [done|]. by rewrite Forall_forall.
Qed.

Lemma ascending_nil : ascending [].
Proof. constructor. Qed.

Lemma ascending_app l1 l2 :
  ascending (l1 ++ l2) ↔
    ascending l1 ∧ ascending l2 ∧ ∀ x y, x ∈ l1 → y ∈ l2 → key x < key y.
Proof.
  induction l1 as [|a l1 IH]; simpl.
  - split; [|tauto]. intros H. split; [apply ascending_nil|].
    split; [done|]. intros x y Hx. by apply elem_of_nil in Hx.
  - rewrite !ascending_cons, IH. set_solver.
Qed.

Lemma ascending_singleton x : ascending [x].
Proof. apply ascending_cons. split; [set_solver|apply ascending_nil]. Qed.

Lemma ascending_snoc l x :
  ascending (l ++ [x]) ↔ ascending l ∧ ∀ y, y ∈ l → key y < key x.
Proof.
  rewrite ascending_app. split; [set_solver|].
  intros [Hl Hx]. split; [done|]. split; [apply ascending_singleton|].
  set_solver.
Qed.

Lemma ascending_filter (P : A → Prop) `{!∀ x, Decision (P x)} l :
  ascending l → ascending (filter P l).
Proof.
  induction l as [|a l IH]; [done|]. rewrite ascending_cons. intros [Ha Hl].
  rewrite filter_cons. case_decide; [|by apply IH].
  apply ascending_cons. split; [|by apply IH].
  intros y Hy. apply list_elem_of_filter in Hy as [_ Hy]. by apply Ha.
Qed.

Lemma ascending_take n l : ascending l → ascending (take n l).
Proof. rewrite <-(take_drop n l) at 1. rewrite ascending_app. tauto. Qed.

Lemma ascending_drop n l : ascending l → ascending (drop n l).
Proof. rewrite <-(take_drop n l) at 1. rewrite ascending_app. tauto. Qed.

Lemma ascending_take_drop n l x y :
  ascending l → x ∈ take n l → y ∈ drop n l → key x < key y.
Proof.
  rewrite <-(take_drop n l) at 1. rewrite ascending_app.
  intros (_ & _ & H). apply H.
Qed.

Lemma ascending_inj l x y :
  ascending l → x ∈ l → y ∈ l → key x = key y → x = y.
Proof.
  induction l as [|a l IH]; [set_solver|].
  rewrite ascending_cons. intros [Ha Hl] Hx Hy Hk.
  apply elem_of_cons in Hx as [->|Hx]; apply elem_of_cons in Hy as [->|Hy].
  - done.
  - apply Ha in Hy. lia.
  - apply Ha in Hx. lia.
  - by apply IH.
Qed.

(** Two ascending lists with the same elements are the same list. *)
Lemma ascending_ext l1 l2 :
  ascending l1 → ascending l2 → (∀ x, x ∈ l1 ↔ x ∈ l2) → l1 = l2.
Proof.
  revert l2. induction l1 as [|a l1 IH]; intros [|b l2] H1 H2 Heq.
  - done.
  - exfalso. by eapply not_elem_of_nil, Heq, elem_of_cons; left.
  - exfalso. by eapply not_elem_of_nil, Heq, elem_of_cons; left.
  - apply ascending_cons in H1 as [Ha H1].
    apply ascending_cons in H2 as [Hb H2].
    assert (a = b) as <-.
    { assert (a ∈ b :: l2) as Hin1 by (apply Heq; set_solver).
      assert (b ∈ a :: l1) as Hin2 by (apply Heq; set_solver).
      apply elem_of_cons in Hin1 as [|Hin1]; [done|].
      apply elem_of_cons in Hin2 as [|Hin2]; [done|].
      apply Ha in Hin2. apply Hb in Hin1. lia. }
    f_equal. apply IH; [done..|]. intros x. specialize (Heq x).
    rewrite !elem_of_cons in Heq. split; intros Hx.
    + destruct (proj1 Heq (or_intror Hx)) as [->|?]; [|done].
      apply Ha in Hx. lia.
    + destruct (proj2 Heq (or_intror Hx)) as [->|?]; [|done].
      apply Hb in Hx. lia.
Qed.

Lemma ascending_lfilter (f : A → bool) l : ascending l → ascending (List.filter f l).
Proof.
  induction l as [|a l IH]; [done|]. rewrite ascending_cons. intros [Ha Hl]. simpl.
  destruct (f a); [|by apply IH]. apply ascending_cons. split; [|by apply IH].
  intros y Hy. apply Ha. apply list_elem_of_In, filter_In in Hy as [Hy _].
  by apply list_elem_of_In.
Qed.

Lemma ascending_NoDup l : ascending l → NoDup l.
Proof.
  induction l as [|a l IH]; [constructor|]. rewrite ascending_cons.
  intros [Ha Hl]. constructor; [|by apply IH].
  intros Hin. apply Ha in Hin. lia.
Qed.

(** Strictly ascending keys in [lo, hi) are at most [hi - lo]. *)
Lemma ascending_length l (lo hi : N) :
  ascending l → (∀ x, x ∈ l → lo ≤ key x < hi) → N.of_nat (length l) ≤ hi - lo.
Proof.
  revert lo. induction l as [|x l IH]; intros lo Hl Hx; [simpl; lia|].
  apply ascending_cons in Hl as [Hlt Hl].
  pose proof (Hx x ltac:(by left)).
  specialize (IH (key x + 1) Hl). simpl length.
  assert (N.of_nat (length l) ≤ hi - (key x + 1)); [|lia].
  apply IH. intros y Hy. pose proof (Hlt y Hy). pose proof (Hx y ltac:(by right)). lia.
Qed.

Lemma ascending_last l x y :
  ascending l → last l = Some y → x ∈ l → key x ≤ key y.
Proof.
  intros Hl Hy Hx. apply last_Some in Hy as [l' ->].
  apply ascending_snoc in Hl as [_ Hl].
  apply elem_of_app in Hx as [Hx|Hx%list_elem_of_singleton].
  - apply Hl in Hx. lia.
  - subst. lia.
Qed.

Lemma ascending_head l x y :
  ascending l → head l = Some y → x ∈ l → key y ≤ key x.
Proof.
  destruct l as [|a l]; [done|]. simpl. intros Hl [= ->] Hx.
  apply ascending_cons in Hl as [Ha _].
  apply elem_of_cons in Hx as [->|Hx]; [lia|]. apply Ha in Hx. lia.
Qed.
End keyed.

(** ** [slice::partition_point] and [binary_search_by_key]

    The loop halves [lo, hi) while [p] of the middle element decides which half
    keeps the boundary. [fuel] bounds the halvings; the length is enough. *)

Section bisect.
Context {A : Type} (p : A → bool).
Implicit Types (l : list A).

Fixpoint bisect (fuel : nat) (l : list A) (lo hi : nat) : nat :=
  match fuel with
  | O => lo
  | S fuel =>
      if (lo <? hi)%nat then
        let mid := (lo + (hi - lo) / 2)%nat in
        match l !! mid with
        | Some x => if p x then bisect fuel l (S mid) hi else bisect fuel l lo mid
        | None => lo
        end
      else lo
  end.

Definition partition_point (l : list A) : nat := bisect (length l) l 0 (length l).

(** [l] is split by [p]: a prefix where it holds, then a suffix where it fails. *)
Definition split_at (l : list A) (n : nat) : Prop :=
  (∀ i x, l !! i = Some x → (i < n)%nat → p x = true) ∧
  (∀ i x, l !! i = Some x → (n ≤ i)%nat → p x = false).

Lemma bisect_correct fuel l lo hi n :
  split_at l n → (hi ≤ length l)%nat → (lo ≤ n ≤ hi)%nat → (hi - lo ≤ fuel)%nat →
  bisect fuel l lo hi = n.
Proof.
  intros [Ht Hf]. revert lo hi.
  induction fuel as [|fuel IH]; intros lo hi Hhi Hn Hfuel; cbn [bisect]; [lia|].
  destruct (lo <? hi)%nat eqn:E; bool_to_prop; [|lia].
  assert (lo ≤ lo + (hi - lo) / 2 < hi)%nat as Hmid.
  { pose proof (Nat.div_lt (hi - lo) 2 ltac:(lia) ltac:(lia)). lia. }
  cbv zeta. set (mid := (lo + (hi - lo) / 2)%nat) in *.
  destruct (l !! mid) as [x|] eqn:Hx.
  2: { apply lookup_ge_None in Hx. lia. }
  destruct (p x) eqn:Hp; apply IH; try lia.
  - split; [|lia]. destruct (decide (S mid ≤ n)%nat); [done|].
    rewrite (Hf mid x) in Hp; [done..|lia].
  - split; [lia|]. destruct (decide (n ≤ mid)%nat); [done|].
    rewrite (Ht mid x) in Hp; [done..|lia].
Qed.

Lemma partition_point_correct l n :
  split_at l n → (n ≤ length l)%nat → partition_point l = n.
Proof. intros. apply bisect_correct; [done|lia..]. Qed.

Lemma partition_point_app l1 l2 :
  (∀ x, x ∈ l1 → p x = true) → (∀ x, x ∈ l2 → p x = false) →
  partition_point (l1 ++ l2) = length l1.
Proof.
  intros H1 H2. apply partition_point_correct.
  - split; intros i x Hi Hlt.
    + apply H1. rewrite lookup_app_l in Hi by done.
      by eapply list_elem_of_lookup_2.
    + apply H2. rewrite lookup_app_r in Hi by done.
      by eapply list_elem_of_lookup_2.
  - rewrite length_app. lia.
Qed.
End bisect.

Section keyed_search.
Context {A : Type} (key : A → N).
Implicit Types (l : list A) (x y : A) (k : N).

(** [Ok(i)] is [Some i]; the insertion point of [Err] is used by no caller. *)
Definition binary_search_by_key (k : N) (l : list A) : option nat :=
  let i := partition_point (λ x, key x <? k) l in
  match l !! i with
  | Some x => if key x =? k then Some i else None
  | None => None
  end.

Lemma partition_point_ascending (f : N → bool) l :
  ascending key l →
  (∀ a b, a < b → f b = true → f a = true) →
  l = take (partition_point (λ x, f (key x)) l) l ++
      drop (partition_point (λ x, f (key x)) l) l ∧
  (∀ x, x ∈ take (partition_point (λ x, f (key x)) l) l → f (key x) = true) ∧
  (∀ x, x ∈ drop (partition_point (λ x, f (key x)) l) l → f (key x) = false).
Proof.
  intros Hl Hf.
  assert (∃ l1 l2, l = l1 ++ l2 ∧ (∀ x, x ∈ l1 → f (key x) = true) ∧
                   (∀ x, x ∈ l2 → f (key x) = false)) as (l1 & l2 & -> & H1 & H2).
  { clear -Hl Hf. induction l as [|a l IH].
    - exists [], []. split_and!; [done|set_solver..].
    - apply ascending_cons in Hl as [Ha Hl].
      destruct (f (key a)) eqn:E.
      + destruct (IH Hl) as (l1 & l2 & -> & H1 & H2).
        exists (a :: l1), l2. split_and!; [done| |done].
        intros x [->|Hx]%elem_of_cons; [done|]. by apply H1.
      + exists [], (a :: l). split_and!; [done|set_solver|].
        intros x [->|Hx]%elem_of_cons; [done|].
        destruct (f (key x)) eqn:Ex; [|done].
        rewrite (Hf (key a) (key x)) in E; [done|by apply Ha|done]. }
  rewrite (partition_point_app _ l1 l2) by done.
  rewrite take_app_length, drop_app_length. done.
Qed.

Lemma partition_point_lookup (f : N → bool) l i x :
  ascending key l → (∀ a b, a < b → f b = true → f a = true) → l !! i = Some x →
  (i < partition_point (λ x, f (key x)) l)%nat ↔ f (key x) = true.
Proof.
  intros Hl Hf Hi. destruct (partition_point_ascending f l Hl Hf) as (_ & H1 & H2).
  set (n := partition_point _ l) in *. split.
  - intros Hn. apply H1, list_elem_of_lookup. exists i. by rewrite lookup_take_lt.
  - intros Hx. destruct (decide (i < n)%nat) as [|Hn]; [done|].
    rewrite H2 in Hx; [done|]. apply list_elem_of_lookup. exists (i - n)%nat.
    rewrite lookup_drop. by replace (n + (i - n))%nat with i by lia.
Qed.
End keyed_search.

(** ** Sorting, deduplicating and merging by key

    [find_key k l] is the first element of [l] with key [k]: the abstract
    content of a keyed list. An ascending list is determined by it. *)

Section keyed_ops.
Context {A : Type} (key : A → N).
Implicit Types (l : list A) (x y : A) (k : N).

Fixpoint find_key (k : N) (l : list A) : option A :=
  match l with
  | [] => None
  | x :: l => if key x =? k then Some x else find_key k l
  end.

(** [sort_by_key] is stable: equal keys keep their order. *)
Fixpoint insert_by_key (x : A) (l : list A) : list A :=
  match l with
  | [] => [x]
  | y :: l' => if key x <=? key y then x :: l else y :: insert_by_key x l'
  end.

Definition sort_by_key (l : list A) : list A := foldr insert_by_key [] l.

(** [dedup_by_key] keeps the first of every run of equal keys. *)
Fixpoint dedup_from (k : N) (l : list A) : list A :=
  match l with
  | [] => []
  | y :: l => if key y =? k then dedup_from k l else y :: dedup_from (key y) l
  end.

Definition dedup_by_key (l : list A) : list A :=
  match l with
  | [] => []
  | x :: l => x :: dedup_from (key x) l
  end.

(** The two-cursor merge loop: the left head goes first when its key is
    smaller, the right head otherwise. *)
Fixpoint merge_by_key (l1 : list A) : list A → list A :=
  fix merge_aux (l2 : list A) : list A :=
    match l1, l2 with
    | x :: l1', y :: l2' =>
        if key x <? key y then x :: merge_by_key l1' l2 else y :: merge_aux l2'
    | _ :: _, [] => l1
    | [], _ => l2
    end.

Lemma merge_by_key_nil_l l : merge_by_key [] l = l.
Proof. by destruct l. Qed.

Lemma merge_by_key_nil_r l : merge_by_key l [] = l.
Proof. by destruct l. Qed.

Lemma merge_by_key_cons x l1 y l2 :
  merge_by_key (x :: l1) (y :: l2) =
    if key x <? key y then x :: merge_by_key l1 (y :: l2)
    else y :: merge_by_key (x :: l1) l2.
Proof. done. Qed.

Lemma find_key_Some k l x : find_key k l = Some x → x ∈ l ∧ key x = k.
Proof.
  induction l as [|y l IH]; simpl; [done|]. destruct (key y =? k) eqn:E.
  - intros [= ->]. bool_to_prop. split; [by left|done].
  - intros [??]%IH. split; [by right|done].
Qed.

Lemma find_key_None k l : find_key k l = None ↔ ∀ x, x ∈ l → key x ≠ k.
Proof.
  induction l as [|y l IH]; simpl; [set_solver|].
  destruct (key y =? k) eqn:E; bool_to_prop.
  - split; [done|]. intros H. by destruct (H y); [left|].
  - rewrite IH. set_solver.
Qed.

Lemma find_key_ascending k l x :
  ascending key l → x ∈ l → key x = k → find_key k l = Some x.
Proof.
  intros Hl Hx Hk. destruct (find_key k l) as [y|] eqn:E.
  - apply find_key_Some in E as [Hy Hyk]. f_equal.
    eapply (ascending_inj key); eauto with congruence.
  - by eapply find_key_None in E.
Qed.

Lemma find_key_ext l1 l2 :
  ascending key l1 → ascending key l2 →
  (∀ k, find_key k l1 = find_key k l2) → l1 = l2.
Proof.
  intros H1 H2 Heq. apply (ascending_ext key); [done..|]. intros x. split; intros Hx.
  - eapply find_key_Some. rewrite <-Heq. by apply find_key_ascending.
  - eapply find_key_Some. rewrite Heq. by apply find_key_ascending.
Qed.

Lemma find_key_app k l1 l2 :
  find_key k (l1 ++ l2) =
    match find_key k l1 with Some x => Some x | None => find_key k l2 end.
Proof. induction l1 as [|x l1 IH]; simpl; [done|]. by case_goal. Qed.

Lemma find_key_filter (P : A → Prop) `{!∀ x, Decision (P x)} k l :
  (∀ x y, key x = key y → P x → P y) →
  find_key k (filter P l) =
    match find_key k l with
    | Some x => if decide (P x) then Some x else None
    | None => None
    end.
Proof.
  intros HP. induction l as [|y l IH]; [done|]. rewrite filter_cons.
  destruct (decide (P y)) as [Hy|Hy]; simpl; destruct (key y =? k) eqn:E;
    bool_to_prop; try done.
  - by rewrite decide_True.
  - rewrite decide_False by done. rewrite IH.
    destruct (find_key k l) as [z|] eqn:Ez; [|done].
    apply find_key_Some in Ez as [_ Ez]. rewrite decide_False; [done|].
    intros Hz. apply Hy, (HP z); [congruence|done].
Qed.

Lemma elem_of_insert_by_key x y l : y ∈ insert_by_key x l ↔ y = x ∨ y ∈ l.
Proof.
  induction l as [|z l IH]; simpl; [set_solver|]. case_goal; set_solver.
Qed.

Lemma elem_of_sort_by_key x l : x ∈ sort_by_key l ↔ x ∈ l.
Proof.
  induction l as [|z l IH]; simpl; [done|].
  rewrite elem_of_insert_by_key. set_solver.
Qed.

Definition nondecreasing : list A → Prop := Sorted.StronglySorted (λ x y, key x ≤ key y).

Lemma nondecreasing_cons x l :
  nondecreasing (x :: l) ↔ (∀ y, y ∈ l → key x ≤ key y) ∧ nondecreasing l.
Proof.
  unfold nondecreasing. split.
  - intros [Hl Hx]%Sorted.StronglySorted_inv. split; [|done].
    by rewrite Forall_forall in Hx.
  - intros [Hx Hl]. constructor; [done|]. by rewrite Forall_forall.
Qed.

Lemma sort_by_key_nondecreasing l : nondecreasing (sort_by_key l).
Proof.
  induction l as [|x l IH]; simpl; [constructor|].
  induction (sort_by_key l) as [|y s IHs]; simpl.
  - apply nondecreasing_cons. split; [set_solver|constructor].
  - apply nondecreasing_cons in IH as [Hy Hs].
    destruct (key x <=? key y) eqn:E; bool_to_prop; apply nondecreasing_cons.
    + split; [|by apply nondecreasing_cons].
      intros z [->|Hz]%elem_of_cons; [done|]. apply Hy in Hz. lia.
    + split; [|by apply IHs].
      intros z [->|Hz]%elem_of_insert_by_key; [lia|by apply Hy].
Qed.

Lemma sort_by_key_ascending l : NoDup (key <$> l) → ascending key (sort_by_key l).
Proof.
  induction l as [|x l IH]; [intros; apply ascending_nil|].
  rewrite fmap_cons, NoDup_cons. intros [Hx Hl]. simpl. specialize (IH Hl).
  assert (Hne : ∀ y, y ∈ sort_by_key l → key y ≠ key x).
  { intros y Hy Heq. rewrite elem_of_sort_by_key in Hy. apply Hx. rewrite <-Heq.
    apply list_elem_of_fmap. exists y. done. }
  clear Hx Hl. induction (sort_by_key l) as [|y s IHs]; simpl; [apply ascending_singleton|].
  pose proof IH as [Hy Hs]%ascending_cons.
  assert (key y ≠ key x) by (apply Hne; by left).
  destruct (key x <=? key y) eqn:E; bool_to_prop; apply ascending_cons.
  - split; [|done]. intros z [->|Hz%Hy]%elem_of_cons; lia.
  - split; [|apply IHs; [done|set_solver]].
    intros z [->|Hz]%elem_of_insert_by_key; [lia|by apply Hy].
Qed.

Lemma find_key_insert_by_key k x l :
  nondecreasing l →
  find_key k (insert_by_key x l) = if key x =? k then Some x else find_key k l.
Proof.
  induction l as [|y l IH]; simpl; [done|]. intros [Hy Hl]%nondecreasing_cons.
  destruct (key x <=? key y) eqn:E; simpl; [done|]. rewrite IH by done.
  bool_to_prop. destruct (key y =? k) eqn:E1, (key x =? k) eqn:E2; bool_to_prop; try done.
  lia.
Qed.

Lemma find_key_sort k l : find_key k (sort_by_key l) = find_key k l.
Proof.
  induction l as [|x l IH]; simpl; [done|].
  rewrite find_key_insert_by_key by apply sort_by_key_nondecreasing. by rewrite IH.
Qed.

Lemma elem_of_dedup_from k x l : x ∈ dedup_from k l → x ∈ l ∧ key x ≠ k ∨ x ∈ l.
Proof.
  revert k. induction l as [|y l IH]; simpl; intros k; [set_solver|].
  case_goal; [|set_solver]. intros ?%IH. set_solver.
Qed.

Lemma dedup_from_ascending k l :
  nondecreasing l → (∀ x, x ∈ l → k ≤ key x) →
  ascending key (dedup_from k l) ∧ (∀ x, x ∈ dedup_from k l → k < key x).
Proof.
  revert k. induction l as [|y l IH]; intros k; simpl.
  - split; [apply ascending_nil|set_solver].
  - intros [Hy Hl]%nondecreasing_cons Hk.
    destruct (key y =? k) eqn:E; bool_to_prop.
    + apply IH; [done|]. set_solver.
    + destruct (IH (key y) Hl Hy) as [IH1 IH2].
      assert (k ≤ key y) by (apply Hk; by left). assert (k < key y) by lia.
      rewrite ascending_cons. split; [done|].
      intros x [->|Hx]%elem_of_cons; [done|]. apply IH2 in Hx. lia.
Qed.

Lemma find_key_dedup_from k' k l :
  nondecreasing l → (∀ x, x ∈ l → k' ≤ key x) → k ≠ k' →
  find_key k (dedup_from k' l) = find_key k l.
Proof.
  revert k'. induction l as [|y l IH]; intros k'; simpl; [done|].
  intros [Hy Hl]%nondecreasing_cons Hk Hne.
  destruct (key y =? k') eqn:E; bool_to_prop; simpl.
  - rewrite IH; [|done|set_solver|done].
    destruct (key y =? k) eqn:E'; bool_to_prop; congruence.
  - destruct (key y =? k) eqn:E'; bool_to_prop; [done|]. apply IH; [done..|]. congruence.
Qed.

Definition sort_dedup (l : list A) : list A := dedup_by_key (sort_by_key l).

Lemma sort_dedup_ascending l : ascending key (sort_dedup l).
Proof.
  unfold sort_dedup. pose proof (sort_by_key_nondecreasing l) as H.
  destruct (sort_by_key l) as [|x s]; simpl; [apply ascending_nil|].
  apply nondecreasing_cons in H as [Hx Hs].
  apply ascending_cons. destruct (dedup_from_ascending (key x) s Hs Hx). done.
Qed.

(** Of the elements sharing a key, the first one in the batch survives. *)
Lemma find_key_sort_dedup k l : find_key k (sort_dedup l) = find_key k l.
Proof.
  rewrite <-(find_key_sort k l). unfold sort_dedup.
  pose proof (sort_by_key_nondecreasing l) as H.
  destruct (sort_by_key l) as [|x s]; simpl; [done|].
  apply nondecreasing_cons in H as [Hx Hs].
  destruct (key x =? k) eqn:E; bool_to_prop; [done|].
  apply find_key_dedup_from; [done..|]. congruence.
Qed.

Lemma elem_of_sort_dedup x l : x ∈ sort_dedup l → x ∈ l.
Proof.
  intros Hx.
  assert (find_key (key x) (sort_dedup l) = Some x) as H
    by (by apply find_key_ascending; [apply sort_dedup_ascending|..]).
  rewrite find_key_sort_dedup in H. by apply find_key_Some in H as [? _].
Qed.

Lemma length_sort_dedup_le l : (length (sort_dedup l) ≤ length l)%nat.
Proof.
  assert (∀ x l, length (insert_by_key x l) = S (length l)) as Hi.
  { intros x l'. induction l' as [|y l' IH]; simpl; [done|].
    destruct (key x <=? key y); simpl; [done|]. by rewrite IH. }
  assert (length (sort_by_key l) = length l) as <-.
  { induction l as [|x l IH]; simpl; [done|]. by rewrite Hi, IH. }
  assert (∀ l k, length (dedup_from k l) ≤ length l)%nat as Hd.
  { intros l'. induction l' as [|y l' IH]; intros k; simpl; [done|].
    destruct (key y =? k); simpl; [rewrite IH; lia|]. specialize (IH (key y)). lia. }
  unfold sort_dedup. destruct (sort_by_key l) as [|x s]; simpl; [done|].
  specialize (Hd s (key x)). lia.
Qed.

Lemma elem_of_merge_by_key x l1 l2 : x ∈ merge_by_key l1 l2 ↔ x ∈ l1 ∨ x ∈ l2.
Proof.
  revert l2. induction l1 as [|y l1 IH1].
  { intros l2. rewrite merge_by_key_nil_l. set_solver. }
  intros l2. induction l2 as [|z l2 IH2].
  { rewrite merge_by_key_nil_r. set_solver. }
  rewrite merge_by_key_cons. destruct (key y <? key z); [|set_solver].
  rewrite !elem_of_cons, IH1. set_solver.
Qed.

Lemma merge_by_key_ascending l1 l2 :
  ascending key l1 → ascending key l2 →
  (∀ x y, x ∈ l1 → y ∈ l2 → key x ≠ key y) →
  ascending key (merge_by_key l1 l2).
Proof.
  revert l2. induction l1 as [|y l1 IH1]; [by intros []|].
  intros l2. induction l2 as [|z l2 IH2]; [done|].
  intros H1 H2 Hd. pose proof H1 as [Hy Hl1]%ascending_cons.
  pose proof H2 as [Hz Hl2]%ascending_cons.
  assert (key y ≠ key z) by (apply Hd; by left).
  rewrite merge_by_key_cons. destruct (key y <? key z) eqn:E; bool_to_prop.
  - apply ascending_cons. split; [|apply IH1; [done..|set_solver]].
    intros x [Hx| [->|Hx]%elem_of_cons]%elem_of_merge_by_key; [by apply Hy|done|].
    apply Hz in Hx. lia.
  - apply ascending_cons. split; [|apply IH2; [done..|set_solver]].
    intros x [[->|Hx]%elem_of_cons|Hx]%elem_of_merge_by_key; [lia| |by apply Hz].
    apply Hy in Hx. lia.
Qed.

Lemma length_merge_by_key l1 l2 :
  length (merge_by_key l1 l2) = (length l1 + length l2)%nat.
Proof.
  revert l2. induction l1 as [|y l1 IH1]; [by intros []|].
  intros l2. induction l2 as [|z l2 IH2]; [simpl; lia|].
  rewrite merge_by_key_cons.
  destruct (key y <? key z); cbn [length]; [rewrite IH1|rewrite IH2]; simpl; lia.
Qed.

Lemma merge_by_key_app_l l0 l1 l2 :
  (∀ x y, x ∈ l0 → y ∈ l2 → key x < key y) →
  merge_by_key (l0 ++ l1) l2 = l0 ++ merge_by_key l1 l2.
Proof.
  induction l0 as [|x l0 IH]; [done|]. intros H. rewrite <-!app_comm_cons.
  destruct l2 as [|y l2]; [by rewrite !merge_by_key_nil_r|].
  rewrite merge_by_key_cons.
  replace (key x <? key y) with true; [|symmetry; apply N.ltb_lt, H; by left].
  f_equal. apply IH. set_solver.
Qed.

Lemma merge_by_key_below l1 l2 :
  (∀ x y, x ∈ l1 → y ∈ l2 → key x < key y) → merge_by_key l1 l2 = l1 ++ l2.
Proof.
  intros H. rewrite <-(app_nil_r l1) at 1. rewrite merge_by_key_app_l by done.
  by destruct l2.
Qed.

Lemma merge_by_key_ext l1 l2 l :
  ascending key l1 → ascending key l2 → ascending key l →
  (∀ x y, x ∈ l1 → y ∈ l2 → key x ≠ key y) →
  (∀ x, x ∈ l ↔ x ∈ l1 ∨ x ∈ l2) → merge_by_key l1 l2 = l.
Proof.
  intros. apply (ascending_ext key); [by apply merge_by_key_ascending|done|].
  intros x. rewrite elem_of_merge_by_key. naive_solver.
Qed.
End keyed_ops.

(** ** Binary search over an ascending list *)

Section keyed_search_facts.
Context {A : Type} (key : A → N).
Implicit Types (l : list A) (x y : A) (k : N).

Lemma ascending_lookup_lt l i j x y :
  ascending key l → l !! i = Some x → l !! j = Some y → (i < j)%nat → key x < key y.
Proof.
  intros Hl Hi Hj Hij. apply (ascending_take_drop key j l); [done|..].
  - apply list_elem_of_lookup. exists i. by rewrite lookup_take_lt by done.
  - apply list_elem_of_lookup. exists 0%nat. by rewrite lookup_drop, Nat.add_0_r.
Qed.

Lemma binary_search_Some k l i :
  ascending key l →
  binary_search_by_key key k l = Some i ↔ ∃ x, l !! i = Some x ∧ key x = k.
Proof.
  intros Hl. unfold binary_search_by_key.
  destruct (partition_point_ascending key (λ n, n <? k) l Hl) as (_ & H1 & H2).
  { intros a b ? ?; bool_to_prop. apply N.ltb_lt. lia. }
  set (n := partition_point (λ x, key x <? k) l) in *.
  assert (∀ j x, l !! j = Some x → key x = k → j = n) as Huniq.
  { intros j x Hj Hk. destruct (Nat.lt_trichotomy j n) as [Hlt|[?|Hgt]]; [|done|].
    - assert (x ∈ take n l) as Hin.
      { apply list_elem_of_lookup. exists j. by rewrite lookup_take_lt. }
      apply H1 in Hin. bool_to_prop. lia.
    - destruct (l !! n) as [y|] eqn:Hn.
      2: { apply lookup_ge_None in Hn. apply lookup_lt_Some in Hj. lia. }
      pose proof (ascending_lookup_lt l n j y x Hl Hn Hj Hgt).
      assert (y ∈ drop n l) as Hin.
      { apply list_elem_of_lookup. exists 0%nat. by rewrite lookup_drop, Nat.add_0_r. }
      apply H2 in Hin. bool_to_prop. lia. }
  destruct (l !! n) as [y|] eqn:Hn.
  - destruct (key y =? k) eqn:E; bool_to_prop.
    + split; [intros [= <-]; eauto|]. intros (x & Hx & Hk). f_equal. symmetry.
      by eapply Huniq.
    + split; [done|]. intros (x & Hx & Hk).
      assert (i = n) as -> by eauto. congruence.
  - split; [done|]. intros (x & Hx & Hk). assert (i = n) as -> by eauto. congruence.
Qed.

Lemma binary_search_None k l :
  ascending key l →
  binary_search_by_key key k l = None ↔ ∀ x, x ∈ l → key x ≠ k.
Proof.
  intros Hl. split.
  - intros Hn x Hx Hk. apply list_elem_of_lookup in Hx as [i Hi].
    assert (binary_search_by_key key k l = Some i) as Hs
      by (apply binary_search_Some; eauto). congruence.
  - intros Hn. destruct (binary_search_by_key key k l) as [i|] eqn:E; [|done].
    apply binary_search_Some in E as (x & Hx & Hk); [|done].
    exfalso. eapply Hn; [by eapply list_elem_of_lookup_2|done].
Qed.

Lemma binary_search_find k l :
  ascending key l →
  match binary_search_by_key key k l with Some i => l !! i | None => None end =
  find_key key k l.
Proof.
  intros Hl. destruct (binary_search_by_key key k l) as [i|] eqn:E.
  - apply binary_search_Some in E as (x & Hx & Hk); [|done].
    rewrite Hx. symmetry. apply find_key_ascending; [done| |done].
    by eapply list_elem_of_lookup_2.
  - symmetry. apply find_key_None. by apply binary_search_None.
Qed.
End keyed_search_facts.

(** ** A [BTreeMap]'s ordered iteration *)

Section btree.
Context {A : Type}.
Implicit Types (m : gmap N A) (k : N) (v : A).

Definition btree_iter (m : gmap N A) : list (N * A) := sort_by_key fst (map_to_list m).

Lemma btree_iter_ascending m : ascending fst (btree_iter m).
Proof. apply sort_by_key_ascending, NoDup_fst_map_to_list. Qed.

Lemma elem_of_btree_iter m k v : (k, v) ∈ btree_iter m ↔ m !! k = Some v.
Proof. unfold btree_iter. by rewrite elem_of_sort_by_key, elem_of_map_to_list. Qed.

Lemma length_btree_iter m : length (btree_iter m) = size m.
Proof.
  unfold btree_iter. rewrite <-length_map_to_list.
  assert (∀ l : list (N * A), length (sort_by_key fst l) = length l) as ->; [|done].
  induction l as [|x l IH]; simpl; [done|]. rewrite <-IH. clear IH.
  induction (sort_by_key fst l) as [|y s IHs]; simpl; [done|].
  destruct (x.1 <=? y.1); simpl; [done|]. by rewrite IHs.
Qed.
End btree.

(** ** Comparisons

    What [cmp] and [then_with] build: a three-way comparison that is a total order. *)

Class LawfulCmp {A} (cmp : A → A → comparison) := {
  cmp_opp a b : cmp a b = CompOpp (cmp b a);
  cmp_Eq a b : cmp a b = Eq → a = b;
  cmp_Lt a b c : cmp a b = Lt → cmp b c = Lt → cmp a c = Lt;
}.

Lemma cmp_refl `{LawfulCmp A cmp} a : cmp a a = Eq.
Proof. pose proof (cmp_opp a a). by destruct (cmp a a). Qed.
Lemma cmp_Gt_Lt `{LawfulCmp A cmp} a b : cmp a b = Gt → cmp b a = Lt.
Proof. intros H1. by rewrite cmp_opp, H1. Qed.

(** [Ordering::then_with]. *)
Definition cmp_then (c1 c2 : comparison) : comparison := match c1 with Eq => c2 | c => c end.

Definition cmp_pair {A B} (f : A → A → comparison) (g : B → B → comparison) (x y : A * B) : comparison :=
  cmp_then (f x.1 y.1) (g x.2 y.2).
#[export] Instance cmp_pair_lawful {A B} f g : LawfulCmp f → LawfulCmp g → LawfulCmp (@cmp_pair A B f g).
Proof.
  intros Hf Hg. split; unfold cmp_pair, cmp_then; intros [a b] [c d]; simpl.
  - rewrite (cmp_opp a c). destruct (f c a); simpl; [apply cmp_opp|done..].
  - destruct (f a c) eqn:E; [|done..]. intros ->%cmp_Eq. by apply cmp_Eq in E as ->.
  - intros [e h]. simpl. destruct (f a c) eqn:E1; [apply cmp_Eq in E1 as ->|destruct (f c e) eqn:E2|]; try done.
    + destruct (f c e) eqn:E2; [|done..]. apply cmp_Lt.
    + apply cmp_Eq in E2 as ->. by rewrite E1.
    + by rewrite (cmp_Lt (cmp:=f) a c e).
Qed.

Fixpoint cmp_list {A} (f : A → A → comparison) (a b : list A) : comparison :=
  match a, b with
  | [], [] => Eq
  | [], _ => Lt
  | _, [] => Gt
  | x :: a, y :: b => cmp_then (f x y) (cmp_list f a b)
  end.
#[export] Instance cmp_list_lawful {A} f : LawfulCmp f → LawfulCmp (@cmp_list A f).
Proof.
  intros Hf. split.
  - induction a as [|x a IH]; intros [|y b]; simpl; [done..|]. rewrite (cmp_opp x y). destruct (f y x); simpl; auto.
  - induction a as [|x a IH]; intros [|y b]; simpl; [done..|]. destruct (f x y) eqn:E; simpl; [|done..].
    apply cmp_Eq in E as ->. by intros ->%IH.
  - induction a as [|x a IH]; intros [|y b] [|z c]; simpl; try done.
    destruct (f x y) eqn:E1; simpl; [apply cmp_Eq in E1 as ->|destruct (f y z) eqn:E2; simpl|]; try done.
    + destruct (f y z); simpl; [apply IH|done..].
    + apply cmp_Eq in E2 as ->. by rewrite E1.
    + by rewrite (cmp_Lt (cmp:=f) x y z).
Qed.

(** A string is compared as its characters are. *)
#[export] Instance ascii_lawful : LawfulCmp Ascii.compare.
Proof.
  split; [apply Ascii.compare_antisym|apply Ascii.compare_eq_iff|]. intros a b c. unfold Ascii.compare.
  rewrite !N.compare_lt_iff. lia.
Qed.
Lemma string_cmp_list a : ∀ b, String.compare a b = cmp_list Ascii.compare (String.list_ascii_of_string a) (String.list_ascii_of_string b).
Proof. induction a as [|x a IH]; intros [|y b]; simpl; [done..|]. rewrite IH. by destruct (Ascii.compare x y). Qed.
#[export] Instance string_lawful : LawfulCmp String.compare.
Proof.
  split; [apply String.compare_antisym|apply String.compare_eq_iff|]. intros a b c. rewrite !string_cmp_list. apply cmp_Lt.
Qed.
#[export] Instance bool_lawful : LawfulCmp Bool.compare.
Proof. split; [by intros [] []|by intros [] []|by intros [] [] []]. Qed.
#[export] Instance Z_lawful : LawfulCmp Z.compare.
Proof. split; [intros; by rewrite Z.compare_antisym|apply Z.compare_eq|intros a b c; rewrite !Z.compare_lt_iff; lia]. Qed.
Lemma flip_lawful {A} (cmp : A → A → comparison) : LawfulCmp cmp → LawfulCmp (flip cmp).
Proof. intros Hc. split; unfold flip; intros; [apply cmp_opp|symmetry; by apply cmp_Eq|by eapply cmp_Lt]. Qed.

(** Sorting by a lawful comparison of a key. *)
Section key.
Context {A B} (key : A → B) (cmp : B → B → comparison) {Hc : LawfulCmp cmp}.
Definition key_le (x y : A) : Prop := cmp (key x) (key y) ≠ Gt.
#[export] Instance key_le_dec x y : Decision (key_le x y).
Proof. unfold key_le. apply _. Defined.
#[export] Instance key_le_total : Total key_le.
Proof using Hc. intros x y. unfold key_le. rewrite (cmp_opp (key y)). destruct (cmp (key x) (key y)); by (left + right). Qed.
#[export] Instance key_le_trans : Transitive key_le.
Proof using Hc.
  intros x y z. unfold key_le. destruct (cmp (key x) (key y)) eqn:E1; [apply cmp_Eq in E1 as ->; done| |done].
  destruct (cmp (key y) (key z)) eqn:E2; [apply cmp_Eq in E2 as <-; by rewrite E1| |done]. by rewrite (cmp_Lt _ _ _ E1 E2).
Qed.
Lemma key_le_antisym x y : key_le x y → key_le y x → key x = key y.
Proof using Hc. unfold key_le. rewrite (cmp_opp (key y)). destruct (cmp (key x) (key y)) eqn:E; [by intros _ _; apply cmp_Eq|done..]. Qed.
End key.

(** Sorting does not depend on the order of what is sorted, when what the
    relation takes for one is one by an [id] that no two elements share. *)
Lemma merge_sort_unique {A C} (R : A → A → Prop) `{∀ x y, Decision (R x y), !Total R, !Transitive R} (id : A → C) l l' :
  (∀ x y, R x y → R y x → id x = id y) → NoDup (id <$> l) → l ≡ₚ l' →
  sorting.merge_sort R l = sorting.merge_sort R l'.
Proof.
  intros Hid Hn Hp. apply (sorting.StronglySorted_unique_strong R);
    [|apply sorting.StronglySorted_merge_sort; apply _..|by rewrite !sorting.merge_sort_Permutation].
  intros x y. rewrite !sorting.merge_sort_Permutation, <-Hp. intros [i Hi]%list_elem_of_lookup [j Hj]%list_elem_of_lookup H1 H2.
  assert (i = j) as ->; [|congruence].
  apply (NoDup_lookup _ i j (id x) Hn); rewrite list_lookup_fmap; [by rewrite Hi|rewrite Hj; simpl; f_equal; symmetry; auto].
Qed.
