(* ===== verification/Text.v ===== *)
(** * Text: Rust's [str] operations on UTF-8 bytes, and what the broker takes
    from other crates

    A [str] is the [string] of its UTF-8 bytes, so [len] is [String.length] and
    a search for an ASCII character is a byte search. [Externals] gathers the
    code the broker calls and does not contain: the [regex] crate, the JSON
    values of [serde_json], and the Unicode case tables behind
    [str::to_lowercase] / [str::to_uppercase]. *)

From S2P Require Import Prelude.
From Stdlib Require Export Ascii.
From stdpp Require Export pretty strings.

Set Default Proof Using "Type".
Local Open Scope N_scope.

Class Externals := {
  (** [serde_json::Value]: [as_str] answers for a JSON string only, and
      [Value_to_string] is its [Display]. *)
  Value : Type;
  Value_as_str : Value → option string;
  Value_to_string : Value → string;
  (** [regex::Regex::new] — the error is the crate's own message — and [is_match]. *)
  Regex : Type;
  Regex_new : string → string + Regex;
  is_match : Regex → string → bool;
  (** The Unicode case mappings. *)
  to_lowercase : string → string;
  to_uppercase : string → string;
}.

(** ** Prefixes, suffixes and searches *)

Fixpoint strip_prefix (p s : string) : option string :=
  match p, s with
  | EmptyString, _ => Some s
  | String a p, String b s => if Ascii.eqb a b then strip_prefix p s else None
  | String _ _, EmptyString => None
  end.

Definition starts_with (p s : string) : bool := bool_decide (is_Some (strip_prefix p s)).

Fixpoint str_rev_app (s acc : string) : string :=
  match s with
  | EmptyString => acc
  | String a s => str_rev_app s (String a acc)
  end.
Definition str_rev (s : string) : string := str_rev_app s EmptyString.

Definition ends_with (p s : string) : bool := starts_with (str_rev p) (str_rev s).

(** [str::contains(&str)]. *)
Fixpoint str_contains (needle hay : string) : bool :=
  starts_with needle hay ||
  match hay with
  | EmptyString => false
  | String _ hay => str_contains needle hay
  end.

(** [str::split_once(char)] for an ASCII character: at its first occurrence. *)
Fixpoint split_once (c : ascii) (s : string) : option (string * string) :=
  match s with
  | EmptyString => None
  | String a s' =>
      if Ascii.eqb a c then Some (EmptyString, s')
      else match split_once c s' with
           | Some (l, r) => Some (String a l, r)
           | None => None
           end
  end.

(** Splitting at the last occurrence ([str::rfind]). *)
Definition rsplit_once (c : ascii) (s : string) : option (string * string) :=
  match split_once c (str_rev s) with
  | Some (l, r) => Some (str_rev r, str_rev l)
  | None => None
  end.

(** [str::contains] of a character. *)
Fixpoint str_has (c : ascii) (s : string) : bool :=
  match s with
  | EmptyString => false
  | String a s => Ascii.eqb a c || str_has c s
  end.

Fixpoint str_forall (p : ascii → bool) (s : string) : bool :=
  match s with
  | EmptyString => true
  | String a s => p a && str_forall p s
  end.

(** ** [str::trim]: Unicode [White_Space], by its UTF-8 encodings *)

Definition bytes (l : list N) : string :=
  foldr (λ n s, String (ascii_of_N n) s) EmptyString l.

(** U+0009–000D, U+0020, U+0085, U+00A0, U+1680, U+2000–200A, U+2028, U+2029,
    U+202F, U+205F, U+3000. *)
Definition white_space : list string :=
  (bytes <$> [[9]; [10]; [11]; [12]; [13]; [32]; [194; 133]; [194; 160];
              [225; 154; 128]]) ++
  ((λ k, bytes [226; 128; 128 + k]) <$> [0; 1; 2; 3; 4; 5; 6; 7; 8; 9; 10]) ++
  (bytes <$> [[226; 128; 168]; [226; 128; 169]; [226; 128; 175];
              [226; 129; 159]; [227; 128; 128]]).

Fixpoint strip_any (ps : list string) (s : string) : option string :=
  match ps with
  | [] => None
  | p :: ps => match strip_prefix p s with Some r => Some r | None => strip_any ps s end
  end.

(** One white-space character is at least a byte, so the length bounds the loop. *)
Fixpoint trim_loop (ps : list string) (fuel : nat) (s : string) : string :=
  match fuel with
  | O => s
  | S fuel => match strip_any ps s with Some r => trim_loop ps fuel r | None => s end
  end.

Definition trim_start (s : string) : string :=
  trim_loop white_space (String.length s) s.
Definition trim_end (s : string) : string :=
  str_rev (trim_loop (str_rev <$> white_space) (String.length s) (str_rev s)).
Definition trim (s : string) : string := trim_end (trim_start s).

(** ** ASCII classes *)

Definition in_range (lo hi : N) (a : ascii) : bool :=
  (lo <=? N_of_ascii a) && (N_of_ascii a <=? hi).
Definition is_ascii_digit (a : ascii) : bool := in_range 48 57 a.
Definition is_ascii_alphanumeric (a : ascii) : bool :=
  is_ascii_digit a || in_range 65 90 a || in_range 97 122 a.
Definition is_ascii (a : ascii) : bool := N_of_ascii a <=? 127.

Definition ascii_lower (a : ascii) : ascii :=
  if in_range 65 90 a then ascii_of_N (N_of_ascii a + 32) else a.
Definition ascii_upper (a : ascii) : ascii :=
  if in_range 97 122 a then ascii_of_N (N_of_ascii a - 32) else a.

Fixpoint str_map (f : ascii → ascii) (s : string) : string :=
  match s with
  | EmptyString => EmptyString
  | String a s => String (f a) (str_map f s)
  end.

(** ** Numbers *)

(** [str::parse::<u64>] of ASCII digits; [None] past [u64::MAX]. *)
Fixpoint parse_digits (acc : N) (s : string) : option N :=
  match s with
  | EmptyString => Some acc
  | String a s =>
      let acc := 10 * acc + (N_of_ascii a - 48) in
      if u64_max <? acc then None else parse_digits acc s
  end.

(** [from_str_radix(_, 16)] of an unsigned integer whose greatest value is [max]. *)
Definition hex_digit_value (a : ascii) : option N :=
  let n := N_of_ascii a in
  if (48 <=? n) && (n <=? 57) then Some (n - 48)
  else if (97 <=? n) && (n <=? 102) then Some (n - 87)
  else if (65 <=? n) && (n <=? 70) then Some (n - 55)
  else None.
Fixpoint parse_hex_loop (max acc : N) (s : string) : option N :=
  match s with
  | EmptyString => Some acc
  | String a s =>
      match hex_digit_value a with
      | None => None
      | Some d => if max <? 16 * acc + d then None else parse_hex_loop max (16 * acc + d) s
      end
  end.
Definition parse_hex (max : N) (s : string) : option N :=
  let digits := match strip_prefix "+" s with Some r => r | None => s end in
  if String.eqb digits "" then None else parse_hex_loop max 0 digits.

(** The documented part of the case mappings the broker relies on: on ASCII
    text they are the ASCII mappings. *)
Class ExternalsLaws (X : Externals) : Prop := {
  to_lowercase_ascii s : str_forall is_ascii s = true → to_lowercase s = str_map ascii_lower s;
  to_uppercase_ascii s : str_forall is_ascii s = true → to_uppercase s = str_map ascii_upper s;
}.

(** A concrete instance, on which witnesses evaluate: JSON values are strings, a
    regular expression is a literal to search for, and case is ASCII case. *)
Definition sample_externals : Externals := {|
  Value := string;
  Value_as_str := Some;
  Value_to_string := id;
  Regex := string;
  Regex_new := inr;
  is_match := str_contains;
  to_lowercase := str_map ascii_lower;
  to_uppercase := str_map ascii_upper;
|}.

#[global] Instance sample_externals_laws : ExternalsLaws sample_externals.
Proof. by constructor. Qed.

(** ** Basic facts *)

Lemma strip_prefix_Some p s r : strip_prefix p s = Some r ↔ s = (p +:+ r)%string.
Proof.
  revert s. induction p as [|a p IH]; intros s; simpl.
  - split; [by intros [= ->]|by intros ->].
  - destruct s as [|b s]; [split; [done|discriminate]|].
    destruct (Ascii.eqb_spec a b) as [->|Hne].
    + rewrite IH. split; [by intros ->|by intros [= ->]].
    + split; [done|]. by intros [=].
Qed.

Lemma starts_with_spec p s : starts_with p s = true ↔ ∃ r, s = (p +:+ r)%string.
Proof.
  unfold starts_with. rewrite bool_decide_eq_true. unfold is_Some.
  by setoid_rewrite strip_prefix_Some.
Qed.

Lemma split_once_Some c s l r :
  split_once c s = Some (l, r) → s = (l +:+ String c r)%string.
Proof.
  revert l r. induction s as [|a s IH]; intros l r; simpl; [done|].
  destruct (Ascii.eqb_spec a c) as [->|Hne].
  - by intros [= <- <-].
  - destruct (split_once c s) as [[l' r']|] eqn:E; [|done].
    intros [= <- <-]. by rewrite (IH l' r' eq_refl).
Qed.

Lemma String_app_cons a (s t : string) : (String a s +:+ t)%string = String a (s +:+ t)%string.
Proof. done. Qed.

#[export] Instance string_app_assoc : Assoc (=) String.append.
Proof. intros s t u. induction s as [|a s IH]; [done|]. rewrite !String_app_cons. by rewrite IH. Qed.
#[export] Instance string_app_right_id : RightId (=) EmptyString String.append.
Proof. intros s. induction s as [|a s IH]; [done|]. rewrite String_app_cons. by rewrite IH. Qed.

(** ** Reversal *)

Lemma str_rev_app_spec s acc t : (str_rev_app s acc +:+ t = str_rev_app s (acc +:+ t))%string.
Proof. revert acc. induction s as [|a s IH]; intros acc; [done|]. simpl. by rewrite IH. Qed.

Lemma str_rev_app_app s t acc : str_rev_app (s +:+ t)%string acc = str_rev_app t (str_rev_app s acc).
Proof. revert acc. induction s as [|a s IH]; intros acc; [done|]. rewrite String_app_cons. simpl. apply IH. Qed.

Lemma str_rev_append s t : str_rev (s +:+ t) = (str_rev t +:+ str_rev s)%string.
Proof. unfold str_rev. by rewrite str_rev_app_app, str_rev_app_spec. Qed.

Lemma str_rev_involutive s : str_rev (str_rev s) = s.
Proof.
  unfold str_rev. assert (∀ acc, str_rev_app (str_rev_app s acc) "" = str_rev_app acc s) as H; [|apply H].
  induction s as [|a s IH]; intros acc; [done|]. simpl. rewrite IH. done.
Qed.

(** ** Printed numbers *)

Lemma digit_char y : y < 10 → N_of_ascii (pretty_N_char y) = 48 + y.
Proof.
  intros Hy. assert (y = 0 ∨ y = 1 ∨ y = 2 ∨ y = 3 ∨ y = 4 ∨ y = 5 ∨ y = 6 ∨ y = 7 ∨ y = 8 ∨ y = 9) as H by lia.
  repeat (destruct H as [->|H]; [by vm_compute|]). subst. by vm_compute.
Qed.

Lemma pretty_go n : ∀ s, n ≤ u64_max →
  parse_digits 0 (pretty_N_go n s) = parse_digits n s ∧
  str_forall is_ascii_digit (pretty_N_go n s) = str_forall is_ascii_digit s.
Proof.
  induction n as [n IH] using (well_founded_induction N.lt_wf_0). intros s Hn.
  destruct (decide (n = 0)) as [->|Hz]; [by rewrite pretty_N_go_0|].
  rewrite pretty_N_go_step by lia.
  pose proof (N.div_mod n 10 ltac:(lia)). pose proof (N.mod_lt n 10 ltac:(lia)).
  destruct (IH (n / 10) ltac:(apply N.div_lt; lia) (String (pretty_N_char (n mod 10)) s)) as [-> ->].
  { apply N.Div0.div_le_upper_bound. lia. }
  pose proof (digit_char (n mod 10) ltac:(lia)) as Hd. simpl. split.
  - assert (∀ x y, n = 10 * x + y → 10 * x + (48 + y - 48) = n) as Hq by (intros; lia).
    rewrite Hd, (Hq _ _ H).
    destruct (u64_max <? n) eqn:E; [bool_to_prop; lia|done].
  - assert (is_ascii_digit (pretty_N_char (n mod 10)) = true) as ->; [|done].
    unfold is_ascii_digit, in_range. rewrite Hd. apply andb_true_iff. rewrite !N.leb_le.
    assert (∀ y, y < 10 → 48 ≤ 48 + y ∧ 48 + y ≤ 57) as Hb by lia. by apply Hb.
Qed.

Lemma pretty_digits n : n ≤ u64_max →
  parse_digits 0 (pretty n) = Some n ∧ str_forall is_ascii_digit (pretty n) = true.
Proof.
  intros Hn. unfold pretty, pretty_N. case_decide as Hz; [by subst|].
  destruct (pretty_go n "" Hn) as [-> ->]. done.
Qed.

(** ** Occurrences and splits *)

Lemma str_has_app c s t : str_has c (s +:+ t) = str_has c s || str_has c t.
Proof. induction s as [|a s IH]; [done|]. rewrite String_app_cons. simpl. by rewrite IH, orb_assoc. Qed.

Lemma str_has_rev c s : str_has c (str_rev s) = str_has c s.
Proof.
  unfold str_rev. enough (∀ acc, str_has c (str_rev_app s acc) = str_has c s || str_has c acc) as H.
  { rewrite H. simpl. by rewrite orb_false_r. }
  induction s as [|a s IH]; intros acc; [done|]. simpl. rewrite IH. simpl.
  by destruct (Ascii.eqb a c), (str_has c s).
Qed.

Lemma split_once_first c l r : str_has c l = false → split_once c (l +:+ String c r) = Some (l, r).
Proof.
  induction l as [|a l IH]; simpl; [by rewrite Ascii.eqb_refl|]. intros [-> Hl]%orb_false_iff. by rewrite IH.
Qed.

Lemma rsplit_once_last c l r : str_has c r = false → rsplit_once c (l +:+ String c r) = Some (l, r).
Proof.
  intros H. unfold rsplit_once. change (String c r) with (String c "" +:+ r)%string.
  rewrite !str_rev_append, <-(assoc_L String.append).
  change (str_rev (String c "") +:+ str_rev l)%string with (String c (str_rev l)).
  rewrite split_once_first by by rewrite str_has_rev. by rewrite !str_rev_involutive.
Qed.

(** ** White space *)

Abbreviation rwhite_space := (str_rev <$> white_space).
Definition no_lead (s : string) : Prop := strip_any white_space s = None.
Definition no_trail (s : string) : Prop := strip_any rwhite_space (str_rev s) = None.

Lemma strip_any_None ps s : strip_any ps s = None ↔ Forall (λ p, strip_prefix p s = None) ps.
Proof.
  induction ps as [|p ps IH]; [split; [by constructor|done]|]. simpl. rewrite Forall_cons, <-IH.
  destruct (strip_prefix p s); naive_solver.
Qed.

Lemma str_length_app s t : String.length (s +:+ t) = (String.length s + String.length t)%nat.
Proof. induction s as [|a s IH]; [done|]. rewrite String_app_cons. simpl. by rewrite IH. Qed.

Lemma strip_any_length ps s r :
  Forall (λ p, p ≠ EmptyString) ps → strip_any ps s = Some r → (String.length r < String.length s)%nat.
Proof.
  induction 1 as [|p ps Hp _ IH]; [done|]. simpl. destruct (strip_prefix p s) as [r'|] eqn:E; [|done].
  intros [= <-]. apply strip_prefix_Some in E as ->. rewrite str_length_app.
  destruct p; [done|]. simpl. lia.
Qed.

Lemma ws_nonempty : Forall (λ p, p ≠ EmptyString) white_space.
Proof. repeat (constructor; [done|]). constructor. Qed.
Lemma rws_nonempty : Forall (λ p, p ≠ EmptyString) rwhite_space.
Proof. repeat (constructor; [done|]). constructor. Qed.

Lemma trim_loop_id ps n s : strip_any ps s = None → trim_loop ps n s = s.
Proof. destruct n; simpl; [done|]. by intros ->. Qed.

Lemma trim_loop_length ps n s :
  Forall (λ p, p ≠ EmptyString) ps → (String.length (trim_loop ps n s) ≤ String.length s)%nat.
Proof.
  intros Hp. revert s. induction n as [|n IH]; intros s; simpl; [lia|].
  destruct (strip_any ps s) as [r|] eqn:E; [|lia]. apply strip_any_length in E; [|done]. specialize (IH r). lia.
Qed.

Lemma trim_loop_fixed ps n s :
  Forall (λ p, p ≠ EmptyString) ps → (String.length s ≤ n)%nat →
  (String.length s ≤ String.length (trim_loop ps n s))%nat → strip_any ps s = None.
Proof.
  intros Hp Hn Hl. destruct n as [|n].
  { destruct s; [|simpl in Hn; lia]. apply strip_any_None. eapply Forall_impl; [exact Hp|]. by intros []. }
  simpl in Hl. destruct (strip_any ps s) as [r|] eqn:E; [|done]. apply strip_any_length in E; [|done].
  pose proof (trim_loop_length ps n r Hp). lia.
Qed.

Lemma str_rev_length s : String.length (str_rev s) = String.length s.
Proof.
  unfold str_rev. enough (∀ acc, String.length (str_rev_app s acc) = (String.length s + String.length acc)%nat) as H.
  { rewrite H. simpl. lia. }
  induction s as [|a s IH]; intros acc; [done|]. simpl. rewrite IH. simpl. lia.
Qed.

(** A trimmed string is one with no white space at either end. *)
Lemma trim_id s : trim s = s ↔ no_lead s ∧ no_trail s.
Proof.
  unfold no_lead, no_trail. split.
  - intros H. assert (trim_start s = s) as Hs.
    { unfold trim_start. apply trim_loop_id, (trim_loop_fixed _ (String.length s)); [apply ws_nonempty|lia|].
      pose proof (trim_loop_length rwhite_space (String.length (trim_start s)) (str_rev (trim_start s)) rws_nonempty) as Hl.
      rewrite str_rev_length in Hl.
      assert (String.length s = String.length (trim_loop rwhite_space (String.length (trim_start s))
                (str_rev (trim_start s)))) as He.
      { rewrite <-H at 1. unfold trim, trim_end. by rewrite str_rev_length. }
      unfold trim_start in *. lia. }
    unfold trim in H. rewrite Hs in H. split.
    + apply (trim_loop_fixed _ (String.length s)); [apply ws_nonempty|lia|]. unfold trim_start in Hs. by rewrite Hs.
    + apply (trim_loop_fixed _ (String.length s)); [apply rws_nonempty|by rewrite str_rev_length|].
      rewrite str_rev_length. rewrite <-H at 1. unfold trim_end. by rewrite str_rev_length.
  - intros [H1 H2]. unfold trim. assert (trim_start s = s) as ->.
    { unfold trim_start. by apply trim_loop_id. }
    unfold trim_end. rewrite trim_loop_id by done. apply str_rev_involutive.
Qed.

(** [c] can only stand in an encoding of [ps] as the whole of it. *)
Definition separates (ps : list string) (c : ascii) : bool :=
  forallb (λ p, Nat.eqb (String.length p) 1 || negb (str_has c p)) ps.

Lemma strip_prefix_nosep p t c r :
  str_has c p = false → strip_prefix p t = None → strip_prefix p (t +:+ String c r) = None.
Proof.
  revert t. induction p as [|a p IH]; intros t; [done|]. simpl. intros [Ha Hp]%orb_false_iff.
  destruct t as [|b t]; simpl; [by rewrite Ha|]. destruct (Ascii.eqb a b); [|done]. by apply IH.
Qed.

Lemma strip_prefix_sep p t c r :
  t ≠ EmptyString → p ≠ EmptyString → Nat.eqb (String.length p) 1 || negb (str_has c p) = true →
  strip_prefix p t = None → strip_prefix p (t +:+ String c r) = None.
Proof.
  intros Ht Hp [Hl|Hc%negb_true_iff]%orb_true_iff; [|by apply strip_prefix_nosep].
  destruct t as [|b t]; [done|]. destruct p as [|a [|]]; [done| |done]. simpl. by destruct (Ascii.eqb a b).
Qed.

Lemma strip_any_sep ps t c r :
  Forall (λ p, p ≠ EmptyString) ps → separates ps c = true → t ≠ EmptyString →
  strip_any ps t = None → strip_any ps (t +:+ String c r) = None.
Proof.
  intros Hp Hs Ht. rewrite !strip_any_None, !Forall_forall. unfold separates in Hs. rewrite forallb_forall in Hs.
  intros H p Hin. rewrite Forall_forall in Hp. apply strip_prefix_sep; [done|by apply Hp| |by apply H].
  by apply Hs, list_elem_of_In.
Qed.

Lemma no_lead_app t c r : separates white_space c = true → t ≠ EmptyString → no_lead t → no_lead (t +:+ String c r).
Proof. intros. by apply strip_any_sep; [apply ws_nonempty|..]. Qed.

Lemma str_rev_nonempty t : t ≠ EmptyString → str_rev t ≠ EmptyString.
Proof. intros Ht E. apply Ht. rewrite <-(str_rev_involutive t), E. done. Qed.

Lemma no_trail_app t c r :
  separates rwhite_space c = true → t ≠ EmptyString → no_trail t → no_trail (r +:+ String c t).
Proof.
  intros Hs Ht H. unfold no_trail. change (String c t) with (String c "" +:+ t)%string.
  rewrite !str_rev_append, <-(assoc_L String.append).
  apply strip_any_sep; [apply rws_nonempty|done|by apply str_rev_nonempty|done].
Qed.

(** Text with neither end blank. *)
Record tight (t : string) : Prop := { tight_nonempty : t ≠ EmptyString; tight_lead : no_lead t; tight_trail : no_trail t }.

Lemma tight_trim t : tight t → trim t = t.
Proof. intros [_ H1 H2]. by apply trim_id. Qed.

Lemma trim_space t : tight t → trim (String " " t) = t.
Proof.
  intros [Hn H1 H2]. unfold trim. assert (trim_start (String " " t) = t) as ->.
  { unfold trim_start. change (String.length (String " " t)) with (S (String.length t)).
    cbn [trim_loop]. change (strip_any white_space (String " " t)) with (Some t). by apply trim_loop_id. }
  unfold trim_end. rewrite trim_loop_id by done. apply str_rev_involutive.
Qed.

Lemma tight_join a c m d b :
  separates white_space c = true → separates rwhite_space d = true → tight a → tight b →
  tight (a +:+ String c (m +:+ String d b)).
Proof.
  intros Hc Hd [A1 A2 A3] [B1 B2 B3]. split.
  - by destruct a.
  - by apply no_lead_app.
  - change (String c (m +:+ String d b)) with (String c m +:+ String d b)%string.
    rewrite (assoc_L String.append). by apply no_trail_app.
Qed.

(** ** Characters that are not white space *)

Definition not_head (ps : list string) (a : ascii) : bool :=
  forallb (λ p, match p with String b _ => negb (Ascii.eqb b a) | EmptyString => false end) ps.

Lemma strip_any_head ps a s : not_head ps a = true → strip_any ps (String a s) = None.
Proof.
  unfold not_head. rewrite forallb_forall, strip_any_None, Forall_forall. intros H p Hp.
  specialize (H p). rewrite <-list_elem_of_In in H. specialize (H Hp). destruct p as [|b p]; [done|].
  simpl. destruct (Ascii.eqb b a); [done|]. done.
Qed.

Lemma no_lead_head a s : not_head white_space a = true → no_lead (String a s).
Proof. apply strip_any_head. Qed.
Lemma no_trail_last s a : not_head rwhite_space a = true → no_trail (s +:+ String a "").
Proof. intros H. unfold no_trail. rewrite str_rev_append. by apply strip_any_head. Qed.

Lemma every_ascii (f : ascii → bool) : forallb f (ascii_of_nat <$> List.seq 0 256) = true → ∀ a, f a = true.
Proof.
  rewrite forallb_forall. intros H a. apply H, list_elem_of_In, list_elem_of_fmap. exists (nat_of_ascii a).
  split; [by rewrite ascii_nat_embedding|]. pose proof (nat_ascii_bounded a). apply elem_of_seq. lia.
Qed.

Lemma str_forall_rev p s : str_forall p (str_rev s) = str_forall p s.
Proof.
  unfold str_rev. enough (∀ acc, str_forall p (str_rev_app s acc) = str_forall p s && str_forall p acc) as H.
  { rewrite H. simpl. by rewrite andb_true_r. }
  induction s as [|a s IH]; intros acc; [done|]. simpl. rewrite IH. simpl.
  by destruct (p a), (str_forall p s).
Qed.

Lemma str_forall_app p s t : str_forall p (s +:+ t) = str_forall p s && str_forall p t.
Proof. induction s as [|a s IH]; [done|]. simpl. change (String.append s t) with (s +:+ t). by rewrite IH, andb_assoc. Qed.

Lemma str_forall_impl (p q : ascii → bool) s : (∀ a, p a = true → q a = true) → str_forall p s = true → str_forall q s = true.
Proof. intros H. induction s as [|a s IH]; [done|]. simpl. rewrite !andb_true_iff. intros [? ?]. auto. Qed.

(** ** Printed numbers are not empty *)

Lemma pretty_not_empty (n : N) : pretty n ≠ EmptyString.
Proof.
  unfold pretty, pretty_N. case_decide; [done|]. rewrite pretty_N_go_step by lia.
  assert (∀ k s, s ≠ EmptyString → pretty_N_go k s ≠ EmptyString) as Hgo; [|by apply Hgo].
  intros k. induction k as [k IH] using (well_founded_induction N.lt_wf_0). intros s Hs.
  destruct (decide (k = 0)) as [->|]; [by rewrite pretty_N_go_0|].
  rewrite pretty_N_go_step by lia. apply IH; [|done]. apply N.div_lt; lia.
Qed.
