(* ===== verification/F64.v ===== *)
(** * F64: IEEE 754 binary64 as the code uses it

    An [f64] is a [spec_float]; comparisons are [SFcompare], so a comparison
    with a NaN is false. [parse_f64] is [str::parse::<f64>]: the decimal
    grammar, then correct rounding to 53 bits. *)

From S2P Require Import Prelude Text.
From Stdlib Require Import SpecFloat.

Set Default Proof Using "Type".
Local Open Scope N_scope.

Abbreviation f64 := spec_float.

Definition f64_ge (x y : f64) : bool :=
  match SFcompare x y with Some Gt | Some Eq => true | _ => false end.
Definition f64_le (x y : f64) : bool :=
  match SFcompare x y with Some Lt | Some Eq => true | _ => false end.
Definition f64_gt (x y : f64) : bool :=
  match SFcompare x y with Some Gt => true | _ => false end.

Definition is_nan (x : f64) : bool := match x with S754_nan => true | _ => false end.
Definition is_infinite (x : f64) : bool :=
  match x with S754_infinity _ => true | _ => false end.
Definition is_finite (x : f64) : bool :=
  match x with S754_zero _ | S754_finite _ _ _ => true | _ => false end.
Definition is_sign_positive (x : f64) : bool :=
  match x with
  | S754_zero s | S754_infinity s | S754_finite s _ _ => negb s
  | S754_nan => true
  end.

(** [f64::max] / [f64::min]: a NaN operand yields the other one. *)
Definition f64_max (x y : f64) : f64 :=
  match SFcompare x y with
  | Some Lt => y
  | Some _ => x
  | None => if is_nan x then y else x
  end.
Definition f64_min (x y : f64) : f64 :=
  match SFcompare x y with
  | Some Gt => y
  | Some _ => x
  | None => if is_nan x then y else x
  end.

(** ** Parsing *)

Definition digit_val (a : ascii) : Z := Z.of_N (N_of_ascii a - 48).

(** Leading digits, accumulated, with their count and the rest. *)
Fixpoint take_digits (acc : Z) (n : nat) (s : string) : Z * nat * string :=
  match s with
  | String a s' =>
      if is_ascii_digit a then take_digits (10 * acc + digit_val a)%Z (S n) s'
      else (acc, n, s)
  | EmptyString => (acc, n, s)
  end.

Definition parse_sign (s : string) : bool * string :=
  match s with
  | String a s' =>
      if Ascii.eqb a "-" then (true, s') else if Ascii.eqb a "+" then (false, s')
      else (false, s)
  | EmptyString => (false, s)
  end.

(** The value [m * 10^e], rounded to nearest even. *)
Definition decimal_to_f64 (neg : bool) (m e : Z) : f64 :=
  match m with
  | Zpos p =>
      if (0 <=? e)%Z then binary_normalize 53 1024 (if neg then - (m * 10 ^ e) else m * 10 ^ e) 0 neg
      else match (10 ^ (- e))%Z with
           | Zpos q => SFdiv 53 1024 (S754_finite neg p 0) (S754_finite false q 0)
           | _ => S754_nan
           end
  | _ => S754_zero neg
  end.

Definition parse_exponent (s : string) : option Z :=
  match s with
  | EmptyString => Some 0%Z
  | String a s =>
      if Ascii.eqb a "e" || Ascii.eqb a "E" then
        let '(neg, s) := parse_sign s in
        let '(v, n, rest) := take_digits 0 0 s in
        match n, rest with
        | S _, EmptyString => Some (if neg then - v else v)%Z
        | _, _ => None
        end
      else None
  end.

Definition parse_f64 (s : string) : option f64 :=
  let '(neg, s) := parse_sign s in
  let low := str_map ascii_lower s in
  if bool_decide (low = "inf"%string ∨ low = "infinity"%string) then Some (S754_infinity neg)
  else if bool_decide (low = "nan"%string) then Some S754_nan
  else
    let '(ip, ni, s) := take_digits 0 0 s in
    let '(m, nf, s) :=
      match s with
      | String a s' => if Ascii.eqb a "." then take_digits ip 0 s' else (ip, 0%nat, s)
      | EmptyString => (ip, 0%nat, s)
      end in
    if bool_decide (ni = 0%nat ∧ nf = 0%nat) then None
    else match parse_exponent s with
         | Some e => Some (decimal_to_f64 neg m (e - Z.of_nat nf)%Z)
         | None => None
         end.

Example parse_f64_tenth :
  parse_f64 "0.1" = Some (S754_finite false 7205759403792794 (-56)).
Proof. vm_compute. reflexivity. Qed.

Example parse_f64_exp :
  parse_f64 "-12.5e1" = Some (S754_finite true 8796093022208000 (-46)).
Proof. vm_compute. reflexivity. Qed.

Example parse_f64_bad : parse_f64 "1.5x" = None ∧ parse_f64 "." = None ∧ parse_f64 "" = None.
Proof. vm_compute. done. Qed.

(** ** Printing

    [Display]: the shortest decimal that reads back as the same float (the
    nearest to it among those), written without an exponent. *)

(** [num / den], positive, as [(d, k)]: [d] of [n] digits, [d * 10^k] nearest. *)
Definition round_digits (num den : Z) (top : Z) (n : Z) : Z * Z :=
  let k := (top - n + 1)%Z in
  let '(a, b) := if (0 <=? k)%Z then (num, den * 10 ^ k)%Z else (num * 10 ^ (- k), den)%Z in
  let q := (a / b)%Z in
  let r := (a mod b)%Z in
  let d := match (2 * r ?= b)%Z with
           | Lt => q | Gt => (q + 1)%Z | Eq => if Z.even q then q else (q + 1)%Z end in
  if (d =? 10 ^ n)%Z then (10 ^ (n - 1), k + 1)%Z else (d, k).

(** The exponent of the leading decimal digit. *)
Fixpoint leading_above (fuel : nat) (num den k : Z) : Z :=
  match fuel with
  | O => k
  | S fuel => if (den * 10 <=? num)%Z then leading_above fuel num (den * 10) (k + 1) else k
  end.
Fixpoint leading_below (fuel : nat) (num den k : Z) : Z :=
  match fuel with
  | O => k
  | S fuel => if (num <? den)%Z then leading_below fuel (num * 10) den (k - 1) else k
  end.
Definition leading (num den : Z) : Z :=
  if (den <=? num)%Z then leading_above 400 num den 0 else leading_below 400 num den 0.

Fixpoint shortest (fuel : nat) (x : f64) (num den top n : Z) : Z * Z :=
  let '(d, k) := round_digits num den top n in
  match fuel with
  | O => (d, k)
  | S fuel =>
      if bool_decide (SFcompare (decimal_to_f64 false d k) x = Some Eq) then (d, k)
      else shortest fuel x num den top (n + 1)
  end.

Definition zeros (n : nat) : string := String.concat "" (repeat "0"%string n).

Definition plain_decimal (d k : Z) : string :=
  let digits := pretty (Z.to_N d) in
  if (0 <=? k)%Z then (digits +:+ zeros (Z.to_nat k))%string
  else
    let point := Z.to_nat (- k) in
    let len := String.length digits in
    if (point <? len)%nat then
      (String.substring 0 (len - point) digits +:+ "." +:+ String.substring (len - point) point digits)%string
    else ("0." +:+ zeros (point - len) +:+ digits)%string.

Definition f64_display (x : f64) : string :=
  match x with
  | S754_nan => "NaN"
  | S754_infinity s => if s then "-inf" else "inf"
  | S754_zero s => if s then "-0" else "0"
  | S754_finite s m e =>
      let '(num, den) := if (0 <=? e)%Z then (Zpos m * 2 ^ e, 1)%Z else (Zpos m, 2 ^ (- e))%Z in
      let '(d, k) := shortest 17 (S754_finite false m e) num den (leading num den) 1 in
      ((if s then "-" else "") +:+ plain_decimal d k)%string
  end.

Example f64_display_examples :
  (λ s, match parse_f64 s with Some x => f64_display x | None => s end) <$>
    ["0.1"; "5"; "-12.5e1"; "1234.5678"; "1e21"; "3e-7"; "0.30000000000000004"]%string =
  ["0.1"; "5"; "-125"; "1234.5678"; "1000000000000000000000"; "0.0000003"; "0.30000000000000004"]%string.
Proof. vm_compute. reflexivity. Qed.

(** ** Comparisons with a NaN are false *)

Lemma f64_ge_nan_r x : f64_ge x S754_nan = false.
Proof. by destruct x. Qed.
Lemma f64_ge_nan_l x : f64_ge S754_nan x = false.
Proof. done. Qed.
