(* ===== verification/Gelf.v ===== *)
(** * Gelf: log levels and log records ([gelf/message.rs]) *)

From S2P Require Import Prelude Text.

Set Default Proof Using "Type".
Local Open Scope N_scope.

Inductive Level := Trace | Debug | Info | Warn | Error.

#[global] Instance Level_eq_dec : EqDecision Level.
Proof. solve_decision. Defined.

(** The derived [Ord]: the order of the discriminants. *)
Definition Level_discriminant (l : Level) : N :=
  match l with Trace => 0 | Debug => 1 | Info => 2 | Warn => 3 | Error => 4 end.
Definition Level_ge (a b : Level) : bool := Level_discriminant b <=? Level_discriminant a.
Definition Level_le (a b : Level) : bool := Level_discriminant a <=? Level_discriminant b.

(** [u8] syslog severities: 0–3 error, 4 warning, 5–6 info, the rest debug. *)
Definition Level_from_syslog (level : N) : Level :=
  if level <=? 3 then Error
  else if level =? 4 then Warn
  else if (level =? 5) || (level =? 6) then Info
  else Debug.

Inductive LogSource := FilterSource | PreTrigger | PostTrigger.

#[global] Instance LogSource_eq_dec : EqDecision LogSource.
Proof. solve_decision. Defined.

Section gelf.
Context {X : Externals}.

Definition Level_from_name (name : string) : option Level :=
  let up := to_uppercase name in
  if String.eqb up "ERROR" then Some Error
  else if String.eqb up "WARN" || String.eqb up "WARNING" then Some Warn
  else if String.eqb up "INFO" then Some Info
  else if String.eqb up "DEBUG" then Some Debug
  else if String.eqb up "TRACE" then Some Trace
  else None.

(** [timestamp] is nanoseconds since the Unix epoch; [trace_id] is a [u128],
    [span_id] a [u64] and [line] a [u32]. *)
Record LogEntry := mkLogEntry {
  seq : N;
  timestamp : Z;
  level : Level;
  message : string;
  full_message : option string;
  host : string;
  facility : option string;
  file : option string;
  line : option N;
  additional_fields : gmap string Value;
  trace_id : option N;
  span_id : option N;
  matched_filters : list string;
  source : LogSource;
}.

Definition set_seq (n : N) (e : LogEntry) : LogEntry :=
  mkLogEntry n (timestamp e) (level e) (message e) (full_message e) (host e)
    (facility e) (file e) (line e) (additional_fields e) (trace_id e) (span_id e)
    (matched_filters e) (source e).

Definition set_source (s : LogSource) (e : LogEntry) : LogEntry :=
  mkLogEntry (seq e) (timestamp e) (level e) (message e) (full_message e) (host e)
    (facility e) (file e) (line e) (additional_fields e) (trace_id e) (span_id e)
    (matched_filters e) s.

Definition set_matched_filters (m : list string) (e : LogEntry) : LogEntry :=
  mkLogEntry (seq e) (timestamp e) (level e) (message e) (full_message e) (host e)
    (facility e) (file e) (line e) (additional_fields e) (trace_id e) (span_id e)
    m (source e).

(** [LogEntry::synthetic], at the instant [now]. *)
Definition LogEntry_synthetic (now : Z) (l : Level) (m : string) : LogEntry :=
  mkLogEntry 0 now l m None "test" None None None ∅ None None [] FilterSource.
End gelf.

Lemma Level_ge_le a b : Level_ge a b = Level_le b a.
Proof. done. Qed.

Lemma Level_order_total a b : Level_le a b = true ∨ Level_le b a = true.
Proof. destruct a, b; auto. Qed.
