(* ===== verification/Filter.v ===== *)
(** * Filter: the filter language ([filter/parser.rs])

    The parsed filter, the parser, the registration guards and the seq window a
    resolved filter selects. *)

From S2P Require Import Prelude Text F64 Gelf.

Set Default Proof Using "Type".
Local Open Scope N_scope.

Inductive DurationOp := DGte | DLte.
Inductive BookmarkOp := BGte | BLte.
Inductive SeqOp := SGt | SLt.
Inductive LevelOp := LEq | LGte | LLte.

Inductive Selector :=
  | Message | FullMessage | MessageOrFull | Host | Facility | File | Line
  | SpanName | ServiceName | SpanStatusSel | SpanKindSel
  | AdditionalField (name : string).

Section filter.
Context {X : Externals}.

(** [Substring] is stored lowercase by the parser. *)
Inductive Pattern :=
  | Substring (s : string)
  | PRegex (src : string) (compiled : Regex) (case_insensitive : bool).

Inductive Qualifier :=
  | BarePattern (p : Pattern)
  | SelectorPattern (sel : Selector) (p : Pattern)
  | LevelFilter (op : LevelOp) (l : Level)
  | DurationFilter (op : DurationOp) (v : f64)
  | BookmarkFilter (op : BookmarkOp) (name : string)
  | CursorFilter (name : string)
  | SeqFilter (op : SeqOp) (value : N)
  | CursorSeq (after : N).

Inductive ParsedFilter :=
  | FAll
  | FNone
  | Qualifiers (qs : list Qualifier).

Inductive FilterParseError :=
  | EmptyFilter
  | InvalidRegex (msg : string)
  | UnknownLevel (s : string)
  | InvalidLevelSyntax (s : string)
  | UnclosedQuote
  | MixedLogSpanSelectors
  | EmptyBookmarkName
  | InvalidBookmarkName (s : string)
  | MultipleCursorQualifiers
  | CursorLteNotSupported
  | UnknownComparisonSelector (s : string).

Definition parse_res (A : Type) : Type := FilterParseError + A.

(** ** Tokens *)

Definition quote : ascii := ascii_of_N 34.

Definition is_valid_bookmark_token (name : string) : bool :=
  negb (String.eqb name "") &&
  str_forall (λ a, is_ascii_alphanumeric a || Ascii.eqb a "-" || Ascii.eqb a "_"
                   || Ascii.eqb a "/") name.

(** The scan over the characters; [cur] is the current token, reversed. *)
Fixpoint split_loop (s cur : string) (in_quote : bool) (tokens : list string)
  : parse_res (list string) :=
  match s with
  | EmptyString =>
      if in_quote then inl UnclosedQuote else inr (tokens ++ [str_rev cur])
  | String a s =>
      if Ascii.eqb a quote then split_loop s (String a cur) (negb in_quote) tokens
      else if Ascii.eqb a "," && negb in_quote then
        split_loop s "" in_quote (tokens ++ [str_rev cur])
      else split_loop s (String a cur) in_quote tokens
  end.

Definition split_on_commas (input : string) : parse_res (list string) :=
  split_loop input "" false [].

Definition parse_pattern (s : string) : parse_res Pattern :=
  match strip_prefix "/" s with
  | Some inner =>
      let '(src, ci) :=
        match rsplit_once "/" inner with
        | Some (src, flags) => (src, str_contains "i" flags)
        | None => (inner, false)
        end in
      let pattern := if ci then ("(?i)" +:+ src)%string else src in
      match Regex_new pattern with
      | inl e => inl (InvalidRegex e)
      | inr compiled => inr (PRegex src compiled ci)
      end
  | None => inr (Substring (to_lowercase s))
  end.

Definition parse_selector (s : string) : Selector :=
  if String.eqb s "m" then Message
  else if String.eqb s "fm" then FullMessage
  else if String.eqb s "mfm" then MessageOrFull
  else if String.eqb s "h" then Host
  else if String.eqb s "fa" then Facility
  else if String.eqb s "fi" then File
  else if String.eqb s "ln" then Line
  else if String.eqb s "sn" then SpanName
  else if String.eqb s "sv" then ServiceName
  else if String.eqb s "st" then SpanStatusSel
  else if String.eqb s "sk" then SpanKindSel
  else AdditionalField s.

Definition level_token (op : LevelOp) (rest : string) : parse_res Qualifier :=
  match Level_from_name rest with
  | Some l => inr (LevelFilter op l)
  | None => inl (UnknownLevel rest)
  end.

Definition duration_token (op : DurationOp) (rest : string) : parse_res Qualifier :=
  match parse_f64 rest with
  | Some v => inr (DurationFilter op v)
  | None => inl (InvalidLevelSyntax ("invalid duration value: " +:+ rest))
  end.

(** The name checks the [b>=], [b<=] and [c>=] branches share. *)
Definition bookmark_token (mk : string → Qualifier) (rest : string) : parse_res Qualifier :=
  let name := trim rest in
  if String.eqb name "" then inl EmptyBookmarkName
  else if negb (is_valid_bookmark_token name) then inl (InvalidBookmarkName name)
  else inr (mk name).

(** [s[1..len-1]] of a string that starts and ends with a quote. *)
Definition unquote (s : string) : option string :=
  if starts_with (String quote "") s && ends_with (String quote "") s
     && (2 <=? String.length s)%nat
  then Some (String.substring 1 (String.length s - 2) s)
  else None.

Definition bare_substring (token : string) : parse_res Qualifier :=
  inr (BarePattern (Substring (to_lowercase token))).

(** The [selector=pattern] branch, at the first [=]. *)
Definition selector_token (token : string) : parse_res Qualifier :=
  match split_once "=" token with
  | None => bare_substring token
  | Some (l, r) =>
      let lhs := trim l in
      let rhs := trim r in
      if String.eqb lhs "" then bare_substring token
      else if ends_with ">" lhs || ends_with "<" lhs then
        inl (UnknownComparisonSelector lhs)
      else
        let rhs := match unquote rhs with Some inner => inner | None => rhs end in
        match parse_pattern rhs with
        | inl e => inl e
        | inr p => inr (SelectorPattern (parse_selector lhs) p)
        end
  end.

(** The branches after the comparison prefixes: quoted text, a bare regex, a
    selector, a bare substring. *)
Definition pattern_token (token : string) : parse_res Qualifier :=
  if starts_with "c<=" token then inl CursorLteNotSupported
  else match unquote token with
  | Some inner => inr (BarePattern (Substring (to_lowercase inner)))
  | None =>
      if starts_with "/" token then
        match parse_pattern token with
        | inl e => inl e
        | inr p => inr (BarePattern p)
        end
      else selector_token token
  end.

Definition parse_token (token : string) : parse_res Qualifier :=
  let token := trim token in
  match strip_prefix "l>=" token with Some r => level_token LGte r | None =>
  match strip_prefix "l<=" token with Some r => level_token LLte r | None =>
  match strip_prefix "l=" token with Some r => level_token LEq r | None =>
  match strip_prefix "d>=" token with Some r => duration_token DGte r | None =>
  match strip_prefix "d<=" token with Some r => duration_token DLte r | None =>
  match strip_prefix "b>=" token with Some r => bookmark_token (BookmarkFilter BGte) r | None =>
  match strip_prefix "b<=" token with Some r => bookmark_token (BookmarkFilter BLte) r | None =>
  match strip_prefix "c>=" token with Some r => bookmark_token CursorFilter r | None =>
  pattern_token token
  end end end end end end end end.

(** ** Classifying qualifiers *)

Definition is_span_qualifier (q : Qualifier) : bool :=
  match q with
  | SelectorPattern (SpanName | ServiceName | SpanStatusSel | SpanKindSel) _ => true
  | DurationFilter _ _ => true
  | _ => false
  end.

Definition is_log_qualifier (q : Qualifier) : bool :=
  match q with
  | SelectorPattern
      (Message | FullMessage | MessageOrFull | Host | Facility | File | Line) _ => true
  | LevelFilter _ _ => true
  | _ => false
  end.

Definition is_cursor_qualifier (q : Qualifier) : bool :=
  match q with CursorFilter _ => true | _ => false end.

Definition is_span_filter (f : ParsedFilter) : bool :=
  match f with
  | FAll | FNone => false
  | Qualifiers qs => existsb is_span_qualifier qs
  end.

Definition contains_bookmark_qualifier (f : ParsedFilter) : bool :=
  match f with
  | FAll | FNone => false
  | Qualifiers qs =>
      existsb (λ q, match q with
                    | BookmarkFilter _ _ | CursorFilter _ => true
                    | _ => false
                    end) qs
  end.

Definition contains_cursor_qualifier (f : ParsedFilter) : bool :=
  match f with
  | FAll | FNone => false
  | Qualifiers qs => existsb is_cursor_qualifier qs
  end.

(** ** The parser *)

(** The token loop: blank tokens are skipped, the first error stops it. *)
Fixpoint parse_tokens (tokens : list string) : parse_res (list Qualifier) :=
  match tokens with
  | [] => inr []
  | t :: tokens =>
      if String.eqb (trim t) "" then parse_tokens tokens
      else match parse_token (trim t) with
           | inl e => inl e
           | inr q => match parse_tokens tokens with
                      | inl e => inl e
                      | inr qs => inr (q :: qs)
                      end
           end
  end.

Definition check_qualifiers (qs : list Qualifier) : parse_res ParsedFilter :=
  match qs with
  | [] => inl EmptyFilter
  | _ =>
      if existsb is_span_qualifier qs && existsb is_log_qualifier qs then
        inl MixedLogSpanSelectors
      else if (1 <? length (List.filter is_cursor_qualifier qs))%nat then
        inl MultipleCursorQualifiers
      else inr (Qualifiers qs)
  end.

Definition parse_filter (input : string) : parse_res ParsedFilter :=
  let input := trim input in
  if String.eqb input "" then inl EmptyFilter
  else if String.eqb input "ALL" then inr FAll
  else if String.eqb input "NONE" then inr FNone
  else match split_on_commas input with
       | inl e => inl e
       | inr tokens =>
           match parse_tokens tokens with
           | inl e => inl e
           | inr qs => check_qualifiers qs
           end
       end.

(** The DSL spelling that reaches an additional field called [name]. *)
Definition additional_field_selector (name : string) : option string :=
  if String.eqb name "" then None
  else match parse_filter (name +:+ "=x") with
       | inr (Qualifiers [SelectorPattern (AdditionalField n) _]) =>
           if String.eqb n name then Some name else None
       | _ => None
       end.

(** ** The seq window of a resolved filter *)

(** [Option::map_or(v, |cur| f cur v)], the running bound of the loops. *)
Definition tighten (f : N → N → N) (cur : option N) (v : N) : option N :=
  Some match cur with Some c => f c v | None => v end.

Definition lower_bound_of (q : Qualifier) : option N :=
  match q with
  | SeqFilter SGt v => Some v
  | CursorSeq after => Some after
  | _ => None
  end.

Definition resolved_lower_bound (f : ParsedFilter) : option N :=
  match f with
  | Qualifiers qs =>
      foldl (λ acc q, match lower_bound_of q with
                      | Some v => tighten N.max acc v
                      | None => acc
                      end) None qs
  | _ => None
  end.

Definition range_step (acc : option N * option N) (q : Qualifier) : option N * option N :=
  let '(lo, hi) := acc in
  match q with
  | SeqFilter SGt v | CursorSeq v => (tighten N.max lo (sat_add v 1), hi)
  | SeqFilter SLt v => (lo, tighten N.min hi (v - 1))
  | _ => acc
  end.

Definition resolved_seq_range (f : option ParsedFilter) : option N * option N :=
  match f with
  | Some (Qualifiers qs) => foldl range_step (None, None) qs
  | _ => (None, None)
  end.

Definition evicted_below (from lost_below : N) : option N :=
  if from <? lost_below then Some (lost_below - from) else None.

Definition evicted_before_window (f : ParsedFilter) (lost_below : N) : option N :=
  match resolved_lower_bound f with
  | None => None
  | Some lb => evicted_below (sat_add lb 1) lost_below
  end.
End filter.
