(* ===== verification/Matcher.v ===== *)
(** * Matcher: evaluating a filter on a record or a span ([filter/matcher.rs],
    [span/types.rs]) *)

From S2P Require Import Prelude Text F64 Gelf Filter.

Set Default Proof Using "Type".
Local Open Scope N_scope.

Inductive SpanKind := KUnspecified | KInternal | KServer | KClient | KProducer | KConsumer.
Inductive SpanStatus := SUnset | SOk | SError (msg : string).

(** The derived [Debug]. *)
Definition SpanKind_debug (k : SpanKind) : string :=
  match k with
  | KUnspecified => "Unspecified" | KInternal => "Internal" | KServer => "Server"
  | KClient => "Client" | KProducer => "Producer" | KConsumer => "Consumer"
  end.

Section matcher.
Context {X : Externals}.

Record SpanEvent := mkSpanEvent {
  ev_name : string;
  ev_timestamp : Z;
  ev_attributes : gmap string Value;
}.

Record SpanEntry := mkSpanEntry {
  sp_seq : N;
  sp_trace_id : N;
  sp_span_id : N;
  sp_parent_span_id : option N;
  sp_start_time : Z;
  sp_end_time : Z;
  sp_duration_ms : f64;
  sp_name : string;
  sp_kind : SpanKind;
  sp_service_name : string;
  sp_status : SpanStatus;
  sp_attributes : gmap string Value;
  sp_events : list SpanEvent;
}.

Definition sp_set_seq (n : N) (s : SpanEntry) : SpanEntry :=
  mkSpanEntry n (sp_trace_id s) (sp_span_id s) (sp_parent_span_id s) (sp_start_time s)
    (sp_end_time s) (sp_duration_ms s) (sp_name s) (sp_kind s) (sp_service_name s)
    (sp_status s) (sp_attributes s) (sp_events s).

Definition is_error (s : SpanEntry) : bool :=
  match sp_status s with SError _ => true | _ => false end.

Definition matches_pattern (p : Pattern) (text : string) : bool :=
  match p with
  | Substring s => str_contains (to_lowercase s) (to_lowercase text)
  | PRegex _ compiled _ => is_match compiled text
  end.

(** [opt.map(|t| matches_pattern(p, t)).unwrap_or(false)]. *)
Definition matches_opt (p : Pattern) (text : option string) : bool :=
  match text with Some t => matches_pattern p t | None => false end.

Definition value_text (v : Value) : string :=
  match Value_as_str v with Some s => s | None => Value_to_string v end.

Definition line_text (l : option N) : option string := pretty <$> l.

Definition matches_any_field (p : Pattern) (e : LogEntry) : bool :=
  matches_pattern p (message e)
  || matches_opt p (full_message e)
  || matches_pattern p (host e)
  || matches_opt p (facility e)
  || matches_opt p (file e)
  || matches_opt p (line_text (line e))
  || existsb (λ kv, matches_pattern p (value_text kv.2)) (map_to_list (additional_fields e)).

Definition matches_selector (sel : Selector) (p : Pattern) (e : LogEntry) : bool :=
  match sel with
  | Message => matches_pattern p (message e)
  | FullMessage => matches_opt p (full_message e)
  | MessageOrFull => matches_pattern p (message e) || matches_opt p (full_message e)
  | Host => matches_pattern p (host e)
  | Facility => matches_opt p (facility e)
  | File => matches_opt p (file e)
  | Line => matches_opt p (line_text (line e))
  | AdditionalField name => matches_opt p (value_text <$> additional_fields e !! name)
  | SpanName | ServiceName | SpanStatusSel | SpanKindSel => false
  end.

Definition matches_level (op : LevelOp) (filter_level entry_level : Level) : bool :=
  match op with
  | LEq => bool_decide (entry_level = filter_level)
  | LGte => Level_ge entry_level filter_level
  | LLte => Level_le entry_level filter_level
  end.

Definition matches_seq_op (op : SeqOp) (seq value : N) : bool :=
  match op with SGt => value <? seq | SLt => seq <? value end.

Definition matches_qualifier (q : Qualifier) (e : LogEntry) : bool :=
  match q with
  | BarePattern p => matches_any_field p e
  | SelectorPattern sel p => matches_selector sel p e
  | LevelFilter op l => matches_level op l (level e)
  | DurationFilter _ _ => false
  | BookmarkFilter _ _ => false
  | CursorFilter _ => false
  | SeqFilter op value => matches_seq_op op (seq e) value
  | CursorSeq after => after <? seq e
  end.

Definition matches_entry (f : ParsedFilter) (e : LogEntry) : bool :=
  match f with
  | FAll => true
  | FNone => false
  | Qualifiers qs => forallb (λ q, matches_qualifier q e) qs
  end.

(** The cursor's own bound counts as passed. *)
Definition matches_entry_past_cursor (f : ParsedFilter) (e : LogEntry) : bool :=
  match f with
  | FAll => true
  | FNone => false
  | Qualifiers qs =>
      forallb (λ q, match q with
                    | CursorSeq _ => true
                    | _ => matches_qualifier q e
                    end) qs
  end.

Definition pattern_lower (p : Pattern) : string :=
  match p with
  | Substring s => s
  | PRegex src _ _ => to_lowercase src
  end.

Definition matches_status (p : Pattern) (st : SpanStatus) : bool :=
  match st with
  | SError msg => String.eqb (pattern_lower p) "error" || matches_pattern p msg
  | SOk => String.eqb (pattern_lower p) "ok"
  | SUnset => String.eqb (pattern_lower p) "unset"
  end.

Definition matches_span_selector (sel : Selector) (p : Pattern) (s : SpanEntry) : bool :=
  match sel with
  | SpanName => matches_pattern p (sp_name s)
  | ServiceName => matches_pattern p (sp_service_name s)
  | SpanStatusSel => matches_status p (sp_status s)
  | SpanKindSel => matches_pattern p (to_lowercase (SpanKind_debug (sp_kind s)))
  | AdditionalField key => matches_opt p (sp_attributes s !! key ≫= Value_as_str)
  | _ => false
  end.

Definition matches_span_qualifier (q : Qualifier) (s : SpanEntry) : bool :=
  match q with
  | BarePattern p => matches_pattern p (sp_name s)
  | SelectorPattern sel p => matches_span_selector sel p s
  | DurationFilter DGte t => f64_ge (sp_duration_ms s) t
  | DurationFilter DLte t => f64_le (sp_duration_ms s) t
  | LevelFilter _ _ => false
  | BookmarkFilter _ _ => false
  | CursorFilter _ => false
  | SeqFilter op value => matches_seq_op op (sp_seq s) value
  | CursorSeq after => after <? sp_seq s
  end.

Definition matches_span (f : ParsedFilter) (s : SpanEntry) : bool :=
  match f with
  | FAll => true
  | FNone => false
  | Qualifiers qs => forallb (λ q, matches_span_qualifier q s) qs
  end.

(** ** Facts *)

Lemma matches_entry_past_cursor_weaker f e :
  matches_entry f e = true → matches_entry_past_cursor f e = true.
Proof.
  destruct f as [| |qs]; simpl; try done. rewrite !forallb_forall.
  intros H q Hq. specialize (H q Hq). by destruct q.
Qed.

(** Above every cursor bound of [f], the two matchers agree. *)
Lemma matches_entry_past_cursor_above f e :
  (∀ qs after, f = Qualifiers qs → CursorSeq after ∈ qs → after < seq e) →
  matches_entry_past_cursor f e = matches_entry f e.
Proof.
  destruct f as [| |qs]; simpl; try done. intros Hc.
  apply eq_true_iff_eq. rewrite !forallb_forall. split; intros H q Hq.
  - specialize (H q Hq). destruct q; try done.
    apply N.ltb_lt. eapply Hc; [done|]. by apply list_elem_of_In.
  - specialize (H q Hq). by destruct q.
Qed.

(** Matching looks at the record, not at where or why it was stored. *)
Lemma matches_qualifier_source q e src m :
  matches_qualifier q (set_source src (set_matched_filters m e)) = matches_qualifier q e.
Proof. by destruct q. Qed.
End matcher.
