(* ===== verification/Samples.v ===== *)
(** * Samples: concrete records and filters on which the theorems are applied *)

From S2P Require Import Prelude Text F64 Gelf Filter Matcher.

Set Default Proof Using "Type".
Local Open Scope N_scope.

#[export] Existing Instance sample_externals.

(** An info record with a message, and the same in a trace. *)
Definition log_at (n : N) (m : string) : LogEntry := set_seq n (LogEntry_synthetic 0 Info m).
Definition error_at (n : N) (m : string) : LogEntry := set_seq n (LogEntry_synthetic 0 Error m).
Definition traced (t : N) (e : LogEntry) : LogEntry :=
  mkLogEntry (seq e) (timestamp e) (level e) (message e) (full_message e) (host e)
    (facility e) (file e) (line e) (additional_fields e) (Some t) (span_id e)
    (matched_filters e) (source e).

(** Decide a closed proposition by evaluation. *)
Ltac by_eval := refine (bool_decide_unpack _ _); vm_compute; exact I.
