(* ===== verification/Admission.v ===== *)
(** * Admission: which filters a span collector accepts ([filter/admission.rs]) *)

From S2P Require Import Prelude Text F64 Gelf Filter Matcher Samples.
From Stdlib Require Import SpecFloat.

Set Default Proof Using "Type".
Local Open Scope N_scope.

Inductive AdmissionError :=
  | MatchesNothing
  | LogOnlyQualifier (name : string)
  | ImpossibleDurationThreshold (v : f64)
  | EmptyDurationInterval (lower upper : f64).

Inductive AdmissionWarning :=
  | UninterpretedSelector (key : string)
  | NoSpanSpecificQualifier
  | NoOpDurationThreshold (v : f64)
  | BarePatternMatchesNameOnly
  | StatusMatchesErrorMessages
  | AttributeMatchIsStringOnly (key : string).

Section admission.
Context {X : Externals}.

Definition selector_name (sel : Selector) : option string :=
  match sel with
  | Message => Some "m"%string
  | FullMessage => Some "fm"%string
  | MessageOrFull => Some "mfm"%string
  | Host => Some "h"%string
  | Facility => Some "fa"%string
  | File => Some "fi"%string
  | Line => Some "ln"%string
  | _ => None
  end.

(** The running state of the loop over the qualifiers. *)
Record Admitting := mkAdmitting {
  ad_warnings : list AdmissionWarning;
  ad_span_specific : bool;
  ad_lower : option f64;
  ad_upper : option f64;
}.

Definition warn (ws : list AdmissionWarning) (a : Admitting) : Admitting :=
  mkAdmitting (ad_warnings a ++ ws) (ad_span_specific a) (ad_lower a) (ad_upper a).
Definition span_specific (a : Admitting) : Admitting :=
  mkAdmitting (ad_warnings a) true (ad_lower a) (ad_upper a).
Definition bound (op : DurationOp) (v : f64) (a : Admitting) : Admitting :=
  match op with
  | DGte => mkAdmitting (ad_warnings a) (ad_span_specific a)
              (Some match ad_lower a with Some l => f64_max l v | None => v end) (ad_upper a)
  | DLte => mkAdmitting (ad_warnings a) (ad_span_specific a) (ad_lower a)
              (Some match ad_upper a with Some u => f64_min u v | None => v end)
  end.

Definition admit_selector (sel : Selector) (a : Admitting) : AdmissionError + Admitting :=
  match selector_name sel with
  | Some name => inl (LogOnlyQualifier name)
  | None =>
      inr match sel with
          | SpanName | ServiceName | SpanKindSel => span_specific a
          | SpanStatusSel => warn [StatusMatchesErrorMessages] (span_specific a)
          | AdditionalField key => warn [UninterpretedSelector key; AttributeMatchIsStringOnly key] a
          | _ => a
          end
  end.

Definition admit_duration (op : DurationOp) (v : f64) (a : Admitting) : AdmissionError + Admitting :=
  let a := span_specific a in
  if is_nan v then inl (ImpossibleDurationThreshold v)
  else match op, is_infinite v, is_sign_positive v with
  | DGte, true, true | DLte, true, false => inl (ImpossibleDurationThreshold v)
  | DLte, true, true | DGte, true, false => inr (warn [NoOpDurationThreshold v] a)
  | _, _, _ => inr (bound op v a)
  end.

Definition admit_qualifier (q : Qualifier) (a : Admitting) : AdmissionError + Admitting :=
  match q with
  | LevelFilter _ _ => inl (LogOnlyQualifier "l")
  | SelectorPattern sel _ => admit_selector sel a
  | DurationFilter op v => admit_duration op v a
  | BarePattern _ => inr (warn [BarePatternMatchesNameOnly] a)
  | BookmarkFilter _ _ | CursorFilter _ | SeqFilter _ _ | CursorSeq _ => inr a
  end.

Fixpoint admit_loop (qs : list Qualifier) (a : Admitting) : AdmissionError + Admitting :=
  match qs with
  | [] => inr a
  | q :: qs => match admit_qualifier q a with inl e => inl e | inr a => admit_loop qs a end
  end.

(** The warnings of an admitted filter. *)
Definition admit_span_filter (f : ParsedFilter) : AdmissionError + list AdmissionWarning :=
  match f with
  | FNone => inl MatchesNothing
  | FAll => inr []
  | Qualifiers qs =>
      match admit_loop qs (mkAdmitting [] false None None) with
      | inl e => inl e
      | inr a =>
          let done := ad_warnings (if ad_span_specific a then a
                                   else warn [NoSpanSpecificQualifier] a) in
          match ad_lower a, ad_upper a with
          | Some l, Some u => if f64_gt l u then inl (EmptyDurationInterval l u) else inr done
          | _, _ => inr done
          end
      end
  end.

(** ** Floats in order *)

(** A float that is not a NaN, ranked: its class, then the exponent, then the
    mantissa, the last two turned round below zero. *)
Definition rank (x : f64) : Z * Z * Z :=
  match x with
  | S754_nan => (0, 0, 0)%Z
  | S754_infinity true => (-2, 0, 0)%Z
  | S754_finite true m e => (-1, - e, - Zpos m)%Z
  | S754_zero _ => (0, 0, 0)%Z
  | S754_finite false m e => (1, e, Zpos m)%Z
  | S754_infinity false => (2, 0, 0)%Z
  end.

Definition lex (a b : Z * Z * Z) : comparison :=
  let '(a1, a2, a3) := a in
  let '(b1, b2, b3) := b in
  match (a1 ?= b1)%Z with
  | Eq => match (a2 ?= b2)%Z with Eq => (a3 ?= b3)%Z | c => c end
  | c => c
  end.

Lemma SFcompare_rank x y :
  is_nan x = false → is_nan y = false → SFcompare x y = Some (lex (rank x) (rank y)).
Proof.
  intros Hx Hy. destruct x as [sx|[]| |[] m e]; try discriminate Hx;
    destruct y as [sy|[]| |[] m' e']; try discriminate Hy; try reflexivity;
    cbn [SFcompare rank lex]; f_equal.
  - rewrite Z.compare_refl, (Z.compare_opp e e'), (Z.compare_antisym e e').
    destruct (e ?= e')%Z; [|reflexivity..]. cbn [CompOpp].
    rewrite <-Pos.compare_antisym. symmetry. apply (Z.compare_opp (Zpos m) (Zpos m')).
Qed.

Ltac rank_lia :=
  repeat match goal with
  | H : context [(?a ?= ?b)%Z] |- _ => destruct (Z.compare_spec a b); simplify_eq
  | |- context [(?a ?= ?b)%Z] => destruct (Z.compare_spec a b); simplify_eq
  end; try done; lia.

(** No number is at least [l] and at most [u] when [l] is above [u]. *)
Lemma empty_interval d l u :
  f64_ge d l = true → f64_le d u = true → f64_gt l u = false.
Proof.
  intros H1 H2.
  assert (is_nan d = false) as Hd by (by destruct d as [|[]| |[]]).
  assert (is_nan l = false) as Hl by (by destruct d as [|[]| |[]], l as [|[]| |[]]).
  assert (is_nan u = false) as Hu by (by destruct d as [|[]| |[]], u as [|[]| |[]]).
  unfold f64_ge, f64_le, f64_gt in *. rewrite SFcompare_rank in * by done.
  destruct (rank d) as [[d1 d2] d3], (rank l) as [[l1 l2] l3], (rank u) as [[u1 u2] u3].
  unfold lex in *. rank_lia.
Qed.

(** ** The loop *)

Definition within (d : f64) (a : Admitting) : Prop :=
  (∀ l, ad_lower a = Some l → f64_ge d l = true) ∧ (∀ u, ad_upper a = Some u → f64_le d u = true).

Lemma f64_max_ge d x y : f64_ge d x = true → f64_ge d y = true → f64_ge d (f64_max x y) = true.
Proof. unfold f64_max. intros ? ?. repeat case_goal; done. Qed.
Lemma f64_min_le d x y : f64_le d x = true → f64_le d y = true → f64_le d (f64_min x y) = true.
Proof. unfold f64_min. intros ? ?. repeat case_goal; done. Qed.

Lemma within_bound d op v a :
  within d a → match op with DGte => f64_ge d v | DLte => f64_le d v end = true →
  within d (bound op v a).
Proof.
  intros [Hl Hu] Hv. split; destruct op; simpl; try done; intros b [= <-].
  - destruct (ad_lower a); [|done]. apply f64_max_ge; auto.
  - destruct (ad_upper a); [|done]. apply f64_min_le; auto.
Qed.

(** What a qualifier adds to the warnings. *)
Definition warnings_of (q : Qualifier) : list AdmissionWarning :=
  match q with
  | SelectorPattern SpanStatusSel _ => [StatusMatchesErrorMessages]
  | SelectorPattern (AdditionalField key) _ =>
      [UninterpretedSelector key; AttributeMatchIsStringOnly key]
  | DurationFilter op v => if is_infinite v then [NoOpDurationThreshold v] else []
  | BarePattern _ => [BarePatternMatchesNameOnly]
  | _ => []
  end.

Definition admits (d : f64) (s : SpanEntry) (q : Qualifier) (a a' : Admitting) : Prop :=
  (matches_span_qualifier q s = true → within d a → within d a') ∧
  ad_warnings a' = ad_warnings a ++ warnings_of q ∧
  ad_span_specific a' = ad_span_specific a || is_span_qualifier q.

Lemma admit_qualifier_spec q a s :
  is_finite (sp_duration_ms s) = true →
  match admit_qualifier q a with
  | inl _ => matches_span_qualifier q s = false
  | inr a' => admits (sp_duration_ms s) s q a a'
  end.
Proof.
  intros Hd. unfold admits.
  destruct q as [p|sel p|op l|op v|op n|n|op n|n]; simpl; rewrite ?app_nil_r, ?orb_false_r; try done.
  - destruct sel; simpl; rewrite ?app_nil_r, ?orb_false_r, ?orb_true_r; done.
  - unfold admit_duration.
    destruct v as [sg|[]| |sg m e], op; simpl; rewrite ?app_nil_r, ?orb_true_r; try done;
      try (split; [intros Hm Hw|done];
           first [by apply (within_bound _ DGte _ (span_specific a))
                 |by apply (within_bound _ DLte _ (span_specific a))]);
      by destruct (sp_duration_ms s) as [|[]| |].
Qed.

Lemma admit_loop_spec qs a s :
  is_finite (sp_duration_ms s) = true →
  match admit_loop qs a with
  | inl _ => forallb (λ q, matches_span_qualifier q s) qs = false
  | inr a' =>
      (forallb (λ q, matches_span_qualifier q s) qs = true →
         within (sp_duration_ms s) a → within (sp_duration_ms s) a') ∧
      ad_warnings a' = ad_warnings a ++ flat_map warnings_of qs ∧
      ad_span_specific a' = ad_span_specific a || existsb is_span_qualifier qs
  end.
Proof.
  intros Hd. revert a. induction qs as [|q qs IH]; intros a; simpl.
  { by rewrite app_nil_r, orb_false_r. }
  pose proof (admit_qualifier_spec q a s Hd) as Hq. destruct (admit_qualifier q a) as [e|a1].
  { by rewrite Hq. }
  destruct Hq as (Hw & Hws & Hsp). specialize (IH a1). destruct (admit_loop qs a1) as [e|a2].
  { by rewrite IH, andb_false_r. }
  destruct IH as (Hw2 & -> & ->). rewrite Hws, Hsp, <-app_assoc, orb_assoc.
  split_and!; [|done|done]. intros [? ?]%andb_true_iff ?. auto.
Qed.

(** C9: admission blocks only what provably cannot match: a filter it refuses
    (whichever the reason, an empty duration interval pieced together from
    several qualifiers included) matches no span with a finite duration. *)
Theorem refused_matches_nothing f err s :
  admit_span_filter f = inl err → is_finite (sp_duration_ms s) = true → matches_span f s = false.
Proof.
  intros He Hd. destruct f as [| |qs]; [done|done|]. simpl in *.
  pose proof (admit_loop_spec qs (mkAdmitting [] false None None) s Hd) as Hl.
  destruct (admit_loop qs _) as [e|a]; [done|]. destruct Hl as (Hw & _).
  destruct (ad_lower a) as [l|] eqn:El; [|done]. destruct (ad_upper a) as [u|] eqn:Eu; [|done].
  destruct (f64_gt l u) eqn:Eg; [|done]. apply not_true_iff_false. intros Hm.
  destruct (Hw Hm) as [Hlo Hhi]; [by split|].
  by rewrite (empty_interval (sp_duration_ms s) l u (Hlo l El) (Hhi u Eu)) in Eg.
Qed.

Lemma warnings_of_spec w q :
  w ∈ warnings_of q →
  match w with
  | NoSpanSpecificQualifier => False
  | UninterpretedSelector key => ∃ p, q = SelectorPattern (AdditionalField key) p
  | NoOpDurationThreshold v => ∃ op, q = DurationFilter op v ∧ is_infinite v = true
  | _ => True
  end.
Proof.
  destruct q as [p|[]|op l|op v|op n|n|op n|n]; simpl; try (by intros ?%elem_of_nil).
  all: try (destruct (is_infinite v) eqn:E; [|by intros ?%elem_of_nil]).
  all: intros Hw; repeat (apply elem_of_cons in Hw as [->|Hw]; [by eauto|]); by apply elem_of_nil in Hw.
Qed.

Lemma admit_loop_each qs a a' q :
  admit_loop qs a = inr a' → q ∈ qs → ∃ a1 a2, admit_qualifier q a1 = inr a2.
Proof.
  revert a. induction qs as [|q' qs IH]; intros a; simpl; [by intros _ ?%elem_of_nil|].
  destruct (admit_qualifier q' a) as [e|a1] eqn:E; [done|].
  intros Hl [->|Hq]%elem_of_cons; eauto.
Qed.

(** A span that took no time. *)
Definition instant_span : SpanEntry :=
  mkSpanEntry 0 0 0 None 0 0 (S754_zero false) "" KInternal "" SOk ∅ [].

(** What the warnings of an admitted filter say is so: there is no
    span-specific qualifier exactly when the filter is not a span filter, a
    selector is called uninterpreted exactly when the filter reads it as an
    attribute, whatever else the filter holds, and a threshold called a no-op
    passes every finite duration. *)
Theorem warnings_true qs ws :
  admit_span_filter (Qualifiers qs) = inr ws →
  (NoSpanSpecificQualifier ∈ ws ↔ is_span_filter (Qualifiers qs) = false) ∧
  (∀ key, UninterpretedSelector key ∈ ws ↔ ∃ p, SelectorPattern (AdditionalField key) p ∈ qs) ∧
  (∀ v, NoOpDurationThreshold v ∈ ws →
     ∃ op, DurationFilter op v ∈ qs ∧
       ∀ s, is_finite (sp_duration_ms s) = true → matches_span_qualifier (DurationFilter op v) s = true).
Proof.
  simpl. pose proof (admit_loop_spec qs (mkAdmitting [] false None None) instant_span eq_refl) as Hl.
  destruct (admit_loop qs _) as [e|a] eqn:El; [done|]. destruct Hl as (_ & Hws & Hsp). simpl in *.
  assert (Hel : ∀ w, w ∈ ad_warnings a ↔ ∃ q, q ∈ qs ∧ w ∈ warnings_of q).
  { intros w. rewrite Hws, list_elem_of_In, in_flat_map. by setoid_rewrite list_elem_of_In. }
  intros Hw. set (all := ad_warnings (if ad_span_specific a then a else warn [NoSpanSpecificQualifier] a)) in *.
  assert (all = ws) as <-.
  { destruct (ad_lower a), (ad_upper a); try destruct (f64_gt _ _); congruence. }
  assert (Hall : ∀ w, w ∈ all ↔
    (w = NoSpanSpecificQualifier ∧ existsb is_span_qualifier qs = false) ∨
    ∃ q, q ∈ qs ∧ w ∈ warnings_of q).
  { intros w. unfold all. rewrite <-Hel, <-Hsp. destruct (ad_span_specific a); simpl.
    - intuition discriminate.
    - rewrite elem_of_app, list_elem_of_singleton. tauto. }
  clearbody all. split_and!.
  - rewrite Hall. split; [intros [[_ ?]|(q & _ & Hq)]; [done|]|by left].
    by apply warnings_of_spec in Hq.
  - intros key. rewrite Hall. split.
    + intros [[? _]|(q & Hin & Hq)]; [done|]. apply warnings_of_spec in Hq as [p ->]. eauto.
    + intros [p Hp]. right. eexists. split; [exact Hp|]. by left.
  - intros v. rewrite Hall. intros [[? _]|(q & Hin & Hq)]; [done|].
    apply warnings_of_spec in Hq as (op & -> & Hinf). exists op. split; [done|]. intros s Hd. simpl.
    destruct (admit_loop_each _ _ _ _ El Hin) as (a1 & a2 & Ha).
    by destruct v as [|[]| |], op; try discriminate; destruct (sp_duration_ms s) as [|[]| |].
Qed.
End admission.

(** ** The properties at concrete inputs *)

Definition f64_of (s : string) : f64 := match parse_f64 s with Some v => v | None => S754_nan end.

Example sample_refused :
  admit_span_filter (Qualifiers [DurationFilter DGte (f64_of "100"); BarePattern (Substring "x");
    DurationFilter DLte (f64_of "50")]) = inl (EmptyDurationInterval (f64_of "100") (f64_of "50")).
Proof. by vm_compute. Qed.

Lemma refused_matches_nothing_witness :
  matches_span (Qualifiers [DurationFilter DGte (f64_of "100"); DurationFilter DLte (f64_of "50")])
    instant_span = false.
Proof.
  apply (refused_matches_nothing _ (EmptyDurationInterval (f64_of "100") (f64_of "50")));
    by vm_compute.
Defined.

Lemma warnings_true_witness :
  ∃ p, SelectorPattern (AdditionalField "SV") p ∈
    [SelectorPattern SpanName (Substring "q"); SelectorPattern (AdditionalField "SV") (Substring "db")].
Proof.
  destruct (warnings_true
    [SelectorPattern SpanName (Substring "q"); SelectorPattern (AdditionalField "SV") (Substring "db")]
    [UninterpretedSelector "SV"; AttributeMatchIsStringOnly "SV"] eq_refl) as (_ & H & _).
  apply (H "SV"%string). by left.
Defined.
