(* ===== verification/SeqCounter.v ===== *)
(** * SeqCounter: the shared sequence counter ([engine/seq_counter.rs])

    One atomic [u64] per domain, shared by its logs and its spans. *)

From S2P Require Import Prelude.

Set Default Proof Using "Type".
Local Open Scope N_scope.

Definition SeqCounter : Type := N.

Definition new : SeqCounter := 0.
Definition new_with_initial (initial : N) : SeqCounter := initial.

(** [fetch_add(1) + 1]: the seq handed out, and the counter after it. *)
Definition next (c : SeqCounter) : N * SeqCounter := (u64_add c 1, u64_add c 1).

Definition current (c : SeqCounter) : N := c.

(** Below the top of the range a seq is fresh and never the sentinel 0. *)
Lemma next_fresh c : c < u64_max → next c = (c + 1, c + 1) ∧ 1 ≤ (next c).1.
Proof. intros Hc. unfold next. rewrite u64_add_small by lia. simpl. split; [done|lia]. Qed.
