(* ===== verification/PreBuffer.v ===== *)
(** * PreBuffer: the pre-trigger buffer ([engine/pre_buffer.rs])

    The last [capacity] arrivals, minus what a trigger already flushed, with an
    index by trace. Every method runs under one [Mutex]. *)

From S2P Require Import Prelude Text Gelf Samples.

Set Default Proof Using "Type".
Local Open Scope N_scope.

Section prebuffer.
Context {X : Externals}.

(** [pb_entries] pairs each entry with its arrival index, oldest first. *)
Record PreTriggerBuffer := mkPre {
  pb_entries : list (N * LogEntry);
  pb_arrivals : N;
  pb_capacity : nat;
  pb_by_trace : gmap N (list N);
}.

Definition new (capacity : nat) : PreTriggerBuffer := mkPre [] 0 capacity ∅.

(** [pop_front] / [pop_back]. *)
Definition pop_front (l : list N) : list N := tail l.
Definition pop_back (l : list N) : list N := take (length l - 1) l.

Definition forget (tid : option N) (front : bool) (m : gmap N (list N)) : gmap N (list N) :=
  match tid with
  | None => m
  | Some t =>
      match m !! t with
      | None => m
      | Some arrivals =>
          let arrivals := if front then pop_front arrivals else pop_back arrivals in
          match arrivals with
          | [] => delete t m
          | _ => <[t := arrivals]> m
          end
      end
  end.

(** The [while] loop of [expire]. *)
Fixpoint expire_loop (oldest_kept : N) (es : list (N * LogEntry)) (m : gmap N (list N))
  : list (N * LogEntry) * gmap N (list N) :=
  match es with
  | [] => ([], m)
  | (a, e) :: es' =>
      if a <? oldest_kept then expire_loop oldest_kept es' (forget (trace_id e) true m)
      else (es, m)
  end.

Definition expire (cap : nat) (b : PreTriggerBuffer) : PreTriggerBuffer :=
  let '(es, m) := expire_loop (pb_arrivals b - N.of_nat cap) (pb_entries b) (pb_by_trace b) in
  mkPre es (pb_arrivals b) (pb_capacity b) m.

Definition append (e : LogEntry) (b : PreTriggerBuffer) : PreTriggerBuffer :=
  if (pb_capacity b =? 0)%nat then b
  else
    let arrival := pb_arrivals b in
    let m := match trace_id e with
             | Some t => <[t := default [] (pb_by_trace b !! t) ++ [arrival]]> (pb_by_trace b)
             | None => pb_by_trace b
             end in
    expire (pb_capacity b)
      (mkPre (pb_entries b ++ [(arrival, e)]) (u64_add arrival 1) (pb_capacity b) m).

(** The drained tail and the buffer without it. *)
Definition flush (pre_window : nat) (b : PreTriggerBuffer) : list LogEntry * PreTriggerBuffer :=
  let len := length (pb_entries b) in
  if (len =? 0)%nat || (pre_window =? 0)%nat then ([], b)
  else
    let n := Nat.min pre_window len in
    let tail := drop (len - n) (pb_entries b) in
    (tail.*2,
     mkPre (take (len - n) (pb_entries b)) (pb_arrivals b) (pb_capacity b)
       (foldl (λ m ae, forget (trace_id ae.2) false m) (pb_by_trace b) tail)).

Definition resize (new_capacity : nat) (b : PreTriggerBuffer) : PreTriggerBuffer :=
  expire new_capacity (mkPre (pb_entries b) (pb_arrivals b) new_capacity (pb_by_trace b)).

Definition len (b : PreTriggerBuffer) : nat := length (pb_entries b).
Definition capacity (b : PreTriggerBuffer) : nat := pb_capacity b.

Definition entries_by_trace_id (t : N) (b : PreTriggerBuffer) : list LogEntry :=
  match pb_by_trace b !! t with
  | None => []
  | Some arrivals =>
      omap (λ a, match binary_search_by_key fst a (pb_entries b) with
                 | Some i => snd <$> pb_entries b !! i
                 | None => None
                 end) arrivals
  end.

(** ** The buffer's invariant *)

Definition arrivals_of (t : N) (es : list (N * LogEntry)) : list N :=
  (filter (λ ae, trace_id ae.2 = Some t) es).*1.

Definition opt_list (l : list N) : option (list N) := match l with [] => None | _ => Some l end.

Record pre_wf (b : PreTriggerBuffer) : Prop := {
  pw_asc : ascending fst (pb_entries b);
  pw_recent a e : (a, e) ∈ pb_entries b →
    pb_arrivals b - N.of_nat (pb_capacity b) ≤ a < pb_arrivals b;
  pw_trace t : pb_by_trace b !! t = opt_list (arrivals_of t (pb_entries b));
}.

Lemma arrivals_of_app t es1 es2 : arrivals_of t (es1 ++ es2) = arrivals_of t es1 ++ arrivals_of t es2.
Proof. unfold arrivals_of. by rewrite filter_app, fmap_app. Qed.

Lemma arrivals_of_cons t a e es :
  arrivals_of t ((a, e) :: es) =
    (if decide (trace_id e = Some t) then [a] else []) ++ arrivals_of t es.
Proof. unfold arrivals_of. rewrite filter_cons. simpl. by case_decide. Qed.

Lemma forget_lookup tid front m t :
  forget tid front m !! t =
    if decide (tid = Some t) then
      m !! t ≫= λ l, opt_list (if front then pop_front l else pop_back l)
    else m !! t.
Proof.
  unfold forget. destruct tid as [t'|]; [|by rewrite decide_False].
  destruct (decide (Some t' = Some t)) as [[= ->]|Hne].
  - destruct (m !! t) as [l|] eqn:El; [|done]. cbn [mbind option_bind].
    destruct (if front then pop_front l else pop_back l) as [|x l'] eqn:E;
      simpl; [by rewrite lookup_delete_eq|by rewrite lookup_insert_eq].
  - destruct (m !! t') as [l|] eqn:El; [|done].
    destruct (if front then pop_front l else pop_back l) as [|x l'] eqn:E;
      [rewrite lookup_delete_ne|rewrite lookup_insert_ne]; congruence.
Qed.

(** Expiring and draining keep the index equal to the scan. *)
Lemma forget_front_index a e es m :
  (∀ t, m !! t = opt_list (arrivals_of t ((a, e) :: es))) →
  ∀ t, forget (trace_id e) true m !! t = opt_list (arrivals_of t es).
Proof.
  intros Hm t. rewrite forget_lookup, Hm, arrivals_of_cons. by case_decide.
Qed.

Lemma forget_back_index a e es m :
  (∀ t, m !! t = opt_list (arrivals_of t (es ++ [(a, e)]))) →
  ∀ t, forget (trace_id e) false m !! t = opt_list (arrivals_of t es).
Proof.
  intros Hm t. rewrite forget_lookup, Hm, arrivals_of_app, arrivals_of_cons.
  unfold arrivals_of at 2 4. simpl. case_decide; [|by rewrite app_nil_r].
  rewrite app_nil_r. set (l := arrivals_of t es).
  assert (opt_list (l ++ [a]) = Some (l ++ [a])) as -> by by destruct l.
  simpl. unfold pop_back. rewrite length_app. simpl.
  by rewrite Nat.add_sub, take_app_length.
Qed.

Lemma expire_loop_spec k es m es' m' :
  expire_loop k es m = (es', m') → ascending fst es →
  (∀ t, m !! t = opt_list (arrivals_of t es)) →
  es' = filter (λ ae, k ≤ ae.1) es ∧ (∀ t, m' !! t = opt_list (arrivals_of t es')).
Proof.
  revert m. induction es as [|[a e] es IH]; intros m Hl Ha Hm; simpl in Hl.
  { by simplify_eq. }
  pose proof Ha as [Hlt Has]%ascending_cons. destruct (a <? k) eqn:E; bool_to_prop.
  - rewrite filter_cons_False by (simpl; lia). eapply IH; [done|done|].
    by eapply forget_front_index.
  - simplify_eq. split; [|done]. symmetry. apply filter_all.
    intros ae [->|Hin]%elem_of_cons; [done|]. apply Hlt in Hin. simpl in *. lia.
Qed.

Lemma expire_wf cap b :
  ascending fst (pb_entries b) → (∀ a e, (a, e) ∈ pb_entries b → a < pb_arrivals b) →
  (∀ t, pb_by_trace b !! t = opt_list (arrivals_of t (pb_entries b))) → pb_capacity b = cap →
  pre_wf (expire cap b) ∧
  pb_entries (expire cap b) =
    filter (λ ae, pb_arrivals b - N.of_nat cap ≤ ae.1) (pb_entries b) ∧
  pb_arrivals (expire cap b) = pb_arrivals b ∧ pb_capacity (expire cap b) = cap.
Proof.
  intros Ha Hlt Hm Hc. unfold expire. destruct (expire_loop _ _ _) as [es m] eqn:E.
  apply expire_loop_spec in E as [-> Hm']; [|done|done]. simpl. split_and!; [|done..].
  constructor; simpl; [by apply ascending_filter| |done].
  intros a e [Hk Hin]%list_elem_of_filter. apply Hlt in Hin. rewrite Hc. simpl in Hk. lia.
Qed.

Lemma pre_new_wf cap : pre_wf (new cap).
Proof. constructor; simpl; [apply ascending_nil|by intros a e ?%elem_of_nil|done]. Qed.

Lemma append_spec e b :
  pre_wf b → pb_arrivals b < u64_max → pb_capacity b ≠ 0%nat →
  pre_wf (append e b) ∧
  pb_entries (append e b) =
    filter (λ ae, pb_arrivals b + 1 - N.of_nat (pb_capacity b) ≤ ae.1)
      (pb_entries b ++ [(pb_arrivals b, e)]) ∧
  pb_arrivals (append e b) = pb_arrivals b + 1 ∧ pb_capacity (append e b) = pb_capacity b.
Proof.
  intros [Ha Hr Ht] Hb Hc. unfold append. apply Nat.eqb_neq in Hc as ->.
  assert (u64_add (pb_arrivals b) 1 = pb_arrivals b + 1) as Hadd by (apply u64_add_small; lia).
  rewrite Hadd.
  match goal with |- pre_wf (expire _ ?b') ∧ _ => apply (expire_wf (pb_capacity b) b') end; simpl.
  - apply ascending_snoc. split; [done|]. intros [a e'] Hin. apply Hr in Hin. simpl. lia.
  - intros a e' [Hin|[= -> ->]%list_elem_of_singleton]%elem_of_app; [apply Hr in Hin|]; lia.
  - intros t. rewrite arrivals_of_app, arrivals_of_cons. unfold arrivals_of at 2. simpl.
    rewrite app_nil_r. destruct (trace_id e) as [t'|].
    + destruct (decide (Some t' = Some t)) as [[= ->]|Hne].
      * rewrite lookup_insert_eq, Ht. by destruct (arrivals_of t (pb_entries b)).
      * rewrite lookup_insert_ne by congruence. by rewrite app_nil_r.
    + by rewrite decide_False, app_nil_r.
  - done.
Qed.

Lemma resize_wf cap b : pre_wf b → pre_wf (resize cap b).
Proof.
  intros [Ha Hr Ht]. apply expire_wf; simpl; try done. intros a e Hin. by apply Hr in Hin as [_ ?].
Qed.

Lemma foldl_forget_index tail es m :
  (∀ t, m !! t = opt_list (arrivals_of t (es ++ tail))) →
  ascending fst (es ++ tail) →
  ∀ t, foldl (λ m ae, forget (trace_id ae.2) false m) m tail !! t = opt_list (arrivals_of t es).
Proof.
  (* Each entry of the tail takes ITS OWN trace's newest arrival, so the order
     inside the tail does not matter: count per trace. *)
  intros Hm Ha t. revert m Hm.
  assert (∀ l m, m !! t = opt_list (arrivals_of t es ++ l) →
    length l = length (arrivals_of t tail) →
    foldl (λ m ae, forget (trace_id ae.2) false m) m tail !! t = opt_list (arrivals_of t es)) as H.
  { clear Ha. induction tail as [|[a e] tail IH]; intros l m Hm Hl.
    - destruct l; [|done]. simpl. by rewrite Hm, app_nil_r.
    - simpl. rewrite arrivals_of_cons, length_app in Hl.
      destruct (decide (trace_id e = Some t)) as [He|He].
      + destruct l as [|x l _] using rev_ind; [simpl in Hl; lia|].
        rewrite length_app in Hl. simpl in Hl.
        apply (IH l); [|lia]. rewrite forget_lookup, decide_True by done. rewrite Hm.
        rewrite app_assoc. assert (∀ k : list N, opt_list (k ++ [x]) = Some (k ++ [x])) as -> by by intros [].
        simpl. unfold pop_back. rewrite length_app. simpl. by rewrite Nat.add_sub, take_app_length.
      + apply (IH l); [|done]. by rewrite forget_lookup, decide_False. }
  intros m Hm. eapply H; [|done]. by rewrite Hm, arrivals_of_app.
Qed.

Lemma flush_spec n b :
  pre_wf b →
  pre_wf (flush n b).2 ∧
  (flush n b).1 = (drop (len b - n) (pb_entries b)).*2 ∧
  pb_entries (flush n b).2 = take (len b - n) (pb_entries b).
Proof.
  intros Hwf. pose proof Hwf as [Ha Hr Ht]. unfold flush, len.
  destruct ((length (pb_entries b) =? 0)%nat || (n =? 0)%nat) eqn:E.
  - simpl. apply orb_true_iff in E as [E|E]; bool_to_prop.
    + apply nil_length_inv in E. rewrite E. simpl. done.
    + rewrite E, Nat.sub_0_r, drop_all, take_ge by lia. done.
  - bool_to_prop. simpl. set (k := length (pb_entries b)).
    replace (k - Nat.min n k)%nat with (k - n)%nat by lia. split_and!; [|done|done].
    constructor; simpl.
    + by apply ascending_take.
    + intros a e Hin. by apply subseteq_take, Hr in Hin.
    + apply foldl_forget_index; by rewrite take_drop.
Qed.

(** ** Runs *)

Inductive PreOp :=
  | PAppend (e : LogEntry)
  | PFlush (n : nat)
  | PResize (cap : nat).

Definition pre_step (b : PreTriggerBuffer) (op : PreOp) : PreTriggerBuffer :=
  match op with
  | PAppend e => append e b
  | PFlush n => (flush n b).2
  | PResize cap => resize cap b
  end.

Definition pre_run (ops : list PreOp) (b : PreTriggerBuffer) : PreTriggerBuffer :=
  foldl pre_step b ops.

Lemma pre_step_wf op b :
  pre_wf b → pb_arrivals b < u64_max →
  pre_wf (pre_step b op) ∧ pb_arrivals (pre_step b op) ≤ pb_arrivals b + 1.
Proof.
  intros Hwf Hb. destruct op as [e|n|cap]; simpl.
  - destruct (decide (pb_capacity b = 0%nat)) as [Hz|Hz].
    + unfold append. apply Nat.eqb_eq in Hz as ->. split; [done|lia].
    + destruct (append_spec e b Hwf Hb Hz) as (? & _ & -> & _). split; [done|lia].
  - split; [by apply flush_spec|]. unfold flush. case_goal; simpl; lia.
  - split; [by apply resize_wf|]. unfold resize, expire. case_goal. simpl. lia.
Qed.

Lemma pre_run_wf cap ops :
  N.of_nat (length ops) ≤ u64_max →
  pre_wf (pre_run ops (new cap)) ∧ pb_arrivals (pre_run ops (new cap)) ≤ N.of_nat (length ops).
Proof.
  induction ops as [|op ops IH] using rev_ind; intros Hl; [split; [apply pre_new_wf|simpl; lia]|].
  rewrite length_app in Hl |- *. simpl in *. unfold pre_run. rewrite foldl_app.
  destruct IH as [Hwf Hb]; [lia|]. fold (pre_run ops (new cap)). simpl.
  destruct (pre_step_wf op _ Hwf) as [? ?]; [lia|]. split; [done|lia].
Qed.

(** The trace index is exact: whatever sequence of appends, flushes and
    resizes produced the buffer, looking a trace up through its own index is
    the scan of the whole buffer, oldest arrival first. *)
Theorem trace_index_is_scan cap ops t :
  N.of_nat (length ops) ≤ u64_max →
  let b := pre_run ops (new cap) in
  entries_by_trace_id t b = (filter (λ ae, trace_id ae.2 = Some t) (pb_entries b)).*2.
Proof.
  intros Hl b. destruct (pre_run_wf cap ops Hl) as [[Ha Hr Ht] _]. fold b in Ha, Hr, Ht.
  unfold entries_by_trace_id. rewrite Ht.
  assert (∀ l, l ⊆ pb_entries b →
    omap (λ a, match binary_search_by_key fst a (pb_entries b) with
               | Some i => snd <$> pb_entries b !! i | None => None end) l.*1 = l.*2) as Hmap.
  { induction l as [|[a e] l IH]; intros Hs; [done|]. simpl.
    assert ((a, e) ∈ pb_entries b) as [i Hi]%list_elem_of_lookup by (apply Hs; by left).
    assert (binary_search_by_key fst a (pb_entries b) = Some i) as ->.
    { apply binary_search_Some; [done|]. by exists (a, e). }
    rewrite Hi. simpl. f_equal. apply IH. intros x Hx. apply Hs. by right. }
  unfold arrivals_of. set (l := filter _ (pb_entries b)).
  assert (l ⊆ pb_entries b) as Hs by (intros x [_ ?]%list_elem_of_filter; done).
  specialize (Hmap l Hs). destruct l as [|[a e] l]; [done|]. simpl opt_list.
  rewrite <-Hmap. done.
Qed.

(** A flush reaches back at most [capacity] arrivals: every buffered entry
    is among the last [capacity] arrivals (so the buffer never holds more than
    [capacity]), even where earlier flushes left holes. *)
Theorem flush_reach_bounded cap ops a e :
  N.of_nat (length ops) ≤ u64_max →
  let b := pre_run ops (new cap) in
  (a, e) ∈ pb_entries b →
  pb_arrivals b - N.of_nat (pb_capacity b) ≤ a < pb_arrivals b ∧
  (len b ≤ pb_capacity b)%nat.
Proof.
  intros Hl b Hin. destruct (pre_run_wf cap ops Hl) as [[Ha Hr Ht] _]. fold b in Ha, Hr, Ht.
  split; [by eapply Hr|]. unfold len.
  pose proof (ascending_length fst _ (pb_arrivals b - N.of_nat (pb_capacity b)) (pb_arrivals b) Ha).
  assert (N.of_nat (length (pb_entries b)) ≤ pb_arrivals b - (pb_arrivals b - N.of_nat (pb_capacity b))).
  { apply H. intros [a' e'] Hin'. by eapply Hr. }
  lia.
Qed.
End prebuffer.

(** ** The properties at concrete inputs *)

(** Six arrivals into a buffer of four, the newest of them flushed, one more
    arrival, a resize to three. *)
Definition sample_pre_ops : list PreOp :=
  [PAppend (traced 7 (log_at 1 "a")); PAppend (log_at 2 "b"); PAppend (traced 7 (log_at 3 "c"));
   PAppend (traced 8 (log_at 4 "d")); PAppend (traced 7 (log_at 5 "e")); PAppend (log_at 6 "f");
   PFlush 1; PAppend (traced 7 (log_at 7 "g")); PResize 3].

Example sample_pre_holds : (λ ae, seq ae.2) <$> pb_entries (pre_run sample_pre_ops (new 4)) = [5; 7].
Proof. by vm_compute. Qed.

Lemma trace_index_is_scan_witness :
  N.of_nat (length sample_pre_ops) ≤ u64_max ∧
  (seq <$> entries_by_trace_id 7 (pre_run sample_pre_ops (new 4)) = [5; 7]).
Proof.
  assert (N.of_nat (length sample_pre_ops) ≤ u64_max) as H by by_eval.
  split; [done|]. rewrite (trace_index_is_scan 4 sample_pre_ops 7 H). by vm_compute.
Defined.

Lemma flush_reach_bounded_witness :
  let b := pre_run sample_pre_ops (new 4) in
  (6, traced 7 (log_at 7 "g")) ∈ pb_entries b ∧
  pb_arrivals b - N.of_nat (pb_capacity b) ≤ 6 < pb_arrivals b ∧ (len b ≤ pb_capacity b)%nat.
Proof.
  assert (N.of_nat (length sample_pre_ops) ≤ u64_max) as H by by_eval.
  assert ((6, traced 7 (log_at 7 "g")) ∈ pb_entries (pre_run sample_pre_ops (new 4))) as Hin.
  { apply list_elem_of_lookup. exists 1%nat. by vm_compute. }
  split; [exact Hin|]. exact (flush_reach_bounded 4 sample_pre_ops 6 _ H Hin).
Defined.
