(* ===== verification/Epoch.v ===== *)
(** * Epoch: the record of the storage policy over time ([engine/epoch.rs])

    A domain narrows storage while a session bound to it holds a filter. The
    epoch log records the first seq decided under each policy, so that a range
    read can say what it could not have seen. *)

From S2P Require Import Prelude Text.

Set Default Proof Using "Type".
Local Open Scope N_scope.

Definition EPOCH_CAPACITY : nat := 1024.

(** ** [FilterPolicy] *)

Definition FilterPolicy : Type := list string.

(** [Vec::dedup]: keeps the first of every run of equal strings. *)
Fixpoint dedup_after (x : string) (l : list string) : list string :=
  match l with
  | [] => []
  | y :: l => if String.eqb y x then dedup_after x l else y :: dedup_after y l
  end.
Definition dedup (l : list string) : list string :=
  match l with [] => [] | x :: l => x :: dedup_after x l end.

(** [sort_unstable] of strings: byte order. Equal strings are indistinguishable,
    so any sort gives this list. *)
Fixpoint insert_string (x : string) (l : list string) : list string :=
  match l with
  | [] => [x]
  | y :: l' => if String.leb x y then x :: l else y :: insert_string x l'
  end.
Definition sort_strings (l : list string) : list string := foldr insert_string [] l.

Definition policy_new (filters : list string) : FilterPolicy := dedup (sort_strings filters).

Definition is_filtered (p : FilterPolicy) : bool :=
  match p with [] => false | _ => true end.

(** ** [EpochLog] *)

Record Epoch := mkEpoch { seq_at_flip : N; ep_policy : FilterPolicy }.

Record EpochLog := mkLog { epochs : list Epoch; origin_seq : N }.

Definition new (origin : N) : EpochLog := mkLog [] origin.

Definition push_epoch (e : Epoch) (l : list Epoch) : list Epoch :=
  let l := l ++ [e] in drop (length l - EPOCH_CAPACITY) l.

Definition observe (seq : N) (policy : FilterPolicy) (log : EpochLog) : EpochLog :=
  match last (epochs log) with
  | Some l =>
      if bool_decide (ep_policy l = policy) then log
      else mkLog (push_epoch (mkEpoch (N.max seq (seq_at_flip l)) policy) (epochs log)) (origin_seq log)
  | None => mkLog (push_epoch (mkEpoch (origin_seq log) policy) (epochs log)) (origin_seq log)
  end.

Record NarrowedSpan := mkNarrowed { from_seq : N; to_seq : N; ns_filters : list string }.

Record EpochCoverage := mkCoverage { covered : bool; narrowed : list NarrowedSpan }.

(** The loop over the epochs, each ending where the next begins. *)
Fixpoint narrowed_over (from to : N) (es : list Epoch) : list NarrowedSpan :=
  match es with
  | [] => []
  | e :: es' =>
      let epoch_end := match es' with [] => u64_max | next :: _ => seq_at_flip next - 1 end in
      if (to <? seq_at_flip e) || (epoch_end <? from) then narrowed_over from to es'
      else if is_filtered (ep_policy e) then
        mkNarrowed (N.max (seq_at_flip e) from) (N.min epoch_end to) (ep_policy e)
          :: narrowed_over from to es'
      else narrowed_over from to es'
  end.

Definition coverage (from to : N) (log : EpochLog) : EpochCoverage :=
  match epochs log with
  | [] => mkCoverage false []
  | first :: _ => mkCoverage (seq_at_flip first <=? from) (narrowed_over from to (epochs log))
  end.

(** ** [evidence_verdict] *)

Inductive EvidenceVerdict := Complete | Filtered | Evicted | CannotVerify.

Definition evidence_verdict (cov : option EpochCoverage) (evicted capped : bool) : EvidenceVerdict :=
  match cov with
  | None => CannotVerify
  | Some c =>
      if negb (covered c) || capped then CannotVerify
      else match narrowed c with
           | _ :: _ => Filtered
           | [] => if evicted then Evicted else Complete
           end
  end.
