(* ===== verification/EpochSpec.v ===== *)
(** * EpochSpec: the epoch log never vouches for a narrowed range

    A domain's decisions come one at a time with ascending seqs; the log is
    folded over them. [attributes log q p] says the log attributes seq [q] to
    policy [p]. *)

From S2P Require Import Prelude Text Epoch.
From stdpp Require Import sorting.

Set Default Proof Using "Type".
Local Open Scope N_scope.

(** ** The policy is a function of the set of filters *)

Lemma elem_of_insert_string x y l : y ∈ insert_string x l ↔ y = x ∨ y ∈ l.
Proof. induction l as [|z l IH]; simpl; [set_solver|]. case_goal; set_solver. Qed.

Lemma elem_of_sort_strings x l : x ∈ sort_strings l ↔ x ∈ l.
Proof.
  induction l as [|y l IH]; simpl; [done|]. rewrite elem_of_insert_string. set_solver.
Qed.

Lemma insert_string_sorted x l :
  StronglySorted String.le l → StronglySorted String.le (insert_string x l).
Proof.
  induction l as [|y l IH]; simpl; intros Hl; [repeat constructor|].
  destruct (String.leb x y) eqn:E.
  - constructor; [done|]. constructor; [by unfold String.le; rewrite E|].
    apply StronglySorted_inv in Hl as [_ Hy]. eapply Forall_impl; [done|].
    intros z Hz. simpl in Hz. etrans; [|done]. by unfold String.le; rewrite E.
  - apply StronglySorted_inv in Hl as [Hl Hy]. constructor; [by apply IH|].
    apply Forall_forall. intros z [->|Hz]%elem_of_insert_string.
    + destruct (String.leb_total x y) as [H|H]; [congruence|]. by unfold String.le; rewrite H.
    + by rewrite Forall_forall in Hy; apply Hy.
Qed.

Lemma sort_strings_sorted l : StronglySorted String.le (sort_strings l).
Proof. induction l; simpl; [constructor|by apply insert_string_sorted]. Qed.

Lemma dedup_after_spec x l :
  StronglySorted String.le (x :: l) →
  StronglySorted String.le (dedup_after x l) ∧ NoDup (dedup_after x l) ∧
  (x ∉ dedup_after x l) ∧ (∀ y, y ∈ l → y = x ∨ y ∈ dedup_after x l) ∧
  (∀ y, y ∈ dedup_after x l → y ∈ l).
Proof.
  revert x. induction l as [|y l IH]; intros x Hs; simpl.
  { split_and!; try constructor; try set_solver. }
  apply StronglySorted_inv in Hs as [Hs Hx].
  apply Forall_cons in Hx as [Hxy Hx].
  destruct (String.eqb_spec y x) as [->|Hne].
  - destruct (IH x Hs) as (H1 & H2 & H3 & H4 & H5). split_and!; try done; set_solver.
  - destruct (IH y Hs) as (H1 & H2 & H3 & H4 & H5).
    apply StronglySorted_inv in Hs as [Hs Hy]. rewrite Forall_forall in Hy.
    split_and!.
    + constructor; [done|]. apply Forall_forall. intros z Hz. by apply Hy, H5.
    + by constructor.
    + intros [->|Hin]%elem_of_cons; [done|]. apply H5, Hy in Hin.
      apply Hne. by apply (anti_symm String.le).
    + intros z [->|Hz]%elem_of_cons; [right; by left|].
      right. destruct (H4 z Hz) as [->|]; [by left|by right].
    + intros z [->|Hz]%elem_of_cons; [by left|right; by apply H5].
Qed.

Lemma policy_new_spec l :
  StronglySorted String.le (policy_new l) ∧ NoDup (policy_new l) ∧
  (∀ x, x ∈ policy_new l ↔ x ∈ l).
Proof.
  unfold policy_new. pose proof (sort_strings_sorted l) as Hs.
  assert (∀ x, x ∈ sort_strings l ↔ x ∈ l) as Hin by (intros; apply elem_of_sort_strings).
  destruct (sort_strings l) as [|y s]; simpl; [split_and!; [constructor|constructor|done]|].
  destruct (dedup_after_spec y s Hs) as (H1 & H2 & H3 & H4 & H5).
  apply StronglySorted_inv in Hs as [Hs Hy]. rewrite Forall_forall in Hy. split_and!.
  - constructor; [done|]. apply Forall_forall. intros z Hz. by apply Hy, H5.
  - by constructor.
  - intros x. rewrite <-Hin, !elem_of_cons. naive_solver.
Qed.

Lemma policy_new_ext l1 l2 : (∀ x, x ∈ l1 ↔ x ∈ l2) → policy_new l1 = policy_new l2.
Proof.
  intros Heq. destruct (policy_new_spec l1) as (S1 & N1 & E1), (policy_new_spec l2) as (S2 & N2 & E2).
  apply (StronglySorted_unique String.le); [done|done|].
  apply NoDup_Permutation; [done|done|]. intros x. by rewrite E1, E2.
Qed.

(** A policy is the SET of the filter strings: two lists of filters give the
    same policy exactly when they have the same members, so the order sessions
    happen to be iterated in, and a filter held twice, cannot make a new policy
    (and so cannot fabricate an epoch boundary), and a real change always does. *)
Theorem policy_is_set l1 l2 :
  policy_new l1 = policy_new l2 ↔ (∀ x, x ∈ l1 ↔ x ∈ l2).
Proof.
  split; [|apply policy_new_ext]. intros E x.
  rewrite <-(proj2 (proj2 (policy_new_spec l1)) x), <-(proj2 (proj2 (policy_new_spec l2)) x).
  by rewrite E.
Qed.

Lemma is_filtered_policy l : is_filtered (policy_new l) = true ↔ l ≠ [].
Proof.
  destruct (policy_new_spec l) as (_ & _ & He). destruct (policy_new l) as [|x p]; simpl.
  - split; [done|]. intros Hl. destruct l as [|y l]; [done|].
    specialize (He y). set_solver.
  - split; [|done]. intros _ ->. specialize (He x). set_solver.
Qed.

(** ** What the log attributes to a policy *)

(** [q] lies in an epoch of [es] under policy [p]. *)
Definition attributes (es : list Epoch) (q : N) (p : FilterPolicy) : Prop :=
  ∃ (i : nat) e, es !! i = Some e ∧ ep_policy e = p ∧ seq_at_flip e ≤ q ∧
    ∀ e', es !! S i = Some e' → q < seq_at_flip e'.

Definition flips_ascending (es : list Epoch) : Prop := ascending seq_at_flip es.

(** The log after the decisions [obs], the latest last. *)
Definition observe_all (obs : list (N * FilterPolicy)) (log : EpochLog) : EpochLog :=
  foldl (λ log o, observe o.1 o.2 log) log obs.

Record log_inv (obs : list (N * FilterPolicy)) (log : EpochLog) : Prop := {
  li_flips : flips_ascending (epochs log);
  li_last e : last (epochs log) = Some e → obs = [] ∨
    (∃ o, last obs = Some o ∧ ep_policy e = o.2 ∧ seq_at_flip e ≤ o.1);
  li_empty : epochs log = [] → obs = [];
  li_attr q p : (q, p) ∈ obs → attributes (epochs log) q p ∨
    (∃ e, head (epochs log) = Some e ∧ q < seq_at_flip e);
}.

(** Dropping epochs from the front keeps every attribution or uncovers it. *)
Lemma attributes_drop n es q p :
  flips_ascending es → es ≠ [] → (n < length es)%nat → attributes es q p →
  attributes (drop n es) q p ∨ (∃ e, head (drop n es) = Some e ∧ q < seq_at_flip e).
Proof.
  intros Ha Hne Hn (i & e & He & Hp & Hq & Hnext).
  destruct (decide (n ≤ i)%nat) as [Hi|Hi].
  - left. exists (i - n)%nat, e. rewrite !lookup_drop.
    replace (n + (i - n))%nat with i by lia. replace (n + S (i - n))%nat with (S i) by lia. done.
  - right. destruct (lookup_lt_is_Some_2 es n Hn) as [e' He']. exists e'. split.
    + by rewrite head_lookup, lookup_drop, Nat.add_0_r.
    + destruct (decide (n = S i)) as [->|Hne']; [by apply Hnext|].
      destruct (lookup_lt_is_Some_2 es (S i)) as [e'' He'']; [lia|].
      pose proof (ascending_lookup_lt seq_at_flip es (S i) n e'' e' Ha He'' He').
      specialize (Hnext e'' He''). lia.
Qed.

Lemma attributes_snoc es e q p :
  attributes es q p → q < seq_at_flip e → attributes (es ++ [e]) q p.
Proof.
  intros (i & e' & He & Hp & Hq & Hnext) Hlt. exists i, e'.
  pose proof (lookup_lt_Some _ _ _ He) as Hi.
  rewrite lookup_app_l by done. split_and!; [done..|]. intros e'' He''.
  apply lookup_app_Some in He'' as [He''|[_ He'']]; [by apply Hnext|].
  by apply list_lookup_singleton_Some in He'' as [_ <-].
Qed.

Lemma push_epoch_inv obs log q p flip :
  log_inv obs log → (∀ o, o ∈ obs → o.1 < flip) → flip ≤ q →
  (∀ e, e ∈ epochs log → seq_at_flip e < flip) →
  log_inv (obs ++ [(q, p)]) (mkLog (push_epoch (mkEpoch flip p) (epochs log)) (origin_seq log)).
Proof.
  intros [Ha Hl He Hat] Hobs Hq Hfl. unfold push_epoch.
  set (es := epochs log ++ [mkEpoch flip p]).
  assert (Hasc : flips_ascending es).
  { apply ascending_app. split_and!; [done|apply ascending_singleton|].
    intros x y Hx ->%list_elem_of_singleton. by apply Hfl. }
  assert (length es ≠ 0%nat) as Hlen by (unfold es; rewrite length_app; simpl; lia).
  set (n := (length es - EPOCH_CAPACITY)%nat).
  assert (n < length es)%nat as Hn by (unfold n, EPOCH_CAPACITY; lia).
  assert (Hne : es ≠ []) by (intros E; by rewrite E in Hlen).
  assert (Hattr : ∀ q' p', (q', p') ∈ obs ++ [(q, p)] → attributes es q' p' ∨
    (∃ e, head (epochs log) = Some e ∧ q' < seq_at_flip e)).
  { intros q' p' [Hin|[= -> ->]%list_elem_of_singleton]%elem_of_app.
    - destruct (Hat q' p' Hin) as [Hat'|?]; [left|by right].
      apply attributes_snoc; [done|]. by apply (Hobs (q', p')).
    - left. exists (length (epochs log)), (mkEpoch flip p). unfold es.
      rewrite lookup_app_r, Nat.sub_diag by done. split_and!; [done..|].
      intros e'. rewrite lookup_ge_None_2; [done|]. rewrite length_app. simpl. lia. }
  constructor; simpl.
  - by apply ascending_drop.
  - intros e Hlast. right. exists (q, p). rewrite last_snoc. split; [done|].
    assert (e = mkEpoch flip p) as ->; [|done].
    rewrite <-(take_drop n es) in Hasc. unfold es in *.
    destruct (drop n (epochs log ++ [mkEpoch flip p])) as [|x d] eqn:Ed; [done|].
    assert (last (epochs log ++ [mkEpoch flip p]) = last (x :: d)) as Hld.
    { rewrite <-(take_drop n (epochs log ++ _)), Ed. by rewrite last_app_cons. }
    rewrite last_snoc in Hld. congruence.
  - intros Hd. apply (f_equal length) in Hd. rewrite length_drop in Hd. simpl in Hd. lia.
  - intros q' p' Hin. destruct (Hattr q' p' Hin) as [Hat'|(e & Hh & Hlt)].
    + by apply attributes_drop.
    + right. destruct (lookup_lt_is_Some_2 es n Hn) as [e' He']. exists e'.
      split; [by rewrite head_lookup, lookup_drop, Nat.add_0_r|].
      assert (es !! 0%nat = Some e) as H0.
      { unfold es. destruct (epochs log); [done|]. by injection Hh as ->. }
      destruct (decide (n = 0%nat)) as [Hz|Hz]; [rewrite Hz in He'; congruence|].
      pose proof (ascending_lookup_lt seq_at_flip es 0 n e e' Hasc H0 He'). lia.
Qed.

Lemma observe_same_inv obs log q p l :
  log_inv obs log → last (epochs log) = Some l → ep_policy l = p → seq_at_flip l ≤ q →
  log_inv (obs ++ [(q, p)]) log.
Proof.
  intros [Ha Hl He Hat] Hlast Hp Hq. constructor; [done| | |].
  - intros e Hlast'. right. exists (q, p). rewrite last_snoc.
    assert (e = l) as -> by congruence. done.
  - intros Hn. by rewrite Hn in Hlast.
  - intros q' p' [Hin|[= -> ->]%list_elem_of_singleton]%elem_of_app; [by apply Hat|left].
    rewrite last_lookup in Hlast. exists (pred (length (epochs log))), l. split_and!; [done..|].
    intros e' He'. apply lookup_lt_Some in He'. lia.
Qed.

Lemma observe_inv obs log q p :
  log_inv obs log → (∀ o, o ∈ obs → o.1 < q) → origin_seq log ≤ q →
  (obs = [] → epochs log = []) →
  log_inv (obs ++ [(q, p)]) (observe q p log).
Proof.
  intros Hinv Hobs Ho Hnil. unfold observe.
  destruct (last (epochs log)) as [l|] eqn:El.
  - destruct (li_last _ _ Hinv l El) as [->|(o & Hlo & Hpo & Hfo)].
    { rewrite Hnil in El by done. done. }
    apply last_Some_elem_of in Hlo. pose proof (Hobs o Hlo).
    case_bool_decide as Hp; [apply (observe_same_inv _ _ _ _ l); [done|done|done|lia]|].
    apply push_epoch_inv; [done| |lia|].
    + intros o' Ho'. pose proof (Hobs o' Ho'). lia.
    + intros e He. pose proof (ascending_last seq_at_flip _ _ _ (li_flips _ _ Hinv) El He). lia.
  - apply last_None in El. pose proof (li_empty _ _ Hinv El) as ->.
    apply push_epoch_inv; [done|by intros o ?%elem_of_nil|done|].
    rewrite El. by intros e ?%elem_of_nil.
Qed.

Lemma observe_nonempty q p log : epochs (observe q p log) ≠ [].
Proof.
  unfold observe. destruct (last (epochs log)) as [l|] eqn:El.
  - case_bool_decide; [intros E; by rewrite E in El|].
    simpl. unfold push_epoch, EPOCH_CAPACITY. intros E. apply (f_equal length) in E.
    rewrite length_drop, length_app in E. simpl length in E. lia.
  - simpl. unfold push_epoch, EPOCH_CAPACITY. intros E. apply (f_equal length) in E.
    rewrite length_drop, length_app in E. simpl length in E. lia.
Qed.

Lemma observe_origin q p log : origin_seq (observe q p log) = origin_seq log.
Proof. unfold observe. by repeat case_goal. Qed.

(** One decision at a time, with ascending seqs above the origin. *)
Lemma observe_all_inv obs origin :
  ascending fst obs → (∀ o, o ∈ obs → origin ≤ o.1) →
  log_inv obs (observe_all obs (new origin)) ∧
  origin_seq (observe_all obs (new origin)) = origin ∧
  (obs = [] → epochs (observe_all obs (new origin)) = []).
Proof.
  induction obs as [|[q p] obs IH] using rev_ind; intros Ha Ho.
  { split_and!; [|done|done]. constructor; simpl; [apply ascending_nil|done|done|].
    by intros q p ?%elem_of_nil. }
  apply ascending_snoc in Ha as [Ha Hlt].
  destruct IH as (Hinv & Hor & Hnil); [done|intros; apply Ho, elem_of_app; by left|].
  unfold observe_all. rewrite foldl_app. simpl. fold (observe_all obs (new origin)).
  split_and!.
  - apply observe_inv; [done|done| |done]. rewrite Hor. apply (Ho (q, p)).
    apply elem_of_app. right. by left.
  - by rewrite observe_origin.
  - intros E. by destruct obs.
Qed.

Lemma narrowed_over_nil from to es q p :
  narrowed_over from to es = [] → attributes es q p → from ≤ q ≤ to → q ≤ u64_max →
  is_filtered p = false.
Proof.
  intros Hn (i & e & He & <- & Hq & Hnext) Hr Hm.
  revert i He Hnext. induction es as [|e' es IH]; intros i He Hnext; [done|].
  simpl in Hn. destruct i as [|i]; simpl in *.
  - injection He as ->.
    destruct (is_filtered (ep_policy e)) eqn:Ef; [|done]. exfalso.
    destruct es as [|e'' es].
    + replace ((to <? seq_at_flip e) || (u64_max <? from)) with false in Hn; [done|].
      symmetry. apply orb_false_iff. rewrite !N.ltb_ge. lia.
    + specialize (Hnext e'' eq_refl).
      replace ((to <? seq_at_flip e) || (seq_at_flip e'' - 1 <? from)) with false in Hn; [done|].
      symmetry. apply orb_false_iff. rewrite !N.ltb_ge. lia.
  - apply (IH) with i; [|done|done].
    destruct ((to <? seq_at_flip e') || _); [done|]. by destruct (is_filtered (ep_policy e')).
Qed.

Lemma coverage_sound_inv obs log from to q p :
  log_inv obs log → covered (coverage from to log) = true →
  narrowed (coverage from to log) = [] →
  (q, p) ∈ obs → from ≤ q ≤ to → q ≤ u64_max → is_filtered p = false.
Proof.
  intros Hinv Hc Hn Hin Hr Hm. unfold coverage in *.
  destruct (epochs log) as [|first es] eqn:Ee; [done|]. simpl in Hc. cbn [narrowed] in Hn. bool_to_prop.
  destruct (li_attr _ _ Hinv q p Hin) as [Hat|(e & He & Hlt)].
  - rewrite Ee in Hat. by eapply narrowed_over_nil.
  - rewrite Ee in He. injection He as ->. lia.
Qed.

(** An honest epoch log: after any sequence of decisions (more policy flips
    than the log retains included), a range it reports as covered and not
    narrowed contains no decision taken under a filtering policy. *)
Theorem coverage_sound obs origin from to q p :
  ascending fst obs → (∀ o, o ∈ obs → origin ≤ o.1) →
  let c := coverage from to (observe_all obs (new origin)) in
  covered c = true → narrowed c = [] →
  (q, p) ∈ obs → from ≤ q ≤ to → q ≤ u64_max → is_filtered p = false.
Proof.
  intros Ha Ho c Hc Hn. eapply coverage_sound_inv; [|done|done].
  by apply observe_all_inv.
Qed.

(** ** The properties at concrete inputs *)

Definition sample_decisions : list (N * FilterPolicy) :=
  [(1, []); (2, []); (3, ["l>=ERROR"%string]); (4, ["l>=ERROR"%string]); (5, []); (6, [])].

Example sample_narrowed :
  coverage 1 6 (observe_all sample_decisions (new 0)) =
    mkCoverage true [mkNarrowed 3 4 ["l>=ERROR"%string]].
Proof. by vm_compute. Qed.

Lemma coverage_sound_witness :
  (5, []) ∈ sample_decisions ∧ is_filtered [] = false.
Proof.
  assert ((5, []) ∈ sample_decisions) as Hin.
  { apply list_elem_of_lookup. exists 4%nat. done. }
  split; [done|].
  apply (coverage_sound sample_decisions 0 5 6 5 []); [| |done|done|done|lia|done].
  - unfold sample_decisions, ascending. repeat constructor; simpl; lia.
  - intros o Ho. lia.
Defined.
