(* ===== verification/Trigger.v ===== *)
(** * Trigger: a session's triggers ([engine/trigger.rs])

    Each trigger debounces itself: after a match it skips [post_window] records,
    whatever its siblings do. The counters are atomics read and written by the
    one task that processes a domain's records, so they are plain state here. *)

From S2P Require Import Prelude Text F64 Gelf Filter Matcher.

Set Default Proof Using "Type".
Local Open Scope N_scope.

Definition u32_max : N := 4294967295.
(** [AtomicU32::fetch_add(1)]. *)
Definition u32_incr (n : N) : N := (n + 1) mod (u32_max + 1).

Definition DEFAULT_TRIGGER_PRE_WINDOW : N := 500.
Definition DEFAULT_TRIGGER_POST_WINDOW : N := 200.
Definition DEFAULT_TRIGGER_NOTIFY_CONTEXT : N := 5.

Section trigger.
Context {X : Externals}.

(** [TriggerInfo] and [TriggerMatch] are copies of these fields. *)
Record Trigger := mkTrigger {
  t_id : N;
  t_condition : ParsedFilter;
  t_filter_string : string;
  t_pre_window : N;
  t_post_window : N;
  t_notify_context : N;
  t_description : option string;
  t_oneshot : bool;
  t_match_count : N;
  t_post_remaining : N;
}.

Record TriggerInfo := mkTriggerInfo {
  ti_id : N;
  ti_filter_string : string;
  ti_pre_window : N;
  ti_post_window : N;
  ti_notify_context : N;
  ti_description : option string;
  ti_match_count : N;
  ti_oneshot : bool;
  ti_post_remaining : N;
}.

Record TriggerMatch := mkMatch {
  m_id : N;
  m_description : option string;
  m_filter_string : string;
  m_pre_window : N;
  m_post_window : N;
  m_notify_context : N;
  m_oneshot : bool;
}.

Record TriggerManager := mkManager { triggers : list Trigger; next_id : N }.

Inductive TriggerError :=
  | TriggerNotFound (id : N)
  | TriggerInvalidFilter (e : FilterParseError).

Definition set_counts (matched remaining : N) (t : Trigger) : Trigger :=
  mkTrigger (t_id t) (t_condition t) (t_filter_string t) (t_pre_window t) (t_post_window t)
    (t_notify_context t) (t_description t) (t_oneshot t) matched remaining.

Definition to_info (t : Trigger) : TriggerInfo :=
  mkTriggerInfo (t_id t) (t_filter_string t) (t_pre_window t) (t_post_window t)
    (t_notify_context t) (t_description t) (t_match_count t) (t_oneshot t) (t_post_remaining t).

Definition to_match (t : Trigger) : TriggerMatch :=
  mkMatch (t_id t) (t_description t) (t_filter_string t) (t_pre_window t) (t_post_window t)
    (t_notify_context t) (t_oneshot t).

(** [parse_filter(..).expect(..)]: [None] is the panic. *)
Definition seeded (id : N) (filter description : string) : option Trigger :=
  match parse_filter filter with
  | inl _ => None
  | inr c => Some (mkTrigger id c filter DEFAULT_TRIGGER_PRE_WINDOW DEFAULT_TRIGGER_POST_WINDOW
                     DEFAULT_TRIGGER_NOTIFY_CONTEXT (Some description) false 0 0)
  end.

Definition new : option TriggerManager :=
  match seeded 1 "l>=ERROR" "Error-level log detected",
        seeded 2 "/panic|unwrap failed|stack backtrace/" "Panic or unwrap failure detected" with
  | Some t1, Some t2 => Some (mkManager [t1; t2] 3)
  | _, _ => None
  end.

Definition list_triggers (m : TriggerManager) : list TriggerInfo := to_info <$> triggers m.

Definition find_trigger (id : N) (ts : list Trigger) : option Trigger := find_key t_id id ts.

Definition get (id : N) (m : TriggerManager) : option TriggerInfo :=
  to_info <$> find_trigger id (triggers m).

Definition add (filter : string) (pre post ctx : N) (desc : option string) (oneshot : bool)
  (m : TriggerManager) : (TriggerError + N) * TriggerManager :=
  match parse_filter filter with
  | inl e => (inl (TriggerInvalidFilter e), m)
  | inr c =>
      let id := next_id m in
      (inr id, mkManager (triggers m ++ [mkTrigger id c filter pre post ctx desc oneshot 0 0])
                 (u32_incr id))
  end.

(** The field updates of [edit], in order. *)
Definition edit_condition (new : option (string * ParsedFilter)) (t : Trigger) : Trigger :=
  match new with
  | Some (s, c) =>
      mkTrigger (t_id t) c s (t_pre_window t) (t_post_window t) (t_notify_context t)
        (t_description t) (t_oneshot t) (t_match_count t) 0
  | None => t
  end.

Definition edit_windows (pre post : option N) (t : Trigger) : Trigger :=
  let pre' := default (t_pre_window t) pre in
  let post' := default (t_post_window t) post in
  let remaining := match post with
                   | Some pw => if pw <? t_post_remaining t then pw else t_post_remaining t
                   | None => t_post_remaining t
                   end in
  mkTrigger (t_id t) (t_condition t) (t_filter_string t) pre' post' (t_notify_context t)
    (t_description t) (t_oneshot t) (t_match_count t) remaining.

Definition edit_rest (ctx : option N) (desc : option string) (oneshot : option bool)
  (t : Trigger) : Trigger :=
  mkTrigger (t_id t) (t_condition t) (t_filter_string t) (t_pre_window t) (t_post_window t)
    (default (t_notify_context t) ctx)
    (match desc with Some d => Some d | None => t_description t end)
    (default (t_oneshot t) oneshot) (t_match_count t) (t_post_remaining t).

(** Update the first trigger with this id. *)
Fixpoint update_first (id : N) (f : Trigger → Trigger) (ts : list Trigger) : list Trigger :=
  match ts with
  | [] => []
  | t :: ts => if t_id t =? id then f t :: ts else t :: update_first id f ts
  end.

Definition edit (id : N) (filter : option string) (pre post ctx : option N)
  (desc : option string) (oneshot : option bool) (m : TriggerManager)
  : (TriggerError + TriggerInfo) * TriggerManager :=
  let parsed := match filter with
                | None => inr None
                | Some f => match parse_filter f with
                            | inl e => inl e
                            | inr c => inr (Some (f, c))
                            end
                end in
  match parsed with
  | inl e => (inl (TriggerInvalidFilter e), m)
  | inr new_condition =>
      match find_trigger id (triggers m) with
      | None => (inl (TriggerNotFound id), m)
      | Some t =>
          let f t := edit_rest ctx desc oneshot (edit_windows pre post (edit_condition new_condition t)) in
          (inr (to_info (f t)), mkManager (update_first id f (triggers m)) (next_id m))
      end
  end.

Fixpoint remove_first (id : N) (ts : list Trigger) : list Trigger :=
  match ts with
  | [] => []
  | t :: ts => if t_id t =? id then ts else t :: remove_first id ts
  end.

Definition remove (id : N) (m : TriggerManager) : option TriggerError * TriggerManager :=
  match find_trigger id (triggers m) with
  | None => (Some (TriggerNotFound id), m)
  | Some _ => (None, mkManager (remove_first id (triggers m)) (next_id m))
  end.

Definition span_fires (span : SpanEntry) (t : Trigger) : bool :=
  is_span_filter (t_condition t) && matches_span (t_condition t) span.

Definition evaluate_span (span : SpanEntry) (m : TriggerManager)
  : list TriggerMatch * TriggerManager :=
  (to_match <$> List.filter (span_fires span) (triggers m),
   mkManager ((λ t, if span_fires span t
                    then set_counts (u64_add (t_match_count t) 1) (t_post_remaining t) t
                    else t) <$> triggers m) (next_id m)).

Definition reset_post_windows (m : TriggerManager) : TriggerManager :=
  mkManager ((λ t, set_counts (t_match_count t) 0 t) <$> triggers m) (next_id m).

Definition max_pre_window (m : TriggerManager) : N :=
  foldr N.max 0 (t_pre_window <$> triggers m).

(** One trigger on one record. *)
Definition step_trigger (e : LogEntry) (t : Trigger) : option TriggerMatch * Trigger :=
  if t_post_remaining t =? 0 then
    if matches_entry (t_condition t) e then
      (Some (to_match t), set_counts (u64_add (t_match_count t) 1) (t_post_window t) t)
    else (None, t)
  else (None, set_counts (t_match_count t) (t_post_remaining t - 1) t).

Definition evaluate (e : LogEntry) (m : TriggerManager) : list TriggerMatch * TriggerManager :=
  (omap (λ t, (step_trigger e t).1) (triggers m),
   mkManager ((λ t, (step_trigger e t).2) <$> triggers m) (next_id m)).

(** ** Ids *)

Definition ids_ok (m : TriggerManager) : Prop :=
  NoDup (t_id <$> triggers m) ∧ ∀ t, t ∈ triggers m → t_id t < next_id m.

Lemma update_first_ids id f ts :
  (∀ t, t_id (f t) = t_id t) → t_id <$> update_first id f ts = t_id <$> ts.
Proof.
  intros Hf. induction ts as [|t ts IH]; [done|]. simpl. case_goal; simpl.
  - by rewrite Hf.
  - by f_equal.
Qed.

Lemma edit_ids ctx desc oneshot pre post nc t :
  t_id (edit_rest ctx desc oneshot (edit_windows pre post (edit_condition nc t))) = t_id t.
Proof. by destruct nc as [[? ?]|]. Qed.

Lemma ids_ok_same m ts :
  ids_ok m → t_id <$> ts = t_id <$> triggers m → ids_ok (mkManager ts (next_id m)).
Proof.
  intros [Hn Hlt] He. split; simpl; [by rewrite He|]. intros t Ht.
  assert (t_id t ∈ t_id <$> triggers m) as (t' & Ht' & Hin)%list_elem_of_fmap.
  { rewrite <-He. apply list_elem_of_fmap. eauto. }
  rewrite Ht'. by apply Hlt.
Qed.

Lemma add_ids_ok f pre post ctx desc os m :
  next_id m < u32_max → ids_ok m → ids_ok (add f pre post ctx desc os m).2.
Proof.
  intros Hb [Hn Hlt]. unfold add. destruct (parse_filter f) as [e|c]; [done|]. simpl.
  unfold u32_incr. rewrite N.mod_small by lia. split; simpl.
  - rewrite fmap_app. apply NoDup_app. split_and!; [done| |apply NoDup_singleton].
    intros q (t & -> & Ht%Hlt)%list_elem_of_fmap Hq%list_elem_of_singleton. simpl in Hq. lia.
  - intros t [Ht%Hlt|Ht%list_elem_of_singleton]%elem_of_app; [lia|]. subst t. simpl. lia.
Qed.

Lemma remove_first_spec id ts t :
  NoDup (t_id <$> ts) → t ∈ remove_first id ts ↔ t ∈ ts ∧ t_id t ≠ id.
Proof.
  induction ts as [|x ts IH]; simpl; [set_solver|]. intros [Hx Hn]%NoDup_cons.
  destruct (t_id x =? id) eqn:E; bool_to_prop.
  - split; [|set_solver]. intros Ht. split; [by right|]. intros Hid. apply Hx.
    apply list_elem_of_fmap. exists t. by subst.
  - rewrite elem_of_cons, IH by done. set_solver.
Qed.
End trigger.
