(* ===== verification/TriggerSpec.v ===== *)
(** * TriggerSpec: what a session's triggers promise

    Over a stream of records, a trigger fires exactly on the matching records
    that no fire of its own precedes within its post-window, whatever its
    siblings do; and no edit can leave it deaf for longer than its window. *)

From S2P Require Import Prelude Text F64 Gelf Filter Matcher Samples Trigger.

Set Default Proof Using "Type".
Local Open Scope N_scope.

Section triggerspec.
Context {X : Externals}.

(** ** One trigger over a stream *)

Fixpoint trigger_run (es : list LogEntry) (t : Trigger) : list bool :=
  match es with
  | [] => []
  | e :: es => bool_decide (is_Some (step_trigger e t).1) :: trigger_run es (step_trigger e t).2
  end.

Lemma step_trigger_keeps e t :
  let t' := (step_trigger e t).2 in
  t_id t' = t_id t ∧ t_condition t' = t_condition t ∧ t_post_window t' = t_post_window t ∧
  t_pre_window t' = t_pre_window t ∧ t_oneshot t' = t_oneshot t.
Proof. unfold step_trigger. by repeat case_goal. Qed.

Lemma step_trigger_match e t mt : (step_trigger e t).1 = Some mt → mt = to_match t.
Proof. unfold step_trigger. by repeat case_goal; intros [= <-]. Qed.

Lemma trigger_run_spec es t i :
  trigger_run es t !! i = Some true ↔
    (∃ e, es !! i = Some e ∧ matches_entry (t_condition t) e = true) ∧
    t_post_remaining t ≤ N.of_nat i ∧
    (∀ j, (j < i)%nat → N.of_nat (i - j) ≤ t_post_window t → trigger_run es t !! j = Some false).
Proof.
  revert t i. induction es as [|e es IH]; intros t i; [simpl; naive_solver|].
  destruct (step_trigger_keeps e t) as (_ & Hc & Hw & _). simpl.
  unfold step_trigger in *. destruct (t_post_remaining t =? 0) eqn:Er; bool_to_prop.
  - destruct (matches_entry (t_condition t) e) eqn:Em; simpl in *.
    + destruct i as [|i]; simpl.
      { split; [|done]. intros _. split_and!; [eauto|lia|lia]. }
      rewrite IH. simpl. split.
      * intros (Hm & Hr & Hj). split_and!; [done|lia|]. intros [|j] Hlt Hle; simpl; [lia|].
        apply Hj; [lia|]. by rewrite Nat.sub_succ in Hle.
      * intros (Hm & Hr & Hj). split_and!; [done| |].
        -- destruct (decide (t_post_window t ≤ N.of_nat i)) as [|Hn]; [done|].
           specialize (Hj 0%nat ltac:(lia) ltac:(lia)). done.
        -- intros j Hlt Hle. apply (Hj (S j)); [lia|]. by rewrite Nat.sub_succ.
    + destruct i as [|i]; simpl.
      { split; [done|].
        intros [(e' & [= <-] & Hm) _]. congruence. }
      rewrite IH. split.
      * intros (Hm & Hr & Hj). split_and!; [done|lia|]. intros [|j] Hlt Hle; simpl.
        -- done.
        -- apply Hj; [lia|]. by rewrite Nat.sub_succ in Hle.
      * intros (Hm & Hr & Hj). split_and!; [done|lia|]. intros j Hlt Hle.
        apply (Hj (S j)); [lia|]. by rewrite Nat.sub_succ.
  - simpl in *. destruct i as [|i]; simpl.
    { split; [done|]. intros (_ & Hr & _). lia. }
    rewrite IH. simpl. split.
    + intros (Hm & Hr & Hj). split_and!; [done|lia|]. intros [|j] Hlt Hle; simpl.
      * done.
      * apply Hj; [lia|]. by rewrite Nat.sub_succ in Hle.
    + intros (Hm & Hr & Hj). split_and!; [done|lia|]. intros j Hlt Hle.
      apply (Hj (S j)); [lia|]. by rewrite Nat.sub_succ.
Qed.

(** ** A manager over a stream *)

(** The ids that fire on each record of the stream. *)
Fixpoint fire_log (es : list LogEntry) (m : TriggerManager) : list (list N) :=
  match es with
  | [] => []
  | e :: es => (m_id <$> (evaluate e m).1) :: fire_log es (evaluate e m).2
  end.

Definition fires_at (es : list LogEntry) (m : TriggerManager) (id : N) (i : nat) : Prop :=
  ∃ ids, fire_log es m !! i = Some ids ∧ id ∈ ids.

Lemma evaluate_triggers e m : triggers (evaluate e m).2 = (λ t, (step_trigger e t).2) <$> triggers m.
Proof. done. Qed.

Lemma evaluate_ids e m : t_id <$> triggers (evaluate e m).2 = t_id <$> triggers m.
Proof.
  simpl. rewrite <-list_fmap_compose. apply list_fmap_ext. intros i t _. simpl.
  apply step_trigger_keeps.
Qed.

Lemma evaluate_fires e m t :
  NoDup (t_id <$> triggers m) → t ∈ triggers m →
  t_id t ∈ m_id <$> (evaluate e m).1 ↔ is_Some (step_trigger e t).1.
Proof.
  intros Hnd Ht. rewrite list_elem_of_fmap. simpl. setoid_rewrite list_elem_of_omap. split.
  - intros (mt & Hid & t' & Ht' & Hs).
    assert (m_id mt = t_id t') as Hmid.
    { by apply step_trigger_match in Hs as ->. }
    assert (t' = t) as ->; [|eauto].
    apply list_elem_of_lookup in Ht as [i Hi], Ht' as [j Hj].
    assert (j = i) as ->; [|congruence].
    eapply NoDup_lookup; [exact Hnd|by rewrite list_lookup_fmap, Hj|].
    rewrite list_lookup_fmap, Hi. simpl. congruence.
  - intros [mt Hs]. exists mt. split; [|eauto].
    by apply step_trigger_match in Hs as ->.
Qed.

Lemma fires_at_run es m t i :
  NoDup (t_id <$> triggers m) → t ∈ triggers m →
  fires_at es m (t_id t) i ↔ trigger_run es t !! i = Some true.
Proof.
  revert m t i. induction es as [|e es IH]; intros m t i Hnd Ht; unfold fires_at.
  { simpl. split; [by intros (? & ? & ?)|done]. }
  destruct i as [|i]; simpl.
  - pose proof (evaluate_fires e m t Hnd Ht) as He. split.
    + intros (ids & [= <-] & Hin). f_equal. apply bool_decide_eq_true_2. by apply He.
    + intros [= Hs]. apply bool_decide_eq_true in Hs. eexists. split; [done|]. by apply He.
  - assert (Ht' : (step_trigger e t).2 ∈ triggers (evaluate e m).2).
    { rewrite evaluate_triggers. apply list_elem_of_fmap. eauto. }
    rewrite <-(IH (evaluate e m).2 _ i); [|by rewrite evaluate_ids|done].
    by destruct (step_trigger_keeps e t) as (-> & _).
Qed.

(** C6: exact debouncing. A live trigger fires on a record of the stream if and
    only if the record matches its condition and the trigger did not itself fire
    within the [post_window] records before it. Its siblings, whatever they are
    and however often they fire, do not appear in the answer. *)
Theorem debounce_exact es m t i :
  NoDup (t_id <$> triggers m) → t ∈ triggers m → t_post_remaining t = 0 →
  fires_at es m (t_id t) i ↔
    (∃ e, es !! i = Some e ∧ matches_entry (t_condition t) e = true) ∧
    (∀ j, (j < i)%nat → N.of_nat (i - j) ≤ t_post_window t → ¬ fires_at es m (t_id t) j).
Proof.
  intros Hnd Ht Hr. rewrite (fires_at_run es m t i Hnd Ht), trigger_run_spec, Hr.
  assert (Hlen : ∀ j, (j < length es)%nat → is_Some (trigger_run es t !! j)).
  { intros j Hj. apply lookup_lt_is_Some. clear Ht Hr. revert t j Hj.
    induction es as [|e es IH]; intros t j Hj; simpl in *; [lia|].
    destruct j; [lia|]. specialize (IH (step_trigger e t).2 j ltac:(lia)). lia. }
  split.
  - intros (Hm & _ & Hj). split; [done|]. intros j Hlt Hle Hf.
    apply (fires_at_run es m t j Hnd Ht) in Hf. rewrite (Hj j Hlt Hle) in Hf. done.
  - intros [(e & He & Hm) Hj]. split_and!; [eauto|lia|]. intros j Hlt Hle.
    apply lookup_lt_Some in He. destruct (Hlen j ltac:(lia)) as [[] Hb]; [|done].
    exfalso. apply (Hj j Hlt Hle). by apply fires_at_run.
Qed.

(** ** Every operation of a manager *)

Inductive TriggerOp :=
  | TAdd (f : string) (pre post ctx : N) (desc : option string) (oneshot : bool)
  | TEdit (id : N) (f : option string) (pre post ctx : option N) (desc : option string)
      (oneshot : option bool)
  | TRemove (id : N)
  | TEvaluate (e : LogEntry)
  | TEvaluateSpan (span : SpanEntry)
  | TReset.

Definition trigger_step (m : TriggerManager) (op : TriggerOp) : TriggerManager :=
  match op with
  | TAdd f pre post ctx desc os => (add f pre post ctx desc os m).2
  | TEdit id f pre post ctx desc os => (edit id f pre post ctx desc os m).2
  | TRemove id => (remove id m).2
  | TEvaluate e => (evaluate e m).2
  | TEvaluateSpan span => (evaluate_span span m).2
  | TReset => reset_post_windows m
  end.

Definition windows_ok (m : TriggerManager) : Prop :=
  ∀ t, t ∈ triggers m → t_post_remaining t ≤ t_post_window t.

Lemma map_windows_ok m (f : Trigger → Trigger) n :
  windows_ok m →
  (∀ t, t_post_remaining t ≤ t_post_window t → t_post_remaining (f t) ≤ t_post_window (f t)) →
  windows_ok (mkManager (f <$> triggers m) n).
Proof. intros Hw Hf t (t' & -> & Ht')%list_elem_of_fmap. auto. Qed.

Lemma map_ids_ok m (f : Trigger → Trigger) :
  ids_ok m → (∀ t, t_id (f t) = t_id t) → ids_ok (mkManager (f <$> triggers m) (next_id m)).
Proof.
  intros Hi Hf. apply ids_ok_same; [done|]. rewrite <-list_fmap_compose.
  apply list_fmap_ext. intros i t _. apply Hf.
Qed.

Lemma elem_of_update_first id f ts t :
  t ∈ update_first id f ts → t ∈ ts ∨ ∃ t', t' ∈ ts ∧ t = f t'.
Proof.
  induction ts as [|x ts IH]; simpl; [set_solver|]. case_goal; [set_solver|].
  rewrite !elem_of_cons. intros [->|H%IH]; [by left; left|]. set_solver.
Qed.

Lemma remove_first_ids id ts :
  NoDup (t_id <$> ts) → NoDup (t_id <$> remove_first id ts) ∧ (∀ t, t ∈ remove_first id ts → t ∈ ts).
Proof.
  intros Hn. split; [|intros t Ht; by apply remove_first_spec in Ht as [? _]].
  induction ts as [|x ts IH]; simpl in *; [done|]. apply NoDup_cons in Hn as [Hx Hn].
  case_goal; [done|]. simpl. apply NoDup_cons. split; [|by apply IH].
  intros (t & Ht & Hin)%list_elem_of_fmap. apply Hx. apply list_elem_of_fmap. exists t.
  split; [done|]. by apply remove_first_spec in Hin as [? _].
Qed.

Lemma step_remaining e t :
  t_post_remaining t ≤ t_post_window t →
  t_post_remaining (step_trigger e t).2 ≤ t_post_window (step_trigger e t).2.
Proof. intros H. unfold step_trigger. repeat case_goal; simpl; lia. Qed.

Lemma trigger_step_ok op m :
  next_id m < u32_max → ids_ok m → windows_ok m →
  ids_ok (trigger_step m op) ∧ windows_ok (trigger_step m op) ∧
  next_id (trigger_step m op) ≤ next_id m + 1.
Proof.
  intros Hb Hi Hw.
  destruct op as [f pre post ctx desc os|id f pre post ctx desc os|id|e|span|]; simpl.
  - split; [by apply add_ids_ok|]. unfold add. destruct (parse_filter f); simpl; [split; [done|lia]|].
    unfold u32_incr. rewrite N.mod_small by lia. split; [|done].
    intros t [Ht|Ht%list_elem_of_singleton]%elem_of_app; [auto|]. subst t. simpl. lia.
  - unfold edit. destruct (match f with None => _ | Some f => _ end) as [|nc]; simpl;
      [split_and!; [done|done|lia]|].
    destruct (find_trigger id (triggers m)); simpl; [|split_and!; [done|done|lia]].
    split_and!; [| |lia].
    + apply ids_ok_same; [done|]. apply update_first_ids. intros. apply edit_ids.
    + intros t' [Ht|(t0 & Ht & ->)]%elem_of_update_first; [auto|]. specialize (Hw _ Ht).
      destruct nc as [[? ?]|], post as [pw|]; simpl; repeat case_goal; bool_to_prop; lia.
  - unfold remove. destruct (find_trigger id (triggers m)); simpl; [|split_and!; [done|done|lia]].
    destruct Hi as [Hn Hlt]. destruct (remove_first_ids id (triggers m) Hn) as [Hn' Hin].
    split_and!; [split; [done|]; intros t1 Ht; by apply Hlt, Hin|intros t1 Ht; by apply Hw, Hin|lia].
  - split_and!; [|by apply map_windows_ok; [|intros; apply step_remaining]|lia].
    apply map_ids_ok; [done|]. intros t. apply step_trigger_keeps.
  - split_and!; [apply map_ids_ok; [done|]; intros t; by case_goal| |lia].
    apply map_windows_ok; [done|]. intros t. by case_goal.
  - split_and!; [by apply map_ids_ok| |lia]. apply map_windows_ok; [done|]. simpl. lia.
Qed.

(** Whatever sequence of adds, edits, removes, evaluations and rebinds a
    session makes: trigger ids stay unique and are never handed out twice, and
    no trigger is ever deaf for longer than its current [post_window] (so an
    edit that shrinks the window, or retargets the trigger, takes effect at
    once). *)
Theorem manager_invariant m0 ops :
  ids_ok m0 → windows_ok m0 → next_id m0 + N.of_nat (length ops) ≤ u32_max →
  let m := foldl trigger_step m0 ops in
  ids_ok m ∧ windows_ok m.
Proof.
  intros Hi Hw Hb m. subst m.
  assert (ids_ok (foldl trigger_step m0 ops) ∧ windows_ok (foldl trigger_step m0 ops) ∧
    next_id (foldl trigger_step m0 ops) ≤ next_id m0 + N.of_nat (length ops)) as (?&?&_); [|done].
  induction ops as [|op ops IH] using rev_ind; [simpl in *; split_and!; [done|done|lia]|].
  rewrite length_app in *. simpl in *. rewrite foldl_app. simpl.
  destruct IH as (IH1 & IH2 & IH3); [lia|].
  destruct (trigger_step_ok op (foldl trigger_step m0 ops) ltac:(lia) IH1 IH2) as (? & ? & ?). split_and!; [done|done|lia].
Qed.

(** A retargeting edit leaves the trigger live under its new condition, and
    a shrunk window is in force at once; an unknown id or a filter that does
    not parse changes nothing. *)
Theorem edit_takes_effect id f pre post ctx desc oneshot m :
  let '(res, m') := edit id f pre post ctx desc oneshot m in
  match res with
  | inl _ => m' = m
  | inr info =>
      get id m' = Some info ∧ (is_Some f → ti_post_remaining info = 0) ∧
      (∀ pw, post = Some pw → ti_post_window info = pw ∧ ti_post_remaining info ≤ pw)
  end.
Proof.
  unfold edit.
  destruct (match f with None => _ | Some f => _ end) as [|nc] eqn:Ep; [done|].
  destruct (find_trigger id (triggers m)) as [t|] eqn:Ef; [|done].
  set (g := λ t, edit_rest ctx desc oneshot (edit_windows pre post (edit_condition nc t))).
  assert (∀ t, t_id (g t) = t_id t) as Hg by (intros; apply edit_ids).
  split_and!.
  - unfold get, find_trigger in *. simpl. clear Ep.
    induction (triggers m) as [|x ts IH]; [done|]. simpl in *.
    destruct (t_id x =? id) eqn:E; simpl.
    + rewrite Hg, E. by injection Ef as ->.
    + rewrite E. by apply IH.
  - intros [f' ->]. destruct (parse_filter f') as [|c]; [done|]. injection Ep as <-. simpl.
    destruct post as [pw|]; simpl; [|done]. by destruct (pw <? 0) eqn:E; bool_to_prop; [lia|].
  - intros pw ->. simpl. split; [done|]. case_goal; bool_to_prop; lia.
Qed.
End triggerspec.

(** ** The properties at concrete inputs *)

Definition sample_trigger (id post : N) (f : string) : Trigger :=
  mkTrigger id (match parse_filter f with inr c => c | inl _ => FNone end) f 2 post 1 None false 0 0.
Definition sample_manager : TriggerManager :=
  mkManager [sample_trigger 1 2 "l>=ERROR"; sample_trigger 2 0 "boom"] 3.
Definition sample_stream : list LogEntry :=
  [error_at 1 "boom"; error_at 2 "x"; log_at 3 "boom"; error_at 4 "y"; error_at 5 "z"].

Example sample_fires : fire_log sample_stream sample_manager = [[1; 2]; []; [2]; [1]; []].
Proof. by vm_compute. Qed.

Lemma debounce_exact_witness :
  NoDup (t_id <$> triggers sample_manager) ∧
  fires_at sample_stream sample_manager 1 3 ∧ ¬ fires_at sample_stream sample_manager 1 1.
Proof.
  assert (NoDup (t_id <$> triggers sample_manager)) as Hnd by by_eval.
  assert (sample_trigger 1 2 "l>=ERROR" ∈ triggers sample_manager) as Ht by left.
  assert (H0 : fires_at sample_stream sample_manager 1 0).
  { eexists. split; [by vm_compute|]. by left. }
  split; [done|]. split.
  - eexists. split; [by vm_compute|]. by left.
  - intros Hf. apply (debounce_exact sample_stream sample_manager _ 1 Hnd Ht eq_refl) in Hf as [_ Hj].
    apply (Hj 0%nat); [lia|done|done].
Defined.

Lemma manager_invariant_witness :
  ids_ok sample_manager ∧ windows_ok sample_manager ∧
  (let m := foldl trigger_step sample_manager
     [TEvaluate (error_at 1 "boom"); TEdit 1 None None (Some 0) None None None; TAdd "x" 1 1 1 None true] in
   ids_ok m ∧ windows_ok m).
Proof.
  assert (ids_ok sample_manager) as Hi.
  { split; [by_eval|]. intros t Ht. repeat (apply elem_of_cons in Ht as [->|Ht]; [done|]).
    by apply elem_of_nil in Ht. }
  assert (windows_ok sample_manager) as Hw.
  { intros t Ht. repeat (apply elem_of_cons in Ht as [->|Ht]; [by vm_compute|]).
    by apply elem_of_nil in Ht. }
  split; [done|]. split; [done|]. by apply manager_invariant.
Defined.
