(* ===== verification/Bookmarks.v ===== *)
(** * Bookmarks: bookmarks and read-and-advance cursors ([store/bookmarks.rs])

    The map is under one [RwLock] and the recently evicted names under one
    [Mutex], always taken after it, so a method is one step. A [CursorCommit] is
    taken in one step and committed in a later one, with anything in between. *)

From S2P Require Import Prelude Text F64 Gelf Filter.

Set Default Proof Using "Type".
Local Open Scope N_scope.

(** [created_at] is the instant of the call, in nanoseconds. *)
Record Bookmark := mkBookmark {
  b_qualified_name : string;
  b_name : string;
  b_session : string;
  b_seq : N;
  b_created_at : Z;
  b_description : option string;
  b_late_mark : N;
  b_floor : N;
}.

Inductive BookmarkError :=
  | InvalidName (s : string)
  | AlreadyExists (s : string)
  | BookmarkNotFound (s : string).

Record BookmarkStore := mkBookmarks {
  bookmarks : gmap string Bookmark;
  recently_evicted : gset string;
}.

Definition MAX_RECENTLY_EVICTED : nat := 1024.

Definition new : BookmarkStore := mkBookmarks ∅ ∅.

Definition set_bookmarks (m : gmap string Bookmark) (s : BookmarkStore) : BookmarkStore :=
  mkBookmarks m (recently_evicted s).
Definition set_recent (r : gset string) (s : BookmarkStore) : BookmarkStore :=
  mkBookmarks (bookmarks s) r.

(** [format!("{a}/{b}")]. *)
Definition slash : ascii := "/".
Definition qualified (session name : string) : string := (session +:+ String slash name)%string.

Definition is_valid_bookmark_name (name : string) : bool :=
  if String.eqb name "" || (64 <? String.length name)%nat then false
  else str_forall (λ a, is_ascii_alphanumeric a || Ascii.eqb a "-" || Ascii.eqb a "_") name.

Definition should_evict (bookmark_seq log_lost_below span_lost_below : N) : bool :=
  let window_start := sat_add bookmark_seq 1 in
  let log_gone := bool_decide (is_Some (evicted_below window_start log_lost_below)) in
  let span_gone := bool_decide (is_Some (evicted_below window_start span_lost_below)) in
  log_gone && span_gone.

Definition qualify (name current_session : string) : string :=
  if str_contains (String slash "") name then name else qualified current_session name.

(** ** The store *)

Definition add_at (now : Z) (session name : string) (seq late_mark : N) (description : option string)
  (replace : bool) (s : BookmarkStore) : (BookmarkError + Bookmark * bool) * BookmarkStore :=
  if negb (is_valid_bookmark_name name) then (inl (InvalidName name), s)
  else
    let q := qualified session name in
    let bookmark := mkBookmark q name session seq now description late_mark seq in
    let existed := bool_decide (is_Some (bookmarks s !! q)) in
    if existed && negb replace then (inl (AlreadyExists q), s)
    else (inr (bookmark, existed), set_bookmarks (<[q := bookmark]> (bookmarks s)) s).

Definition add (now : Z) (session name : string) (seq : N) (description : option string)
  (replace : bool) (s : BookmarkStore) : (BookmarkError + Bookmark * bool) * BookmarkStore :=
  add_at now session name seq 0 description replace s.

Definition insert_persisted (b : Bookmark) (s : BookmarkStore) : BookmarkStore :=
  set_bookmarks (<[b_qualified_name b := b]> (bookmarks s)) s.

(** Newest seq first, then by qualified name. *)
Definition list_before (a b : Bookmark) : bool :=
  if b_seq a =? b_seq b then String.leb (b_qualified_name a) (b_qualified_name b)
  else b_seq b <? b_seq a.
Fixpoint list_insert (x : Bookmark) (l : list Bookmark) : list Bookmark :=
  match l with
  | [] => [x]
  | y :: l' => if list_before x y then x :: l else y :: list_insert x l'
  end.
Definition list_bookmarks (s : BookmarkStore) : list Bookmark :=
  foldr list_insert [] (map_to_list (bookmarks s)).*2.

Definition remove (q : string) (s : BookmarkStore) : option BookmarkError * BookmarkStore :=
  match bookmarks s !! q with
  | Some _ => (None, set_bookmarks (delete q (bookmarks s)) s)
  | None => (Some (BookmarkNotFound q), s)
  end.

Definition get (q : string) (s : BookmarkStore) : option Bookmark := bookmarks s !! q.

(** [HashSet] order is arbitrary: [victim] is what its [iter().next()] yields. *)
Definition remember_evicted (victim : gset string → option string) (recent : gset string)
  (name : string) : gset string :=
  let recent := if (MAX_RECENTLY_EVICTED <=? size recent)%nat
                then match victim recent with Some v => recent ∖ {[v]} | None => recent end
                else recent in
  {[name]} ∪ recent.

Definition sweep (victim : gset string → option string) (log_lost_below span_lost_below : N)
  (s : BookmarkStore) : BookmarkStore :=
  let gone b := should_evict (b_seq b) log_lost_below span_lost_below in
  let evicted := (List.filter (λ kb, gone kb.2) (map_to_list (bookmarks s))).*1 in
  mkBookmarks (filter (λ kb, gone kb.2 = false) (bookmarks s))
    (foldl (remember_evicted victim) (recently_evicted s) evicted).

Definition clear_session (session : string) (s : BookmarkStore) : nat * BookmarkStore :=
  let kept := filter (λ kb, b_session kb.2 ≠ session) (bookmarks s) in
  ((size (bookmarks s) - size kept)%nat,
   mkBookmarks kept
     (filter (λ q, starts_with (qualified session "") q = false) (recently_evicted s))).

(** One bookmark of the renamed session. *)
Definition rename_one (new_name : string) (m : gmap string Bookmark) (key : string)
  : gmap string Bookmark :=
  match m !! key with
  | None => m
  | Some b =>
      let q := qualified new_name (b_name b) in
      <[q := mkBookmark q (b_name b) new_name (b_seq b) (b_created_at b) (b_description b)
               (b_late_mark b) (b_floor b)]> (delete key m)
  end.

Definition rename_recent (old new_name : string) (recent : gset string) (q : string) : gset string :=
  match strip_prefix (qualified old "") q with
  | Some rest => {[qualified new_name rest]} ∪ (recent ∖ {[q]})
  | None => recent
  end.

Definition rename_session (old new_name : string) (s : BookmarkStore) : nat * BookmarkStore :=
  if String.eqb old new_name then (0%nat, s)
  else
    let keys := (List.filter (λ kb, String.eqb (b_session kb.2) old) (map_to_list (bookmarks s))).*1 in
    (length keys,
     mkBookmarks (foldl (rename_one new_name) (bookmarks s) keys)
       (foldl (rename_recent old new_name) (recently_evicted s) (elements (recently_evicted s)))).

(** ** Cursors *)

Record CursorCommit := mkCommit {
  cc_qualified_name : string;
  cc_session : string;
  cc_name : string;
  cc_lower_bound : N;
  cc_late_mark : N;
  cc_floor : N;
}.

(** Also whether the auto-create followed an eviction (the warning). *)
Definition cursor_read_and_advance_at (now : Z) (session name : string) (late_counter : N)
  (s : BookmarkStore) : (N * CursorCommit) * bool * BookmarkStore :=
  let q := qualified session name in
  match bookmarks s !! q with
  | Some b =>
      ((b_seq b, mkCommit q session name (b_seq b) (b_late_mark b) (b_floor b)), false, s)
  | None =>
      let was_evicted := bool_decide (q ∈ recently_evicted s) in
      ((0, mkCommit q session name 0 late_counter 0), was_evicted,
       mkBookmarks (<[q := mkBookmark q name session 0 now None late_counter 0]> (bookmarks s))
         (recently_evicted s ∖ {[q]}))
  end.

Definition cursor_read_and_advance (now : Z) (session name : string) (s : BookmarkStore)
  : (N * CursorCommit) * bool * BookmarkStore :=
  cursor_read_and_advance_at now session name 0 s.

Definition commit (now : Z) (seq late_mark : N) (c : CursorCommit) (s : BookmarkStore)
  : BookmarkStore :=
  if (seq =? cc_lower_bound c) && (late_mark =? cc_late_mark c) then s
  else
    let q := cc_qualified_name c in
    match bookmarks s !! q with
    | Some b =>
        if (b_seq b =? cc_lower_bound c) && (b_late_mark b =? cc_late_mark c) then
          set_bookmarks (<[q := mkBookmark (b_qualified_name b) (b_name b) (b_session b) seq
                                  (b_created_at b) (b_description b) late_mark (b_floor b)]>
                           (bookmarks s)) s
        else s
    | None =>
        if negb (seq =? cc_lower_bound c) then
          set_bookmarks (<[q := mkBookmark q (cc_name c) (cc_session c) seq now None late_mark
                                  (cc_floor c)]> (bookmarks s)) s
        else s
    end.
