(* ===== verification/BookmarksSpec.v ===== *)
(** * BookmarksSpec: cursors advance over what they read, and bookmarks outlive no data

    A bookmark is held under [session/name]. Requests run concurrently, so a
    cursor read is two steps, [BOpen] and [BCommit], with any other operations
    in between; a world keeps the handles taken so far. *)

From S2P Require Import Prelude Text F64 Gelf Filter Matcher Samples Bookmarks.

Set Default Proof Using "Type".
Local Open Scope N_scope.

(** ** Qualified names *)

Definition no_slash (s : string) : Prop := split_once slash s = None.

Lemma String_app_assoc (a b c : string) : (a +:+ (b +:+ c) = (a +:+ b) +:+ c)%string.
Proof. induction a as [|x a IH]; [done|]. exact (f_equal (String x) IH). Qed.

Lemma split_once_app c s t :
  split_once c s = None → split_once c (s +:+ String c t)%string = Some (s, t).
Proof.
  induction s as [|a s IH]; simpl; [by rewrite Ascii.eqb_refl|].
  destruct (Ascii.eqb a c); [done|]. destruct (split_once c s) as [[]|]; [done|].
  intros _. by rewrite IH.
Qed.

Lemma split_qualified_name s n : no_slash s → split_once slash (qualified s n) = Some (s, n).
Proof. apply split_once_app. Qed.

Lemma qualified_inj s1 n1 s2 n2 :
  no_slash s1 → no_slash s2 → qualified s1 n1 = qualified s2 n2 → s1 = s2 ∧ n1 = n2.
Proof.
  intros H1%(split_qualified_name _ n1) H2%(split_qualified_name _ n2) Heq.
  rewrite Heq in H1. naive_solver.
Qed.

Lemma qualified_dec se k : no_slash se → (∃ n, k = qualified se n) ∨ (∀ n, k ≠ qualified se n).
Proof.
  intros Hse. set (n := match split_once slash k with Some (_, n) => n | None => ""%string end).
  destruct (decide (k = qualified se n)) as [|Hk]; [by left; exists n|]. right. intros m ->.
  apply Hk. unfold n. by rewrite split_qualified_name.
Qed.

(** ** The store's invariant *)

Definition keyed (k : string) (b : Bookmark) : Prop :=
  b_qualified_name b = k ∧ k = qualified (b_session b) (b_name b) ∧ no_slash (b_session b).

Definition store_keyed (s : BookmarkStore) : Prop := map_Forall keyed (bookmarks s).

(** A bookmark under another session's name. *)
Definition moved (new_name : string) (b : Bookmark) : Bookmark :=
  mkBookmark (qualified new_name (b_name b)) (b_name b) new_name (b_seq b) (b_created_at b)
    (b_description b) (b_late_mark b) (b_floor b).

Lemma rename_fold old new_name ks m :
  old ≠ new_name → no_slash old → no_slash new_name → NoDup ks →
  (∀ k, k ∈ ks → ∃ b, m !! k = Some b ∧ k = qualified old (b_name b)) →
  let m' := foldl (rename_one new_name) m ks in
  (∀ n, m' !! qualified new_name n =
     if decide (qualified old n ∈ ks) then moved new_name <$> (m !! qualified old n)
     else m !! qualified new_name n) ∧
  (∀ q, (∀ n, q ≠ qualified new_name n) → m' !! q = if decide (q ∈ ks) then None else m !! q).
Proof.
  intros Hne Ho Hn. assert (Hdiff : ∀ a b, qualified old a ≠ qualified new_name b).
  { intros a b Heq. by apply qualified_inj in Heq as [? _]. }
  revert m. induction ks as [|k ks IH]; intros m Hnd Hks; cbn [foldl].
  { by split. }
  apply NoDup_cons in Hnd as [Hk Hnd]. destruct (Hks k ltac:(by left)) as (b & Hb & ->).
  unfold rename_one at 2 4. rewrite Hb.
  set (m1 := <[qualified new_name (b_name b) := _]> _).
  assert (Hm1 : ∀ n, qualified old n ≠ qualified old (b_name b) →
    m1 !! qualified old n = m !! qualified old n).
  { intros n Hn'. unfold m1. by rewrite lookup_insert_ne, lookup_delete_ne. }
  destruct (IH m1 Hnd) as [IH1 IH2].
  { intros k' Hk'. destruct (Hks k' ltac:(by right)) as (b' & Hb' & ->).
    exists b'. split; [|done]. rewrite Hm1; [done|]. intros Heq. apply Hk. by rewrite <-Heq. }
  split.
  - intros n. rewrite IH1. destruct (decide (n = b_name b)) as [->|Hnn].
    + rewrite decide_False, decide_True by (done || by left).
      unfold m1. by rewrite lookup_insert_eq, Hb.
    + assert (qualified old n ≠ qualified old (b_name b)) as Hqq.
      { by intros [_ ?]%qualified_inj. }
      assert (qualified new_name n ≠ qualified new_name (b_name b)) as Hqn.
      { by intros [_ ?]%qualified_inj. }
      rewrite Hm1 by done.
      case_decide as Hi; case_decide as Hd; rewrite elem_of_cons in Hd; [done|tauto|tauto|].
      unfold m1. by rewrite lookup_insert_ne, lookup_delete_ne by done.
  - intros q Hq. rewrite IH2 by done. destruct (decide (q = qualified old (b_name b))) as [->|Hqk].
    + rewrite decide_False, decide_True by (done || by left).
      unfold m1. by rewrite lookup_insert_ne, lookup_delete_eq.
    + case_decide as Hi; case_decide as Hd; rewrite elem_of_cons in Hd; [done|tauto|tauto|].
      unfold m1. by rewrite lookup_insert_ne, lookup_delete_ne by done.
Qed.

(** The keys [rename_session] collects. *)
Lemma session_keys old s :
  store_keyed s →
  let ks := (List.filter (λ kb, String.eqb (b_session kb.2) old)
               (map_to_list (bookmarks s))).*1 in
  NoDup ks ∧
  (∀ k, k ∈ ks ↔ ∃ b, bookmarks s !! k = Some b ∧ b_session b = old) ∧
  length ks = size (filter (λ kb, b_session kb.2 = old) (bookmarks s)).
Proof.
  intros Hk ks.
  assert (Hel : ∀ k b, (k, b) ∈ List.filter (λ kb, String.eqb (b_session kb.2) old)
    (map_to_list (bookmarks s)) ↔ bookmarks s !! k = Some b ∧ b_session b = old).
  { intros k b. rewrite elem_of_lfilter, elem_of_map_to_list. simpl.
    rewrite String.eqb_eq. tauto. }
  assert (Hperm : List.filter (λ kb, String.eqb (b_session kb.2) old) (map_to_list (bookmarks s))
    ≡ₚ map_to_list (filter (λ kb, b_session kb.2 = old) (bookmarks s))).
  { apply NoDup_Permutation; [|apply NoDup_map_to_list|].
    - apply NoDup_ListNoDup, List.NoDup_filter, NoDup_ListNoDup, NoDup_map_to_list.
    - intros [k b]. rewrite Hel, elem_of_map_to_list, map_lookup_filter_Some. done. }
  split_and!.
  - unfold ks. rewrite Hperm. apply NoDup_fst_map_to_list.
  - intros k. unfold ks. rewrite list_elem_of_fmap. split.
    + intros ([k' b] & -> & Hb%Hel). eauto.
    + intros (b & Hb). exists (k, b). split; [done|]. by apply Hel.
  - unfold ks. rewrite length_fmap, Hperm. apply length_map_to_list.
Qed.

(** ** Worlds *)

Record BookWorld := mkWorld { w_store : BookmarkStore; w_handles : list CursorCommit }.

Inductive BookOp :=
  | BAdd (now : Z) (session name : string) (seq late : N) (desc : option string) (replace : bool)
  | BInsert (b : Bookmark)
  | BRemove (q : string)
  | BSweep (victim : gset string → option string) (log span : N)
  | BClear (session : string)
  | BRename (old new_name : string)
  | BOpen (now : Z) (session name : string) (late : N)
  | BCommit (now : Z) (handle : nat) (seq late_mark : N).

Definition book_step (w : BookWorld) (op : BookOp) : BookWorld :=
  let s := w_store w in
  match op with
  | BAdd now se n q l d r => mkWorld (add_at now se n q l d r s).2 (w_handles w)
  | BInsert b => mkWorld (insert_persisted b s) (w_handles w)
  | BRemove q => mkWorld (remove q s).2 (w_handles w)
  | BSweep v l sp => mkWorld (sweep v l sp s) (w_handles w)
  | BClear se => mkWorld (clear_session se s).2 (w_handles w)
  | BRename o n => mkWorld (rename_session o n s).2 (w_handles w)
  | BOpen now se n l =>
      let '((_, c), _, s') := cursor_read_and_advance_at now se n l s in
      mkWorld s' (w_handles w ++ [c])
  | BCommit now i q l =>
      match w_handles w !! i with
      | Some c => mkWorld (commit now q l c s) (w_handles w)
      | None => w
      end
  end.

(** Sessions are named without a slash; a restored bookmark is under its own key. *)
Definition op_named (op : BookOp) : Prop :=
  match op with
  | BAdd _ se _ _ _ _ _ | BOpen _ se _ _ => no_slash se
  | BInsert b => keyed (b_qualified_name b) b
  | BRename o n => no_slash o ∧ no_slash n
  | _ => True
  end.

Definition handle_ok (c : CursorCommit) : Prop :=
  cc_qualified_name c = qualified (cc_session c) (cc_name c) ∧ no_slash (cc_session c).

Definition world_ok (w : BookWorld) : Prop :=
  store_keyed (w_store w) ∧ Forall handle_ok (w_handles w).

Lemma keyed_insert k b s :
  keyed k b → store_keyed s → store_keyed (set_bookmarks (<[k := b]> (bookmarks s)) s).
Proof. intros Hb Hs. by apply map_Forall_insert_2. Qed.

Lemma add_at_keyed now se n q l d r s :
  no_slash se → store_keyed s → store_keyed (add_at now se n q l d r s).2.
Proof. intros Hse Hs. unfold add_at. repeat case_goal; try done. simpl. by apply keyed_insert. Qed.

Lemma rename_keyed old new_name s :
  no_slash old → no_slash new_name → store_keyed s → store_keyed (rename_session old new_name s).2.
Proof.
  intros Ho Hn Hs. unfold rename_session. destruct (String.eqb_spec old new_name); [done|].
  destruct (session_keys old s Hs) as (Hnd & Hks & _). set (ks := (_).*1) in *.
  destruct (rename_fold old new_name ks (bookmarks s)) as [H1 H2]; try done.
  { intros k (b & Hb & Hse)%Hks. exists b. split; [done|].
    destruct (Hs k b Hb) as (_ & -> & _). by rewrite Hse. }
  unfold store_keyed. simpl. intros k b Hkb.
  destruct (qualified_dec new_name k Hn) as [[m ->]|Hk].
  - rewrite H1 in Hkb. case_decide; [|by apply Hs].
    apply fmap_Some in Hkb as (b' & Hb' & ->). unfold keyed, moved. cbn [b_qualified_name b_session b_name].
    destruct (Hs _ _ Hb') as (_ & Hq & Hns).
    apply qualified_inj in Hq as [_ ->]; done.
  - rewrite H2 in Hkb by done. case_decide; [done|]. by apply Hs.
Qed.

Lemma book_step_ok op w : op_named op → world_ok w → world_ok (book_step w op).
Proof.
  intros Hop [Hs Hh]. destruct op as [| | | | | |now se n l|now i q l]; simpl in *.
  - split; [by apply add_at_keyed|done].
  - split; [by apply keyed_insert|done].
  - split; [|done]. simpl. unfold remove. case_goal; [|done]. simpl. by apply map_Forall_delete.
  - split; [|done]. unfold store_keyed. simpl. intros k b [Hb _]%map_lookup_filter_Some. by apply Hs.
  - split; [|done]. unfold store_keyed. simpl. intros k b [Hb _]%map_lookup_filter_Some. by apply Hs.
  - split; [by destruct Hop; apply rename_keyed|done].
  - unfold cursor_read_and_advance_at. case_goal; simpl.
    + split; [done|]. apply Forall_app. split; [done|]. by repeat constructor.
    + split; [by apply (map_Forall_insert_2 keyed)|].
      apply Forall_app. split; [done|]. by repeat constructor.
  - destruct (w_handles w !! i) as [c|] eqn:Ei; [|done]. split; [|done]. simpl.
    pose proof (Forall_lookup_1 _ _ _ _ Hh Ei) as [Hq Hns]. unfold commit. repeat case_goal; try done.
    + apply keyed_insert; [|done]. by destruct (Hs _ _ ltac:(eassumption)) as (? & ? & ?).
    + by apply keyed_insert.
Qed.

(** ** A cursor's landed advances form one chain *)

Definition pos_of (q : string) (w : BookWorld) : option (N * N) :=
  (λ b, (b_seq b, b_late_mark b)) <$> get q (w_store w).

(** The advance a step lands on [q]: from where its read started, to where it moved. *)
Definition landed (q : string) (w : BookWorld) (op : BookOp) : list ((N * N) * (N * N)) :=
  match op with
  | BCommit now i seq mark =>
      match w_handles w !! i with
      | Some c =>
          if bool_decide (cc_qualified_name c = q ∧ pos_of q (book_step w op) ≠ pos_of q w)
          then [((cc_lower_bound c, cc_late_mark c), (seq, mark))] else []
      | None => []
      end
  | _ => []
  end.

Fixpoint landed_run (q : string) (w : BookWorld) (ops : list BookOp) : list ((N * N) * (N * N)) :=
  match ops with
  | [] => []
  | op :: ops => landed q w op ++ landed_run q (book_step w op) ops
  end.

(** [p] to [p'] by consecutive advances. *)
Fixpoint chain (p : N * N) (l : list ((N * N) * (N * N))) (p' : N * N) : Prop :=
  match l with
  | [] => p = p'
  | (a, b) :: l => a = p ∧ a ≠ b ∧ a.1 ≤ b.1 ∧ a.2 ≤ b.2 ∧ chain b l p'
  end.

(** The step leaves [q] to its cursor reads: nothing removes, replaces or
    renames it, and reads commit forward. *)
Definition spares (q : string) (w : BookWorld) (op : BookOp) : Prop :=
  let held P := ∀ b, get q (w_store w) = Some b → P b in
  match op with
  | BAdd _ se n _ _ _ replace => qualified se n ≠ q ∨ replace = false
  | BInsert b => b_qualified_name b ≠ q
  | BRemove q' => q' ≠ q
  | BSweep _ l sp => held (λ b, should_evict (b_seq b) l sp = false)
  | BClear se => held (λ b, b_session b ≠ se)
  | BRename o n => held (λ b, b_session b ≠ o ∧ b_session b ≠ n)
  | BOpen _ _ _ _ => True
  | BCommit _ i seq mark =>
      ∀ c, w_handles w !! i = Some c → cc_lower_bound c ≤ seq ∧ cc_late_mark c ≤ mark
  end.

Fixpoint run_spares (q : string) (w : BookWorld) (ops : list BookOp) : Prop :=
  match ops with
  | [] => True
  | op :: ops => op_named op ∧ spares q w op ∧ run_spares q (book_step w op) ops
  end.

Lemma rename_other old new_name s q b :
  no_slash old → no_slash new_name → store_keyed s → bookmarks s !! q = Some b →
  b_session b ≠ old → b_session b ≠ new_name →
  bookmarks (rename_session old new_name s).2 !! q = Some b.
Proof.
  intros Ho Hn Hs Hq Hbo Hbn. unfold rename_session. destruct (String.eqb_spec old new_name); [done|].
  destruct (session_keys old s Hs) as (Hnd & Hks & _). set (ks := (_).*1) in *.
  destruct (rename_fold old new_name ks (bookmarks s)) as [_ H2]; try done.
  { intros k (b' & Hb & Hse)%Hks. exists b'. split; [done|].
    destruct (Hs k b' Hb) as (_ & -> & _). by rewrite Hse. }
  simpl. rewrite H2.
  - rewrite decide_False; [done|]. intros (b' & Hb' & ?)%Hks. by simplify_eq.
  - destruct (Hs q b Hq) as (_ & -> & ?). by intros m [? _]%qualified_inj.
Qed.

Definition moved_to (sq mk : N) (b : Bookmark) : Bookmark :=
  mkBookmark (b_qualified_name b) (b_name b) (b_session b) sq (b_created_at b) (b_description b)
    mk (b_floor b).

(** A commit over a held bookmark: it lands from where its read started, only. *)
Lemma commit_lookup now sq mk c s q b :
  bookmarks s !! q = Some b →
  bookmarks (commit now sq mk c s) !! q =
    if decide (cc_qualified_name c = q ∧ b_seq b = cc_lower_bound c ∧ b_late_mark b = cc_late_mark c)
    then Some (moved_to sq mk b) else Some b.
Proof.
  intros Hb. unfold commit. destruct ((sq =? _) && _) eqn:E.
  - case_decide as Hd; [|done]. destruct Hd as (_ & Hs & Hl), b. simpl in *. bool_to_prop.
    subst. done.
  - clear E. destruct (decide (cc_qualified_name c = q)) as [Hq|Hq].
    + rewrite Hq, Hb. destruct ((b_seq b =? _) && _) eqn:E.
      * bool_to_prop. rewrite decide_True by done. simpl. by rewrite lookup_insert_eq.
      * rewrite decide_False; [done|]. intros (_ & Hs & Hl). rewrite Hs, Hl, !N.eqb_refl in E. done.
    + rewrite decide_False by tauto. repeat case_goal; simpl; try done; by rewrite lookup_insert_ne.
Qed.

Lemma spared_step q w op p :
  world_ok w → op_named op → spares q w op → pos_of q w = Some p →
  ∃ p', pos_of q (book_step w op) = Some p' ∧ chain p (landed q w op) p'.
Proof.
  intros [Hs Hh] Hop Hsp Hp. unfold pos_of in Hp. apply fmap_Some in Hp as (b & Hb & ->).
  unfold get in Hb.
  assert (Hkeep : ∀ s', bookmarks s' !! q = Some b → landed q w op = [] →
    w_store (book_step w op) = s' →
    ∃ p', pos_of q (book_step w op) = Some p' ∧ chain (b_seq b, b_late_mark b) (landed q w op) p').
  { intros s' Hs' -> Hw. eexists. split; [|reflexivity]. unfold pos_of, get. by rewrite Hw, Hs'. }
  destruct op as [now se n sq l d r|b'|q'|v l sp|se|o n|now se n l|now i sq mk]; simpl in Hop, Hsp.
  - eapply Hkeep; [|done|done]. simpl. unfold add_at. repeat case_goal; try done; simpl.
    rewrite lookup_insert_ne; [done|]. intros Hq. destruct Hsp as [?| ->]; [done|].
    rewrite Hq in *. by rewrite Hb in *.
  - eapply Hkeep; [|done|done]. simpl. by rewrite lookup_insert_ne.
  - eapply Hkeep; [|done|done]. simpl. unfold remove. case_goal; [|done]. simpl. by rewrite lookup_delete_ne.
  - eapply Hkeep; [|done|done]. simpl. apply map_lookup_filter_Some. split; [done|]. by apply Hsp.
  - eapply Hkeep; [|done|done]. simpl. apply map_lookup_filter_Some. split; [done|]. by apply Hsp.
  - destruct (Hsp b Hb), Hop. eapply Hkeep; [|done|done]. by apply rename_other.
  - apply (Hkeep (cursor_read_and_advance_at now se n l (w_store w)).2); [|done|];
      [|simpl; by destruct (cursor_read_and_advance_at _ _ _ _ _) as [[[]]]].
    unfold cursor_read_and_advance_at. case_goal; simpl; [done|].
    rewrite lookup_insert_ne; [done|]. intros Hq. rewrite Hq in *. by rewrite Hb in *.
  - destruct (w_handles w !! i) as [c|] eqn:Ei.
    2:{ eapply Hkeep; [done|simpl; by rewrite Ei|simpl; by rewrite Ei]. }
    destruct (Hsp c eq_refl) as [Hlo Hlm].
    pose proof (commit_lookup now sq mk c _ q b Hb) as Hc.
    assert (Hpos : pos_of q w = Some (b_seq b, b_late_mark b)).
    { unfold pos_of, get. by rewrite Hb. }
    assert (Hpos' : pos_of q (mkWorld (commit now sq mk c (w_store w)) (w_handles w)) =
      Some (if decide (cc_qualified_name c = q ∧ b_seq b = cc_lower_bound c ∧
                       b_late_mark b = cc_late_mark c)
            then (sq, mk) else (b_seq b, b_late_mark b))).
    { unfold pos_of, get. simpl. rewrite Hc. by case_decide. }
    simpl. rewrite Ei. case_bool_decide as Hm; rewrite Hpos', Hpos in Hm; rewrite Hpos';
      case_decide as Hd; (eexists; split; [done|]).
    + destruct Hd as (_ & Hd1 & Hd2). simpl. rewrite <-Hd1, <-Hd2.
      split_and!; [done|naive_solver|lia|lia|done].
    + naive_solver.
    + destruct Hd as (Hd1 & _). simpl.
      destruct (decide ((b_seq b, b_late_mark b) = (sq, mk))); [done|]. exfalso. apply Hm. naive_solver.
    + done.
Qed.

Lemma chain_app p l1 p1 l2 p2 : chain p l1 p1 → chain p1 l2 p2 → chain p (l1 ++ l2) p2.
Proof.
  revert p. induction l1 as [|[a b] l1 IH]; simpl; intros p; [by intros ->|].
  intros (-> & Hne & Hle1 & Hle2 & Hc) Hc2. split_and!; auto.
Qed.

(** With commits that move forward, and nothing that removes, replaces or renames
    it, the advances that land on a cursor form one chain. [CursorSpec] has this for
    commits of reads, which move forward. *)
Lemma forward_chain q w ops p :
  world_ok w → run_spares q w ops → pos_of q w = Some p →
  ∃ p', pos_of q (foldl book_step w ops) = Some p' ∧ chain p (landed_run q w ops) p'.
Proof.
  revert w p. induction ops as [|op ops IH]; intros w p Hw Hsp Hp; [by exists p|].
  destruct Hsp as (Hn & Hs & Hr). destruct (spared_step q w op p Hw Hn Hs Hp) as (p1 & Hp1 & Hc1).
  destruct (IH (book_step w op) p1 (book_step_ok op w Hn Hw) Hr Hp1) as (p2 & Hp2 & Hc2).
  exists p2. split; [done|]. by eapply chain_app.
Qed.

(** ** What a sweep, a rename and a clear do *)

(** The window a bookmark opens, [b>=name], as the exports grade it. *)
Definition window_of (b : Bookmark) : ParsedFilter := Qualifiers [SeqFilter SGt (b_seq b)].

Lemma should_evict_window b log span :
  should_evict (b_seq b) log span = true ↔
    is_Some (evicted_before_window (window_of b) log) ∧
    is_Some (evicted_before_window (window_of b) span).
Proof.
  unfold should_evict, evicted_before_window, window_of. simpl.
  rewrite andb_true_iff, !bool_decide_eq_true. done.
Qed.

Lemma remember_size victim r n :
  (∀ r, r ≠ ∅ → ∃ v, victim r = Some v ∧ v ∈ r) →
  (size r ≤ MAX_RECENTLY_EVICTED)%nat →
  (size (remember_evicted victim r n) ≤ MAX_RECENTLY_EVICTED)%nat.
Proof.
  intros Hv Hr. unfold remember_evicted.
  assert (Hadd : ∀ r' : gset string, (size ({[n]} ∪ r') ≤ S (size r'))%nat).
  { intros r'. rewrite size_union_alt, size_singleton.
    assert (size (r' ∖ {[n]}) ≤ size r')%nat by (apply subseteq_size; set_solver). lia. }
  destruct (MAX_RECENTLY_EVICTED <=? size r)%nat eqn:E; bool_to_prop.
  - destruct (Hv r) as (v & -> & Hin).
    { intros ->. rewrite size_empty in E. unfold MAX_RECENTLY_EVICTED in E. lia. }
    specialize (Hadd (r ∖ {[v]})).
    assert (Hsub : ({[v]} : gset string) ⊆ r) by set_solver.
    pose proof (size_difference r {[v]} Hsub) as Hd. rewrite size_singleton in Hd.
    apply subseteq_size in Hsub. rewrite size_singleton in Hsub. lia.
  - specialize (Hadd r). lia.
Qed.

Lemma remember_all_size victim l r :
  (∀ r, r ≠ ∅ → ∃ v, victim r = Some v ∧ v ∈ r) →
  (size r ≤ MAX_RECENTLY_EVICTED)%nat →
  (size (foldl (remember_evicted victim) r l) ≤ MAX_RECENTLY_EVICTED)%nat.
Proof.
  intros Hv. revert r. induction l as [|x l IH]; intros r Hr; cbn [foldl]; [done|].
  apply IH. by apply remember_size.
Qed.

(** The sweep removes a bookmark exactly when both stores report records
    evicted from its [b>=name] window, by the very test an export's [truncated]
    is graded with: a bookmark whose window either store still holds in full is
    never swept, and every other bookmark is left as it was. The record of
    evicted names stays within its bound. *)
Theorem sweep_exact victim log span s q :
  (∀ r, r ≠ ∅ → ∃ v, victim r = Some v ∧ v ∈ r) →
  (size (recently_evicted s) ≤ MAX_RECENTLY_EVICTED)%nat →
  let s' := sweep victim log span s in
  (∀ b, get q s = Some b →
     (get q s' = None ↔ is_Some (evicted_before_window (window_of b) log) ∧
                        is_Some (evicted_before_window (window_of b) span)) ∧
     (get q s' = None ∨ get q s' = Some b)) ∧
  (get q s = None → get q s' = None) ∧
  (size (recently_evicted s') ≤ MAX_RECENTLY_EVICTED)%nat.
Proof.
  intros Hv Hsz s'. split_and!.
  - intros b Hb. rewrite <-should_evict_window. unfold get, s' in *. simpl.
    destruct (should_evict (b_seq b) log span) eqn:E.
    + assert (filter (λ kb, should_evict (b_seq kb.2) log span = false) (bookmarks s) !! q = None) as ->.
      { apply map_lookup_filter_None. right. intros b' Hb'. simplify_eq. simpl. by rewrite E. }
      split; [done|by left].
    + assert (filter (λ kb, should_evict (b_seq kb.2) log span = false) (bookmarks s) !! q = Some b) as ->.
      { by apply map_lookup_filter_Some. }
      split; [done|by right].
  - unfold get, s'. simpl. intros Hq. apply map_lookup_filter_None. by left.
  - unfold s', sweep. cbn [recently_evicted]. by apply remember_all_size.
Qed.

(** A rename moves every bookmark of the session, under its bare name, with
    its position, late mark, floor and description, so a cursor resumes where
    it stood; nothing is left under the old name, a bookmark the new name held
    under the same bare name gives way, and no other session's bookmark
    changes. *)
Theorem rename_moves old new_name s :
  store_keyed s → no_slash old → no_slash new_name → old ≠ new_name →
  let '(n, s') := rename_session old new_name s in
  store_keyed s' ∧
  n = size (filter (λ kb, b_session kb.2 = old) (bookmarks s)) ∧
  (∀ name, get (qualified new_name name) s' =
     match get (qualified old name) s with
     | Some b => Some (moved new_name b)
     | None => get (qualified new_name name) s
     end) ∧
  (∀ name, get (qualified old name) s' = None) ∧
  (∀ other name, no_slash other → other ≠ old → other ≠ new_name →
     get (qualified other name) s' = get (qualified other name) s).
Proof.
  intros Hs Ho Hn Hne. pose proof (rename_keyed old new_name s Ho Hn Hs) as Hk.
  unfold rename_session in *. apply String.eqb_neq in Hne as Hne'. rewrite Hne' in *. simpl in Hk.
  destruct (session_keys old s Hs) as (Hnd & Hks & Hlen). set (ks := (_).*1) in *.
  assert (Hin : ∀ name, qualified old name ∈ ks ↔ is_Some (get (qualified old name) s)).
  { intros name. rewrite Hks. unfold get. split; [intros (b & -> & _); eauto|].
    intros [b Hb]. exists b. split; [done|]. destruct (Hs _ _ Hb) as (_ & Hq & ?).
    by apply qualified_inj in Hq as [-> _]. }
  destruct (rename_fold old new_name ks (bookmarks s)) as [H1 H2]; try done.
  { intros k (b & Hb & Hse)%Hks. exists b. split; [done|].
    destruct (Hs k b Hb) as (_ & -> & _). by rewrite Hse. }
  split_and!; [done|done| | |]; unfold get in *; simpl in *.
  - intros name. rewrite H1. case_decide as Hd; rewrite Hin in Hd.
    + destruct Hd as [b ->]. done.
    + apply eq_None_not_Some in Hd. by rewrite Hd.
  - intros name. rewrite H2 by (by intros m [? _]%qualified_inj).
    case_decide as Hd; [done|]. rewrite Hin in Hd. by apply eq_None_not_Some.
  - intros other name Hot Hoo Hon. rewrite H2 by (by intros m [? _]%qualified_inj).
    rewrite decide_False; [done|]. intros (b & Hb & Hse)%Hks.
    destruct (Hs _ _ Hb) as (_ & Hq & ?). apply qualified_inj in Hq as [? _]; [|done|done]. congruence.
Qed.

(** Clearing a session removes its bookmarks and no others, reports how
    many, and forgets its evicted cursors, so a later session of the same name
    starts clean. *)
Theorem clear_session_exact session s :
  store_keyed s → no_slash session →
  let '(n, s') := clear_session session s in
  (∀ name, get (qualified session name) s' = None ∧
           qualified session name ∉ recently_evicted s') ∧
  (∀ other name, no_slash other → other ≠ session →
     get (qualified other name) s' = get (qualified other name) s ∧
     (qualified other name ∈ recently_evicted s' ↔ qualified other name ∈ recently_evicted s)) ∧
  (n + size (bookmarks s') = size (bookmarks s))%nat.
Proof.
  intros Hs Hse. unfold clear_session, get. simpl.
  assert (Hpre : ∀ se name, no_slash se → starts_with (qualified session "") (qualified se name) = true ↔ se = session).
  { intros se name Hns. rewrite starts_with_spec. unfold qualified. split.
    - intros [r Hr]. rewrite <-String_app_assoc in Hr. simpl in Hr.
      by apply (qualified_inj se name session r) in Hr as [? _].
    - intros ->. exists name. by rewrite <-String_app_assoc. }
  split_and!.
  - intros name. split.
    + apply map_lookup_filter_None. destruct (bookmarks s !! _) as [b|] eqn:Eb; [right|by left].
      intros b' [= <-] Hb. destruct (Hs _ _ Eb) as (_ & Hq & ?).
      apply Hb. simpl. by apply qualified_inj in Hq as [? _].
    + intros [Hf _]%elem_of_filter. by rewrite (proj2 (Hpre session name Hse) eq_refl) in Hf.
  - intros other name Hot Hne. split.
    + destruct (bookmarks s !! qualified other name) as [b|] eqn:Eb.
      * apply map_lookup_filter_Some. split; [done|]. simpl. destruct (Hs _ _ Eb) as (_ & Hq & ?).
        apply qualified_inj in Hq as [<- _]; done.
      * apply map_lookup_filter_None. by left.
    + rewrite elem_of_filter. split; [tauto|]. intros Hin. split; [|done].
      apply not_true_iff_false. by rewrite Hpre.
  - set (m := filter _ _). assert (size m ≤ size (bookmarks s))%nat; [|lia].
    apply map_subseteq_size, map_filter_subseteq.
Qed.

(** ** The properties at concrete inputs *)

(** A cursor at 3, read twice before either read commits, in a session [A]. *)
Definition sample_world : BookWorld :=
  foldl book_step (mkWorld new []) [BOpen 0 "A" "c" 0; BCommit 0 0 3 0; BAdd 0 "B" "c" 9 0 None false].
Definition sample_ops : list BookOp :=
  [BOpen 1 "A" "c" 0; BOpen 1 "A" "c" 0; BCommit 1 2 7 1; BCommit 1 1 5 0; BOpen 2 "A" "c" 0;
   BSweep (λ _, None) 2 2; BClear "B"; BCommit 2 3 9 1].

Example sample_lands :
  landed_run "A/c" sample_world sample_ops = [((3, 0), (7, 1)); ((7, 1), (9, 1))].
Proof. by vm_compute. Qed.

Lemma sample_world_ok : world_ok sample_world.
Proof.
  unfold sample_world. cbn [foldl].
  repeat (apply book_step_ok; [done|]). split; [apply map_Forall_empty|done].
Qed.

(** Any element of a set, as [HashSet::iter().next()] yields one. *)
Definition sample_victim (r : gset string) : option string := head (elements r).

Lemma sample_victim_ok r : r ≠ ∅ → ∃ v, sample_victim r = Some v ∧ v ∈ r.
Proof.
  intros Hr. unfold sample_victim. destruct (elements r) as [|v l] eqn:E.
  - apply elements_empty_iff in E. by apply leibniz_equiv in E.
  - exists v. split; [done|]. apply elem_of_elements. rewrite E. by left.
Qed.

Lemma sweep_exact_witness :
  get "A/c" (w_store sample_world) ≠ None ∧
  get "A/c" (sweep sample_victim 9 9 (w_store sample_world)) = None.
Proof.
  split; [by vm_compute|].
  destruct (get "A/c" (w_store sample_world)) as [b|] eqn:Eb; [|by vm_compute in Eb].
  assert (Hsz : (size (recently_evicted (w_store sample_world)) ≤ MAX_RECENTLY_EVICTED)%nat) by by_eval.
  destruct (sweep_exact sample_victim 9 9 (w_store sample_world) "A/c" sample_victim_ok Hsz) as [H _].
  apply (H b Eb). vm_compute in Eb. injection Eb as <-. split; by_eval.
Defined.

Lemma rename_moves_witness :
  b_seq <$> get "Z/c" (rename_session "A" "Z" (w_store sample_world)).2 = Some 3.
Proof.
  assert (Hne : "A"%string ≠ "Z"%string) by discriminate.
  pose proof (rename_moves "A" "Z" (w_store sample_world) (proj1 sample_world_ok)
    eq_refl eq_refl Hne) as H.
  destruct (rename_session _ _ _) as [n s']. destruct H as (_ & _ & H & _).
  specialize (H "c"%string). change (qualified "Z" "c") with "Z/c"%string in H. simpl. rewrite H.
  by vm_compute.
Defined.

Lemma clear_session_exact_witness :
  get "A/c" (clear_session "A" (w_store sample_world)).2 = None.
Proof.
  pose proof (clear_session_exact "A" (w_store sample_world) (proj1 sample_world_ok) eq_refl) as H.
  destruct (clear_session _ _) as [n s']. destruct H as (H & _). apply (H "c"%string).
Defined.
