(* ===== verification/Resolver.v ===== *)
(** * Resolver: bookmark and cursor qualifiers resolved to seq bounds
    ([filter/bookmark_resolver.rs]) *)

From S2P Require Import Prelude Text F64 Gelf Filter Matcher Bookmarks.

Set Default Proof Using "Type".
Local Open Scope N_scope.

Section resolver.
Context {X : Externals}.

Inductive BookmarkResolutionError :=
  | ResolutionNotFound (q : string)
  | CrossSessionCursorAdvance (q : string)
  | ResolutionPanic.

Record ResolvedFilter := mkResolved { rf_filter : ParsedFilter; rf_commit : option CursorCommit }.

(** [None] is the [expect] of a name without a slash. *)
Definition split_qualified (q : string) : option (string * string) := split_once slash q.

Definition resolve_op (op : BookmarkOp) : SeqOp := match op with BGte => SGt | BLte => SLt end.

(** The loop over the qualifiers. The store is threaded even past an error: a
    cursor created before the error stays. *)
Fixpoint resolve_loop (now : Z) (current_session : string) (late_counter : N)
  (qs out : list Qualifier) (cursor : option CursorCommit) (s : BookmarkStore)
  : (BookmarkResolutionError + ResolvedFilter) * BookmarkStore :=
  match qs with
  | [] => (inr (mkResolved (Qualifiers out) cursor), s)
  | BookmarkFilter op name :: qs =>
      let q := qualify name current_session in
      match get q s with
      | None => (inl (ResolutionNotFound q), s)
      | Some b =>
          resolve_loop now current_session late_counter qs
            (out ++ [SeqFilter (resolve_op op) (b_seq b)]) cursor s
      end
  | CursorFilter name :: qs =>
      let q := qualify name current_session in
      match split_qualified q with
      | None => (inl ResolutionPanic, s)
      | Some (target_session, target_name) =>
          if negb (String.eqb target_session current_session) then
            (inl (CrossSessionCursorAdvance q), s)
          else
            let '((lower, c), _, s) :=
              cursor_read_and_advance_at now target_session target_name late_counter s in
            resolve_loop now current_session late_counter qs (out ++ [CursorSeq lower]) (Some c) s
      end
  | other :: qs => resolve_loop now current_session late_counter qs (out ++ [other]) cursor s
  end.

Definition resolve_bookmarks_at (now : Z) (f : ParsedFilter) (current_session : string)
  (late_counter : N) (s : BookmarkStore)
  : (BookmarkResolutionError + ResolvedFilter) * BookmarkStore :=
  match f with
  | FAll | FNone => (inr (mkResolved f None), s)
  | Qualifiers qs => resolve_loop now current_session late_counter qs [] None s
  end.

Definition resolve_bookmarks (now : Z) (f : ParsedFilter) (current_session : string)
  (s : BookmarkStore) : (BookmarkResolutionError + ResolvedFilter) * BookmarkStore :=
  resolve_bookmarks_at now f current_session 0 s.
End resolver.
