(* ===== verification/ResolverSpec.v ===== *)
(** * ResolverSpec: what a resolved filter means

    The resolved filter selects exactly the records the bookmark and cursor
    qualifiers name by position, and resolving touches nothing but the asking
    session's own missing cursors. *)

From S2P Require Import Prelude Text F64 Gelf Filter Matcher Samples Bookmarks BookmarksSpec Resolver.

Set Default Proof Using "Type".
Local Open Scope N_scope.

Section resolverspec.
Context {X : Externals}.

(** ** The meaning of a qualifier, over the bookmarks' positions *)

Definition position_of (s : BookmarkStore) (session name : string) : option N :=
  b_seq <$> get (qualify name session) s.

Definition means (s : BookmarkStore) (session : string) (q : Qualifier) (e : LogEntry) : bool :=
  match q with
  | BookmarkFilter BGte name => match position_of s session name with Some p => p <? seq e | None => false end
  | BookmarkFilter BLte name => match position_of s session name with Some p => seq e <? p | None => false end
  | CursorFilter name => match position_of s session name with Some p => p <? seq e | None => false end
  | q => matches_qualifier q e
  end.

Definition means_filter (s : BookmarkStore) (session : string) (f : ParsedFilter) (e : LogEntry) : bool :=
  match f with
  | FAll => true
  | FNone => false
  | Qualifiers qs => forallb (λ q, means s session q e) qs
  end.

Definition is_bookmark_qualifier (q : Qualifier) : bool :=
  match q with BookmarkFilter _ _ | CursorFilter _ => true | _ => false end.

(** Nothing held changes; what appears is the session's own cursor, at 0. *)
Definition grown (session : string) (late : N) (s s' : BookmarkStore) : Prop :=
  (∀ q b, get q s = Some b → get q s' = Some b) ∧
  (∀ q b, get q s = None → get q s' = Some b →
     ∃ n, q = qualified session n ∧ b_seq b = 0 ∧ b_late_mark b = late ∧ b_floor b = 0).

Lemma grown_refl session late s : grown session late s s.
Proof. split; [done|]. intros q b ? ?. congruence. Qed.

Lemma grown_trans session late s1 s2 s3 :
  grown session late s1 s2 → grown session late s2 s3 → grown session late s1 s3.
Proof.
  intros [H1 N1] [H2 N2]. split; [auto|]. intros q b Hq Hb.
  destruct (get q s2) as [b2|] eqn:E; [|by eapply N2]. pose proof (H2 q b2 E). simplify_eq.
  by eapply N1.
Qed.

Lemma cursor_read_grown now session name late s :
  let '((lower, c), _, s') := cursor_read_and_advance_at now session name late s in
  grown session late s s' ∧
  (∃ b, get (qualified session name) s' = Some b ∧ b_seq b = lower ∧
     c = mkCommit (qualified session name) session name lower (b_late_mark b) (b_floor b)).
Proof.
  unfold cursor_read_and_advance_at, get.
  destruct (bookmarks s !! qualified session name) as [b|] eqn:Eb.
  - split; [apply grown_refl|]. exists b. done.
  - unfold grown, get. simpl. split; [split|].
    + intros q b Hq. rewrite lookup_insert_ne; [done|]. congruence.
    + intros q b Hq. destruct (decide (qualified session name = q)) as [<-|Hne].
      * rewrite lookup_insert_eq. intros [= <-]. exists name. done.
      * rewrite lookup_insert_ne by done. congruence.
    + eexists. by rewrite lookup_insert_eq.
Qed.

(** ** Qualifying always leaves a slash to split at *)

Lemma contains_slash_split s : str_contains (String slash "") s = true → is_Some (split_once slash s).
Proof.
  induction s as [|a s IH]; [done|]. cbn [str_contains split_once]. rewrite orb_true_iff.
  destruct (Ascii.eqb_spec a slash) as [|Hne]; [eauto|]. intros [Hs|Hc].
  - apply starts_with_spec in Hs as [r Hr]. by injection Hr as -> _.
  - destruct (IH Hc) as [[l r] ->]. eauto.
Qed.

Lemma split_qualify name session : is_Some (split_qualified (qualify name session)).
Proof.
  unfold split_qualified, qualify. destruct (str_contains _ name) eqn:E; [by apply contains_slash_split|].
  unfold qualified. clear E. induction session as [|a s [[l r] IH]]; simpl; [eauto|].
  destruct (Ascii.eqb a slash); [eauto|]. by rewrite IH.
Qed.

(** ** The loop *)

(** What the output owes the qualifiers already walked. *)
Definition out_means (s : BookmarkStore) (session : string) (qs out : list Qualifier) : Prop :=
  ∀ e, forallb (λ q, matches_qualifier q e) out = forallb (λ q, means s session q e) qs.

Lemma resolve_loop_grown now session late qs out cursor s :
  let '(res, s') := resolve_loop now session late qs out cursor s in
  grown session late s s' ∧ res ≠ inl ResolutionPanic.
Proof.
  revert out cursor s. induction qs as [|q qs IH]; intros out cursor s; simpl.
  { split; [apply grown_refl|done]. }
  destruct q as [| | | |op name|name| |]; try apply IH.
  - destruct (get _ s); [apply IH|]. split; [apply grown_refl|done].
  - destruct (split_qualify name session) as [[ts tn] ->].
    destruct (negb (String.eqb ts session)) eqn:E; [split; [apply grown_refl|done]|].
    apply negb_false_iff, String.eqb_eq in E as ->.
    pose proof (cursor_read_grown now session tn late s) as Hc.
    destruct (cursor_read_and_advance_at _ _ _ _ _) as [[[lower c] w] s1]. destruct Hc as [Hg _].
    specialize (IH (out ++ [CursorSeq lower]) (Some c) s1).
    destruct (resolve_loop _ _ _ _ _ _ _) as [res s']. destruct IH as [Hg2 Hp].
    split; [by eapply grown_trans|done].
Qed.

Lemma means_grown session late s s' q e :
  grown session late s s' → is_Some (position_of s session match q with
    | BookmarkFilter _ n | CursorFilter n => n | _ => ""%string end) ∨ is_bookmark_qualifier q = false →
  means s session q e = means s' session q e.
Proof.
  intros [Hg _] Hq. assert (Hpos : ∀ n, is_Some (position_of s session n) →
    position_of s session n = position_of s' session n).
  { intros n [p Hp]. unfold position_of in *. apply fmap_Some in Hp as (b & Hb & ->).
    by rewrite Hb, (Hg _ b Hb). }
  destruct q as [| | | |[] n|n| |]; simpl in *; try done; destruct Hq as [Hq|?]; try done; by rewrite Hpos.
Qed.

(** [c] is the handle of the read of cursor [name], at its present position. *)
Definition handle_of (s : BookmarkStore) (session name : string) (c : CursorCommit) : Prop :=
  cc_qualified_name c = qualify name session ∧ cc_session c = session ∧
  ∃ b, get (qualify name session) s = Some b ∧
    cc_lower_bound c = b_seq b ∧ cc_late_mark c = b_late_mark b ∧ cc_floor c = b_floor b.

Definition commit_spec (s : BookmarkStore) (session : string) (qs : list Qualifier)
  (cursor res : option CursorCommit) : Prop :=
  (existsb is_cursor_qualifier qs = false → res = cursor) ∧
  (existsb is_cursor_qualifier qs = true →
     ∃ c name, res = Some c ∧ CursorFilter name ∈ qs ∧ handle_of s session name c).

Lemma handle_grown session late s s' name c :
  grown session late s s' → handle_of s session name c → handle_of s' session name c.
Proof. intros [Hg _] (Hq & Hs & b & Hb & ?). split_and!; [done|done|]. exists b. auto. Qed.

Lemma commit_spec_skip s session q qs cursor res :
  is_cursor_qualifier q = false → commit_spec s session qs cursor res →
  commit_spec s session (q :: qs) cursor res.
Proof.
  intros Hq [H1 H2]. unfold commit_spec. simpl. rewrite Hq. split; [done|].
  intros Hc. destruct (H2 Hc) as (c & name & ? & ? & ?). exists c, name. split_and!; [done|by right|done].
Qed.

Lemma commit_spec_cursor s session name c qs res :
  handle_of s session name c → commit_spec s session qs (Some c) res →
  commit_spec s session (CursorFilter name :: qs) None res.
Proof.
  intros Hh [H1 H2]. unfold commit_spec. simpl. split; [done|]. intros _.
  destruct (existsb is_cursor_qualifier qs) eqn:E.
  - destruct (H2 eq_refl) as (c' & name' & ? & ? & ?). exists c', name'. split_and!; [done|by right|done].
  - exists c, name. split_and!; [by apply H1|by left|done].
Qed.

Lemma commit_spec_any s session name qs cursor res :
  commit_spec s session (CursorFilter name :: qs) None res →
  commit_spec s session (CursorFilter name :: qs) cursor res.
Proof. intros [H1 H2]. by split. Qed.

Lemma split_qualify_join name session ts tn :
  split_qualified (qualify name session) = Some (ts, tn) → qualified ts tn = qualify name session.
Proof. intros H. by apply split_once_Some in H. Qed.

Lemma resolve_loop_means now session late qs out cursor s r s' :
  resolve_loop now session late qs out cursor s = (inr r, s') →
  ∃ outq, rf_filter r = Qualifiers (out ++ outq) ∧
    existsb is_bookmark_qualifier outq = false ∧ out_means s' session qs outq ∧
    commit_spec s' session qs cursor (rf_commit r).
Proof.
  revert out cursor s. induction qs as [|q qs IH]; intros out cursor s; simpl.
  { intros [= <- <-]. exists []. rewrite app_nil_r. split_and!; [done|done|done|]. by split. }
  pose proof (resolve_loop_grown now session late qs) as Hgrown.
  assert (Hstep : ∀ q' cursor' s1,
    is_bookmark_qualifier q' = false →
    resolve_loop now session late qs (out ++ [q']) cursor' s1 = (inr r, s') →
    (grown session late s1 s' → ∀ e, matches_qualifier q' e = means s' session q e) →
    (grown session late s1 s' → commit_spec s' session qs cursor' (rf_commit r) →
       commit_spec s' session (q :: qs) cursor (rf_commit r)) →
    ∃ outq, rf_filter r = Qualifiers (out ++ outq) ∧
      existsb is_bookmark_qualifier outq = false ∧ out_means s' session (q :: qs) outq ∧
      commit_spec s' session (q :: qs) cursor (rf_commit r)).
  { intros q' cursor' s1 Hq' Hl Hm Hc. destruct (IH _ _ _ Hl) as (outq & -> & Hb & Ho & Hcs).
    specialize (Hgrown (out ++ [q']) cursor' s1). rewrite Hl in Hgrown. destruct Hgrown as [Hg _].
    exists (q' :: outq). split_and!; [by rewrite <-app_assoc|simpl; by rewrite Hq'| |auto].
    intros e. simpl. rewrite Hm by done. by rewrite Ho. }
  assert (Hplain : is_bookmark_qualifier q = false →
    resolve_loop now session late qs (out ++ [q]) cursor s = (inr r, s') →
    ∃ outq, rf_filter r = Qualifiers (out ++ outq) ∧
      existsb is_bookmark_qualifier outq = false ∧ out_means s' session (q :: qs) outq ∧
      commit_spec s' session (q :: qs) cursor (rf_commit r)).
  { intros Hq Hl. eapply Hstep; [done|done|by destruct q|].
    intros _. apply commit_spec_skip. by destruct q. }
  destruct q as [| | | |op name|name| |]; try by apply Hplain.
  - destruct (get (qualify name session) s) as [b|] eqn:Eb; [|done]. intros Hl.
    eapply Hstep; [|exact Hl| |intros _; by apply commit_spec_skip]; [done|].
    intros [Hg _] e. simpl. unfold position_of. rewrite (Hg _ b Eb). by destruct op.
  - destruct (split_qualified _) as [[ts tn]|] eqn:Es; [|done]. apply split_qualify_join in Es.
    destruct (negb (String.eqb ts session)) eqn:E; [done|].
    apply negb_false_iff, String.eqb_eq in E as ->.
    pose proof (cursor_read_grown now session tn late s) as Hc.
    destruct (cursor_read_and_advance_at _ _ _ _ _) as [[[lower c] w] s1].
    destruct Hc as (_ & b & Hb & <- & ->). rewrite Es in *. intros Hl.
    eapply Hstep; [|exact Hl| |]; [done| |].
    + intros [Hg _] e. simpl. unfold position_of. by rewrite (Hg _ b Hb).
    + intros Hg Hcs. eapply commit_spec_any, commit_spec_cursor; [|done].
      apply (handle_grown session late s1 s'); [done|]. split_and!; [done|done|]. by exists b.
Qed.

(** C8: a resolved filter selects exactly what the written one means: a record
    is kept if and only if it passes every ordinary qualifier, lies strictly
    after each [b>=] and [c>=] bookmark's position and strictly before each
    [b<=] one. No bookmark or cursor qualifier is left (one left would match
    nothing), and a cursor filter comes with the handle of the cursor it
    names, at the position the filter was resolved to. *)
Theorem resolve_meaning now f session late s r s' :
  resolve_bookmarks_at now f session late s = (inr r, s') →
  contains_bookmark_qualifier (rf_filter r) = false ∧
  (∀ e, matches_entry (rf_filter r) e = means_filter s' session f e) ∧
  match f with
  | Qualifiers qs => commit_spec s' session qs None (rf_commit r)
  | _ => rf_commit r = None
  end.
Proof.
  destruct f as [| |qs]; simpl; [by intros [= <- <-]..|].
  intros (outq & -> & Hb & Ho & Hc)%resolve_loop_means. simpl. by split_and!.
Qed.

(** Whatever a filter names, and whether or not it resolves: nothing a
    bookmark store holds changes, the only thing that can appear is a missing
    cursor of the asking session itself, at position 0 (another session's
    cursor is never touched), and the split of a qualified name never fails. *)
Theorem resolve_confined now f session late s :
  let '(res, s') := resolve_bookmarks_at now f session late s in
  res ≠ inl ResolutionPanic ∧ grown session late s s'.
Proof.
  destruct f as [| |qs]; simpl; [split; [done|apply grown_refl]..|].
  pose proof (resolve_loop_grown now session late qs [] None s) as H.
  destruct (resolve_loop _ _ _ _ _ _ _). tauto.
Qed.
End resolverspec.

(** ** The properties at concrete inputs *)

Definition sample_bookmarks : BookmarkStore := (add 0 "S" "mark" 5 None false new).2.
Definition sample_filter : ParsedFilter :=
  Qualifiers [BookmarkFilter BGte "mark"; CursorFilter "S/cur"; LevelFilter LGte Warn].

Example sample_resolves :
  (rf_filter <$> (match (resolve_bookmarks_at 0 sample_filter "S" 3 sample_bookmarks).1 with
                  | inr r => Some r | inl _ => None end)) =
  Some (Qualifiers [SeqFilter SGt 5; CursorSeq 0; LevelFilter LGte Warn]).
Proof. by vm_compute. Qed.

Lemma resolve_meaning_witness :
  ∃ r s', resolve_bookmarks_at 0 sample_filter "S" 3 sample_bookmarks = (inr r, s') ∧
    contains_bookmark_qualifier (rf_filter r) = false ∧
    (∀ e, matches_entry (rf_filter r) e = means_filter s' "S" sample_filter e).
Proof.
  destruct (resolve_bookmarks_at 0 sample_filter "S" 3 sample_bookmarks) as [[err|r] s'] eqn:E.
  - exfalso. assert (match (resolve_bookmarks_at 0 sample_filter "S" 3 sample_bookmarks).1 with
      inr _ => true | inl _ => false end = true) as H by by vm_compute. by rewrite E in H.
  - exists r, s'. destruct (resolve_meaning _ _ _ _ _ _ _ E) as (H1 & H2 & _). done.
Defined.
