(* ===== verification/MemStore.v ===== *)
(** * MemStore: the log ring ([store/memory.rs], [store/traits.rs])

    [InMemoryStore] holds the last records in ascending seq order, with an index
    by trace and a numbering of the records stored late. Every method runs under
    one [RwLock], so a method is one function on the state; the counters and
    floors ([AtomicU64]) are only written under the write guard. *)

From S2P Require Import Prelude Text F64 Gelf Filter Matcher.

Set Default Proof Using "Type".
Local Open Scope N_scope.

Section memstore.
Context {X : Externals}.

(** ** State *)

Record StoreInner := mkInner {
  entries : list LogEntry;
  trace_index : gmap N (list N);
  late : gmap N N;
  late_by_seq : gmap N N;
  late_counter : N;
}.

Record InMemoryStore := mkStore {
  inner : StoreInner;
  max_capacity : nat;
  total_stored : N;
  total_received : N;
  malformed_count : N;
  lost_below : N;
  admit_from : N;
}.

Definition set_inner (i : StoreInner) (s : InMemoryStore) : InMemoryStore :=
  mkStore i (max_capacity s) (total_stored s) (total_received s) (malformed_count s)
    (lost_below s) (admit_from s).
Definition set_entries (es : list LogEntry) (i : StoreInner) : StoreInner :=
  mkInner es (trace_index i) (late i) (late_by_seq i) (late_counter i).
Definition set_trace_index (t : gmap N (list N)) (i : StoreInner) : StoreInner :=
  mkInner (entries i) t (late i) (late_by_seq i) (late_counter i).
Definition set_late (l lb : gmap N N) (c : N) (i : StoreInner) : StoreInner :=
  mkInner (entries i) (trace_index i) l lb c.

(** [lost_below.fetch_max(floor)] and the counters' [fetch_add]. *)
Definition raise_floor (n : N) (s : InMemoryStore) : InMemoryStore :=
  mkStore (inner s) (max_capacity s) (total_stored s) (total_received s)
    (malformed_count s) (N.max (lost_below s) n) (admit_from s).
Definition raise_admit (n : N) (s : InMemoryStore) : InMemoryStore :=
  mkStore (inner s) (max_capacity s) (total_stored s) (total_received s)
    (malformed_count s) (lost_below s) (N.max (admit_from s) n).
Definition add_received (n : N) (s : InMemoryStore) : InMemoryStore :=
  mkStore (inner s) (max_capacity s) (total_stored s) (u64_add (total_received s) n)
    (malformed_count s) (lost_below s) (admit_from s).
Definition add_stored (n : N) (s : InMemoryStore) : InMemoryStore :=
  mkStore (inner s) (max_capacity s) (u64_add (total_stored s) n) (total_received s)
    (malformed_count s) (lost_below s) (admit_from s).
Definition increment_malformed (s : InMemoryStore) : InMemoryStore :=
  mkStore (inner s) (max_capacity s) (total_stored s) (total_received s)
    (u64_add (malformed_count s) 1) (lost_below s) (admit_from s).

(** ** [StoreInner] *)

Definition position (i : StoreInner) (q : N) : option nat :=
  binary_search_by_key seq q (entries i).

Definition holds (i : StoreInner) (q : N) : bool :=
  match last (entries i) with
  | None => false
  | Some newest =>
      if seq newest <? q then false
      else if q =? seq newest then true
      else bool_decide (is_Some (position i q))
  end.

Definition forget_late (q : N) (i : StoreInner) : StoreInner :=
  match late_by_seq i !! q with
  | Some n => set_late (delete n (late i)) (delete q (late_by_seq i)) (late_counter i) i
  | None => i
  end.

Definition unindex (tid : option N) (q : N) (i : StoreInner) : StoreInner :=
  let i := forget_late q i in
  match tid with
  | None => i
  | Some t =>
      match trace_index i !! t with
      | None => i
      | Some seqs =>
          let seqs := match binary_search_by_key id q seqs with
                      | Some k => delete k seqs
                      | None => seqs
                      end in
          match seqs with
          | [] => set_trace_index (delete t (trace_index i)) i
          | _ => set_trace_index (<[t := seqs]> (trace_index i)) i
          end
      end
  end.

Definition merge_ascending (l add : list N) : list N :=
  match head add, last l with
  | Some first, Some newest =>
      if newest <? first then l ++ add else merge_by_key id l add
  | _, _ => l ++ add
  end.

(** [entry(t).or_default().push(q)]. *)
Definition push_trace (t : N) (q : N) (m : gmap N (list N)) : gmap N (list N) :=
  <[t := default [] (m !! t) ++ [q]]> m.

Definition index_entry (m : gmap N (list N)) (e : LogEntry) : gmap N (list N) :=
  match trace_id e with Some t => push_trace t (seq e) m | None => m end.

(** ** Constructors *)

Definition new (capacity : nat) : InMemoryStore :=
  mkStore (mkInner [] ∅ ∅ ∅ 0) capacity 0 0 0 0 0.

Fixpoint windows_ascending (es : list LogEntry) : bool :=
  match es with
  | a :: ((b :: _) as es') => (seq a <? seq b) && windows_ascending es'
  | _ => true
  end.

(** [None] is the assertion's panic. *)
Definition from_records (capacity : nat) (records : list LogEntry) (floor : N)
  : option InMemoryStore :=
  if windows_ascending records then
    Some (mkStore (mkInner records (foldl index_entry ∅ records) ∅ ∅ 0)
            (Nat.max capacity (length records)) 0 0 0 floor 0)
  else None.

(** ** Reads *)

Definition range_with_floor (from to : N) (s : InMemoryStore) : list LogEntry * N :=
  let es := entries (inner s) in
  let start := partition_point (λ e, seq e <? from) es in
  let stop := partition_point (λ e, seq e <=? to) es in
  (take (Nat.max stop start - start) (drop start es), lost_below s).

Definition refuse_below (s : InMemoryStore) : N := N.max (lost_below s) (admit_from s).

Definition opt_matches (f : option ParsedFilter) (e : LogEntry) : bool :=
  match f with Some f => matches_entry f e | None => true end.

Record RingView := mkView {
  v_scanned : nat;
  v_len : nat;
  v_oldest_seq : option N;
  v_newest_seq : option N;
  v_lost_below : N;
}.

Definition ring_view (scanned : nat) (s : InMemoryStore) : RingView :=
  mkView scanned (length (entries (inner s)))
    (seq <$> head (entries (inner s))) (seq <$> last (entries (inner s))) (lost_below s).

(** The loop of both directions: a match is pushed before the budget is tested. *)
Fixpoint recent_loop (count : nat) (f : option ParsedFilter) (es result : list LogEntry)
  (scanned : nat) : list LogEntry * nat :=
  match es with
  | [] => (result, scanned)
  | e :: es =>
      if opt_matches f e then
        let result := result ++ [e] in
        if (count <=? length result)%nat then (result, S scanned)
        else recent_loop count f es result (S scanned)
      else recent_loop count f es result (S scanned)
  end.

Definition recent_with_view (count : nat) (f : option ParsedFilter) (oldest_first : bool)
  (s : InMemoryStore) : list LogEntry * RingView :=
  let es := entries (inner s) in
  let '(result, scanned) :=
    recent_loop count f (if oldest_first then es else reverse es) [] 0 in
  (result, ring_view scanned s).

Definition recent_with_scanned (count : nat) (f : option ParsedFilter) (oldest_first : bool)
  (s : InMemoryStore) : list LogEntry * nat :=
  let '(es, view) := recent_with_view count f oldest_first s in (es, v_scanned view).

Definition recent (count : nat) (f : option ParsedFilter) (oldest_first : bool)
  (s : InMemoryStore) : list LogEntry :=
  (recent_with_scanned count f oldest_first s).1.

Definition context_by_seq (q : N) (before after : nat) (s : InMemoryStore) : list LogEntry :=
  match position (inner s) q with
  | None => []
  | Some idx =>
      let start := (idx - before)%nat in
      let stop := Nat.min (idx + after + 1) (length (entries (inner s))) in
      take (stop - start) (drop start (entries (inner s)))
  end.

(** [num_nanoseconds().map(abs).unwrap_or(i64::MAX)] of a time difference. *)
Definition abs_nanoseconds (d : Z) : Z :=
  if ((i64_min <=? d) && (d <=? i64_max))%Z then i64_cast (Z.abs d) else i64_max.

Definition context_by_time (ts : Z) (window_ns : Z) (s : InMemoryStore) : list LogEntry :=
  List.filter (λ e, (abs_nanoseconds (timestamp e - ts) <=? i64_cast window_ns)%Z)
    (entries (inner s)).

Definition contains_seq (q : N) (s : InMemoryStore) : bool := holds (inner s) q.

Definition entry_at (i : StoreInner) (q : N) : option LogEntry :=
  match position i q with Some k => entries i !! k | None => None end.

Definition logs_by_trace_id (t : N) (s : InMemoryStore) : list LogEntry :=
  match trace_index (inner s) !! t with
  | None => []
  | Some seqs => omap (entry_at (inner s)) seqs
  end.

Definition count_by_trace_id (t : N) (s : InMemoryStore) : nat :=
  match trace_index (inner s) !! t with None => 0%nat | Some seqs => length seqs end.

Definition store_len (s : InMemoryStore) : nat := length (entries (inner s)).
Definition oldest_timestamp (s : InMemoryStore) : option Z :=
  timestamp <$> head (entries (inner s)).
Definition oldest_seq (s : InMemoryStore) : option N := seq <$> head (entries (inner s)).
Definition newest_seq (s : InMemoryStore) : option N := seq <$> last (entries (inner s)).

Record StoreStats := mkStats { st_received : N; st_stored : N; st_malformed : N }.
Definition stats (s : InMemoryStore) : StoreStats :=
  mkStats (total_received s) (total_stored s) (malformed_count s).

Record ScanCounts := mkCounts {
  c_scanned : nat;
  c_matched : nat;
  c_oldest_seq : option N;
  c_newest_seq : option N;
  c_lost_below : N;
}.

(** The visitor is a step on a caller's state [S]. *)
Definition for_each_matching {S : Type} (f : option ParsedFilter) (visit : S → LogEntry → S)
  (s0 : S) (s : InMemoryStore) : ScanCounts * S :=
  let es := entries (inner s) in
  let '(scanned, matched, st) :=
    foldl (λ '(scanned, matched, st) e,
             if opt_matches f e then (Datatypes.S scanned, Datatypes.S matched, visit st e)
             else (Datatypes.S scanned, matched, st))
      (0%nat, 0%nat, s0) es in
  (mkCounts scanned matched (seq <$> head es) (seq <$> last es) (lost_below s), st).

(** ** Writers *)

Definition evict_front (s : InMemoryStore) : InMemoryStore :=
  match entries (inner s) with
  | [] => s
  | e :: es =>
      let s := raise_floor (sat_add (seq e) 1) (set_inner (set_entries es (inner s)) s) in
      set_inner (unindex (trace_id e) (seq e) (inner s)) s
  end.

(** [while excess > 0 && !entries.is_empty()]; also what is left of [excess]. *)
Fixpoint evict_loop (excess : nat) (s : InMemoryStore) : InMemoryStore * nat :=
  match excess, entries (inner s) with
  | O, _ => (s, O)
  | S _, [] => (s, excess)
  | S excess, _ :: _ => evict_loop excess (evict_front s)
  end.

(** The front of the merged run that found no room. *)
Fixpoint drop_loop (dropped : list LogEntry) (s : InMemoryStore) (through : option N)
  : InMemoryStore * option N :=
  match dropped with
  | [] => (s, through)
  | e :: dropped =>
      let s := raise_floor (sat_add (seq e) 1) s in
      drop_loop dropped (set_inner (unindex (trace_id e) (seq e) (inner s)) s) (Some (seq e))
  end.

Fixpoint number_late (late_seqs : list N) (through : option N) (i : StoreInner) : StoreInner :=
  match late_seqs with
  | [] => i
  | q :: late_seqs =>
      if match through with Some d => q <=? d | None => false end
      then number_late late_seqs through i
      else
        let n := u64_add (late_counter i) 1 in
        number_late late_seqs through
          (set_late (<[n := q]> (late i)) (<[q := n]> (late_by_seq i)) n i)
  end.

Fixpoint take_while (p : N → bool) (l : list N) : list N :=
  match l with
  | [] => []
  | x :: l => if p x then x :: take_while p l else []
  end.

(** The batch's seqs per trace, merged into the index one trace at a time. *)
Definition merge_trace (m : gmap N (list N)) (kv : N * list N) : gmap N (list N) :=
  <[kv.1 := merge_ascending (default [] (m !! kv.1)) kv.2]> m.

Definition index_batch (batch : list LogEntry) (m : gmap N (list N)) : gmap N (list N) :=
  foldl merge_trace m (map_to_list (foldl index_entry ∅ batch)).

(** The records of a batch that may be stored: sorted, one per seq, not held,
    and not below the floors. *)
Definition not_held (s : InMemoryStore) (batch : list LogEntry) : list LogEntry :=
  List.filter (λ e, negb (holds (inner s) (seq e))) (sort_dedup seq batch).
Definition admissible (s : InMemoryStore) (batch : list LogEntry) : list LogEntry :=
  List.filter (λ e, refuse_below s <=? seq e) (not_held s batch).

Definition late_seqs_of (i : StoreInner) (batch : list LogEntry) : list N :=
  match last (entries i) with
  | Some newest => take_while (λ q, q <? seq newest) (seq <$> batch)
  | None => []
  end.

Definition merge_locked (batch : list LogEntry) (s : InMemoryStore) : InMemoryStore * nat :=
  let s1 := add_received (N.of_nat (length (not_held s batch))) s in
  match admissible s batch with
  | [] => (s1, 0%nat)
  | (b0 :: _) as batch =>
      let i := inner s1 in
      let late_seqs := late_seqs_of i batch in
      let split := partition_point (λ e, seq e <? seq b0) (entries i) in
      let tail := drop split (entries i) in
      let s2 := set_inner (set_trace_index (index_batch batch (trace_index i))
                             (set_entries (take split (entries i)) i)) s1 in
      let merged := merge_by_key seq tail batch in
      let excess := (length (entries (inner s2)) + length merged - max_capacity s2)%nat in
      let '(s3, excess) := evict_loop excess s2 in
      let '(s4, through) := drop_loop (take excess merged) s3 None in
      let i4 := set_entries (entries (inner s4) ++ drop excess merged) (inner s4) in
      let s5 := set_inner (number_late late_seqs through i4) s4 in
      (add_stored (N.of_nat (length batch)) s5, length tail)
  end.

Definition insert_sorted (batch : list LogEntry) (s : InMemoryStore) : InMemoryStore * nat :=
  merge_locked batch s.

Definition push_newest (e : LogEntry) (s : InMemoryStore) : InMemoryStore :=
  let i := inner s in
  set_inner (set_entries (entries i ++ [e])
               (set_trace_index (index_entry (trace_index i) e) i)) s.

Definition append (e : LogEntry) (s : InMemoryStore) : InMemoryStore :=
  if match last (entries (inner s)) with
     | Some newest => seq e <=? seq newest
     | None => false
     end
  then (merge_locked [e] s).1
  else
    let s := add_received 1 s in
    if seq e <? refuse_below s then s
    else if (max_capacity s =? 0)%nat then
      add_stored 1 (raise_floor (sat_add (seq e) 1) s)
    else
      let s := if (max_capacity s <=? length (entries (inner s)))%nat
               then evict_front s else s in
      add_stored 1 (push_newest e s).

Definition clear_locked (s : InMemoryStore) : InMemoryStore :=
  let s := match last (entries (inner s)) with
           | Some newest => raise_floor (sat_add (seq newest) 1) s
           | None => s
           end in
  set_inner (mkInner [] ∅ ∅ ∅ (late_counter (inner s))) s.

Definition clear (s : InMemoryStore) : InMemoryStore := clear_locked s.

Definition clear_through (newest_assigned : N) (s : InMemoryStore) : InMemoryStore :=
  raise_admit (sat_add newest_assigned 1) (clear_locked s).
End memstore.
