(* ===== verification/MemStoreInv.v ===== *)
(** * MemStoreInv: the ring's invariant and the effect of each writer

    [store_wf] says what every reader of [MemStore] relies on; the lemmas give
    each writer's exact effect. Everything rests on one bookkeeping lemma:
    [wf_list vs i] says the indices of [i] describe the records [vs], which
    inside the merge is the ring together with the run not yet pushed back. *)

From S2P Require Import Prelude Text F64 Gelf Filter Matcher MemStore.

Set Default Proof Using "Type".
Local Open Scope N_scope.

Section inv.
Context {X : Externals}.
Implicit Types (s : InMemoryStore) (i : StoreInner) (e : LogEntry) (q n t : N).

Local Abbreviation seqs es := (fmap (M:=list) seq es).

(** ** Definitions *)

Definition list_opt (l : list N) : option (list N) :=
  match l with [] => None | _ => Some l end.

(** The seqs of one trace, in ring order. *)
Definition trace_list (t : N) (es : list LogEntry) : list N :=
  seqs (filter (λ e, trace_id e = Some t) es).

Record wf_list (vs : list LogEntry) (i : StoreInner) : Prop := {
  wl_asc : ascending seq vs;
  wl_trace t : trace_index i !! t = list_opt (trace_list t vs);
  wl_late n q : late i !! n = Some q ↔ late_by_seq i !! q = Some n;
  wl_late_in q n : late_by_seq i !! q = Some n → q ∈ seqs vs ∧ 1 ≤ n ≤ late_counter i;
}.

Record store_wf (s : InMemoryStore) : Prop := {
  wf_inner : wf_list (entries (inner s)) (inner s);
  wf_cap : (length (entries (inner s)) ≤ max_capacity s)%nat;
  wf_floor e : e ∈ entries (inner s) → refuse_below s ≤ seq e;
  wf_seq e : e ∈ entries (inner s) → seq e < u64_max;
}.

(** The floor after [es] left the ring, in that order. *)
Definition floor_after (es : list LogEntry) (f : N) : N :=
  foldl (λ f e, N.max f (sat_add (seq e) 1)) f es.

(** The last [n] elements. *)
Definition last_n (n : nat) (es : list LogEntry) : list LogEntry :=
  drop (length es - n) es.

Definition late_num (q : N) (s : InMemoryStore) : option N := late_by_seq (inner s) !! q.

(** ** Lists of seqs *)

Lemma elem_of_seqs q es : q ∈ seqs es ↔ ∃ e, e ∈ es ∧ seq e = q.
Proof. rewrite list_elem_of_fmap. naive_solver. Qed.

Lemma trace_list_app t es1 es2 : trace_list t (es1 ++ es2) = trace_list t es1 ++ trace_list t es2.
Proof. unfold trace_list. by rewrite filter_app, fmap_app. Qed.

Lemma trace_list_cons t e es :
  trace_list t (e :: es) =
    if decide (trace_id e = Some t) then seq e :: trace_list t es else trace_list t es.
Proof. unfold trace_list. rewrite filter_cons. by case_decide. Qed.

Lemma elem_of_trace_list t q es :
  q ∈ trace_list t es ↔ ∃ e, e ∈ es ∧ seq e = q ∧ trace_id e = Some t.
Proof.
  unfold trace_list. rewrite elem_of_seqs. setoid_rewrite list_elem_of_filter. naive_solver.
Qed.

Lemma ascending_seqs es : ascending seq es → ascending id (seqs es).
Proof.
  induction es as [|e es IH]; simpl; [intros; apply ascending_nil|].
  rewrite !ascending_cons. intros [He Hes]. split; [|by apply IH].
  intros q [e' [Hin <-]]%elem_of_seqs. by apply He.
Qed.

Lemma trace_list_ascending t es : ascending seq es → ascending id (trace_list t es).
Proof. intros. by apply ascending_seqs, ascending_filter. Qed.

Lemma list_opt_cons q l : list_opt (q :: l) = Some (q :: l).
Proof. done. Qed.

Lemma list_opt_default l : default [] (list_opt l) = l.
Proof. by destruct l. Qed.

(** ** Searching the ring *)

Lemma position_find i q :
  ascending seq (entries i) → entry_at i q = find_key seq q (entries i).
Proof. intros H. by apply (binary_search_find seq). Qed.

Lemma holds_spec i q :
  ascending seq (entries i) → holds i q = true ↔ q ∈ seqs (entries i).
Proof.
  intros H. unfold holds. rewrite elem_of_seqs.
  destruct (last (entries i)) as [newest|] eqn:El.
  - destruct (seq newest <? q) eqn:E1; bool_to_prop.
    { split; [done|]. intros (e & He & <-).
      pose proof (ascending_last seq _ e _ H El He). lia. }
    destruct (q =? seq newest) eqn:E2; bool_to_prop.
    { split; [|done]. intros _. exists newest. split; [|done].
      apply last_Some in El as [l' ->]. set_solver. }
    rewrite bool_decide_eq_true. unfold position. split.
    + intros [k Hk]. apply binary_search_Some in Hk as (e & He & Hq); [|done].
      exists e. split; [by eapply list_elem_of_lookup_2|done].
    + intros (e & He & Hq). apply list_elem_of_lookup in He as [k Hk].
      exists k. apply binary_search_Some; eauto.
  - apply last_None in El. rewrite El. split; [done|]. set_solver.
Qed.

(** ** Forgetting the lowest record *)

Lemma entries_unindex tid q i : entries (unindex tid q i) = entries i.
Proof. unfold unindex, forget_late. by repeat case_goal. Qed.

Lemma late_counter_unindex tid q i : late_counter (unindex tid q i) = late_counter i.
Proof. unfold unindex, forget_late. by repeat case_goal. Qed.

Lemma late_by_seq_unindex tid q i :
  late_by_seq (unindex tid q i) = delete q (late_by_seq i).
Proof.
  unfold unindex. 
  assert (late_by_seq (forget_late q i) = delete q (late_by_seq i)) as <-.
  { unfold forget_late. destruct (late_by_seq i !! q) eqn:E; [done|].
    by rewrite delete_id. }
  by repeat case_goal.
Qed.

Lemma late_unindex tid q i :
  late (unindex tid q i) =
    match late_by_seq i !! q with Some n => delete n (late i) | None => late i end.
Proof. unfold unindex, forget_late. by repeat case_goal. Qed.

Lemma trace_index_unindex tid q i t :
  trace_index (unindex tid q i) !! t =
    if decide (tid = Some t) then
      match trace_index i !! t with
      | None => None
      | Some l => list_opt (match binary_search_by_key id q l with
                            | Some k => delete k l | None => l end)
      end
    else trace_index i !! t.
Proof.
  assert (trace_index (forget_late q i) = trace_index i) as Hf
    by (unfold forget_late; by case_goal).
  unfold unindex. destruct tid as [t'|]; [|by rewrite decide_False, Hf].
  rewrite Hf. destruct (decide (Some t' = Some t)) as [[= ->]|Hne].
  - destruct (trace_index i !! t) as [l|] eqn:El; [|by rewrite Hf].
    destruct (match binary_search_by_key id q l with Some k => delete k l | None => l end)
      as [|x l'] eqn:E; simpl; rewrite ?Hf.
    + by rewrite lookup_delete_eq.
    + by rewrite lookup_insert_eq.
  - destruct (trace_index i !! t') as [l|] eqn:El; [|by rewrite Hf].
    destruct (match binary_search_by_key id q l with Some k => delete k l | None => l end)
      as [|x l'] eqn:E; simpl; rewrite ?Hf.
    + rewrite lookup_delete_ne; congruence.
    + rewrite lookup_insert_ne; congruence.
Qed.

Lemma unindex_wf e vs i :
  wf_list (e :: vs) i → wf_list vs (unindex (trace_id e) (seq e) i).
Proof.
  intros [Hasc Htr Hlate Hin]. pose proof Hasc as [He Hvs]%ascending_cons.
  constructor.
  - done.
  - intros t. rewrite trace_index_unindex, Htr, trace_list_cons.
    case_decide; [|done]. simpl.
    replace (binary_search_by_key id (seq e) (seq e :: trace_list t vs)) with (Some 0%nat).
    { done. }
    symmetry. apply (binary_search_Some id); [|by exists (seq e)].
    apply ascending_cons. split; [|by apply trace_list_ascending].
    intros q (e' & He' & <- & _)%elem_of_trace_list. by apply He.
  - intros n q. rewrite late_unindex, late_by_seq_unindex.
    destruct (late_by_seq i !! seq e) as [m|] eqn:Em.
    + rewrite !lookup_delete_Some, Hlate. split; intros [Hne Hq]; (split; [|done]).
      * intros <-. congruence.
      * intros ->. apply Hlate in Em, Hq. congruence.
    + rewrite lookup_delete_Some, Hlate. split; [|tauto].
      intros Hq. split; [|done]. congruence.
  - intros q n. rewrite late_by_seq_unindex, late_counter_unindex, lookup_delete_Some.
    intros [Hne Hq]. apply Hin in Hq as [Hq ?]. split; [|done].
    apply elem_of_cons in Hq as [->|Hq]; done.
Qed.

(** ** Eviction loops *)

(** What no eviction touches. *)
Definition meta (s : InMemoryStore) : nat * N * N * N * N :=
  (max_capacity s, admit_from s, total_stored s, total_received s, malformed_count s).

(** [s'] is [s] after the records [gone] left it. *)
Record evicted (gone : list LogEntry) (s s' : InMemoryStore) : Prop := {
  ev_floor : lost_below s' = floor_after gone (lost_below s);
  ev_late q : late_num q s' = if decide (q ∈ seqs gone) then None else late_num q s;
  ev_counter : late_counter (inner s') = late_counter (inner s);
  ev_meta : meta s' = meta s;
}.

Lemma evicted_nil s : evicted [] s s.
Proof. constructor; [done| |done..]. intros q. by rewrite decide_False by set_solver. Qed.

Lemma evicted_cons e gone s s1 s2 :
  evicted [e] s s1 → evicted gone s1 s2 → evicted (e :: gone) s s2.
Proof.
  intros [F1 L1 C1 M1] [F2 L2 C2 M2]. constructor; [|intros q|congruence..].
  - rewrite F2, F1. done.
  - rewrite L2, L1. repeat case_decide; set_solver.
Qed.

Lemma evict_one e vs s s' :
  inner s' = unindex (trace_id e) (seq e) (inner s) ∨
    inner s' = unindex (trace_id e) (seq e) (set_entries vs (inner s)) →
  lost_below s' = N.max (lost_below s) (sat_add (seq e) 1) →
  meta s' = meta s →
  evicted [e] s s'.
Proof.
  intros Hi Hf Hm. constructor; [done| | |done].
  - intros q. unfold late_num. simpl.
    assert (late_by_seq (inner s') = delete (seq e) (late_by_seq (inner s))) as ->
      by (destruct Hi as [-> | ->]; by rewrite late_by_seq_unindex).
    rewrite lookup_delete. repeat case_decide; set_solver.
  - destruct Hi as [-> | ->]; by rewrite late_counter_unindex.
Qed.

Lemma evict_front_effect s e es rest :
  entries (inner s) = e :: es → wf_list ((e :: es) ++ rest) (inner s) →
  entries (inner (evict_front s)) = es ∧
  wf_list (es ++ rest) (inner (evict_front s)) ∧
  evicted [e] s (evict_front s).
Proof.
  intros He Hwf. unfold evict_front. rewrite He. split_and!.
  - simpl. by rewrite entries_unindex.
  - change (wf_list (es ++ rest) (unindex (trace_id e) (seq e) (set_entries es (inner s)))).
    apply unindex_wf. destruct Hwf. by constructor.
  - apply (evict_one e es); [by right|done|done].
Qed.

Lemma evict_loop_effect (n : nat) s s' r rest :
  evict_loop n s = (s', r) → wf_list (entries (inner s) ++ rest) (inner s) →
  entries (inner s') = drop n (entries (inner s)) ∧
  r = (n - length (entries (inner s)))%nat ∧
  wf_list (drop n (entries (inner s)) ++ rest) (inner s') ∧
  evicted (take n (entries (inner s))) s s'.
Proof.
  revert s. induction n as [|n IH]; intros s Hl Hwf; simpl in Hl.
  - simplify_eq. rewrite drop_0, take_0. split_and!; [done..|apply evicted_nil].
  - destruct (entries (inner s)) as [|e es] eqn:He.
    + simplify_eq. rewrite He. simpl. split_and!; [done..|apply evicted_nil].
    + destruct (evict_front_effect s e es rest He Hwf) as (E1 & W1 & V1).
      apply IH in Hl as (E2 & R2 & W2 & V2); rewrite E1 in *; [|done].
      split_and!; [done|simpl; lia|done|]. by eapply evicted_cons.
Qed.

Lemma drop_loop_effect gone s s' through through' rest :
  drop_loop gone s through = (s', through') → wf_list (gone ++ rest) (inner s) →
  entries (inner s') = entries (inner s) ∧
  through' = match last gone with Some e => Some (seq e) | None => through end ∧
  wf_list rest (inner s') ∧
  evicted gone s s'.
Proof.
  revert s through. induction gone as [|e gone IH]; intros s through Hl Hwf; simpl in Hl.
  - simplify_eq. split_and!; [done..|apply evicted_nil].
  - apply IH in Hl as (E2 & T2 & W2 & V2); simpl in *.
    + rewrite entries_unindex in E2. split_and!; [done| |done|].
      * rewrite T2. destruct gone as [|a gone]; [done|]. rewrite last_cons_cons.
        by destruct (last (a :: gone)) eqn:El; [|apply last_None in El].
      * eapply evicted_cons; [|done]. by apply (evict_one e []); [left|..].
    + by apply unindex_wf.
Qed.

(** ** Numbering the late records *)

Definition past_through (through : option N) (q : N) : Prop :=
  match through with Some d => d < q | None => True end.

#[export] Instance past_through_dec through q : Decision (past_through through q).
Proof. destruct through; simpl; apply _. Defined.

Definition kept_late (late_seqs : list N) (through : option N) : list N :=
  filter (past_through through) late_seqs.

Lemma number_late_cons q ls through i :
  number_late (q :: ls) through i =
    if decide (past_through through q) then
      let n := u64_add (late_counter i) 1 in
      number_late ls through (set_late (<[n := q]> (late i)) (<[q := n]> (late_by_seq i)) n i)
    else number_late ls through i.
Proof.
  simpl. destruct through as [d|]; [|done].
  destruct (q <=? d) eqn:E; bool_to_prop.
  - rewrite decide_False; [done|]. simpl. lia.
  - rewrite decide_True; [done|]. simpl. lia.
Qed.

Lemma entries_number_late ls through i : entries (number_late ls through i) = entries i.
Proof.
  revert i. induction ls as [|q ls IH]; intros i; [done|].
  rewrite number_late_cons. case_decide; cbv zeta; by rewrite IH.
Qed.

Lemma trace_index_number_late ls through i :
  trace_index (number_late ls through i) = trace_index i.
Proof.
  revert i. induction ls as [|q ls IH]; intros i; [done|].
  rewrite number_late_cons. case_decide; cbv zeta; by rewrite IH.
Qed.

(** Every kept late seq gets a fresh number, the others keep theirs. *)
Lemma number_late_effect vs ls through i :
  let i' := number_late ls through i in
  wf_list vs i → NoDup ls →
  (∀ q, q ∈ kept_late ls through → q ∈ seqs vs ∧ late_by_seq i !! q = None) →
  late_counter i + N.of_nat (length ls) ≤ u64_max →
  wf_list vs i' ∧
  late_counter i ≤ late_counter i' ≤ late_counter i + N.of_nat (length ls) ∧
  (∀ q, q ∉ kept_late ls through → late_by_seq i' !! q = late_by_seq i !! q) ∧
  (∀ q, q ∈ kept_late ls through →
     ∃ n, late_by_seq i' !! q = Some n ∧ late_counter i < n ≤ late_counter i').
Proof.
  revert i. induction ls as [|q ls IH]; intros i i' Hwf Hnd Hk Hc.
  { subst i'. simpl. split_and!; [done|lia..|done|]. intros q Hq.
    by apply elem_of_nil in Hq. }
  apply NoDup_cons in Hnd as [Hq Hnd]. simpl length in Hc.
  unfold kept_late in *. rewrite filter_cons in Hk |- *. subst i'.
  rewrite number_late_cons. case_decide as Hd.
  - cbv zeta. assert (u64_add (late_counter i) 1 = late_counter i + 1) as Hn
      by (apply u64_add_small; lia).
    rewrite Hn. set (i1 := set_late _ _ _ i).
    assert (late_by_seq i !! q = None) as Hqn by (apply Hk; left).
    destruct (IH i1) as (W & C & Lo & Ln).
    + destruct Hwf as [Wa Wt Wl Wi]. constructor; simpl; [done..| |].
      * intros n q'. rewrite !lookup_insert_Some, Wl. split.
        -- intros [[<- <-]|[Hne Hl]]; [by left|]. right. split; [|done]. congruence.
        -- intros [[<- <-]|[Hne Hl]]; [by left|]. right. split; [|done].
           intros <-. apply Wi in Hl. lia.
      * intros q' n [[<- <-]|[Hne Hl]]%lookup_insert_Some.
        -- split; [|lia]. apply Hk. left.
        -- apply Wi in Hl as [? ?]. split; [done|lia].
    + done.
    + intros q' Hq'. simpl. destruct (Hk q') as [? Hl]; [by right|]. split; [done|].
      rewrite lookup_insert_ne; [done|]. intros <-.
      apply list_elem_of_filter in Hq' as [_ ?]. done.
    + change (late_counter i1) with (late_counter i + 1). lia.
    + change (late_counter i1) with (late_counter i + 1) in *.
      cbn [length]. split_and!; [done|lia|lia| |].
      * intros q' [Hne Hq']%not_elem_of_cons. rewrite Lo by done. simpl.
        by rewrite lookup_insert_ne by congruence.
      * intros q' [->|Hq']%elem_of_cons.
        -- exists (late_counter i + 1). split; [|lia]. rewrite Lo.
           ++ simpl. by rewrite lookup_insert_eq.
           ++ intros [_ ?]%list_elem_of_filter. done.
        -- destruct (Ln q' Hq') as (n & ? & ?). exists n. split; [done|]. lia.
  - destruct (IH i) as (W & C & Lo & Ln); [done..|lia|].
    cbn [length]. split_and!; [done|lia|lia|done|done].
Qed.

(** ** Indexing a batch *)

Lemma index_entry_lookup es m t :
  foldl index_entry m es !! t =
    match trace_list t es with
    | [] => m !! t
    | l => Some (default [] (m !! t) ++ l)
    end.
Proof.
  revert m. induction es as [|e es IH]; intros m; [done|]. simpl foldl.
  rewrite IH, trace_list_cons. unfold index_entry, push_trace. case_decide as Ht.
  - rewrite Ht, lookup_insert_eq. simpl.
    destruct (trace_list t es); [done|]. by rewrite <-app_assoc.
  - destruct (trace_id e) as [t'|]; [|done].
    by rewrite lookup_insert_ne by congruence.
Qed.

Lemma merge_trace_lookup kvs m t :
  NoDup kvs.*1 →
  foldl merge_trace m kvs !! t =
    match list_to_map (M:=gmap N (list N)) kvs !! t with
    | Some l => Some (merge_ascending (default [] (m !! t)) l)
    | None => m !! t
    end.
Proof.
  revert m. induction kvs as [|[k l] kvs IH]; intros m Hnd; [done|].
  apply NoDup_cons in Hnd as [Hk Hnd]. simpl in *. rewrite IH by done.
  unfold merge_trace at 1 2. simpl. rewrite lookup_insert.
  destruct (decide (k = t)) as [->|Hne]; simpl.
  - rewrite lookup_insert_eq.
    by rewrite (not_elem_of_list_to_map_1 _ t) by done.
  - by rewrite lookup_insert_ne by done.
Qed.

Lemma merge_ascending_spec l add :
  ascending id l → ascending id add → merge_ascending l add = merge_by_key id l add.
Proof.
  intros Hl Ha. unfold merge_ascending.
  destruct (head add) as [first|] eqn:Ef.
  2: { apply head_None in Ef. subst. by rewrite merge_by_key_nil_r, app_nil_r. }
  destruct (last l) as [newest|] eqn:El.
  2: { apply last_None in El. subst. by destruct add. }
  destruct (newest <? first) eqn:E; [|done]. bool_to_prop.
  symmetry. apply merge_by_key_below. intros x y Hx Hy. simpl.
  pose proof (ascending_last id l x newest Hl El Hx).
  pose proof (ascending_head id add y first Ha Ef Hy). simpl in *. lia.
Qed.

(** No record of [es] has the seq of one of [batch]. *)
Definition disjoint_seqs (es batch : list LogEntry) : Prop :=
  ∀ x y, x ∈ es → y ∈ batch → seq x ≠ seq y.

Lemma trace_list_merge t es batch :
  ascending seq es → ascending seq batch → disjoint_seqs es batch →
  merge_by_key id (trace_list t es) (trace_list t batch) =
    trace_list t (merge_by_key seq es batch).
Proof.
  intros H1 H2 Hd. apply (merge_by_key_ext id).
  - by apply trace_list_ascending.
  - by apply trace_list_ascending.
  - by apply trace_list_ascending, merge_by_key_ascending.
  - intros x y (e1 & He1 & <- & _)%elem_of_trace_list (e2 & He2 & <- & _)%elem_of_trace_list.
    by apply Hd.
  - intros q. rewrite !elem_of_trace_list. setoid_rewrite elem_of_merge_by_key. naive_solver.
Qed.

Lemma index_batch_lookup es batch m t :
  ascending seq es → ascending seq batch → disjoint_seqs es batch →
  (∀ t, m !! t = list_opt (trace_list t es)) →
  index_batch batch m !! t = list_opt (trace_list t (merge_by_key seq es batch)).
Proof.
  intros H1 H2 Hd Hm. unfold index_batch.
  rewrite merge_trace_lookup, list_to_map_to_list by apply NoDup_fst_map_to_list.
  rewrite index_entry_lookup, lookup_empty, Hm. simpl.
  rewrite <-trace_list_merge by done.
  destruct (trace_list t batch) as [|q l] eqn:Et.
  - by rewrite merge_by_key_nil_r.
  - rewrite list_opt_default, merge_ascending_spec.
    + destruct (merge_by_key id (trace_list t es) (q :: l)) eqn:Em; [|done].
      assert (q ∈ merge_by_key id (trace_list t es) (q :: l)) as Hq
        by (rewrite elem_of_merge_by_key; right; left).
      rewrite Em in Hq. by apply elem_of_nil in Hq.
    + by apply trace_list_ascending.
    + rewrite <-Et. by apply trace_list_ascending.
Qed.

(** ** The admissible part of a batch *)

Lemma admissible_ascending s batch : ascending seq (admissible s batch).
Proof. by apply ascending_lfilter, ascending_lfilter, sort_dedup_ascending. Qed.

Lemma elem_of_admissible s batch e :
  ascending seq (entries (inner s)) → e ∈ admissible s batch →
  e ∈ batch ∧ (seq e ∉ seqs (entries (inner s))) ∧ refuse_below s ≤ seq e.
Proof.
  intros Hs [Hr [Hh He]%elem_of_lfilter]%elem_of_lfilter. bool_to_prop.
  split_and!; [by eapply elem_of_sort_dedup| |done].
  intros Hin%holds_spec; [congruence|done].
Qed.

Lemma admissible_disjoint s batch :
  ascending seq (entries (inner s)) → disjoint_seqs (entries (inner s)) (admissible s batch).
Proof.
  intros Hs x y Hx Hy Hxy. apply elem_of_admissible in Hy as (_ & Hy & _); [|done].
  apply Hy, elem_of_seqs. eauto.
Qed.

Lemma take_while_filter (q : N) (l : list N) :
  ascending id l → take_while (λ x, x <? q) l = filter (λ x, x < q) l.
Proof.
  induction l as [|x l IH]; [done|]. intros [Hx Hl]%ascending_cons. simpl.
  rewrite filter_cons. destruct (x <? q) eqn:E; bool_to_prop.
  - by rewrite decide_True, IH.
  - rewrite decide_False by lia. symmetry.
    destruct (filter (λ x, x < q) l) as [|y l'] eqn:Ef; [done|].
    assert (y ∈ filter (λ x, x < q) l) as [Hy Hin]%list_elem_of_filter
      by (rewrite Ef; left). apply Hx in Hin. simpl in Hin. lia.
Qed.

Lemma late_seqs_spec i adm q :
  ascending seq adm →
  q ∈ late_seqs_of i adm ↔
    q ∈ seqs adm ∧ ∃ newest, last (entries i) = Some newest ∧ q < seq newest.
Proof.
  intros Ha. unfold late_seqs_of. destruct (last (entries i)) as [newest|].
  - rewrite take_while_filter by by apply ascending_seqs.
    rewrite list_elem_of_filter. naive_solver.
  - split; [by intros ?%elem_of_nil|naive_solver].
Qed.

Lemma late_seqs_sub i adm :
  ascending seq adm → ascending id (late_seqs_of i adm) ∧
  (length (late_seqs_of i adm) ≤ length adm)%nat.
Proof.
  intros Ha. unfold late_seqs_of. destruct (last (entries i)) as [newest|].
  - pose proof (ascending_seqs _ Ha) as Hs. rewrite take_while_filter by done.
    split; [by apply ascending_filter|]. rewrite length_filter, length_fmap. lia.
  - split; [apply ascending_nil|simpl; lia].
Qed.
End inv.
