(* ===== verification/MemStoreOps.v ===== *)
(** * MemStoreOps: the exact effect of the ring's writers

    [merged] says what one [merge_locked] does to the ring: the records kept are
    the last [max_capacity] of the merge, the floor follows the ones that left,
    and the late numbers are those of the kept late records. *)

From S2P Require Import Prelude Text F64 Gelf Filter Matcher MemStore MemStoreInv.

Set Default Proof Using "Type".
Local Open Scope N_scope.

Section ops.
Context {X : Externals}.
Implicit Types (s : InMemoryStore) (i : StoreInner) (e : LogEntry) (q n t : N).

Local Abbreviation seqs es := (fmap (M:=list) seq es).

(** What left the ring when [adm] was merged into it. *)
Definition union_of (adm : list LogEntry) (s : InMemoryStore) : list LogEntry :=
  merge_by_key seq (entries (inner s)) adm.
Definition overflow (adm : list LogEntry) (s : InMemoryStore) : list LogEntry :=
  take (length (union_of adm s) - max_capacity s) (union_of adm s).

Definition below_newest (s : InMemoryStore) (q : N) : Prop :=
  ∃ newest, last (entries (inner s)) = Some newest ∧ q < seq newest.

(** Merging [adm] into the ring, [recv] records having been received. *)
Record merged (recv : nat) (adm : list LogEntry) (s s' : InMemoryStore) : Prop := {
  mg_entries : entries (inner s') = last_n (max_capacity s) (union_of adm s);
  mg_wf : wf_list (entries (inner s')) (inner s');
  mg_floor : lost_below s' = floor_after (overflow adm s) (lost_below s);
  mg_counter : late_counter (inner s) ≤ late_counter (inner s')
                 ≤ late_counter (inner s) + N.of_nat (length adm);
  mg_late_old q : q ∉ seqs adm →
    late_num q s' = if decide (q ∈ seqs (overflow adm s)) then None else late_num q s;
  mg_late_new q : q ∈ seqs adm → q ∈ seqs (entries (inner s')) → below_newest s q →
    ∃ n, late_num q s' = Some n ∧ late_counter (inner s) < n ≤ late_counter (inner s');
  mg_late_none q : q ∈ seqs adm →
    q ∉ seqs (entries (inner s')) ∨ ¬ below_newest s q → late_num q s' = None;
  mg_counter_same : (∀ q, q ∈ seqs adm → ¬ below_newest s q) →
    late_counter (inner s') = late_counter (inner s);
  mg_stored : total_stored s' =
    match adm with [] => total_stored s
                 | _ => u64_add (total_stored s) (N.of_nat (length adm)) end;
  mg_received : total_received s' = u64_add (total_received s) (N.of_nat recv);
  mg_malformed : malformed_count s' = malformed_count s;
  mg_cap : max_capacity s' = max_capacity s;
  mg_admit : admit_from s' = admit_from s;
}.

Lemma take_app_split {A} (n : nat) (l1 l2 : list A) :
  take n (l1 ++ l2) = take n l1 ++ take (n - length l1) l2.
Proof. apply take_app. Qed.

(** The ring while the batch is being merged: [vs] is the whole union. *)
Lemma eviction_effect s vs rest s3 s4 (n r : nat) through :
  entries (inner s) ++ rest = vs → wf_list vs (inner s) →
  evict_loop n s = (s3, r) → drop_loop (take r rest) s3 None = (s4, through) →
  entries (inner s4) ++ drop r rest = drop n vs ∧
  wf_list (drop n vs) (inner s4) ∧
  evicted (take n vs) s s4 ∧
  (∀ x, x ∈ rest → x ∈ take n vs → ¬ past_through through (seq x)) ∧
  (∀ x, x ∈ rest → x ∈ drop n vs → past_through through (seq x)).
Proof.
  intros <- Hwf He Hd. pose proof (wl_asc _ _ Hwf) as Hasc.
  destruct (evict_loop_effect n s s3 r rest He Hwf) as (E3 & -> & W3 & V3).
  set (m := (n - length (entries (inner s)))%nat) in *.
  assert (wf_list (take m rest ++ (drop n (entries (inner s)) ++ drop m rest)) (inner s3)) as W3'.
  { destruct (decide (m = 0%nat)) as [Hm|Hm].
    - rewrite Hm in *. by rewrite take_0, drop_0.
    - rewrite (drop_ge (entries (inner s))) in * by (subst m; lia).
      simpl. by rewrite take_drop. }
  destruct (drop_loop_effect _ _ _ _ _ _ Hd W3') as (E4 & T4 & W4 & V4).
  rewrite E4, E3, drop_app, take_app. fold m.
  assert (Hlast : through = seq <$> last (take m rest))
    by (rewrite T4; by destruct (last (take m rest))).
  split_and!; [done|done| |..].
  - destruct V3 as [F3 L3 C3 M3], V4 as [F4 L4 C4 M4]. constructor.
    + rewrite F4, F3. unfold floor_after. by rewrite foldl_app.
    + intros q. rewrite L4, L3, fmap_app. repeat case_decide; set_solver.
    + congruence.
    + congruence.
  - intros x Hx Hin. apply ascending_app in Hasc as (_ & Hr & Hlt).
    assert (x ∈ take m rest) as Hin'.
    { apply elem_of_app in Hin as [Hin|]; [|done].
      apply (subseteq_take n) in Hin.
      pose proof (Hlt _ _ Hin Hx). lia. }
    destruct (last (take m rest)) as [y|] eqn:El.
    + pose proof (ascending_last seq _ _ _ (ascending_take seq m _ Hr) El Hin').
      rewrite Hlast. simpl. lia.
    + apply last_None in El. rewrite El in Hin'. by apply elem_of_nil in Hin'.
  - intros x Hx Hin. apply ascending_app in Hasc as (_ & Hr & Hlt).
    destruct (last (take m rest)) as [y|] eqn:El; rewrite Hlast; simpl; [|done].
    apply (ascending_take_drop seq m rest); [done|by apply last_Some_elem_of|].
    apply elem_of_app in Hin as [Hin|]; [|done].
    apply (subseteq_drop n) in Hin.
    pose proof (Hlt _ _ Hin Hx). lia.
Qed.

Lemma late_num_absent s q :
  wf_list (entries (inner s)) (inner s) → q ∉ seqs (entries (inner s)) → late_num q s = None.
Proof.
  intros Hwf Hq. unfold late_num. destruct (late_by_seq (inner s) !! q) as [n|] eqn:E; [|done].
  by apply (wl_late_in _ _ Hwf) in E as [? _].
Qed.

(** The index over the union, before anything leaves. *)
Lemma union_wf s i' adm :
  wf_list (entries (inner s)) (inner s) → ascending seq adm →
  disjoint_seqs (entries (inner s)) adm →
  trace_index i' = index_batch adm (trace_index (inner s)) →
  late i' = late (inner s) → late_by_seq i' = late_by_seq (inner s) →
  late_counter i' = late_counter (inner s) →
  wf_list (union_of adm s) i'.
Proof.
  intros [Wa Wt Wl Wi] Ha Hd Ht Hl Hls Hc. constructor.
  - by apply merge_by_key_ascending.
  - intros t. rewrite Ht. by apply index_batch_lookup.
  - intros n q. by rewrite Hl, Hls.
  - intros q n. rewrite Hls, Hc. intros [Hq ?]%Wi. split; [|done].
    apply elem_of_seqs in Hq as (e & He & <-). apply elem_of_seqs. exists e.
    split; [|done]. apply elem_of_merge_by_key. by left.
Qed.

(** The prefix below the batch stays in place while the rest is merged. *)
Lemma union_split s (b0 : LogEntry) adm :
  ascending seq (entries (inner s)) → ascending seq (b0 :: adm) →
  let split := partition_point (λ e, seq e <? seq b0) (entries (inner s)) in
  take split (entries (inner s)) ++
    merge_by_key seq (drop split (entries (inner s))) (b0 :: adm) = union_of (b0 :: adm) s.
Proof.
  intros Hs Ha split.
  destruct (partition_point_ascending seq (λ n, n <? seq b0) _ Hs) as (_ & Hlo & _).
  { intros a b ??; bool_to_prop. apply N.ltb_lt. lia. }
  unfold union_of. rewrite <-(take_drop split (entries (inner s))) at 3.
  rewrite merge_by_key_app_l; [done|].
  intros x y Hx%Hlo Hy. bool_to_prop.
  apply ascending_cons in Ha as [Hb _]. apply elem_of_cons in Hy as [->|Hy%Hb]; [done|lia].
Qed.

Lemma merge_effect s batch :
  store_wf s → late_counter (inner s) + N.of_nat (length (admissible s batch)) ≤ u64_max →
  merged (length (not_held s batch)) (admissible s batch) s (merge_locked batch s).1.
Proof.
  intros [Hwf Hcap _ _] Hc. pose proof (wl_asc _ _ Hwf) as Hasc.
  pose proof (admissible_ascending s batch) as Ha.
  pose proof (admissible_disjoint s batch Hasc) as Hdis.
  unfold merge_locked. destruct (admissible s batch) as [|b0 adm0] eqn:Eadm.
  { assert (union_of [] s = entries (inner s)) as HU
      by (unfold union_of; by rewrite merge_by_key_nil_r).
    assert (length (entries (inner s)) - max_capacity s = 0)%nat as Hz by lia.
    constructor; unfold overflow; rewrite ?HU, ?Hz; simpl; try done.
    - unfold last_n. by rewrite Hz, drop_0.
    - lia.
    - intros q ?%elem_of_nil. done.
    - intros q ?%elem_of_nil. done. }
  set (adm := b0 :: adm0) in *. set (i := inner (add_received _ s)).
  set (split := partition_point _ (entries i)). set (s2 := set_inner _ _).
  assert (HU : entries (inner s2) ++ merge_by_key seq (drop split (entries i)) adm = union_of adm s)
    by exact (union_split s b0 adm0 Hasc Ha).
  assert (length (entries (inner s2)) + length (merge_by_key seq (drop split (entries i)) adm)
            - max_capacity s2 = length (union_of adm s) - max_capacity s)%nat as Hexc
    by (rewrite <-HU, length_app; done).
  cbv zeta. rewrite Hexc. set (excess := (length (union_of adm s) - max_capacity s)%nat).
  destruct (evict_loop excess s2) as [s3 r] eqn:E3.
  destruct (drop_loop (take r _) s3 None) as [s4 through] eqn:E4.
  assert (wf_list (union_of adm s) (inner s2)) as W2 by by apply (union_wf s).
  destruct (eviction_effect s2 (union_of adm s) _ s3 s4 excess r through HU W2 E3 E4)
    as (EE & W4 & [F4 L4 C4 M4] & Hnp & Hp).
  assert (Hmem : ∀ e, e ∈ adm → e ∈ merge_by_key seq (drop split (entries i)) adm)
    by (intros e ?; apply elem_of_merge_by_key; by right).
  destruct (late_seqs_sub i adm Ha) as [Hls Hlen].
  set (i4 := set_entries _ (inner s4)) in *.
  assert (Hsep : ∀ q, q ∈ seqs adm → q ∉ seqs (entries (inner s))).
  { intros q (e & He & <-)%elem_of_seqs (x & Hx & Hxe)%elem_of_seqs. by apply (Hdis x e). }
  assert (HsepL : ∀ q, q ∈ seqs adm → late_by_seq i4 !! q = None).
  { intros q Hq. change (late_num q s4 = None). rewrite L4. case_decide; [done|].
    apply (late_num_absent s q); auto. }
  assert (Hsplit : ∀ e, e ∈ adm → e ∈ take excess (union_of adm s) ∨ e ∈ drop excess (union_of adm s)).
  { intros e He. apply elem_of_app. rewrite take_drop. apply elem_of_merge_by_key. by right. }
  assert (Hkept : ∀ q, q ∈ kept_late (late_seqs_of i adm) through ↔
                      q ∈ seqs adm ∧ q ∈ seqs (drop excess (union_of adm s)) ∧ below_newest s q).
  { intros q. unfold kept_late. rewrite list_elem_of_filter, late_seqs_spec by done.
    split.
    - intros (Hpt & Hq & Hn). split_and!; [done| |done].
      apply elem_of_seqs in Hq as (e & He & <-). apply elem_of_seqs. exists e.
      destruct (Hsplit e He) as [Hin|]; [|done].
      by apply Hnp in Hin; [|apply Hmem].
    - intros (Hq & Hd & Hn). split_and!; [|done|done].
      apply elem_of_seqs in Hq as (e & He & <-).
      apply elem_of_seqs in Hd as (e' & He' & Hs').
      assert (e' = e) as ->.
      { eapply (ascending_inj seq); [apply (wl_asc _ _ W2)| | |done].
        - by apply (subseteq_drop excess).
        - apply elem_of_merge_by_key. by right. }
      by apply Hp; [apply Hmem|]. }
  assert (wf_list (drop excess (union_of adm s)) i4) as Wi4 by (destruct W4; by constructor).
  assert (late_counter i4 = late_counter (inner s)) as Ci4 by exact C4.
  destruct (number_late_effect (drop excess (union_of adm s)) (late_seqs_of i adm) through i4)
    as (W5 & C5 & Lo & Ln).
  { done. }
  { by apply (ascending_NoDup id). }
  { intros q Hq%Hkept. naive_solver. }
  { rewrite Ci4. lia. }
  rewrite Ci4 in *. injection M4 as M1 M2 M3 M4 M5.
  assert (C5' : late_counter (inner s) ≤
    late_counter (number_late (late_seqs_of i adm) through i4) ≤
    late_counter (inner s) + N.of_nat (length adm)) by lia.
  constructor; simpl; rewrite ?entries_number_late; try done.
  - rewrite <-EE in W5. exact W5.
  - intros q Hq. unfold late_num at 1. simpl. rewrite Lo; [apply L4|].
    intros [? _]%Hkept. done.
  - intros q H1 H2 H3. apply Ln, Hkept. split_and!; try done. simpl in H2. by rewrite EE in H2.
  - intros q H1 H2. unfold late_num. simpl. rewrite Lo; [by apply HsepL|].
    intros (_ & Hq & Hn)%Hkept. rewrite <-EE in Hq. naive_solver.
  - intros Hnb.
    destruct (late_seqs_of i adm) as [|q ls] eqn:Els; [exact Ci4|].
    assert (q ∈ late_seqs_of i adm) as [Hq Hn]%late_seqs_spec by (rewrite ?Els; first [left|done]); [|done].
    by destruct (Hnb q).
  - by rewrite M3.
Qed.

Lemma length_admissible_le s batch : (length (admissible s batch) ≤ length batch)%nat.
Proof.
  unfold admissible, not_held. etrans; [apply filter_length_le|].
  etrans; [apply filter_length_le|]. apply length_sort_dedup_le.
Qed.

(** ** A state is determined by its records, its numbering and its counters *)

Lemma store_ext s s' :
  entries (inner s) = entries (inner s') →
  wf_list (entries (inner s)) (inner s) → wf_list (entries (inner s')) (inner s') →
  (∀ q, late_num q s = late_num q s') → late_counter (inner s) = late_counter (inner s') →
  meta s = meta s' → lost_below s = lost_below s' → s = s'.
Proof.
  destruct s as [[es ti l lb c] cap st rc ma lo ad], s' as [[es' ti' l' lb' c'] cap' st' rc' ma' lo' ad'].
  unfold meta, late_num. simpl. intros <- [W1 W2 W3 W4] [W1' W2' W3' W4'] Hl <- [= <- <- <- <- <-] <-.
  simpl in *.
  assert (ti = ti') as <- by (apply map_eq; intros t; by rewrite W2, W2').
  assert (lb = lb') as <- by by apply map_eq.
  assert (l = l') as <-; [|done].
  apply map_eq. intros n. apply option_eq. intros q. by rewrite W3, W3'.
Qed.

Lemma holds_above i q newest :
  last (entries i) = Some newest → seq newest < q → holds i q = false.
Proof. intros Hl Hq. unfold holds. rewrite Hl. by apply N.ltb_lt in Hq as ->. Qed.

Lemma push_newest_wf vs e s :
  wf_list vs (inner s) → (∀ x, x ∈ vs → seq x < seq e) →
  wf_list (vs ++ [e]) (inner (push_newest e s)).
Proof.
  intros [Wa Wt Wl Wi] Hlt. constructor; simpl.
  - by apply ascending_snoc.
  - intros t. rewrite trace_list_app. unfold index_entry, push_trace.
    rewrite trace_list_cons. unfold trace_list at 2. simpl. case_decide as Ht.
    + rewrite Ht, lookup_insert_eq, Wt, list_opt_default.
      by destruct (trace_list t vs).
    + rewrite app_nil_r, <-Wt. destruct (trace_id e) as [t'|]; [|done].
      by rewrite lookup_insert_ne by congruence.
  - done.
  - intros q n [Hq ?]%Wi. split; [|done]. rewrite fmap_app. set_solver.
Qed.

(** ** [append] *)

Definition is_newest (e : LogEntry) (s : InMemoryStore) : Prop :=
  ∀ x, x ∈ entries (inner s) → seq x < seq e.

Lemma is_newest_last e s :
  ascending seq (entries (inner s)) →
  match last (entries (inner s)) with Some newest => seq e <=? seq newest | None => false end
    = false → is_newest e s.
Proof.
  intros Hs Hl x Hx. destruct (last (entries (inner s))) as [newest|] eqn:El.
  - bool_to_prop. pose proof (ascending_last seq _ _ _ Hs El Hx). lia.
  - apply last_None in El. rewrite El in Hx. by apply elem_of_nil in Hx.
Qed.

Lemma is_newest_not_held e s :
  ascending seq (entries (inner s)) → is_newest e s → not_held s [e] = [e].
Proof.
  intros Hs Hn. unfold not_held. simpl.
  destruct (holds (inner s) (seq e)) eqn:Eh; [|done].
  apply holds_spec in Eh as (x & Hx & Hq)%elem_of_seqs; [|done]. apply Hn in Hx. lia.
Qed.

Lemma is_newest_union e s : is_newest e s → union_of [e] s = entries (inner s) ++ [e].
Proof. intros Hn. apply merge_by_key_below. intros x y Hx ->%list_elem_of_singleton. auto. Qed.

Lemma is_newest_not_below e s : is_newest e s → ¬ below_newest s (seq e).
Proof. intros Hn (newest & Hl%last_Some_elem_of%Hn & ?). lia. Qed.

Lemma push_merged e s :
  (length (entries (inner s)) < max_capacity s)%nat →
  wf_list (entries (inner s)) (inner s) → is_newest e s →
  merged 1 [e] s (add_stored 1 (push_newest e (add_received 1 s))).
Proof.
  intros Hcap Hwf Hn. pose proof (is_newest_union e s Hn) as HU.
  assert (length (union_of [e] s) - max_capacity s = 0)%nat as Hz
    by (rewrite HU, length_app; simpl; lia).
  constructor; unfold overflow, last_n; rewrite ?Hz; simpl; rewrite ?drop_0; try done.
  - exact (push_newest_wf _ e s Hwf Hn).
  - lia.
  - intros q ->%list_elem_of_singleton _ Hb. by apply is_newest_not_below in Hb.
  - intros q ->%list_elem_of_singleton _. apply (late_num_absent s); [done|].
    intros (x & Hx%Hn & Hq)%elem_of_seqs. lia.
Qed.

(** Evicting the front first and pushing after is the merge of a full ring. *)
Lemma evict_push_merged e s :
  length (entries (inner s)) = max_capacity s → max_capacity s ≠ 0%nat →
  wf_list (entries (inner s)) (inner s) → is_newest e s →
  merged 1 [e] s (add_stored 1 (push_newest e (evict_front (add_received 1 s)))).
Proof.
  intros Hcap Hnz Hwf Hn. pose proof (is_newest_union e s Hn) as HU.
  assert (length (union_of [e] s) - max_capacity s = 1)%nat as Hz
    by (rewrite HU, length_app; simpl; lia).
  destruct (entries (inner s)) as [|x es] eqn:Ees; [simpl in *; lia|].
  destruct (evict_front_effect (add_received 1 s) x es []) as (E1 & W1 & [F1 L1 C1 M1]).
  { done. } { by rewrite app_nil_r. }
  rewrite app_nil_r in W1. set (s1 := evict_front _) in *.
  assert (HW : wf_list (es ++ [e]) (inner (push_newest e s1))).
  { apply push_newest_wf; [done|]. intros y Hy. apply Hn. rewrite Ees. by right. }
  assert (late_num (seq e) s = None) as Hln.
  { apply late_num_absent; rewrite Ees; [done|].
    intros (y & Hy & Hq)%elem_of_seqs. rewrite <-Ees in Hy. apply Hn in Hy. lia. }
  injection M1 as M1 M2 M3 M4 M5.
  constructor; unfold overflow, last_n; rewrite ?Hz, ?HU; simpl; rewrite ?E1; try done.
  - destruct HW. by constructor.
  - rewrite C1. simpl. lia.
  - intros q _. exact (L1 q).
  - intros q ->%list_elem_of_singleton _ Hb. by apply is_newest_not_below in Hb.
  - intros q ->%list_elem_of_singleton _. unfold late_num. simpl.
    fold (late_num (seq e) s1). rewrite L1. by case_decide.
  - by rewrite M3.
Qed.

Lemma zero_capacity_merged e s :
  entries (inner s) = [] → max_capacity s = 0%nat → wf_list [] (inner s) →
  merged 1 [e] s (add_stored 1 (raise_floor (sat_add (seq e) 1) (add_received 1 s))).
Proof.
  intros Hes Hcap Hwf.
  assert (union_of [e] s = [e]) as HU by (unfold union_of; by rewrite Hes).
  assert (Hnone : ∀ q, late_num q s = None)
    by (intros q; apply late_num_absent; rewrite Hes; [done|by intros ?%elem_of_nil]).
  constructor; unfold overflow, last_n; rewrite ?HU, ?Hcap; simpl; rewrite ?Hes; try done.
  - lia.
  - intros q _. change (late_num q s = if decide (q ∈ [seq e]) then None else late_num q s).
    by case_decide.
  - intros q ->%list_elem_of_singleton Hin. by apply elem_of_nil in Hin.
  - intros q _ _. exact (Hnone q).
Qed.

Lemma refused_merged e s :
  store_wf s → seq e < refuse_below s → is_newest e s →
  merged 1 (admissible s [e]) s (add_received 1 s).
Proof.
  intros [Hwf Hcap _ _] Hlt Hn. unfold admissible. rewrite is_newest_not_held;
    [|by apply (wl_asc _ _ Hwf)|done].
  simpl. replace (refuse_below s <=? seq e) with false; [|symmetry; by apply N.leb_gt].
  assert (union_of [] s = entries (inner s)) as HU
    by (unfold union_of; by rewrite merge_by_key_nil_r).
  assert (length (entries (inner s)) - max_capacity s = 0)%nat as Hz by lia.
  constructor; unfold overflow, last_n; rewrite ?HU, ?Hz; simpl; rewrite ?drop_0; try done.
  - lia.
  - by intros q ?%elem_of_nil.
  - by intros q ?%elem_of_nil.
Qed.

Lemma append_merged e s :
  store_wf s → late_counter (inner s) < u64_max →
  merged (length (not_held s [e])) (admissible s [e]) s (append e s).
Proof.
  intros Hs Hc. pose proof Hs as [Hwf Hcap _ _]. pose proof (wl_asc _ _ Hwf) as Hasc.
  unfold append. destruct (match last _ with Some newest => _ | None => false end) eqn:El.
  { apply merge_effect; [done|]. pose proof (length_admissible_le s [e]). simpl in *. lia. }
  apply (is_newest_last e s Hasc) in El as Hn.
  rewrite (is_newest_not_held e s Hasc Hn). change (length [e]) with 1%nat.
  change (refuse_below (add_received 1 s)) with (refuse_below s).
  destruct (seq e <? refuse_below s) eqn:Er; bool_to_prop; [by apply refused_merged|].
  assert (admissible s [e] = [e]) as ->.
  { unfold admissible. rewrite is_newest_not_held by done. simpl.
    by apply N.leb_le in Er as ->. }
  change (max_capacity (add_received 1 s)) with (max_capacity s).
  change (inner (add_received 1 s)) with (inner s).
  destruct (max_capacity s =? 0)%nat eqn:Ez; bool_to_prop.
  { assert (entries (inner s) = []) as He
      by (destruct (entries (inner s)); [done|simpl in Hcap; lia]).
    rewrite He in Hwf. by apply zero_capacity_merged. }
  destruct (max_capacity s <=? length (entries (inner s)))%nat eqn:Ef; bool_to_prop.
  - apply evict_push_merged; [lia|done..].
  - by apply push_merged.
Qed.
End ops.
