(* ===== verification/MemStoreSpec.v ===== *)
(** * MemStoreSpec: what the log ring promises

    A run is a sequence of writer calls on a fresh ring. The ring always holds
    the [max_capacity] highest distinct seqs it was offered, whatever order they
    came in ([ring_contents]); a record it does not hold is below its floor. *)

From S2P Require Import Prelude Text F64 Gelf Filter Matcher Samples MemStore MemStoreInv MemStoreOps.

Set Default Proof Using "Type".
Local Open Scope N_scope.

Section spec.
Context {X : Externals}.
Implicit Types (s : InMemoryStore) (i : StoreInner) (e : LogEntry) (q t : N).

Local Abbreviation seqs es := (fmap (M:=list) seq es).

(** ** Runs *)

Inductive StoreOp :=
  | OpAppend (e : LogEntry)
  | OpInsertSorted (batch : list LogEntry)
  | OpClear
  | OpClearThrough (newest_assigned : N)
  | OpMalformed.

Definition apply_op (s : InMemoryStore) (op : StoreOp) : InMemoryStore :=
  match op with
  | OpAppend e => append e s
  | OpInsertSorted batch => (insert_sorted batch s).1
  | OpClear => clear s
  | OpClearThrough n => clear_through n s
  | OpMalformed => increment_malformed s
  end.

Definition run_ops (ops : list StoreOp) (s : InMemoryStore) : InMemoryStore :=
  foldl apply_op s ops.

Definition offered_by (op : StoreOp) : list LogEntry :=
  match op with OpAppend e => [e] | OpInsertSorted batch => batch | _ => [] end.
Definition offered (ops : list StoreOp) : list LogEntry := concat (offered_by <$> ops).

#[export] Instance StoreOp_malformed_dec op : Decision (op = OpMalformed).
Proof. destruct op; first [by left|by right]. Defined.

Definition is_clear (op : StoreOp) : bool :=
  match op with OpClear | OpClearThrough _ => true | _ => false end.

(** Fewer than 2^64 records, each with a seq a counter can still pass. *)
Definition ops_ok (ops : list StoreOp) : Prop :=
  N.of_nat (length (offered ops)) ≤ u64_max ∧ ∀ e, e ∈ offered ops → seq e < u64_max.

#[export] Instance ops_ok_dec ops : Decision (ops_ok ops).
Proof.
  unfold ops_ok. apply and_dec; [apply _|].
  destruct (decide (Forall (λ e, seq e < u64_max) (offered ops))) as [H|H].
  - left. by rewrite Forall_forall in H.
  - right. intros Ha. by apply H, Forall_forall.
Defined.

Lemma offered_snoc ops op : offered (ops ++ [op]) = offered ops ++ offered_by op.
Proof. unfold offered. rewrite fmap_app, concat_app. simpl. by rewrite app_nil_r. Qed.

Lemma ops_ok_snoc ops op :
  ops_ok (ops ++ [op]) →
  ops_ok ops ∧
  N.of_nat (length (offered ops)) + N.of_nat (length (offered_by op)) ≤ u64_max ∧
  ∀ e, e ∈ offered_by op → seq e < u64_max.
Proof.
  unfold ops_ok. rewrite offered_snoc, length_app. intros [H1 H2].
  split_and!; [lia| |lia|]; intros e He; apply H2, elem_of_app; auto.
Qed.

(** ** The invariant *)

Lemma floor_after_le es (f n : N) :
  floor_after es f ≤ n ↔ f ≤ n ∧ ∀ e, e ∈ es → sat_add (seq e) 1 ≤ n.
Proof.
  revert f. induction es as [|e es IH]; intros f; simpl.
  - split; [|tauto]. intros H. split; [done|]. by intros e ?%elem_of_nil.
  - unfold floor_after in *. simpl. rewrite IH. setoid_rewrite elem_of_cons. split.
    + intros [H1 H2]. split; [lia|]. intros e' [->|He']; [lia|auto].
    + intros [H1 H2]. split; [|auto]. specialize (H2 e (or_introl eq_refl)). lia.
Qed.

Lemma union_ascending s batch :
  ascending seq (entries (inner s)) → ascending seq (union_of (admissible s batch) s).
Proof.
  intros Hs. apply merge_by_key_ascending; [done|by apply admissible_ascending|].
  intros x y. by apply admissible_disjoint.
Qed.

(** What left the ring is below what stayed. *)
Lemma overflow_below recv adm s s' x y :
  merged recv adm s s' → ascending seq (union_of adm s) →
  x ∈ overflow adm s → y ∈ entries (inner s') → seq x < seq y.
Proof.
  intros M Ha Hx Hy. rewrite (mg_entries _ _ _ _ M) in Hy.
  by eapply (ascending_take_drop seq).
Qed.

Lemma overflow_or_kept recv adm s s' x :
  merged recv adm s s' → x ∈ union_of adm s ↔ x ∈ overflow adm s ∨ x ∈ entries (inner s').
Proof.
  intros M. rewrite (mg_entries _ _ _ _ M). unfold overflow, last_n.
  by rewrite <-elem_of_app, take_drop.
Qed.

Lemma merged_wf recv batch s s' :
  store_wf s → merged recv (admissible s batch) s s' →
  (∀ e, e ∈ batch → seq e < u64_max) → store_wf s'.
Proof.
  intros [Hwf Hcap Hfl Hsq] M Hb. pose proof (wl_asc _ _ Hwf) as Hs.
  pose proof (union_ascending s batch Hs) as Ha.
  assert (Hu : ∀ e, e ∈ union_of (admissible s batch) s → refuse_below s ≤ seq e ∧ seq e < u64_max).
  { intros e [He|He]%elem_of_merge_by_key; [auto|].
    apply elem_of_admissible in He as (? & _ & ?); auto. }
  assert (Hsub : ∀ e, e ∈ entries (inner s') → e ∈ union_of (admissible s batch) s)
    by (intros e ?; eapply overflow_or_kept; eauto).
  constructor.
  - apply M.
  - rewrite (mg_entries _ _ _ _ M), (mg_cap _ _ _ _ M). unfold last_n. rewrite length_drop. lia.
  - intros e He. destruct (Hu e) as [Hr _]; [auto|]. unfold refuse_below in *.
    rewrite (mg_admit _ _ _ _ M), (mg_floor _ _ _ _ M).
    apply N.max_lub; [|lia]. apply floor_after_le. split; [lia|].
    intros x Hx. pose proof (overflow_below _ _ _ _ x e M Ha Hx He). unfold sat_add. lia.
  - intros e He. by apply Hu, Hsub.
Qed.

Lemma new_wf cap : store_wf (new cap).
Proof.
  constructor; simpl; [|lia|by intros e ?%elem_of_nil..].
  constructor; simpl; [apply ascending_nil|done|by intros; rewrite !lookup_empty|].
  intros q n. by rewrite lookup_empty.
Qed.

Lemma clear_wf s : store_wf (clear_locked s).
Proof.
  constructor; simpl; [|lia|by intros e ?%elem_of_nil..].
  constructor; simpl; [apply ascending_nil|done|by intros; rewrite !lookup_empty|].
  intros q n. by rewrite lookup_empty.
Qed.

(** Two merges of records newer than the whole ring agree. *)
Lemma merged_newest_unique recv e batch s s1 s2 :
  batch = [e] → ascending seq (entries (inner s)) → is_newest e s →
  merged recv (admissible s batch) s s1 → merged recv (admissible s batch) s s2 → s1 = s2.
Proof.
  intros -> Hs Hn M1 M2.
  assert (Hnb : ∀ q, q ∈ seqs (admissible s [e]) → ¬ below_newest s q).
  { intros q (x & Hx & <-)%elem_of_seqs. apply elem_of_admissible in Hx as (Hx & _); [|done].
    apply list_elem_of_singleton in Hx as ->. by apply is_newest_not_below. }
  apply store_ext.
  - by rewrite (mg_entries _ _ _ _ M1), (mg_entries _ _ _ _ M2).
  - apply M1.
  - apply M2.
  - intros q. destruct (decide (q ∈ seqs (admissible s [e]))) as [Hq|Hq].
    + rewrite (mg_late_none _ _ _ _ M1), (mg_late_none _ _ _ _ M2); auto.
    + by rewrite (mg_late_old _ _ _ _ M1), (mg_late_old _ _ _ _ M2).
  - by rewrite (mg_counter_same _ _ _ _ M1), (mg_counter_same _ _ _ _ M2).
  - unfold meta. by rewrite (mg_cap _ _ _ _ M1), (mg_cap _ _ _ _ M2), (mg_admit _ _ _ _ M1),
      (mg_admit _ _ _ _ M2), (mg_stored _ _ _ _ M1), (mg_stored _ _ _ _ M2),
      (mg_received _ _ _ _ M1), (mg_received _ _ _ _ M2), (mg_malformed _ _ _ _ M1),
      (mg_malformed _ _ _ _ M2).
  - by rewrite (mg_floor _ _ _ _ M1), (mg_floor _ _ _ _ M2).
Qed.

(** One writer call: a merge of its admissible records, or a clear. *)
Lemma op_merged op s :
  store_wf s → late_counter (inner s) + N.of_nat (length (offered_by op)) ≤ u64_max →
  is_clear op = false → op ≠ OpMalformed →
  ∃ recv, merged recv (admissible s (offered_by op)) s (apply_op s op).
Proof.
  intros Hs Hc Hn Hm. destruct op as [e|batch| | |]; try done; simpl in *; eexists.
  - apply append_merged; [done|lia].
  - apply merge_effect; [done|]. pose proof (length_admissible_le s batch). lia.
Qed.

Lemma apply_op_wf op s :
  store_wf s → late_counter (inner s) + N.of_nat (length (offered_by op)) ≤ u64_max →
  (∀ e, e ∈ offered_by op → seq e < u64_max) →
  store_wf (apply_op s op) ∧
  late_counter (inner (apply_op s op)) ≤
    late_counter (inner s) + N.of_nat (length (offered_by op)).
Proof.
  intros Hs Hc Hb.
  destruct (is_clear op) eqn:Ec.
  { assert (late_counter (inner (apply_op s op)) = late_counter (inner s)) as ->
      by (destruct op; try done; simpl; unfold clear_locked; by destruct (last _)).
    split; [|lia]. pose proof (clear_wf s) as Hw. destruct op; try done.
    destruct Hw as [W1 W2 W3 W4]. constructor; try done. by intros e ?%elem_of_nil. }
  destruct (decide (op = OpMalformed)) as [->|Hm].
  { split; [|simpl; lia]. destruct Hs. by constructor. }
  destruct (op_merged op s Hs Hc Ec Hm) as [recv M].
  split; [by eapply merged_wf|].
  pose proof (mg_counter _ _ _ _ M). pose proof (length_admissible_le s (offered_by op)). lia.
Qed.

Lemma run_snoc ops op s : run_ops (ops ++ [op]) s = apply_op (run_ops ops s) op.
Proof. unfold run_ops. by rewrite foldl_app. Qed.

Lemma run_wf_counter cap ops :
  ops_ok ops →
  store_wf (run_ops ops (new cap)) ∧
  late_counter (inner (run_ops ops (new cap))) ≤ N.of_nat (length (offered ops)).
Proof.
  induction ops as [|op ops IH] using rev_ind; intros Hok.
  { split; [apply new_wf|simpl; lia]. }
  apply ops_ok_snoc in Hok as (Hok & Hlen & Hsq).
  destruct (IH Hok) as [Hwf Hc]. rewrite run_snoc.
  destruct (apply_op_wf op _ Hwf) as [Hwf' Hc']; [lia|done|].
  split; [done|]. rewrite offered_snoc, length_app. lia.
Qed.

Lemma run_cap cap ops : ops_ok ops → max_capacity (run_ops ops (new cap)) = cap.
Proof.
  induction ops as [|op ops IH] using rev_ind; intros Hok; [done|].
  pose proof Hok as (Hok' & Hlen & _)%ops_ok_snoc.
  destruct (run_wf_counter cap ops Hok') as [Hwf Hc]. rewrite run_snoc.
  trans (max_capacity (run_ops ops (new cap))); [clear IH|by apply IH].
  destruct (is_clear op) eqn:Ec.
  { destruct op; try done; simpl; unfold clear_locked; by destruct (last _). }
  destruct (decide (op = OpMalformed)) as [->|Hm]; [done|].
  destruct (op_merged op (run_ops ops (new cap)) Hwf) as [recv M]; [lia|done..|]. apply M.
Qed.

(** A step of a run, as a merge. *)
Lemma run_step_merged cap ops op :
  ops_ok (ops ++ [op]) → is_clear op = false → op ≠ OpMalformed →
  ∃ recv, merged recv (admissible (run_ops ops (new cap)) (offered_by op))
            (run_ops ops (new cap)) (run_ops (ops ++ [op]) (new cap)).
Proof.
  intros (Hok & Hlen & Hsq)%ops_ok_snoc Hn Hm. rewrite run_snoc.
  destruct (run_wf_counter cap ops Hok) as [Hwf Hc].
  apply op_merged; [done|lia|done..].
Qed.

(** ** Floors *)

Lemma floor_after_app es1 es2 f :
  floor_after (es1 ++ es2) f = floor_after es2 (floor_after es1 f).
Proof. apply foldl_app. Qed.

Lemma floor_after_ge es f : f ≤ floor_after es f.
Proof. by apply (floor_after_le es f (floor_after es f)). Qed.

Lemma refuse_below_mono op s :
  store_wf s → late_counter (inner s) + N.of_nat (length (offered_by op)) ≤ u64_max →
  refuse_below s ≤ refuse_below (apply_op s op).
Proof.
  intros Hs Hc. destruct (is_clear op) eqn:Ec.
  { unfold refuse_below. destruct op; try done; simpl; unfold clear_locked;
      destruct (last _); simpl; lia. }
  destruct (decide (op = OpMalformed)) as [->|Hm]; [done|].
  destruct (op_merged op s Hs Hc Ec Hm) as [recv M]. unfold refuse_below.
  rewrite (mg_floor _ _ _ _ M), (mg_admit _ _ _ _ M).
  pose proof (floor_after_ge (overflow (admissible s (offered_by op)) s) (lost_below s)). lia.
Qed.

Definition accounted (s : InMemoryStore) (e : LogEntry) : Prop :=
  seq e ∈ seqs (entries (inner s)) ∨ seq e < refuse_below s.

(** An offered record is in the union under its seq, or refused. *)
Lemma offered_in_union batch s e :
  ascending seq (entries (inner s)) → e ∈ batch →
  seq e ∈ seqs (union_of (admissible s batch) s) ∨ seq e < refuse_below s.
Proof.
  intros Hs Hin. destruct (decide (seq e ∈ seqs (entries (inner s)))) as [Hin'|Hnin].
  { left. apply elem_of_seqs in Hin' as (x & Hx & Hq). apply elem_of_seqs. exists x.
    split; [|done]. apply elem_of_merge_by_key. by left. }
  destruct (decide (refuse_below s ≤ seq e)); [|right; lia]. left.
  destruct (find_key seq (seq e) batch) as [x|] eqn:Ef.
  2: { by eapply find_key_None in Ef. }
  rewrite <-(find_key_sort_dedup seq) in Ef.
  apply find_key_Some in Ef as [Hx Hq]. apply elem_of_seqs. exists x.
  split; [|done]. apply elem_of_merge_by_key. right.
  unfold admissible, not_held. rewrite !elem_of_lfilter. split_and!; [|  |done].
  - apply N.leb_le. lia.
  - apply negb_true_iff, not_true_iff_false. rewrite holds_spec by done. by rewrite Hq.
Qed.

Lemma merged_accounted recv batch s s' e :
  store_wf s → merged recv (admissible s batch) s s' →
  (∀ x, x ∈ batch → seq x < u64_max) →
  accounted s e ∨ e ∈ batch → accounted s' e.
Proof.
  intros [Hwf Hcap Hfl Hsq] M Hb He. pose proof (wl_asc _ _ Hwf) as Hs.
  assert (refuse_below s ≤ refuse_below s') as Hr.
  { unfold refuse_below. rewrite (mg_floor _ _ _ _ M), (mg_admit _ _ _ _ M).
    pose proof (floor_after_ge (overflow (admissible s batch) s) (lost_below s)). lia. }
  assert (seq e ∈ seqs (union_of (admissible s batch) s) ∨ seq e < refuse_below s) as [Hu|?].
  { destruct He as [[Hin|]|Hin]; [|by right|].
    - left. apply elem_of_seqs in Hin as (x & Hx & Hq). apply elem_of_seqs. exists x.
      split; [|done]. apply elem_of_merge_by_key. by left.
    - by apply offered_in_union. }
  2: { right. lia. }
  apply elem_of_seqs in Hu as (x & Hx & Hq).
  apply (overflow_or_kept _ _ _ _ x M) in Hx as [Hx|Hx].
  - right. unfold refuse_below. rewrite (mg_floor _ _ _ _ M).
    assert (seq x < u64_max).
    { apply subseteq_take, elem_of_merge_by_key in Hx as [Hx|Hx]; [auto|].
      apply elem_of_admissible in Hx as (? & _); auto. }
    pose proof (proj2 (proj1 (floor_after_le _ (lost_below s) _)
      (N.le_refl (floor_after (overflow (admissible s batch) s) (lost_below s)))) x Hx).
    unfold sat_add in *. lia.
  - left. apply elem_of_seqs. eauto.
Qed.

Lemma clear_accounted s e : store_wf s → accounted s e → accounted (clear_locked s) e.
Proof.
  intros [Hwf _ _ Hsq] [Hin|Hlt].
  - apply elem_of_seqs in Hin as (x & Hx & Hq). right. rewrite <-Hq.
    unfold clear_locked, refuse_below.
    destruct (last (entries (inner s))) as [newest|] eqn:El; simpl.
    + pose proof (ascending_last seq _ _ _ (wl_asc _ _ Hwf) El Hx).
      apply last_Some_elem_of, Hsq in El. unfold sat_add. lia.
    + apply last_None in El. rewrite El in Hx. by apply elem_of_nil in Hx.
  - right. unfold refuse_below, clear_locked in *. destruct (last _); simpl; lia.
Qed.

Lemma apply_op_accounted op s e :
  store_wf s → late_counter (inner s) + N.of_nat (length (offered_by op)) ≤ u64_max →
  (∀ x, x ∈ offered_by op → seq x < u64_max) →
  accounted s e ∨ e ∈ offered_by op → accounted (apply_op s op) e.
Proof.
  intros Hs Hc Hb He.
  destruct (is_clear op) eqn:Ec.
  { pose proof (clear_accounted s e Hs) as Ha.
    destruct op as [| | |n|]; try done; destruct He as [He|He];
      try (by apply elem_of_nil in He); simpl; [by apply Ha|].
    destruct (Ha He) as [Hin|Hlt]; [by left|right].
    assert (refuse_below (clear_through n s) = N.max (refuse_below (clear_locked s)) (sat_add n 1))
      as -> by (unfold refuse_below; simpl; by rewrite N.max_assoc).
    lia. }
  destruct (decide (op = OpMalformed)) as [->|Hm].
  { destruct He as [He|He]; [done|by apply elem_of_nil in He]. }
  destruct (op_merged op s Hs Hc Ec Hm) as [recv M]. by eapply merged_accounted.
Qed.

(** ** The contents of a ring that is never cleared *)

Definition ring_floor (cap : nat) (all : list LogEntry) : N :=
  floor_after (take (length all - cap) all) 0.

Record ring_of (cap : nat) (all : list LogEntry) (s : InMemoryStore) : Prop := {
  ro_entries : entries (inner s) = last_n cap all;
  ro_floor : lost_below s = ring_floor cap all;
  ro_admit : admit_from s = 0;
  ro_cap : max_capacity s = cap;
}.

(** Both sides are ascending and agree at every seq: the first offer wins. *)
Lemma sort_dedup_app all batch fresh :
  ascending seq all → ascending seq fresh → disjoint_seqs all fresh →
  (∀ q, find_key seq q fresh =
     match find_key seq q all with Some _ => None | None => find_key seq q batch end) →
  ∀ es, all = sort_dedup seq es → sort_dedup seq (es ++ batch) = merge_by_key seq all fresh.
Proof.
  intros Ha Hf Hd Hk es ->. symmetry. apply (merge_by_key_ext seq); try done.
  { apply sort_dedup_ascending. }
  intros x.
  assert (Hx : ∀ l, ascending seq l → x ∈ l ↔ find_key seq (seq x) l = Some x).
  { intros l Hl. split; [intros; by apply find_key_ascending|by intros [? _]%find_key_Some]. }
  rewrite !Hx by (try apply sort_dedup_ascending; done).
  rewrite Hk, !(find_key_sort_dedup seq), find_key_app. destruct (find_key seq (seq x) es); naive_solver.
Qed.

Lemma last_n_app (cap : nat) (l1 l2 : list LogEntry) :
  l1 = [] ∨ (cap ≤ length l2)%nat →
  last_n cap (l1 ++ l2) = last_n cap l2 ∧
  take (length (l1 ++ l2) - cap) (l1 ++ l2) = l1 ++ take (length l2 - cap) l2.
Proof.
  unfold last_n. intros [->|Hc]; [done|]. rewrite length_app.
  replace (length l1 + length l2 - cap)%nat with (length l1 + (length l2 - cap))%nat by lia.
  split; [by rewrite drop_app_add|]. apply take_app_add.
Qed.

(** The new records of a batch, and those of them the floor refuses. *)
Definition fresh_of (all batch : list LogEntry) : list LogEntry :=
  filter (λ e, find_key seq (seq e) all = None) (sort_dedup seq batch).
Definition refused_of (f : N) (all batch : list LogEntry) : list LogEntry :=
  filter (λ e, seq e < f) (fresh_of all batch).

Lemma fresh_of_find all batch q :
  find_key seq q (fresh_of all batch) =
    match find_key seq q all with Some _ => None | None => find_key seq q batch end.
Proof.
  unfold fresh_of. rewrite (find_key_filter seq).
  2: { intros x y Hxy. by rewrite Hxy. }
  rewrite (find_key_sort_dedup seq). destruct (find_key seq q batch) as [x|] eqn:E.
  - apply find_key_Some in E as [_ <-]. case_decide as Hx.
    + by rewrite Hx.
    + by destruct (find_key seq (seq x) all).
  - by destruct (find_key seq q all).
Qed.

Lemma fresh_of_disjoint all batch : disjoint_seqs all (fresh_of all batch).
Proof.
  intros x y Hx [Hy _]%list_elem_of_filter Hxy.
  exact (proj1 (find_key_None seq _ _) Hy x Hx Hxy).
Qed.

Section ring_step.
Context (cap : nat) (all batch : list LogEntry) (s : InMemoryStore).
Hypotheses (Hall : ascending seq all) (Hbound : ∀ e, e ∈ all → seq e < u64_max)
  (Hwf : store_wf s) (Hring : ring_of cap all s).
Let gone := take (length all - cap) all.
Let low := refused_of (ring_floor cap all) all batch.

Lemma ring_refuse : refuse_below s = ring_floor cap all.
Proof using Hring.
  destruct Hring as [_ Hf Ha _]. unfold refuse_below. rewrite Hf, Ha. lia.
Qed.

Lemma gone_below e : e ∈ gone → seq e < ring_floor cap all.
Proof using Hbound.
  intros He.
  pose proof (proj2 (proj1 (floor_after_le gone 0 _) (N.le_refl _)) e He) as Hle.
  apply subseteq_take, Hbound in He. unfold sat_add, ring_floor in *. fold gone. lia.
Qed.

Lemma ring_all : all = gone ++ entries (inner s).
Proof using Hring. rewrite (ro_entries _ _ _ Hring). symmetry. apply take_drop. Qed.

Lemma ring_admissible e :
  e ∈ admissible s batch ↔ e ∈ fresh_of all batch ∧ ring_floor cap all ≤ seq e.
Proof using Hwf Hring Hbound.
  pose proof (wl_asc _ _ (wf_inner _ Hwf)) as Hs. unfold admissible, not_held, fresh_of.
  rewrite !elem_of_lfilter, list_elem_of_filter, ring_refuse, N.leb_le, negb_true_iff.
  rewrite <-not_true_iff_false, holds_spec by done.
  rewrite (find_key_None seq). split; intros H; (destruct_and!; split_and!; try done).
  - rewrite ring_all. intros x [Hx%gone_below|Hx]%elem_of_app Hq; [lia|].
    match goal with H : seq e ∉ _ |- _ => apply H end. apply elem_of_seqs. eauto.
  - intros (x & Hx & Hq)%elem_of_seqs.
    match goal with H : ∀ x, x ∈ all → _ |- _ => apply (H x) end; [|done].
    rewrite ring_all. apply elem_of_app. by right.
Qed.

Lemma ring_union :
  merge_by_key seq all (fresh_of all batch) =
    merge_by_key seq gone low ++ union_of (admissible s batch) s.
Proof using Hwf Hring Hbound Hall.
  pose proof (wl_asc _ _ (wf_inner _ Hwf)) as Hs.
  assert (Hfr : ascending seq (fresh_of all batch))
    by apply ascending_filter, sort_dedup_ascending.
  apply (merge_by_key_ext seq); [done|done| |apply fresh_of_disjoint|].
  - apply ascending_app. split_and!.
    + apply merge_by_key_ascending; [by apply ascending_take|by apply ascending_filter|].
      intros x y Hx%subseteq_take [_ Hy]%list_elem_of_filter. by apply (fresh_of_disjoint all batch).
    + by apply union_ascending.
    + intros x y Hx Hy.
      assert (seq x < ring_floor cap all).
      { apply elem_of_merge_by_key in Hx as [Hx%gone_below|[? _]%list_elem_of_filter]; done. }
      assert (ring_floor cap all ≤ seq y); [|lia].
      apply elem_of_merge_by_key in Hy as [Hy%(wf_floor _ Hwf)|[_ Hy]%ring_admissible]; [|done].
      by rewrite ring_refuse in Hy.
  - intros x. rewrite elem_of_app. unfold union_of, low, refused_of.
    rewrite !elem_of_merge_by_key, ring_admissible, list_elem_of_filter.
    assert (x ∈ all ↔ x ∈ gone ∨ x ∈ entries (inner s)) as Hx
      by (rewrite <-elem_of_app, <-ring_all; done).
    destruct (decide (seq x < ring_floor cap all)); [naive_solver|].
    assert (ring_floor cap all ≤ seq x) by lia. naive_solver.
Qed.

Lemma ring_step recv s' :
  merged recv (admissible s batch) s s' →
  ring_of cap (merge_by_key seq all (fresh_of all batch)) s'.
Proof using Hwf Hring Hbound Hall.
  intros M. pose proof Hring as [He Hf Had Hc].
  assert (Hlow : ∀ e, e ∈ low → seq e < ring_floor cap all)
    by (by intros e [? _]%list_elem_of_filter).
  destruct (last_n_app cap (merge_by_key seq gone low) (union_of (admissible s batch) s))
    as [HL HT].
  { destruct gone as [|g gs] eqn:Eg.
    - left. destruct low as [|x xs]; [done|].
      specialize (Hlow x ltac:(by left)). unfold ring_floor in Hlow. fold gone in Hlow.
      rewrite Eg in Hlow. simpl in Hlow. lia.
    - right. unfold union_of. rewrite length_merge_by_key, He. unfold last_n.
      rewrite length_drop. subst gone.
      assert (length (take (length all - cap) all) ≠ 0%nat) by by rewrite Eg.
      rewrite length_take in *. lia. }
  constructor.
  - by rewrite (mg_entries _ _ _ _ M), ring_union, HL, Hc.
  - rewrite (mg_floor _ _ _ _ M). unfold ring_floor at 1. rewrite ring_union, HT, Hf.
    unfold overflow. rewrite Hc, floor_after_app. f_equal.
    apply N.le_antisymm; apply floor_after_le.
    + split; [apply N.le_0_l|]. intros e Hg.
      apply (floor_after_le (merge_by_key seq gone low) 0 (floor_after (merge_by_key seq gone low) 0)); [done|].
      apply elem_of_merge_by_key. by left.
    + split; [apply N.le_0_l|].
      intros e [Hg%gone_below|Hl%Hlow]%elem_of_merge_by_key; unfold sat_add; lia.
  - by rewrite (mg_admit _ _ _ _ M).
  - by rewrite (mg_cap _ _ _ _ M).
Qed.
End ring_step.

Lemma run_ring cap ops :
  ops_ok ops → existsb is_clear ops = false →
  ring_of cap (sort_dedup seq (offered ops)) (run_ops ops (new cap)).
Proof.
  induction ops as [|op ops IH] using rev_ind; intros Hok Hnc; [by constructor|].
  rewrite existsb_app in Hnc. simpl in Hnc. bool_to_prop.
  pose proof Hok as (Hok' & _ & _)%ops_ok_snoc.
  destruct (run_wf_counter cap ops Hok') as [Hwf _].
  specialize (IH Hok' ltac:(done)). rewrite offered_snoc.
  destruct (decide (op = OpMalformed)) as [->|Hm].
  { simpl. rewrite app_nil_r, run_snoc. by destruct IH. }
  destruct (run_step_merged cap ops op Hok) as [recv M]; [done..|].
  set (all := sort_dedup seq (offered ops)) in *.
  assert (Ha : ascending seq all) by apply sort_dedup_ascending.
  rewrite (sort_dedup_app all (offered_by op) (fresh_of all (offered_by op))); try done.
  - apply (ring_step cap all (offered_by op) (run_ops ops (new cap))) with recv; try done.
    intros e He%elem_of_sort_dedup. by apply Hok'.
  - by apply ascending_filter, sort_dedup_ascending.
  - apply fresh_of_disjoint.
  - apply fresh_of_find.
Qed.

(** ** The properties *)

(** C5: a ring that is only written to by [append] and [insert_sorted] holds exactly the
    [max_capacity] highest distinct seqs it was ever offered, in ascending
    order, whatever order and batches they arrived in (the first record
    offered under a seq is the one kept), and its floor is exactly one past
    the highest seq it dropped. *)
Theorem ring_contents cap ops :
  ops_ok ops → existsb is_clear ops = false →
  let all := sort_dedup seq (offered ops) in
  let s := run_ops ops (new cap) in
  entries (inner s) = last_n cap all ∧
  lost_below s = ring_floor cap all.
Proof. intros Hok Hnc. by destruct (run_ring cap ops Hok Hnc). Qed.

(** Every state a run reaches is well formed: seqs strictly ascending,
    the trace index exactly the held records' seqs per trace, the two late
    maps inverse to one another and about held records, at most
    [max_capacity] records, none below the floors. *)
Theorem run_invariant cap ops : ops_ok ops → store_wf (run_ops ops (new cap)).
Proof. intros Hok. by destruct (run_wf_counter cap ops Hok). Qed.

(** No record is lost silently: after any run, clears included, every
    record ever offered is held or below the floor the store refuses at. *)
Theorem run_accounts cap ops e :
  ops_ok ops → e ∈ offered ops → accounted (run_ops ops (new cap)) e.
Proof.
  induction ops as [|op ops IH] using rev_ind; intros Hok He; [by apply elem_of_nil in He|].
  apply ops_ok_snoc in Hok as (Hok & Hlen & Hsq).
  destruct (run_wf_counter cap ops Hok) as [Hwf Hc].
  rewrite run_snoc. rewrite offered_snoc in He. apply elem_of_app in He.
  apply apply_op_accounted; [done|lia|done|naive_solver].
Qed.

Lemma refuse_below_run cap ops ops' :
  ops_ok (ops ++ ops') → refuse_below (run_ops ops (new cap)) ≤ refuse_below (run_ops (ops ++ ops') (new cap)).
Proof.
  induction ops' as [|op ops' IH] using rev_ind; intros Hok; [by rewrite app_nil_r|].
  rewrite app_assoc in Hok |- *. pose proof Hok as (Hok' & Hlen & _)%ops_ok_snoc.
  destruct (run_wf_counter cap _ Hok') as [Hwf Hc].
  etrans; [by apply IH|]. rewrite (run_snoc (ops ++ ops')).
  apply refuse_below_mono; [done|lia].
Qed.

(** Once a domain's logs are cleared through seq [n], no record at or
    below [n] is ever held again, however late it arrives. *)
Theorem clear_through_bars cap ops n ops' e :
  ops_ok (ops ++ OpClearThrough n :: ops') → n ≤ u64_max →
  e ∈ entries (inner (run_ops (ops ++ OpClearThrough n :: ops') (new cap))) → n < seq e.
Proof.
  intros Hok Hn He.
  destruct (run_wf_counter cap _ Hok) as [[_ _ Hf Hq] _].
  specialize (Hf e He). specialize (Hq e He).
  rewrite cons_middle, app_assoc in Hok, Hf.
  pose proof (refuse_below_run cap _ _ Hok) as Hm. rewrite run_snoc in Hm.
  assert (sat_add n 1 ≤ refuse_below (apply_op (run_ops ops (new cap)) (OpClearThrough n))).
  { unfold refuse_below. simpl. lia. }
  unfold sat_add in *. lia.
Qed.

(** [append] is [insert_sorted] of one record: the fast path and the merge
    leave the same state, indices, floors and counters included. *)
Theorem append_is_insert e s :
  store_wf s → late_counter (inner s) < u64_max → append e s = (insert_sorted [e] s).1.
Proof.
  intros Hs Hc. pose proof (append_merged e s Hs Hc) as MA.
  assert (merged (length (not_held s [e])) (admissible s [e]) s (insert_sorted [e] s).1) as MI.
  { apply merge_effect; [done|]. pose proof (length_admissible_le s [e]). simpl in *. lia. }
  destruct (match last (entries (inner s)) with Some newest => seq e <=? seq newest | None => false end)
    eqn:El.
  { unfold append, insert_sorted. by rewrite El. }
  apply is_newest_last in El; [|apply (wl_asc _ _ (wf_inner _ Hs))].
  apply (merged_newest_unique _ e [e] s _ _ eq_refl (wl_asc _ _ (wf_inner _ Hs)) El MA MI).
Qed.

(** ** Readers *)

(** [range_with_floor] is the scan [from <= seq <= to] (empty for a reversed
    range) although it computes two binary searches, and it reports the
    floor of the same state. *)
Theorem range_is_scan from to s :
  store_wf s →
  range_with_floor from to s =
    (List.filter (λ e, (from <=? seq e) && (seq e <=? to)) (entries (inner s)), lost_below s).
Proof.
  intros [[Hs _ _ _] _ _ _]. unfold range_with_floor. f_equal.
  set (es := entries (inner s)) in *.
  assert (Hlo : ∀ (i : nat) e, es !! i = Some e →
    (i < partition_point (λ e, (seq e <? from)%N) es)%nat ↔ seq e < from).
  { intros i e Hi. rewrite (partition_point_lookup seq (λ n, n <? from) es i e Hs), N.ltb_lt; [done| |done].
    intros a b ??; bool_to_prop. apply N.ltb_lt. lia. }
  assert (Hhi : ∀ (i : nat) e, es !! i = Some e →
    (i < partition_point (λ e, (seq e <=? to)%N) es)%nat ↔ seq e ≤ to).
  { intros i e Hi. rewrite (partition_point_lookup seq (λ n, n <=? to) es i e Hs), N.leb_le; [done| |done].
    intros a b ??; bool_to_prop. apply N.leb_le. lia. }
  set (a := partition_point _ es) in *. set (b := partition_point _ es) in *.
  apply (ascending_ext seq).
  - by apply ascending_take, ascending_drop.
  - by apply ascending_lfilter.
  - intros e. rewrite elem_of_lfilter, andb_true_iff, !N.leb_le. split.
    + intros (i & Hi & Hlt)%elem_of_take. rewrite lookup_drop in Hi.
      pose proof (Hlo _ _ Hi). pose proof (Hhi _ _ Hi).
      split; [lia|by eapply list_elem_of_lookup_2].
    + intros [Hr (i & Hi)%list_elem_of_lookup].
      pose proof (Hlo _ _ Hi). pose proof (Hhi _ _ Hi).
      apply elem_of_take. exists (i - a)%nat. rewrite lookup_drop.
      replace (a + (i - a))%nat with i by lia. split; [done|lia].
Qed.

(** The records of a trace, reached through the trace index, are the held
    records that carry the trace id, in seq order; and the count is theirs. *)
Theorem trace_lookup_is_scan t s :
  store_wf s →
  logs_by_trace_id t s = filter (λ e, trace_id e = Some t) (entries (inner s)) ∧
  count_by_trace_id t s = length (logs_by_trace_id t s).
Proof.
  intros [[Hs Ht _ _] _ _ _]. unfold logs_by_trace_id, count_by_trace_id. rewrite Ht.
  set (es := entries (inner s)) in *.
  assert (Hmap : ∀ l, l ⊆ es → omap (entry_at (inner s)) (seqs l) = l).
  { induction l as [|e l IH]; intros Hl; [done|]. simpl.
    rewrite position_find by done.
    rewrite (find_key_ascending seq _ _ e) by (try done; apply Hl; by left).
    f_equal. apply IH. intros x Hx. apply Hl. by right. }
  assert (omap (entry_at (inner s)) (trace_list t es) = filter (λ e, trace_id e = Some t) es) as Ho.
  { apply Hmap. intros x [_ Hx]%list_elem_of_filter. done. }
  unfold trace_list in *. destruct (filter (λ e, trace_id e = Some t) es) as [|e l] eqn:E; [done|].
  simpl list_opt. rewrite <-Ho at 1. split; [done|].
  change (list_fmap LogEntry N seq l) with (seqs l) in *. cbn in Ho |- *. rewrite Ho. simpl.
  by rewrite length_fmap.
Qed.
End spec.

(** ** The properties at concrete inputs *)

(** Six records out of order, one of them late and one twice, on a ring of three. *)
Definition sample_ops : list StoreOp :=
  [OpAppend (traced 7 (log_at 4 "a")); OpAppend (log_at 9 "b");
   OpInsertSorted [log_at 6 "c"; traced 7 (log_at 5 "d"); log_at 6 "dup"];
   OpAppend (log_at 2 "e"); OpMalformed].

Lemma ring_contents_witness :
  ops_ok sample_ops ∧ existsb is_clear sample_ops = false ∧
  entries (inner (run_ops sample_ops (new 3))) = last_n 3 (sort_dedup seq (offered sample_ops)) ∧
  seq <$> entries (inner (run_ops sample_ops (new 3))) = [5; 6; 9] ∧
  lost_below (run_ops sample_ops (new 3)) = 5.
Proof.
  assert (ops_ok sample_ops) as Hok by by_eval.
  split; [done|]. split; [done|].
  split; [apply (ring_contents 3 sample_ops Hok eq_refl)|]. by vm_compute.
Defined.

Lemma run_invariant_witness : ops_ok sample_ops ∧ store_wf (run_ops sample_ops (new 3)).
Proof.
  assert (ops_ok sample_ops) as Hok by by_eval. split; [done|]. by apply run_invariant.
Defined.

Lemma run_accounts_witness :
  ops_ok sample_ops ∧ accounted (run_ops sample_ops (new 3)) (log_at 2 "e").
Proof.
  assert (ops_ok sample_ops) as Hok by by_eval. split; [done|].
  apply run_accounts; [done|]. repeat first [left|right].
Defined.

Definition sample_clear : list StoreOp :=
  sample_ops ++ [OpClearThrough 12; OpAppend (log_at 11 "late"); OpAppend (log_at 13 "new")].

Lemma clear_through_bars_witness :
  ops_ok sample_clear ∧ 12 ≤ u64_max ∧ 12 < seq (log_at 13 "new").
Proof.
  assert (ops_ok sample_clear) as Hok by by_eval. split; [done|]. split; [done|].
  apply (clear_through_bars 3 sample_ops 12 [OpAppend (log_at 11 "late"); OpAppend (log_at 13 "new")]);
    [done|done|]. vm_compute. left.
Defined.

Lemma append_is_insert_witness :
  store_wf (run_ops sample_ops (new 3)) ∧
  late_counter (inner (run_ops sample_ops (new 3))) < u64_max ∧
  append (log_at 10 "x") (run_ops sample_ops (new 3)) =
    (insert_sorted [log_at 10 "x"] (run_ops sample_ops (new 3))).1.
Proof.
  assert (store_wf (run_ops sample_ops (new 3))) as Hwf by (apply run_wf_counter; by_eval).
  assert (late_counter (inner (run_ops sample_ops (new 3))) < u64_max) as Hc by by vm_compute.
  split; [done|]. split; [done|]. by apply append_is_insert.
Defined.

Lemma range_is_scan_witness :
  store_wf (run_ops sample_ops (new 3)) ∧
  seq <$> (range_with_floor 6 9 (run_ops sample_ops (new 3))).1 = [6; 9].
Proof.
  assert (store_wf (run_ops sample_ops (new 3))) as Hwf by (apply run_wf_counter; by_eval).
  split; [done|]. rewrite (range_is_scan 6 9 _ Hwf). by vm_compute.
Defined.

Lemma trace_lookup_is_scan_witness :
  store_wf (run_ops sample_ops (new 3)) ∧
  count_by_trace_id 7 (run_ops sample_ops (new 3)) = 1%nat.
Proof.
  assert (store_wf (run_ops sample_ops (new 3))) as Hwf by (apply run_wf_counter; by_eval).
  split; [done|]. rewrite (proj2 (trace_lookup_is_scan 7 _ Hwf)).
  rewrite (proj1 (trace_lookup_is_scan 7 _ Hwf)). by vm_compute.
Defined.
