(* ===== verification/Cursor.v ===== *)
(** * Cursor: cursor reads of the log ring ([store/memory.rs])

    [cursor_read] takes the records stored late since the cursor's mark, then the
    records above its position; [advance_for] is the position the caller commits
    for the prefix it keeps. *)

From S2P Require Import Prelude Text F64 Gelf Filter Matcher MemStore.

Set Default Proof Using "Type".
Local Open Scope N_scope.

Section cursor.
Context {X : Externals}.

Record CursorPos := mkPos { cp_seq : N; cp_late_mark : N; cp_floor : N }.

Record LateTag := mkTag { lt_number : N; lt_held_through : N }.

Record CursorRead := mkRead {
  cr_entries : list (LogEntry * option LateTag);
  cr_pos : CursorPos;
  cr_late_exhausted : bool;
  cr_late_counter : N;
  cr_held_total : option N;
  cr_view : RingView;
}.

Record CursorAdvance := mkAdvance {
  ca_seq : N;
  ca_late_mark : N;
  ca_late : N;
  ca_late_lost : option N;
}.

(** [late.range(late_mark + 1 ..)], in number order. *)
Definition late_after (mark : N) (i : StoreInner) : list (N * N) :=
  List.filter (λ kv, sat_add mark 1 <=? kv.1) (btree_iter (late i)).

(** [late_by_seq.keys().next()]. *)
Definition lowest_late_seq (i : StoreInner) : option N :=
  fst <$> head (btree_iter (late_by_seq i)).

Definition past_cursor_matches (f : option ParsedFilter) (e : LogEntry) : bool :=
  match f with Some f => matches_entry_past_cursor f e | None => true end.

Definition tagged : Type := LogEntry * option LateTag.

(** The late part's loop: entries, [held], scanned, and whether it reached the end. *)
Fixpoint late_walk (i : StoreInner) (count : nat) (f : option ParsedFilter) (pos : CursorPos)
  (l : list (N * N)) (entries : list tagged) (held : N) (scanned : nat)
  : list tagged * N * nat * bool :=
  match l with
  | [] => (entries, held, scanned, true)
  | (number, q) :: l =>
      let held := held + 1 in
      if (cp_seq pos <? q) || (q <=? cp_floor pos) then
        late_walk i count f pos l entries held scanned
      else
        let scanned := S scanned in
        match entry_at i q with
        | None => late_walk i count f pos l entries held scanned
        | Some e =>
            if negb (past_cursor_matches f e) then
              late_walk i count f pos l entries held scanned
            else
              let entries := entries ++ [(e, Some (mkTag number held))] in
              if (count <=? length entries)%nat then (entries, held, scanned, false)
              else late_walk i count f pos l entries held scanned
        end
  end.

Fixpoint normal_walk (count : nat) (f : option ParsedFilter) (pos : CursorPos)
  (es : list LogEntry) (entries : list tagged) (scanned : nat) : list tagged * nat :=
  match es with
  | [] => (entries, scanned)
  | e :: es =>
      let scanned := S scanned in
      if (seq e <=? cp_seq pos) || negb (opt_matches f e) then
        normal_walk count f pos es entries scanned
      else
        let entries := entries ++ [(e, None)] in
        if (count <=? length entries)%nat then (entries, scanned)
        else normal_walk count f pos es entries scanned
  end.

Definition below_every_late_seq (i : StoreInner) (pos : CursorPos) : bool :=
  match lowest_late_seq i with None => true | Some lowest => cp_seq pos <? lowest end.

Definition late_part (i : StoreInner) (count : nat) (f : option ParsedFilter) (pos : CursorPos)
  : list tagged * N * nat * bool :=
  if (count =? 0)%nat then ([], 0, 0%nat, false)
  else if below_every_late_seq i pos then
    ([], N.of_nat (length (late_after (cp_late_mark pos) i)), 0%nat, true)
  else late_walk i count f pos (late_after (cp_late_mark pos) i) [] 0 0.

Definition cursor_read (count : nat) (f : option ParsedFilter) (pos : CursorPos)
  (s : InMemoryStore) : CursorRead :=
  let i := inner s in
  let '(es, held, scanned, late_exhausted) := late_part i count f pos in
  let '(es, scanned) :=
    if late_exhausted && (length es <? count)%nat
    then normal_walk count f pos (entries i) es scanned
    else (es, scanned) in
  mkRead es pos late_exhausted (late_counter i)
    (if late_exhausted then Some held else None) (ring_view scanned s).

(** One record of [cursor_read_trace]: what the loop pushes for it, if anything. *)
Definition trace_step (i : StoreInner) (f : option ParsedFilter) (pos : CursorPos) (q : N)
  : option tagged :=
  match entry_at i q with
  | None => None
  | Some e =>
      if q <=? cp_floor pos then None
      else if q <=? cp_seq pos then
        match late_by_seq i !! q with
        | None => None
        | Some number =>
            if (number <=? cp_late_mark pos) || negb (past_cursor_matches f e) then None
            else Some (e, Some (mkTag number 0))
        end
      else if opt_matches f e then Some (e, None) else None
  end.

Definition cursor_read_trace (t : N) (f : option ParsedFilter) (pos : CursorPos)
  (s : InMemoryStore) : CursorRead :=
  let i := inner s in
  mkRead (omap (trace_step i f pos) (default [] (trace_index i !! t))) pos true
    (late_counter i) None (ring_view 0 s).

(** ** [CursorRead] *)

Definition cr_len (r : CursorRead) : nat := length (cr_entries r).

Definition into_kept_entries (kept : nat) (r : CursorRead) : list LogEntry :=
  sort_by_key seq (fst <$> take kept (cr_entries r)).

Definition late_tags (es : list tagged) : list LateTag := omap snd es.
Definition normal_seqs (es : list tagged) : list N :=
  omap (λ t : tagged, match t.2 with None => Some (seq t.1) | Some _ => None end) es.

Definition advance_for (kept : nat) (r : CursorRead) : CursorAdvance :=
  let kept := Nat.min kept (length (cr_entries r)) in
  let late_total := length (late_tags (cr_entries r)) in
  let prefix := take kept (cr_entries r) in
  let late_kept := late_tags prefix in
  let seq0 := cp_seq (cr_pos r) in
  let mark0 := cp_late_mark (cr_pos r) in
  if cr_late_exhausted r && (length late_kept =? late_total)%nat then
    let late_mark := N.max (cr_late_counter r) mark0 in
    mkAdvance (foldl N.max seq0 (normal_seqs prefix)) late_mark
      (N.of_nat (length late_kept)) ((λ h, late_mark - mark0 - h) <$> cr_held_total r)
  else
    match last late_kept with
    | Some t =>
        mkAdvance seq0 (lt_number t) (N.of_nat (length late_kept))
          (Some (lt_number t - mark0 - lt_held_through t))
    | None => mkAdvance seq0 mark0 0 (Some 0)
    end.
End cursor.
