(* ===== verification/Pipeline.v ===== *)
(** * Pipeline: one domain's storage infrastructure ([engine/pipeline.rs])

    The log ring, the pre-trigger buffer, the seq counter, the epoch log and the
    event broadcast of one domain. The counter is shared with the domain's span
    ring, which takes its seqs from it ([SpanStore.insert]). *)

From S2P Require Import Prelude Text F64 Gelf Filter Matcher SeqCounter PreBuffer Epoch MemStore Cursor.

Set Default Proof Using "Type".
Local Open Scope N_scope.

Section pipeline.
Context {X : Externals}.

(** [span::types::TraceSummary]. *)
Record TraceSummary := mkSummary {
  ts_trace_id : N;
  ts_root_span_name : string;
  ts_service_name : string;
  ts_start_time : Z;
  ts_total_duration_ms : f64;
  ts_span_count : N;
  ts_has_errors : bool;
  ts_linked_log_count : N;
}.

Record PipelineEvent := mkEvent {
  pe_session_id : string;
  pe_trigger_id : N;
  pe_trigger_description : option string;
  pe_filter_string : string;
  pe_matched_entry : LogEntry;
  pe_context_before : list LogEntry;
  pe_pre_trigger_flushed : N;
  pe_pre_window : N;
  pe_post_window_size : N;
  pe_notify_context : N;
  pe_oneshot : bool;
  pe_trace_id : option N;
  pe_trace_summary : option TraceSummary;
}.

(** [lp_sent] is what went into the broadcast channel, oldest first. *)
Record LogPipeline := mkPipeline {
  lp_store : InMemoryStore;
  lp_pre_buffer : PreTriggerBuffer;
  lp_seq : SeqCounter;
  lp_sent : list PipelineEvent;
  lp_epochs : EpochLog;
}.

Definition set_store (s : InMemoryStore) (p : LogPipeline) : LogPipeline :=
  mkPipeline s (lp_pre_buffer p) (lp_seq p) (lp_sent p) (lp_epochs p).
Definition set_pre_buffer (b : PreTriggerBuffer) (p : LogPipeline) : LogPipeline :=
  mkPipeline (lp_store p) b (lp_seq p) (lp_sent p) (lp_epochs p).
Definition set_counter (c : SeqCounter) (p : LogPipeline) : LogPipeline :=
  mkPipeline (lp_store p) (lp_pre_buffer p) c (lp_sent p) (lp_epochs p).
Definition set_epochs (l : EpochLog) (p : LogPipeline) : LogPipeline :=
  mkPipeline (lp_store p) (lp_pre_buffer p) (lp_seq p) (lp_sent p) l.

(** ** Constructors *)

Definition new_with_seq_counter (capacity : nat) (c : SeqCounter) : LogPipeline :=
  mkPipeline (MemStore.new capacity) (PreBuffer.new 0) c [] (Epoch.new (current c)).

Definition new (capacity : nat) : LogPipeline := new_with_seq_counter capacity SeqCounter.new.

Definition new_with_seq (capacity : nat) (initial : N) : LogPipeline :=
  new_with_seq_counter capacity (new_with_initial initial).

(** A loaded case; [None] is the assertion of [InMemoryStore::from_records]. *)
Definition from_records (capacity : nat) (c : SeqCounter) (epoch_origin : N)
  (narrowing : list (N * FilterPolicy)) (records : list LogEntry) (floor : N) : option LogPipeline :=
  let log := observe epoch_origin (policy_new []) (Epoch.new epoch_origin) in
  let log := foldl (λ log sp, observe sp.1 sp.2 log) log narrowing in
  (λ store, mkPipeline store (PreBuffer.new 0) c [] log) <$>
    MemStore.from_records capacity records floor.

(** ** Operations *)

Definition assign_seq (p : LogPipeline) : N * LogPipeline :=
  let '(q, c) := next (lp_seq p) in (q, set_counter c p).
Definition current_seq (p : LogPipeline) : N := current (lp_seq p).

Definition send_event (ev : PipelineEvent) (p : LogPipeline) : LogPipeline :=
  mkPipeline (lp_store p) (lp_pre_buffer p) (lp_seq p) (lp_sent p ++ [ev]) (lp_epochs p).

Definition append_to_store (e : LogEntry) (p : LogPipeline) : LogPipeline :=
  set_store (MemStore.append e (lp_store p)) p.
Definition insert_sorted (batch : list LogEntry) (p : LogPipeline) : nat * LogPipeline :=
  let '(s, n) := MemStore.insert_sorted batch (lp_store p) in (n, set_store s p).
Definition contains_seq (q : N) (p : LogPipeline) : bool := MemStore.contains_seq q (lp_store p).
Definition increment_malformed (p : LogPipeline) : LogPipeline :=
  set_store (MemStore.increment_malformed (lp_store p)) p.

Definition clear_logs (p : LogPipeline) : nat * LogPipeline :=
  (store_len (lp_store p), set_store (clear_through (current (lp_seq p)) (lp_store p)) p).

Definition observe_epoch (q : N) (policy : FilterPolicy) (p : LogPipeline) : LogPipeline :=
  set_epochs (observe q policy (lp_epochs p)) p.

Definition pre_buffer_append (e : LogEntry) (p : LogPipeline) : LogPipeline :=
  set_pre_buffer (PreBuffer.append e (lp_pre_buffer p)) p.
Definition pre_buffer_copy (count : nat) (p : LogPipeline) : list LogEntry * LogPipeline :=
  let '(es, b) := flush count (lp_pre_buffer p) in (es, set_pre_buffer b p).
Definition resize_pre_buffer (size : nat) (p : LogPipeline) : LogPipeline :=
  set_pre_buffer (resize size (lp_pre_buffer p)) p.
(** [compute] runs under the resync lock. *)
Definition resync_pre_buffer (compute : nat) (p : LogPipeline) : LogPipeline :=
  resize_pre_buffer compute p.
Definition pre_buffer_entries_by_trace_id (t : N) (p : LogPipeline) : list LogEntry :=
  PreBuffer.entries_by_trace_id t (lp_pre_buffer p).

(** ** Reads *)

Record RecentStats := mkRecent {
  rs_scanned : nat;
  rs_buffer_total : nat;
  rs_buffer_oldest_seq : option N;
  rs_buffer_newest_seq : option N;
  rs_lost_below : N;
}.

Definition stats_of_view (v : RingView) : RecentStats :=
  mkRecent (v_scanned v) (v_len v) (v_oldest_seq v) (v_newest_seq v) (v_lost_below v).

Definition recent_logs_with_stats (count : nat) (f : option ParsedFilter) (oldest_first : bool)
  (p : LogPipeline) : list LogEntry * RecentStats :=
  let '(es, v) := recent_with_view count f oldest_first (lp_store p) in (es, stats_of_view v).

Definition logs_in_range_with_floor (from to : N) (p : LogPipeline) : list LogEntry * N :=
  range_with_floor from to (lp_store p).
Definition context_by_seq (q : N) (before after : nat) (p : LogPipeline) : list LogEntry :=
  MemStore.context_by_seq q before after (lp_store p).
Definition lost_below (p : LogPipeline) : N := MemStore.lost_below (lp_store p).
Definition admit_from (p : LogPipeline) : N := MemStore.admit_from (lp_store p).
End pipeline.
