(* ===== verification/PipeInv.v ===== *)
(** * PipeInv: the invariant of a domain's pipeline

    [arrived] are the records the domain has numbered so far. The invariant ties
    the ring, the pre-trigger buffer and the counter together: whatever is held
    or buffered is one of them, and the late numbers cannot run out before the
    counter does. Every operation of the pipeline keeps it. *)

From S2P Require Import Prelude Text F64 Gelf Filter Matcher SeqCounter PreBuffer Epoch MemStore MemStoreInv MemStoreOps MemStoreSpec Pipeline.

Set Default Proof Using "Type".
Local Open Scope N_scope.

Section pipeinv.
Context {X : Externals}.
Implicit Types (s : InMemoryStore) (e : LogEntry) (q c : N) (p : LogPipeline).

Local Abbreviation seqs es := (fmap (M:=list) seq es).

(** A record without the labels storage puts on it. *)
Definition strip (e : LogEntry) : LogEntry := set_source FilterSource (set_matched_filters [] e).

Lemma strip_seq e1 e2 : strip e1 = strip e2 → seq e1 = seq e2.
Proof. intros H. by apply (f_equal seq) in H. Qed.

Lemma strip_matches f e1 e2 : strip e1 = strip e2 → matches_entry f e1 = matches_entry f e2.
Proof.
  intros H. assert (∀ e, matches_entry f (strip e) = matches_entry f e) as Hs.
  { intros e. destruct f as [| |qs]; [done|done|]. simpl. induction qs as [|x qs IH]; [done|].
    simpl. rewrite IH. f_equal. }
  by rewrite <-Hs, H, Hs.
Qed.

(** ** Late numbers never run out

    The seqs a late record could still take. *)
Definition free (s : InMemoryStore) (c : N) : gset N :=
  filter (λ q, refuse_below s ≤ q ∧ q ∉ seqs (entries (inner s)))
    (list_to_set (N.of_nat <$> List.seq 1 (N.to_nat c))).

Lemma elem_of_free q s c :
  q ∈ free s c ↔ 1 ≤ q ≤ c ∧ refuse_below s ≤ q ∧ q ∉ seqs (entries (inner s)).
Proof.
  unfold free. rewrite elem_of_filter, elem_of_list_to_set.
  assert (q ∈ N.of_nat <$> List.seq 1 (N.to_nat c) ↔ 1 ≤ q ≤ c) as ->; [|tauto].
  rewrite list_elem_of_fmap. setoid_rewrite list_elem_of_In. setoid_rewrite in_seq. split; [intros (y & -> & ?); lia|].
  intros Hq. exists (N.to_nat q). lia.
Qed.

(** What left the ring in a merge is below the new floor. *)
Lemma overflow_below_floor recv adm s s' q :
  merged recv adm s s' → (∀ x, x ∈ union_of adm s → seq x < u64_max) →
  q ∈ seqs (union_of adm s) → q ∈ seqs (entries (inner s')) ∨ q < MemStore.lost_below s'.
Proof.
  intros M Hb (x & Hx & <-)%elem_of_seqs.
  pose proof Hx as Hx'. apply (overflow_or_kept _ _ _ _ _ M) in Hx as [Hx|Hx];
    [right|left; apply elem_of_seqs; eauto].
  rewrite (mg_floor _ _ _ _ M).
  pose proof (proj2 (proj1 (floor_after_le (overflow adm s) (MemStore.lost_below s) _) (N.le_refl _)) x Hx) as Hle.
  apply Hb in Hx'. unfold sat_add in Hle. lia.
Qed.

Lemma merged_refuse recv adm s s' : merged recv adm s s' → refuse_below s ≤ refuse_below s'.
Proof.
  intros M. unfold refuse_below. rewrite (mg_floor _ _ _ _ M), (mg_admit _ _ _ _ M).
  pose proof (floor_after_ge (overflow adm s) (MemStore.lost_below s)). lia.
Qed.

(** Each admitted record takes a free seq. *)
Lemma admissible_free batch s c :
  store_wf s → (∀ x, x ∈ batch → 1 ≤ seq x ≤ c) →
  let A : gset N := list_to_set (seqs (admissible s batch)) in
  A ⊆ free s c ∧ size A = length (admissible s batch).
Proof.
  intros Hs Hb A. pose proof (wl_asc _ _ (wf_inner _ Hs)) as Ha. split.
  - intros q Hq%elem_of_list_to_set. apply elem_of_seqs in Hq as (x & Hx & <-).
    apply elem_of_admissible in Hx as (Hx & ? & ?); [|done].
    apply elem_of_free. split_and!; [by apply Hb..|done|done].
  - unfold A. rewrite size_list_to_set, length_fmap; [done|].
    apply (ascending_NoDup id), ascending_seqs, admissible_ascending.
Qed.

Lemma merged_free recv batch s s' c :
  store_wf s → merged recv (admissible s batch) s s' →
  (∀ x, x ∈ entries (inner s) → 1 ≤ seq x ≤ c) → (∀ x, x ∈ batch → 1 ≤ seq x ≤ c) → c < u64_max →
  late_counter (inner s') + N.of_nat (size (free s' c)) ≤
    late_counter (inner s) + N.of_nat (size (free s c)).
Proof.
  intros Hs M He Hb Hc. pose proof (wl_asc _ _ (wf_inner _ Hs)) as Ha.
  set (adm := admissible s batch) in *.
  assert (Hadm : ∀ x, x ∈ adm → x ∈ batch ∧ (seq x ∉ seqs (entries (inner s))) ∧ refuse_below s ≤ seq x)
    by (intros; by apply elem_of_admissible).
  assert (Hu : ∀ x, x ∈ union_of adm s → seq x < u64_max).
  { intros x [Hx|Hx]%elem_of_merge_by_key; [apply He in Hx; lia|].
    apply Hadm in Hx as (Hx & _). apply Hb in Hx. lia. }
  destruct (admissible_free batch s c Hs Hb) as [HA Hsz]. fold adm in HA, Hsz.
  set (A := list_to_set (seqs adm) : gset N) in *.
  assert (Hsub : free s' c ⊆ free s c ∖ A).
  { intros q (Hq & Hr & Hn)%elem_of_free. pose proof (merged_refuse _ _ _ _ M).
    assert (Hnu : q ∉ seqs (union_of adm s)).
    { intros Hin. destruct (overflow_below_floor _ _ _ _ q M Hu Hin) as [?|Hlt]; [done|].
      unfold refuse_below in Hr. lia. }
    apply elem_of_difference. split.
    - apply elem_of_free. split_and!; [lia|lia|lia|]. intros (x & Hx & <-)%elem_of_seqs. apply Hnu.
      apply elem_of_seqs. exists x. split; [|done]. apply elem_of_merge_by_key. by left.
    - intros (x & Hx & <-)%elem_of_list_to_set%elem_of_seqs. apply Hnu.
      apply elem_of_seqs. exists x. split; [|done]. apply elem_of_merge_by_key. by right. }
  apply subseteq_size in Hsub. rewrite size_difference in Hsub by done.
  pose proof (subseteq_size _ _ HA). pose proof (mg_counter _ _ _ _ M). lia.
Qed.

(** ** The invariant *)

Record pipe_inv (arrived : list LogEntry) (p : LogPipeline) : Prop := {
  pi_arrived a : a ∈ arrived → 1 ≤ seq a ≤ lp_seq p;
  pi_wf : store_wf (lp_store p);
  pi_held e : e ∈ entries (inner (lp_store p)) → ∃ a, a ∈ arrived ∧ strip a = strip e;
  pi_floor : MemStore.lost_below (lp_store p) ≤ lp_seq p + 1;
  pi_admit : MemStore.admit_from (lp_store p) ≤ lp_seq p + 1;
  pi_free : late_counter (inner (lp_store p)) + N.of_nat (size (free (lp_store p) (lp_seq p)))
              ≤ lp_seq p;
  pi_pre_wf : pre_wf (lp_pre_buffer p);
  pi_arrivals : pb_arrivals (lp_pre_buffer p) ≤ lp_seq p;
  pi_pre a e : (a, e) ∈ pb_entries (lp_pre_buffer p) → e ∈ arrived;
}.

Lemma pi_seq arrived p e : pipe_inv arrived p → e ∈ entries (inner (lp_store p)) → 1 ≤ seq e ≤ lp_seq p.
Proof.
  intros Hi (a & Ha & Hs)%(pi_held _ _ Hi). rewrite <-(strip_seq _ _ Hs). by apply (pi_arrived _ _ Hi).
Qed.

(** A record stored once is held or below the loss floor from then on. *)
Definition kept (q : N) (s : InMemoryStore) : Prop :=
  q ∈ seqs (entries (inner s)) ∨ q < MemStore.lost_below s.

Lemma new_inv cap c : pipe_inv [] (new_with_seq_counter cap c).
Proof.
  unfold new_with_seq_counter. constructor; simpl; try (by intros ? ?%elem_of_nil);
    try (by intros ? ? ?%elem_of_nil); try apply MemStoreSpec.new_wf; try apply pre_new_wf; try lia.
  assert (size (free (MemStore.new cap) c) ≤ N.to_nat c)%nat; [|lia].
  unfold free. etrans; [apply subseteq_size; intros q [_ Hq]%elem_of_filter; exact Hq|].
  rewrite size_list_to_set; [by rewrite length_fmap, length_seq|].
  apply NoDup_fmap_2; [apply _|apply NoDup_ListNoDup, seq_NoDup].
Qed.

Lemma assign_inv arrived p :
  pipe_inv arrived p → lp_seq p < u64_max →
  (assign_seq p).1 = lp_seq p + 1 ∧ lp_seq (assign_seq p).2 = lp_seq p + 1 ∧
  lp_store (assign_seq p).2 = lp_store p ∧ lp_pre_buffer (assign_seq p).2 = lp_pre_buffer p ∧
  lp_epochs (assign_seq p).2 = lp_epochs p ∧
  pipe_inv arrived (assign_seq p).2.
Proof.
  intros Hi Hc. unfold assign_seq. destruct (next_fresh _ Hc) as [-> _]. simpl. split_and!; try done.
  destruct Hi as [Ha Hw Hh Hf Had Hfr Hpw Hpa Hpp]. constructor; simpl; try done; try lia.
  - intros a Hin. apply Ha in Hin. lia.
  - assert (free (lp_store p) (lp_seq p + 1) ⊆ {[lp_seq p + 1]} ∪ free (lp_store p) (lp_seq p)) as Hs.
    { intros q (Hq & ? & ?)%elem_of_free. rewrite elem_of_union, elem_of_singleton, elem_of_free.
      destruct (decide (q = lp_seq p + 1)); [by left|right]. split_and!; [lia|lia|lia|done]. }
    apply subseteq_size in Hs. rewrite size_union_alt, size_singleton in Hs.
    assert (size (free (lp_store p) (lp_seq p) ∖ {[(lp_seq p + 1)%N]}) ≤ size (free (lp_store p) (lp_seq p)))%nat
      by (apply subseteq_size, subseteq_difference_l; done). lia.
Qed.

Lemma arrive_inv arrived p e :
  pipe_inv arrived p → 1 ≤ seq e ≤ lp_seq p → pipe_inv (arrived ++ [e]) p.
Proof.
  intros [Ha Hw Hh Hf Had Hfr Hpw Hpa Hpp] He. constructor; try done.
  - intros a [Hin| ->%list_elem_of_singleton]%elem_of_app; [by apply Ha|done].
  - intros x (a & Hin & Hs)%Hh. exists a. split; [apply elem_of_app; by left|done].
  - intros a x Hx%Hpp. apply elem_of_app. by left.
Qed.

(** A merge of arrived records. *)
Lemma merged_inv arrived p recv batch s' :
  pipe_inv arrived p → lp_seq p < u64_max →
  (∀ x, x ∈ batch → ∃ a, a ∈ arrived ∧ strip a = strip x) →
  merged recv (admissible (lp_store p) batch) (lp_store p) s' →
  pipe_inv arrived (set_store s' p) ∧
  (∀ q, kept q (lp_store p) → kept q s') ∧
  (∀ x, x ∈ batch → MemStore.admit_from (lp_store p) ≤ seq x → kept (seq x) s').
Proof.
  intros Hi Hc Hb M. pose proof (pi_wf _ _ Hi) as Hw. pose proof (wl_asc _ _ (wf_inner _ Hw)) as Hasc.
  assert (Hbs : ∀ x, x ∈ batch → 1 ≤ seq x ≤ lp_seq p).
  { intros x (a & Ha & Hs)%Hb. rewrite <-(strip_seq _ _ Hs). by apply (pi_arrived _ _ Hi). }
  assert (Hes : ∀ x, x ∈ entries (inner (lp_store p)) → 1 ≤ seq x ≤ lp_seq p) by (intros; by eapply pi_seq).
  set (adm := admissible (lp_store p) batch) in *.
  assert (Hub : ∀ x, x ∈ union_of adm (lp_store p) →
    x ∈ entries (inner (lp_store p)) ∨ x ∈ batch).
  { intros x [Hx|Hx]%elem_of_merge_by_key; [by left|right].
    by apply elem_of_admissible in Hx as (? & _). }
  assert (Hus : ∀ x, x ∈ union_of adm (lp_store p) → 1 ≤ seq x ≤ lp_seq p).
  { intros x [?|?]%Hub; auto. }
  assert (Hlost : MemStore.lost_below s' ≤ lp_seq p + 1).
  { rewrite (mg_floor _ _ _ _ M). apply floor_after_le. split; [apply Hi|].
    intros x Hx%subseteq_take%Hus. unfold sat_add. lia. }
  assert (Hge : MemStore.lost_below (lp_store p) ≤ MemStore.lost_below s').
  { rewrite (mg_floor _ _ _ _ M). apply floor_after_ge. }
  assert (Hov : ∀ q, q ∈ seqs (union_of adm (lp_store p)) → kept q s').
  { intros q Hq. eapply overflow_below_floor; [done| |done]. intros x Hx%Hus. lia. }
  split_and!.
  - pose proof (merged_free _ _ _ _ (lp_seq p) Hw M Hes Hbs Hc) as Hfree.
    destruct Hi as [Ha _ Hh Hf Had Hfr Hpw Hpa Hpp]. constructor; simpl; try done.
    + apply (merged_wf recv batch (lp_store p)); [done|done|]. intros x Hx%Hbs. lia.
    + intros x Hx. assert (x ∈ union_of adm (lp_store p)) as [?|?]%Hub; [|auto|auto].
      apply (overflow_or_kept _ _ _ _ _ M). by right.
    + by rewrite (mg_admit _ _ _ _ M).
    + lia.
  - intros q [(x & Hx & <-)%elem_of_seqs|Hq]; [|right; lia].
    apply Hov, elem_of_seqs. exists x. split; [|done]. apply elem_of_merge_by_key. by left.
  - intros x Hx Had. destruct (offered_in_union batch (lp_store p) x Hasc Hx) as [Hu|Hr]; [by apply Hov|].
    right. unfold refuse_below in Hr. lia.
Qed.

(** ** Operations *)

Definition stored_from (arrived : list LogEntry) (e : LogEntry) : Prop :=
  ∃ a, a ∈ arrived ∧ strip a = strip e.

(** What a step of the pipeline promises besides the invariant. *)
Record step_ok (arrived : list LogEntry) (p p' : LogPipeline) : Prop := {
  so_inv : pipe_inv arrived p';
  so_seq : lp_seq p' = lp_seq p;
  so_epochs : lp_epochs p' = lp_epochs p;
  so_kept q : kept q (lp_store p) → kept q (lp_store p');
  so_admit : MemStore.admit_from (lp_store p') = MemStore.admit_from (lp_store p);
  so_arr : pb_arrivals (lp_pre_buffer p') = pb_arrivals (lp_pre_buffer p);
}.

Lemma step_ok_refl arrived p : pipe_inv arrived p → step_ok arrived p p.
Proof. by constructor. Qed.

Lemma step_ok_trans arrived p1 p2 p3 :
  step_ok arrived p1 p2 → step_ok arrived p2 p3 → step_ok arrived p1 p3.
Proof. intros [? ? ? H1 ? ?] [? ? ? H2 ? ?]. constructor; try congruence; auto. Qed.

Lemma append_ok arrived e p :
  pipe_inv arrived p → lp_seq p < u64_max → stored_from arrived e →
  step_ok arrived p (append_to_store e p) ∧
  (MemStore.admit_from (lp_store p) ≤ seq e → kept (seq e) (lp_store (append_to_store e p))).
Proof.
  intros Hi Hc He. pose proof (pi_free _ _ Hi).
  pose proof (append_merged e (lp_store p) (pi_wf _ _ Hi) ltac:(lia)) as M.
  destruct (merged_inv arrived p _ [e] _ Hi Hc ltac:(by intros x ->%list_elem_of_singleton) M)
    as (Hi' & Hk & Hn).
  split; [|intros; apply Hn; [by left|done]].
  constructor; try done. apply (mg_admit _ _ _ _ M).
Qed.

Lemma insert_ok arrived batch p :
  pipe_inv arrived p → lp_seq p < u64_max → (∀ x, x ∈ batch → stored_from arrived x) →
  let p' := (insert_sorted batch p).2 in
  step_ok arrived p p' ∧
  (∀ x, x ∈ batch → MemStore.admit_from (lp_store p) ≤ seq x → kept (seq x) (lp_store p')).
Proof.
  intros Hi Hc Hb. pose proof (pi_free _ _ Hi) as Hf.
  assert (Hbs : ∀ x, x ∈ batch → 1 ≤ seq x ≤ lp_seq p).
  { intros x (a & Ha & Hs)%Hb. rewrite <-(strip_seq _ _ Hs). by apply (pi_arrived _ _ Hi). }
  destruct (admissible_free batch (lp_store p) (lp_seq p) (pi_wf _ _ Hi) Hbs) as [HA Hsz].
  apply subseteq_size in HA.
  pose proof (merge_effect (lp_store p) batch (pi_wf _ _ Hi) ltac:(lia)) as M.
  destruct (merged_inv arrived p _ batch _ Hi Hc Hb M) as (Hi' & Hk & Hn).
  unfold insert_sorted, MemStore.insert_sorted. destruct (merge_locked batch (lp_store p)) as [s' n].
  simpl in *. split; [|done]. constructor; try done. apply (mg_admit _ _ _ _ M).
Qed.

Lemma pre_inv arrived b p :
  pipe_inv arrived p → pre_wf b → pb_arrivals b ≤ lp_seq p →
  (∀ a e, (a, e) ∈ pb_entries b → e ∈ arrived) → pipe_inv arrived (set_pre_buffer b p).
Proof. intros [] Hw Ha He. by constructor. Qed.

Lemma pre_step arrived b p :
  pipe_inv arrived p → pre_wf b → pb_arrivals b = pb_arrivals (lp_pre_buffer p) →
  (∀ a e, (a, e) ∈ pb_entries b → (a, e) ∈ pb_entries (lp_pre_buffer p)) →
  step_ok arrived p (set_pre_buffer b p).
Proof.
  intros Hi Hw Ha He. constructor; try done. apply pre_inv; [done|done|rewrite Ha; apply Hi|].
  intros a e Hin%He. by eapply (pi_pre _ _ Hi).
Qed.

Lemma pre_append_ok arrived e p :
  pipe_inv arrived p → pb_arrivals (lp_pre_buffer p) < lp_seq p → lp_seq p < u64_max → e ∈ arrived →
  pipe_inv arrived (pre_buffer_append e p).
Proof.
  intros Hi Hlt Hc He. pose proof (pi_pre_wf _ _ Hi) as Hw. unfold pre_buffer_append.
  destruct (decide (pb_capacity (lp_pre_buffer p) = 0%nat)) as [Hz|Hz].
  - unfold PreBuffer.append. apply Nat.eqb_eq in Hz as ->. apply pre_inv; [done|done|lia|apply Hi].
  - destruct (append_spec e (lp_pre_buffer p) Hw ltac:(lia) Hz) as (Hw' & Hes & Har & _).
    apply pre_inv; [done|done|rewrite Har; lia|]. rewrite Hes.
    intros a x [_ [Hx|[= -> ->]%list_elem_of_singleton]%elem_of_app]%list_elem_of_filter; [|done].
    by eapply (pi_pre _ _ Hi).
Qed.

Lemma resize_ok arrived n p : pipe_inv arrived p → step_ok arrived p (resize_pre_buffer n p).
Proof.
  intros Hi. apply pre_step; [done|by apply resize_wf, Hi| |].
  - unfold resize, expire. by case_goal.
  - intros a e He. unfold resize, expire in He.
    destruct (expire_loop _ _ _) as [es m] eqn:E. simpl in He.
    apply expire_loop_spec in E as [-> _]; [|apply (pi_pre_wf _ _ Hi)..].
    by apply list_elem_of_filter in He as [_ He].
Qed.

Lemma flush_ok arrived n p :
  pipe_inv arrived p →
  let '(es, p') := pre_buffer_copy n p in
  step_ok arrived p p' ∧ (∀ e, e ∈ es → e ∈ arrived) ∧
  es = (drop (len (lp_pre_buffer p) - n) (pb_entries (lp_pre_buffer p))).*2.
Proof.
  intros Hi. unfold pre_buffer_copy. pose proof (flush_spec n _ (pi_pre_wf _ _ Hi)) as Hf.
  assert (Ha : pb_arrivals (flush n (lp_pre_buffer p)).2 = pb_arrivals (lp_pre_buffer p)).
  { unfold flush. by case_goal. }
  destruct (flush n (lp_pre_buffer p)) as [es b]. simpl in *. destruct Hf as (Hw & -> & Hb).
  split_and!; [|intros e ([a x] & -> & Hx)%list_elem_of_fmap|done].
  - apply pre_step; [done|done|done|]. rewrite Hb. intros a e He. by apply subseteq_take in He.
  - apply subseteq_drop in Hx. by eapply (pi_pre _ _ Hi).
Qed.

Lemma traced_ok arrived t p e :
  pipe_inv arrived p → e ∈ pre_buffer_entries_by_trace_id t p → e ∈ arrived.
Proof.
  intros Hi. unfold pre_buffer_entries_by_trace_id, entries_by_trace_id. case_goal; [|by intros ?%elem_of_nil].
  intros (a & _ & Ha)%list_elem_of_omap. destruct (binary_search_by_key _ _ _) as [i|]; [|done].
  apply fmap_Some in Ha as ([a' x] & Hx & ->). apply list_elem_of_lookup_2 in Hx.
  by eapply (pi_pre _ _ Hi).
Qed.

Lemma send_ok arrived ev p : pipe_inv arrived p → step_ok arrived p (send_event ev p).
Proof. intros []. by constructor; [constructor|..]. Qed.

(** A clear bars everything that arrived before it. *)
Lemma clear_ok arrived p :
  pipe_inv arrived p → lp_seq p < u64_max →
  let p' := (clear_logs p).2 in
  pipe_inv arrived p' ∧ lp_seq p' = lp_seq p ∧ lp_epochs p' = lp_epochs p ∧
  (∀ q, kept q (lp_store p) → kept q (lp_store p')) ∧ MemStore.admit_from (lp_store p') = lp_seq p + 1.
Proof.
  intros Hi Hc p'. pose proof Hi as [Ha Hw Hh Hf Had Hfr Hpw Hpa Hpp].
  assert (Hsat : sat_add (lp_seq p) 1 = lp_seq p + 1) by (apply sat_add_small; lia).
  assert (Hadm : MemStore.admit_from (lp_store p') = lp_seq p + 1).
  { subst p'. simpl. unfold current. rewrite Hsat. unfold clear_locked. destruct (last _); simpl; lia. }
  assert (Hlost : MemStore.lost_below (lp_store p) ≤ MemStore.lost_below (lp_store p') ≤ lp_seq p + 1).
  { subst p'. simpl. unfold clear_locked. destruct (last _) as [n|] eqn:El; simpl; [|lia].
    apply last_Some_elem_of, (pi_seq _ _ _ Hi) in El. unfold sat_add. lia. }
  assert (Hgone : ∀ e, e ∈ entries (inner (lp_store p)) → seq e < MemStore.lost_below (lp_store p')).
  { intros e He. subst p'. simpl. unfold clear_locked. destruct (last _) as [n|] eqn:El; simpl.
    - pose proof (ascending_last seq _ _ _ (wl_asc _ _ (wf_inner _ Hw)) El He).
      apply last_Some_elem_of, (pi_seq _ _ _ Hi) in El. unfold sat_add. lia.
    - apply last_None in El. rewrite El in He. by apply elem_of_nil in He. }
  split_and!; [|done|done| |done].
  - assert (Hnil : entries (inner (lp_store p')) = []) by done.
    assert (Hlate : late_counter (inner (lp_store p')) = late_counter (inner (lp_store p))).
    { subst p'. simpl. unfold clear_locked. by destruct (last _). }
    assert (Hwf : store_wf (lp_store p')).
    { pose proof (clear_wf (lp_store p)) as [[] Hcap _ _].
      constructor; [by constructor|done|by rewrite Hnil; intros ? ?%elem_of_nil..]. }
    constructor; try done; [rewrite Hnil; by intros ? ?%elem_of_nil|apply Hlost|rewrite Hadm; simpl; lia|].
    rewrite Hlate. change (lp_seq p') with (lp_seq p).
    assert (free (lp_store p') (lp_seq p) = ∅) as ->; [|rewrite size_empty; lia].
    apply set_eq. intros q. rewrite elem_of_free, elem_of_empty. split; [|done].
    intros (Hq & Hr & _). unfold refuse_below in Hr. rewrite Hadm in Hr. lia.
  - intros q [(x & Hx & <-)%elem_of_seqs|Hq]; right; [by apply Hgone|lia].
Qed.
End pipeinv.
