(* ===== verification/SpanStore.v ===== *)
(** * SpanStore: the span ring ([span/store.rs])

    A span takes its seq from the domain's counter under the ring's own write
    lock, so [insert] takes the counter and returns it. *)

From S2P Require Import Prelude Text F64 Gelf Filter Matcher SeqCounter MemStore Pipeline.
From Stdlib Require Import SpecFloat.

Set Default Proof Using "Type".
Local Open Scope N_scope.

Section spanstore.
Context {X : Externals}.

Record SpanStoreInner := mkSpanInner {
  ss_buffer : list SpanEntry;
  ss_trace_index : gmap N (list N);
  ss_capacity : nat;
}.

Record SpanStore := mkSpanStore { ss_inner : SpanStoreInner; ss_lost_below : N }.

Definition position (i : SpanStoreInner) (q : N) : option nat :=
  binary_search_by_key sp_seq q (ss_buffer i).

Definition new (capacity : nat) : SpanStore := mkSpanStore (mkSpanInner [] ∅ capacity) 0.

Fixpoint windows_ascending (ss : list SpanEntry) : bool :=
  match ss with
  | a :: ((b :: _) as ss') => (sp_seq a <? sp_seq b) && windows_ascending ss'
  | _ => true
  end.

Definition index_span (m : gmap N (list N)) (s : SpanEntry) : gmap N (list N) :=
  push_trace (sp_trace_id s) (sp_seq s) m.

Definition from_records (capacity : nat) (spans : list SpanEntry) (floor : N) : option SpanStore :=
  if windows_ascending spans then
    Some (mkSpanStore
            (mkSpanInner spans (foldl index_span ∅ spans) (Nat.max capacity (length spans))) floor)
  else None.

(** Drop a seq from its trace's list, and the trace with its last seq. *)
Definition unindex_span (s : SpanEntry) (m : gmap N (list N)) : gmap N (list N) :=
  match m !! sp_trace_id s with
  | None => m
  | Some seqs =>
      match List.filter (λ q, negb (q =? sp_seq s)) seqs with
      | [] => delete (sp_trace_id s) m
      | seqs => <[sp_trace_id s := seqs]> m
      end
  end.

Definition evict_oldest (s : SpanStore) : SpanStore :=
  let i := ss_inner s in
  if (ss_capacity i <=? length (ss_buffer i))%nat then
    match ss_buffer i with
    | [] => s
    | evicted :: buffer =>
        mkSpanStore (mkSpanInner buffer (unindex_span evicted (ss_trace_index i)) (ss_capacity i))
          (N.max (ss_lost_below s) (sat_add (sp_seq evicted) 1))
    end
  else s.

Definition push_span (span : SpanEntry) (s : SpanStore) : SpanStore :=
  let i := ss_inner s in
  mkSpanStore (mkSpanInner (ss_buffer i ++ [span]) (index_span (ss_trace_index i) span)
                 (ss_capacity i)) (ss_lost_below s).

(** The seq, the ring and the counter. *)
Definition insert (span : SpanEntry) (c : SeqCounter) (s : SpanStore) : N * SpanStore * SeqCounter :=
  let '(q, c) := next c in
  let span := sp_set_seq q span in
  if (ss_capacity (ss_inner s) =? 0)%nat then
    (q, mkSpanStore (ss_inner s) (N.max (ss_lost_below s) (sat_add q 1)), c)
  else (q, push_span span (evict_oldest s), c).

Definition clear (s : SpanStore) : nat * SpanStore :=
  let i := ss_inner s in
  let floor := match last (ss_buffer i) with
               | Some newest => N.max (ss_lost_below s) (sat_add (sp_seq newest) 1)
               | None => ss_lost_below s
               end in
  (length (ss_buffer i), mkSpanStore (mkSpanInner [] ∅ (ss_capacity i)) floor).

(** ** Reads *)

Definition span_at (i : SpanStoreInner) (q : N) : option SpanEntry :=
  match position i q with Some k => ss_buffer i !! k | None => None end.

(** [slice::sort_by_key]: stable. *)
Section stable.
Context {A : Type} (before : A → A → bool).
(** [before y x]: [y] sorts strictly before [x], so an equal element is not
    passed. *)
Fixpoint stable_insert (x : A) (l : list A) : list A :=
  match l with
  | [] => [x]
  | y :: l' => if before y x then y :: stable_insert x l' else x :: l
  end.
Definition stable_sort (l : list A) : list A := foldr stable_insert [] l.
End stable.

Definition starts_before (a b : SpanEntry) : bool := (sp_start_time a <? sp_start_time b)%Z.

Definition trace_spans (i : SpanStoreInner) (t : N) : list SpanEntry :=
  match ss_trace_index i !! t with
  | None => []
  | Some seqs => stable_sort starts_before (omap (span_at i) seqs)
  end.

Definition get_trace (t : N) (s : SpanStore) : list SpanEntry := trace_spans (ss_inner s) t.

Definition span_matches (f : option ParsedFilter) (sp : SpanEntry) : bool :=
  match f with Some f => matches_span f sp | None => true end.

(** [partial_cmp(..).unwrap_or(Equal)], descending. *)
Definition slower (a b : SpanEntry) : bool := f64_gt (sp_duration_ms a) (sp_duration_ms b).

Definition slow_spans (min_duration_ms : f64) (count : nat) (f : option ParsedFilter) (s : SpanStore)
  : list SpanEntry :=
  take count (stable_sort slower
    (List.filter (span_matches f)
       (List.filter (λ sp, f64_ge (sp_duration_ms sp) min_duration_ms) (ss_buffer (ss_inner s))))).

Definition for_each_matching {S : Type} (f : option ParsedFilter) (visit : S → SpanEntry → S) (s0 : S)
  (s : SpanStore) : nat * S :=
  let matching := List.filter (span_matches f) (ss_buffer (ss_inner s)) in
  (length matching, foldl visit s0 matching).

Definition push_duration (m : gmap string (list f64)) (sp : SpanEntry) : gmap string (list f64) :=
  <[sp_name sp := default [] (m !! sp_name sp) ++ [sp_duration_ms sp]]> m.

Definition duration_by_name (f : option ParsedFilter) (s : SpanStore) : gmap string (list f64) :=
  foldl push_duration ∅ (List.filter (span_matches f) (ss_buffer (ss_inner s))).

Definition note_max_seq (m : gmap N N) (sp : SpanEntry) : gmap N N :=
  let cur := default 0 (m !! sp_trace_id sp) in
  <[sp_trace_id sp := if cur <? sp_seq sp then sp_seq sp else cur]> m.

Definition root_of (spans : list SpanEntry) : option SpanEntry :=
  List.find (λ sp, match sp_parent_span_id sp with None => true | Some _ => false end) spans.

(** [as u32]. *)
Definition u32_of_nat (n : nat) : N := N.of_nat n mod 4294967296.

(** [None] is the out-of-range [spans[0]] of an empty trace. *)
Definition summarize (no_root : string) (linked : N) (t : N) (spans : list SpanEntry)
  : option TraceSummary :=
  let root := root_of spans in
  match spans with
  | [] => None
  | first :: _ =>
      Some (mkSummary t (match root with Some r => sp_name r | None => no_root end)
              (match root with Some r => sp_service_name r | None => "unknown"%string end)
              (match root with Some r => sp_start_time r | None => sp_start_time first end)
              (match root with Some r => sp_duration_ms r | None => S754_zero false end)
              (u32_of_nat (length spans)) (existsb is_error spans) linked)
  end.

(** The traces of the matching spans, newest first: seqs are distinct, so the
    order of the map's iteration does not show. *)
Definition matching_traces (f : option ParsedFilter) (s : SpanStore) : list (N * N) :=
  stable_sort (λ a b : N * N, b.2 <? a.2)
    (map_to_list (foldl note_max_seq ∅ (List.filter (span_matches f) (ss_buffer (ss_inner s))))).

Definition recent_traces (count : nat) (f : option ParsedFilter) (linked_log_count : N → N)
  (s : SpanStore) : option (list TraceSummary) :=
  mapM (λ tq : N * N, summarize "[no root]" (linked_log_count tq.1) tq.1 (trace_spans (ss_inner s) tq.1))
    (take count (matching_traces f s)).

Definition range_with_floor (from to : N) (s : SpanStore) : list SpanEntry * N :=
  let b := ss_buffer (ss_inner s) in
  let start := partition_point (λ sp, sp_seq sp <? from) b in
  let stop := partition_point (λ sp, sp_seq sp <=? to) b in
  (take (Nat.max stop start - start) (drop start b), ss_lost_below s).

Definition context_by_seq (q : N) (before after : nat) (s : SpanStore) : list SpanEntry :=
  let b := ss_buffer (ss_inner s) in
  match position (ss_inner s) q with
  | None => []
  | Some idx =>
      let start := (idx - before)%nat in
      let stop := Nat.min (idx + after + 1) (length b) in
      take (stop - start) (drop start b)
  end.

Definition span_len (s : SpanStore) : nat := length (ss_buffer (ss_inner s)).
Definition total_traces (s : SpanStore) : nat := size (ss_trace_index (ss_inner s)).
Definition newest_seq (s : SpanStore) : option N := sp_seq <$> last (ss_buffer (ss_inner s)).
Definition oldest_seq (s : SpanStore) : option N := sp_seq <$> head (ss_buffer (ss_inner s)).
Definition oldest_timestamp (s : SpanStore) : option Z := sp_start_time <$> head (ss_buffer (ss_inner s)).
End spanstore.
