(* ===== verification/SpanSpec.v ===== *)
(** * SpanSpec: the span ring's contents, floor and trace index

    A run interleaves inserts, clears and the seqs the domain's logs take from
    the shared counter; every property holds after any run. *)

From S2P Require Import Prelude Text F64 Gelf Filter Matcher Samples SeqCounter MemStore MemStoreInv Pipeline SpanStore.
From Stdlib Require Import SpecFloat.

Set Default Proof Using "Type".
Local Open Scope N_scope.

Section spanspec.
Context {X : Externals}.
Implicit Types (b : list SpanEntry) (s : SpanStore).

(** ** The invariant *)

Definition trace_seqs (t : N) b : list N := sp_seq <$> filter (λ sp, sp_trace_id sp = t) b.

Record span_wf (c : N) s : Prop := {
  sw_asc : ascending sp_seq (ss_buffer (ss_inner s));
  sw_cap : (length (ss_buffer (ss_inner s)) ≤ ss_capacity (ss_inner s))%nat;
  sw_range sp : sp ∈ ss_buffer (ss_inner s) → ss_lost_below s ≤ sp_seq sp ≤ c;
  sw_floor : ss_lost_below s ≤ c + 1;
  sw_trace t : ss_trace_index (ss_inner s) !! t = list_opt (trace_seqs t (ss_buffer (ss_inner s)));
}.

Lemma trace_seqs_app t b1 b2 : trace_seqs t (b1 ++ b2) = trace_seqs t b1 ++ trace_seqs t b2.
Proof. unfold trace_seqs. by rewrite filter_app, fmap_app. Qed.

Lemma trace_seqs_cons t sp b :
  trace_seqs t (sp :: b) = (if decide (sp_trace_id sp = t) then [sp_seq sp] else []) ++ trace_seqs t b.
Proof. unfold trace_seqs. rewrite filter_cons. by case_decide. Qed.

Lemma elem_of_trace_seqs t q b : q ∈ trace_seqs t b ↔ ∃ sp, sp ∈ b ∧ sp_trace_id sp = t ∧ sp_seq sp = q.
Proof.
  unfold trace_seqs. rewrite list_elem_of_fmap. setoid_rewrite list_elem_of_filter. naive_solver.
Qed.

Lemma lfilter_all {A} (f : A → bool) (l : list A) : (∀ x, x ∈ l → f x = true) → List.filter f l = l.
Proof.
  induction l as [|x l IH]; intros H; simpl; [done|]. rewrite H by (by left).
  f_equal. apply IH. intros y Hy. apply H. by right.
Qed.

(** Evicting the front keeps the index equal to the scan. *)
Lemma unindex_span_lookup sp b m t :
  ascending sp_seq (sp :: b) → (∀ t, m !! t = list_opt (trace_seqs t (sp :: b))) →
  unindex_span sp m !! t = list_opt (trace_seqs t b).
Proof.
  intros [Hlt _]%ascending_cons Hm. unfold unindex_span.
  assert (Hrest : ∀ t, List.filter (λ q, negb (q =? sp_seq sp)) (trace_seqs t b) = trace_seqs t b).
  { intros t'. apply lfilter_all. intros q (sp' & Hin & _ & <-)%elem_of_trace_seqs.
    apply negb_true_iff, N.eqb_neq. apply Hlt in Hin. lia. }
  rewrite (Hm (sp_trace_id sp)), trace_seqs_cons, decide_True by done. simpl.
  rewrite N.eqb_refl. simpl. rewrite Hrest.
  destruct (decide (sp_trace_id sp = t)) as [<-|Hne].
  - destruct (trace_seqs _ b) eqn:E; [by rewrite lookup_delete_eq|by rewrite lookup_insert_eq].
  - destruct (trace_seqs (sp_trace_id sp) b);
      [rewrite lookup_delete_ne by done|rewrite lookup_insert_ne by done];
      by rewrite Hm, trace_seqs_cons, decide_False.
Qed.

Lemma evict_oldest_wf c s :
  span_wf c s → ss_capacity (ss_inner s) ≠ 0%nat → c < u64_max →
  span_wf c (evict_oldest s) ∧
  ss_buffer (ss_inner (evict_oldest s)) =
    drop (S (length (ss_buffer (ss_inner s))) - ss_capacity (ss_inner s)) (ss_buffer (ss_inner s)) ∧
  ss_capacity (ss_inner (evict_oldest s)) = ss_capacity (ss_inner s) ∧
  ss_lost_below s ≤ ss_lost_below (evict_oldest s) ∧
  (∀ sp, sp ∈ ss_buffer (ss_inner s) →
     sp ∈ ss_buffer (ss_inner (evict_oldest s)) ∨ sp_seq sp < ss_lost_below (evict_oldest s)).
Proof.
  intros Hw Hc Hu. pose proof Hw as [Ha Hl Hr Hf Ht]. unfold evict_oldest.
  destruct (_ <=? _)%nat eqn:E; bool_to_prop.
  - destruct (ss_buffer (ss_inner s)) as [|sp b] eqn:Eb; [simpl in *; lia|].
    pose proof Ha as [Hlt Hab]%ascending_cons.
    assert (Hsp : sp_seq sp ≤ c) by (apply Hr; by left).
    assert (sat_add (sp_seq sp) 1 = sp_seq sp + 1) as Hs by (apply sat_add_small; lia).
    simpl. rewrite Hs. simpl in *. split_and!.
    + constructor; simpl; [done|lia| |lia|intros t; by eapply unindex_span_lookup].
      intros sp' Hin. pose proof (Hlt _ Hin). assert (sp' ∈ sp :: b) as Hin' by (by right).
      apply Hr in Hin'. lia.
    + by replace (S (S (length b)) - _)%nat with 1%nat by lia.
    + done.
    + lia.
    + intros sp' [->|Hin]%elem_of_cons; [right; lia|by left].
  - split_and!; [done| |done|lia|by left].
    by replace (S (length (ss_buffer (ss_inner s))) - _)%nat with 0%nat by lia.
Qed.

(** An insert: the ring is the last [capacity] of what it held and the new span. *)
Lemma insert_spec sp c s :
  span_wf c s → c + 1 < u64_max →
  let '(q, s', c') := insert sp c s in
  let sp' := sp_set_seq (c + 1) sp in
  let b := ss_buffer (ss_inner s) ++ [sp'] in
  q = c + 1 ∧ c' = c + 1 ∧ span_wf (c + 1) s' ∧
  ss_buffer (ss_inner s') = drop (length b - ss_capacity (ss_inner s)) b ∧
  ss_capacity (ss_inner s') = ss_capacity (ss_inner s) ∧ ss_lost_below s ≤ ss_lost_below s' ∧
  (∀ x, x ∈ b → x ∈ ss_buffer (ss_inner s') ∨ sp_seq x < ss_lost_below s').
Proof.
  intros Hw Hc. unfold insert. destruct (next_fresh c ltac:(lia)) as [-> _].
  pose proof Hw as [Ha Hl Hr Hf Ht].
  assert (Hsat : sat_add (c + 1) 1 = c + 2) by (unfold sat_add; lia).
  destruct (ss_capacity (ss_inner s) =? 0)%nat eqn:Ez; bool_to_prop.
  - assert (ss_buffer (ss_inner s) = []) as Hb by (apply nil_length_inv; lia).
    cbn [ss_inner ss_lost_below]. rewrite Hb, Ez, Hsat in *. simpl. split_and!; try done; [|lia|].
    + constructor; simpl; rewrite ?Hb, ?Ez;
        first [done|lia|apply ascending_nil|by intros x ?%elem_of_nil].
    + intros x ->%list_elem_of_singleton. right. simpl. lia.
  - destruct (evict_oldest_wf c s Hw Ez ltac:(lia)) as ([Ha' Hl' Hr' Hf' Ht'] & Hb & Hcap & Hlo & Hin).
    cbn [push_span ss_inner ss_buffer ss_capacity ss_lost_below].
    set (sp' := sp_set_seq (c + 1) sp) in *.
    assert (sp_seq sp' = c + 1) as Hq by done.
    split_and!; [done|done| | |done|done|].
    + constructor; simpl.
      * apply ascending_snoc. split; [done|]. intros x Hx. apply Hr' in Hx. lia.
      * rewrite Hb, Hcap, length_app, length_drop. simpl. lia.
      * intros x [Hx| ->%list_elem_of_singleton]%elem_of_app; [apply Hr' in Hx; lia|]. lia.
      * lia.
      * intros t. rewrite trace_seqs_app, trace_seqs_cons. unfold index_span, push_trace.
        change (sp_trace_id sp') with (sp_trace_id sp). simpl.
        destruct (decide (sp_trace_id sp = t)) as [<-|Hne].
        -- rewrite lookup_insert_eq, Ht', list_opt_default. simpl. by destruct (trace_seqs _ _).
        -- rewrite lookup_insert_ne by done. by rewrite Ht', app_nil_r.
    + rewrite Hb, length_app. simpl. rewrite drop_app_le by lia.
      by replace (length (ss_buffer (ss_inner s)) + 1)%nat with (S (length (ss_buffer (ss_inner s)))) by lia.
    + intros x [Hx|Hx]%elem_of_app.
      * destruct (Hin x Hx); [left; apply elem_of_app; by left|by right].
      * left. apply elem_of_app. by right.
Qed.

Lemma clear_spec c s :
  span_wf c s → c < u64_max →
  let s' := (clear s).2 in
  span_wf c s' ∧ ss_buffer (ss_inner s') = [] ∧ ss_capacity (ss_inner s') = ss_capacity (ss_inner s) ∧
  ss_lost_below s ≤ ss_lost_below s' ∧
  (∀ sp, sp ∈ ss_buffer (ss_inner s) → sp_seq sp < ss_lost_below s').
Proof.
  intros Hw Hc. pose proof Hw as [Ha Hl Hr Hf Ht]. unfold clear.
  destruct (last (ss_buffer (ss_inner s))) as [n|] eqn:En; simpl.
  - assert (Hn : n ∈ ss_buffer (ss_inner s)) by (by apply last_Some_elem_of).
    apply Hr in Hn. assert (sat_add (sp_seq n) 1 = sp_seq n + 1) as -> by (apply sat_add_small; lia).
    split_and!; [|done|done|lia|].
    + constructor; simpl; first [done|lia|apply ascending_nil|by intros ? ?%elem_of_nil].
    + intros sp Hsp. pose proof (ascending_last _ _ _ _ Ha En Hsp). lia.
  - apply last_None in En. rewrite En. split_and!; [|done|done|lia|by intros ? ?%elem_of_nil].
    constructor; simpl; first [done|lia|apply ascending_nil|by intros ? ?%elem_of_nil].
Qed.

(** ** Runs *)

Inductive SpanOp :=
  | OSpan (sp : SpanEntry)
  | OLog (* a log record takes the next seq *)
  | OClear.

Definition span_step (cs : SeqCounter * SpanStore) (op : SpanOp) : SeqCounter * SpanStore :=
  match op with
  | OSpan sp => let '(_, s, c) := insert sp cs.1 cs.2 in (c, s)
  | OLog => ((next cs.1).2, cs.2)
  | OClear => (cs.1, (clear cs.2).2)
  end.

Definition span_run (cap : nat) (c : SeqCounter) (ops : list SpanOp) : SeqCounter * SpanStore :=
  foldl span_step (c, new cap) ops.

(** The spans received, in order, numbered from the counter: all of them, and
    those since the last clear. *)
Definition receive (st : N * list SpanEntry * list SpanEntry) (op : SpanOp)
  : N * list SpanEntry * list SpanEntry :=
  let '(c, all, since) := st in
  match op with
  | OSpan sp => (c + 1, all ++ [sp_set_seq (c + 1) sp], since ++ [sp_set_seq (c + 1) sp])
  | OLog => (c + 1, all, since)
  | OClear => (c, all, [])
  end.
Definition received (c : N) (ops : list SpanOp) : N * list SpanEntry * list SpanEntry :=
  foldl receive (c, [], []) ops.

Record span_tracks (cap : nat) (st : N * list SpanEntry * list SpanEntry)
  (cs : SeqCounter * SpanStore) : Prop := {
  tr_counter : cs.1 = st.1.1;
  tr_wf : span_wf cs.1 cs.2;
  tr_cap : ss_capacity (ss_inner cs.2) = cap;
  tr_buffer : ss_buffer (ss_inner cs.2) = drop (length st.2 - cap) st.2;
  tr_all sp : sp ∈ st.1.2 → sp ∈ ss_buffer (ss_inner cs.2) ∨ sp_seq sp < ss_lost_below cs.2;
}.

Lemma drop_drop_tail {A} cap (l : list A) x :
  drop (length (drop (length l - cap) l ++ [x]) - cap) (drop (length l - cap) l ++ [x]) =
  drop (length (l ++ [x]) - cap) (l ++ [x]).
Proof.
  rewrite !length_app, length_drop. simpl.
  destruct (decide (cap = 0)%nat) as [->|Hc].
  { rewrite !drop_ge; [done| |]; rewrite length_app, ?length_drop; simpl; lia. }
  rewrite !drop_app_le by (rewrite ?length_drop; lia). rewrite drop_drop. f_equal. f_equal. lia.
Qed.

Lemma span_step_tracks cap st cs op :
  span_tracks cap st cs → cs.1 + 1 < u64_max → span_tracks cap (receive st op) (span_step cs op).
Proof.
  intros [Hc Hw Hcap Hb Hall] Hu. destruct st as [[c all] since], cs as [c' s]. simpl in *. subst c'.
  destruct op as [sp| |]; simpl.
  - pose proof (insert_spec sp c s Hw Hu) as Hi. destruct (insert sp c s) as [[q s'] c'].
    destruct Hi as (-> & -> & Hw' & Hb' & Hcap' & Hlo & Hin). constructor; simpl.
    + done.
    + done.
    + congruence.
    + rewrite Hb', Hcap, Hb. apply drop_drop_tail.
    + intros x [Hx|Hx]%elem_of_app.
      * destruct (Hall x Hx) as [Hx'|Hx']; [apply Hin, elem_of_app; by left|right; lia].
      * apply Hin, elem_of_app. by right.
  - unfold next. rewrite u64_add_small by lia. constructor; simpl; try done.
    destruct Hw as [? ? Hr ? ?]. constructor; try done; [|lia]. intros x Hx. apply Hr in Hx. lia.
  - destruct (clear_spec c s Hw ltac:(lia)) as (Hw' & Hb' & Hcap' & Hlo & Hin).
    constructor; simpl; [done|done|congruence|done|].
    intros x Hx. right. destruct (Hall x Hx) as [Hx'|Hx']; [by apply Hin|].
    unfold clear in Hlo. simpl in Hlo. lia.
Qed.

Lemma span_run_tracks cap c ops :
  c + N.of_nat (length ops) < u64_max →
  span_tracks cap (received c ops) (span_run cap c ops) ∧
  (received c ops).1.1 ≤ c + N.of_nat (length ops).
Proof.
  induction ops as [|op ops IH] using rev_ind; intros Hu.
  - split; [|simpl; lia]. constructor; simpl; try done; [|by intros ? ?%elem_of_nil].
    constructor; simpl; first [done|lia|apply ascending_nil|by intros ? ?%elem_of_nil].
  - rewrite length_app in Hu |- *. simpl in *. destruct IH as [IH Hle]; [lia|].
    unfold received, span_run. rewrite !foldl_app. cbn [foldl].
    fold (received c ops) (span_run cap c ops). split.
    + apply span_step_tracks; [done|]. rewrite (tr_counter _ _ _ IH). lia.
    + destruct (received c ops) as [[c' all] since], op; simpl in *; lia.
Qed.

(** The span ring holds exactly the newest [capacity] spans received since
    the last clear, in seq order, each under the seq the shared counter gave
    it; and its loss floor is exact for what it once held: a span ever received
    is either held or below the floor, and no held span is. *)
Theorem span_ring_contents cap c ops :
  c + N.of_nat (length ops) < u64_max →
  let '(_, all, since) := received c ops in
  let s := (span_run cap c ops).2 in
  ss_buffer (ss_inner s) = drop (length since - cap) since ∧
  ascending sp_seq (ss_buffer (ss_inner s)) ∧
  (∀ sp, sp ∈ all → sp ∈ ss_buffer (ss_inner s) ∨ sp_seq sp < ss_lost_below s) ∧
  (∀ sp, sp ∈ ss_buffer (ss_inner s) → ss_lost_below s ≤ sp_seq sp).
Proof.
  intros Hu. destruct (span_run_tracks cap c ops Hu) as [[Hc Hw Hcap Hb Hall] _].
  destruct (received c ops) as [[c' all] since]. simpl in *.
  split_and!; [done|apply Hw|done|]. intros sp Hsp. by apply (sw_range _ _ Hw).
Qed.

(** ** A trace's spans *)

Lemma stable_sort_perm {A} (before : A → A → bool) l : stable_sort before l ≡ₚ l.
Proof.
  assert (Hi : ∀ x l, stable_insert before x l ≡ₚ x :: l).
  { intros x l'. induction l' as [|y l' IH]; simpl; [done|]. destruct (before y x); [|done].
    rewrite IH. apply Permutation_swap. }
  induction l as [|x l IH]; simpl; [done|]. by rewrite Hi, IH.
Qed.

Lemma elem_of_stable_insert {A} (before : A → A → bool) x y l :
  y ∈ stable_insert before x l ↔ y = x ∨ y ∈ l.
Proof. induction l as [|z l IH]; simpl; [set_solver|]. destruct (before z x); set_solver. Qed.

Lemma elem_of_stable_sort {A} (before : A → A → bool) y l : y ∈ stable_sort before l ↔ y ∈ l.
Proof. by rewrite stable_sort_perm. Qed.

(** By key, ties in the order they came in. *)
Definition key_then {A} (k : A → Z) (R : A → A → Prop) (a b : A) : Prop :=
  (k a < k b)%Z ∨ k a = k b ∧ R a b.

Lemma stable_sort_sorted {A} (k : A → Z) (R : A → A → Prop) l :
  Sorted.StronglySorted R l →
  Sorted.StronglySorted (key_then k R) (stable_sort (λ x y, (k x <? k y)%Z) l).
Proof.
  set (before := λ x y : A, (k x <? k y)%Z).
  assert (Hi : ∀ x l, Sorted.StronglySorted (key_then k R) l → (∀ y, y ∈ l → R x y) →
    Sorted.StronglySorted (key_then k R) (stable_insert before x l)).
  { intros x l'. induction l' as [|y l' IH]; intros Hs Hr; simpl; [by repeat constructor|].
    apply Sorted.StronglySorted_inv in Hs as [Hs Hy]. rewrite Forall_forall in Hy.
    unfold before at 1. destruct (Z.ltb_spec (k y) (k x)) as [Hlt|Hge].
    - constructor; [apply IH; [done|]; intros z Hz; apply Hr; by right|].
      rewrite Forall_forall. intros z [->|Hz]%elem_of_stable_insert; [by left|by apply Hy].
    - constructor; [constructor; [done|by rewrite Forall_forall]|].
      rewrite Forall_forall. intros z Hz. pose proof (Hr z Hz). apply elem_of_cons in Hz as [->|Hz].
      + unfold key_then. destruct (decide (k x = k y)); [by right|left; lia].
      + destruct (Hy z Hz) as [?|[? _]]; unfold key_then;
          (destruct (decide (k x = k z)); [by right|left; lia]). }
  induction l as [|x l IH]; intros Hs; simpl; [constructor|].
  apply Sorted.StronglySorted_inv in Hs as [Hs Hx]. rewrite Forall_forall in Hx.
  apply Hi; [by apply IH|]. intros y Hy%elem_of_stable_sort. by apply Hx.
Qed.

Lemma span_at_held c s sp :
  span_wf c s → sp ∈ ss_buffer (ss_inner s) → span_at (ss_inner s) (sp_seq sp) = Some sp.
Proof.
  intros Hw [i Hi]%list_elem_of_lookup. unfold span_at, position.
  assert (binary_search_by_key sp_seq (sp_seq sp) (ss_buffer (ss_inner s)) = Some i) as ->; [|done].
  apply binary_search_Some; [apply Hw|]. by exists sp.
Qed.

Lemma trace_spans_eq c s t :
  span_wf c s →
  get_trace t s = stable_sort starts_before (filter (λ sp, sp_trace_id sp = t) (ss_buffer (ss_inner s))).
Proof.
  intros Hw. unfold get_trace, trace_spans. rewrite (sw_trace _ _ Hw). unfold trace_seqs.
  set (l := filter _ _). assert (omap (span_at (ss_inner s)) (sp_seq <$> l) = l) as Hl.
  { assert (l ⊆ ss_buffer (ss_inner s)) as Hs by (intros x [_ ?]%list_elem_of_filter; done).
    clearbody l. induction l as [|sp l IH]; [done|]. cbn [fmap list_fmap omap list_omap].
    rewrite (span_at_held c s sp Hw) by (apply Hs; by left). f_equal.
    apply IH. intros x Hx. apply Hs. by right. }
  clearbody l. destruct l as [|sp l]; [done|]. cbn [fmap list_fmap list_opt] in *. by rewrite Hl.
Qed.

(** A trace is read through its index in full: the spans returned are
    exactly the held spans of that trace, by start time, spans that start
    together in the order they were received. *)
Theorem get_trace_exact cap c ops t :
  c + N.of_nat (length ops) < u64_max →
  let s := (span_run cap c ops).2 in
  (∀ sp, sp ∈ get_trace t s ↔ sp ∈ ss_buffer (ss_inner s) ∧ sp_trace_id sp = t) ∧
  Sorted.StronglySorted (key_then sp_start_time (λ x y, sp_seq x < sp_seq y)) (get_trace t s).
Proof.
  intros Hu s. destruct (span_run_tracks cap c ops Hu) as [Htr _]. pose proof (tr_wf _ _ _ Htr) as Hw.
  subst s. rewrite (trace_spans_eq _ _ t Hw). split.
  - intros sp. rewrite elem_of_stable_sort, list_elem_of_filter. tauto.
  - apply (stable_sort_sorted sp_start_time). apply ascending_filter, Hw.
Qed.

(** ** Recent traces *)

Lemma note_max_dom l m t :
  is_Some (foldl note_max_seq m l !! t) ↔ is_Some (m !! t) ∨ ∃ sp, sp ∈ l ∧ sp_trace_id sp = t.
Proof.
  revert m. induction l as [|sp l IH]; intros m; cbn [foldl].
  { split; [by left|]. intros [?|(? & ?%elem_of_nil & _)]; done. }
  rewrite IH. unfold note_max_seq. rewrite lookup_insert_is_Some. setoid_rewrite elem_of_cons.
  split.
  - intros [[<-|[_ ?]]|(x & ? & <-)]; [right; exists sp; auto|by left|right; exists x; auto].
  - intros [?|(x & [->|?] & <-)]; [|left; by left|right; by exists x].
    destruct (decide (sp_trace_id sp = t)); [left; by left|left; by right].
Qed.

Lemma mapM_total {A B} (f : A → option B) l :
  (∀ x, x ∈ l → is_Some (f x)) → ∃ k, mapM f l = Some k ∧ Forall2 (λ x y, f x = Some y) l k.
Proof.
  induction l as [|x l IH]; intros H; [by exists []|].
  destruct (H x ltac:(by left)) as [y Hy]. destruct IH as (k & Hk & HF).
  { intros z Hz. apply H. by right. }
  exists (y :: k). simpl. rewrite Hy, Hk. split; [done|by constructor].
Qed.

(** [recent_traces] never reaches the index that would panic: it always
    answers, with [min count n] summaries for the [n] traces that hold a
    matching span, each of such a trace and counting every held span of it (not
    only the matching ones). *)
Theorem recent_traces_total cap c ops count f linked :
  c + N.of_nat (length ops) < u64_max →
  let s := (span_run cap c ops).2 in
  let listed t := ∃ sp, sp ∈ ss_buffer (ss_inner s) ∧ span_matches f sp = true ∧ sp_trace_id sp = t in
  ∃ l, recent_traces count f linked s = Some l ∧
    length l = Nat.min count (length (matching_traces f s)) ∧
    (∀ t, t ∈ (matching_traces f s).*1 ↔ listed t) ∧ NoDup (matching_traces f s).*1 ∧
    (∀ x, x ∈ l → listed (ts_trace_id x) ∧
       ts_span_count x = u32_of_nat (length (get_trace (ts_trace_id x) s)) ∧
       ts_linked_log_count x = linked (ts_trace_id x)).
Proof.
  intros Hu s listed. destruct (span_run_tracks cap c ops Hu) as [Htr _].
  pose proof (tr_wf _ _ _ Htr) as Hw. fold s in Hw.
  assert (Hm : ∀ t, t ∈ (matching_traces f s).*1 ↔ listed t).
  { intros t. unfold matching_traces. rewrite list_elem_of_fmap. unfold listed.
    transitivity (is_Some (foldl note_max_seq ∅ (List.filter (span_matches f) (ss_buffer (ss_inner s))) !! t)).
    - split.
      + intros ([t' q] & -> & Hin%elem_of_stable_sort%elem_of_map_to_list). eauto.
      + intros [q Hq]. exists (t, q). split; [done|]. by apply elem_of_stable_sort, elem_of_map_to_list.
    - rewrite note_max_dom, lookup_empty. setoid_rewrite elem_of_lfilter. split.
      + intros [[? ?]|(sp & [? ?] & ?)]; [done|]. by exists sp.
      + intros (sp & ? & ? & ?). right. by exists sp. }
  assert (Hsome : ∀ t, listed t → ∃ first rest, trace_spans (ss_inner s) t = first :: rest).
  { intros t (sp & Hin & _ & Ht). pose proof (trace_spans_eq _ _ t Hw) as Heq. unfold get_trace in Heq.
    assert (sp ∈ trace_spans (ss_inner s) t) as Hsp.
    { rewrite Heq, elem_of_stable_sort, list_elem_of_filter. done. }
    destruct (trace_spans _ t) as [|first rest]; [by apply elem_of_nil in Hsp|eauto]. }
  destruct (mapM_total (λ tq : N * N, summarize "[no root]" (linked tq.1) tq.1
    (trace_spans (ss_inner s) tq.1)) (take count (matching_traces f s))) as (l & Hl & HF).
  { intros tq Htq%subseteq_take. destruct (Hsome tq.1) as (first & rest & ->); [|eauto].
    apply Hm. by apply list_elem_of_fmap_2. }
  exists l. split_and!; [done| |done| |].
  - by rewrite <-(Forall2_length _ _ _ HF), length_take.
  - unfold matching_traces. rewrite stable_sort_perm. apply NoDup_fst_map_to_list.
  - intros x Hx. apply list_elem_of_lookup in Hx as [i Hi].
    destruct (Forall2_lookup_r _ _ _ _ _ HF Hi) as (tq & Htq & Hs).
    destruct (Hsome tq.1) as (first & rest & Heq).
    { apply Hm, list_elem_of_fmap_2. eapply subseteq_take. by eapply list_elem_of_lookup_2. }
    rewrite Heq in Hs. injection Hs as <-. simpl. split_and!; [|by unfold get_trace; rewrite Heq|done].
    apply Hm, list_elem_of_fmap_2. eapply subseteq_take. by eapply list_elem_of_lookup_2.
Qed.
End spanspec.

(** ** The properties at concrete inputs *)

Definition span_at_time (t start : N) (name : string) (parent : option N) : SpanEntry :=
  mkSpanEntry 0 t 0 parent (Z.of_N start) (Z.of_N start) (S754_zero false) name KInternal "svc" SOk ∅ [].
Definition sample_spans : list SpanOp :=
  [OSpan (span_at_time 7 5 "a" (Some 1)); OLog; OSpan (span_at_time 8 6 "b" None); OLog;
   OSpan (span_at_time 7 3 "c" None); OSpan (span_at_time 7 3 "d" (Some 1)); OSpan (span_at_time 9 1 "e" None)].

Example sample_span_ring : sp_seq <$> ss_buffer (ss_inner (span_run 4 0 sample_spans).2) = [3; 5; 6; 7].
Proof. by vm_compute. Qed.

Lemma span_ring_contents_witness :
  0 + N.of_nat (length sample_spans) < u64_max ∧
  (∀ sp, sp ∈ ss_buffer (ss_inner (span_run 4 0 sample_spans).2) →
     ss_lost_below (span_run 4 0 sample_spans).2 ≤ sp_seq sp).
Proof.
  assert (Hu : 0 + N.of_nat (length sample_spans) < u64_max) by by_eval.
  split; [exact Hu|]. pose proof (span_ring_contents 4 0 sample_spans Hu) as H.
  destruct (received 0 sample_spans) as [[c all] since]. apply H.
Defined.

Lemma get_trace_exact_witness :
  sp_name <$> get_trace 7 (span_run 4 0 sample_spans).2 = ["c"%string; "d"%string] ∧
  Sorted.StronglySorted (key_then sp_start_time (λ x y, sp_seq x < sp_seq y))
    (get_trace 7 (span_run 4 0 sample_spans).2).
Proof.
  assert (Hu : 0 + N.of_nat (length sample_spans) < u64_max) by by_eval.
  split; [by vm_compute|]. apply (get_trace_exact 4 0 sample_spans 7 Hu).
Defined.

Lemma recent_traces_total_witness :
  ∃ l, recent_traces 2 None (λ _, 0) (span_run 4 0 sample_spans).2 = Some l ∧ length l = 2%nat.
Proof.
  assert (Hu : 0 + N.of_nat (length sample_spans) < u64_max) by by_eval.
  destruct (recent_traces_total 4 0 sample_spans 2 None (λ _, 0) Hu) as (l & Hl & Hlen & _).
  exists l. split; [exact Hl|]. rewrite Hlen. by vm_compute.
Defined.
