(* ===== verification/DomainData.v ===== *)
(** * DomainData: a domain's registry of recorded facts ([domain_data/])

    Keys and their syntax ([path.rs]), entries and lifetimes ([entry.rs]), the
    registry and its batch operations ([store.rs]), its file ([persist.rs]) and
    the daemon-wide map of open registries ([map.rs]). Times are nanoseconds.
    The disk is a map from file names to what reading the file would give;
    whether a write or a rename succeeds is an argument. *)

From S2P Require Import Prelude Text Epoch MemStore.

Set Default Proof Using "Type".
Local Open Scope N_scope.

(** ** Keys *)

Definition MAX_PATH_BYTES : nat := 256.
Definition MAX_VALUE_BYTES : nat := 4096.
Definition MAX_KEYS : nat := 256.
Definition MAX_SIGIL_KEYS : nat := 64.
#[global] Arguments MAX_PATH_BYTES : simpl never.
#[global] Arguments MAX_VALUE_BYTES : simpl never.
#[global] Arguments MAX_KEYS : simpl never.
#[global] Arguments MAX_SIGIL_KEYS : simpl never.
Definition RESERVED_SEGMENT : string := "logmon".
Definition SIGIL : ascii := "@".
Definition path_slash : ascii := "/".
Definition CORE_KEYS : list string := ["/Build/commit"; "/Build/profile"; "/Action"].

Inductive KeyError := KeyMalformed | KeyTooLong | KeySigilNotAllowed.

Record Key := mkKey { k_path : string; k_sigil : bool }.

(** [str::split] on one ASCII character; never empty. *)
Fixpoint str_split (c : ascii) (s : string) : list string :=
  match s with
  | EmptyString => [EmptyString]
  | String a s =>
      if Ascii.eqb a c then EmptyString :: str_split c s
      else match str_split c s with
           | x :: l => String a x :: l
           | [] => [String a EmptyString]
           end
  end.

Definition is_segment_byte (a : ascii) : bool :=
  is_ascii_alphanumeric a || Ascii.eqb a "_" || Ascii.eqb a "-" || Ascii.eqb a ".".

Definition segment_ok (s : string) : bool :=
  negb (String.eqb s "") && str_forall is_segment_byte s.

(** [None] is [Ok]. *)
Definition validate_path (path : string) : option KeyError :=
  if (MAX_PATH_BYTES <? String.length path)%nat then Some KeyTooLong
  else match strip_prefix "/" path with
       | None => Some KeyMalformed
       | Some body =>
           if String.eqb body "" then Some KeyMalformed
           else if forallb segment_ok (str_split path_slash body) then None else Some KeyMalformed
       end.

Definition key_parse (raw : string) (allow_sigil : bool) : KeyError + Key :=
  let '(sigil, path) := match strip_prefix (String SIGIL "") raw with
                        | Some rest => (true, rest)
                        | None => (false, raw)
                        end in
  match validate_path path with
  | Some e => inl e
  | None => if sigil && negb allow_sigil then inl KeySigilNotAllowed else inr (mkKey path sigil)
  end.

Definition first_segment (path : string) : option string :=
  match strip_prefix "/" path with
  | Some body => head (str_split path_slash body)
  | None => None
  end.

Definition is_reserved (path : string) : bool := bool_decide (first_segment path = Some RESERVED_SEGMENT).

Definition key_rendered (k : Key) : string := if k_sigil k then String SIGIL (k_path k) else k_path k.

Definition matches_prefix (pattern path : string) : bool :=
  if String.eqb path pattern then true
  else match strip_prefix pattern path with
       | Some rest => starts_with "/" rest
       | None => false
       end.

(** ** Entries *)

Record Entry := mkEntry {
  en_value : string;
  en_created_at : Z;
  en_validated_at : Z;
  en_ttl_secs : option N;
}.

Definition entry_new (value : string) (now : Z) (ttl : option N) : Entry := mkEntry value now now ttl.

Definition entry_age (now : Z) (e : Entry) : Z := (now - en_validated_at e)%Z.

(** [num_seconds] truncates towards zero; the lifetime is cast [as i64]. *)
Definition num_seconds (d : Z) : Z := Z.quot d 1000000000.
Definition is_expired (now : Z) (e : Entry) : option bool :=
  (λ ttl, (i64_cast (Z.of_N ttl) <=? num_seconds (entry_age now e))%Z) <$> en_ttl_secs e.

Inductive TtlSpec := TtlSet (secs : N) | TtlClear.
Inductive TtlParseError := TtlMalformed | TtlZero | TtlOverflow.

(** A UTF-8 continuation byte: splitting before one is out of a character. *)
Definition is_continuation (a : ascii) : bool := in_range 128 191 a.

(** [split_at(len - 1)]; [None] is its panic off a character boundary. *)
Definition split_last (s : string) : option (string * string) :=
  match str_rev s with
  | EmptyString => Some (EmptyString, EmptyString)
  | String a s' => if is_continuation a then None else Some (str_rev s', String a EmptyString)
  end.

Definition unit_secs (u : string) : option N :=
  if String.eqb u "s" then Some 1 else if String.eqb u "m" then Some 60
  else if String.eqb u "h" then Some 3600 else if String.eqb u "d" then Some 86400
  else if String.eqb u "w" then Some 604800 else None.

(** [None] is a panic. *)
Definition parse_duration (s : string) : option (TtlParseError + N) :=
  match split_last s with
  | None => None
  | Some (digits, unit) =>
      Some match unit_secs unit with
           | None => inl TtlMalformed
           | Some mult =>
               if String.eqb digits "" || negb (str_forall is_ascii_digit digits) then inl TtlMalformed
               else match parse_digits 0 digits with
                    | None => inl TtlOverflow
                    | Some n =>
                        if n =? 0 then inl TtlZero
                        else if u64_max <? n * mult then inl TtlOverflow else inr (n * mult)
                    end
           end
  end.

(** The largest unit that divides. *)
Fixpoint render_units (units : list (string * N)) (secs : N) : string :=
  match units with
  | [] => pretty secs +:+ "s"
  | (u, mult) :: units =>
      if secs mod mult =? 0 then pretty (secs / mult) +:+ u else render_units units secs
  end.
Definition render_duration (secs : N) : string :=
  render_units [("w", 604800); ("d", 86400); ("h", 3600); ("m", 60)]%string secs.

(** ** Requests and outcomes *)

Record DataEntry := mkData { de_path : string; de_value : option string; de_ttl : option TtlSpec }.

Inductive UnknownCause := NeverSet | NoRegistry | Undetermined.
Inductive RejectReason :=
  | MalformedPath | PathTooLong | MalformedValue | ValueTooLong | ReservedPrefix
  | SigilNotAllowedHere | MalformedTtl | RegistryFull.
Inductive Outcome :=
  | Created | Updated | Validated | Scoped
  | Unknown (cause : UnknownCause)
  | Rejected (reason : RejectReason).

Record DataOutcome := mkDataOutcome { do_path : string; do_outcome : Outcome }.
Record RemoveOutcome := mkRemove { ro_pattern : string; ro_removed : nat; ro_rejected : option RejectReason }.

Definition key_reason (e : KeyError) : RejectReason :=
  match e with
  | KeyMalformed => MalformedPath
  | KeyTooLong => PathTooLong
  | KeySigilNotAllowed => SigilNotAllowedHere
  end.

(** ** The registry *)

Record Registry := mkRegistry { rg_entries : gmap string Entry; rg_saw_quarantine : bool }.

Definition registry_new : Registry := mkRegistry ∅ false.
Definition registry_from_entries (m : gmap string Entry) : Registry := mkRegistry m false.
Definition note_quarantined (r : Registry) : Registry := mkRegistry (rg_entries r) true.
Definition set_entries (m : gmap string Entry) (r : Registry) : Registry := mkRegistry m (rg_saw_quarantine r).

Definition registry_get (path : string) (r : Registry) : option Entry := rg_entries r !! path.

(** The keys in the map's order. *)
Definition btree_keys (m : gmap string Entry) : list string := sort_strings (map_to_list m).*1.

Definition counted_len (r : Registry) : nat :=
  length (List.filter (λ k, negb (is_reserved k)) (btree_keys (rg_entries r))).

Definition unknown_cause (r : Registry) : UnknownCause :=
  if bool_decide (rg_entries r = ∅) then
    if rg_saw_quarantine r then NoRegistry else Undetermined
  else NeverSet.

(** The two levels of a change: whether to change the lifetime, and to what. *)
Definition ttl_change (t : option TtlSpec) : option (option N) :=
  match t with
  | None => None
  | Some TtlClear => Some None
  | Some (TtlSet s) => Some (Some s)
  end.

(** A confirmed entry, its value replaced if it changed. *)
Definition revalidate (now : Z) (value : string) (ttl : option (option N)) (e : Entry) : Entry :=
  mkEntry value (if String.eqb (en_value e) value then en_created_at e else now) now
    (default (en_ttl_secs e) ttl).

Definition apply_one (e : DataEntry) (now : Z) (r : Registry) : Outcome * Registry :=
  match key_parse (de_path e) false with
  | inl err => (Rejected (key_reason err), r)
  | inr key =>
      if is_reserved (k_path key) then (Rejected ReservedPrefix, r)
      else if match de_value e with
              | Some v => (MAX_VALUE_BYTES <? String.length v)%nat
              | None => false
              end then (Rejected ValueTooLong, r)
      else
        let ttl := ttl_change (de_ttl e) in
        let stored := key_rendered key in
        match de_value e, rg_entries r !! stored with
        | None, Some x => (Validated, set_entries (<[stored := revalidate now (en_value x) ttl x]> (rg_entries r)) r)
        | None, None => (Unknown (unknown_cause r), r)
        | Some v, Some x =>
            (if String.eqb (en_value x) v then Validated else Updated,
             set_entries (<[stored := revalidate now v ttl x]> (rg_entries r)) r)
        | Some v, None =>
            if (MAX_KEYS <=? counted_len r)%nat then (Rejected RegistryFull, r)
            else (Created, set_entries (<[stored := entry_new v now (default None ttl)]> (rg_entries r)) r)
        end
  end.

Fixpoint update (es : list DataEntry) (now : Z) (r : Registry) : list DataOutcome * Registry :=
  match es with
  | [] => ([], r)
  | e :: es =>
      let '(o, r) := apply_one e now r in
      let '(os, r) := update es now r in
      (mkDataOutcome (de_path e) o :: os, r)
  end.

Definition remove_one (pattern : string) (r : Registry) : RemoveOutcome * Registry :=
  match key_parse pattern false with
  | inl err => (mkRemove pattern 0 (Some (key_reason err)), r)
  | inr k =>
      if is_reserved (k_path k) then (mkRemove pattern 0 (Some ReservedPrefix), r)
      else
        let doomed := List.filter (matches_prefix (key_rendered k)) (btree_keys (rg_entries r)) in
        (mkRemove pattern (length doomed) None,
         set_entries (foldl (λ m d, delete d m) (rg_entries r) doomed) r)
  end.

Fixpoint registry_remove (patterns : list string) (r : Registry) : list RemoveOutcome * Registry :=
  match patterns with
  | [] => ([], r)
  | p :: patterns =>
      let '(o, r) := remove_one p r in
      let '(os, r) := registry_remove patterns r in
      (o :: os, r)
  end.

Definition registry_restore (path value : string) (created validated : Z) (ttl : option N) (r : Registry)
  : Registry :=
  if is_reserved path then r
  else set_entries (<[path := mkEntry value created (Z.max validated created) ttl]> (rg_entries r)) r.

(** [None] is [Err(RegistryError::Reserved)]. *)
Definition set_reserved (path value : string) (now : Z) (r : Registry) : option Outcome * Registry :=
  if negb (is_reserved path) then (None, r)
  else match rg_entries r !! path with
       | Some x =>
           (Some (if String.eqb (en_value x) value then Validated else Updated),
            set_entries (<[path := revalidate now value None x]> (rg_entries r)) r)
       | None => (Some Created, set_entries (<[path := entry_new value now None]> (rg_entries r)) r)
       end.

Definition query (prefix : option string) (validated_before : option Z) (r : Registry)
  : list (string * Entry) :=
  List.filter (λ ke, match validated_before with Some t => (en_validated_at ke.2 <? t)%Z | None => true end)
    (List.filter (λ ke, match prefix with Some p => matches_prefix p ke.1 | None => true end)
       (omap (λ k, pair k <$> rg_entries r !! k) (btree_keys (rg_entries r)))).

(** ** Document-scoped facts *)

Record ScopedFact := mkFact { sf_key : string; sf_value : string }.
Definition ScopedData : Type := list ScopedFact.

Definition is_scoped (e : DataEntry) : bool := starts_with (String SIGIL "") (de_path e).

Fixpoint put_fact (key value : string) (fs : ScopedData) : ScopedData :=
  match fs with
  | [] => [mkFact key value]
  | f :: fs => if String.eqb (sf_key f) key then mkFact key value :: fs else f :: put_fact key value fs
  end.

Definition scope_one (e : DataEntry) (scoped : ScopedData) : option DataOutcome * ScopedData :=
  let reject reason := (Some (mkDataOutcome (de_path e) (Rejected reason)), scoped) in
  match key_parse (de_path e) true with
  | inl err => reject (key_reason err)
  | inr key =>
      if is_reserved (k_path key) then reject ReservedPrefix
      else match de_value e with
           | None => reject MalformedPath
           | Some v =>
               if (MAX_VALUE_BYTES <? String.length v)%nat then reject ValueTooLong
               else if (MAX_SIGIL_KEYS <=? length scoped)%nat then reject RegistryFull
               else (None, put_fact (key_rendered key) v scoped)
           end
  end.

(** Registry entries, scoped facts, rejections. *)
Definition partition_step (st : list DataEntry * ScopedData * list DataOutcome) (e : DataEntry)
  : list DataEntry * ScopedData * list DataOutcome :=
  let '(registry, scoped, rejections) := st in
  if negb (is_scoped e) then (registry ++ [e], scoped, rejections)
  else match scope_one e scoped with
       | (None, scoped) => (registry, scoped, rejections)
       | (Some rejection, scoped) => (registry, scoped, rejections ++ [rejection])
       end.
Definition partition_scoped (es : list DataEntry) : list DataEntry * ScopedData * list DataOutcome :=
  foldl partition_step ([], [], []) es.
