(* ===== verification/DataFile.v ===== *)
(** * DataFile: a registry's file and the map of open registries
    ([domain_data/persist.rs], [domain_data/map.rs])

    A file holds a [PersistedRegistry]; [serde_json] reads back what it wrote,
    so a written file is the value written. Whether an [atomic_write] or the
    rename of a quarantine succeeds is an argument, and so is chrono's
    [to_rfc3339]. *)

From S2P Require Import Prelude Text Epoch MemStore DomainData.

Set Default Proof Using "Type".
Local Open Scope N_scope.

Section datafile.
Context {X : Externals} (to_rfc3339 : Z → string).

Definition FORMAT_VERSION : N := 1.

Record PersistedRegistry := mkPersistedReg {
  pr_format_version : N;
  pr_domain : string;
  pr_entries : gmap string Entry;
}.

(** ** File names *)

Definition fnv_step (h : N) (a : ascii) : N :=
  (N.lxor h (N_of_ascii a) * 1099511628211) mod 18446744073709551616.
Fixpoint fnv_loop (h : N) (s : string) : N :=
  match s with
  | EmptyString => h
  | String a s => fnv_loop (fnv_step h a) s
  end.
Definition fnv1a (s : string) : N := fnv_loop 14695981039346656037 s.

Definition hex_digit (n : N) : ascii := ascii_of_N (if n <? 10 then 48 + n else 87 + n).
(** [{:08x}], most significant digit first. *)
Fixpoint hex_digits (fuel : nat) (n : N) (acc : string) : string :=
  match fuel with
  | O => acc
  | S fuel => hex_digits fuel (n / 16) (String (hex_digit (n mod 16)) acc)
  end.
Definition hex8 (n : N) : string := hex_digits 8 n "".

Definition file_name_for (domain : string) : string :=
  to_lowercase domain +:+ "-" +:+ hex8 (N.land (fnv1a domain) 4294967295) +:+ ".json".

(** ** The disk *)

(** What reading a file gives: an I/O error, bytes that do not parse, or a registry. *)
Inductive FileContent := FUnreadable | FCorrupt | FParsed (p : PersistedRegistry).
Definition Disk : Type := gmap string FileContent.

Definition quarantine_and_note (renamed : bool) (file : string) (disk : Disk) : Registry * Disk :=
  if renamed then (note_quarantined registry_new, delete file disk) else (registry_new, disk).

Definition load (renamed : bool) (file : string) (disk : Disk) : Registry * Disk :=
  match disk !! file with
  | None => (registry_new, disk)
  | Some FUnreadable => (note_quarantined registry_new, disk)
  | Some (FParsed p) =>
      if pr_format_version p <=? FORMAT_VERSION then (registry_from_entries (pr_entries p), disk)
      else quarantine_and_note renamed file disk
  | Some FCorrupt => quarantine_and_note renamed file disk
  end.

(** ** One domain's registry *)

Record DomainRegistry := mkDomReg {
  dr_domain : string;
  dr_file : string;
  dr_data : Registry;
  dr_ephemeral : bool;
}.

Definition domreg_new (domain file : string) (r : Registry) : DomainRegistry := mkDomReg domain file r false.
Definition in_memory (domain : string) (r : Registry) : DomainRegistry := mkDomReg domain "" r true.

(** The whole sequence runs under the write mutex; [write_error] is what
    [atomic_write] answers. *)
Definition mutate {T : Type} (f : Registry → T * Registry) (write_error : option string)
  (reg : DomainRegistry) (disk : Disk) : T * option string * DomainRegistry * Disk :=
  let '(out, data) := f (dr_data reg) in
  let reg := mkDomReg (dr_domain reg) (dr_file reg) data (dr_ephemeral reg) in
  if dr_ephemeral reg then (out, None, reg, disk)
  else match write_error with
       | Some e => (out, Some ("write: " +:+ e)%string, reg, disk)
       | None =>
           (out, None, reg,
            <[dr_file reg := FParsed (mkPersistedReg FORMAT_VERSION (dr_domain reg) (rg_entries data))]> disk)
       end.

(** A run of [set_reserved], the outcomes dropped. *)
Definition stamp (kvs : list (string * string)) (now : Z) (r : Registry) : Registry :=
  foldl (λ r kv, (set_reserved kv.1 kv.2 now r).2) r kvs.

Definition boot_keys (domain version : string) (now : Z) (is_new : bool) : list (string * string) :=
  [("/logmon/domain", domain); ("/logmon/version", version)]%string ++
  (if is_new then [("/logmon/first_seen", to_rfc3339 now); ("/logmon/incarnation", "1");
                   ("/logmon/incarnation_started", to_rfc3339 now)]%string else []).

Definition stamp_boot (version : string) (now : Z) (write_error : option string) (reg : DomainRegistry)
  (disk : Disk) : option string * DomainRegistry * Disk :=
  let is_new := bool_decide (rg_entries (dr_data reg) = ∅) in
  let '(_, saved, reg, disk) :=
    mutate (λ r, (tt, stamp (boot_keys (dr_domain reg) version now is_new) now r)) write_error reg disk in
  (saved, reg, disk).

(** [str::parse::<u64>]. *)
Definition parse_u64 (s : string) : option N :=
  let digits := match strip_prefix "+" s with Some r => r | None => s end in
  if String.eqb digits "" || negb (str_forall is_ascii_digit digits) then None else parse_digits 0 digits.

Definition reg_note_seq_origin (now : Z) (write_error : option string) (reg : DomainRegistry) (disk : Disk)
  : option string * DomainRegistry * Disk :=
  match registry_get "/logmon/incarnation" (dr_data reg) ≫= λ e, parse_u64 (en_value e) with
  | None => (None, reg, disk)
  | Some n =>
      let '(_, saved, reg, disk) :=
        mutate (λ r, (tt, stamp [("/logmon/incarnation", pretty (sat_add n 1));
                                 ("/logmon/incarnation_started", to_rfc3339 now)]%string now r))
          write_error reg disk in
      (saved, reg, disk)
  end.

(** ** The open registries *)

Record DomainDataStore := mkDataStore { dd_version : string; dd_open : gmap string DomainRegistry }.

Definition store_new (version : string) : DomainDataStore := mkDataStore version ∅.
Definition set_open (m : gmap string DomainRegistry) (s : DomainDataStore) : DomainDataStore :=
  mkDataStore (dd_version s) m.

(** The registry is shared: a mutation through it is a mutation of the map's. *)
Definition for_domain (domain : string) (now : Z) (renamed : bool) (write_error : option string)
  (s : DomainDataStore) (disk : Disk) : DomainRegistry * DomainDataStore * Disk :=
  match dd_open s !! domain with
  | Some reg => (reg, s, disk)
  | None =>
      let file := file_name_for domain in
      let '(loaded, disk) := load renamed file disk in
      let '(_, reg, disk) := stamp_boot (dd_version s) now write_error (domreg_new domain file loaded) disk in
      (reg, set_open (<[domain := reg]> (dd_open s)) s, disk)
  end.

Definition note_seq_origin (domain : string) (now : Z) (renamed : bool) (open_error write_error : option string)
  (s : DomainDataStore) (disk : Disk) : DomainDataStore * Disk :=
  match disk !! file_name_for domain with
  | None => (s, disk)
  | Some _ =>
      let '(reg, s, disk) := for_domain domain now renamed open_error s disk in
      let '(_, reg, disk) := reg_note_seq_origin now write_error reg disk in
      (set_open (<[domain := reg]> (dd_open s)) s, disk)
  end.

Definition store_forget (domain : string) (s : DomainDataStore) : DomainDataStore :=
  set_open (delete domain (dd_open s)) s.

(** A caller's [for_domain] followed by a [mutate]. *)
Definition mutate_domain {T : Type} (domain : string) (f : Registry → T * Registry) (now : Z) (renamed : bool)
  (open_error write_error : option string) (s : DomainDataStore) (disk : Disk)
  : T * option string * DomainDataStore * Disk :=
  let '(reg, s, disk) := for_domain domain now renamed open_error s disk in
  let '(out, saved, reg, disk) := mutate f write_error reg disk in
  (out, saved, set_open (<[domain := reg]> (dd_open s)) s, disk).
End datafile.
