(* ===== verification/DataSpec.v ===== *)
(** * DataSpec: what the domain registry promises *)

From S2P Require Import Prelude Text Samples Epoch EpochSpec MemStore DomainData DataFile.

Set Default Proof Using "Type".
Local Open Scope N_scope.

(** ** Keys *)

Lemma str_split_nonempty c s : str_split c s ≠ [].
Proof. destruct s as [|a s]; simpl; [done|]. case_goal; [done|]. by destruct (str_split c s). Qed.

(** A separator after [s] does not change its first piece. *)
Lemma head_str_split_app c s t : head (str_split c (s +:+ String c t)) = head (str_split c s).
Proof.
  induction s as [|a s IH].
  { change ("" +:+ String c t)%string with (String c t). simpl. by rewrite Ascii.eqb_refl. }
  rewrite String_app_cons. simpl. destruct (Ascii.eqb a c); [done|].
  pose proof (str_split_nonempty c s) as H1. pose proof (str_split_nonempty c (s +:+ String c t)) as H2.
  destruct (str_split c s), (str_split c (s +:+ String c t)); try done. simpl in *. by injection IH as ->.
Qed.

Lemma parse_slash raw b k : key_parse raw b = inr k → ∃ body, k_path k = (String "/" body)%string.
Proof.
  unfold key_parse. destruct (match strip_prefix (String SIGIL "") raw with Some _ => _ | None => _ end) as [sg p].
  unfold validate_path. case_goal; [done|]. destruct (strip_prefix "/" p) as [body|] eqn:E; [|done].
  apply strip_prefix_Some in E. destruct (String.eqb body ""); [done|].
  destruct (forallb _ _); [|done]. destruct (sg && negb b); [done|].
  intros [= <-]. simpl. by exists body.
Qed.

Lemma parse_unscoped raw k : key_parse raw false = inr k → key_rendered k = k_path k.
Proof.
  unfold key_parse, key_rendered.
  destruct (match strip_prefix (String SIGIL "") raw with Some _ => _ | None => _ end) as [sg p].
  destruct (validate_path p); [done|]. destruct sg; [done|]. by intros [= <-].
Qed.

(** A pattern that matches a reserved key is itself reserved. *)
Lemma matches_reserved pat b k path :
  key_parse pat b = inr k → matches_prefix (k_path k) path = true → is_reserved path = is_reserved (k_path k).
Proof.
  intros (body & Hb)%parse_slash. unfold matches_prefix. rewrite Hb.
  destruct (String.eqb_spec path (String "/" body)) as [->|_]; [done|].
  destruct (strip_prefix (String "/" body) path) as [rest|] eqn:E; [|done].
  intros (r & ->)%starts_with_spec. apply strip_prefix_Some in E. subst path.
  unfold is_reserved. apply bool_decide_ext.
  change (first_segment (String "/" body +:+ "/" +:+ r)) with (head (str_split path_slash (body +:+ String path_slash r))).
  change (first_segment (String "/" body)) with (head (str_split path_slash body)).
  by rewrite head_str_split_app.
Qed.

(** ** Batches *)

Inductive RegistryOp :=
  | OUpdate (es : list DataEntry) (now : Z)
  | ORemove (patterns : list string)
  | ORestore (path value : string) (created validated : Z) (ttl : option N).

Definition registry_step (r : Registry) (op : RegistryOp) : Registry :=
  match op with
  | OUpdate es now => (update es now r).2
  | ORemove ps => (registry_remove ps r).2
  | ORestore p v c t ttl => registry_restore p v c t ttl r
  end.

Lemma apply_one_reserved e now r path :
  is_reserved path = true → rg_entries (apply_one e now r).2 !! path = rg_entries r !! path.
Proof.
  intros Hp. unfold apply_one. destruct (key_parse (de_path e) false) as [|k] eqn:Ek; [done|].
  destruct (is_reserved (k_path k)) eqn:Er; [done|]. rewrite (parse_unscoped _ _ Ek).
  assert (path ≠ k_path k) by (intros ->; congruence).
  repeat case_goal; simpl; try done; by rewrite lookup_insert_ne.
Qed.

Lemma update_reserved es now r path :
  is_reserved path = true → rg_entries (update es now r).2 !! path = rg_entries r !! path.
Proof.
  intros Hp. revert r. induction es as [|e es IH]; intros r; [done|]. simpl.
  pose proof (apply_one_reserved e now r path Hp) as H. destruct (apply_one e now r) as [o r1].
  specialize (IH r1). destruct (update es now r1) as [os r2]. simpl in *. congruence.
Qed.

Lemma foldl_delete (m : gmap string Entry) ks k :
  foldl (λ m d, delete d m) m ks !! k = if decide (k ∈ ks) then None else m !! k.
Proof.
  revert m. induction ks as [|d ks IH]; intros m; [by rewrite decide_False by apply not_elem_of_nil|].
  cbn [foldl]. rewrite IH. destruct (decide (k ∈ ks)) as [H1|H1], (decide (k ∈ d :: ks)) as [H2|H2]; try done.
  - destruct H2. by right.
  - apply elem_of_cons in H2 as [->|?]; [apply lookup_delete_eq|done].
  - apply lookup_delete_ne. intros ->. apply H2. by left.
Qed.

Lemma elem_of_btree_keys (m : gmap string Entry) k : k ∈ btree_keys m ↔ is_Some (m !! k).
Proof.
  unfold btree_keys. rewrite elem_of_sort_strings, list_elem_of_fmap. split.
  - intros ([k' x] & -> & H%elem_of_map_to_list). by exists x.
  - intros [x H]. exists (k, x). split; [done|]. by apply elem_of_map_to_list.
Qed.

(** What one pattern removes. *)
Lemma remove_one_spec pattern r :
  match key_parse pattern false with
  | inr k => is_reserved (k_path k) = false →
      ro_rejected (remove_one pattern r).1 = None ∧
      ∀ path, rg_entries (remove_one pattern r).2 !! path =
        if matches_prefix (k_path k) path then None else rg_entries r !! path
  | inl _ => True
  end.
Proof.
  destruct (key_parse pattern false) as [|k] eqn:Ek; [done|]. intros Hr.
  unfold remove_one. rewrite Ek, Hr, (parse_unscoped _ _ Ek). split; [done|]. intros path. simpl.
  rewrite foldl_delete. destruct (matches_prefix (k_path k) path) eqn:Em.
  - case_decide as Hin; [done|]. apply eq_None_not_Some. intros Hs. apply Hin, elem_of_lfilter.
    split; [done|]. by apply elem_of_btree_keys.
  - case_decide as Hin; [|done]. apply elem_of_lfilter in Hin as [? _]. congruence.
Qed.

Lemma remove_reserved ps r path :
  is_reserved path = true → rg_entries (registry_remove ps r).2 !! path = rg_entries r !! path.
Proof.
  intros Hp. revert r. induction ps as [|pat ps IH]; intros r; [done|]. simpl.
  assert (rg_entries (remove_one pat r).2 !! path = rg_entries r !! path) as H.
  { pose proof (remove_one_spec pat r) as Hs. unfold remove_one in *.
    destruct (key_parse pat false) as [|k] eqn:Ek; [done|].
    destruct (is_reserved (k_path k)) eqn:Er; [done|]. destruct (Hs eq_refl) as [_ ->].
    destruct (matches_prefix (k_path k) path) eqn:Em; [|done].
    apply (matches_reserved _ _ _ _ Ek) in Em. congruence. }
  destruct (remove_one pat r) as [o r1]. specialize (IH r1).
  destruct (registry_remove ps r1) as [os r2]. simpl in *. congruence.
Qed.

(** C28: the broker's own facts cannot be forged or erased. No sequence of updates,
    removals by pattern and restores changes, adds or deletes any [/logmon] key;
    and the broker's own writer changes nothing outside [/logmon]. *)
Theorem reserved_safe ops r path :
  (is_reserved path = true → rg_entries (foldl registry_step r ops) !! path = rg_entries r !! path) ∧
  (is_reserved path = false → ∀ p v now, rg_entries (set_reserved p v now r).2 !! path = rg_entries r !! path).
Proof.
  split.
  - intros Hp. revert r. induction ops as [|op ops IH]; intros r; [done|]. simpl. rewrite IH.
    destruct op as [es now|ps|p v cr va ttl]; [by apply update_reserved|by apply remove_reserved|].
    simpl. unfold registry_restore. destruct (is_reserved p) eqn:Ep; [done|]. simpl.
    rewrite lookup_insert_ne; [done|]. intros ->. congruence.
  - intros Hp p v now. unfold set_reserved. destruct (is_reserved p) eqn:Ep; [|done]. simpl.
    assert (path ≠ p) by (intros ->; congruence).
    case_goal; simpl; by rewrite lookup_insert_ne.
Qed.

(** ** Removal *)

Lemma insert_string_perm x l : insert_string x l ≡ₚ x :: l.
Proof.
  induction l as [|y l IH]; [done|]. simpl. case_goal; [done|]. rewrite IH. apply Permutation_swap.
Qed.
Lemma sort_strings_perm l : sort_strings l ≡ₚ l.
Proof. induction l as [|x l IH]; [done|]. simpl. by rewrite insert_string_perm, IH. Qed.

(** Counting keys is counting entries. *)
Lemma count_keys (f : string → bool) (m : gmap string Entry) :
  length (List.filter f (btree_keys m)) = size (filter (λ ke, f ke.1 = true) m).
Proof.
  unfold btree_keys. rewrite sort_strings_perm, <-length_map_to_list, map_filter_alt, map_to_list_to_map.
  2: { eapply sublist_NoDup; [apply (NoDup_fst_map_to_list m)|apply fmap_sublist, sublist_filter]. }
  induction (map_to_list m) as [|[k x] l IH]; [done|]. simpl. rewrite filter_cons. simpl.
  destruct (f k); [rewrite decide_True by done; simpl; f_equal; exact IH|rewrite decide_False by done; exact IH].
Qed.

(** [path] is [dir] or below it, on a segment boundary. *)
Definition under (dir path : string) : Prop :=
  path = dir ∨ ∃ rest, path = (dir +:+ String "/" rest)%string.

(** Removing a pattern removes exactly the keys under it, on whole segments
    ([/Ver] never takes [/Versions] with it), and reports how many; a pattern that
    is malformed, scoped to a document or reserved is refused, with its reason,
    and removes nothing. *)
Theorem remove_exact pattern r :
  let '(o, r') := remove_one pattern r in
  match key_parse pattern false with
  | inl err => ro_rejected o = Some (key_reason err) ∧ ro_removed o = 0%nat ∧ r' = r
  | inr k =>
      if is_reserved (k_path k) then ro_rejected o = Some ReservedPrefix ∧ ro_removed o = 0%nat ∧ r' = r
      else ro_rejected o = None ∧
           ro_removed o = size (filter (λ ke, matches_prefix (k_path k) ke.1 = true) (rg_entries r)) ∧
           ∀ path, (under (k_path k) path → registry_get path r' = None) ∧
                   (¬ under (k_path k) path → registry_get path r' = registry_get path r)
  end.
Proof.
  pose proof (remove_one_spec pattern r) as Hs. unfold remove_one in *.
  destruct (key_parse pattern false) as [err|k] eqn:Ek; [done|].
  destruct (is_reserved (k_path k)); [done|]. destruct (Hs eq_refl) as [_ Hl].
  rewrite (parse_unscoped _ _ Ek) in *. split_and!; [done|apply count_keys|].
  intros path. unfold registry_get. rewrite Hl.
  assert (matches_prefix (k_path k) path = true ↔ under (k_path k) path) as Hm.
  { unfold matches_prefix, under. destruct (String.eqb_spec path (k_path k)) as [->|Hne]; [naive_solver|].
    destruct (strip_prefix (k_path k) path) as [rest|] eqn:E.
    - apply strip_prefix_Some in E. rewrite starts_with_spec. split.
      + intros (x & ->). right. by exists x.
      + intros [?|(x & Hx)]; [done|]. exists x. rewrite E in Hx. by apply (inj (String.append (k_path k))) in Hx.
    - split; [done|]. intros [?|(x & Hx)]; [done|].
      assert (strip_prefix (k_path k) path = Some (String "/" x)) by by apply strip_prefix_Some. congruence. }
  destruct (matches_prefix (k_path k) path); split; try done; naive_solver.
Qed.

(** ** Bounds of the registry under a clock that does not run back *)

Inductive ClockedOp :=
  | CUpdate (es : list DataEntry)
  | CRemove (patterns : list string)
  | CReserved (path value : string).

Definition clocked_step (r : Registry) (op : Z * ClockedOp) : Registry :=
  match op.2 with
  | CUpdate es => (update es op.1 r).2
  | CRemove ps => (registry_remove ps r).2
  | CReserved p v => (set_reserved p v op.1 r).2
  end.

Fixpoint clock_ok (t : Z) (ops : list (Z * ClockedOp)) : Prop :=
  match ops with
  | [] => True
  | op :: ops => (t ≤ op.1)%Z ∧ clock_ok op.1 ops
  end.

Definition entry_ok (t : Z) (k : string) (e : Entry) : Prop :=
  (en_created_at e ≤ en_validated_at e ≤ t)%Z ∧
  (is_reserved k = false →
     key_parse k false = inr (mkKey k false) ∧ (String.length (en_value e) ≤ MAX_VALUE_BYTES)%nat).

Record registry_ok (t : Z) (r : Registry) : Prop := {
  ro_entries k e : rg_entries r !! k = Some e → entry_ok t k e;
  ro_count : (counted_len r ≤ MAX_KEYS)%nat;
}.

Lemma counted_mono r (m : gmap string Entry) :
  (∀ k, is_Some (m !! k) → is_Some (rg_entries r !! k)) → (counted_len (set_entries m r) ≤ counted_len r)%nat.
Proof.
  intros Hm. unfold counted_len. apply submseteq_length, NoDup_submseteq.
  - assert (NoDup (btree_keys m)) as Hn.
    { unfold btree_keys. rewrite sort_strings_perm. apply (NoDup_fst_map_to_list m). }
    simpl. induction (btree_keys m) as [|k l IH]; [constructor|]. apply NoDup_cons in Hn as [Hk Hn]. simpl.
    case_goal; [|by apply IH]. constructor; [|by apply IH]. by intros [_ ?]%elem_of_lfilter.
  - intros k [Hk Hin%elem_of_btree_keys]%elem_of_lfilter. apply elem_of_lfilter.
    split; [done|]. by apply elem_of_btree_keys, Hm.
Qed.

Lemma counted_insert r k e :
  (counted_len (set_entries (<[k := e]> (rg_entries r)) r) ≤ S (counted_len r))%nat.
Proof.
  unfold counted_len. rewrite !count_keys. simpl.
  rewrite map_filter_insert. case_decide.
  - rewrite map_size_insert. destruct (_ !! k); simpl; lia.
  - etrans; [apply map_subseteq_size, map_filter_subseteq_mono, delete_subseteq|]. lia.
Qed.

Lemma put_ok t now r k e :
  registry_ok t r → (t ≤ now)%Z → entry_ok now k e →
  is_Some (rg_entries r !! k) ∨ is_reserved k = true ∨ (counted_len r < MAX_KEYS)%nat →
  registry_ok now (set_entries (<[k := e]> (rg_entries r)) r).
Proof.
  intros [He Hc] Ht Hk Hn. split.
  - intros k' e'. simpl. destruct (decide (k = k')) as [<-|Hne]; [rewrite lookup_insert_eq; by intros [= <-]|].
    rewrite lookup_insert_ne by done. intros [H1 H2]%He. split; [lia|done].
  - destruct Hn as [Hs|[Hr|Hlt]]; [| |pose proof (counted_insert r k e); lia].
    + etrans; [apply counted_mono|done]. intros k' H. destruct (decide (k = k')) as [<-|Hne]; [done|].
      by rewrite lookup_insert_ne in H.
    + unfold counted_len in *. rewrite count_keys in *. simpl.
      rewrite map_filter_insert_False by (simpl; by rewrite Hr). etrans; [|exact Hc].
      apply map_subseteq_size, map_filter_subseteq_mono, delete_subseteq.
Qed.

Lemma later_ok t now r : registry_ok t r → (t ≤ now)%Z → registry_ok now r.
Proof. intros [He Hc] Ht. split; [|done]. intros k e [H1 H2]%He. split; [lia|done]. Qed.

Lemma parse_again raw k : key_parse raw false = inr k → key_parse (k_path k) false = inr (mkKey (k_path k) false).
Proof.
  unfold key_parse. destruct (strip_prefix (String SIGIL "") raw) as [rest|] eqn:E.
  - destruct (validate_path rest); done.
  - destruct (validate_path raw) eqn:Ev; [done|]. intros [= <-]. cbn [k_path]. by rewrite E, Ev.
Qed.

Lemma apply_one_ok t now e r :
  registry_ok t r → (t ≤ now)%Z → registry_ok now (apply_one e now r).2.
Proof.
  intros Hr Ht. pose proof (later_ok _ _ _ Hr Ht) as Hl. unfold apply_one.
  destruct (key_parse (de_path e) false) as [|k] eqn:Ek; [done|].
  destruct (is_reserved (k_path k)) eqn:Er; [done|]. rewrite (parse_unscoped _ _ Ek).
  apply parse_again in Ek. destruct (match de_value e with Some _ => _ | None => _ end) eqn:Ev; [done|].
  destruct (de_value e) as [v|], (rg_entries r !! k_path k) as [x|] eqn:El; cbn [snd]; try exact Hl.
  - bool_to_prop. pose proof (ro_entries _ _ Hr _ _ El) as [H1 H2]. apply (put_ok t); [done|done| |eauto].
    split; simpl; [case_goal; lia|]. intros _. split; [done|lia].
  - destruct (MAX_KEYS <=? counted_len r)%nat eqn:Ec; cbn [snd]; [exact Hl|]. bool_to_prop.
    apply (put_ok t); [done|done| |right; by right]. split; simpl; [lia|]. intros _. split; [done|lia].
  - pose proof (ro_entries _ _ Hr _ _ El) as [H1 H2]. apply (put_ok t); [done|done| |eauto].
    split; simpl; [case_goal; lia|]. intros _. split; [done|by apply H2].
Qed.

Lemma clocked_ok t op r : registry_ok t r → (t ≤ op.1)%Z → registry_ok op.1 (clocked_step r op).
Proof.
  destruct op as [now op]. simpl. intros Hr Ht. unfold clocked_step. simpl.
  destruct op as [es|ps|p v].
  - revert r t Hr Ht. induction es as [|e es IH]; intros r t Hr Ht; [by eapply later_ok|]. simpl.
    pose proof (apply_one_ok t now e r Hr Ht) as H. destruct (apply_one e now r) as [o r1]. simpl in H.
    specialize (IH r1 now H ltac:(lia)). by destruct (update es now r1).
  - apply (later_ok t); [|done]. clear Ht. revert r Hr. induction ps as [|p ps IH]; intros r Hr; [done|]. simpl.
    assert (registry_ok t (remove_one p r).2) as H1.
    { unfold remove_one. destruct (key_parse p false) as [|k]; [done|]. case_goal; [done|]. simpl.
      set (ks := List.filter _ _).
      assert (∀ i x, foldl (λ m d, delete d m) (rg_entries r) ks !! i = Some x → rg_entries r !! i = Some x) as Hsub.
      { intros i x. rewrite foldl_delete. by case_decide. }
      split; [intros i x Hx%Hsub; by apply Hr|]. etrans; [apply counted_mono|apply Hr].
      intros i [x Hx%Hsub]. by exists x. }
    destruct (remove_one p r) as [o r1]. specialize (IH r1 H1). by destruct (registry_remove ps r1).
  - unfold set_reserved. destruct (is_reserved p) eqn:Ep; [|by eapply later_ok]. simpl.
    destruct (rg_entries r !! p) as [x|] eqn:El; simpl.
    + pose proof (ro_entries _ _ Hr _ _ El) as [H1 H2]. apply (put_ok t); [done|done| |eauto].
      split; simpl; [case_goal; lia|congruence].
    + apply (put_ok t); [done|done| |right; by left]. split; simpl; [lia|congruence].
Qed.

(** C29: whatever a domain's sessions and the broker write, under a clock that does
    not run back: the registry never holds more than 256 agent keys (the broker's
    own never count against them), every agent key is a well-formed path of at
    most 256 bytes with a value of at most 4096, and no fact was confirmed before
    it came into force or after the present. *)
Theorem registry_bounded t ops :
  clock_ok t ops →
  let r := foldl clocked_step registry_new ops in
  let t' := default t (fst <$> last ops) in
  (counted_len r ≤ MAX_KEYS)%nat ∧
  ∀ k e, registry_get k r = Some e →
    (en_created_at e ≤ en_validated_at e ≤ t')%Z ∧
    (is_reserved k = false → (String.length k ≤ MAX_PATH_BYTES)%nat ∧
       key_parse k false = inr (mkKey k false) ∧ (String.length (en_value e) ≤ MAX_VALUE_BYTES)%nat).
Proof.
  intros Hc. assert (∀ r t, registry_ok t r → clock_ok t ops →
    registry_ok (default t (fst <$> last ops)) (foldl clocked_step r ops)) as H.
  { clear. induction ops as [|op ops IH]; intros r t Hr Hc; [done|]. destruct Hc as [Ht Hc]. simpl foldl.
    specialize (IH _ _ (clocked_ok _ _ _ Hr Ht) Hc). rewrite last_cons. by destruct (last ops). }
  destruct (H registry_new t) as [He Hn]; [|done|].
  { split; [by intros k e|]. unfold counted_len. rewrite count_keys. simpl.
    by rewrite map_filter_empty, map_size_empty; unfold MAX_KEYS; lia. }
  split; [done|]. intros k e [H1 H2]%He. split; [done|]. intros Hk. destruct (H2 Hk) as [Hp Hv].
  split; [|done]. unfold key_parse in Hp.
  destruct (strip_prefix (String SIGIL "") k) as [rest|]; [by destruct (validate_path rest)|].
  destruct (validate_path k) eqn:E; [done|]. unfold validate_path in E.
  destruct (MAX_PATH_BYTES <? String.length k)%nat eqn:El; [done|]. by bool_to_prop.
Qed.

(** ** Lifetimes *)

Lemma split_last_snoc s a :
  is_continuation a = false → split_last (s +:+ String a "")%string = Some (s, String a "").
Proof.
  intros Ha. unfold split_last. unfold str_rev at 1. rewrite str_rev_app_app. simpl. rewrite Ha.
  fold (str_rev s). by rewrite str_rev_involutive.
Qed.

Lemma duration_literal n mult a :
  1 ≤ n → n * mult ≤ u64_max → 1 ≤ mult → unit_secs (String a "") = Some mult → is_continuation a = false →
  parse_duration (pretty n +:+ String a "")%string = Some (inr (n * mult)).
Proof.
  intros Hn Hm H1 Hu Ha. unfold parse_duration. rewrite split_last_snoc, Hu by done.
  destruct (pretty_digits n ltac:(nia)) as [Hp Hd]. rewrite Hd, Hp, orb_false_r.
  destruct (String.eqb_spec (pretty n) "") as [E|_].
  { rewrite E in Hp. injection Hp as <-. lia. }
  destruct (N.eqb_spec n 0); [lia|]. destruct (N.ltb_spec u64_max (n * mult)); [lia|done].
Qed.

(** A lifetime survives being shown and typed back: rendering any lifetime a
    registry can hold gives a literal that parses to the same number of seconds,
    and a literal that parses always gives between one second and [u64::MAX]. *)
Theorem duration_roundtrip :
  (∀ n, 1 ≤ n ≤ u64_max → parse_duration (render_duration n) = Some (inr n)) ∧
  (∀ s n, parse_duration s = Some (inr n) → 1 ≤ n ≤ u64_max).
Proof.
  split.
  - intros n Hn. unfold render_duration. simpl.
    assert (∀ mult, 1 ≤ mult → (n mod mult =? 0) = true → 1 ≤ n / mult ∧ n / mult * mult = n) as Hd.
    { intros mult Hm He%N.eqb_eq. pose proof (N.div_mod n mult ltac:(lia)). nia. }
    repeat match goal with |- context [n mod ?m =? 0] =>
      destruct (n mod m =? 0) eqn:E; [|clear E];
        [destruct (Hd m ltac:(lia) E) as [H1 H2]; pose proof (λ a, duration_literal (n / m) m a H1) as H;
         rewrite H2 in H; apply H; (done || lia)|]
    end.
    pose proof (duration_literal n 1 "s") as H. rewrite N.mul_1_r in H. apply H; (done || lia).
  - intros s n. unfold parse_duration. destruct (split_last s) as [[digits unit]|]; [|done].
    destruct (unit_secs unit) as [mult|] eqn:Eu; [|done]. destruct (_ || _); [done|].
    destruct (parse_digits 0 digits) as [m|]; [|done]. destruct (N.eqb_spec m 0); [done|].
    destruct (N.ltb_spec u64_max (m * mult)); [done|]. intros [= <-]. split; [|done].
    assert (1 ≤ mult) as Hm; [|nia]. revert Eu. unfold unit_secs. repeat case_goal; intros [=]; lia.
Qed.

(** ** The file outlives the broker *)

Section survive.
Context {X : Externals} (to_rfc3339 : Z → string).

(** What the broker does with the open registries between two starts. *)
Inductive DataOp :=
  | DMutate (domain : string) (op : RegistryOp) (now : Z) (renamed : bool) (open_error write_error : option string)
  | DSeqOrigin (domain : string) (now : Z) (renamed : bool) (open_error write_error : option string)
  | DForget (domain : string).

Definition data_step (st : DomainDataStore * Disk) (op : DataOp) : DomainDataStore * Disk :=
  let '(s, disk) := st in
  match op with
  | DMutate d op now ren oe we =>
      let '(_, _, s, disk) := mutate_domain to_rfc3339 d (λ r, (tt, registry_step r op)) now ren oe we s disk in
      (s, disk)
  | DSeqOrigin d now ren oe we => note_seq_origin to_rfc3339 d now ren oe we s disk
  | DForget d => (store_forget d s, disk)
  end.

(** An open registry is its domain's, and is written to its domain's file. *)
Definition open_ok (d : string) (reg : DomainRegistry) : Prop :=
  dr_domain reg = d ∧ dr_file reg = file_name_for d ∧ dr_ephemeral reg = false.
Definition store_ok (s : DomainDataStore) : Prop := map_Forall open_ok (dd_open s).

Lemma mutate_ok {T} (f : Registry → T * Registry) we reg disk d :
  open_ok d reg → open_ok d (mutate f we reg disk).1.2.
Proof. unfold mutate. destruct (f (dr_data reg)). intros (H1&H2&H3). simpl. rewrite H3. by destruct we. Qed.

Lemma seq_origin_ok now we reg disk d :
  open_ok d reg → open_ok d (reg_note_seq_origin to_rfc3339 now we reg disk).1.2.
Proof.
  intros H. unfold reg_note_seq_origin. destruct (registry_get _ _ ≫= _) as [n|]; [|done].
  destruct (mutate _ we reg disk) as [[[u sv] reg'] disk'] eqn:Em.
  change reg' with (u, sv, reg', disk').1.2. rewrite <-Em. by apply mutate_ok.
Qed.

Lemma for_domain_ok d now ren we s disk :
  store_ok s → open_ok d (for_domain to_rfc3339 d now ren we s disk).1.1 ∧
               store_ok (for_domain to_rfc3339 d now ren we s disk).1.2.
Proof.
  intros Hs. unfold for_domain. destruct (dd_open s !! d) as [reg|] eqn:E; [split; [by apply Hs|done]|].
  destruct (load ren (file_name_for d) disk) as [r disk1]. unfold stamp_boot. cbn [fst snd].
  destruct (mutate _ we (domreg_new d (file_name_for d) r) disk1) as [[[u sv] reg] disk2] eqn:Em.
  assert (open_ok d reg) as H.
  { change reg with (u, sv, reg, disk2).1.2. rewrite <-Em. by apply mutate_ok. }
  split; [done|]. by apply map_Forall_insert_2.
Qed.

Lemma data_step_ok st op : store_ok st.1 → store_ok (data_step st op).1.
Proof.
  destruct st as [s disk]. intros Hs. destruct op as [d op now ren oe we|d now ren oe we|d]; simpl.
  - unfold mutate_domain. pose proof (for_domain_ok d now ren oe s disk Hs) as [H1 H2].
    destruct (for_domain _ _ _ _ _ _ _) as [[reg s1] disk1]. simpl in *.
    pose proof (mutate_ok (λ r, (tt, registry_step r op)) we reg disk1 d H1) as H3.
    destruct (mutate _ _ _ _) as [[[u sv] reg'] disk2]. by apply map_Forall_insert_2.
  - unfold note_seq_origin. destruct (disk !! _); [|done].
    pose proof (for_domain_ok d now ren oe s disk Hs) as [H1 H2].
    destruct (for_domain _ _ _ _ _ _ _) as [[reg s1] disk1]. cbn [fst snd] in *.
    pose proof (seq_origin_ok now we reg disk1 d H1) as H3.
    destruct (reg_note_seq_origin _ _ _ _ _) as [[sv reg'] disk2]. by apply map_Forall_insert_2.
  - by apply map_Forall_delete.
Qed.

Lemma data_run_ok ops st : store_ok st.1 → store_ok (foldl data_step st ops).1.
Proof. revert st. induction ops as [|op ops IH]; intros st H; [done|]. by apply IH, data_step_ok. Qed.

Lemma stamp_other kvs now r path :
  Forall (λ kv, kv.1 ≠ path) kvs → registry_get path (stamp kvs now r) = registry_get path r.
Proof.
  intros H. revert r. induction H as [|[k v] kvs Hk _ IH]; intros r; [done|].
  unfold stamp in *. simpl. rewrite IH. unfold set_reserved, registry_get. simpl in Hk.
  repeat case_goal; simpl; try done; by rewrite lookup_insert_ne.
Qed.

Lemma boot_keys_reserved d v now b : Forall (λ kv, is_reserved kv.1 = true) (boot_keys to_rfc3339 d v now b).
Proof. unfold boot_keys. destruct b; repeat (constructor; [by vm_compute|]); constructor. Qed.

Lemma load_saved ren file d entries (disk : Disk) :
  load ren file (<[file := FParsed (mkPersistedReg FORMAT_VERSION d entries)]> disk) =
  (registry_from_entries entries, <[file := FParsed (mkPersistedReg FORMAT_VERSION d entries)]> disk).
Proof. unfold load, Disk. by rewrite lookup_insert_eq. Qed.

(** C27: a domain's facts outlive the broker. Start with any disk, do anything to any
    domains, with writes failing or not; if then a request on domain [d] is
    reported saved, a new broker (any version, any clock) that opens [d] finds
    every agent fact exactly as that request left it, value and ages included, and
    the same incarnation number if the registry had any entry. *)
Theorem registry_survives version disk0 ops d {T} (f : Registry → T * Registry) now ren oe we out s1 disk1 :
  let '(s, disk) := foldl data_step (store_new version, disk0) ops in
  mutate_domain to_rfc3339 d f now ren oe we s disk = (out, None, s1, disk1) →
  ∃ reg1, dd_open s1 !! d = Some reg1 ∧
  ∀ version2 now2 ren2 we2,
    let reg2 := (for_domain to_rfc3339 d now2 ren2 we2 (store_new version2) disk1).1.1 in
    (∀ path, is_reserved path = false → registry_get path (dr_data reg2) = registry_get path (dr_data reg1)) ∧
    (rg_entries (dr_data reg1) ≠ ∅ →
     registry_get "/logmon/incarnation" (dr_data reg2) = registry_get "/logmon/incarnation" (dr_data reg1)).
Proof.
  pose proof (data_run_ok ops (store_new version, disk0) ltac:(by apply map_Forall_empty)) as Hs.
  destruct (foldl data_step (store_new version, disk0) ops) as [s disk]. cbn [fst] in Hs. unfold mutate_domain.
  pose proof (for_domain_ok d now ren oe s disk Hs) as [H1 _].
  destruct (for_domain _ _ _ _ _ s disk) as [[reg s'] disk']. cbn [fst] in H1. unfold mutate.
  destruct H1 as (Hd & Hf & He). destruct (f (dr_data reg)) as [o data]. cbn [dr_ephemeral]. rewrite He.
  destruct we; [done|]. intros [= <- <- <-]. cbn [dr_file dr_domain].
  eexists. split; [apply lookup_insert_eq|]. intros v2 now2 ren2 we2. cbn zeta.
  unfold for_domain. cbn [dd_open store_new]. rewrite lookup_empty, Hf, load_saved.
  unfold stamp_boot, mutate. cbn [dr_data registry_from_entries dr_domain domreg_new dr_ephemeral rg_entries dd_version].
  assert (∀ path, (is_reserved path = false ∨
                   rg_entries data ≠ ∅ ∧ path = "/logmon/incarnation"%string) →
    registry_get path (stamp (boot_keys to_rfc3339 d v2 now2 (bool_decide (rg_entries data = ∅))) now2
      (registry_from_entries (rg_entries data))) = registry_get path data) as H.
  { intros path Hp. rewrite stamp_other; [done|]. destruct Hp as [Hp|[Hne ->]].
    - eapply Forall_impl; [apply boot_keys_reserved|]. intros kv Hk Heq. simpl in Hk. congruence.
    - rewrite bool_decide_eq_false_2 by done. repeat (constructor; [done|]). constructor. }
  split; [intros path Hp|intros Hne]; destruct we2; cbn [fst dr_data]; apply H; auto.
Qed.
End survive.

(** ** Edges *)

(** A lifetime that ends in a character of more than one byte: [split_at] panics. *)
Example duration_panics : parse_duration (String "5" (String "195" (String "169" ""))) = None.
Proof. vm_compute. reflexivity. Qed.

(** A lifetime past [i64::MAX] seconds is expired the moment it is confirmed. *)
Example long_lifetime_expired v now : is_expired now (mkEntry v now now (Some 9223372036854775808)) = Some true.
Proof. unfold is_expired, entry_age. cbn [en_ttl_secs en_validated_at fmap option_fmap option_map]. by rewrite Z.sub_diag. Qed.

(** A full document refuses even a new value for a fact it already holds. *)
Example full_scope_refuses_overwrite e key v fs :
  key_parse (de_path e) true = inr key → is_reserved (k_path key) = false → de_value e = Some v →
  (String.length v ≤ MAX_VALUE_BYTES)%nat → length fs = MAX_SIGIL_KEYS →
  scope_one e fs = (Some (mkDataOutcome (de_path e) (Rejected RegistryFull)), fs).
Proof.
  intros Hk Hr Hv Hl Hn. unfold scope_one. rewrite Hk, Hr, Hv, Hn, Nat.leb_refl.
  destruct (Nat.ltb_spec MAX_VALUE_BYTES (String.length v)); [lia|done].
Qed.

(** ** Witnesses *)

Definition sample_fact : DataEntry := mkData "/build/version" (Some "1.2"%string) (Some (TtlSet 60)).

Lemma registry_bounded_witness :
  clock_ok 5 [(7%Z, CUpdate [sample_fact]); (9%Z, CReserved "/logmon/domain" "d")] ∧
  counted_len (foldl clocked_step registry_new
    [(7%Z, CUpdate [sample_fact]); (9%Z, CReserved "/logmon/domain" "d")]) = 1%nat ∧
  (counted_len (foldl clocked_step registry_new
    [(7%Z, CUpdate [sample_fact]); (9%Z, CReserved "/logmon/domain" "d")]) ≤ MAX_KEYS)%nat.
Proof.
  split_and!; [simpl; lia|by vm_compute|].
  apply (registry_bounded 5 [(7%Z, CUpdate [sample_fact]); (9%Z, CReserved "/logmon/domain" "d")]). simpl; lia.
Defined.

Definition sample_saved :=
  mutate_domain (X:=sample_externals) (λ _, "t"%string) "d" (update [sample_fact] 7) 7 false None None
    (store_new "1") ∅.

Lemma sample_saved_eq :
  (sample_saved.1.1.1, sample_saved.1.1.2,
   (dr_data <$> dd_open sample_saved.1.2 !! "d"%string) ≫= registry_get "/build/version")
  = ([mkDataOutcome "/build/version" Created], None, Some (mkEntry "1.2" 7 7 (Some 60))).
Proof. vm_compute. reflexivity. Qed.

Lemma registry_survives_witness :
  ∃ s1 disk1,
    sample_saved = ([mkDataOutcome "/build/version" Created], None, s1, disk1) ∧
    registry_get "/build/version"
      (dr_data (for_domain (X:=sample_externals) (λ _, "t"%string) "d" 9 false None (store_new "2") disk1).1.1)
    = Some (mkEntry "1.2" 7 7 (Some 60)).
Proof.
  pose proof sample_saved_eq as E. destruct sample_saved as [[[out w] s1] disk1] eqn:Es.
  cbn [fst snd] in E. injection E as -> -> Hg. exists s1, disk1. split; [reflexivity|].
  destruct (registry_survives (X:=sample_externals) (λ _, "t"%string) "1" ∅ [] "d" _ 7 false None None _ s1 disk1 Es)
    as (reg1 & H1 & H2).
  rewrite H1 in Hg. cbn [fmap option_fmap option_map mbind option_bind] in Hg.
  destruct (H2 "2"%string 9%Z false None) as [H3 _]. rewrite H3; [exact Hg|vm_compute; reflexivity].
Defined.
