(* ===== verification/Session.v ===== *)
(** * Session: the session registry ([daemon/session.rs])

    Sessions hold the configuration (triggers, filters, notification queue) and
    are bound to one domain each. The registry is a [HashMap] under one
    [RwLock]; operations that walk it take its iteration order [ord] as an
    argument, so that every property holds whatever the order. An operation that
    creates a session is [None] where [TriggerManager::new] panics. *)

From S2P Require Import Prelude Text F64 Gelf Filter Matcher Epoch Trigger Bookmarks Pipeline SpanStore.

Set Default Proof Using "Type".
Local Open Scope N_scope.

Inductive SessionId := Anonymous (id : string) | Named (name : string).

#[global] Instance SessionId_eq_dec : EqDecision SessionId.
Proof. solve_decision. Defined.
#[global] Instance SessionId_countable : Countable SessionId.
Proof.
  apply (inj_countable' (λ i, match i with Anonymous s => inl s | Named s => inr s end)
           (λ s, match s with inl s => Anonymous s | inr s => Named s end)).
  by intros [].
Defined.

(** [Display] of a [SessionId]. *)
Definition id_string (i : SessionId) : string :=
  match i with Anonymous s => s | Named s => s end.

(** [DomainId]. *)
Definition DomainId : Type := string.
Definition default_domain : DomainId := "default"%string.

Definition is_valid_name (name : string) : bool :=
  if String.eqb name "" then false
  else str_forall (λ a, is_ascii_alphanumeric a || Ascii.eqb a "_" || Ascii.eqb a "-") name.

Definition MAX_BUFFER_SIZE : N := 10000000.

Inductive DisposeOutcome := Disposed | NotAbandoned | Gone.

Section session.
Context {X : Externals}.

Inductive SessionError :=
  | InvalidSessionName (s : string)
  | AlreadyConnected (s : string)
  | SessionAlreadyExists (s : string)
  | SessionNotFound (s : string)
  | SessionFilterError (e : FilterParseError)
  | SessionTriggerError (e : TriggerError).

Record BufferFilterEntry := mkFilterEntry {
  bf_id : N;
  bf_condition : ParsedFilter;
  bf_filter_string : string;
  bf_description : option string;
}.

Record FilterInfo := mkFilterInfo {
  fi_id : N;
  fi_filter_string : string;
  fi_description : option string;
}.

Definition filter_info (f : BufferFilterEntry) : FilterInfo :=
  mkFilterInfo (bf_id f) (bf_filter_string f) (bf_description f).

(** [last_seen] is an instant in nanoseconds. *)
Record SessionState := mkSession {
  s_name : option string;
  s_triggers : TriggerManager;
  s_filters : list BufferFilterEntry;
  s_next_filter_id : N;
  s_notification_queue : list PipelineEvent;
  s_max_queue_size : nat;
  s_post_window_remaining : N;
  s_connected : bool;
  s_last_seen : Z;
  s_client_info : option Value;
  s_domain : DomainId;
  s_touched_domains : gset DomainId;
}.

Record SessionInfo := mkSessionInfo {
  si_id : SessionId;
  si_name : option string;
  si_connected : bool;
  si_trigger_count : nat;
  si_filter_count : nat;
  si_queue_size : nat;
  si_last_seen_secs_ago : Z;
  si_client_info : option Value;
}.

Definition SessionRegistry : Type := gmap SessionId SessionState.

(** The order a walk of the map takes. *)
Definition Order : Type := SessionRegistry → list (SessionId * SessionState).
Definition order_ok (ord : Order) : Prop := ∀ m, ord m ≡ₚ map_to_list m.

(** ** Field updates *)

Definition set_triggers (t : TriggerManager) (s : SessionState) : SessionState :=
  mkSession (s_name s) t (s_filters s) (s_next_filter_id s) (s_notification_queue s)
    (s_max_queue_size s) (s_post_window_remaining s) (s_connected s) (s_last_seen s)
    (s_client_info s) (s_domain s) (s_touched_domains s).
Definition set_filters (f : list BufferFilterEntry) (next : N) (s : SessionState) : SessionState :=
  mkSession (s_name s) (s_triggers s) f next (s_notification_queue s)
    (s_max_queue_size s) (s_post_window_remaining s) (s_connected s) (s_last_seen s)
    (s_client_info s) (s_domain s) (s_touched_domains s).
Definition set_queue (q : list PipelineEvent) (s : SessionState) : SessionState :=
  mkSession (s_name s) (s_triggers s) (s_filters s) (s_next_filter_id s) q
    (s_max_queue_size s) (s_post_window_remaining s) (s_connected s) (s_last_seen s)
    (s_client_info s) (s_domain s) (s_touched_domains s).
Definition set_window (n : N) (s : SessionState) : SessionState :=
  mkSession (s_name s) (s_triggers s) (s_filters s) (s_next_filter_id s) (s_notification_queue s)
    (s_max_queue_size s) n (s_connected s) (s_last_seen s)
    (s_client_info s) (s_domain s) (s_touched_domains s).
Definition set_connected (c : bool) (seen : Z) (s : SessionState) : SessionState :=
  mkSession (s_name s) (s_triggers s) (s_filters s) (s_next_filter_id s) (s_notification_queue s)
    (s_max_queue_size s) (s_post_window_remaining s) c seen
    (s_client_info s) (s_domain s) (s_touched_domains s).
Definition set_info (i : option Value) (s : SessionState) : SessionState :=
  mkSession (s_name s) (s_triggers s) (s_filters s) (s_next_filter_id s) (s_notification_queue s)
    (s_max_queue_size s) (s_post_window_remaining s) (s_connected s) (s_last_seen s)
    i (s_domain s) (s_touched_domains s).
Definition renamed (name : string) (seen : Z) (s : SessionState) : SessionState :=
  mkSession (Some name) (s_triggers s) (s_filters s) (s_next_filter_id s) (s_notification_queue s)
    (s_max_queue_size s) (s_post_window_remaining s) (s_connected s) seen
    (s_client_info s) (s_domain s) (s_touched_domains s).

(** [SessionState::new_anonymous] and [new_named]. *)
Definition new_state (name : option string) (now : Z) : option SessionState :=
  (λ t, mkSession name t [] 1 [] 1000 0 true now None default_domain {[default_domain]})
    <$> Trigger.new.
Definition new_anonymous (now : Z) : option SessionState := new_state None now.
Definition new_named (name : string) (now : Z) : option SessionState := new_state (Some name) now.

(** [as_secs] of a saturating difference of instants. *)
Definition elapsed (now seen : Z) : Z := Z.max 0 (now - seen).

Definition to_info (now : Z) (id : SessionId) (s : SessionState) : SessionInfo :=
  mkSessionInfo id (s_name s) (s_connected s) (length (list_triggers (s_triggers s)))
    (length (s_filters s)) (length (s_notification_queue s))
    (elapsed now (s_last_seen s) / 1000000000) (s_client_info s).

Definition is_in_domain (d : DomainId) (s : SessionState) : bool := String.eqb (s_domain s) d.

(** ** Lifecycle *)

Definition refuse_an_anonymous_id (reg : SessionRegistry) (name : string) : bool :=
  bool_decide (is_Some (reg !! Anonymous name)).

Definition create_anonymous (uuid : string) (now : Z) (reg : SessionRegistry)
  : option (SessionId * SessionRegistry) :=
  (λ st, (Anonymous uuid, <[Anonymous uuid := st]> reg)) <$> new_anonymous now.

Definition create_named (name : string) (now : Z) (reg : SessionRegistry)
  : option ((SessionError + SessionId) * SessionRegistry) :=
  if negb (is_valid_name name) then Some (inl (InvalidSessionName name), reg)
  else if refuse_an_anonymous_id reg name then Some (inl (AlreadyConnected name), reg)
  else match reg !! Named name with
  | Some existing =>
      Some (inl (if s_connected existing then AlreadyConnected name else SessionAlreadyExists name), reg)
  | None => (λ st, (inr (Named name), <[Named name := st]> reg)) <$> new_named name now
  end.

(** The id and whether it is new. *)
Definition claim_named (name : string) (now : Z) (reg : SessionRegistry)
  : option ((SessionError + SessionId * bool) * SessionRegistry) :=
  if negb (is_valid_name name) then Some (inl (InvalidSessionName name), reg)
  else if refuse_an_anonymous_id reg name then Some (inl (AlreadyConnected name), reg)
  else match reg !! Named name with
  | Some existing =>
      if s_connected existing then Some (inl (AlreadyConnected name), reg)
      else Some (inr (Named name, false), <[Named name := set_connected true now existing]> reg)
  | None => (λ st, (inr (Named name, true), <[Named name := st]> reg)) <$> new_named name now
  end.

Definition reconnect (id : SessionId) (now : Z) (reg : SessionRegistry)
  : option SessionError * SessionRegistry :=
  match reg !! id with
  | None => (Some (SessionNotFound (id_string id)), reg)
  | Some st =>
      if s_connected st then (Some (AlreadyConnected (id_string id)), reg)
      else match id with
           | Anonymous _ => (Some (SessionNotFound (id_string id)), reg)
           | Named _ => (None, <[id := set_connected true now st]> reg)
           end
  end.

Definition disconnect (id : SessionId) (now : Z) (reg : SessionRegistry) : SessionRegistry :=
  match id with
  | Anonymous _ => delete id reg
  | Named _ => alter (set_connected false now) id reg
  end.

Definition set_client_info (id : SessionId) (info : option Value) (reg : SessionRegistry)
  : SessionRegistry := alter (set_info info) id reg.

(** The closures run under the registry's lock, on the rest of the world. *)
Definition rename {W : Type} (old : SessionId) (new_name : string) (transfer : SessionId → bool → W → W)
  (now : Z) (reg : SessionRegistry) (w : W)
  : (SessionError + SessionId * bool) * SessionRegistry * W :=
  if negb (is_valid_name new_name) then (inl (InvalidSessionName new_name), reg, w)
  else
    let new_id := Named new_name in
    if bool_decide (old = new_id) then (inr (new_id, false), reg, w)
    else match reg !! old with
    | None => (inl (SessionNotFound (id_string old)), reg, w)
    | Some _ =>
        if negb (bool_decide (old = Anonymous new_name)) && refuse_an_anonymous_id reg new_name then
          (inl (AlreadyConnected new_name), reg, w)
        else
          let checked := match reg !! new_id with
                         | Some existing => if s_connected existing then None else Some (delete new_id reg, true)
                         | None => Some (reg, false)
                         end in
          match checked with
          | None => (inl (AlreadyConnected new_name), reg, w)
          | Some (reg1, displaced) =>
              match reg1 !! old with
              | Some st =>
                  (inr (new_id, displaced), <[new_id := renamed new_name now st]> (delete old reg1),
                   transfer new_id displaced w)
              | None => (inl (SessionNotFound (id_string old)), reg, w)
              end
          end
    end.

Definition abandoned (ttl now : Z) (s : SessionState) : bool :=
  negb (s_connected s) && (ttl <? elapsed now (s_last_seen s))%Z.

Definition dispose_if_expired {W : Type} (id : SessionId) (ttl : Z) (cleanup : W → W) (now : Z)
  (reg : SessionRegistry) (w : W) : DisposeOutcome * SessionRegistry * W :=
  match reg !! id with
  | None => (Gone, reg, w)
  | Some st => if abandoned ttl now st then (Disposed, delete id reg, cleanup w)
               else (NotAbandoned, reg, w)
  end.

Definition expired_disconnected (ord : Order) (ttl now : Z) (reg : SessionRegistry) : list SessionId :=
  (List.filter (λ kv, abandoned ttl now kv.2) (ord reg)).*1.

Definition drop_session {W : Type} (name : string) (cleanup : bool → W → W)
  (reg : SessionRegistry) (w : W) : option SessionError * SessionRegistry * W :=
  let id := Named name in
  match reg !! id with
  | None => (Some (SessionNotFound name), reg, cleanup false w)
  | Some st =>
      if s_connected st then (Some (AlreadyConnected name), reg, w)
      else (None, delete id reg, cleanup true w)
  end.

(** Connected first, then by label. *)
Definition label_before (a b : bool * string) : bool :=
  if eqb a.1 b.1 then String.leb a.2 b.2 && negb (String.eqb a.2 b.2) else a.1.

Definition sessions_bound_to (ord : Order) (d : DomainId) (reg : SessionRegistry) : list string :=
  (stable_sort label_before
     ((λ kv : SessionId * SessionState,
         (s_connected kv.2,
          if s_connected kv.2 then id_string kv.1 else (id_string kv.1 +:+ " (disconnected)")%string))
      <$> List.filter (λ kv, is_in_domain d kv.2) (ord reg))).*2.

(** ** Domain binding *)

Definition domain_of (id : SessionId) (reg : SessionRegistry) : DomainId :=
  match reg !! id with Some st => s_domain st | None => default_domain end.

Definition touched_domains (id : SessionId) (reg : SessionRegistry) : list DomainId :=
  match reg !! id with Some st => elements (s_touched_domains st) | None => [] end.

Definition bind_domain (d : DomainId) (s : SessionState) : SessionState :=
  let touched := {[d]} ∪ s_touched_domains s in
  if bool_decide (s_domain s = d) then
    mkSession (s_name s) (s_triggers s) (s_filters s) (s_next_filter_id s) (s_notification_queue s)
      (s_max_queue_size s) (s_post_window_remaining s) (s_connected s) (s_last_seen s)
      (s_client_info s) (s_domain s) touched
  else
    mkSession (s_name s) (reset_post_windows (s_triggers s)) (s_filters s) (s_next_filter_id s) []
      (s_max_queue_size s) 0 (s_connected s) (s_last_seen s) (s_client_info s) d touched.

Definition set_domain (id : SessionId) (d : DomainId) (reg : SessionRegistry) : SessionRegistry :=
  alter (bind_domain d) id reg.

(** ** Queries *)

Definition is_connected (id : SessionId) (reg : SessionRegistry) : bool :=
  match reg !! id with Some st => s_connected st | None => false end.
Definition get (now : Z) (id : SessionId) (reg : SessionRegistry) : option SessionInfo :=
  to_info now id <$> reg !! id.
Definition list_sessions (ord : Order) (now : Z) (reg : SessionRegistry) : list SessionInfo :=
  (λ kv, to_info now kv.1 kv.2) <$> ord reg.

(** ** Triggers of a session *)

(** Run [f] on the triggers of a session; [dflt] is the answer for an unknown id. *)
Definition on_triggers {A : Type} (id : SessionId) (dflt : A) (f : TriggerManager → A * TriggerManager)
  (reg : SessionRegistry) : A * SessionRegistry :=
  match reg !! id with
  | Some st => let '(a, t) := f (s_triggers st) in (a, <[id := set_triggers t st]> reg)
  | None => (dflt, reg)
  end.

Definition evaluate_triggers (id : SessionId) (e : LogEntry) (reg : SessionRegistry)
  : list TriggerMatch * SessionRegistry := on_triggers id [] (evaluate e) reg.
Definition evaluate_span_triggers (id : SessionId) (sp : SpanEntry) (reg : SessionRegistry)
  : list TriggerMatch * SessionRegistry := on_triggers id [] (evaluate_span sp) reg.
Definition list_session_triggers (id : SessionId) (reg : SessionRegistry) : list TriggerInfo :=
  match reg !! id with Some st => list_triggers (s_triggers st) | None => [] end.

Definition lift_trigger_error {A : Type} (r : TriggerError + A) : SessionError + A :=
  match r with inl e => inl (SessionTriggerError e) | inr a => inr a end.

Definition add_trigger (id : SessionId) (filter : string) (pre post ctx : N) (desc : option string)
  (oneshot : bool) (reg : SessionRegistry) : (SessionError + N) * SessionRegistry :=
  on_triggers id (inl (SessionNotFound (id_string id)))
    (λ t, let '(r, t) := Trigger.add filter pre post ctx desc oneshot t in (lift_trigger_error r, t)) reg.

Definition edit_trigger (id : SessionId) (trigger_id : N) (filter : option string)
  (pre post ctx : option N) (desc : option string) (oneshot : option bool) (reg : SessionRegistry)
  : (SessionError + TriggerInfo) * SessionRegistry :=
  on_triggers id (inl (SessionNotFound (id_string id)))
    (λ t, let '(r, t) := edit trigger_id filter pre post ctx desc oneshot t in
          (lift_trigger_error r, t)) reg.

Definition remove_trigger (id : SessionId) (trigger_id : N) (reg : SessionRegistry)
  : option SessionError * SessionRegistry :=
  on_triggers id (Some (SessionNotFound (id_string id)))
    (λ t, let '(r, t) := Trigger.remove trigger_id t in (SessionTriggerError <$> r, t)) reg.

(** ** Filters of a session *)

Definition list_filters (id : SessionId) (reg : SessionRegistry) : list FilterInfo :=
  match reg !! id with Some st => filter_info <$> s_filters st | None => [] end.

Definition push_filter (filter : string) (c : ParsedFilter) (desc : option string) (st : SessionState)
  : SessionState :=
  set_filters (s_filters st ++ [mkFilterEntry (s_next_filter_id st) c filter desc])
    (u32_incr (s_next_filter_id st)) st.

Definition add_filter (id : SessionId) (filter : string) (desc : option string) (reg : SessionRegistry)
  : (SessionError + N) * SessionRegistry :=
  match parse_filter filter with
  | inl e => (inl (SessionFilterError e), reg)
  | inr c =>
      match reg !! id with
      | None => (inl (SessionNotFound (id_string id)), reg)
      | Some st => (inr (s_next_filter_id st), <[id := push_filter filter c desc st]> reg)
      end
  end.

Definition unknown_filter (filter_id : N) : SessionError :=
  SessionNotFound ("filter " +:+ pretty filter_id).

Fixpoint edit_first (filter_id : N) (f : BufferFilterEntry → BufferFilterEntry)
  (fs : list BufferFilterEntry) : option (BufferFilterEntry * list BufferFilterEntry) :=
  match fs with
  | [] => None
  | x :: fs => if bf_id x =? filter_id then Some (f x, f x :: fs)
               else prod_map id (cons x) <$> edit_first filter_id f fs
  end.

Definition edit_filter (id : SessionId) (filter_id : N) (filter : option string) (desc : option string)
  (reg : SessionRegistry) : (SessionError + FilterInfo) * SessionRegistry :=
  let parsed := match filter with
                | None => inr None
                | Some f => match parse_filter f with inl e => inl e | inr c => inr (Some (f, c)) end
                end in
  match parsed with
  | inl e => (inl (SessionFilterError e), reg)
  | inr new_condition =>
      match reg !! id with
      | None => (inl (SessionNotFound (id_string id)), reg)
      | Some st =>
          let f x := mkFilterEntry (bf_id x)
                       (match new_condition with Some (_, c) => c | None => bf_condition x end)
                       (match new_condition with Some (s, _) => s | None => bf_filter_string x end)
                       (match desc with Some d => Some d | None => bf_description x end) in
          match edit_first filter_id f (s_filters st) with
          | None => (inl (unknown_filter filter_id), reg)
          | Some (x, fs) => (inr (filter_info x), <[id := set_filters fs (s_next_filter_id st) st]> reg)
          end
      end
  end.

Fixpoint remove_first_filter (filter_id : N) (fs : list BufferFilterEntry)
  : option (list BufferFilterEntry) :=
  match fs with
  | [] => None
  | x :: fs => if bf_id x =? filter_id then Some fs else cons x <$> remove_first_filter filter_id fs
  end.

Definition remove_filter (id : SessionId) (filter_id : N) (reg : SessionRegistry)
  : option SessionError * SessionRegistry :=
  match reg !! id with
  | None => (Some (SessionNotFound (id_string id)), reg)
  | Some st =>
      match remove_first_filter filter_id (s_filters st) with
      | None => (Some (unknown_filter filter_id), reg)
      | Some fs => (None, <[id := set_filters fs (s_next_filter_id st) st]> reg)
      end
  end.

(** ** The post-trigger storage window *)

Definition decrement_post_window (id : SessionId) (reg : SessionRegistry) : bool * SessionRegistry :=
  match reg !! id with
  | None => (false, reg)
  | Some st =>
      let current := s_post_window_remaining st in
      if current =? 0 then (false, reg)
      else (true, <[id := set_window (current - 1) st]> reg)
  end.

Definition extend_post_window (id : SessionId) (count : N) (reg : SessionRegistry) : SessionRegistry :=
  alter (λ st, set_window (N.max (s_post_window_remaining st) count) st) id reg.

(** ** The notification queue *)

Definition queue_event (ev : PipelineEvent) (st : SessionState) : SessionState :=
  if negb (s_connected st) && bool_decide (is_Some (s_name st))
     && (length (s_notification_queue st) <? s_max_queue_size st)%nat
  then set_queue (s_notification_queue st ++ [ev]) st else st.

Definition send_or_queue_notification (id : SessionId) (ev : PipelineEvent) (reg : SessionRegistry)
  : SessionRegistry := alter (queue_event ev) id reg.

Definition drain_notifications (id : SessionId) (reg : SessionRegistry)
  : list PipelineEvent * SessionRegistry :=
  match reg !! id with
  | Some st => (s_notification_queue st, <[id := set_queue [] st]> reg)
  | None => ([], reg)
  end.

Definition build_span_event (id : SessionId) (sp : SpanEntry) (m : TriggerMatch)
  (summary : option TraceSummary) : PipelineEvent :=
  mkEvent (id_string id) (m_id m) (m_description m) (m_filter_string m)
    (mkLogEntry (sp_seq sp) (sp_start_time sp) (if is_error sp then Error else Info)
       ("[span] " +:+ sp_name sp +:+ " (" +:+ f64_display (sp_duration_ms sp) +:+ "ms)") None
       (sp_service_name sp) (Some (sp_service_name sp)) None None ∅ (Some (sp_trace_id sp))
       (Some (sp_span_id sp)) [] FilterSource)
    [] 0 (m_pre_window m) 0 (m_notify_context m) (m_oneshot m) (Some (sp_trace_id sp)) summary.

(** ** Domain-scoped scans *)

Record StorageDecision := mkDecision {
  should_store : bool;
  matched_descriptions : list string;
  policy : FilterPolicy;
}.

(** The filters of the sessions bound to [d], in walk order. *)
Definition domain_filters (ord : Order) (d : DomainId) (reg : SessionRegistry)
  : list BufferFilterEntry :=
  (ord reg) ≫= λ kv, if is_in_domain d kv.2 then s_filters kv.2 else [].

Definition evaluate_filters_for_domain (ord : Order) (d : DomainId) (e : LogEntry)
  (reg : SessionRegistry) : StorageDecision :=
  let fs := domain_filters ord d reg in
  let matching := List.filter (λ f, matches_entry (bf_condition f) e) fs in
  let p := policy_new (bf_filter_string <$> fs) in
  mkDecision (negb (bool_decide (matching = [])) || negb (is_filtered p))
    (omap bf_description matching) p.

Definition is_active (kv : SessionId * SessionState) : bool :=
  s_connected kv.2 || match kv.1 with Named _ => true | Anonymous _ => false end.

(** Largest pre-window first; [sort_by_key] is stable. *)
Definition active_session_ids_sorted_by_pre_window_for_domain (ord : Order) (d : DomainId)
  (reg : SessionRegistry) : list SessionId :=
  (stable_sort (λ a b : SessionId * N, b.2 <? a.2)
     ((λ kv : SessionId * SessionState, (kv.1, max_pre_window (s_triggers kv.2)))
      <$> List.filter (λ kv, is_active kv && is_in_domain d kv.2) (ord reg))).*1.

Definition active_session_ids_for_domain (ord : Order) (d : DomainId) (reg : SessionRegistry)
  : list SessionId := (List.filter (λ kv, is_in_domain d kv.2) (ord reg)).*1.

Definition max_pre_window_for_domain (ord : Order) (d : DomainId) (reg : SessionRegistry) : N :=
  foldr N.max 0 ((λ kv, max_pre_window (s_triggers kv.2))
                   <$> List.filter (λ kv, is_in_domain d kv.2) (ord reg)).

(** ** Persistence ([daemon/persistence.rs] holds the types) *)

Record PersistedTrigger := mkPTrigger {
  pt_filter : string; pt_pre_window : N; pt_post_window : N; pt_notify_context : N;
  pt_description : option string; pt_oneshot : bool;
}.
Record PersistedFilter := mkPFilter { pf_filter : string; pf_description : option string }.
Record PersistedBookmark := mkPBookmark {
  pb_name : string; pb_seq : N; pb_created_at : Z; pb_description : option string;
}.
Record PersistedSession := mkPSession {
  ps_triggers : list PersistedTrigger;
  ps_filters : list PersistedFilter;
  ps_client_info : option Value;
  ps_bookmarks : list PersistedBookmark;
}.

Definition carries_bookmark (filter : string) : bool :=
  match parse_filter filter with inr p => contains_bookmark_qualifier p | inl _ => false end.

Definition restore_trigger (m : TriggerManager) (pt : PersistedTrigger) : TriggerManager :=
  if MAX_BUFFER_SIZE <? pt_pre_window pt then m
  else if carries_bookmark (pt_filter pt) then m
  else (Trigger.add (pt_filter pt) (pt_pre_window pt) (pt_post_window pt) (pt_notify_context pt)
          (pt_description pt) (pt_oneshot pt) m).2.

Definition restore_filter (st : SessionState) (pf : PersistedFilter) : SessionState :=
  if carries_bookmark (pf_filter pf) then st
  else match parse_filter (pf_filter pf) with
       | inr c => push_filter (pf_filter pf) c (pf_description pf) st
       | inl _ => st
       end.

Definition restore_bookmark (name : string) (s : BookmarkStore) (pb : PersistedBookmark)
  : BookmarkStore :=
  insert_persisted (mkBookmark (qualified name (pb_name pb)) (pb_name pb) name (pb_seq pb)
    (pb_created_at pb) (pb_description pb) 0 (pb_seq pb)) s.

Definition restore_named (name : string) (now : Z) (p : PersistedSession) (bs : BookmarkStore)
  (reg : SessionRegistry) : option (BookmarkStore * SessionRegistry) :=
  (λ st,
     let st := set_connected false (s_last_seen st) st in
     let cleared := foldl (λ m (t : TriggerInfo), (Trigger.remove (ti_id t) m).2) (s_triggers st)
                      (list_triggers (s_triggers st)) in
     let st := set_triggers (foldl restore_trigger cleared (ps_triggers p)) st in
     let st := foldl restore_filter st (ps_filters p) in
     let st := match ps_client_info p with Some ci => set_info (Some ci) st | None => st end in
     (foldl (restore_bookmark name) bs (ps_bookmarks p), <[Named name := st]> reg))
    <$> new_named name now.

Definition persist_trigger (t : TriggerInfo) : PersistedTrigger :=
  mkPTrigger (ti_filter_string t) (ti_pre_window t) (ti_post_window t) (ti_notify_context t)
    (ti_description t) (ti_oneshot t).
Definition persist_filter (f : BufferFilterEntry) : PersistedFilter :=
  mkPFilter (bf_filter_string f) (bf_description f).
Definition persist_bookmark (b : Bookmark) : PersistedBookmark :=
  mkPBookmark (b_name b) (b_seq b) (b_created_at b) (b_description b).

Definition snapshot_session (name : string) (bs : BookmarkStore) (st : SessionState)
  : PersistedSession :=
  mkPSession (persist_trigger <$> list_triggers (s_triggers st)) (persist_filter <$> s_filters st)
    (s_client_info st)
    (persist_bookmark <$> List.filter (λ b, String.eqb (b_session b) name) (list_bookmarks bs)).

Definition snapshot_named_for_persistence (bs : BookmarkStore) (reg : SessionRegistry)
  : gmap string PersistedSession :=
  list_to_map (omap (λ kv : SessionId * SessionState,
                       match kv.1 with
                       | Named name => Some (name, snapshot_session name bs kv.2)
                       | Anonymous _ => None
                       end) (map_to_list reg)).
End session.
