(* ===== verification/SessionSpec.v ===== *)
(** * SessionSpec: what the session registry promises

    Storage decisions do not depend on the registry's iteration order, a restart
    keeps what was persisted, and the lifecycle keeps names exclusive. *)

From S2P Require Import Prelude Text F64 Gelf Filter Matcher Samples Epoch EpochSpec Trigger TriggerSpec Bookmarks BookmarksSpec Pipeline SpanStore Session.

Set Default Proof Using "Type".
Local Open Scope N_scope.

Section sessionspec.
Context {X : Externals}.
Implicit Types (reg : SessionRegistry) (ord : Order) (st : SessionState) (id : SessionId).

(** ** The registry as a map *)

Lemma reg_insert reg id st : (<[id := st]> reg : SessionRegistry) !! id = Some st.
Proof. apply (lookup_insert_eq (M:=gmap SessionId)). Qed.
Lemma reg_insert_ne reg id i st : i ≠ id → (<[id := st]> reg : SessionRegistry) !! i = reg !! i.
Proof. intros. by apply (lookup_insert_ne (M:=gmap SessionId)). Qed.
Lemma reg_delete reg id : (delete id reg : SessionRegistry) !! id = None.
Proof. apply (lookup_delete_eq (M:=gmap SessionId)). Qed.
Lemma reg_delete_ne reg id i : i ≠ id → (delete id reg : SessionRegistry) !! i = reg !! i.
Proof. intros. by apply (lookup_delete_ne (M:=gmap SessionId)). Qed.
Lemma reg_alter f reg id : (alter f id reg : SessionRegistry) !! id = f <$> reg !! id.
Proof. apply (lookup_alter_eq (M:=gmap SessionId)). Qed.
Lemma reg_alter_ne f reg id i : i ≠ id → (alter f id reg : SessionRegistry) !! i = reg !! i.
Proof. intros. by apply (lookup_alter_ne (M:=gmap SessionId)). Qed.

(** ** Storage decisions *)

Lemma domain_filters_order ord1 ord2 d reg :
  order_ok ord1 → order_ok ord2 → domain_filters ord1 d reg ≡ₚ domain_filters ord2 d reg.
Proof. intros H1 H2. unfold domain_filters. by rewrite (H1 reg), (H2 reg). Qed.

(** Whatever order the registry's hash map is walked in, the same record is
    stored or not, and the same storage policy is recorded for it (so a reordering
    never fabricates an epoch); only the order of the labels can differ. *)
Theorem decision_order_free ord1 ord2 d e reg :
  order_ok ord1 → order_ok ord2 →
  let d1 := evaluate_filters_for_domain ord1 d e reg in
  let d2 := evaluate_filters_for_domain ord2 d e reg in
  should_store d1 = should_store d2 ∧ policy d1 = policy d2 ∧
  matched_descriptions d1 ≡ₚ matched_descriptions d2.
Proof.
  intros H1 H2. pose proof (domain_filters_order ord1 ord2 d reg H1 H2) as Hp.
  unfold evaluate_filters_for_domain. simpl.
  set (g := λ f, matches_entry (bf_condition f) e).
  assert (List.filter g (domain_filters ord1 d reg) ≡ₚ List.filter g (domain_filters ord2 d reg)) as Hg
    by by rewrite Hp.
  assert (policy_new (bf_filter_string <$> domain_filters ord1 d reg) =
          policy_new (bf_filter_string <$> domain_filters ord2 d reg)) as ->.
  { apply policy_new_ext. intros x. by rewrite Hp. }
  split_and!; [|done|by rewrite Hg].
  f_equal. f_equal. apply bool_decide_ext. split; intros E; rewrite E in Hg.
  - by apply Permutation_nil in Hg.
  - symmetry in Hg. by apply Permutation_nil in Hg.
Qed.

(** ** Restart *)

Definition trigger_survives (pt : PersistedTrigger) : bool :=
  (pt_pre_window pt <=? MAX_BUFFER_SIZE) && negb (carries_bookmark (pt_filter pt))
  && match parse_filter (pt_filter pt) with inr _ => true | inl _ => false end.
Definition filter_survives (pf : PersistedFilter) : bool :=
  negb (carries_bookmark (pf_filter pf))
  && match parse_filter (pf_filter pf) with inr _ => true | inl _ => false end.

Lemma restore_triggers pts m :
  persist_trigger <$> list_triggers (foldl restore_trigger m pts) =
    (persist_trigger <$> list_triggers m) ++ List.filter trigger_survives pts.
Proof.
  revert m. induction pts as [|pt pts IH]; intros m; [by rewrite app_nil_r|]. simpl. rewrite IH.
  unfold restore_trigger, trigger_survives. rewrite N.leb_antisym.
  destruct (MAX_BUFFER_SIZE <? _); [done|]. destruct (carries_bookmark _); [done|]. simpl.
  unfold Trigger.add. destruct (parse_filter (pt_filter pt)) as [|c]; [done|].
  unfold list_triggers. simpl. rewrite !fmap_app, <-app_assoc. by destruct pt.
Qed.

Lemma restore_filters pfs st :
  let st' := foldl restore_filter st pfs in
  persist_filter <$> s_filters st' =
    (persist_filter <$> s_filters st) ++ List.filter filter_survives pfs ∧
  s_triggers st' = s_triggers st ∧ s_client_info st' = s_client_info st ∧
  s_connected st' = s_connected st.
Proof.
  revert st. induction pfs as [|pf pfs IH]; intros st; [by rewrite app_nil_r|]. simpl.
  destruct (IH (restore_filter st pf)) as (-> & -> & -> & ->).
  unfold restore_filter, filter_survives. destruct (carries_bookmark _); [done|]. simpl.
  destruct (parse_filter (pf_filter pf)) as [|c]; [done|]. simpl. split_and!; try done.
  rewrite fmap_app, <-app_assoc. by destruct pf.
Qed.

Definition restored (name : string) (pb : PersistedBookmark) : Bookmark :=
  mkBookmark (qualified name (pb_name pb)) (pb_name pb) name (pb_seq pb) (pb_created_at pb)
    (pb_description pb) 0 (pb_seq pb).

Definition owned (name : string) (bs : BookmarkStore) : list Bookmark :=
  List.filter (λ b, String.eqb (b_session b) name) (map_to_list (bookmarks bs)).*2.

Lemma restore_bookmarks name pbs bs :
  no_slash name → NoDup (pb_name <$> pbs) →
  (∀ pb, pb ∈ pbs → bookmarks bs !! qualified name (pb_name pb) = None) →
  owned name (foldl (restore_bookmark name) bs pbs) ≡ₚ owned name bs ++ (restored name <$> pbs).
Proof.
  intros Hs. revert bs. induction pbs as [|pb pbs IH]; intros bs Hn Hf; [by rewrite app_nil_r|].
  simpl in Hn. apply NoDup_cons in Hn as [Hpb Hn]. cbn [foldl fmap list_fmap]. rewrite IH; [|done|].
  - unfold owned, restore_bookmark at 1, insert_persisted. fold (restored name pb). simpl.
    rewrite map_to_list_insert by (apply Hf; by left). simpl. rewrite String.eqb_refl.
    apply Permutation_middle.
  - intros pb' Hpb'. unfold restore_bookmark, insert_persisted. simpl.
    rewrite lookup_insert_ne; [apply Hf; by right|].
    intros [_ E]%qualified_inj; [|done..]. apply Hpb. rewrite E. by apply list_elem_of_fmap_2.
Qed.

Lemma list_insert_perm x l : list_insert x l ≡ₚ x :: l.
Proof.
  induction l as [|y l IH]; [done|]. simpl. case_goal; [done|]. rewrite IH. apply Permutation_swap.
Qed.

Lemma list_bookmarks_perm bs : list_bookmarks bs ≡ₚ (map_to_list (bookmarks bs)).*2.
Proof.
  unfold list_bookmarks. induction (map_to_list (bookmarks bs)).*2 as [|b l IH]; [done|].
  simpl. by rewrite list_insert_perm, IH.
Qed.

Lemma snapshot_bookmarks name bs st :
  ps_bookmarks (snapshot_session name bs st) ≡ₚ persist_bookmark <$> owned name bs.
Proof. simpl. by rewrite list_bookmarks_perm. Qed.

Lemma seeded_cleared t :
  Trigger.new = Some t →
  triggers (foldl (λ m (i : TriggerInfo), (Trigger.remove (ti_id i) m).2) t (list_triggers t)) = [].
Proof.
  unfold Trigger.new, seeded.
  destruct (parse_filter "l>=ERROR"), (parse_filter "/panic|unwrap failed|stack backtrace/");
    try done. by intros [= <-].
Qed.

(** C25: a restart loses nothing it promises to keep. Restoring a persisted
    session and taking its snapshot again gives the same triggers and filters in
    the same order (only those past the buffer limit, carrying a bookmark, or no
    longer parsing are dropped), the same client info and the same bookmarks; the
    session comes back disconnected and no other session is touched. *)
Theorem restart_roundtrip name now p bs reg :
  is_Some Trigger.new → store_keyed bs → no_slash name →
  (∀ q b, bookmarks bs !! q = Some b → b_session b ≠ name) → NoDup (pb_name <$> ps_bookmarks p) →
  ∃ bs' reg' st, restore_named name now p bs reg = Some (bs', reg') ∧
    reg' !! Named name = Some st ∧ s_connected st = false ∧
    (∀ id, id ≠ Named name → reg' !! id = reg !! id) ∧
    let p' := snapshot_session name bs' st in
    ps_triggers p' = List.filter trigger_survives (ps_triggers p) ∧
    ps_filters p' = List.filter filter_survives (ps_filters p) ∧
    ps_client_info p' = ps_client_info p ∧
    ps_bookmarks p' ≡ₚ ps_bookmarks p.
Proof.
  intros [t Ht] Hk Hs Hb Hn. unfold restore_named, new_named, new_state. rewrite Ht.
  apply seeded_cleared in Ht as Hcl. clear Ht.
  cbn [fmap option_fmap option_map].
  set (st0 := set_triggers _ _). set (st1 := foldl restore_filter st0 (ps_filters p)).
  set (st2 := match ps_client_info p with Some _ => _ | None => _ end).
  set (bs' := foldl (restore_bookmark name) bs (ps_bookmarks p)).
  destruct (restore_filters (ps_filters p) st0) as (Hf & Htr & Hci & Hco). fold st1 in Hf, Htr, Hci, Hco.
  exists bs', (<[Named name := st2]> reg), st2. split; [done|].
  assert (s_triggers st2 = s_triggers st1 ∧ s_filters st2 = s_filters st1 ∧
          s_connected st2 = s_connected st1 ∧ s_client_info st2 = ps_client_info p) as (E1 & E2 & E3 & E4).
  { subst st2. destruct (ps_client_info p); [done|]. by rewrite Hci. }
  split_and!; [apply reg_insert|by rewrite E3, Hco|intros; by apply reg_insert_ne| | |done|].
  - simpl. rewrite E1, Htr. unfold st0. simpl. rewrite restore_triggers. simpl.
    unfold list_triggers at 1. by rewrite Hcl.
  - simpl. by rewrite E2, Hf.
  - rewrite snapshot_bookmarks. unfold bs'. rewrite restore_bookmarks; [|done|done|].
    + assert (owned name bs = []) as ->.
      { unfold owned. apply elem_of_nil_inv. intros b [Hb1 Hb2]%elem_of_lfilter.
        apply list_elem_of_fmap in Hb2 as ([q b'] & -> & Hq%elem_of_map_to_list).
        apply String.eqb_eq in Hb1. by eapply Hb. }
      simpl. rewrite <-list_fmap_compose.
      replace (_ <$> _) with (id <$> ps_bookmarks p) by (apply list_fmap_ext; by intros ? [] ?).
      by rewrite list_fmap_id.
    + intros pb _. apply eq_None_not_Some. intros [b Hq].
      destruct (Hk _ _ Hq) as (_ & Hkn & Hkq).
      apply qualified_inj in Hkn as [E _]; [|done..]. by apply (Hb _ _ Hq).
Qed.
End sessionspec.

(** ** The properties at concrete inputs *)

Definition sample_named (filters : list string) : option SessionState :=
  (λ st, foldl (λ st f, match parse_filter f with
                        | inr c => push_filter f c (Some f) st
                        | inl _ => st
                        end) st filters) <$> new_named "s" 0.

Definition sample_registry : SessionRegistry :=
  match sample_named ["l>=ERROR"; "m=boom"]%string, sample_named ["m=boom"]%string with
  | Some a, Some b => {[Named "a" := a; Named "b" := b]}
  | _, _ => ∅
  end.

Lemma decision_order_free_witness :
  let ord1 := λ m : SessionRegistry, map_to_list m in
  let ord2 := λ m : SessionRegistry, reverse (map_to_list m) in
  let d o := evaluate_filters_for_domain o default_domain (error_at 1 "boom") sample_registry in
  should_store (d ord1) = should_store (d ord2) ∧ policy (d ord1) = policy (d ord2) ∧
  matched_descriptions (d ord1) ≡ₚ matched_descriptions (d ord2).
Proof.
  intros ord1 ord2 d.
  apply (decision_order_free ord1 ord2 default_domain (error_at 1 "boom") sample_registry).
  - by intros m.
  - intros m. apply reverse_Permutation.
Defined.

Definition sample_persisted : PersistedSession :=
  mkPSession [mkPTrigger "l>=ERROR" 10 5 2 None false; mkPTrigger "b>=mark" 1 1 1 None true]
    [mkPFilter "m=boom" (Some "boom"%string)] None [mkPBookmark "mark" 7 0 None].

Lemma restart_roundtrip_witness :
  ∃ bs' reg' st, restore_named "s" 0 sample_persisted Bookmarks.new ∅ = Some (bs', reg') ∧
    reg' !! Named "s" = Some st ∧
    ps_triggers (snapshot_session "s" bs' st) = [mkPTrigger "l>=ERROR" 10 5 2 None false] ∧
    ps_bookmarks (snapshot_session "s" bs' st) ≡ₚ [mkPBookmark "mark" 7 0 None].
Proof.
  destruct (restart_roundtrip "s" 0 sample_persisted Bookmarks.new ∅) as
    (bs' & reg' & st & Hr & Hs & _ & _ & Ht & _ & _ & Hb).
  - destruct Trigger.new as [t|] eqn:E; [by exists t|].
    assert (match Trigger.new with Some _ => true | None => false end = true) as H by (vm_compute; reflexivity).
    rewrite E in H. discriminate H.
  - apply map_Forall_empty.
  - by vm_compute.
  - by intros q b.
  - by_eval.
  - exists bs', reg', st. split_and!; [done|done| |done]. rewrite Ht. by vm_compute.
Defined.
