(* ===== verification/SessionRuns.v ===== *)
(** * SessionRuns: every operation of the session registry, in any order

    A registry lives through a sequence of operations; the invariant says whose
    name is whose, what a session's queue may hold, and that every registered
    condition is the parse of its own filter string. *)

From S2P Require Import Prelude Text F64 Gelf Filter Matcher Samples Epoch Trigger TriggerSpec Bookmarks Pipeline SpanStore Session SessionSpec.

Set Default Proof Using "Type".
Local Open Scope N_scope.

Section sessionruns.
Context {X : Externals}.
Implicit Types (reg : SessionRegistry) (st : SessionState) (id : SessionId).

(** ** Operations *)

Inductive RegOp :=
  | RCreateAnonymous (uuid : string) (now : Z)
  | RCreateNamed (name : string) (now : Z)
  | RClaim (name : string) (now : Z)
  | RReconnect (id : SessionId) (now : Z)
  | RDisconnect (id : SessionId) (now : Z)
  | RClientInfo (id : SessionId) (info : option Value)
  | RRename (old : SessionId) (name : string) (now : Z)
  | RDispose (id : SessionId) (ttl now : Z)
  | RDrop (name : string)
  | RSetDomain (id : SessionId) (d : DomainId)
  | REvaluate (id : SessionId) (e : LogEntry)
  | REvaluateSpan (id : SessionId) (sp : SpanEntry)
  | RAddTrigger (id : SessionId) (f : string) (pre post ctx : N) (desc : option string) (oneshot : bool)
  | REditTrigger (id : SessionId) (t : N) (f : option string) (pre post ctx : option N)
      (desc : option string) (oneshot : option bool)
  | RRemoveTrigger (id : SessionId) (t : N)
  | RAddFilter (id : SessionId) (f : string) (desc : option string)
  | REditFilter (id : SessionId) (n : N) (f desc : option string)
  | RRemoveFilter (id : SessionId) (n : N)
  | RDecrement (id : SessionId)
  | RExtend (id : SessionId) (n : N)
  | RNotify (id : SessionId) (ev : PipelineEvent)
  | RDrain (id : SessionId).

(** A panic of [TriggerManager::new] leaves the registry as it was. *)
Definition created {A} (r : option (A * SessionRegistry)) reg : SessionRegistry :=
  match r with Some (_, reg') => reg' | None => reg end.

Definition reg_step reg (op : RegOp) : SessionRegistry :=
  match op with
  | RCreateAnonymous u now => created (create_anonymous u now reg) reg
  | RCreateNamed n now => created (create_named n now reg) reg
  | RClaim n now => created (claim_named n now reg) reg
  | RReconnect id now => (reconnect id now reg).2
  | RDisconnect id now => disconnect id now reg
  | RClientInfo id i => set_client_info id i reg
  | RRename old n now => (rename old n (λ _ _ w, w) now reg tt).1.2
  | RDispose id ttl now => (dispose_if_expired id ttl (λ w, w) now reg tt).1.2
  | RDrop n => (drop_session n (λ _ w, w) reg tt).1.2
  | RSetDomain id d => set_domain id d reg
  | REvaluate id e => (evaluate_triggers id e reg).2
  | REvaluateSpan id sp => (evaluate_span_triggers id sp reg).2
  | RAddTrigger id f pre post ctx desc os => (add_trigger id f pre post ctx desc os reg).2
  | REditTrigger id t f pre post ctx desc os => (edit_trigger id t f pre post ctx desc os reg).2
  | RRemoveTrigger id t => (remove_trigger id t reg).2
  | RAddFilter id f desc => (add_filter id f desc reg).2
  | REditFilter id n f desc => (edit_filter id n f desc reg).2
  | RRemoveFilter id n => (remove_filter id n reg).2
  | RDecrement id => (decrement_post_window id reg).2
  | RExtend id n => extend_post_window id n reg
  | RNotify id ev => send_or_queue_notification id ev reg
  | RDrain id => (drain_notifications id reg).2
  end.

Definition reg_run reg (ops : list RegOp) : SessionRegistry := foldl reg_step reg ops.

(** A v4 uuid is not a name in use. *)
Fixpoint uuids_fresh reg (ops : list RegOp) : Prop :=
  match ops with
  | [] => True
  | op :: ops =>
      match op with RCreateAnonymous u _ => reg !! Named u = None | _ => True end ∧
      uuids_fresh (reg_step reg op) ops
  end.

(** ** The invariant *)

Definition conditions_parse (m : TriggerManager) : Prop :=
  ∀ t, t ∈ triggers m → parse_filter (t_filter_string t) = inr (t_condition t).
Definition filters_parse (fs : list BufferFilterEntry) : Prop :=
  ∀ f, f ∈ fs → parse_filter (bf_filter_string f) = inr (bf_condition f).

Definition identity_ok id st : Prop :=
  match id with
  | Anonymous _ => s_name st = None ∧ s_connected st = true ∧ s_notification_queue st = []
  | Named n => s_name st = Some n ∧ is_valid_name n = true
  end.

Record session_ok id st : Prop := {
  so_identity : identity_ok id st;
  so_queue : (length (s_notification_queue st) ≤ s_max_queue_size st)%nat;
  so_max : s_max_queue_size st = 1000%nat;
  so_triggers : conditions_parse (s_triggers st);
  so_filters : filters_parse (s_filters st);
  so_touched : s_domain st ∈ s_touched_domains st;
}.

Record registry_ok reg : Prop := {
  ro_names x : is_Some (reg !! Anonymous x) → reg !! Named x = None;
  ro_sessions id st : reg !! id = Some st → session_ok id st;
}.

(** Replacing a session's state keeps the names. *)
Lemma replace_ok reg id st st' :
  registry_ok reg → reg !! id = Some st → session_ok id st' → registry_ok (<[id := st']> reg).
Proof.
  intros [Hn Hs] Hid Hst. split.
  - intros x Hx. assert (is_Some (reg !! Anonymous x)) as Hx'.
    { destruct (decide (id = Anonymous x)) as [->|]; [by eexists|]. by rewrite reg_insert_ne in Hx. }
    apply Hn in Hx'. destruct (decide (id = Named x)) as [->|]; [congruence|]. by rewrite reg_insert_ne.
  - intros i s. destruct (decide (i = id)) as [->|]; [rewrite reg_insert; by intros [= <-]|].
    rewrite reg_insert_ne by done. apply Hs.
Qed.

Lemma delete_ok reg id : registry_ok reg → registry_ok (delete id reg).
Proof.
  intros [Hn Hs]. assert (∀ i s, (delete id reg : SessionRegistry) !! i = Some s → reg !! i = Some s) as Hd.
  { intros i s. destruct (decide (i = id)) as [->|]; [by rewrite reg_delete|by rewrite reg_delete_ne]. }
  split; [|intros i s Hi%Hd; by apply Hs].
  intros x [s Hx%Hd]. destruct (decide (Named x = id)) as [<-|]; [apply reg_delete|].
  rewrite reg_delete_ne by done. apply Hn. by eexists.
Qed.

(** A named session under a name no anonymous one has. *)
Lemma insert_named_ok reg n st :
  registry_ok reg → reg !! Anonymous n = None → session_ok (Named n) st →
  registry_ok (<[Named n := st]> reg).
Proof.
  intros [Hn Hs] Ha Hst. split.
  - intros x Hx. rewrite reg_insert_ne in Hx by done. destruct (decide (x = n)) as [->|].
    + rewrite Ha in Hx. by destruct Hx.
    + rewrite reg_insert_ne by congruence. by apply Hn.
  - intros i s. destruct (decide (i = Named n)) as [->|]; [rewrite reg_insert; by intros [= <-]|].
    rewrite reg_insert_ne by done. apply Hs.
Qed.

Lemma insert_anonymous_ok reg u st :
  registry_ok reg → reg !! Named u = None → session_ok (Anonymous u) st →
  registry_ok (<[Anonymous u := st]> reg).
Proof.
  intros [Hn Hs] Ha Hst. split.
  - intros x Hx. rewrite reg_insert_ne by done. destruct (decide (x = u)) as [->|]; [done|].
    rewrite reg_insert_ne in Hx by congruence. by apply Hn.
  - intros i s. destruct (decide (i = Anonymous u)) as [->|]; [rewrite reg_insert; by intros [= <-]|].
    rewrite reg_insert_ne by done. apply Hs.
Qed.

Lemma alter_ok f reg id :
  registry_ok reg → (∀ st, session_ok id st → session_ok id (f st)) → registry_ok (alter f id reg).
Proof.
  intros Hr Hf.
  assert (∀ i, (alter f id reg : SessionRegistry) !! i = if decide (i = id) then f <$> reg !! id else reg !! i) as Ha.
  { intros i. case_decide as Hi; [subst i; apply reg_alter|by apply reg_alter_ne]. }
  destruct Hr as [Hn Hs]. split.
  - intros x Hx. rewrite Ha in Hx. assert (is_Some (reg !! Anonymous x)) as Hx'.
    { case_decide as Hi; [|done]. rewrite Hi. by apply fmap_is_Some in Hx. }
    apply Hn in Hx'. clear Hx. rewrite Ha. case_decide as Hi; [|done]. by rewrite <-Hi, Hx'.
  - intros i s. rewrite Ha. case_decide as Hi; [subst i|apply Hs].
    intros (st & Hst & ->)%fmap_Some. by apply Hf, Hs.
Qed.

Lemma on_triggers_ok {A} id (dflt : A) f reg :
  registry_ok reg →
  (∀ m, conditions_parse m → conditions_parse (f m).2) → registry_ok (on_triggers id dflt f reg).2.
Proof.
  intros Hr Hf. unfold on_triggers. destruct (reg !! id) as [st|] eqn:E; [|done].
  pose proof (ro_sessions _ Hr _ _ E) as [Hi Hq Hm Ht Hfs Hd]. apply Hf in Ht.
  destruct (f (s_triggers st)) as [a m]. eapply replace_ok; [done|done|]. by constructor.
Qed.

(** ** Each operation keeps it *)

Lemma new_parses m : Trigger.new = Some m → conditions_parse m.
Proof.
  unfold Trigger.new, seeded.
  destruct (parse_filter "l>=ERROR") as [|c1] eqn:E1; [done|].
  destruct (parse_filter "/panic|unwrap failed|stack backtrace/") as [|c2] eqn:E2; [done|].
  intros [= <-] t [->|[->|[]%elem_of_nil]%elem_of_cons]%elem_of_cons; assumption.
Qed.

#[local] Opaque Trigger.new parse_filter.

Lemma new_state_ok id name now st :
  new_state name now = Some st →
  match id with Anonymous _ => name = None | Named n => name = Some n ∧ is_valid_name n = true end →
  session_ok id st.
Proof.
  unfold new_state. destruct Trigger.new as [t|] eqn:E; [|done]. intros [= <-] Hid.
  apply new_parses in E. constructor; simpl; try done; [|lia|set_solver].
  destruct id; simpl; [done|]. done.
Qed.

Lemma add_parses f pre post ctx desc os m :
  conditions_parse m → conditions_parse (Trigger.add f pre post ctx desc os m).2.
Proof.
  intros Hm. unfold Trigger.add. destruct (parse_filter f) as [|c] eqn:E; [done|].
  by intros t [Ht| ->%list_elem_of_singleton]%elem_of_app; [apply Hm|].
Qed.

Lemma edit_parses (n : N) f pre post ctx desc os m :
  conditions_parse m → conditions_parse (Trigger.edit n f pre post ctx desc os m).2.
Proof.
  intros Hm. unfold Trigger.edit.
  destruct (match f with None => inr None | Some f => _ end) as [|nc] eqn:En; [done|].
  destruct (find_trigger n (triggers m)) as [found|]; [|done].
  assert (∀ s c, nc = Some (s, c) → parse_filter s = inr c) as Hnc.
  { intros s c ->. destruct f as [f|]; [|done]. destruct (parse_filter f) eqn:E; [done|].
    by injection En as <- <-. }
  intros t [Ht|(t' & Ht' & ->)]%elem_of_update_first; [by apply Hm|].
  destruct nc as [[s c]|]; simpl; [by apply Hnc|by apply Hm].
Qed.

Lemma parses_sub m ts n :
  conditions_parse m → (∀ t, t ∈ ts → t ∈ triggers m) → conditions_parse (mkManager ts n).
Proof. intros Hm Hs t Ht. by apply Hm, Hs. Qed.

Lemma remove_parses (n : N) m : conditions_parse m → conditions_parse (Trigger.remove n m).2.
Proof.
  intros Hm. unfold Trigger.remove. destruct (find_trigger n (triggers m)) as [found|]; [|done].
  apply (parses_sub m); [done|]. clear found Hm. induction (triggers m) as [|t ts IH]; [done|]. simpl.
  case_goal; [by right|]. intros x [->|Hx]%elem_of_cons; [by left|]. right. auto.
Qed.

Lemma map_parses (g : Trigger → Trigger) m n :
  conditions_parse m →
  (∀ t, t_filter_string (g t) = t_filter_string t ∧ t_condition (g t) = t_condition t) →
  conditions_parse (mkManager (g <$> triggers m) n).
Proof. intros Hm Hg t (t' & -> & Ht')%list_elem_of_fmap. destruct (Hg t') as [-> ->]. by apply Hm. Qed.

Lemma reset_parses m : conditions_parse m → conditions_parse (reset_post_windows m).
Proof. intros. by apply map_parses. Qed.

Lemma evaluate_parses e m : conditions_parse m → conditions_parse (Trigger.evaluate e m).2.
Proof. intros. apply map_parses; [done|]. intros t. unfold step_trigger. by repeat case_goal. Qed.

Lemma evaluate_span_parses sp m : conditions_parse m → conditions_parse (Trigger.evaluate_span sp m).2.
Proof. intros. apply map_parses; [done|]. intros t. by case_goal. Qed.

(** ** Filters *)

Lemma edit_first_parses n g fs x fs' :
  filters_parse fs → (∀ f, parse_filter (bf_filter_string f) = inr (bf_condition f) →
    parse_filter (bf_filter_string (g f)) = inr (bf_condition (g f))) →
  edit_first n g fs = Some (x, fs') → filters_parse fs'.
Proof.
  revert fs'. induction fs as [|f fs IH]; intros fs' Hp Hg He; [done|]. simpl in He.
  assert (filters_parse fs) as Hp' by (intros y Hy; apply Hp; by right).
  destruct (bf_id f =? n).
  - injection He as <- <-. intros y [->|Hy]%elem_of_cons; [|by apply Hp'].
    apply Hg, Hp. by left.
  - apply fmap_Some in He as ([y l] & He & E). simpl in E. injection E as -> ->.
    intros z [->|Hz]%elem_of_cons; [apply Hp; by left|]. by apply (IH l).
Qed.

Lemma remove_first_filter_sub n fs fs' f :
  remove_first_filter n fs = Some fs' → f ∈ fs' → f ∈ fs.
Proof.
  revert fs'. induction fs as [|x fs IH]; intros fs' He Hf; [done|]. simpl in He.
  destruct (bf_id x =? n); [injection He as ->; by right|].
  apply fmap_Some in He as (l & He & ->). apply elem_of_cons in Hf as [->|Hf]; [by left|].
  right. by eapply IH.
Qed.

Lemma filter_op_ok reg op :
  registry_ok reg →
  match op with RAddFilter _ _ _ | REditFilter _ _ _ _ | RRemoveFilter _ _ => True | _ => False end →
  registry_ok (reg_step reg op).
Proof.
  intros Hr Hop. destruct op as [| | | | | | | | | | | | | | |id f desc|id n f desc|id n| | | |]; try (exfalso; exact Hop); cbn [reg_step].
  - unfold add_filter. destruct (parse_filter f) as [|c] eqn:E; [done|].
    destruct (reg !! id) as [st|] eqn:Es; [|done]. destruct (ro_sessions _ Hr _ _ Es).
    eapply replace_ok; [done|done|]. constructor; try done.
    intros x [Hx| ->%list_elem_of_singleton]%elem_of_app; [auto|done].
  - unfold edit_filter. destruct (match f with None => inr None | Some f => _ end) as [|nc] eqn:En; [done|].
    assert (∀ s c, nc = Some (s, c) → parse_filter s = inr c) as Hnc.
    { intros s c ->. destruct f as [f|]; [|done]. destruct (parse_filter f) eqn:E; [done|].
      by injection En as <- <-. }
    destruct (reg !! id) as [st|] eqn:Es; [|done]. destruct (ro_sessions _ Hr _ _ Es).
    destruct (edit_first _ _ _) as [[x fs]|] eqn:Ee; [|done].
    eapply replace_ok; [done|done|]. constructor; try done. simpl.
    eapply edit_first_parses; [done| |exact Ee]. intros y Hy. destruct nc as [[s c]|]; simpl; [by apply Hnc|done].
  - unfold remove_filter. destruct (reg !! id) as [st|] eqn:Es; [|done].
    destruct (ro_sessions _ Hr _ _ Es).
    destruct (remove_first_filter _ _) as [fs|] eqn:Ee; [|done].
    eapply replace_ok; [done|done|]. constructor; try done. simpl.
    intros y Hy. eapply so_filters0, remove_first_filter_sub; done.
Qed.

(** ** Lifecycle *)

(** A session under the same name with the same conditions. *)
Lemma session_same id st st' :
  session_ok id st → s_name st' = s_name st → (s_connected st' = s_connected st ∨ ∃ n, id = Named n) →
  (length (s_notification_queue st') ≤ length (s_notification_queue st))%nat →
  s_max_queue_size st' = s_max_queue_size st → s_triggers st' = s_triggers st →
  s_filters st' = s_filters st → s_domain st' = s_domain st → s_touched_domains st' = s_touched_domains st →
  session_ok id st'.
Proof.
  intros [Hi Hq Hm Ht Hf Hd] En Ec Eq Em Et Ef Ed Eo. constructor; rewrite ?Em, ?Et, ?Ef, ?Ed, ?Eo; try done.
  - destruct id as [u|n]; simpl in *; rewrite En; [|done]. destruct Hi as (? & ? & Hq0).
    split_and!; [done| |].
    + destruct Ec as [->|[? ?]]; done.
    + rewrite Hq0 in Eq. apply nil_length_inv. simpl in Eq. lia.
  - lia.
Qed.

Lemma refuse_false reg n : refuse_an_anonymous_id reg n = false → reg !! Anonymous n = None.
Proof. intros H%bool_decide_eq_false. by apply eq_None_not_Some. Qed.

Lemma create_ok reg op :
  registry_ok reg → uuids_fresh reg [op] →
  match op with RCreateAnonymous _ _ | RCreateNamed _ _ | RClaim _ _ => True | _ => False end →
  registry_ok (reg_step reg op).
Proof.
  intros Hr [Hu _] Hop. destruct op as [u now|n now|n now| | | | | | | | | | | | | | | | | | |]; try (exfalso; exact Hop); cbn [reg_step].
  - unfold create_anonymous. destruct (new_anonymous now) as [st|] eqn:E; [|done].
    apply insert_anonymous_ok; [done|done|]. by eapply new_state_ok.
  - unfold create_named. destruct (is_valid_name n) eqn:Ev; [|done]. simpl.
    destruct (refuse_an_anonymous_id reg n) eqn:Er; [done|]. apply refuse_false in Er.
    destruct (reg !! Named n) as [st|]; [done|]. destruct (new_named n now) as [st|] eqn:E; [|done].
    apply insert_named_ok; [done|done|]. apply (new_state_ok _ (Some n) now); [exact E|split; [reflexivity|exact Ev]].
  - unfold claim_named. destruct (is_valid_name n) eqn:Ev; [|done]. simpl.
    destruct (refuse_an_anonymous_id reg n) eqn:Er; [done|]. apply refuse_false in Er.
    destruct (reg !! Named n) as [st|] eqn:Es.
    + destruct (s_connected st); [done|]. apply (replace_ok _ _ st); [done|done|].
      apply (session_same _ st); try done; [by apply Hr|eauto].
    + destruct (new_named n now) as [st|] eqn:E; [|done].
      apply insert_named_ok; [done|done|]. apply (new_state_ok _ (Some n) now); [exact E|split; [reflexivity|exact Ev]].
Qed.

Lemma rename_ok reg old n now : registry_ok reg → registry_ok (reg_step reg (RRename old n now)).
Proof.
  intros Hr. simpl. unfold rename. destruct (is_valid_name n) eqn:Ev; [|done]. simpl.
  case_bool_decide as Ho; [done|]. destruct (reg !! old) as [st|] eqn:Es; [|done].
  destruct (negb _ && refuse_an_anonymous_id reg n) eqn:Er; [done|].
  set (checked := match reg !! Named n with Some _ => _ | None => _ end).
  assert (∀ reg1 dp, checked = Some (reg1, dp) → registry_ok reg1 ∧ (∀ i, i ≠ Named n → reg1 !! i = reg !! i)) as Hch.
  { subst checked. destruct (reg !! Named n) as [ex|]; [destruct (s_connected ex)|]; intros reg1 dp; [done|..].
    - intros [= <- <-]. split; [by apply delete_ok|]. intros. by apply reg_delete_ne.
    - by intros [= <- <-]. }
  destruct checked as [[reg1 dp]|]; [|done]. destruct (Hch _ _ eq_refl) as [Hr1 He].
  rewrite He, Es by done. simpl.
  apply insert_named_ok; [by apply delete_ok| |].
  - destruct (decide (old = Anonymous n)) as [->|Hne]; [apply reg_delete|].
    rewrite reg_delete_ne, He by done. apply andb_false_iff in Er as [Er|Er]; [|by apply refuse_false].
    apply negb_false_iff, bool_decide_eq_true in Er. done.
  - destruct (ro_sessions _ Hr _ _ Es) as [_ Hq Hm Ht Hf Hd]. by constructor.
Qed.

Lemma lifecycle_ok reg op :
  registry_ok reg →
  match op with
  | RReconnect _ _ | RDisconnect _ _ | RClientInfo _ _ | RDispose _ _ _ | RDrop _ | RSetDomain _ _ => True
  | _ => False end →
  registry_ok (reg_step reg op).
Proof.
  intros Hr Hop. destruct op as [| | |id now|[u|n] now|id i| |id ttl now|n|id d| | | | | | | | | | | |]; try (exfalso; exact Hop); cbn [reg_step].
  - unfold reconnect. destruct (reg !! id) as [st|] eqn:Es; [|done].
    destruct (s_connected st); [done|]. destruct id as [u|n]; [done|].
    apply (replace_ok _ _ st); [done|done|]. apply (session_same _ st); try done; [by apply Hr|eauto].
  - by apply delete_ok.
  - apply alter_ok; [done|]. intros st Hst. apply (session_same _ st); try done. eauto.
  - apply alter_ok; [done|]. intros st Hst. apply (session_same _ st); try done. by left.
  - unfold dispose_if_expired. destruct (reg !! id) as [st|]; [|done].
    destruct (abandoned ttl now st); [|done]. by apply delete_ok.
  - unfold drop_session. destruct (reg !! Named n) as [st|]; [|done].
    destruct (s_connected st); [done|]. by apply delete_ok.
  - apply alter_ok; [done|]. intros st [Hi Hq Hm Ht Hf Hd]. unfold bind_domain.
    case_bool_decide as E; constructor; simpl; try done.
    + rewrite E. set_solver.
    + destruct id; simpl in *; [by destruct Hi as (? & ? & _)|done].
    + lia.
    + by apply reset_parses.
    + set_solver.
Qed.

Lemma traffic_ok reg op :
  registry_ok reg →
  match op with
  | REvaluate _ _ | REvaluateSpan _ _ | RAddTrigger _ _ _ _ _ _ _ | REditTrigger _ _ _ _ _ _ _ _
  | RRemoveTrigger _ _ | RDecrement _ | RExtend _ _ | RNotify _ _ | RDrain _ => True
  | _ => False end →
  registry_ok (reg_step reg op).
Proof.
  intros Hr Hop. destruct op as [| | | | | | | | | |id e|id sp|id f pre post ctx desc os
    |id t f pre post ctx desc os|id t| | | |id|id n|id ev|id]; try (exfalso; exact Hop); cbn [reg_step].
  - apply on_triggers_ok; [done|]. intros. by apply evaluate_parses.
  - apply on_triggers_ok; [done|]. intros. by apply evaluate_span_parses.
  - apply on_triggers_ok; [done|]. intros m Hm. apply (add_parses f pre post ctx desc os) in Hm.
    by destruct (Trigger.add _ _ _ _ _ _ _).
  - apply on_triggers_ok; [done|]. intros m Hm. apply (edit_parses t f pre post ctx desc os) in Hm.
    by destruct (Trigger.edit _ _ _ _ _ _ _ _).
  - apply on_triggers_ok; [done|]. intros m Hm. apply (remove_parses t) in Hm.
    by destruct (Trigger.remove _ _).
  - unfold decrement_post_window. destruct (reg !! id) as [st|] eqn:Es; [|done].
    case_goal; [done|]. apply (replace_ok _ _ st); [done|done|].
    apply (session_same _ st); try done; [by apply Hr|by left].
  - apply alter_ok; [done|]. intros st Hst. apply (session_same _ st); try done. by left.
  - apply alter_ok; [done|]. intros st [Hi Hq Hm Ht Hf Hd]. unfold queue_event.
    destruct (negb (s_connected st) && _ && _) eqn:E; [|done]. bool_to_prop. constructor; simpl; try done.
    + destruct id as [u|n]; [|done]. destruct Hi as (? & Hc & _). congruence.
    + rewrite length_app. simpl. lia.
  - unfold drain_notifications. destruct (reg !! id) as [st|] eqn:Es; [|done].
    apply (replace_ok _ _ st); [done|done|].
    apply (session_same _ st); try done; [by apply Hr|by left|simpl; lia].
Qed.

Lemma reg_step_ok reg op : registry_ok reg → uuids_fresh reg [op] → registry_ok (reg_step reg op).
Proof.
  intros Hr Hu. destruct op; first [by apply create_ok|by apply filter_op_ok|by apply rename_ok
    |by apply lifecycle_ok|by apply traffic_ok].
Qed.

(** C23: whatever requests and records a registry serves, in any order: no
    anonymous session ever shares its id with a named one's name (whichever way
    the names are taken, renames included); a named session carries its own valid
    name; an anonymous one is connected and has nothing queued; no queue exceeds
    its cap of 1000; every registered trigger and filter condition is the parse of
    its own filter string; and a session's domain is among those it will be swept
    from. *)
Theorem registry_invariant reg ops :
  registry_ok reg → uuids_fresh reg ops → registry_ok (reg_run reg ops).
Proof.
  revert reg. induction ops as [|op ops IH]; intros reg Hr Hu; [done|]. destruct Hu as [Hu Hus].
  apply IH; [|done]. by apply reg_step_ok.
Qed.

(** ** A connected name stays taken *)

Lemma conn_insert n reg id st :
  is_connected (Named n) reg = true → (id = Named n → s_connected st = true) →
  is_connected (Named n) (<[id := st]> reg) = true.
Proof.
  unfold is_connected. intros Hc Hst. destruct (decide (id = Named n)) as [->|].
  - rewrite reg_insert. by apply Hst.
  - by rewrite reg_insert_ne.
Qed.

Lemma conn_update n reg id st st' :
  is_connected (Named n) reg = true → reg !! id = Some st → s_connected st' = s_connected st →
  is_connected (Named n) (<[id := st']> reg) = true.
Proof.
  intros Hc Hid Hst. apply conn_insert; [done|]. intros ->. unfold is_connected in Hc.
  rewrite Hid in Hc. by rewrite Hst.
Qed.

Lemma conn_delete n reg id :
  is_connected (Named n) reg = true → id ≠ Named n → is_connected (Named n) (delete id reg) = true.
Proof. unfold is_connected. intros Hc Hne. by rewrite reg_delete_ne. Qed.

Lemma conn_alter n f reg id :
  is_connected (Named n) reg = true → (∀ st, s_connected (f st) = s_connected st) →
  is_connected (Named n) (alter f id reg) = true.
Proof.
  unfold is_connected. intros Hc Hf. destruct (decide (id = Named n)) as [->|].
  - rewrite reg_alter. destruct (reg !! Named n); [by simpl; rewrite Hf|done].
  - by rewrite reg_alter_ne.
Qed.

Lemma conn_on_triggers {A} n id (dflt : A) f reg :
  is_connected (Named n) reg = true → is_connected (Named n) (on_triggers id dflt f reg).2 = true.
Proof.
  intros Hc. unfold on_triggers. destruct (reg !! id) as [st|] eqn:E; [|done].
  destruct (f (s_triggers st)) as [a m]. by eapply conn_update.
Qed.

(** What gives a name up: its own disconnect, or its own rename to another name. *)
Definition releases (n : string) (op : RegOp) : Prop :=
  match op with
  | RDisconnect id _ | RRename id _ _ => id = Named n
  | _ => False
  end.

Lemma conn_lifecycle n reg op :
  is_connected (Named n) reg = true → ¬ releases n op →
  match op with
  | RCreateAnonymous _ _ | RCreateNamed _ _ | RClaim _ _ | RReconnect _ _ | RDisconnect _ _
  | RRename _ _ _ | RDispose _ _ _ | RDrop _ => True
  | _ => False end →
  is_connected (Named n) (reg_step reg op) = true.
Proof.
  intros Hc Hrel Hop. unfold is_connected in Hc. destruct (reg !! Named n) as [cur|] eqn:En; [|done].
  assert (is_connected (Named n) reg = true) as Hc' by (unfold is_connected; by rewrite En).
  destruct op as [u now|m now|m now|id now|id now| |old m now|id ttl now|m| | | | | | | | | | | | |];
    try (exfalso; exact Hop); cbn [reg_step].
  - unfold create_anonymous. destruct (new_anonymous now); [|exact Hc']. by apply conn_insert.
  - unfold create_named. destruct (is_valid_name m); [|exact Hc']. simpl.
    destruct (refuse_an_anonymous_id reg m); [exact Hc'|].
    destruct (reg !! Named m) eqn:Em; [exact Hc'|]. destruct (new_named m now); [|exact Hc'].
    apply conn_insert; [exact Hc'|]. intros [= ->]. congruence.
  - unfold claim_named. destruct (is_valid_name m); [|exact Hc']. simpl.
    destruct (refuse_an_anonymous_id reg m); [exact Hc'|].
    destruct (reg !! Named m) as [st|] eqn:Em.
    + destruct (s_connected st); [exact Hc'|]. by apply conn_insert.
    + destruct (new_named m now); [|exact Hc']. apply conn_insert; [exact Hc'|]. intros [= ->]. congruence.
  - unfold reconnect. destruct (reg !! id) as [st|]; [|exact Hc'].
    destruct (s_connected st); [exact Hc'|]. destruct id; [exact Hc'|]. by apply conn_insert.
  - destruct id as [u|m]; simpl; [by apply conn_delete|]. unfold is_connected.
    rewrite reg_alter_ne; [by rewrite En|]. intros [= ->]. by apply Hrel.
  - unfold rename. destruct (is_valid_name m); [|exact Hc']. simpl.
    case_bool_decide; [exact Hc'|]. destruct (reg !! old) as [st|] eqn:Eo; [|exact Hc'].
    destruct (negb _ && _); [exact Hc'|].
    destruct (reg !! Named m) as [ex|] eqn:Em; [destruct (s_connected ex) eqn:Ex; [exact Hc'|]|].
    + rewrite reg_delete_ne, Eo by done. simpl. apply conn_insert.
      * apply conn_delete; [|done]. apply conn_delete; [done|]. intros [= ->]. congruence.
      * intros [= ->]. congruence.
    + rewrite Eo. simpl. apply conn_insert; [by apply conn_delete|]. intros [= ->]. congruence.
  - unfold dispose_if_expired. destruct (reg !! id) as [st|] eqn:Ei; [|exact Hc'].
    destruct (abandoned ttl now st) eqn:Ea; [|exact Hc']. apply conn_delete; [exact Hc'|].
    intros ->. unfold abandoned in Ea. bool_to_prop. congruence.
  - unfold drop_session. destruct (reg !! Named m) as [st|] eqn:Ei; [|exact Hc'].
    destruct (s_connected st) eqn:Es; [exact Hc'|]. apply conn_delete; [exact Hc'|].
    intros [= ->]. congruence.
Qed.

Lemma conn_step n reg op :
  is_connected (Named n) reg = true → ¬ releases n op → is_connected (Named n) (reg_step reg op) = true.
Proof.
  intros Hc Hr. destruct op as [| | | | |id i| | | |id d|id e|id sp|id f pre post ctx desc os
    |id t f pre post ctx desc os|id t|id f desc|id m f desc|id m|id|id m|id ev|id];
    try (by apply conn_lifecycle); cbn [reg_step]; try (by apply conn_on_triggers).
  - by apply conn_alter.
  - apply conn_alter; [done|]. intros st. unfold bind_domain. by case_goal.
  - unfold add_filter. destruct (parse_filter f); [done|].
    destruct (reg !! id) eqn:E; [|done]. by eapply conn_update.
  - unfold edit_filter. destruct (match f with None => _ | Some _ => _ end); [done|].
    destruct (reg !! id) eqn:E; [|done]. destruct (edit_first _ _ _) as [[x fs]|]; [|done].
    by eapply conn_update.
  - unfold remove_filter. destruct (reg !! id) eqn:E; [|done].
    destruct (remove_first_filter _ _); [|done]. by eapply conn_update.
  - unfold decrement_post_window. destruct (reg !! id) eqn:E; [|done]. case_goal; [done|].
    by eapply conn_update.
  - by apply conn_alter.
  - apply conn_alter; [done|]. intros st. unfold queue_event. by case_goal.
  - unfold drain_notifications. destruct (reg !! id) eqn:E; [|done]. by eapply conn_update.
Qed.

(** C24: a claimed name is exclusive. Once a claim of a name succeeds (resuming
    the disconnected session as it was left, or creating one), then whatever else
    the registry serves, until that session itself disconnects or is renamed, it
    stays connected and every other claim or creation under the name is refused
    and changes nothing. *)
Theorem claim_exclusive reg name now resumed_new reg' ops :
  claim_named name now reg = Some (inr (Named name, resumed_new), reg') →
  (∀ op, op ∈ ops → ¬ releases name op) →
  (resumed_new = false → ∃ st, reg !! Named name = Some st ∧ s_connected st = false ∧
     reg' = <[Named name := set_connected true now st]> reg) ∧
  let reg2 := reg_run reg' ops in
  is_connected (Named name) reg2 = true ∧
  ∀ now', claim_named name now' reg2 = Some (inl (AlreadyConnected name), reg2) ∧
          create_named name now' reg2 = Some (inl (AlreadyConnected name), reg2).
Proof.
  unfold claim_named at 1. destruct (is_valid_name name) eqn:Ev; [|done]. simpl.
  destruct (refuse_an_anonymous_id reg name); [done|]. intros Hcl Hops.
  assert (is_connected (Named name) reg' = true ∧ (resumed_new = false → ∃ st, reg !! Named name = Some st ∧
    s_connected st = false ∧ reg' = <[Named name := set_connected true now st]> reg)) as [Hc Hr].
  { destruct (reg !! Named name) as [st|] eqn:Es.
    - destruct (s_connected st) eqn:Ec; [done|]. injection Hcl as <- <-. split; [|eauto].
      unfold is_connected. by rewrite reg_insert.
    - destruct (new_named name now) as [st|] eqn:En; [|done]. injection Hcl as <- <-. split; [|done].
      unfold is_connected. rewrite reg_insert. unfold new_named, new_state in En.
      apply fmap_Some in En as (t & _ & ->). done. }
  split; [done|]. clear Hcl Hr. set (reg2 := reg_run reg' ops).
  assert (is_connected (Named name) reg2 = true) as Hc2.
  { subst reg2. revert reg' Hc. induction ops as [|op ops IH]; intros reg1 Hc; [done|]. simpl.
    apply IH; [intros; apply Hops; by right|]. apply conn_step; [done|]. apply Hops. by left. }
  split; [done|]. intros now'. unfold claim_named, create_named. rewrite Ev. simpl.
  destruct (refuse_an_anonymous_id reg2 name); [done|]. unfold is_connected in Hc2.
  destruct (reg2 !! Named name) as [st|]; [|done]. by rewrite Hc2.
Qed.
End sessionruns.

(** ** The properties at concrete inputs *)

Definition sample_reg_ops : list RegOp :=
  [RCreateAnonymous "u1" 0; RRename (Anonymous "u1") "alice" 1; RAddFilter (Named "alice") "m=boom" None;
   RCreateAnonymous "u2" 2; RClaim "alice" 3; RRename (Anonymous "u2") "alice" 4; RDisconnect (Named "alice") 5].

Lemma registry_invariant_witness : uuids_fresh ∅ sample_reg_ops ∧ registry_ok (reg_run ∅ sample_reg_ops).
Proof.
  assert (uuids_fresh ∅ sample_reg_ops) as Hu.
  { unfold sample_reg_ops, uuids_fresh. split_and!; try exact I; vm_compute; reflexivity. }
  split; [exact Hu|]. apply (registry_invariant ∅ sample_reg_ops); [|exact Hu].
  split; [by intros x [? ?]|done].
Defined.

Lemma claim_exclusive_witness :
  match claim_named "alice" 0 (∅ : SessionRegistry) with
  | Some (_, reg') => claim_named "alice" 9 (reg_run reg' [RRename (Anonymous "u") "alice" 1; RDrop "alice"]) =
      Some (inl (AlreadyConnected "alice"), reg_run reg' [RRename (Anonymous "u") "alice" 1; RDrop "alice"])
  | None => False
  end.
Proof.
  destruct (claim_named "alice" 0 (∅ : SessionRegistry)) as [[r reg']|] eqn:E.
  - assert (r = inr (Named "alice", true)) as ->.
    { assert (fst <$> claim_named "alice" 0 (∅ : SessionRegistry) = Some (inr (Named "alice", true))) as H
        by (vm_compute; reflexivity). rewrite E in H. by injection H. }
    destruct (claim_exclusive ∅ "alice" 0 true reg' [RRename (Anonymous "u") "alice" 1; RDrop "alice"])
      as (_ & _ & H); [exact E| |exact (proj1 (H 9%Z))].
    intros op [->|[->|[]%elem_of_nil]%elem_of_cons]%elem_of_cons; simpl; intros H; [discriminate H|exact H].
  - assert (fst <$> claim_named "alice" 0 (∅ : SessionRegistry) = Some (inr (Named "alice", true))) as H
      by (vm_compute; reflexivity). rewrite E in H. discriminate H.
Defined.
