(* ===== verification/Processor.v ===== *)
(** * Processor: one record or one span through a domain
    ([daemon/log_processor.rs], [daemon/span_processor.rs])

    Each domain has one log task and one span task; a record is processed to the
    end before the next one of its domain. *)

From S2P Require Import Prelude Text F64 Gelf Filter Matcher SeqCounter PreBuffer Epoch Trigger MemStore Pipeline SpanStore Session.

Set Default Proof Using "Type".
Local Open Scope N_scope.

Section processor.
Context {X : Externals}.

Definition sync_pre_buffer_size_for_domain (ord : Order) (d : DomainId) (reg : SessionRegistry)
  (p : LogPipeline) : LogPipeline :=
  resync_pre_buffer (N.to_nat (max_pre_window_for_domain ord d reg)) p.

(** ** A firing trigger *)

Definition max_of (f : TriggerMatch → N) (ms : list TriggerMatch) : N := foldr N.max 0 (f <$> ms).

(** The records just before the match, the match itself dropped. *)
Definition context_before (q : N) (ctx : N) (p : LogPipeline) : list LogEntry :=
  let c := Pipeline.context_by_seq q (N.to_nat ctx) 0 p in
  match last c with
  | Some e => if seq e =? q then take (length c - 1) c else c
  | None => c
  end.

Definition log_event (sid : SessionId) (e : LogEntry) (flushed : N) (m : TriggerMatch)
  (ctx : list LogEntry) : PipelineEvent :=
  mkEvent (id_string sid) (m_id m) (m_description m) (m_filter_string m) e ctx flushed
    (m_pre_window m) (m_post_window m) (m_notify_context m) (m_oneshot m) (trace_id e) None.

(** One match: notify, then drop a oneshot trigger. *)
Definition dispatch_match (sid : SessionId) (e : LogEntry) (flushed : N)
  (st : LogPipeline * SessionRegistry * bool) (m : TriggerMatch)
  : LogPipeline * SessionRegistry * bool :=
  let '(p, reg, removed) := st in
  let ev := log_event sid e flushed m (context_before (seq e) (m_notify_context m) p) in
  let reg := send_or_queue_notification sid ev reg in
  let p := send_event ev p in
  if m_oneshot m then (p, (remove_trigger sid (m_id m) reg).2, true) else (p, reg, removed).

(** The record itself, unless it is held. *)
Definition store_trigger_entry (e : LogEntry) (p : LogPipeline) : LogPipeline :=
  if negb (contains_seq (seq e) p) then append_to_store (set_source PreTrigger e) p else p.

(** The pre-window, then the rest of the trace in the buffer, as one batch. *)
Definition flush_batch (e : LogEntry) (pre : N) (p : LogPipeline) : list LogEntry * LogPipeline :=
  let '(flushed, p) := pre_buffer_copy (N.to_nat pre) p in
  let traced := match trace_id e with
                | Some t => pre_buffer_entries_by_trace_id t p
                | None => []
                end in
  (set_source PreTrigger <$> (flushed ++ traced), p).

Definition fire (ord : Order) (d : DomainId) (sid : SessionId) (e : LogEntry) (ms : list TriggerMatch)
  (p : LogPipeline) (reg : SessionRegistry) : LogPipeline * SessionRegistry :=
  let max_pre := max_of m_pre_window ms in
  let p := store_trigger_entry e p in
  let '(batch, p) := flush_batch e max_pre p in
  let '(_, p) := Pipeline.insert_sorted batch p in
  let reg := extend_post_window sid (max_of m_post_window ms) reg in
  let '(p, reg, removed) := foldl (dispatch_match sid e max_pre) (p, reg, false) ms in
  (if removed : bool then sync_pre_buffer_size_for_domain ord d reg p else p, reg).

(** One session of the domain; the flag is [any_post_window_active]. *)
Definition process_session (ord : Order) (d : DomainId) (e : LogEntry)
  (st : LogPipeline * SessionRegistry * bool) (sid : SessionId) : LogPipeline * SessionRegistry * bool :=
  let '(p, reg, active) := st in
  let '(open, reg) := decrement_post_window sid reg in
  let active := active || open in
  let '(ms, reg) := evaluate_triggers sid e reg in
  match ms with
  | [] => (p, reg, active)
  | _ => (fire ord d sid e ms p reg, true)
  end.

(** Storage of a record no trigger stored. *)
Definition store_record (ord : Order) (d : DomainId) (e : LogEntry) (active : bool)
  (reg : SessionRegistry) (p : LogPipeline) : LogPipeline :=
  if negb (contains_seq (seq e) p) then
    if active : bool then append_to_store (set_source PostTrigger e) p
    else
      let decision := evaluate_filters_for_domain ord d e reg in
      let p := observe_epoch (seq e) (policy decision) p in
      if should_store decision then
        append_to_store (set_source FilterSource
          (set_matched_filters (matched_descriptions decision) e)) p
      else p
  else p.

Definition process_entry_for_domain (ord : Order) (d : DomainId) (e : LogEntry)
  (p : LogPipeline) (reg : SessionRegistry) : LogPipeline * SessionRegistry :=
  let '(q, p) := assign_seq p in
  let e := set_seq q e in
  let ids := active_session_ids_sorted_by_pre_window_for_domain ord d reg in
  let '(p, reg, active) := foldl (process_session ord d e) (p, reg, false) ids in
  let p := pre_buffer_append e p in
  (store_record ord d e active reg p, reg).

(** ** Spans *)

Definition build_trace_summary (t : N) (s : SpanStore) : option TraceSummary :=
  summarize "[incomplete]" 0 t (get_trace t s).

Definition dispatch_span_match (sid : SessionId) (sp : SpanEntry) (s : SpanStore)
  (st : LogPipeline * SessionRegistry * bool) (m : TriggerMatch)
  : LogPipeline * SessionRegistry * bool :=
  let '(p, reg, removed) := st in
  let ev := build_span_event sid sp m (build_trace_summary (sp_trace_id sp) s) in
  let reg := send_or_queue_notification sid ev reg in
  let p := send_event ev p in
  if m_oneshot m then (p, (remove_trigger sid (m_id m) reg).2, true) else (p, reg, removed).

Definition process_span_session (sp : SpanEntry) (s : SpanStore)
  (st : LogPipeline * SessionRegistry * bool) (sid : SessionId) : LogPipeline * SessionRegistry * bool :=
  let '(p, reg, removed) := st in
  let '(ms, reg) := evaluate_span_triggers sid sp reg in
  foldl (dispatch_span_match sid sp s) (p, reg, removed) ms.

(** [ingest] is [CollectorRegistry::ingest_span] over the collectors' state [w]. *)
Definition process_span_for_domain {W : Type} (ord : Order) (ingest : DomainId → SpanEntry → W → W)
  (d : DomainId) (sp : SpanEntry) (s : SpanStore) (reg : SessionRegistry) (p : LogPipeline) (w : W)
  : SpanEntry * SpanStore * SessionRegistry * LogPipeline * W :=
  let '(q, s, c) := SpanStore.insert sp (lp_seq p) s in
  let p := set_counter c p in
  let sp := sp_set_seq q sp in
  let w := ingest d sp w in
  let '(p, reg, removed) :=
    foldl (process_span_session sp s) (p, reg, false) (active_session_ids_for_domain ord d reg) in
  (sp, s, reg, if removed : bool then sync_pre_buffer_size_for_domain ord d reg p else p, w).
End processor.
