(* ===== verification/ProcessorSpec.v ===== *)
(** * ProcessorSpec: what processing one record guarantees *)

From S2P Require Import Prelude Text F64 Gelf Filter Matcher Samples SeqCounter PreBuffer Epoch EpochSpec Trigger MemStore MemStoreInv MemStoreSpec Pipeline PipeInv SpanStore Session Processor.

Set Default Proof Using "Type".
Local Open Scope N_scope.

Section processorspec.
Context {X : Externals}.
Implicit Types (e : LogEntry) (q c : N) (p : LogPipeline) (reg : SessionRegistry) (ord : Order).

(** ** A firing session *)

Lemma dispatch_step arrived sid e flushed ms p reg rem :
  pipe_inv arrived p →
  let '(p', _, _) := foldl (dispatch_match sid e flushed) (p, reg, rem) ms in step_ok arrived p p'.
Proof.
  revert p reg rem. induction ms as [|m ms IH]; intros p reg rem Hi; [by apply step_ok_refl|].
  cbn [foldl]. unfold dispatch_match at 2.
  set (ev := log_event _ _ _ _ _). pose proof (send_ok arrived ev p Hi) as Hs.
  assert (∀ reg' rem', let '(p', _, _) := foldl (dispatch_match sid e flushed) (send_event ev p, reg', rem') ms
    in step_ok arrived p p') as H.
  { intros reg' rem'. specialize (IH (send_event ev p) reg' rem' (so_inv _ _ _ Hs)).
    destruct (foldl _ _ ms) as [[p' ?] ?]. by eapply step_ok_trans. }
  destruct (m_oneshot m); apply H.
Qed.

Lemma stored_from_source arrived src e : e ∈ arrived → stored_from arrived (set_source src e).
Proof. intros He. by exists e. Qed.

Lemma store_trigger_step arrived e p :
  pipe_inv arrived p → lp_seq p < u64_max → e ∈ arrived → MemStore.admit_from (lp_store p) ≤ seq e →
  step_ok arrived p (store_trigger_entry e p) ∧ kept (seq e) (lp_store (store_trigger_entry e p)).
Proof.
  intros Hi Hc He Ha. unfold store_trigger_entry. destruct (contains_seq (seq e) p) eqn:Ec; simpl.
  - split; [by apply step_ok_refl|]. left. apply holds_spec; [apply (pi_wf _ _ Hi)|done].
  - destruct (append_ok arrived (set_source PreTrigger e) p Hi Hc) as [Hs Hk];
      [by apply stored_from_source|]. split; [done|]. by apply Hk.
Qed.

Lemma fire_step arrived ord d sid e ms p reg :
  pipe_inv arrived p → lp_seq p < u64_max → e ∈ arrived → MemStore.admit_from (lp_store p) ≤ seq e →
  step_ok arrived p (fire ord d sid e ms p reg).1.
Proof.
  intros Hi Hc He Ha. unfold fire, flush_batch.
  destruct (store_trigger_step arrived e p Hi Hc He Ha) as [H1 _].
  set (p1 := store_trigger_entry e p) in *.
  pose proof (flush_ok arrived (N.to_nat (max_of m_pre_window ms)) p1 (so_inv _ _ _ H1)) as H2.
  destruct (pre_buffer_copy _ p1) as [flushed p2]. destruct H2 as (H2 & Hfl & _).
  set (traced := match trace_id e with Some t => _ | None => _ end).
  destruct (insert_ok arrived (set_source PreTrigger <$> (flushed ++ traced)) p2) as [H3 _].
  { apply H2. }
  { rewrite (so_seq _ _ _ H2), (so_seq _ _ _ H1). done. }
  { intros x (y & -> & [Hy|Hy]%elem_of_app)%list_elem_of_fmap; apply stored_from_source; [auto|].
    subst traced. destruct (trace_id e); [|by apply elem_of_nil in Hy].
    by eapply traced_ok; [apply H2|]. }
  destruct (insert_sorted _ p2) as [n p3]. simpl in H3.
  pose proof (dispatch_step arrived sid e (max_of m_pre_window ms) ms p3
    (extend_post_window sid (max_of m_post_window ms) reg) false (so_inv _ _ _ H3)) as H4.
  destruct (foldl _ _ ms) as [[p4 reg'] rem].
  assert (step_ok arrived p p4) as H14.
  { eapply step_ok_trans; [exact H1|]. eapply step_ok_trans; [exact H2|]. by eapply step_ok_trans. }
  destruct rem; [|done]. simpl. eapply step_ok_trans; [exact H14|]. by apply resize_ok, H14.
Qed.

Lemma process_sessions_step arrived ord d e ids p reg active :
  pipe_inv arrived p → lp_seq p < u64_max → e ∈ arrived → MemStore.admit_from (lp_store p) ≤ seq e →
  let '(p', _, _) := foldl (process_session ord d e) (p, reg, active) ids in step_ok arrived p p'.
Proof.
  revert p reg active. induction ids as [|sid ids IH]; intros p reg active Hi Hc He Ha;
    [by apply step_ok_refl|]. cbn [foldl]. unfold process_session at 2.
  destruct (decrement_post_window sid reg) as [open reg1].
  destruct (evaluate_triggers sid e reg1) as [ms reg2]. destruct ms as [|m ms]; [by apply IH|].
  pose proof (fire_step arrived ord d sid e (m :: ms) p reg2 Hi Hc He Ha) as H1.
  destruct (fire ord d sid e (m :: ms) p reg2) as [p1 reg3]. simpl in H1.
  specialize (IH p1 reg3 true (so_inv _ _ _ H1)).
  rewrite (so_seq _ _ _ H1), (so_admit _ _ _ H1) in IH. specialize (IH Hc He Ha).
  destruct (foldl _ _ ids) as [[p' ?] ?]. by eapply step_ok_trans.
Qed.

(** ** One record *)

(** The domain decided [e] (its seq is the counter's): it is stored, or it was
    judged by a filtering policy and the epoch log says so. *)
Record decided (q : N) (p p' : LogPipeline) : Prop := {
  dc_seq : lp_seq p' = q;
  dc_kept q' : kept q' (lp_store p) → kept q' (lp_store p');
  dc_entry : kept q (lp_store p') ∧ lp_epochs p' = lp_epochs p ∨
    ∃ pol, lp_epochs p' = observe q pol (lp_epochs p) ∧
      (kept q (lp_store p') ∨ is_filtered pol = true);
}.

Lemma store_record_step arrived ord d e active reg p :
  pipe_inv arrived p → lp_seq p < u64_max → e ∈ arrived → seq e = lp_seq p →
  MemStore.admit_from (lp_store p) ≤ seq e →
  pipe_inv arrived (store_record ord d e active reg p) ∧
  decided (seq e) p (store_record ord d e active reg p).
Proof.
  intros Hi Hc He Hq Ha. unfold store_record. destruct (contains_seq (seq e) p) eqn:Ec; cbn [negb].
  { split; [done|]. constructor; [done|done|left]. split; [|done]. left.
    apply holds_spec; [apply (pi_wf _ _ Hi)|done]. }
  destruct active.
  - destruct (append_ok arrived (set_source PostTrigger e) p Hi Hc) as [Hs Hk];
      [by apply stored_from_source|].
    split; [apply Hs|]. constructor; [done|apply Hs|left]. split; [by apply Hk|done].
  - set (dec := evaluate_filters_for_domain ord d e reg).
    assert (Hio : pipe_inv arrived (observe_epoch (seq e) (policy dec) p)) by (by destruct Hi; constructor).
    cbn zeta. destruct (should_store dec) eqn:Es.
    + destruct (append_ok arrived (set_source FilterSource (set_matched_filters (matched_descriptions dec) e))
        (observe_epoch (seq e) (policy dec) p) Hio Hc) as [Hs Hk]; [by exists e|].
      split; [apply Hs|]. constructor; [done|apply Hs|right]. exists (policy dec). split; [done|].
      left. by apply Hk.
    + split; [done|]. constructor; [done|done|right]. exists (policy dec). split; [done|right].
      unfold dec, evaluate_filters_for_domain in *. simpl in *. apply orb_false_iff in Es as [_ Es].
      by apply negb_false_iff in Es.
Qed.

(** The stages of one record: its seq, the sessions in turn, then its storage. *)
Lemma process_entry_split arrived ord d e p reg :
  pipe_inv arrived p → lp_seq p + 1 < u64_max →
  let e' := set_seq (lp_seq p + 1) e in
  let p1 := set_counter (lp_seq p + 1) p in
  pipe_inv (arrived ++ [e']) p1 ∧ e' ∈ arrived ++ [e'] ∧ MemStore.admit_from (lp_store p) ≤ seq e' ∧
  let '(p2, reg2, active) := foldl (process_session ord d e') (p1, reg, false)
    (active_session_ids_sorted_by_pre_window_for_domain ord d reg) in
  let p3 := store_record ord d e' active reg2 (pre_buffer_append e' p2) in
  process_entry_for_domain ord d e p reg = (p3, reg2) ∧
  step_ok (arrived ++ [e']) p1 p2 ∧ pipe_inv (arrived ++ [e']) p3 ∧
  decided (seq e') (pre_buffer_append e' p2) p3.
Proof.
  intros Hi Hc e' p1. unfold process_entry_for_domain.
  destruct (assign_inv arrived p Hi ltac:(lia)) as (Hq & _ & _ & _ & _ & Hi1).
  unfold assign_seq in *. destruct (next_fresh (lp_seq p) ltac:(lia)) as [E _]. rewrite E in *.
  cbn [fst snd] in *. fold e' p1 in Hi1 |- *.
  apply (arrive_inv arrived p1 e') in Hi1; [|simpl; lia].
  assert (He : e' ∈ arrived ++ [e']) by (apply elem_of_app; right; by left).
  assert (Ha1 : MemStore.admit_from (lp_store p) ≤ seq e') by (simpl; apply (pi_admit _ _ Hi)).
  split_and!; [done|done|done|].
  pose proof (process_sessions_step (arrived ++ [e']) ord d e'
    (active_session_ids_sorted_by_pre_window_for_domain ord d reg) p1 reg false Hi1
    ltac:(simpl; lia) He Ha1) as Hs.
  destruct (foldl _ _ _) as [[p2 reg2] active]. split; [done|]. split; [done|].
  pose proof (pi_arrivals _ _ Hi) as Harr. pose proof (so_seq _ _ _ Hs) as Hs2. simpl in Hs2.
  assert (Hi3 : pipe_inv (arrived ++ [e']) (pre_buffer_append e' p2)).
  { apply pre_append_ok; [apply Hs| | |done]; rewrite ?(so_arr _ _ _ Hs), Hs2; simpl; lia. }
  apply store_record_step; [done|simpl; rewrite Hs2; lia|done|simpl; by rewrite Hs2|].
  simpl. by rewrite (so_admit _ _ _ Hs).
Qed.

Lemma process_entry_step arrived ord d e p reg :
  pipe_inv arrived p → lp_seq p + 1 < u64_max →
  let e' := set_seq (lp_seq p + 1) e in
  let '(p', _) := process_entry_for_domain ord d e p reg in
  pipe_inv (arrived ++ [e']) p' ∧ decided (lp_seq p + 1) p p'.
Proof.
  intros Hi Hc e'. destruct (process_entry_split arrived ord d e p reg Hi Hc) as (_ & _ & _ & H).
  fold e' in H. destruct (foldl _ _ _) as [[p2 reg2] active]. destruct H as (-> & Hs & Hi' & [D1 D2 D3]).
  split; [done|]. constructor; [done| |].
  - intros q Hk. apply D2. by apply (so_kept _ _ _ Hs).
  - simpl in D3. by rewrite (so_epochs _ _ _ Hs) in D3.
Qed.
End processorspec.
