(* ===== verification/Domain.v ===== *)
(** * Domain: the life of one domain's pipeline

    A domain as a state machine: records and spans arrive, the ring is cleared,
    the pre-trigger buffer is resynced, and the sessions change in between in any
    way. [domain_inv] holds after every such run, and ties what arrived to the
    ring and to the epoch log: an arrived record is held, is below the loss
    floor, or was refused by a filtering policy that the epoch log knows. *)

From S2P Require Import Prelude Text F64 Gelf Filter Matcher Samples SeqCounter PreBuffer Epoch EpochSpec Trigger MemStore MemStoreInv MemStoreSpec Pipeline PipeInv SpanStore Session Processor ProcessorSpec.

Set Default Proof Using "Type".
Local Open Scope N_scope.

Section domain.
Context {X : Externals}.
Implicit Types (e a : LogEntry) (q c : N) (p : LogPipeline) (reg : SessionRegistry) (ord : Order).

(** A span changes the pipeline only by its seq and its notifications. *)
Lemma span_dispatch_step arrived sid sp s ms p reg rem :
  pipe_inv arrived p →
  let '(p', _, _) := foldl (dispatch_span_match sid sp s) (p, reg, rem) ms in step_ok arrived p p'.
Proof.
  revert p reg rem. induction ms as [|m ms IH]; intros p reg rem Hi; [by apply step_ok_refl|].
  cbn [foldl]. unfold dispatch_span_match at 2. set (ev := build_span_event _ _ _ _).
  pose proof (send_ok arrived ev p Hi) as Hs.
  assert (∀ reg' rem', let '(p', _, _) := foldl (dispatch_span_match sid sp s) (send_event ev p, reg', rem') ms
    in step_ok arrived p p') as H.
  { intros reg' rem'. specialize (IH (send_event ev p) reg' rem' (so_inv _ _ _ Hs)).
    destruct (foldl _ _ ms) as [[p' ?] ?]. by eapply step_ok_trans. }
  destruct (m_oneshot m); apply H.
Qed.

Lemma span_sessions_step arrived sp s ids p reg rem :
  pipe_inv arrived p →
  let '(p', _, _) := foldl (process_span_session sp s) (p, reg, rem) ids in step_ok arrived p p'.
Proof.
  revert p reg rem. induction ids as [|sid ids IH]; intros p reg rem Hi; [by apply step_ok_refl|].
  cbn [foldl]. unfold process_span_session at 2.
  destruct (evaluate_span_triggers sid sp reg) as [ms reg1].
  pose proof (span_dispatch_step arrived sid sp s ms p reg1 rem Hi) as H1.
  destruct (foldl (dispatch_span_match sid sp s) _ ms) as [[p1 reg2] rem1].
  specialize (IH p1 reg2 rem1 (so_inv _ _ _ H1)). destruct (foldl _ _ ids) as [[p' ?] ?].
  by eapply step_ok_trans.
Qed.

Lemma process_span_step {W} arrived ord (ingest : DomainId → SpanEntry → W → W) d sp s reg p w :
  pipe_inv arrived p → lp_seq p < u64_max →
  let '(_, _, _, p', _) := process_span_for_domain ord ingest d sp s reg p w in
  pipe_inv arrived p' ∧ lp_seq p' = lp_seq p + 1 ∧ lp_epochs p' = lp_epochs p ∧
  (∀ q, kept q (lp_store p) → kept q (lp_store p')).
Proof.
  intros Hi Hc. unfold process_span_for_domain, SpanStore.insert.
  pose proof (assign_inv arrived p Hi Hc) as Ha. unfold assign_seq in Ha.
  destruct (next_fresh _ Hc) as [E _]. rewrite E in *. simpl in Ha.
  destruct Ha as (_ & _ & _ & _ & _ & Hi1).
  assert (∀ s', let '(_, _, _, p', _) :=
    (let p := set_counter (lp_seq p + 1) p in
     let sp := sp_set_seq (lp_seq p) sp in
     let '(p, reg, removed) := foldl (process_span_session sp s') (p, reg, false)
       (active_session_ids_for_domain ord d reg) in
     (sp, s', reg, if removed : bool then sync_pre_buffer_size_for_domain ord d reg p else p, ingest d sp w)) in
    pipe_inv arrived p' ∧ lp_seq p' = lp_seq p + 1 ∧ lp_epochs p' = lp_epochs p ∧
    (∀ q, kept q (lp_store p) → kept q (lp_store p'))) as H; [|case_goal; apply H].
  intros s'. cbn zeta.
  pose proof (span_sessions_step arrived (sp_set_seq (lp_seq p + 1) sp) s'
    (active_session_ids_for_domain ord d reg) (set_counter (lp_seq p + 1) p) reg false Hi1) as H1.
  change (lp_seq (set_counter (lp_seq p + 1) p)) with (lp_seq p + 1) in *.
  destruct (foldl _ _ _) as [[p1 reg1] removed]. destruct removed.
  - destruct H1 as [J1 J2 J3 J4 J5 J6].
    destruct (resize_ok arrived (N.to_nat (max_pre_window_for_domain ord d reg1)) p1 J1).
    split_and!; auto.
  - destruct H1 as [J1 J2 J3 J4 J5 J6]. split_and!; auto.
Qed.

(** ** Runs *)

Inductive DomEvent :=
  | EvLog (ord : Order) (e : LogEntry)
  | EvSpan (ord : Order) (sp : SpanEntry)
  | EvClear
  | EvResync (ord : Order)
  | EvSessions (reg : SessionRegistry).

(** [dm_arrived] are the records as numbered, for the statements only. *)
Record Domain := mkDomain {
  dm_pipe : LogPipeline;
  dm_spans : SpanStore;
  dm_reg : SessionRegistry;
  dm_arrived : list LogEntry;
}.

Definition domain_step (d : DomainId) (w : Domain) (ev : DomEvent) : Domain :=
  let '(mkDomain p s reg arrived) := w in
  match ev with
  | EvLog ord e =>
      let '(p', reg') := process_entry_for_domain ord d e p reg in
      mkDomain p' s reg' (arrived ++ [set_seq (assign_seq p).1 e])
  | EvSpan ord sp =>
      let '(_, s', reg', p', _) := process_span_for_domain ord (λ _ _ w, w) d sp s reg p tt in
      mkDomain p' s' reg' arrived
  | EvClear => mkDomain (clear_logs p).2 s reg arrived
  | EvResync ord => mkDomain (sync_pre_buffer_size_for_domain ord d reg p) s reg arrived
  | EvSessions reg' => mkDomain p s reg' arrived
  end.

(** A domain opened on a counter, then lived through [evs]. *)
Definition domain_start (cap spans : nat) (c : SeqCounter) : Domain :=
  mkDomain (new_with_seq_counter cap c) (SpanStore.new spans) ∅ [].
Definition domain_run (d : DomainId) (evs : list DomEvent) (w : Domain) : Domain :=
  foldl (domain_step d) w evs.

Record domain_inv (c : SeqCounter) (n : nat) (w : Domain) (obs : list (N * FilterPolicy)) : Prop := {
  di_pipe : pipe_inv (dm_arrived w) (dm_pipe w);
  di_seq : c ≤ lp_seq (dm_pipe w) ≤ c + N.of_nat n;
  di_above a : a ∈ dm_arrived w → c < seq a;
  di_asc : ascending seq (dm_arrived w);
  di_log : log_inv obs (lp_epochs (dm_pipe w));
  di_nil : obs = [] → epochs (lp_epochs (dm_pipe w)) = [];
  di_origin : origin_seq (lp_epochs (dm_pipe w)) = c;
  di_obs o : o ∈ obs → o.1 ≤ lp_seq (dm_pipe w);
  di_entry a : a ∈ dm_arrived w → kept (seq a) (lp_store (dm_pipe w)) ∨
    ∃ pol, (seq a, pol) ∈ obs ∧ is_filtered pol = true;
}.

Lemma domain_log_inv c n d ord e w obs :
  domain_inv c n w obs → c + N.of_nat n + 1 < u64_max →
  ∃ obs', domain_inv c (S n) (domain_step d w (EvLog ord e)) obs'.
Proof.
  destruct w as [p s reg arrived]. intros [Hi Hq Hab Has Hl Hn Ho Hob He] Hc.
  cbn [dm_pipe dm_spans dm_reg dm_arrived domain_step] in *.
  destruct (next_fresh (lp_seq p) ltac:(lia)) as [E _]. unfold assign_seq. rewrite E. cbn [fst].
  pose proof (process_entry_step arrived ord d e p reg Hi ltac:(lia)) as Hs.
  destruct (process_entry_for_domain ord d e p reg) as [p' reg'].
  set (e' := set_seq (lp_seq p + 1) e) in *. destruct Hs as [Hi' [D1 D2 D3]].
  assert (Has' : ascending seq (arrived ++ [e'])).
  { apply ascending_snoc. split; [done|]. intros x Hx. apply (pi_arrived _ _ Hi) in Hx. simpl. lia. }
  assert (Hab' : ∀ a, a ∈ arrived ++ [e'] → c < seq a).
  { intros a [Ha| ->%list_elem_of_singleton]%elem_of_app; [by apply Hab|simpl; lia]. }
  destruct D3 as [[Hk Heq]|(pol & Heq & Hk)].
  - exists obs. constructor; simpl; rewrite ?Heq, ?D1; try done; [lia| |].
    + intros o Hin%Hob. lia.
    + intros a [Ha| ->%list_elem_of_singleton]%elem_of_app; [|by left].
      destruct (He a Ha); [left; auto|by right].
  - exists (obs ++ [(lp_seq p + 1, pol)]). constructor; simpl; rewrite ?Heq, ?D1; try done; [lia| | | | |].
    + apply observe_inv; [done| |lia|done]. intros o Hin%Hob. lia.
    + intros En. by destruct obs.
    + by rewrite observe_origin.
    + intros o [Hin%Hob| ->%list_elem_of_singleton]%elem_of_app; simpl; lia.
    + intros a [Ha| ->%list_elem_of_singleton]%elem_of_app.
      * destruct (He a Ha) as [?|(pol' & ? & ?)]; [left; auto|right].
        exists pol'. split; [|done]. apply elem_of_app. by left.
      * destruct Hk as [?|?]; [by left|right]. exists pol. split; [|done].
        apply elem_of_app. right. by left.
Qed.

(** Every other event leaves the arrivals and the epoch log alone. *)
Lemma domain_still_inv c n w p' s' reg' obs :
  domain_inv c n w obs → pipe_inv (dm_arrived w) p' →
  lp_seq (dm_pipe w) ≤ lp_seq p' ≤ lp_seq (dm_pipe w) + 1 → lp_epochs p' = lp_epochs (dm_pipe w) →
  (∀ q, kept q (lp_store (dm_pipe w)) → kept q (lp_store p')) →
  domain_inv c (S n) (mkDomain p' s' reg' (dm_arrived w)) obs.
Proof.
  intros [Hi Hq Hab Has Hl Hn Ho Hob He] Hi' Hq' Heq Hk.
  constructor; simpl; rewrite ?Heq; try done; [lia| |].
  - intros o Hin%Hob. lia.
  - intros a Ha. destruct (He a Ha); [left; auto|by right].
Qed.

Lemma domain_step_inv c n d ev w obs :
  domain_inv c n w obs → c + N.of_nat n + 1 < u64_max →
  ∃ obs', domain_inv c (S n) (domain_step d w ev) obs'.
Proof.
  intros Hi Hc. destruct ev as [ord e|ord sp| |ord|reg']; [by eapply domain_log_inv|exists obs..];
    pose proof (di_pipe _ _ _ _ Hi) as Hp; pose proof (di_seq _ _ _ _ Hi) as Hq;
    pose proof (λ p' s' reg', domain_still_inv c n w p' s' reg' obs Hi) as H;
    destruct w as [p s reg arrived]; cbn [domain_step]; simpl in *.
  - pose proof (process_span_step arrived ord (λ _ _ w, w) d sp s reg p tt Hp ltac:(lia)) as Hs.
    destruct (process_span_for_domain _ _ _ _ _ _ _ _) as [[[[? s'] reg'] p'] ?].
    destruct Hs as (? & ? & ? & ?). apply H; try done. lia.
  - destruct (clear_ok arrived p Hp ltac:(lia)) as (? & ? & ? & ? & _). apply H; try done. simpl. lia.
  - destruct (resize_ok arrived (N.to_nat (max_pre_window_for_domain ord d reg)) p Hp).
    apply H; try done. simpl. lia.
  - apply H; try done. lia.
Qed.

Lemma domain_run_inv cap spans c d evs :
  c + N.of_nat (length evs) < u64_max →
  ∃ obs, domain_inv c (length evs) (domain_run d evs (domain_start cap spans c)) obs.
Proof.
  induction evs as [|ev evs IH] using rev_ind; intros Hc.
  - exists []. constructor; simpl; try done; try (by intros ? ?%elem_of_nil).
    + apply new_inv.
    + lia.
    + apply ascending_nil.
    + constructor; simpl; try done; [apply ascending_nil|by intros ? ? ?%elem_of_nil].
  - rewrite length_app in *. simpl in *. destruct IH as [obs IH]; [lia|].
    unfold domain_run. rewrite foldl_app. simpl. fold (domain_run d evs (domain_start cap spans c)).
    rewrite Nat.add_1_r. eapply domain_step_inv; [done|lia].
Qed.
End domain.
