(* ===== verification/CaptureSpec.v ===== *)
(** * CaptureSpec: a firing trigger captures what led to it

    A record is processed against every session of its domain in turn. One
    session's firing touches no other session, and never loses what another
    session's trigger is about to capture. *)

From S2P Require Import Prelude Text F64 Gelf Filter Matcher Samples SeqCounter PreBuffer Epoch EpochSpec Trigger TriggerSpec MemStore MemStoreInv MemStoreSpec Pipeline PipeInv SpanStore SpanSpec Session SessionSpec Processor ProcessorSpec Domain.

Set Default Proof Using "Type".
Local Open Scope N_scope.

Section capturespec.
Context {X : Externals}.
Implicit Types (e x : LogEntry) (q : N) (p : LogPipeline) (reg : SessionRegistry) (ord : Order).

(** ** One session leaves the others alone *)

Lemma on_triggers_other {A} id (dflt : A) f reg i :
  i ≠ id → (on_triggers id dflt f reg).2 !! i = reg !! i.
Proof.
  intros Hne. unfold on_triggers. destruct (reg !! id) as [st|]; [|done].
  destruct (f (s_triggers st)). by apply reg_insert_ne.
Qed.

Lemma decrement_other id reg i : i ≠ id → (decrement_post_window id reg).2 !! i = reg !! i.
Proof.
  intros Hne. unfold decrement_post_window. destruct (reg !! id); [|done].
  case_goal; [done|]. by apply reg_insert_ne.
Qed.

(** Notifying changes neither the ring nor the buffer, and only the firing session. *)
Lemma dispatch_frame sid e fl ms p reg rem :
  let '(p', reg', _) := foldl (dispatch_match sid e fl) (p, reg, rem) ms in
  lp_store p' = lp_store p ∧ lp_pre_buffer p' = lp_pre_buffer p ∧ (∀ i, i ≠ sid → reg' !! i = reg !! i).
Proof.
  revert p reg rem. induction ms as [|m ms IH]; intros p reg rem; [done|].
  cbn [foldl]. unfold dispatch_match at 2. set (ev := log_event _ _ _ _ _).
  destruct (m_oneshot m).
  - specialize (IH (send_event ev p) (remove_trigger sid (m_id m) (send_or_queue_notification sid ev reg)).2 true).
    destruct (foldl _ _ ms) as [[p' reg'] ?]. destruct IH as (-> & -> & Hr). split_and!; [done|done|].
    intros i Hi. rewrite Hr by done. unfold remove_trigger. rewrite on_triggers_other by done.
    by apply reg_alter_ne.
  - specialize (IH (send_event ev p) (send_or_queue_notification sid ev reg) rem).
    destruct (foldl _ _ ms) as [[p' reg'] ?]. destruct IH as (-> & -> & Hr). split_and!; [done|done|].
    intros i Hi. rewrite Hr by done. by apply reg_alter_ne.
Qed.

Lemma fire_other ord d sid e ms p reg i :
  i ≠ sid → (fire ord d sid e ms p reg).2 !! i = reg !! i.
Proof.
  intros Hi. unfold fire. destruct (flush_batch _ _ _) as [batch p1].
  destruct (Pipeline.insert_sorted batch p1) as [n p2].
  pose proof (dispatch_frame sid e (max_of m_pre_window ms) ms p2
    (extend_post_window sid (max_of m_post_window ms) reg) false) as H.
  destruct (foldl _ _ ms) as [[p' reg'] rem]. destruct H as (_ & _ & Hr).
  assert (reg' !! i = reg !! i) by (rewrite Hr by done; by apply reg_alter_ne). by destruct rem.
Qed.

Lemma process_session_other ord d e p reg active sid i :
  i ≠ sid → (process_session ord d e (p, reg, active) sid).1.2 !! i = reg !! i.
Proof.
  intros Hi. unfold process_session.
  pose proof (decrement_other sid reg i Hi) as Hd.
  destruct (decrement_post_window sid reg) as [open reg1].
  pose proof (on_triggers_other sid [] (Trigger.evaluate e) reg1 i Hi) as He.
  unfold evaluate_triggers. destruct (on_triggers sid [] (Trigger.evaluate e) reg1) as [ms reg2].
  simpl in *. destruct ms as [|m ms]; simpl; [by rewrite He, Hd|].
  destruct (fire ord d sid e (m :: ms) p reg2) as [p3 reg3] eqn:E. simpl.
  pose proof (fire_other ord d sid e (m :: ms) p reg2 i Hi) as Hf. rewrite E in Hf. simpl in Hf.
  by rewrite Hf, He, Hd.
Qed.

(** ** What is in reach of a pre-window *)

(** [x] is buffered and among the last [n] arrivals. *)
Definition within (n : N) x p : Prop :=
  ∃ a, (a, x) ∈ pb_entries (lp_pre_buffer p) ∧ pb_arrivals (lp_pre_buffer p) - n ≤ a.

Lemma within_flushed n x p :
  pre_wf (lp_pre_buffer p) → within n x p →
  x ∈ (drop (len (lp_pre_buffer p) - N.to_nat n) (pb_entries (lp_pre_buffer p))).*2.
Proof.
  intros [Ha Hr _] (a & Hin & Hn). set (b := lp_pre_buffer p) in *.
  apply list_elem_of_lookup in Hin as [i Hi].
  assert (N.of_nat (length (drop i (pb_entries b))) ≤ pb_arrivals b - a) as Hlen.
  { apply (ascending_length fst); [by apply ascending_drop|]. intros [a' x'] Hd. simpl. split.
    - apply list_elem_of_lookup in Hd as [j Hj]. rewrite lookup_drop in Hj. destruct j as [|j].
      + rewrite Nat.add_0_r in Hj. rewrite Hi in Hj. by injection Hj as <- _.
      + pose proof (ascending_lookup_lt fst (pb_entries b) i (i + S j) (a, x) (a', x') Ha Hi Hj ltac:(lia)).
        simpl in *. lia.
    - apply subseteq_drop in Hd. by apply Hr in Hd as [_ ?]. }
  apply list_elem_of_fmap. exists (a, x). split; [done|]. apply list_elem_of_lookup.
  exists (i - (len b - N.to_nat n))%nat. rewrite lookup_drop. rewrite length_drop in Hlen.
  pose proof (lookup_lt_Some _ _ _ Hi). unfold len.
  replace (_ + (i - _))%nat with i; [done|]. lia.
Qed.

(** A flush of another pre-window takes [x] with it or leaves it where it was. *)
Lemma within_flush n m x p :
  pre_wf (lp_pre_buffer p) → within n x p →
  x ∈ (pre_buffer_copy m p).1 ∨ within n x (pre_buffer_copy m p).2.
Proof.
  intros Hw (a & Hin & Hn). unfold pre_buffer_copy.
  pose proof (flush_spec m _ Hw) as (_ & Hf & Hb).
  assert (pb_arrivals (flush m (lp_pre_buffer p)).2 = pb_arrivals (lp_pre_buffer p)) as Har.
  { unfold flush. by case_goal. }
  destruct (flush m (lp_pre_buffer p)) as [es b]. simpl in *.
  rewrite <-(take_drop (len (lp_pre_buffer p) - m) (pb_entries (lp_pre_buffer p))) in Hin.
  apply elem_of_app in Hin as [Hin|Hin].
  - right. exists a. simpl. by rewrite Hb, Har.
  - left. rewrite Hf. apply list_elem_of_fmap. by exists (a, x).
Qed.

Lemma within_resize n m x p :
  pre_wf (lp_pre_buffer p) → n ≤ N.of_nat m → within n x p → within n x (resize_pre_buffer m p).
Proof.
  intros [Ha Hr Ht] Hm (a & Hin & Hn). exists a. unfold resize_pre_buffer, resize. simpl.
  destruct (expire_wf m (mkPre (pb_entries (lp_pre_buffer p)) (pb_arrivals (lp_pre_buffer p)) m
    (pb_by_trace (lp_pre_buffer p)))) as (_ & -> & -> & _); simpl; try done.
  { intros a' e' H. by apply Hr in H as [_ ?]. }
  split; [|done]. apply list_elem_of_filter. split; [simpl; lia|done].
Qed.

Lemma domain_max_ge ord d reg sid st :
  order_ok ord → reg !! sid = Some st → s_domain st = d →
  max_pre_window (s_triggers st) ≤ max_pre_window_for_domain ord d reg.
Proof.
  intros Ho Hs Hd. unfold max_pre_window_for_domain.
  assert (∀ l y, y ∈ l → y ≤ foldr N.max 0 l) as Hmax.
  { induction l as [|z l IH]; intros y; [by intros ?%elem_of_nil|].
    intros [->|Hy%IH]%elem_of_cons; simpl; lia. }
  apply Hmax, list_elem_of_fmap. exists (sid, st). split; [done|]. apply elem_of_lfilter.
  split; [by apply String.eqb_eq|]. rewrite (Ho reg). by apply (elem_of_map_to_list (M:=gmap SessionId) reg).
Qed.

Lemma matches_pre_window e (m : TriggerManager) :
  max_of m_pre_window (Trigger.evaluate e m).1 ≤ max_pre_window m.
Proof.
  unfold max_of, max_pre_window. simpl. induction (triggers m) as [|t ts IH]; [done|].
  unfold omap, fmap in *. simpl.
  destruct (step_trigger e t) as [[mt|] t'] eqn:E; simpl in *; [|lia].
  pose proof (step_trigger_match e t mt) as Hm. rewrite E in Hm. specialize (Hm eq_refl). subst mt.
  simpl. lia.
Qed.

(** ** Another session fires first *)

(** [q] may still enter the ring. *)
Definition admitted q p : Prop := MemStore.admit_from (lp_store p) ≤ q.

Lemma fire_within arrived ord d sid' e ms p reg sid st n x :
  pipe_inv arrived p → lp_seq p < u64_max → e ∈ arrived → admitted (seq e) p →
  order_ok ord → sid ≠ sid' → reg !! sid = Some st → s_domain st = d →
  n ≤ max_pre_window (s_triggers st) →
  within n x p → admitted (seq x) p →
  kept (seq x) (lp_store (fire ord d sid' e ms p reg).1) ∨ within n x (fire ord d sid' e ms p reg).1.
Proof.
  intros Hi Hc He Ha Ho Hne Hs Hd Hn Hw Hx. unfold fire, flush_batch.
  destruct (store_trigger_step arrived e p Hi Hc He Ha) as [H1 _].
  assert (Hw1 : within n x (store_trigger_entry e p)) by (unfold store_trigger_entry; by case_goal).
  set (p1 := store_trigger_entry e p) in *.
  pose proof (flush_ok arrived (N.to_nat (max_of m_pre_window ms)) p1 (so_inv _ _ _ H1)) as H2.
  pose proof (within_flush n (N.to_nat (max_of m_pre_window ms)) x p1 (pi_pre_wf _ _ (so_inv _ _ _ H1)) Hw1) as Hw2.
  destruct (pre_buffer_copy _ p1) as [flushed p2]. destruct H2 as (H2 & Hfl & _). simpl in Hw2.
  set (traced := match trace_id e with Some t => _ | None => _ end).
  destruct (insert_ok arrived (set_source PreTrigger <$> (flushed ++ traced)) p2) as [H3 H3k].
  { apply H2. }
  { rewrite (so_seq _ _ _ H2), (so_seq _ _ _ H1). done. }
  { intros y (z & -> & [Hz|Hz]%elem_of_app)%list_elem_of_fmap; apply stored_from_source; [auto|].
    subst traced. destruct (trace_id e); [|by apply elem_of_nil in Hz]. by eapply traced_ok; [apply H2|]. }
  assert (Hw3 : kept (seq x) (lp_store (Pipeline.insert_sorted (set_source PreTrigger <$> (flushed ++ traced)) p2).2) ∨
    within n x (Pipeline.insert_sorted (set_source PreTrigger <$> (flushed ++ traced)) p2).2).
  { destruct Hw2 as [Hf|Hf].
    - left. apply (H3k (set_source PreTrigger x)).
      + apply list_elem_of_fmap. exists x. split; [done|]. apply elem_of_app. by left.
      + rewrite (so_admit _ _ _ H2), (so_admit _ _ _ H1). done.
    - right. unfold Pipeline.insert_sorted. by destruct (MemStore.insert_sorted _ _). }
  clear H3k. destruct (Pipeline.insert_sorted _ p2) as [k p3]. simpl in H3, Hw3.
  set (reg1 := extend_post_window sid' (max_of m_post_window ms) reg).
  pose proof (dispatch_frame sid' e (max_of m_pre_window ms) ms p3 reg1 false) as H4.
  pose proof (dispatch_step arrived sid' e (max_of m_pre_window ms) ms p3 reg1 false (so_inv _ _ _ H3)) as H5.
  destruct (foldl _ _ ms) as [[p4 reg'] rem]. destruct H4 as (Hst & Hpb & Hr).
  assert (Hw4 : kept (seq x) (lp_store p4) ∨ within n x p4).
  { rewrite Hst. unfold within. by rewrite Hpb. }
  destruct rem; [|done]. destruct Hw4 as [?|Hw4]; [by left|right].
  apply within_resize; [apply (pi_pre_wf _ _ (so_inv _ _ _ H5))| |done].
  assert (reg' !! sid = Some st) as Hs'.
  { rewrite Hr by done. subst reg1. unfold extend_post_window. by rewrite reg_alter_ne. }
  pose proof (domain_max_ge ord d reg' sid st Ho Hs' Hd). lia.
Qed.

(** ** The session itself fires *)

Lemma fire_captures arrived ord d sid e ms p reg x :
  pipe_inv arrived p → lp_seq p < u64_max → e ∈ arrived → admitted (seq e) p →
  let p' := (fire ord d sid e ms p reg).1 in
  kept (seq e) (lp_store p') ∧
  (within (max_of m_pre_window ms) x p → admitted (seq x) p → kept (seq x) (lp_store p')).
Proof.
  intros Hi Hc He Ha. unfold fire, flush_batch.
  destruct (store_trigger_step arrived e p Hi Hc He Ha) as [H1 H1k].
  assert (Hw1 : within (max_of m_pre_window ms) x p → within (max_of m_pre_window ms) x (store_trigger_entry e p))
    by (unfold store_trigger_entry; by case_goal).
  set (p1 := store_trigger_entry e p) in *.
  pose proof (flush_ok arrived (N.to_nat (max_of m_pre_window ms)) p1 (so_inv _ _ _ H1)) as H2.
  destruct (pre_buffer_copy _ p1) as [flushed p2]. destruct H2 as (H2 & Hfl & Hes).
  set (traced := match trace_id e with Some t => _ | None => _ end).
  destruct (insert_ok arrived (set_source PreTrigger <$> (flushed ++ traced)) p2) as [H3 H3k].
  { apply H2. }
  { rewrite (so_seq _ _ _ H2), (so_seq _ _ _ H1). done. }
  { intros y (z & -> & [Hz|Hz]%elem_of_app)%list_elem_of_fmap; apply stored_from_source; [auto|].
    subst traced. destruct (trace_id e); [|by apply elem_of_nil in Hz]. by eapply traced_ok; [apply H2|]. }
  assert (Hx : within (max_of m_pre_window ms) x p → admitted (seq x) p →
    kept (seq x) (lp_store (Pipeline.insert_sorted (set_source PreTrigger <$> (flushed ++ traced)) p2).2)).
  { intros Hw Hadm. apply (H3k (set_source PreTrigger x)).
    - apply list_elem_of_fmap. exists x. split; [done|]. apply elem_of_app. left. rewrite Hes.
      apply within_flushed; [apply (pi_pre_wf _ _ (so_inv _ _ _ H1))|by apply Hw1].
    - rewrite (so_admit _ _ _ H2), (so_admit _ _ _ H1). done. }
  clear H3k. destruct (Pipeline.insert_sorted _ p2) as [k p3]. simpl in H3, Hx.
  pose proof (dispatch_step arrived sid e (max_of m_pre_window ms) ms p3
    (extend_post_window sid (max_of m_post_window ms) reg) false (so_inv _ _ _ H3)) as H5.
  destruct (foldl _ _ ms) as [[p4 reg'] rem].
  assert (step_ok arrived p3 (if rem then sync_pre_buffer_size_for_domain ord d reg' p4 else p4)) as H6.
  { destruct rem; [|done]. eapply step_ok_trans; [exact H5|]. apply resize_ok, H5. }
  split; [|intros Hw Hadm; by apply (so_kept _ _ _ H6), Hx].
  by apply (so_kept _ _ _ H6), (so_kept _ _ _ H3), (so_kept _ _ _ H2).
Qed.

(** ** Every session in turn *)

Definition fired_by e st : list TriggerMatch := (Trigger.evaluate e (s_triggers st)).1.

Lemma own_matches sid e reg st :
  reg !! sid = Some st →
  (evaluate_triggers sid e (decrement_post_window sid reg).2).1 = fired_by e st.
Proof.
  intros Hs. unfold evaluate_triggers, on_triggers, decrement_post_window. rewrite Hs.
  destruct (s_post_window_remaining st =? 0); cbn [snd]; [by rewrite Hs|].
  by rewrite reg_insert.
Qed.

Lemma process_session_within arrived ord d e sid' p reg active sid st n x :
  pipe_inv arrived p → lp_seq p < u64_max → e ∈ arrived → admitted (seq e) p →
  order_ok ord → sid ≠ sid' → reg !! sid = Some st → s_domain st = d →
  n ≤ max_pre_window (s_triggers st) → admitted (seq x) p →
  within n x p ∨ kept (seq x) (lp_store p) →
  let p' := (process_session ord d e (p, reg, active) sid').1.1 in
  step_ok arrived p p' ∧ (within n x p' ∨ kept (seq x) (lp_store p')).
Proof.
  intros Hi Hc He Ha Ho Hne Hs Hd Hn Hx Hw. unfold process_session.
  pose proof (decrement_other sid' reg sid Hne) as Hd1.
  destruct (decrement_post_window sid' reg) as [open reg1].
  pose proof (on_triggers_other sid' [] (Trigger.evaluate e) reg1 sid Hne) as Hd2.
  unfold evaluate_triggers. destruct (on_triggers sid' [] (Trigger.evaluate e) reg1) as [ms reg2].
  simpl in Hd1, Hd2. rewrite Hd1, Hs in Hd2. destruct ms as [|m ms]; [by split; [apply step_ok_refl|]|].
  pose proof (fire_step arrived ord d sid' e (m :: ms) p reg2 Hi Hc He Ha) as Hst.
  assert (within n x p → kept (seq x) (lp_store (fire ord d sid' e (m :: ms) p reg2).1) ∨
    within n x (fire ord d sid' e (m :: ms) p reg2).1) as Hf.
  { intros Hw'. by apply (fire_within arrived ord d sid' e (m :: ms) p reg2 sid st n x). }
  destruct (fire ord d sid' e (m :: ms) p reg2) as [p3 reg3]. cbn [fst snd] in *. split; [done|].
  destruct Hw as [Hw|Hk]; [destruct (Hf Hw); [by right|by left]|right]. by apply (so_kept _ _ _ Hst).
Qed.

Lemma sessions_capture arrived ord d e ids p reg active sid st :
  pipe_inv arrived p → lp_seq p < u64_max → e ∈ arrived → admitted (seq e) p →
  order_ok ord → sid ∈ ids → reg !! sid = Some st → s_domain st = d → fired_by e st ≠ [] →
  let p' := (foldl (process_session ord d e) (p, reg, active) ids).1.1 in
  kept (seq e) (lp_store p') ∧
  ∀ x, admitted (seq x) p →
    within (max_of m_pre_window (fired_by e st)) x p ∨ kept (seq x) (lp_store p) → kept (seq x) (lp_store p').
Proof.
  revert p reg active. induction ids as [|sid' ids IH]; intros p reg active Hi Hc He Ha Ho Hin Hs Hd Hm;
    [by apply elem_of_nil in Hin|]. cbn [foldl].
  destruct (decide (sid = sid')) as [<-|Hne].
  - unfold process_session at 2 4. pose proof (own_matches sid e reg st Hs) as Hms.
    destruct (decrement_post_window sid reg) as [open reg1]. cbn [snd] in Hms.
    destruct (evaluate_triggers sid e reg1) as [ms reg2]. cbn [fst] in Hms. rewrite <-Hms in *.
    destruct ms as [|m ms]; [done|].
    pose proof (fire_step arrived ord d sid e (m :: ms) p reg2 Hi Hc He Ha) as Hst.
    pose proof (λ x, fire_captures arrived ord d sid e (m :: ms) p reg2 x Hi Hc He Ha) as Hf.
    destruct (fire ord d sid e (m :: ms) p reg2) as [p3 reg3]. cbn [fst] in *.
    pose proof (process_sessions_step arrived ord d e ids p3 reg3 true (so_inv _ _ _ Hst)) as Hrest.
    rewrite (so_seq _ _ _ Hst), (so_admit _ _ _ Hst) in Hrest. specialize (Hrest Hc He Ha).
    destruct (foldl _ _ ids) as [[p' ?] ?]. cbn [fst]. split.
    + apply (so_kept _ _ _ Hrest), (proj1 (Hf e)).
    + intros x Hx [Hw|Hk]; apply (so_kept _ _ _ Hrest);
        [exact (proj2 (Hf x) Hw Hx)|by apply (so_kept _ _ _ Hst)].
  - apply elem_of_cons in Hin as [?|Hin]; [done|].
    pose proof (process_session_other ord d e p reg active sid' sid Hne) as Hr.
    pose proof (λ n x, process_session_within arrived ord d e sid' p reg active sid st n x
      Hi Hc He Ha Ho Hne Hs Hd) as Hw.
    pose proof (process_sessions_step arrived ord d e [sid'] p reg active Hi Hc He Ha) as Hst.
    cbn [foldl] in Hst.
    destruct (process_session ord d e (p, reg, active) sid') as [[p1 reg1] active1]. cbn [fst snd] in *.
    specialize (IH p1 reg1 active1 (so_inv _ _ _ Hst)). unfold admitted in IH.
    rewrite (so_seq _ _ _ Hst), (so_admit _ _ _ Hst) in IH.
    destruct (IH Hc He Ha Ho Hin ltac:(by rewrite Hr) Hd Hm) as [IH1 IH2]. split; [done|].
    intros x Hx Hwx. apply IH2; [done|].
    destruct (Hw (max_of m_pre_window (fired_by e st)) x (matches_pre_window e _) Hx Hwx) as [_ ?]; done.
Qed.

Lemma active_listed ord d reg sid st :
  order_ok ord → reg !! sid = Some st → s_domain st = d → is_active (sid, st) = true →
  sid ∈ active_session_ids_sorted_by_pre_window_for_domain ord d reg.
Proof.
  intros Ho Hs Hd Hact. apply list_elem_of_fmap.
  exists (sid, max_pre_window (s_triggers st)). split; [done|]. apply elem_of_stable_sort, list_elem_of_fmap.
  exists (sid, st). split; [done|]. apply elem_of_lfilter. split.
  - rewrite Hact. by apply String.eqb_eq.
  - rewrite (Ho reg). by apply (elem_of_map_to_list (M:=gmap SessionId) reg).
Qed.

(** C10: a firing trigger captures its own lead-up. Over any life of a domain
    that has not used up its seqs, when a record fires a trigger of some session bound to it, the record itself
    is in the ring afterwards (or was already pushed out by newer ones below the
    loss floor), and so is every record still in the pre-trigger buffer that is
    among the last [pre_window] arrivals and arrived after the last clear of the
    domain's logs (what was buffered before a clear stays cleared), whatever the
    other sessions fired on the same record flushed, and whatever oneshot triggers
    they dropped on the way. *)
Theorem trigger_captures (cap spans : nat) c d evs ord e sid st :
  c + N.of_nat (length evs) + 1 < u64_max → order_ok ord →
  let w := domain_run d evs (domain_start cap spans c) in
  let e' := set_seq (lp_seq (dm_pipe w) + 1) e in
  dm_reg w !! sid = Some st → s_domain st = d → is_active (sid, st) = true → fired_by e' st ≠ [] →
  let w' := domain_step d w (EvLog ord e) in
  kept (seq e') (lp_store (dm_pipe w')) ∧
  ∀ x, within (max_of m_pre_window (fired_by e' st)) x (dm_pipe w) →
    MemStore.admit_from (lp_store (dm_pipe w)) ≤ seq x → kept (seq x) (lp_store (dm_pipe w')).
Proof.
  intros Hc Ho w e' Hs Hd Hact Hm. destruct (domain_run_inv cap spans c d evs ltac:(lia)) as [obs Hinv].
  fold w in Hinv. pose proof (di_pipe _ _ _ _ Hinv) as Hi. pose proof (di_seq _ _ _ _ Hinv) as Hq.
  destruct w as [p s reg arrived]. cbn [dm_pipe dm_reg dm_arrived domain_step] in *.
  destruct (process_entry_split arrived ord d e p reg Hi ltac:(lia)) as (Hi1 & He & Ha1 & Hrun).
  fold e' in Hi1, He, Ha1, Hrun.
  assert (Hin : sid ∈ active_session_ids_sorted_by_pre_window_for_domain ord d reg) by by eapply active_listed.
  pose proof (sessions_capture (arrived ++ [e']) ord d e' _ (set_counter (lp_seq p + 1) p) reg false sid st Hi1
    ltac:(simpl; lia) He Ha1 Ho Hin Hs Hd Hm) as Hcap.
  destruct (foldl _ _ _) as [[p2 reg2] active]. destruct Hrun as (-> & _ & _ & [_ D2 _]).
  cbn [fst] in Hcap. destruct Hcap as [Hk Hx]. split; [by apply D2|].
  intros x Hw Hadm. apply D2, Hx; [done|by left].
Qed.
(** ** Sessions of other domains *)

Lemma sessions_other ord d e ids p reg active i :
  i ∉ ids → (foldl (process_session ord d e) (p, reg, active) ids).1.2 !! i = reg !! i.
Proof.
  revert p reg active. induction ids as [|sid ids IH]; intros p reg active Hi; [done|]. cbn [foldl].
  apply not_elem_of_cons in Hi as [Hne Hi].
  pose proof (process_session_other ord d e p reg active sid i Hne) as H.
  destruct (process_session ord d e (p, reg, active) sid) as [[p1 reg1] active1].
  rewrite IH by done. exact H.
Qed.

Lemma span_dispatch_other sid sp s ms p reg rem i :
  i ≠ sid → (foldl (dispatch_span_match sid sp s) (p, reg, rem) ms).1.2 !! i = reg !! i.
Proof.
  intros Hi. revert p reg rem. induction ms as [|m ms IH]; intros p reg rem; [done|]. cbn [foldl].
  unfold dispatch_span_match at 2. set (ev := build_span_event _ _ _ _).
  assert (send_or_queue_notification sid ev reg !! i = reg !! i) as Hs by by apply reg_alter_ne.
  destruct (m_oneshot m); rewrite IH; [|done].
  unfold remove_trigger. by rewrite on_triggers_other.
Qed.

Lemma span_sessions_other sp s ids p reg rem i :
  i ∉ ids → (foldl (process_span_session sp s) (p, reg, rem) ids).1.2 !! i = reg !! i.
Proof.
  revert p reg rem. induction ids as [|sid ids IH]; intros p reg rem Hi; [done|]. cbn [foldl].
  apply not_elem_of_cons in Hi as [Hne Hi]. unfold process_span_session at 2.
  pose proof (on_triggers_other sid [] (Trigger.evaluate_span sp) reg i Hne) as He.
  unfold evaluate_span_triggers. destruct (on_triggers _ _ _ reg) as [ms reg1]. simpl in He.
  pose proof (span_dispatch_other sid sp s ms p reg1 rem i Hne) as Hd.
  destruct (foldl (dispatch_span_match sid sp s) _ ms) as [[p1 reg2] rem1].
  rewrite IH by done. simpl in Hd. by rewrite Hd.
Qed.

(** C11: domains are isolated: processing a record or a span in one domain leaves
    every session bound to another domain exactly as it was (its triggers'
    counters and debounce windows, its post-trigger window, its queue). *)
Theorem domain_isolated {W} ord d e sp p s reg (ingest : DomainId → SpanEntry → W → W) w i st :
  order_ok ord → reg !! i = Some st → s_domain st ≠ d →
  (process_entry_for_domain ord d e p reg).2 !! i = Some st ∧
  (process_span_for_domain ord ingest d sp s reg p w).1.1.2 !! i = Some st.
Proof.
  intros Ho Hi Hd.
  assert (∀ st', (i, st') ∈ List.filter (λ kv, is_in_domain d kv.2) (ord reg) → False) as Hno.
  { intros st' [Hin%String.eqb_eq Hst]%elem_of_lfilter. rewrite (Ho reg) in Hst.
    apply (elem_of_map_to_list (M:=gmap SessionId) reg) in Hst.
    assert (Some st' = Some st) as [= ->] by (etrans; [symmetry; exact Hst|exact Hi]). done. }
  split.
  - unfold process_entry_for_domain. destruct (assign_seq p) as [q p1].
    pose proof (sessions_other ord d (set_seq q e)
      (active_session_ids_sorted_by_pre_window_for_domain ord d reg) p1 reg false i) as H.
    destruct (foldl _ _ _) as [[p2 reg2] active]. cbn [fst snd] in *. rewrite H; [done|].
    unfold active_session_ids_sorted_by_pre_window_for_domain.
    intros ([j n] & -> & Hin)%list_elem_of_fmap. apply elem_of_stable_sort, list_elem_of_fmap in Hin as
      ([j' st'] & [= -> ->] & [Hf Hin]%elem_of_lfilter). apply andb_true_iff in Hf as [_ Hf].
    apply (Hno st'). by apply elem_of_lfilter.
  - unfold process_span_for_domain. destruct (SpanStore.insert sp (lp_seq p) s) as [[q s1] c].
    pose proof (span_sessions_other (sp_set_seq q sp) s1 (active_session_ids_for_domain ord d reg)
      (set_counter c p) reg false i) as H.
    destruct (foldl _ _ _) as [[p2 reg2] rem]. cbn [fst snd] in *. rewrite H; [done|].
    unfold active_session_ids_for_domain. intros ([j st'] & -> & Hin)%list_elem_of_fmap. by apply (Hno st').
Qed.
End capturespec.

(** ** The property at a concrete input *)

Definition map_order : Order := λ m, map_to_list m.

(** A named session is there when an info record arrives, under a filter. *)
Definition sample_watch : list DomEvent :=
  [EvSessions (match new_named "s" 0 with
               | Some st => {[Named "s" := push_filter "l>=ERROR" (Qualifiers [LevelFilter LGte Error]) None st]}
               | None => ∅
               end);
   EvResync map_order; EvLog map_order (log_at 0 "before")].

Lemma trigger_captures_witness :
  let w := domain_run default_domain sample_watch (domain_start 5 2 0) in
  let w' := domain_step default_domain w (EvLog map_order (error_at 0 "boom")) in
  contains_seq 1 (dm_pipe w) = false ∧ kept 1 (lp_store (dm_pipe w')) ∧ kept 2 (lp_store (dm_pipe w')).
Proof.
  intros w w'.
  assert (H : (λ st, (s_domain st, is_active (Named "s", st),
    m_pre_window <$> fired_by (set_seq 2 (error_at 0 "boom")) st)) <$> dm_reg w !! Named "s" =
    Some (default_domain, true, [500])) by (vm_compute; reflexivity).
  destruct (dm_reg w !! Named "s") as [st|] eqn:Es; [|discriminate H]. injection H as Hd Ha Hm.
  assert (Hw : fired_by (set_seq 2 (error_at 0 "boom")) st ≠ []) by (intros E; by rewrite E in Hm).
  assert (Hmax : max_of m_pre_window (fired_by (set_seq 2 (error_at 0 "boom")) st) = 500)
    by (unfold max_of; rewrite Hm; reflexivity).
  assert (Hq : lp_seq (dm_pipe w) = 1) by (vm_compute; reflexivity).
  pose proof (trigger_captures 5 2 0 default_domain sample_watch map_order (error_at 0 "boom") (Named "s") st) as T.
  cbv zeta in T. fold w in T. rewrite Hq in T. change (1 + 1) with 2 in T. rewrite Hmax in T.
  destruct T as [H2 H1];
    [reflexivity|intros m; reflexivity|exact Es|exact Hd|exact Ha|exact Hw|].
  split; [vm_compute; reflexivity|]. split; [|exact H2].
  apply (H1 (log_at 1 "before")); [|vm_compute; discriminate].
  exists 0. split; [|vm_compute; discriminate]. apply (list_elem_of_lookup_2 _ 0%nat). vm_compute. reflexivity.
Defined.

Lemma domain_isolated_witness :
  match new_named "s" 0 with
  | Some st => (process_entry_for_domain map_order "other" (error_at 0 "boom") (Pipeline.new 5)
                  {[Named "s" := st]}).2 !! Named "s" = Some st
  | None => False
  end.
Proof.
  destruct (new_named "s" 0) as [st|] eqn:E.
  - assert (s_domain <$> new_named "s" 0 = Some default_domain) as H by (vm_compute; reflexivity).
    rewrite E in H. injection H as Hd.
    apply (domain_isolated map_order "other" (error_at 0 "boom") (span_at_time 7 0 "a" None) (Pipeline.new 5) (SpanStore.new 1)
      {[Named "s" := st]} (λ _ _ w, w) tt (Named "s") st).
    + intros m. reflexivity.
    + apply (lookup_singleton_eq (M:=gmap SessionId)).
    + rewrite Hd. discriminate.
  - assert (is_Some (s_domain <$> new_named "s" 0)) as [? H] by (exists default_domain; vm_compute; reflexivity).
    rewrite E in H. discriminate H.
Defined.
