(* ===== verification/Export.v ===== *)
(** * Export: [logs.export] and its verdict ([daemon/rpc_handler.rs])

    The read, the window it speaks for and the verdict of [handle_logs_export],
    after the filter was parsed and resolved. *)

From S2P Require Import Prelude Text F64 Gelf Filter Matcher SeqCounter Epoch Bookmarks MemStore Cursor Pipeline.

Set Default Proof Using "Type".
Local Open Scope N_scope.

Section export.
Context {X : Externals}.

(** Both ends inclusive. *)
Definition lower_seq_range (resolved : option ParsedFilter) (from to : option N) : option ParsedFilter :=
  match from, to with
  | None, None => resolved
  | _, _ =>
      let bounds := match from with Some f => [SeqFilter SGt (f - 1)] | None => [] end
                    ++ match to with Some t => [SeqFilter SLt (sat_add t 1)] | None => [] end in
      match resolved with
      | Some FNone => Some FNone
      | Some (Qualifiers qs) => Some (Qualifiers (qs ++ bounds))
      | None | Some FAll => Some (Qualifiers bounds)
      end
  end.

Definition cursor_pos (c : CursorCommit) : CursorPos :=
  mkPos (cc_lower_bound c) (cc_late_mark c) (cc_floor c).

Record CursorOutcome := mkOutcome {
  co_advanced_to : option N;
  co_late : N;
  co_late_lost : option N;
}.

Definition commit_cursor (now : Z) (c : CursorCommit) (read : CursorRead) (kept : nat)
  (bs : BookmarkStore) : CursorOutcome * BookmarkStore :=
  let adv := advance_for kept read in
  (mkOutcome (if ca_seq adv =? cc_lower_bound c then None else Some (ca_seq adv)) (ca_late adv)
     (ca_late_lost adv),
   commit now (ca_seq adv) (ca_late_mark adv) c bs).

(** An absent [count] is [usize::MAX]: no ring is that long, so the ring's own
    length reads the same. *)
Definition count_of (count : option nat) (p : LogPipeline) : nat :=
  match count with Some n => n | None => store_len (lp_store p) end.

(** Entries, stats and whether the read was cut short. *)
Definition export_plain (count : nat) (resolved : option ParsedFilter) (p : LogPipeline)
  : list LogEntry * RecentStats * bool :=
  let '(es, stats) := recent_logs_with_stats (S count) resolved false p in
  (take count es, stats, (count <? length es)%nat).

Definition export_cursor (now : Z) (count : nat) (resolved : option ParsedFilter) (c : CursorCommit)
  (p : LogPipeline) (bs : BookmarkStore)
  : list LogEntry * RecentStats * bool * CursorOutcome * BookmarkStore :=
  let read := cursor_read (S count) resolved (cursor_pos c) (lp_store p) in
  let kept := Nat.min (cr_len read) count in
  let '(outcome, bs) := commit_cursor now c read kept bs in
  (into_kept_entries kept read, stats_of_view (cr_view read), (count <? cr_len read)%nat, outcome, bs).

Definition export_window (resolved : option ParsedFilter) (stats : RecentStats) (p : LogPipeline)
  : option (N * N) :=
  let '(lo, hi) := resolved_seq_range resolved in
  match rs_buffer_oldest_seq stats with
  | None => None
  | Some _ =>
      let from := match lo with
                  | Some lo => lo
                  | None => N.max (N.max (sat_add (origin_seq (lp_epochs p)) 1) (rs_lost_below stats))
                              (Pipeline.admit_from p)
                  end in
      let to := match hi with Some hi => hi | None => current_seq p end in
      if from <=? to then Some (from, to) else None
  end.

Record ExportReply := mkReply {
  ex_logs : list LogEntry;
  ex_evicted : option N;
  ex_capped : bool;
  ex_verdict : EvidenceVerdict;
  ex_narrowed_by : list NarrowedSpan;
  ex_cursor : option CursorOutcome;
}.

Definition export_reply (resolved : option ParsedFilter) (es : list LogEntry) (stats : RecentStats)
  (capped : bool) (cursor : option CursorOutcome) (p : LogPipeline) : ExportReply :=
  let evicted := match resolved with
                 | Some f => evicted_before_window f (rs_lost_below stats)
                 | None => None
                 end in
  let cov := (λ w, coverage w.1 w.2 (lp_epochs p)) <$> export_window resolved stats p in
  mkReply es evicted capped (evidence_verdict cov (bool_decide (is_Some evicted)) capped)
    (match cov with Some c => narrowed c | None => [] end) cursor.

Definition logs_export (now : Z) (count : option nat) (resolved : option ParsedFilter)
  (cursor : option CursorCommit) (from to : option N) (p : LogPipeline) (bs : BookmarkStore)
  : ExportReply * BookmarkStore :=
  let count := count_of count p in
  let resolved := lower_seq_range resolved from to in
  match cursor with
  | Some c =>
      let '(es, stats, capped, outcome, bs) := export_cursor now count resolved c p bs in
      (export_reply resolved es stats capped (Some outcome) p, bs)
  | None =>
      let '(es, stats, capped) := export_plain count resolved p in
      (export_reply resolved es stats capped None p, bs)
  end.
End export.
