(* ===== verification/ExportSpec.v ===== *)
(** * ExportSpec: a [complete] verdict is a promise kept

    Over any life of a domain, an export graded [Complete] returned every
    arrived record its filter matches in the window it speaks for. *)

From S2P Require Import Prelude Text F64 Gelf Filter Matcher Samples SeqCounter Epoch EpochSpec Trigger Bookmarks MemStore MemStoreInv MemStoreSpec Cursor Pipeline PipeInv SpanStore Session Processor ProcessorSpec Domain Export.

Set Default Proof Using "Type".
Local Open Scope N_scope.

Section exportspec.
Context {X : Externals}.
Implicit Types (e a : LogEntry) (p : LogPipeline) (f : option ParsedFilter).

(** ** The scan *)

Lemma recent_loop_spec (count : nat) f es acc scanned :
  (length acc < count)%nat →
  (recent_loop count f es acc scanned).1 =
    acc ++ take (count - length acc) (List.filter (opt_matches f) es).
Proof.
  revert acc scanned. induction es as [|e es IH]; intros acc scanned Hl; simpl.
  { by rewrite take_nil, app_nil_r. }
  destruct (opt_matches f e); [|by apply IH].
  destruct (count - length acc)%nat as [|k] eqn:Ek; [lia|]. simpl.
  rewrite length_app. simpl. case_goal; bool_to_prop; simpl.
  - replace k with 0%nat by lia. done.
  - rewrite IH by (rewrite length_app; simpl; lia). rewrite length_app, <-app_assoc. simpl.
    do 3 f_equal. lia.
Qed.

Lemma filter_reverse {A} (g : A → bool) l : List.filter g (reverse l) = reverse (List.filter g l).
Proof.
  induction l as [|x l IH]; [done|]. rewrite reverse_cons, List.filter_app, IH. simpl.
  destruct (g x); [by rewrite reverse_cons|by rewrite app_nil_r].
Qed.

(** The newest matches, newest first, at most [count] of them. *)
Lemma export_plain_spec (count : nat) f p :
  let M := reverse (List.filter (opt_matches f) (entries (inner (lp_store p)))) in
  (export_plain count f p).1.1 = take count M ∧
  (export_plain count f p).2 = (count <? length M)%nat ∧
  rs_lost_below (export_plain count f p).1.2 = MemStore.lost_below (lp_store p).
Proof.
  intros M. unfold export_plain, recent_logs_with_stats, recent_with_view.
  pose proof (recent_loop_spec (S count) f (reverse (entries (inner (lp_store p)))) [] 0 ltac:(simpl; lia)) as H.
  destruct (recent_loop _ _ _ _ _) as [es n]. simpl in *. subst es.
  rewrite filter_reverse. fold M. split_and!; [|apply eq_true_iff_eq|done].
  - by rewrite take_take, Nat.min_l by lia.
  - rewrite !Nat.ltb_lt, length_take. lia.
Qed.

(** ** The window *)

(** A match lies within the range its filter resolves to. *)
Lemma range_step_bounds qs e lo hi :
  (∀ q, q ∈ qs → matches_qualifier q e = true) → seq e ≤ u64_max →
  (∀ l, lo = Some l → l ≤ seq e) → (∀ h, hi = Some h → seq e ≤ h) →
  (∀ l, (foldl range_step (lo, hi) qs).1 = Some l → l ≤ seq e) ∧
  (∀ h, (foldl range_step (lo, hi) qs).2 = Some h → seq e ≤ h).
Proof.
  intros Hq He. revert lo hi. induction qs as [|q qs IH]; intros lo hi Hl Hh; [done|].
  cbn [foldl]. assert (∀ lo' hi', range_step (lo, hi) q = (lo', hi') →
    (∀ l, lo' = Some l → l ≤ seq e) ∧ (∀ h, hi' = Some h → seq e ≤ h)) as Hs.
  { specialize (Hq q (list_elem_of_here _ _)). intros lo' hi'.
    destruct q as [| | | | | |[]|]; simpl in *; intros [= <- <-]; (split; [try done|try done]);
      bool_to_prop; unfold tighten, sat_add in *; intros x [= <-];
      repeat case_match; try (specialize (Hl _ eq_refl)); try (specialize (Hh _ eq_refl)); lia. }
  destruct (range_step (lo, hi) q) as [lo' hi']. destruct (Hs lo' hi' eq_refl).
  apply IH; [|done|done]. intros q' Hq'. apply Hq. by right.
Qed.

Lemma matches_in_range f e :
  opt_matches f e = true → seq e ≤ u64_max →
  (∀ lo, (resolved_seq_range f).1 = Some lo → lo ≤ seq e) ∧
  (∀ hi, (resolved_seq_range f).2 = Some hi → seq e ≤ hi).
Proof.
  destruct f as [[| |qs]|]; simpl; try done. intros Hm He. rewrite forallb_forall in Hm.
  apply range_step_bounds; [|done..]. intros q Hq. by apply Hm, list_elem_of_In.
Qed.

(** The lower end of that range is one above the loss bound the verdict uses. *)
Lemma lower_bound_range f :
  (resolved_seq_range f).1 = (λ lb, sat_add lb 1) <$> (f ≫= resolved_lower_bound).
Proof.
  destruct f as [[| |qs]|]; try done. simpl.
  assert (∀ acc hi, (foldl range_step ((λ lb, sat_add lb 1) <$> acc, hi) qs).1 =
    (λ lb, sat_add lb 1) <$> foldl (λ acc q, match lower_bound_of q with
                      | Some v => tighten N.max acc v | None => acc end) acc qs) as H; [|apply (H None None)].
  induction qs as [|q qs IH]; intros acc hi; [done|].
  assert (∀ v, tighten N.max ((λ lb, sat_add lb 1) <$> acc) (sat_add v 1) =
    (λ lb, sat_add lb 1) <$> tighten N.max acc v) as Ht.
  { intros v. unfold tighten. destruct acc as [b|]; [|done]. cbn. f_equal. unfold sat_add. lia. }
  destruct q as [| | | | | |[]|]; simpl; rewrite ?Ht; apply IH.
Qed.

Lemma complete_inv cov evicted capped :
  evidence_verdict cov evicted capped = Complete →
  ∃ c, cov = Some c ∧ covered c = true ∧ narrowed c = [] ∧ evicted = false ∧ capped = false.
Proof.
  destruct cov as [c|]; simpl; [|done]. destruct (covered c) eqn:Ec, capped; simpl; try done.
  destruct (narrowed c) eqn:En; [|done]. destruct evicted; [done|]. intros _. by exists c.
Qed.

(** Unless the verdict counts records as evicted, the window starts above the
    loss floor. *)
Lemma window_floor f stats p from to :
  export_window f stats p = Some (from, to) →
  match f with Some f => evicted_before_window f (rs_lost_below stats) | None => None end = None →
  rs_lost_below stats ≤ from.
Proof.
  unfold export_window. pose proof (lower_bound_range f) as Hr.
  destruct (resolved_seq_range f) as [lo hi]. simpl in Hr.
  destruct (rs_buffer_oldest_seq stats); [|done]. destruct (_ <=? _); [|done].
  intros [= <- <-] He. destruct f as [f|]; simpl in *; [|subst lo; simpl; lia].
  unfold evicted_before_window, evicted_below in He.
  destruct (resolved_lower_bound f) as [lb|]; simpl in Hr; subst lo; [|simpl; lia].
  destruct (sat_add lb 1 <? _) eqn:Hlt; [done|]. by bool_to_prop.
Qed.

(** ** The verdict *)

(** Over what the domain lived through, [a] is held, or the loss floor passed
    it, or no coverage the log grants includes it. *)
Lemma arrived_accounted c n w obs a :
  domain_inv c n w obs → c + N.of_nat n < u64_max → a ∈ dm_arrived w →
  (∃ e, e ∈ entries (inner (lp_store (dm_pipe w))) ∧ strip e = strip a) ∨
  seq a < MemStore.lost_below (lp_store (dm_pipe w)) ∨
  (∀ from to, from ≤ seq a ≤ to →
     let cov := coverage from to (lp_epochs (dm_pipe w)) in covered cov = true → narrowed cov ≠ []).
Proof.
  intros Hi Hc Ha. pose proof (di_seq _ _ _ _ Hi).
  pose proof (pi_arrived _ _ (di_pipe _ _ _ _ Hi) a Ha).
  destruct (di_entry _ _ _ _ Hi a Ha) as [[(e & He & Hs)%elem_of_seqs|Hk]|(pol & Hin & Hf)].
  - left. exists e. split; [done|].
    destruct (pi_held _ _ (di_pipe _ _ _ _ Hi) e He) as (a' & Ha' & Hst).
    rewrite <-Hst. f_equal. apply (ascending_inj seq (dm_arrived w)); [apply Hi|done|done|].
    rewrite (strip_seq _ _ Hst). lia.
  - right. by left.
  - right. right. intros from to Hr cov Hcov Hn.
    rewrite (coverage_sound_inv obs _ from to (seq a) pol (di_log _ _ _ _ Hi) Hcov Hn Hin Hr) in Hf; [done|lia].
Qed.

(** What a complete plain export returns is what is held and matches. *)
Lemma complete_returns now (count : option nat) f from to p bs :
  let f' := lower_seq_range f from to in
  let r := (logs_export now count f None from to p bs).1 in
  ex_verdict r = Complete →
  (∀ e, e ∈ ex_logs r ↔ e ∈ entries (inner (lp_store p)) ∧ opt_matches f' e = true) ∧
  ∃ lo hi, export_window f' (export_plain (count_of count p) f' p).1.2 p = Some (lo, hi) ∧
    covered (coverage lo hi (lp_epochs p)) = true ∧ narrowed (coverage lo hi (lp_epochs p)) = [] ∧
    MemStore.lost_below (lp_store p) ≤ lo.
Proof.
  intros f' r. subst r. unfold logs_export. fold f'.
  destruct (export_plain_spec (count_of count p) f' p) as (Hes & Hc & Hl).
  destruct (export_plain _ f' p) as [[es stats] capped]. cbn [fst snd] in *.
  cbn [export_reply ex_verdict ex_logs].
  intros (cov & Hcov & Hcv & Hn & He & ->)%complete_inv.
  apply fmap_Some in Hcov as ([lo hi] & Hw & ->). apply bool_decide_eq_false, eq_None_not_Some in He.
  symmetry in Hc. apply Nat.ltb_ge in Hc. rewrite take_ge in Hes by done. subst es. split.
  - intros e. rewrite elem_of_reverse, elem_of_lfilter. tauto.
  - exists lo, hi. split_and!; [done..|]. rewrite <-Hl. by eapply window_floor.
Qed.

(** C2: nothing that arrives vanishes unaccounted. After any run of a domain
    (records, spans, clears, resyncs, any change of its sessions in between),
    every record that arrived is still held as it arrived (labels apart), or the
    loss floor has passed it, or every range around it that the epoch log covers
    is reported as narrowed. *)
Theorem nothing_vanishes (cap spans : nat) c d evs a :
  c + N.of_nat (length evs) < u64_max →
  let w := domain_run d evs (domain_start cap spans c) in
  a ∈ dm_arrived w →
  (∃ e, e ∈ entries (inner (lp_store (dm_pipe w))) ∧ strip e = strip a) ∨
  seq a < MemStore.lost_below (lp_store (dm_pipe w)) ∨
  (∀ from to, from ≤ seq a ≤ to →
     let cov := coverage from to (lp_epochs (dm_pipe w)) in covered cov = true → narrowed cov ≠ []).
Proof.
  intros Hc w Ha. destruct (domain_run_inv cap spans c d evs Hc) as [obs Hi].
  by eapply arrived_accounted.
Qed.

(** C1: a [complete] export is complete. After any run of a domain, when a plain
    [logs.export] is graded [Complete], the records it returns are, labels
    apart, exactly the arrived records its filter matches from the start of the
    window it speaks for; with a lower bound in the query, exactly the arrived
    records its filter matches. *)
Theorem complete_is_honest (cap spans : nat) c d evs now (count : option nat) f from to bs :
  c + N.of_nat (length evs) < u64_max →
  let w := domain_run d evs (domain_start cap spans c) in
  let f' := lower_seq_range f from to in
  let r := (logs_export now count f None from to (dm_pipe w) bs).1 in
  ex_verdict r = Complete →
  ∃ lo hi, export_window f' (export_plain (count_of count (dm_pipe w)) f' (dm_pipe w)).1.2 (dm_pipe w)
             = Some (lo, hi) ∧
    ∀ a, a ∈ dm_arrived w → lo ≤ seq a ∨ is_Some (resolved_seq_range f').1 →
      (opt_matches f' a = true ↔ ∃ e, e ∈ ex_logs r ∧ strip e = strip a).
Proof.
  intros Hc w f' r Hv. destruct (domain_run_inv cap spans c d evs Hc) as [obs Hi]. fold w in Hi.
  destruct (complete_returns now count f from to (dm_pipe w) bs Hv) as (Hes & lo & hi & Hw & Hcv & Hn & Hl).
  fold f' r in Hes, Hw. exists lo, hi. split; [done|]. intros a Ha Hlo.
  assert (Hm : ∀ e, strip e = strip a → opt_matches f' e = opt_matches f' a).
  { intros e He. destruct f' as [g|]; [by apply strip_matches|done]. }
  split; [intros Hma|intros (e & [_ Hme]%Hes & He); by rewrite <-Hm with e].
  pose proof (di_seq _ _ _ _ Hi). pose proof (pi_arrived _ _ (di_pipe _ _ _ _ Hi) a Ha) as Hq.
  destruct (matches_in_range f' a Hma ltac:(lia)) as [Hrl Hrh].
  assert (Hin : lo ≤ seq a ≤ hi).
  { unfold export_window in Hw. destruct (resolved_seq_range f') as [l h]. cbn [fst snd] in *.
    destruct (rs_buffer_oldest_seq _); [|done]. destruct (_ <=? _); [|done]. injection Hw as <- <-. split.
    - destruct Hlo as [Hlo|[l' ->]]; [done|by apply Hrl].
    - destruct h as [h|]; [by apply Hrh|]. apply Hq. }
  destruct (arrived_accounted c (length evs) w obs a Hi Hc Ha) as [(e & He & Hst)|[Hlt|Hnar]].
  - exists e. split; [|done]. apply Hes. split; [done|]. by rewrite Hm.
  - lia.
  - by destruct (Hnar lo hi Hin Hcv).
Qed.

(** The explicit bounds of an export are both inclusive, whatever the filter
    they are added to. *)
Theorem explicit_bounds f (from to : option N) e :
  1 ≤ seq e < u64_max →
  opt_matches (lower_seq_range f from to) e =
    opt_matches f e && match from with Some l => l <=? seq e | None => true end
                    && match to with Some h => seq e <=? h | None => true end.
Proof.
  intros He.
  assert (Hf : ∀ l, (l - 1 <? seq e) = (l <=? seq e)).
  { intros l. apply eq_true_iff_eq. rewrite N.ltb_lt, N.leb_le. lia. }
  assert (Ht : ∀ h, (seq e <? sat_add h 1) = (seq e <=? h)).
  { intros h. apply eq_true_iff_eq. rewrite N.ltb_lt, N.leb_le. unfold sat_add. lia. }
  unfold lower_seq_range. destruct from, to, f as [[| |qs]|];
    cbn [opt_matches matches_entry app]; rewrite ?forallb_app; cbn [forallb matches_qualifier matches_seq_op];
    rewrite ?Hf, ?Ht, ?andb_true_r, ?andb_assoc; done.
Qed.
End exportspec.

(** ** The properties at concrete inputs *)

Definition map_order : Order := λ m, map_to_list m.
Definition sample_life : list DomEvent :=
  [EvLog map_order (log_at 0 "a"); EvLog map_order (error_at 0 "b"); EvLog map_order (log_at 0 "c")].

Lemma nothing_vanishes_witness :
  let w := domain_run default_domain sample_life (domain_start 2 2 0) in
  log_at 1 "a" ∈ dm_arrived w ∧
  ((∃ e, e ∈ entries (inner (lp_store (dm_pipe w))) ∧ strip e = strip (log_at 1 "a")) ∨
   seq (log_at 1 "a") < MemStore.lost_below (lp_store (dm_pipe w)) ∨
   (∀ from to, from ≤ seq (log_at 1 "a") ≤ to →
     let cov := coverage from to (lp_epochs (dm_pipe w)) in covered cov = true → narrowed cov ≠ [])).
Proof.
  intros w. assert (log_at 1 "a" ∈ dm_arrived w) as Hin.
  { apply (list_elem_of_lookup_2 _ 0%nat). by vm_compute. }
  split; [done|].
  by apply (nothing_vanishes 2 2 0 default_domain sample_life).
Defined.

Lemma complete_is_honest_witness :
  let w := domain_run default_domain sample_life (domain_start 5 2 0) in
  ∃ lo : N, ∀ a, a ∈ dm_arrived w → lo ≤ seq a ∨ is_Some (resolved_seq_range (lower_seq_range None (Some 2) None)).1 →
    (opt_matches (lower_seq_range None (Some 2) None) a = true ↔
     ∃ e, e ∈ ex_logs (logs_export 0 None None None (Some 2) None (dm_pipe w) Bookmarks.new).1 ∧ strip e = strip a).
Proof.
  intros w.
  destruct (complete_is_honest 5 2 0 default_domain sample_life 0 None None (Some 2) None Bookmarks.new
    ltac:(done) ltac:(by vm_compute)) as (lo & hi & _ & H).
  by exists lo.
Defined.

Lemma explicit_bounds_witness :
  opt_matches (lower_seq_range None (Some 2) (Some 3)) (log_at 3 "a") = true.
Proof. rewrite (explicit_bounds None (Some 2) (Some 3) (log_at 3 "a")); [done|by_eval]. Defined.
