(* ===== verification/CursorSpec.v ===== *)
(** * CursorSpec: a cursor delivers every record exactly once

    A read is described by what is [pending]: the held records past the cursor's
    floor that its filter takes and that lie above its position or were stored
    late since its mark. One read and its commit split the pending records into
    the delivered ones and the still pending ones; writers only add to them.

    The second part is about several requests reading one cursor: a request opens
    it, reads the ring from where it stood, and commits; the commits that land
    form a chain. *)

From S2P Require Import Prelude Text F64 Gelf Filter Matcher Samples Bookmarks BookmarksSpec MemStore MemStoreInv MemStoreOps MemStoreSpec Cursor Export.

Set Default Proof Using "Type".
Local Open Scope N_scope.

Section cursorspec.
Context {X : Externals}.
Implicit Types (s : InMemoryStore) (i : StoreInner) (e : LogEntry) (q n : N) (pos : CursorPos).

Local Abbreviation seqs es := (fmap (M:=list) seq es).

(** ** The loops, without their budget *)

Fixpoint late_cands i f pos (l : list (N * N)) (held : N) : list tagged :=
  match l with
  | [] => []
  | (number, q) :: l =>
      let held := held + 1 in
      if (cp_seq pos <? q) || (q <=? cp_floor pos) then late_cands i f pos l held
      else match entry_at i q with
           | None => late_cands i f pos l held
           | Some e =>
               if negb (past_cursor_matches f e) then late_cands i f pos l held
               else (e, Some (mkTag number held)) :: late_cands i f pos l held
           end
  end.

Definition normal_cands f pos (es : list LogEntry) : list LogEntry :=
  List.filter (λ e, negb ((seq e <=? cp_seq pos) || negb (opt_matches f e))) es.

Lemma late_walk_spec i (count : nat) f pos l acc held scanned :
  (length acc < count)%nat →
  ∃ scanned' held',
    late_walk i count f pos l acc held scanned =
      (acc ++ take (count - length acc) (late_cands i f pos l held), held', scanned',
       (length acc + length (late_cands i f pos l held) <? count)%nat) ∧
    ((length acc + length (late_cands i f pos l held) < count)%nat →
      held' = held + N.of_nat (length l)).
Proof.
  revert acc held scanned. induction l as [|[number q] l IH]; intros acc held scanned Hlt; simpl.
  { exists scanned, held. rewrite take_nil, app_nil_r, Nat.add_0_r.
    apply Nat.ltb_lt in Hlt as ->. split; [done|lia]. }
  assert (Hskip : ∀ sc, ∃ scanned' held',
    late_walk i count f pos l acc (held + 1) sc =
      (acc ++ take (count - length acc) (late_cands i f pos l (held + 1)), held', scanned',
       (length acc + length (late_cands i f pos l (held + 1)) <? count)%nat) ∧
    ((length acc + length (late_cands i f pos l (held + 1)) < count)%nat →
      held' = held + N.of_nat (S (length l)))).
  { intros sc. destruct (IH acc (held + 1) sc Hlt) as (sc' & h' & -> & Hh).
    exists sc', h'. split; [done|]. intros Hc. rewrite (Hh Hc). lia. }
  case_match; [apply Hskip|].
  destruct (entry_at i q) as [e|]; [|apply Hskip].
  case_match; [apply Hskip|]. simpl length. rewrite length_app. simpl length.
  destruct (count <=? length acc + 1)%nat eqn:E; bool_to_prop.
  - exists (S scanned), (held + 1). replace (count - length acc)%nat with 1%nat by lia.
    simpl. rewrite take_0. split; [|lia]. f_equal. symmetry. apply Nat.ltb_ge. lia.
  - destruct (IH (acc ++ [(e, Some (mkTag number (held + 1)))]) (held + 1) (S scanned))
      as (sc' & h' & -> & Hh); rewrite length_app in *; simpl length in *; [lia|].
    exists sc', h'. split.
    + replace (count - length acc)%nat with (S (count - (length acc + 1)))%nat by lia.
      rewrite firstn_cons, <-app_assoc. simpl.
      by replace (length acc + S (length (late_cands i f pos l (held + 1))))%nat
        with (length acc + 1 + length (late_cands i f pos l (held + 1)))%nat by lia.
    + intros Hc. rewrite Hh; lia.
Qed.

Lemma normal_walk_spec (count : nat) f pos es (acc : list tagged) scanned :
  (length acc < count)%nat →
  (normal_walk count f pos es acc scanned).1 =
    acc ++ take (count - length acc) ((λ e, (e, None)) <$> normal_cands f pos es).
Proof.
  revert acc scanned. induction es as [|e es IH]; intros acc scanned Hlt; simpl.
  { by rewrite take_nil, app_nil_r. }
  unfold normal_cands. simpl. case_match; simpl; [by apply IH|].
  rewrite length_app. simpl length.
  destruct (count <=? length acc + 1)%nat eqn:E; bool_to_prop.
  - simpl. by replace (count - length acc)%nat with 1%nat by lia.
  - rewrite IH; rewrite length_app; simpl length; [|lia].
    replace (count - length acc)%nat with (S (count - (length acc + 1)))%nat by lia.
    by rewrite firstn_cons, <-app_assoc.
Qed.

(** ** What one read takes *)

Definition late_of f pos s : list tagged :=
  late_cands (inner s) f pos (late_after (cp_late_mark pos) (inner s)) 0.
Definition normal_of f pos s : list tagged :=
  (λ e, (e, None)) <$> normal_cands f pos (entries (inner s)).

Lemma late_after_spec mark i n q :
  late_counter i < u64_max → (∀ n q, late i !! n = Some q → n ≤ late_counter i) →
  (n, q) ∈ late_after mark i ↔ late i !! n = Some q ∧ mark < n.
Proof.
  intros Hc Hn. unfold late_after. rewrite elem_of_lfilter, elem_of_btree_iter. simpl.
  rewrite N.leb_le. unfold sat_add. split; intros [H1 H2].
  - specialize (Hn _ _ H2). split; [done|lia].
  - specialize (Hn _ _ H1). split; [lia|done].
Qed.

Lemma late_cands_below i f pos l held :
  (∀ n q, (n, q) ∈ l → cp_seq pos < q) → late_cands i f pos l held = [].
Proof.
  revert held. induction l as [|[n q] l IH]; intros held Hl; [done|]. simpl.
  replace (cp_seq pos <? q) with true by (symmetry; apply N.ltb_lt, (Hl n); by left).
  simpl. apply IH. intros n' q' Hin. apply (Hl n'). by right.
Qed.

Lemma below_every_late_seq_spec i pos n q :
  (∀ n q, late i !! n = Some q ↔ late_by_seq i !! q = Some n) →
  below_every_late_seq i pos = true → late i !! n = Some q → cp_seq pos < q.
Proof.
  intros Hinv Hb Hn. apply Hinv, elem_of_btree_iter in Hn.
  unfold below_every_late_seq, lowest_late_seq in Hb.
  destruct (head (btree_iter (late_by_seq i))) as [[lo n0]|] eqn:Eh; simpl in Hb.
  - bool_to_prop.
    pose proof (ascending_head fst _ _ _ (btree_iter_ascending (late_by_seq i)) Eh Hn).
    simpl in *. lia.
  - apply head_None in Eh. rewrite Eh in Hn. by apply elem_of_nil in Hn.
Qed.

Lemma cursor_read_spec (count : nat) f pos s :
  store_wf s →
  let r := cursor_read count f pos s in
  cr_entries r = take count (late_of f pos s ++ normal_of f pos s) ∧
  cr_late_exhausted r = (length (late_of f pos s) <? count)%nat ∧
  cr_pos r = pos ∧ cr_late_counter r = late_counter (inner s) ∧
  cr_held_total r = (if cr_late_exhausted r
                     then Some (N.of_nat (length (late_after (cp_late_mark pos) (inner s))))
                     else None).
Proof.
  intros [[_ _ Hinv _] _ _ _]. unfold cursor_read, late_part.
  destruct (count =? 0)%nat eqn:E0; bool_to_prop.
  { subst. simpl. by rewrite take_0. }
  destruct (below_every_late_seq (inner s) pos) eqn:Eb.
  - assert (late_of f pos s = []) as ->.
    { apply late_cands_below. intros n q [_ Hn%elem_of_btree_iter]%elem_of_lfilter.
      by eapply below_every_late_seq_spec. }
    assert (0 < count)%nat as Hc%Nat.ltb_lt by lia. simpl. rewrite Hc.
    pose proof (normal_walk_spec count f pos (entries (inner s)) [] 0) as Hw.
    destruct (normal_walk _ _ _ _ _ _) as [es sc]. simpl in *. bool_to_prop.
    rewrite Hw by done. by rewrite Nat.sub_0_r.
  - destruct (late_walk_spec (inner s) count f pos (late_after (cp_late_mark pos) (inner s)) [] 0 0)
      as (sc & held & -> & Hh); [simpl; lia|]. fold (late_of f pos s) in *. simpl.
    rewrite Nat.sub_0_r. simpl in Hh.
    destruct (length (late_of f pos s) <? count)%nat eqn:Ec; bool_to_prop; simpl.
    + rewrite (take_ge (late_of f pos s)) by lia.
      pose proof (normal_walk_spec count f pos (entries (inner s)) (late_of f pos s) sc) as Hw.
      assert ((length (late_of f pos s) <? count)%nat = true) as -> by by apply Nat.ltb_lt.
      destruct (normal_walk _ _ _ _ _ _) as [es sc']. simpl in *.
      rewrite Hw, take_app, (take_ge (late_of f pos s)) by lia.
      split_and!; try done. by rewrite Hh.
    + rewrite take_app. replace (count - length (late_of f pos s))%nat with 0%nat by lia.
      by rewrite take_0, app_nil_r.
Qed.

(** ** Pending records *)

Definition pending f pos s e : Prop :=
  e ∈ entries (inner s) ∧ cp_floor pos < seq e ∧ past_cursor_matches f e = true ∧
  (cp_seq pos < seq e ∨ ∃ n, late_num (seq e) s = Some n ∧ cp_late_mark pos < n).

(** The filter's own cursor bound, where it has one, is not above the position. *)
Definition agrees f pos : Prop :=
  ∀ e, cp_seq pos < seq e → opt_matches f e = past_cursor_matches f e.

Definition tag_number (t : tagged) : N :=
  match t.2 with Some t => lt_number t | None => 0 end.

Lemma elem_of_late_cands i f pos l held t :
  t ∈ late_cands i f pos l held →
  ∃ e n h, t = (e, Some (mkTag n h)) ∧ (∃ q, (n, q) ∈ l ∧ entry_at i q = Some e ∧
    cp_floor pos < q ≤ cp_seq pos ∧ past_cursor_matches f e = true).
Proof.
  revert held. induction l as [|[n q] l IH]; intros held Ht; [by apply elem_of_nil in Ht|].
  simpl in Ht.
  assert (Hskip : t ∈ late_cands i f pos l (held + 1) →
    ∃ e n' h, t = (e, Some (mkTag n' h)) ∧ (∃ q', (n', q') ∈ (n, q) :: l ∧
      entry_at i q' = Some e ∧ cp_floor pos < q' ≤ cp_seq pos ∧ past_cursor_matches f e = true)).
  { intros (e & n' & h & -> & q' & Hin & Hr)%IH.
    exists e, n', h. split; [done|]. exists q'. split; [by right|done]. }
  destruct ((cp_seq pos <? q) || (q <=? cp_floor pos)) eqn:E1; [by apply Hskip|]. bool_to_prop.
  destruct (entry_at i q) as [e|] eqn:E2; [|by apply Hskip].
  destruct (past_cursor_matches f e) eqn:E3; [|by apply Hskip]. simpl in Ht.
  apply elem_of_cons in Ht as [->|Ht]; [|by apply Hskip].
  exists e, n, (held + 1). split; [done|]. exists q. split; [by left|]. split; [done|]. split; [lia|done].
Qed.

Lemma late_cands_complete i f pos l held n q e :
  (n, q) ∈ l → entry_at i q = Some e → cp_floor pos < q ≤ cp_seq pos →
  past_cursor_matches f e = true →
  ∃ h, (e, Some (mkTag n h)) ∈ late_cands i f pos l held.
Proof.
  intros Hin He Hq Hm. revert held. induction l as [|[n' q'] l IH]; intros held;
    [by apply elem_of_nil in Hin|]. simpl.
  apply elem_of_cons in Hin as [[= <- <-]|Hin].
  - replace ((cp_seq pos <? q) || (q <=? cp_floor pos)) with false.
    2: { symmetry. apply orb_false_iff. rewrite N.ltb_ge, N.leb_gt. lia. }
    rewrite He, Hm. simpl. eexists. by left.
  - specialize (IH Hin). repeat case_match; try apply IH.
    destruct (IH (held + 1)) as [h Hh]. exists h. by right.
Qed.

Lemma late_cands_ascending i f pos l held :
  ascending fst l → ascending tag_number (late_cands i f pos l held).
Proof.
  revert held. induction l as [|[n q] l IH]; intros held; [intros; apply ascending_nil|].
  intros [Hn Hl]%ascending_cons. simpl. repeat case_match; try by apply IH.
  apply ascending_cons. split; [|by apply IH].
  intros t (e & n' & h & -> & q' & Hin & _)%elem_of_late_cands.
  by apply (Hn (n', q')).
Qed.

Section snapshot.
Context (f : option ParsedFilter) (pos : CursorPos) (s : InMemoryStore).
Hypotheses (Hwf : store_wf s) (Hc : late_counter (inner s) < u64_max)
  (Hagree : agrees f pos) (Hpos : cp_floor pos ≤ cp_seq pos).

Lemma late_num_le q n : late_num q s = Some n → n ≤ late_counter (inner s).
Proof using All.
  intros Hn. by apply (wl_late_in _ _ (wf_inner _ Hwf)) in Hn as (_ & _ & Hn).
Qed.

Lemma elem_of_late_of t :
  t ∈ late_of f pos s →
  ∃ e n h, t = (e, Some (mkTag n h)) ∧ late_num (seq e) s = Some n ∧
    e ∈ entries (inner s) ∧ cp_late_mark pos < n ∧
    cp_floor pos < seq e ≤ cp_seq pos ∧ past_cursor_matches f e = true.
Proof using All.
  pose proof (wf_inner _ Hwf) as [Hs _ Hinv Hle].
  intros (e & n & h & -> & q & Hin & He & Hq & Hm)%elem_of_late_cands.
  apply late_after_spec in Hin as [Hl Hn]; [|done|].
  2: { intros n' q' ?%Hinv%Hle. lia. }
  rewrite position_find in He by done. apply find_key_Some in He as [He <-].
  apply Hinv in Hl. by exists e, n, h.
Qed.

Lemma late_of_complete e n :
  e ∈ entries (inner s) → late_num (seq e) s = Some n → cp_late_mark pos < n →
  cp_floor pos < seq e ≤ cp_seq pos → past_cursor_matches f e = true →
  ∃ h, (e, Some (mkTag n h)) ∈ late_of f pos s.
Proof using All.
  pose proof (wf_inner _ Hwf) as [Hs _ Hinv Hle].
  intros He Hn Hmk Hq Hm. apply (late_cands_complete _ _ _ _ _ n (seq e)); [| |done|done].
  - apply late_after_spec; [done| |split; [by apply Hinv|done]].
    intros n' q' ?%Hinv%Hle. lia.
  - rewrite position_find by done. by apply find_key_ascending.
Qed.

Lemma elem_of_normal_cands e :
  e ∈ normal_cands f pos (entries (inner s)) ↔
    e ∈ entries (inner s) ∧ cp_seq pos < seq e ∧ past_cursor_matches f e = true.
Proof using All.
  unfold normal_cands. rewrite elem_of_lfilter, negb_orb, andb_true_iff, negb_involutive.
  rewrite negb_true_iff, N.leb_gt. split; intros H; destruct_and!; split_and!; try done.
  - by rewrite <-Hagree.
  - by rewrite Hagree.
Qed.

Lemma pending_split e :
  pending f pos s e ↔
    e ∈ (late_of f pos s).*1 ∨ e ∈ normal_cands f pos (entries (inner s)).
Proof using All.
  unfold pending. rewrite elem_of_normal_cands, list_elem_of_fmap. split.
  - intros (He & Hf & Hm & [Hq|(n & Hn & Hk)]); [by right|].
    destruct (decide (cp_seq pos < seq e)); [by right|]. left.
    destruct (late_of_complete e n) as [h Hh]; [done..|lia|done|].
    by exists (e, Some (mkTag n h)).
  - intros [([e' tg] & -> & (? & n & h & [= <- ->] & Hn & He & Hk & Hq & Hm)%elem_of_late_of)
           |(He & Hq & Hm)]; simpl; (split_and!; [done|lia|done|]); [right|left]; eauto.
Qed.

Lemma late_of_ascending : ascending tag_number (late_of f pos s).
Proof. apply late_cands_ascending, ascending_lfilter, btree_iter_ascending. Qed.

Lemma normal_cands_ascending : ascending seq (normal_cands f pos (entries (inner s))).
Proof using Hwf. apply ascending_lfilter, (wl_asc _ _ (wf_inner _ Hwf)). Qed.

(** ** One read and its commit *)

Context (count kept : nat).
Let r := cursor_read count f pos s.
Let C := late_of f pos s.
Let Nc := normal_cands f pos (entries (inner s)).

Definition kept_of (kept : nat) (r : CursorRead) : list LogEntry :=
  (take kept (cr_entries r)).*1.
Definition advanced (kept : nat) (r : CursorRead) : CursorPos :=
  mkPos (ca_seq (advance_for kept r)) (ca_late_mark (advance_for kept r))
    (cp_floor (cr_pos r)).

Lemma late_tags_app l1 l2 : late_tags (l1 ++ l2) = late_tags l1 ++ late_tags l2.
Proof. apply omap_app. Qed.
Lemma normal_seqs_app l1 l2 : normal_seqs (l1 ++ l2) = normal_seqs l1 ++ normal_seqs l2.
Proof. apply omap_app. Qed.

Lemma tags_of_normal l : late_tags ((λ e, (e, None)) <$> l) = [] ∧
  normal_seqs ((λ e, (e, None)) <$> l) = seqs l.
Proof. 
  induction l as [|e l [IH1 IH2]]; [done|]. split; [exact IH1|].
  change (seq e :: normal_seqs ((λ e, (e, None)) <$> l) = seq e :: seqs l). by rewrite IH2.
Qed.

Lemma late_ones l :
  (∀ t : tagged, t ∈ l → is_Some t.2) →
  length (late_tags l) = length l ∧ normal_seqs l = [] ∧
  (last (late_tags l) = last l ≫= snd).
Proof.
  induction l as [|[e o] l IH]; [done|]. intros Hl.
  destruct (Hl (e, o)) as [tg Ht]; [by left|]. simpl in Ht. subst o.
  destruct IH as (IH1 & IH2 & IH3); [intros t Ht; apply Hl; by right|].
  cbn. split_and!; [by rewrite <-IH1|done|].
  destruct l as [|x l]; [done|]. change (late_tags (x :: l)) with (late_tags (x :: l)) in *.
  rewrite last_cons_cons, <-IH3.
  destruct (late_tags (x :: l)) as [|y ys] eqn:E; [done|].
  change (omap snd (x :: l)) with (late_tags (x :: l)). rewrite E. by rewrite last_cons_cons.
Qed.

Lemma fst_normal (l : list LogEntry) :
  ((λ e, (e, None)) <$> l : list tagged).*1 = l.
Proof. 
  induction l as [|e l IH]; [done|].
  change (e :: ((λ e, (e, None)) <$> l : list tagged).*1 = e :: l). by rewrite IH.
Qed.

Lemma late_of_tagged t : t ∈ C → is_Some t.2.
Proof using All. intros (e & n & h & -> & _)%elem_of_late_of. by eexists. Qed.

(** Either the whole late part is kept, with some of the normal part, or a
    prefix of the late part is. *)
Lemma advance_cases :
  (∃ j, take kept (cr_entries r) = C ++ ((λ e, (e, None)) <$> take j Nc) ∧
        advanced kept r = mkPos (foldl N.max (cp_seq pos) (seqs (take j Nc)))
          (N.max (late_counter (inner s)) (cp_late_mark pos)) (cp_floor pos)) ∨
  (∃ j, take kept (cr_entries r) = take j C ∧
        advanced kept r = mkPos (cp_seq pos)
          (match last (take j C) with Some t => tag_number t | None => cp_late_mark pos end)
          (cp_floor pos)).
Proof using All.
  destruct (cursor_read_spec count f pos s Hwf) as (He & Hx & Hp & Hcn & _).
  fold r C in He, Hx, Hp, Hcn. unfold normal_of in He. fold Nc in He.
  unfold advanced, advance_for. cbv zeta. rewrite Hp, Hcn, Hx.
  assert (take (Nat.min kept (length (cr_entries r))) (cr_entries r) = take kept (cr_entries r)) as ->.
  { destruct (decide (kept ≤ length (cr_entries r))%nat); [by rewrite Nat.min_l|].
    by rewrite Nat.min_r, !take_ge by lia. }
  set (k := Nat.min kept count).
  assert (take kept (cr_entries r) = take k C ++ ((λ e, (e, None)) <$> take (k - length C) Nc)) as Hpre.
  { by rewrite He, take_take, take_app, fmap_take. }
  assert (Hall : cr_entries r = take count C ++ ((λ e, (e, None)) <$> take (count - length C) Nc)).
  { by rewrite He, take_app, fmap_take. }
  assert (HL : ∀ j, length (late_tags (take j C)) = Nat.min j (length C) ∧
                    normal_seqs (take j C) = [] ∧ last (late_tags (take j C)) = last (take j C) ≫= snd).
  { intros j. destruct (late_ones (take j C)) as (E1 & E2 & E3).
    { intros t Ht%subseteq_take. by apply late_of_tagged. }
    by rewrite E1, length_take. }
  destruct (HL k) as (L1 & L2 & L3). destruct (HL count) as (M1 & _ & _).
  rewrite Hpre, Hall, !late_tags_app, !(proj1 (tags_of_normal _)), !app_nil_r, L1, M1.
  destruct ((length C <? count)%nat && (Nat.min k (length C) =? Nat.min count (length C))%nat) eqn:Ec.
  - bool_to_prop. left. exists (k - length C)%nat.
    rewrite (take_ge C) in * by lia. split; [done|]. simpl.
    by rewrite normal_seqs_app, L2, (proj2 (tags_of_normal _)).
  - right. exists k.
    assert ((k - length C)%nat = 0%nat) as ->.
    { apply andb_false_iff in Ec as [Ec|Ec]; bool_to_prop; lia. }
    rewrite take_0. simpl. rewrite app_nil_r. split; [done|]. rewrite L3.
    destruct (last (take k C)) as [t|] eqn:El; [|done].
    destruct (late_of_tagged t) as [tg Ht].
    { apply last_Some_elem_of in El. by apply subseteq_take in El. }
    simpl. rewrite Ht. simpl. unfold tag_number. by rewrite Ht.
Qed.

Lemma late_of_num t n : t ∈ C → (late_num (seq t.1) s = Some n ↔ tag_number t = n).
Proof using All.
  intros (e & n' & h & -> & Hn & _)%elem_of_late_of. simpl. rewrite Hn.
  unfold tag_number. simpl. naive_solver.
Qed.

Lemma late_of_seq t : t ∈ C → seq t.1 ≤ cp_seq pos.
Proof using All. intros (e & n & h & -> & _ & _ & _ & Hq & _)%elem_of_late_of. simpl. lia. Qed.

Lemma foldl_max_le (l : list N) (a b : N) : foldl N.max a l ≤ b ↔ a ≤ b ∧ ∀ x, x ∈ l → x ≤ b.
Proof.
  revert a. induction l as [|y l IH]; intros a; simpl.
  - split; [|tauto]. intros H. split; [done|]. by intros x ?%elem_of_nil.
  - rewrite IH. setoid_rewrite elem_of_cons. rewrite N.max_lub_iff. naive_solver.
Qed.

(** The whole late part kept: what stays pending is the rest of the normal part. *)
Lemma split_all_late j e :
  let pos' := mkPos (foldl N.max (cp_seq pos) (seqs (take j Nc)))
                (N.max (late_counter (inner s)) (cp_late_mark pos)) (cp_floor pos) in
  pending f pos' s e ↔ e ∈ drop j Nc.
Proof using All.
  intros pos'. pose proof normal_cands_ascending as Ha.
  assert (Hlt : ∀ q, cp_seq pos' < q ↔ cp_seq pos < q ∧ ∀ x, x ∈ take j Nc → seq x < q).
  { intros q. destruct (decide (q = 0)) as [->|Hz]; [lia|].
    assert (cp_seq pos' < q ↔ cp_seq pos' ≤ N.pred q) as -> by lia. simpl.
    rewrite foldl_max_le. setoid_rewrite elem_of_seqs. split.
    - intros [H1 H2]. split; [lia|]. intros x Hx. specialize (H2 (seq x) ltac:(eauto)). lia.
    - intros [H1 H2]. split; [lia|]. intros x (y & Hy%H2 & <-). lia. }
  unfold pending. split.
  - intros (He & Hf & Hm & [Hq|(n & Hn & Hk)]).
    + apply Hlt in Hq as [Hq Hall].
      assert (e ∈ Nc) as Hin by by apply elem_of_normal_cands.
      rewrite <-(take_drop j Nc) in Hin. apply elem_of_app in Hin as [Hin|]; [|done].
      apply Hall in Hin. lia.
    + apply late_num_le in Hn. simpl in Hk. lia.
  - intros Hin. pose proof (subseteq_drop _ _ _ Hin) as (He & Hq & Hm)%elem_of_normal_cands.
    split_and!; [done|simpl; lia|done|]. left. apply Hlt. split; [done|].
    intros x Hx. by apply (ascending_take_drop seq j Nc).
Qed.

(** A prefix of the late part kept: the rest of it and the normal part stay pending. *)
Lemma split_some_late j e :
  let pos' := mkPos (cp_seq pos)
    (match last (take j C) with Some t => tag_number t | None => cp_late_mark pos end)
    (cp_floor pos) in
  pending f pos' s e ↔ e ∈ (drop j C).*1 ∨ e ∈ Nc.
Proof using All.
  intros pos'. pose proof late_of_ascending as Ha. fold C in Ha.
  assert (Hcut : ∀ t, t ∈ C → cp_late_mark pos' < tag_number t ↔ t ∈ drop j C).
  { intros t Ht. simpl. destruct (last (take j C)) as [t0|] eqn:El.
    - split.
      + intros Hn. rewrite <-(take_drop j C) in Ht. apply elem_of_app in Ht as [Ht|]; [|done].
        pose proof (ascending_last tag_number _ _ _ (ascending_take _ j _ Ha) El Ht). lia.
      + apply last_Some_elem_of in El. intros Hd. by apply (ascending_take_drop tag_number j C).
    - apply last_None in El. rewrite <-(take_drop j C), El in Ht. simpl in Ht. split; [done|].
      intros _. apply subseteq_drop in Ht as (e' & n & h & -> & _ & _ & Hk & _)%elem_of_late_of.
      done. }
  assert (Hmk : cp_late_mark pos ≤ cp_late_mark pos').
  { simpl. destruct (last (take j C)) as [t0|] eqn:El; [|done].
    apply last_Some_elem_of in El.
    apply subseteq_take in El as (e' & n & h & -> & _ & _ & Hk & _)%elem_of_late_of.
    unfold tag_number. simpl. lia. }
  unfold pending, Nc. rewrite elem_of_normal_cands, list_elem_of_fmap. split.
  - intros (He & Hf & Hm & [Hq|(n & Hn & Hk)]); [by right|].
    destruct (decide (cp_seq pos < seq e)); [by right|]. left.
    simpl in Hf. destruct (late_of_complete e n) as [h Hh]; [done..|lia|lia|done|].
    exists (e, Some (mkTag n h)). split; [done|]. by apply Hcut.
  - intros [([e' tg] & -> & Ht)|(He & Hq & Hm)].
    + pose proof (subseteq_drop _ _ _ Ht) as Ht'.
      pose proof Ht' as (? & n & h & [= <- ->] & Hn & He & Hk & Hq & Hm)%elem_of_late_of.
      simpl. split_and!; [done|lia|done|]. right. exists n. split; [done|].
      exact (proj2 (Hcut _ Ht') Ht).
    + split_and!; [done|simpl; lia|done|by left].
Qed.

Lemma late_of_NoDup : ascending seq (sort_by_key seq C.*1) ∧ NoDup (seqs C.*1).
Proof using All.
  assert (NoDup (seqs C.*1)) as Hnd.
  { pose proof (ascending_NoDup _ _ late_of_ascending) as Hnd. fold C in Hnd.
    rewrite <-list_fmap_compose. apply NoDup_fmap_2_strong; [|done].
    intros t1 t2 H1 H2 Heq. simpl in Heq.
    apply (ascending_inj tag_number C); [apply late_of_ascending|done..|].
    pose proof (proj2 (late_of_num t1 _ H1) eq_refl) as E1.
    pose proof (proj2 (late_of_num t2 _ H2) eq_refl) as E2. congruence. }
  split; [by apply sort_by_key_ascending|done].
Qed.

Lemma kept_NoDup : NoDup (seqs (kept_of kept r)).
Proof using All.
  unfold kept_of. destruct late_of_NoDup as [_ Hnd].
  pose proof normal_cands_ascending as Ha. fold Nc in Ha.
  destruct advance_cases as [(j & -> & _)|(j & -> & _)].
  - rewrite fmap_app, fst_normal, fmap_app.
    apply NoDup_app. split_and!; [done| |].
    + intros q (x & Hx & <-)%elem_of_seqs (y & Hy & Hq)%elem_of_seqs.
      apply list_elem_of_fmap in Hx as (t & -> & Ht). apply late_of_seq in Ht.
      apply subseteq_take, elem_of_normal_cands in Hy as (_ & Hy & _). lia.
    + by apply (ascending_NoDup id), ascending_seqs, ascending_take.
  - rewrite <-(take_drop j C), fmap_app, fmap_app in Hnd. by apply NoDup_app in Hnd as [? _].
Qed.

(** The pending records are the kept ones and the ones pending at the new position. *)
Lemma read_splits e :
  (pending f pos s e ↔ e ∈ kept_of kept r ∨ pending f (advanced kept r) s e) ∧
  (e ∈ kept_of kept r → ¬ pending f (advanced kept r) s e).
Proof using All.
  rewrite pending_split. fold C Nc. unfold kept_of.
  destruct late_of_NoDup as [_ Hnd]. pose proof normal_cands_ascending as Ha. fold Nc in Ha.
  assert (HCN : e ∈ C.*1 → e ∈ Nc → False).
  { intros (t & -> & Ht)%list_elem_of_fmap (_ & Hq & _)%elem_of_normal_cands.
    apply late_of_seq in Ht. lia. }
  assert (Hj : ∀ j, e ∈ Nc ↔ e ∈ take j Nc ∨ e ∈ drop j Nc)
    by (intros j; by rewrite <-elem_of_app, take_drop).
  assert (HjC : ∀ j, e ∈ C.*1 ↔ e ∈ (take j C).*1 ∨ e ∈ (drop j C).*1)
    by (intros j; by rewrite <-elem_of_app, <-fmap_app, take_drop).
  destruct advance_cases as [(j & -> & ->)|(j & -> & ->)].
  - rewrite split_all_late. rewrite fmap_app, fst_normal, elem_of_app, (Hj j).
    split; [tauto|]. intros [Hin|Hin] Hd.
    + apply HCN; [done|]. apply (Hj j). by right.
    + pose proof (ascending_take_drop seq j Nc e e Ha Hin Hd). lia.
  - rewrite split_some_late. fold Nc. rewrite (HjC j). split; [tauto|].
    intros Hin [Hd|Hd].
    + rewrite <-(take_drop j C), fmap_app, fmap_app in Hnd.
      apply NoDup_app in Hnd as (_ & Hnd & _).
      apply (Hnd (seq e)); apply elem_of_seqs; eauto.
    + apply HCN; [|done]. apply (HjC j). by left.
Qed.

Lemma advanced_ok :
  cp_floor (advanced kept r) = cp_floor pos ∧
  cp_seq pos ≤ cp_seq (advanced kept r) ∧
  (cp_late_mark pos ≤ late_counter (inner s) →
    cp_late_mark (advanced kept r) ≤ late_counter (inner s)) ∧
  (cp_seq (advanced kept r) = cp_seq pos ∨
    ∃ x, x ∈ entries (inner s) ∧ cp_seq (advanced kept r) ≤ seq x).
Proof using All.
  destruct advance_cases as [(j & _ & ->)|(j & _ & ->)]; simpl.
  - split_and!; [done| |lia|].
    { exact (proj1 (proj1 (foldl_max_le _ _ _) (N.le_refl _))). }
    destruct (last (take j Nc)) as [x|] eqn:El.
    + right. exists x. pose proof El as Hx%last_Some_elem_of%subseteq_take%elem_of_normal_cands.
      destruct Hx as (Hx & Hq & _). split; [done|]. apply foldl_max_le. split; [lia|].
      intros q (y & Hy & <-)%elem_of_seqs.
      by apply (ascending_last seq _ _ _ (ascending_take _ j _ normal_cands_ascending) El).
    + left. apply last_None in El. by rewrite El.
  - split_and!; [done|lia| |by left]. intros Hmk.
    destruct (last (take j C)) as [t|] eqn:El; [|done].
    apply last_Some_elem_of, subseteq_take in El.
    by apply (late_num_le (seq t.1)), late_of_num.
Qed.

Lemma read_drains e :
  (length (entries (inner s)) < count)%nat → (count ≤ kept)%nat →
  ¬ pending f (advanced kept r) s e.
Proof using All.
  intros Hcount Hkept Hp'. destruct (read_splits e) as [Hs Hno].
  pose proof (proj2 Hs (or_intror Hp')) as Hp. apply pending_split in Hp. revert Hp'. apply Hno.
  destruct (cursor_read_spec count f pos s Hwf) as (He & _). fold r C in He.
  assert (length (C ++ normal_of f pos s).*1 ≤ length (entries (inner s)))%nat as Hlen.
  { apply submseteq_length, NoDup_submseteq.
    - unfold normal_of. rewrite fmap_app, fst_normal. destruct late_of_NoDup as [_ Hnd].
      apply NoDup_app. split_and!.
      + by apply NoDup_fmap_1 in Hnd.
      + intros x (t & -> & Ht)%list_elem_of_fmap (_ & Hx & _)%elem_of_normal_cands.
        apply late_of_seq in Ht. lia.
      + apply (ascending_NoDup seq), normal_cands_ascending.
    - intros x. unfold normal_of. rewrite fmap_app, fst_normal, elem_of_app.
      by intros [? _]%pending_split. }
  rewrite length_fmap in Hlen. unfold kept_of. assert (length (C ++ normal_of f pos s) ≤ count)%nat as Hle
    by (etrans; [exact Hlen|]; lia).
  rewrite He, (take_ge (C ++ normal_of f pos s) count) by done.
  rewrite take_ge by (etrans; [exact Hle|]; lia).
  unfold normal_of. rewrite fmap_app, fst_normal. by apply elem_of_app.
Qed.
End snapshot.

(** ** A reader among writers *)

(** The filter a [c>=] read runs: its cursor qualifier resolved to the position. *)
Definition at_cursor (f : ParsedFilter) (n : N) : ParsedFilter :=
  match f with
  | Qualifiers qs =>
      Qualifiers ((λ x, match x with CursorFilter _ => CursorSeq n | x => x end) <$> qs)
  | f => f
  end.

(** No resolved cursor bound yet, as in a parsed filter. *)
Definition unresolved (f : ParsedFilter) : bool :=
  match f with
  | Qualifiers qs => forallb (λ x, match x with CursorSeq _ => false | _ => true end) qs
  | _ => true
  end.

Definition wants (f : ParsedFilter) (e : LogEntry) : bool :=
  matches_entry_past_cursor (at_cursor f 0) e.

Lemma at_cursor_wants f n e : matches_entry_past_cursor (at_cursor f n) e = wants f e.
Proof.
  unfold wants. destruct f as [| |qs]; [done..|]. simpl.
  induction qs as [|x qs IH]; [done|]. simpl. f_equal; [by destruct x|exact IH].
Qed.

Lemma at_cursor_agrees f pos :
  unresolved f = true → agrees (Some (at_cursor f (cp_seq pos))) pos.
Proof.
  intros Hf e He. simpl. symmetry. apply matches_entry_past_cursor_above.
  intros qs after Heq Hin. destruct f as [| |qs0]; try done. simpl in *. injection Heq as <-.
  apply list_elem_of_fmap in Hin as (q & Hq & Hin).
  rewrite forallb_forall in Hf. specialize (Hf q ltac:(by apply list_elem_of_In)).
  destruct q; try done. injection Hq as ->. done.
Qed.

Inductive CursorEvent :=
  | CWrite (op : StoreOp)
  | CRead (count kept : nat).

(** The store, the cursor, and the records delivered so far. *)
Definition cursor_step (f : ParsedFilter) (st : InMemoryStore * CursorPos * list LogEntry)
  (ev : CursorEvent) : InMemoryStore * CursorPos * list LogEntry :=
  let '(s, pos, D) := st in
  match ev with
  | CWrite op => (apply_op s op, pos, D)
  | CRead count kept =>
      let r := cursor_read count (Some (at_cursor f (cp_seq pos))) pos s in
      (s, advanced kept r, D ++ into_kept_entries kept r)
  end.

Definition writes (evs : list CursorEvent) : list StoreOp :=
  omap (λ ev, match ev with CWrite op => Some op | CRead _ _ => None end) evs.

Definition owed f pos s e : Prop := pending (Some (at_cursor f (cp_seq pos))) pos s e.

Record delivery_inv f start s pos (D : list LogEntry) : Prop := {
  di_wf : store_wf s;
  di_floor : cp_floor pos = start ∧ start ≤ cp_seq pos;
  di_mark : cp_late_mark pos ≤ late_counter (inner s);
  di_pos : cp_seq pos ≤ start ∨ (∃ x, x ∈ entries (inner s) ∧ cp_seq pos ≤ seq x) ∨
           cp_seq pos < refuse_below s;
  di_once : NoDup (seqs D);
  di_wanted d : d ∈ D → start < seq d ∧ wants f d = true;
  di_settled d : d ∈ D → seq d < refuse_below s ∨ (d ∈ entries (inner s) ∧ ¬ owed f pos s d);
  di_complete e : e ∈ entries (inner s) → start < seq e → wants f e = true →
                  e ∈ D ∨ owed f pos s e;
}.

Lemma owed_iff f pos s e :
  owed f pos s e ↔ e ∈ entries (inner s) ∧ cp_floor pos < seq e ∧ wants f e = true ∧
    (cp_seq pos < seq e ∨ ∃ n, late_num (seq e) s = Some n ∧ cp_late_mark pos < n).
Proof. unfold owed, pending. simpl. by rewrite at_cursor_wants. Qed.

Lemma owed_mono f pos s s' e :
  e ∈ entries (inner s') → e ∈ entries (inner s) → late_num (seq e) s' = late_num (seq e) s →
  owed f pos s' e ↔ owed f pos s e.
Proof. intros H1 H2 Hn. rewrite !owed_iff, Hn. tauto. Qed.

(** Writers: a merge keeps what is owed and owes what it admits. *)
Lemma delivery_merge recv batch f start s s' pos D :
  delivery_inv f start s pos D → merged recv (admissible s batch) s s' → store_wf s' →
  delivery_inv f start s' pos D.
Proof.
  intros [Hwf Hfl Hmk Hp Hnd Hw Hst Hcp] M Hwf'.
  pose proof (wl_asc _ _ (wf_inner _ Hwf)) as Hs.
  pose proof (union_ascending s batch Hs) as Ha.
  assert (Hr : refuse_below s ≤ refuse_below s').
  { unfold refuse_below. rewrite (mg_floor _ _ _ _ M), (mg_admit _ _ _ _ M).
    pose proof (floor_after_ge (overflow (admissible s batch) s) (lost_below s)). lia. }
  assert (Hgone : ∀ x, x ∈ entries (inner s) → x ∈ entries (inner s') ∨ seq x < refuse_below s').
  { intros x Hx. assert (x ∈ union_of (admissible s batch) s) as Hu
      by (apply elem_of_merge_by_key; by left).
    apply (overflow_or_kept _ _ _ _ x M) in Hu as [Ho|]; [right|by left].
    unfold refuse_below. rewrite (mg_floor _ _ _ _ M).
    pose proof (proj2 (proj1 (floor_after_le _ (lost_below s) _)
      (N.le_refl (floor_after (overflow (admissible s batch) s) (lost_below s)))) x Ho).
    apply (wf_seq _ Hwf) in Hx. unfold sat_add in *. lia. }
  assert (Hold : ∀ x, x ∈ entries (inner s) → x ∈ entries (inner s') →
                      late_num (seq x) s' = late_num (seq x) s).
  { intros x Hx Hx'. rewrite (mg_late_old _ _ _ _ M).
    - rewrite decide_False; [done|]. intros (y & Hy & Hq)%elem_of_seqs.
      pose proof (overflow_below _ _ _ _ y x M Ha Hy Hx'). lia.
    - intros (y & Hy & Hq)%elem_of_seqs.
      by apply (admissible_disjoint s batch Hs x y). }
  constructor; try done.
  - pose proof (mg_counter _ _ _ _ M). lia.
  - destruct Hp as [|[(x & Hx & Hq)|]]; [by left| |right; right; lia].
    right. destruct (Hgone x Hx); [left; eauto|right; lia].
  - intros d Hd. destruct (Hst d Hd) as [|[He Hno]]; [left; lia|].
    destruct (Hgone d He) as [He'|]; [right|by left]. split; [done|].
    intros Ho. apply Hno.
    exact (proj1 (owed_mono f pos s s' d He' He (Hold d He He')) Ho).
  - intros e He' Hq Hm.
    pose proof (proj2 (overflow_or_kept _ _ _ _ e M) (or_intror He')) as [He|He]%elem_of_merge_by_key.
    { destruct (Hcp e He Hq Hm) as [|Ho]; [by left|right].
      exact (proj2 (owed_mono f pos s s' e He' He (Hold e He He')) Ho). }
    right. apply owed_iff. split_and!; [done|by destruct Hfl as [-> _]|done|].
    destruct (decide (cp_seq pos < seq e)) as [|Hle]; [by left|right].
    pose proof (elem_of_admissible s batch e Hs He) as (_ & Hnh & Hrb).
    destruct (mg_late_new _ _ _ _ M (seq e)) as (n & Hn & Hlt).
    + apply elem_of_seqs; eauto.
    + apply elem_of_seqs; eauto.
    + destruct Hp as [|[(x & Hx & Hxq)|]]; [lia| |lia].
      destruct (last (entries (inner s))) as [newest|] eqn:El.
      * exists newest. split; [done|].
        pose proof (ascending_last seq _ _ _ Hs El Hx).
        assert (seq x ≠ seq e); [|lia]. intros Heq. apply Hnh, elem_of_seqs. eauto.
      * apply last_None in El. rewrite El in Hx. by apply elem_of_nil in Hx.
    + exists n. split; [done|lia].
Qed.

Lemma delivery_clear f start s s' pos D :
  delivery_inv f start s pos D → store_wf s' → entries (inner s') = [] →
  late_counter (inner s') = late_counter (inner s) →
  refuse_below s ≤ refuse_below s' →
  (∀ e, e ∈ entries (inner s) → seq e < refuse_below s') →
  delivery_inv f start s' pos D.
Proof.
  intros [Hwf Hfl Hmk Hp Hnd Hw Hst Hcp] Hwf' He Hc Hr Hgone. constructor; try done.
  - by rewrite Hc.
  - destruct Hp as [|[(x & Hx%Hgone & Hq)|Hlt]]; [by left|right; right; lia..].
  - intros d Hd. left. destruct (Hst d Hd) as [|[Hin%Hgone _]]; lia.
  - intros e. rewrite He. by intros ?%elem_of_nil.
Qed.

Lemma clear_floor s e :
  store_wf s → e ∈ entries (inner s) → seq e < refuse_below (clear_locked s).
Proof.
  intros Hs He.
  destruct (clear_accounted s e Hs) as [Hin|]; [|by apply elem_of_nil in Hin|done].
  left. apply elem_of_seqs. eauto.
Qed.

Lemma delivery_write op f start s pos D :
  delivery_inv f start s pos D →
  late_counter (inner s) + N.of_nat (length (offered_by op)) ≤ u64_max →
  (∀ e, e ∈ offered_by op → seq e < u64_max) →
  delivery_inv f start (apply_op s op) pos D.
Proof.
  intros Hd Hc Hb. pose proof (di_wf _ _ _ _ _ Hd) as Hwf.
  destruct (apply_op_wf op s Hwf Hc Hb) as [Hwf' _].
  pose proof (refuse_below_mono op s Hwf Hc) as Hr.
  destruct (is_clear op) eqn:Ec.
  { assert (Hcl : refuse_below (clear_locked s) ≤ refuse_below (apply_op s op)).
    { unfold refuse_below. destruct op; try done; simpl; lia. }
    apply (delivery_clear f start s); [done|done|by destruct op| |done|].
    - destruct op; try done; simpl; unfold clear_locked; by destruct (last _).
    - intros e He. pose proof (clear_floor s e Hwf He). lia. }
  destruct (decide (op = OpMalformed)) as [->|Hm].
  { destruct Hd. constructor; done. }
  destruct (op_merged op s Hwf Hc Ec Hm) as [recv M]. by eapply delivery_merge.
Qed.

(** A read delivers what was owed, once. *)
Lemma delivery_read count kept f start s pos D :
  unresolved f = true → delivery_inv f start s pos D → late_counter (inner s) < u64_max →
  let r := cursor_read count (Some (at_cursor f (cp_seq pos))) pos s in
  delivery_inv f start s (advanced kept r) (D ++ into_kept_entries kept r).
Proof.
  intros Hf [Hwf [Hfl1 Hfl2] Hmk Hp Hnd Hw Hst Hcp] Hc r.
  pose proof (at_cursor_agrees f pos Hf) as Hag.
  assert (Hfp : cp_floor pos ≤ cp_seq pos) by lia.
  set (F := Some (at_cursor f (cp_seq pos))) in *.
  destruct (advanced_ok F pos s Hwf Hc Hag Hfp count kept) as (A1 & A2 & A3 & A4). fold r in A1, A2, A3, A4.
  assert (Hsp : ∀ e, (owed f pos s e ↔ e ∈ kept_of kept r ∨ owed f (advanced kept r) s e) ∧
                     (e ∈ kept_of kept r → ¬ owed f (advanced kept r) s e)).
  { intros e. destruct (read_splits F pos s Hwf Hc Hag Hfp count kept e) as [S1 S2]. fold r in S1, S2.
    assert (owed f (advanced kept r) s e ↔ pending F (advanced kept r) s e) as ->; [|done].
    unfold owed, pending, F. simpl. by rewrite !at_cursor_wants. }
  assert (Hk : ∀ e, e ∈ into_kept_entries kept r ↔ e ∈ kept_of kept r)
    by (intros e; apply elem_of_sort_by_key).
  constructor; try done.
  - rewrite A1. split; [done|]. lia.
  - by apply A3.
  - destruct A4 as [-> |[x Hx]]; [done|]. right; left. by exists x.
  - pose proof (kept_NoDup F pos s Hwf Hc Hag Hfp count kept) as Hkn. fold r in Hkn.
    rewrite fmap_app. apply NoDup_app. split_and!; [done| |].
    + intros q (d & Hd & <-)%elem_of_seqs (e & He%Hk & Hq)%elem_of_seqs.
      assert (owed f pos s e) as Ho by (apply Hsp; by left).
      pose proof Ho as (Hin & _)%owed_iff.
      destruct (Hst d Hd) as [Hlt|[Hin' Hno]].
      * apply (wf_floor _ Hwf) in Hin. lia.
      * apply Hno. assert (d = e) as ->; [|done].
        by apply (ascending_inj seq _ d e (wl_asc _ _ (wf_inner _ Hwf))).
    + by apply (ascending_NoDup id), ascending_seqs, sort_by_key_ascending.
  - intros d [Hd|Hd%Hk]%elem_of_app; [by apply Hw|].
    assert (owed f pos s d) as (_ & Hq & Hm & _)%owed_iff by (apply Hsp; by left).
    split; [lia|done].
  - intros d [Hd|Hd%Hk]%elem_of_app.
    + destruct (Hst d Hd) as [|[Hin Hno]]; [by left|right]. split; [done|].
      intros Ho. apply Hno, Hsp. by right.
    + right. split; [|by apply Hsp].
      assert (owed f pos s d) as (Hin & _)%owed_iff by (apply Hsp; by left). done.
  - intros e He Hq Hm. destruct (Hcp e He Hq Hm) as [|Ho].
    + left. apply elem_of_app. by left.
    + apply Hsp in Ho as [Ho|Ho]; [left|by right]. apply elem_of_app. right. by apply Hk.
Qed.

(** ** The properties *)

(** A cursor created on a ring at position [start], as [bookmarks.add] creates it. *)
Definition created (start : N) (s : InMemoryStore) : CursorPos :=
  mkPos start (late_counter (inner s)) start.

Definition cursor_run f (evs : list CursorEvent) (start : N) (s : InMemoryStore)
  : InMemoryStore * CursorPos * list LogEntry :=
  foldl (cursor_step f) (s, created start s, []) evs.

Lemma writes_snoc evs ev :
  writes (evs ++ [ev]) = writes evs ++ match ev with CWrite op => [op] | CRead _ _ => [] end.
Proof. unfold writes. rewrite omap_app. by destruct ev. Qed.

Lemma cursor_run_inv cap ops start f evs :
  let s0 := run_ops ops (new cap) in
  ops_ok (ops ++ writes evs) →
  N.of_nat (length (offered (ops ++ writes evs))) < u64_max → unresolved f = true →
  let '(s, pos, D) := cursor_run f evs start s0 in
  s = run_ops (ops ++ writes evs) (new cap) ∧ delivery_inv f start s pos D.
Proof.
  intros s0 Hok Hlen Hf. unfold cursor_run.
  induction evs as [|ev evs IH] using rev_ind.
  - simpl in *. rewrite app_nil_r in *. split; [done|].
    destruct (run_wf_counter cap ops Hok) as [Hwf Hc]. constructor; simpl; try done.
    + by left.
    + constructor.
    + by intros d ?%elem_of_nil.
    + by intros d ?%elem_of_nil.
    + intros e He Hq Hm. right. apply owed_iff. simpl. auto.
  - rewrite foldl_app. simpl. rewrite writes_snoc in *. destruct ev as [op|count kept].
    + rewrite app_assoc in *. pose proof Hok as (Hok' & Hl & Hb)%ops_ok_snoc.
      destruct (foldl (cursor_step f) _ evs) as [[s pos] D].
      destruct IH as [-> Hd]; [done| |].
      { rewrite offered_snoc, length_app in Hlen. lia. }
      rewrite run_snoc. split; [done|]. apply delivery_write; [done| |done].
      destruct (run_wf_counter cap _ Hok') as [_ Hc]. lia.
    + rewrite app_nil_r in *. destruct (foldl (cursor_step f) _ evs) as [[s pos] D].
      destruct (IH Hok Hlen) as [-> Hd]. split; [done|]. apply delivery_read; [done..|].
      destruct (run_wf_counter cap _ Hok) as [_ Hc]. lia.
Qed.

(** C3: exactly-once delivery. Whatever interleaving of store writes (appends,
    late merges by a trigger's flush, clears) and of this cursor's reads, each
    keeping any prefix of what it took: no seq is delivered twice, everything
    delivered is past the creation floor and wanted by the filter, and every
    wanted record past the floor that the store still holds has been delivered
    or is owed to the next reads. *)
Theorem cursor_exactly_once cap ops start f evs :
  ops_ok (ops ++ writes evs) →
  N.of_nat (length (offered (ops ++ writes evs))) < u64_max → unresolved f = true →
  let '(s, pos, D) := cursor_run f evs start (run_ops ops (new cap)) in
  NoDup (seqs D) ∧
  (∀ d, d ∈ D → start < seq d ∧ wants f d = true) ∧
  (∀ e, e ∈ entries (inner s) → start < seq e → wants f e = true →
    e ∈ D ∨ owed f pos s e).
Proof.
  intros Hok Hlen Hf. pose proof (cursor_run_inv cap ops start f evs Hok Hlen Hf) as H.
  destruct (cursor_run f evs start _) as [[s pos] D]. destruct H as [_ Hd].
  split_and!; [apply Hd|apply (di_wanted _ _ _ _ _ Hd)|apply (di_complete _ _ _ _ _ Hd)].
Qed.

(** C4: a cursor catches up: after any history, a read whose budget exceeds the
    ring's size, kept whole, leaves nothing owed, so every wanted record the
    store holds has then been delivered. *)
Theorem cursor_catches_up cap ops start f evs (count kept : nat) :
  ops_ok (ops ++ writes evs) →
  N.of_nat (length (offered (ops ++ writes evs))) < u64_max → unresolved f = true →
  (cap < count)%nat → (count ≤ kept)%nat →
  let '(s, pos, D) := cursor_run f (evs ++ [CRead count kept]) start (run_ops ops (new cap)) in
  ∀ e, e ∈ entries (inner s) → start < seq e → wants f e = true → e ∈ D.
Proof.
  intros Hok Hlen Hf Hcount Hkept.
  pose proof (cursor_run_inv cap ops start f evs Hok Hlen Hf) as H.
  unfold cursor_run in *. rewrite foldl_app. simpl.
  destruct (foldl (cursor_step f) _ evs) as [[s pos] D] eqn:E. destruct H as [Hs Hd].
  destruct (run_wf_counter cap _ Hok) as [Hwf Hc].
  pose proof (delivery_read count kept f start s pos D Hf Hd) as Hd'. rewrite Hs in *.
  specialize (Hd' ltac:(lia)). intros e He Hq Hm.
  destruct (di_complete _ _ _ _ _ Hd' e He Hq Hm) as [|Ho]; [done|exfalso].
  destruct (di_floor _ _ _ _ _ Hd) as [Hfl1 Hfl2].
  revert Ho. unfold owed. set (F := Some (at_cursor f (cp_seq pos))) in *.
  assert (∀ p s e, pending (Some (at_cursor f (cp_seq p))) p s e ↔ pending F p s e) as ->.
  { intros p s' e'. unfold pending, F. simpl. by rewrite !at_cursor_wants. }
  apply read_drains; [done|lia|by apply at_cursor_agrees|lia| |done].
  pose proof (wf_cap _ Hwf) as Hcap. rewrite run_cap in Hcap by done. lia.
Qed.
End cursorspec.

(** ** Several readers of one cursor *)

Section readers.
Context {X : Externals}.

(** No read commits backwards, whatever the ring holds: late numbers come from
    above the mark. *)
Lemma foldl_max_ge l n : n ≤ foldl N.max n l.
Proof. revert n. induction l as [|x l IH]; intros n; simpl; [lia|]. specialize (IH (N.max n x)). lia. Qed.

Definition tags_above (mark : N) (es : list tagged) : Prop :=
  ∀ t g, t ∈ es → t.2 = Some g → mark ≤ lt_number g.

Lemma advance_forward kept r :
  tags_above (cp_late_mark (cr_pos r)) (cr_entries r) →
  cp_seq (cr_pos r) ≤ ca_seq (advance_for kept r) ∧ cp_late_mark (cr_pos r) ≤ ca_late_mark (advance_for kept r).
Proof.
  intros Ht. unfold advance_for. case_goal; cbn [ca_seq ca_late_mark]; [split; [apply foldl_max_ge|lia]|].
  destruct (last (late_tags _)) as [g|] eqn:E; cbn [ca_seq ca_late_mark]; [|lia]. split; [lia|].
  apply last_Some_elem_of in E. unfold late_tags in E. apply list_elem_of_omap in E as (t & Hin & Hg).
  apply (Ht t); [|done]. by apply elem_of_take in Hin as (i & Hi & _); apply list_elem_of_lookup_2 in Hi.
Qed.

Lemma late_walk_tags i count f pos l : ∀ acc held scanned,
  (∀ kv, kv ∈ l → cp_late_mark pos ≤ kv.1) → tags_above (cp_late_mark pos) acc →
  tags_above (cp_late_mark pos) (late_walk i count f pos l acc held scanned).1.1.1.
Proof.
  induction l as [|[number q] l IH]; intros acc held scanned Hl Ha; [done|]. simpl.
  assert (∀ kv, kv ∈ l → cp_late_mark pos ≤ kv.1) as Hl' by (intros kv Hin; apply Hl; by right).
  case_goal; [by apply IH|]. destruct (entry_at i q) as [e|]; [|by apply IH]. case_goal; [by apply IH|].
  assert (tags_above (cp_late_mark pos) (acc ++ [(e, Some (mkTag number (held + 1)))])) as Ha'.
  { intros t g [Hin|Hin%list_elem_of_singleton]%elem_of_app Hg; [by apply (Ha t)|]. subst t. injection Hg as <-.
    by apply (Hl (number, q)); left. }
  case_goal; [done|by apply IH].
Qed.

Lemma normal_walk_tags count f pos mark es : ∀ acc scanned,
  tags_above mark acc → tags_above mark (normal_walk count f pos es acc scanned).1.
Proof.
  induction es as [|e es IH]; intros acc scanned Ha; [done|]. simpl. case_goal; [by apply IH|].
  assert (tags_above mark (acc ++ [(e, None)])) as Ha'.
  { intros t g [Hin|Hin%list_elem_of_singleton]%elem_of_app Hg; [by apply (Ha t)|]. by subst t. }
  case_goal; [done|by apply IH].
Qed.

(** How a request reads: a page of the ring, or one trace's records. *)
Inductive ReadHow := ByCount (count : nat) | ByTrace (t : N).
Definition read_how (how : ReadHow) (f : option ParsedFilter) (pos : CursorPos) (ring : InMemoryStore) : CursorRead :=
  match how with ByCount count => cursor_read count f pos ring | ByTrace t => cursor_read_trace t f pos ring end.

Lemma read_forward how f pos ring :
  cp_late_mark pos ≤ u64_max →
  cr_pos (read_how how f pos ring) = pos ∧ tags_above (cp_late_mark pos) (cr_entries (read_how how f pos ring)).
Proof.
  intros Hmax. destruct how as [count|t]; simpl.
  - unfold cursor_read, late_part. destruct (count =? 0)%nat; [split; [done|by intros ? ? ?%elem_of_nil]|].
    destruct (below_every_late_seq _ _).
    + case_goal; [|split; [done|by intros ? ? ?%elem_of_nil]].
      pose proof (normal_walk_tags count f pos (cp_late_mark pos) (entries (inner ring)) [] 0 ltac:(by intros ? ? ?%elem_of_nil)) as H.
      by destruct (normal_walk _ _ _ _ _ _).
    + pose proof (late_walk_tags (inner ring) count f pos (late_after (cp_late_mark pos) (inner ring)) [] 0 0) as H.
      destruct (late_walk _ _ _ _ _ _ _ _) as [[[es held] scanned] exhausted]. simpl in H.
      assert (tags_above (cp_late_mark pos) es) as Hes.
      { apply H; [|by intros ? ? ?%elem_of_nil]. intros kv [Hle _]%elem_of_lfilter. bool_to_prop. unfold sat_add in Hle. lia. }
      case_goal; [|done]. pose proof (normal_walk_tags count f pos (cp_late_mark pos) (entries (inner ring)) es scanned Hes).
      by destruct (normal_walk _ _ _ _ _ _).
  - split; [done|]. intros t' g (q & _ & Hq)%list_elem_of_omap Hg. unfold trace_step in Hq.
    destruct (entry_at _ _) as [e|]; [|done]. destruct (_ <=? _); [done|]. destruct (_ <=? _).
    + destruct (_ !! q) as [number|]; [|done]. destruct (number <=? cp_late_mark pos) eqn:E; simpl in Hq; [done|].
      case_match; [done|]. injection Hq as <-. injection Hg as <-. bool_to_prop. simpl. lia.
    + case_match; [|done]. by injection Hq as <-.
Qed.

(** What requests do to the bookmarks: any operation, or the commit of a read
    made from a handle taken before, of whatever the ring held at the time. *)
Inductive ReaderOp :=
  | ROther (op : BookOp)
  | RCommit (now : Z) (handle : nat) (how : ReadHow) (f : option ParsedFilter) (ring : InMemoryStore) (kept : nat).

Definition reader_step (w : BookWorld) (r : ReaderOp) : BookWorld :=
  match r with
  | ROther op => book_step w op
  | RCommit now i how f ring kept =>
      match w_handles w !! i with
      | Some c => mkWorld (commit_cursor now c (read_how how f (cursor_pos c) ring) kept (w_store w)).2 (w_handles w)
      | None => w
      end
  end.

(** The bare operation of a step, and the advances the steps land on a cursor. *)
Definition op_of (w : BookWorld) (r : ReaderOp) : BookOp :=
  match r with
  | ROther op => op
  | RCommit now i how f ring kept =>
      let pos := match w_handles w !! i with Some c => cursor_pos c | None => mkPos 0 0 0 end in
      let adv := advance_for kept (read_how how f pos ring) in BCommit now i (ca_seq adv) (ca_late_mark adv)
  end.
Fixpoint landings (q : string) (w : BookWorld) (rs : list ReaderOp) : list ((N * N) * (N * N)) :=
  match rs with
  | [] => []
  | r :: rs => landed q w (op_of w r) ++ landings q (reader_step w r) rs
  end.

(** Nothing but its readers moves [q]: no request removes, sweeps, replaces or
    restores over it, clears its session or renames to or from it. The mark a
    handle carries is a [u64]. *)
Definition leaves (q : string) (w : BookWorld) (r : ReaderOp) : Prop :=
  match r with
  | ROther (BCommit _ _ _ _) => False
  | ROther op => op_named op ∧ spares q w op
  | RCommit _ i _ _ _ _ => ∀ c, w_handles w !! i = Some c → cc_late_mark c ≤ u64_max
  end.
Fixpoint run_leaves (q : string) (w : BookWorld) (rs : list ReaderOp) : Prop :=
  match rs with
  | [] => True
  | r :: rs => leaves q w r ∧ run_leaves q (reader_step w r) rs
  end.

Lemma reader_book w r : reader_step w r = book_step w (op_of w r).
Proof. destruct r as [op|now i how f ring kept]; [done|]. simpl. by destruct (w_handles w !! i). Qed.

Lemma leaves_spares q w r : leaves q w r → op_named (op_of w r) ∧ spares q w (op_of w r).
Proof.
  destruct r as [op|now i how f ring kept]; [by destruct op|]. intros Hu. split; [done|]. simpl. intros c Hc. rewrite Hc.
  destruct (read_forward how f (cursor_pos c) ring (Hu c Hc)) as [Hp Ht].
  set (r := read_how how f (cursor_pos c) ring) in *.
  pose proof (advance_forward kept r) as H. rewrite Hp in H. by apply H.
Qed.

Lemma readers_run q rs : ∀ w,
  run_leaves q w rs → ∃ ops, foldl reader_step w rs = foldl book_step w ops ∧ landings q w rs = landed_run q w ops ∧
    run_spares q w ops.
Proof.
  induction rs as [|r rs IH]; intros w; [by exists []|]. intros [Hr Hrs].
  destruct (IH _ Hrs) as (ops & E1 & E2 & Hs). destruct (leaves_spares _ _ _ Hr) as [Hn Hsp].
  rewrite reader_book in E1, E2, Hs. exists (op_of w r :: ops). cbn [foldl landings landed_run run_spares].
  rewrite reader_book, E1, E2. done.
Qed.

(** C7: a cursor's reads never overlap and never leave a hole, however many
    requests read it at once. Reads of the ring are made from the position a
    request found when it opened the cursor, each of a page or of one trace, on
    whatever the ring held then, and committed later, with any other requests in
    between, reads of the same cursor and their commits included. As long as
    nothing removes, sweeps, replaces or restores over the cursor, clears its
    session or renames that session or another one onto it (sessions are named
    without a slash, as every valid name is), the advances that land on it form
    one chain from its old position to its new one: each starts where the one
    before it ended, and the position never moves back. Of several reads taken at
    one position, only the first to commit an advance lands. *)
Theorem landed_chain q w rs p :
  world_ok w → run_leaves q w rs → pos_of q w = Some p →
  ∃ p', pos_of q (foldl reader_step w rs) = Some p' ∧ chain p (landings q w rs) p'.
Proof.
  intros Hw Hl Hp. destruct (readers_run q rs w Hl) as (ops & -> & -> & Hs). by apply forward_chain.
Qed.
End readers.

(** ** The properties at concrete inputs *)

Definition sample_filter : ParsedFilter := Qualifiers [CursorFilter "c"; LevelFilter LGte Info].
Definition sample_start : list StoreOp := [OpAppend (log_at 4 "a")].
Definition sample_events : list CursorEvent :=
  [CWrite (OpAppend (log_at 9 "b")); CRead 10 10;
   CWrite (OpInsertSorted [log_at 6 "c"; log_at 7 "d"]); CRead 1 1; CRead 10 10].

Example sample_delivery :
  seq <$> (cursor_run sample_filter sample_events 5 (run_ops sample_start (new 8))).2 = [9; 6; 7].
Proof. by vm_compute. Qed.

Lemma cursor_exactly_once_witness :
  ops_ok (sample_start ++ writes sample_events) ∧
  let '(s, pos, D) := cursor_run sample_filter sample_events 5 (run_ops sample_start (new 8)) in
  NoDup (seq <$> D) ∧
  (∀ d, d ∈ D → 5 < seq d ∧ wants sample_filter d = true) ∧
  (∀ e, e ∈ entries (inner s) → 5 < seq e → wants sample_filter e = true →
    e ∈ D ∨ owed sample_filter pos s e).
Proof.
  assert (ops_ok (sample_start ++ writes sample_events)) as Hok by by_eval.
  assert (N.of_nat (length (offered (sample_start ++ writes sample_events))) < u64_max) as Hlen
    by by vm_compute.
  split; [exact Hok|].
  exact (cursor_exactly_once 8 sample_start 5 sample_filter sample_events Hok
    Hlen eq_refl).
Defined.

Lemma cursor_catches_up_witness :
  ops_ok (sample_start ++ writes sample_events) ∧
  let '(s, pos, D) := cursor_run sample_filter (sample_events ++ [CRead 9 9]) 5
                         (run_ops sample_start (new 8)) in
   ∀ e, e ∈ entries (inner s) → 5 < seq e → wants sample_filter e = true → e ∈ D.
Proof.
  assert (ops_ok (sample_start ++ writes sample_events)) as Hok by by_eval.
  assert (N.of_nat (length (offered (sample_start ++ writes sample_events))) < u64_max) as Hlen
    by by vm_compute.
  assert ((8 < 9)%nat ∧ (9 ≤ 9)%nat) as [H1 H2] by lia.
  split; [exact Hok|].
  exact (cursor_catches_up 8 sample_start 5 sample_filter sample_events 9 9 Hok
    Hlen eq_refl H1 H2).
Defined.

(** A cursor at 3 in session [A], opened twice before either read commits; a
    record stored late comes in between. *)
Definition sample_ring (late : list LogEntry) : InMemoryStore :=
  run_ops [OpAppend (log_at 4 "a"); OpAppend (log_at 7 "b"); OpInsertSorted late] (new 8).
Definition sample_readers : list ReaderOp :=
  [ROther (BOpen 1 "A" "c" 0); ROther (BOpen 1 "A" "c" 0);
   RCommit 1 2 (ByCount 9) None (sample_ring []) 9; RCommit 1 1 (ByCount 1) None (sample_ring []) 1;
   ROther (BOpen 2 "A" "c" 0); ROther (BSweep (λ _, None) 2 2); ROther (BClear "B");
   RCommit 2 3 (ByCount 9) None (sample_ring [log_at 5 "c"]) 9].

Example sample_landings : landings "A/c" sample_world sample_readers = [((3, 0), (7, 0)); ((7, 0), (7, 1))].
Proof. by vm_compute. Qed.

(** A side condition on what the world holds, read off by evaluation. *)
Ltac by_handle :=
  intros ? H; vm_compute in H; injection H as <-; vm_compute; repeat split; discriminate.

Lemma landed_chain_witness :
  ∃ p', pos_of "A/c" (foldl reader_step sample_world sample_readers) = Some p' ∧
    chain (3, 0) (landings "A/c" sample_world sample_readers) p'.
Proof.
  apply (landed_chain "A/c" sample_world sample_readers (3, 0) sample_world_ok); [|by vm_compute].
  do 2 (split; [split; [reflexivity|exact I]|]). do 2 (split; [by_handle|]).
  split; [split; [reflexivity|exact I]|]. do 2 (split; [split; [exact I|by_handle]|]).
  split; [by_handle|exact I].
Defined.
