(* ===== verification/Sdk.v ===== *)
(** * Sdk: the client's filter builder ([sdk/src/filter.rs])

    One constructor per method of [FilterBuilder]; a builder is the list of the
    qualifiers pushed so far. What it writes, the broker's parser reads back. *)

From S2P Require Import Prelude Text F64 Gelf Filter Samples.
From Stdlib Require Import SpecFloat.

Set Default Proof Using "Type".
Local Open Scope N_scope.

Inductive SdkLevel := LvError | LvWarn | LvInfo | LvDebug | LvTrace.
Definition level_as_str (l : SdkLevel) : string :=
  match l with
  | LvError => "ERROR" | LvWarn => "WARN" | LvInfo => "INFO" | LvDebug => "DEBUG" | LvTrace => "TRACE"
  end.

Inductive FilterSpanStatus := FsOk | FsError | FsUnset.
Definition status_as_str (s : FilterSpanStatus) : string :=
  match s with FsOk => "ok" | FsError => "error" | FsUnset => "unset" end.

Inductive FilterSpanKind := FkServer | FkClient | FkProducer | FkConsumer | FkInternal.
Definition kind_as_str (k : FilterSpanKind) : string :=
  match k with
  | FkServer => "server" | FkClient => "client" | FkProducer => "producer"
  | FkConsumer => "consumer" | FkInternal => "internal"
  end.

Definition dquote : ascii := ascii_of_N 34.
Definition backslash : ascii := ascii_of_N 92.

(** [value.replace('"', "\\\"")], a backslash before each quote. *)
Fixpoint escape_quotes (s : string) : string :=
  match s with
  | EmptyString => EmptyString
  | String a s =>
      if Ascii.eqb a dquote then String backslash (String dquote (escape_quotes s))
      else String a (escape_quotes s)
  end.

Definition esc (value : string) : string :=
  if str_has "," value || str_has dquote value
  then String dquote (escape_quotes value +:+ String dquote "") else value.

(** [trim_matches('/')]. *)
Fixpoint trim_start_slashes (s : string) : string :=
  match s with
  | String a s' => if Ascii.eqb a "/" then trim_start_slashes s' else s
  | EmptyString => EmptyString
  end.
Definition trim_slashes (s : string) : string :=
  str_rev (trim_start_slashes (str_rev (trim_start_slashes s))).

Definition regex_lit (pattern : string) (case_insensitive : bool) : string :=
  if case_insensitive then "/" +:+ trim_slashes pattern +:+ "/i" else "/" +:+ trim_slashes pattern +:+ "/".

Inductive Call :=
  | MatchAll | MatchNone
  | LevelAtLeast (l : SdkLevel) | LevelAtMost (l : SdkLevel) | LevelEq (l : SdkLevel)
  | PatternSub (sub : string) | PatternRegex (r : string) (ci : bool)
  | MessageSub (sub : string) | MessageRegex (r : string) (ci : bool)
  | FullMessageSub (sub : string) | FullMessageRegex (r : string) (ci : bool)
  | MessageOrFullSub (sub : string) | MessageOrFullRegex (r : string) (ci : bool)
  | HostSub (sub : string) | HostRegex (r : string) (ci : bool)
  | FacilitySub (sub : string) | FacilityRegex (r : string) (ci : bool)
  | FileSub (sub : string) | FileRegex (r : string) (ci : bool)
  | LineIs (n : N)
  | SpanNameSub (sub : string) | SpanNameRegex (r : string) (ci : bool)
  | ServiceSub (sub : string) | ServiceRegex (r : string) (ci : bool)
  | SpanStatusIs (s : FilterSpanStatus) | SpanKindIs (k : FilterSpanKind)
  | DurationAtLeastMs (ms : N) | DurationAtMostMs (ms : N)
  | BookmarkAfter (name : string) | BookmarkBefore (name : string) | CursorRead (name : string)
  | AdditionalFieldSub (name value : string) | AdditionalFieldRegex (name r : string) (ci : bool).

(** The qualifier a method pushes. *)
Definition pushed (c : Call) : string :=
  match c with
  | MatchAll => "ALL" | MatchNone => "NONE"
  | LevelAtLeast l => "l>=" +:+ level_as_str l
  | LevelAtMost l => "l<=" +:+ level_as_str l
  | LevelEq l => "l=" +:+ level_as_str l
  | PatternSub s => esc s | PatternRegex r ci => regex_lit r ci
  | MessageSub s => "m=" +:+ esc s | MessageRegex r ci => "m=" +:+ regex_lit r ci
  | FullMessageSub s => "fm=" +:+ esc s | FullMessageRegex r ci => "fm=" +:+ regex_lit r ci
  | MessageOrFullSub s => "mfm=" +:+ esc s | MessageOrFullRegex r ci => "mfm=" +:+ regex_lit r ci
  | HostSub s => "h=" +:+ esc s | HostRegex r ci => "h=" +:+ regex_lit r ci
  | FacilitySub s => "fa=" +:+ esc s | FacilityRegex r ci => "fa=" +:+ regex_lit r ci
  | FileSub s => "fi=" +:+ esc s | FileRegex r ci => "fi=" +:+ regex_lit r ci
  | LineIs n => "ln=" +:+ pretty n
  | SpanNameSub s => "sn=" +:+ esc s | SpanNameRegex r ci => "sn=" +:+ regex_lit r ci
  | ServiceSub s => "sv=" +:+ esc s | ServiceRegex r ci => "sv=" +:+ regex_lit r ci
  | SpanStatusIs s => "st=" +:+ status_as_str s
  | SpanKindIs k => "sk=" +:+ kind_as_str k
  | DurationAtLeastMs ms => "d>=" +:+ pretty ms
  | DurationAtMostMs ms => "d<=" +:+ pretty ms
  | BookmarkAfter name => "b>=" +:+ name
  | BookmarkBefore name => "b<=" +:+ name
  | CursorRead name => "c>=" +:+ name
  | AdditionalFieldSub name v => name +:+ "=" +:+ esc v
  | AdditionalFieldRegex name r ci => name +:+ "=" +:+ regex_lit r ci
  end.

Definition FilterBuilder : Type := list string.
Definition builder : FilterBuilder := [].
Definition push_call (b : FilterBuilder) (c : Call) : FilterBuilder := b ++ [pushed c].

(** [join(", ")]. *)
Definition build (b : FilterBuilder) : string := String.concat ", " b.

(** A chain of calls on a new builder. *)
Definition built (cs : list Call) : string := build (foldl push_call builder cs).

Example build_two : built [LevelAtLeast LvError; MessageSub "started"] = "l>=ERROR, m=started"%string.
Proof. reflexivity. Qed.

(** ** Splitting at the commas *)

(** The scan passes over [t] and comes out unquoted. *)
Definition passes (t : string) : Prop :=
  ∀ s cur toks, split_loop (t +:+ s) cur false toks = split_loop s (str_rev_app t cur) false toks.

Lemma passes_app s t : passes s → passes t → passes (s +:+ t).
Proof. intros Hs Ht r cur toks. by rewrite <-(assoc_L String.append), Hs, Ht, str_rev_app_app. Qed.

Definition plain (t : string) : bool := negb (str_has "," t) && negb (str_has dquote t).

Lemma passes_plain t : plain t = true → passes t.
Proof.
  unfold plain. induction t as [|a t IH]; [done|]. intros [Hc Hq]%andb_true_iff. intros s cur toks.
  rewrite String_app_cons. simpl in *. unfold quote. fold dquote.
  destruct (Ascii.eqb a dquote); [done|]. destruct (Ascii.eqb a ","); [done|]. simpl.
  apply IH. by apply andb_true_iff.
Qed.

Lemma passes_quoted t : str_has dquote t = false → passes (String dquote (t +:+ String dquote "")).
Proof.
  intros Ht s cur toks. rewrite String_app_cons, <-(assoc_L String.append). simpl. rewrite str_rev_app_app. simpl.
  generalize (String dquote cur). clear cur. revert Ht. induction t as [|a t IH]; intros Ht cur; [done|].
  rewrite String_app_cons. simpl in *. unfold quote. fold dquote.
  destruct (Ascii.eqb a dquote); [done|]. rewrite andb_false_r. by apply IH.
Qed.

Definition spaced (t : string) : string := String " " t.

Lemma split_tokens ts t : Forall passes ts → passes t →
  split_on_commas (String.concat ", " (t :: ts)) = inr (t :: (spaced <$> ts)).
Proof.
  intros Hts Ht. unfold split_on_commas.
  enough (∀ cur toks, passes t → split_loop (String.concat ", " (t :: ts)) cur false toks =
            inr (toks ++ str_rev (str_rev_app t cur) :: (spaced <$> ts))) as H.
  { rewrite H by done. simpl. fold (str_rev t). by rewrite str_rev_involutive. }
  clear Ht. revert t. induction Hts as [|u ts Hu Hts IH]; intros t cur toks Ht.
  - simpl. rewrite <-(right_id_L "" String.append t) at 1. rewrite Ht. done.
  - change (String.concat ", " (t :: u :: ts)) with (t +:+ ", " +:+ String.concat ", " (u :: ts))%string.
    rewrite Ht. specialize (IH u " " (toks ++ [str_rev (str_rev_app t cur)]) Hu).
    change (split_loop (", " +:+ String.concat ", " (u :: ts)) (str_rev_app t cur) false toks)
      with (split_loop (String.concat ", " (u :: ts)) " " false (toks ++ [str_rev (str_rev_app t cur)])).
    rewrite IH, <-(assoc_L app). cbn [fmap list_fmap app]. unfold spaced at 2.
    change (str_rev_app u " ") with (str_rev_app (String " " u) ""). fold (str_rev (String " " u)).
    by rewrite str_rev_involutive.
Qed.

(** ** The characters of a name *)

Definition name_char (a : ascii) : bool :=
  is_ascii_alphanumeric a || Ascii.eqb a "-" || Ascii.eqb a "_" || Ascii.eqb a "/".

Lemma name_char_ok a :
  name_char a = true →
  not_head white_space a = true ∧ not_head rwhite_space a = true ∧ Ascii.eqb a "," = false ∧ Ascii.eqb a dquote = false.
Proof.
  assert (∀ a, implb (name_char a) (not_head white_space a && not_head rwhite_space a
                 && negb (Ascii.eqb a ",") && negb (Ascii.eqb a dquote)) = true) as H.
  { apply every_ascii. vm_compute. reflexivity. }
  specialize (H a). intros Hn. rewrite Hn in H. cbn [implb] in H.
  by apply andb_true_iff in H as [[[? ?]%andb_true_iff ?%negb_true_iff]%andb_true_iff ?%negb_true_iff].
Qed.

Lemma name_tight s : s ≠ EmptyString → str_forall name_char s = true → tight s ∧ plain s = true.
Proof.
  intros Hs H. split; [split; [done|..]|].
  - destruct s as [|a s]; [done|]. apply andb_true_iff in H as [Ha _]. by apply no_lead_head, name_char_ok.
  - unfold no_trail. apply str_rev_nonempty in Hs. rewrite <-str_forall_rev in H.
    destruct (str_rev s) as [|a t]; [done|]. apply andb_true_iff in H as [Ha _]. by apply strip_any_head, name_char_ok.
  - clear Hs. unfold plain. induction s as [|a s IH]; [done|]. simpl in *. apply andb_true_iff in H as [Ha H].
    apply name_char_ok in Ha as (_&_&->&->). by apply IH.
Qed.

(** ** The right-hand sides the builder writes *)

Definition unquoted (rhs : string) : string := match unquote rhs with Some inner => inner | None => rhs end.

Section tokens.
Context {X : Externals} {L : ExternalsLaws X}.

(** [rhs] is written so that it reads back as [res]. *)
Record rhs_reads (rhs : string) (res : parse_res Pattern) : Prop := {
  rr_passes : passes rhs;
  rr_trim : trim rhs = rhs;
  rr_parse : parse_pattern (unquoted rhs) = res;
}.

Definition regex_pattern (r : string) (ci : bool) : parse_res Pattern :=
  match Regex_new (if ci then "(?i)" +:+ trim_slashes r else trim_slashes r)%string with
  | inl e => inl (InvalidRegex e)
  | inr c => inr (PRegex (trim_slashes r) c ci)
  end.

Lemma parse_pattern_sub v : starts_with "/" v = false → parse_pattern v = inr (Substring (to_lowercase v)).
Proof.
  unfold parse_pattern, starts_with. intros H. by destruct (strip_prefix "/" v).
Qed.

Lemma unquote_no_quote v : str_has dquote v = false → unquote v = None.
Proof.
  intros H. unfold unquote. change quote with dquote.
  assert (starts_with (String dquote "") v = false) as ->; [|done].
  apply not_true_iff_false. intros (r & ->)%starts_with_spec. discriminate H.
Qed.

Lemma reads_plain v :
  plain v = true → trim v = v → starts_with "/" v = false → rhs_reads v (inr (Substring (to_lowercase v))).
Proof.
  intros Hp Ht Hs. split; [by apply passes_plain|done|]. unfold unquoted.
  rewrite unquote_no_quote; [by apply parse_pattern_sub|].
  unfold plain in Hp. apply andb_true_iff in Hp as [_ Hp%negb_true_iff]. done.
Qed.

Lemma substring_app v t : String.substring 0 (String.length v) (v +:+ t) = v.
Proof. induction v as [|a v IH]; [by destruct t|]. rewrite String_app_cons. simpl. by rewrite IH. Qed.

Lemma unquote_quoted v : unquote (String dquote (v +:+ String dquote "")) = Some v.
Proof.
  unfold unquote. change quote with dquote.
  assert (starts_with (String dquote "") (String dquote (v +:+ String dquote "")) = true) as ->.
  { apply starts_with_spec. by eexists. }
  assert (ends_with (String dquote "") (String dquote (v +:+ String dquote "")) = true) as ->.
  { unfold ends_with. rewrite <-String_app_cons, str_rev_append. apply starts_with_spec. by eexists. }
  simpl String.length. rewrite str_length_app. simpl String.length.
  replace (S (String.length v + 1) - 2)%nat with (String.length v) by lia.
  destruct (Nat.leb_spec 2 (S (String.length v + 1))); [|lia]. simpl. by rewrite substring_app.
Qed.

Lemma quoted_tight v : tight (String dquote (v +:+ String dquote "")).
Proof.
  split; [done|by apply no_lead_head|]. rewrite <-String_app_cons. by apply no_trail_last.
Qed.

Lemma escape_quotes_id v : str_has dquote v = false → escape_quotes v = v.
Proof.
  induction v as [|a v IH]; [done|]. simpl. intros [Ha Hv]%orb_false_iff. rewrite Ha. by rewrite IH.
Qed.

Lemma esc_eq v :
  str_has dquote v = false →
  esc v = if str_has "," v then String dquote (v +:+ String dquote "") else v.
Proof. intros H. unfold esc. rewrite H, orb_false_r, escape_quotes_id by done. done. Qed.

(** A value without a quote, that does not read as a regex, and blank at the ends
    only if it is quoted anyway. *)
Record clean_value (v : string) : Prop := {
  cv_quote : str_has dquote v = false;
  cv_slash : starts_with "/" v = false;
  cv_trim : str_has "," v = true ∨ trim v = v;
}.

Lemma reads_esc v : clean_value v → rhs_reads (esc v) (inr (Substring (to_lowercase v))).
Proof.
  intros [Hq Hs Ht]. rewrite esc_eq by done. destruct (str_has "," v) eqn:Hc.
  - split; [by apply passes_quoted|apply tight_trim, quoted_tight|].
    unfold unquoted. rewrite unquote_quoted. by apply parse_pattern_sub.
  - destruct Ht as [|Ht]; [done|]. apply reads_plain; [|done|done]. unfold plain. by rewrite Hc, Hq.
Qed.

Lemma str_has_trim c s : str_has c s = false → str_has c (trim_slashes s) = false.
Proof.
  assert (∀ s, str_has c s = false → str_has c (trim_start_slashes s) = false) as H.
  { clear s. induction s as [|a s IH]; [done|]. intros H. simpl. destruct (Ascii.eqb a "/"); [|done].
    apply IH. simpl in H. by apply orb_false_iff in H as [_ H]. }
  intros Hs. unfold trim_slashes. rewrite str_has_rev. apply H. rewrite str_has_rev. by apply H.
Qed.

Definition flags_of (ci : bool) : string := if ci then "i" else "".

Lemma regex_lit_eq r ci :
  regex_lit r ci = String "/" (trim_slashes r +:+ String "/" (flags_of ci)).
Proof. by destruct ci. Qed.

Lemma parse_regex_lit r ci : parse_pattern (regex_lit r ci) = regex_pattern r ci.
Proof.
  rewrite regex_lit_eq. unfold parse_pattern. cbn [strip_prefix Ascii.eqb Bool.eqb].
  rewrite rsplit_once_last by by destruct ci.
  replace (str_contains "i" (flags_of ci)) with ci by by destruct ci. done.
Qed.

Lemma regex_lit_tight r ci : tight (regex_lit r ci).
Proof.
  rewrite regex_lit_eq. split; [done|by apply no_lead_head|].
  destruct ci; simpl flags_of.
  - replace (String "/" (trim_slashes r +:+ "/i")) with ((String "/" (trim_slashes r +:+ "/")) +:+ "i")%string.
    + by apply no_trail_last.
    + by rewrite String_app_cons, <-(assoc_L String.append).
  - rewrite <-String_app_cons. by apply no_trail_last.
Qed.

Lemma reads_regex r ci : plain r = true → rhs_reads (regex_lit r ci) (regex_pattern r ci).
Proof.
  unfold plain. intros [Hc%negb_true_iff Hq%negb_true_iff]%andb_true_iff.
  assert (plain (regex_lit r ci) = true) as Hp.
  { unfold plain. rewrite regex_lit_eq. cbn [str_has]. rewrite !str_has_app, !str_has_trim by done. by destruct ci. }
  split; [by apply passes_plain|apply tight_trim, regex_lit_tight|].
  unfold unquoted. rewrite unquote_no_quote; [apply parse_regex_lit|].
  unfold plain in Hp. apply andb_true_iff in Hp as [_ Hp%negb_true_iff]. done.
Qed.
End tokens.

(** ** Selectors *)

Section roundtrip.
Context {X : Externals} {L : ExternalsLaws X}.

(** A name the parser takes as the left-hand side of a [name=value] token. *)
Record selector_name (n : string) : Prop := {
  sn_tight : tight n;
  sn_plain : plain n = true;
  sn_eq : str_has "=" n = false;
  sn_slash : starts_with "/" n = false;
  sn_ops : ends_with ">" n = false ∧ ends_with "<" n = false;
  sn_level : n ≠ "l"%string;
}.

Lemma eq_prefix p n r :
  str_has "=" p = false → str_has "=" n = false → p ≠ n →
  strip_prefix (p +:+ "=") (n +:+ String "=" r) = None.
Proof.
  intros Hp Hn Hne. destruct (strip_prefix _ _) as [x|] eqn:E; [|done]. apply strip_prefix_Some in E.
  rewrite <-(assoc_L String.append) in E.
  pose proof (split_once_first "=" n r Hn) as H1. pose proof (split_once_first "=" p x Hp) as H2.
  rewrite E in H1. change (p +:+ "=" +:+ x)%string with (p +:+ String "=" x)%string in H1. congruence.
Qed.

Lemma starts_with_app c n r : n ≠ EmptyString → starts_with (String c "") n = false →
  starts_with (String c "") (n +:+ r) = false.
Proof.
  intros Hn H. destruct n as [|a n]; [done|]. unfold starts_with in *. rewrite String_app_cons. simpl in *.
  destruct (Ascii.eqb c a); [|done]. apply bool_decide_eq_false in H. destruct H. by eexists.
Qed.

Lemma selector_parse n rhs res :
  selector_name n → rhs_reads rhs res → tight (n +:+ String "=" rhs) →
  parse_token (n +:+ String "=" rhs) = match res with
                                        | inl e => inl e
                                        | inr p => inr (SelectorPattern (parse_selector n) p)
                                        end.
Proof.
  intros [Ht Hp He Hs [Hgt Hlt] Hl] [_ Htr Hres] Hw. unfold parse_token. rewrite (tight_trim _ Hw).
  assert (∀ p, ends_with ">" p = true ∨ ends_with "<" p = true → p ≠ n) as Hop.
  { intros p [H|H] ->; congruence. }
  assert (∀ q p, q = (p +:+ "=")%string → str_has "=" p = false → p ≠ n →
    strip_prefix q (n +:+ String "=" rhs) = None) as Hx by (intros q p ->; intros; by apply eq_prefix).
  rewrite (Hx "l>=" "l>")%string, (Hx "l<=" "l<")%string, (Hx "l=" "l")%string, (Hx "d>=" "d>")%string,
    (Hx "d<=" "d<")%string, (Hx "b>=" "b>")%string, (Hx "b<=" "b<")%string, (Hx "c>=" "c>")%string
    by (done || (apply Hop; vm_compute; by auto)).
  unfold pattern_token.
  assert (starts_with "c<=" (n +:+ String "=" rhs) = false) as ->.
  { unfold starts_with. rewrite (Hx "c<=" "c<")%string by (done || (apply Hop; vm_compute; by auto)). done. }
  unfold plain in Hp. apply andb_true_iff in Hp as [_ Hq%negb_true_iff].
  assert (n ≠ EmptyString) as Hn by apply Ht.
  assert (unquote (n +:+ String "=" rhs) = None) as ->.
  { unfold unquote. change quote with dquote. rewrite starts_with_app; [done|done|].
    apply not_true_iff_false. intros (r & ->)%starts_with_spec. discriminate Hq. }
  rewrite starts_with_app by done. unfold selector_token. rewrite split_once_first by done.
  rewrite (tight_trim n) by done. destruct (String.eqb_spec n "") as [->|_]; [done|]. rewrite Hgt, Hlt. simpl orb.
  rewrite Htr. fold (unquoted rhs). rewrite Hres. done.
Qed.

Lemma selector_tight n rhs : tight n → trim rhs = rhs → tight (n +:+ String "=" rhs).
Proof.
  intros [H1 H2 H3] [_ Hr]%trim_id. split; [by destruct n|by apply no_lead_app|].
  destruct (decide (rhs = EmptyString)) as [->|Hne]; [by apply no_trail_last|by apply no_trail_app].
Qed.

(** How a token is read, alone and in a list. *)
Record reads_as (t : string) (res : parse_res Qualifier) : Prop := {
  ra_tight : tight t;
  ra_passes : passes t;
  ra_parse : parse_token t = res;
}.

Lemma selector_reads n rhs res :
  selector_name n → rhs_reads rhs res →
  reads_as (n +:+ String "=" rhs) (match res with
                                   | inl e => inl e
                                   | inr p => inr (SelectorPattern (parse_selector n) p)
                                   end).
Proof.
  intros Hn Hr. assert (tight (n +:+ String "=" rhs)) as Ht.
  { apply selector_tight; [apply Hn|apply Hr]. }
  split; [done| |by apply selector_parse].
  apply passes_app; [apply passes_plain, Hn|].
  change (String "=" rhs) with ("=" +:+ rhs)%string. apply passes_app; [by apply passes_plain|apply Hr].
Qed.

(** ** Calls *)

Definition level_of (l : SdkLevel) : Level :=
  match l with
  | LvError => Error | LvWarn => Warn | LvInfo => Info | LvDebug => Debug | LvTrace => Trace
  end.

Definition sub_of (sel : Selector) (v : string) : parse_res Qualifier :=
  inr (SelectorPattern sel (Substring (to_lowercase v))).
Definition regex_of (mk : Pattern → Qualifier) (r : string) (ci : bool) : parse_res Qualifier :=
  match regex_pattern r ci with inl e => inl e | inr p => inr (mk p) end.

(** What each method means: the qualifier the caller asked for, or the regex
    crate's refusal of the pattern. *)
Definition meaning (c : Call) : parse_res Qualifier :=
  match c with
  | MatchAll => inr (BarePattern (Substring (to_lowercase "ALL")))
  | MatchNone => inr (BarePattern (Substring (to_lowercase "NONE")))
  | LevelAtLeast l => inr (LevelFilter LGte (level_of l))
  | LevelAtMost l => inr (LevelFilter LLte (level_of l))
  | LevelEq l => inr (LevelFilter LEq (level_of l))
  | PatternSub s => inr (BarePattern (Substring (to_lowercase s)))
  | PatternRegex r ci => regex_of BarePattern r ci
  | MessageSub s => sub_of Message s | MessageRegex r ci => regex_of (SelectorPattern Message) r ci
  | FullMessageSub s => sub_of FullMessage s | FullMessageRegex r ci => regex_of (SelectorPattern FullMessage) r ci
  | MessageOrFullSub s => sub_of MessageOrFull s
  | MessageOrFullRegex r ci => regex_of (SelectorPattern MessageOrFull) r ci
  | HostSub s => sub_of Host s | HostRegex r ci => regex_of (SelectorPattern Host) r ci
  | FacilitySub s => sub_of Facility s | FacilityRegex r ci => regex_of (SelectorPattern Facility) r ci
  | FileSub s => sub_of File s | FileRegex r ci => regex_of (SelectorPattern File) r ci
  | LineIs n => sub_of Line (pretty n)
  | SpanNameSub s => sub_of SpanName s | SpanNameRegex r ci => regex_of (SelectorPattern SpanName) r ci
  | ServiceSub s => sub_of ServiceName s | ServiceRegex r ci => regex_of (SelectorPattern ServiceName) r ci
  | SpanStatusIs s => sub_of SpanStatusSel (status_as_str s)
  | SpanKindIs k => sub_of SpanKindSel (kind_as_str k)
  | DurationAtLeastMs ms => inr (DurationFilter DGte (decimal_to_f64 false (Z.of_N ms) 0))
  | DurationAtMostMs ms => inr (DurationFilter DLte (decimal_to_f64 false (Z.of_N ms) 0))
  | BookmarkAfter name => inr (BookmarkFilter BGte name)
  | BookmarkBefore name => inr (BookmarkFilter BLte name)
  | CursorRead name => inr (CursorFilter name)
  | AdditionalFieldSub name v => sub_of (AdditionalField name) v
  | AdditionalFieldRegex name r ci => regex_of (SelectorPattern (AdditionalField name)) r ci
  end.

(** A bare word: quoted if it holds a comma, else one that no other branch of
    the parser claims. *)
Definition clean_bare (s : string) : Prop :=
  str_has dquote s = false ∧
  (str_has "," s = true ∨ tight s ∧ str_has "=" s = false ∧ starts_with "/" s = false).

Definition clean (c : Call) : Prop :=
  match c with
  | PatternSub s => clean_bare s
  | MessageSub s | FullMessageSub s | MessageOrFullSub s | HostSub s | FacilitySub s | FileSub s
  | SpanNameSub s | ServiceSub s => clean_value s
  | PatternRegex r _ | MessageRegex r _ | FullMessageRegex r _ | MessageOrFullRegex r _ | HostRegex r _
  | FacilityRegex r _ | FileRegex r _ | SpanNameRegex r _ | ServiceRegex r _ => plain r = true
  | BookmarkAfter name | BookmarkBefore name | CursorRead name => is_valid_bookmark_token name = true
  | AdditionalFieldSub name v =>
      selector_name name ∧ parse_selector name = AdditionalField name ∧ clean_value v
  | AdditionalFieldRegex name r _ =>
      selector_name name ∧ parse_selector name = AdditionalField name ∧ plain r = true
  | LineIs n | DurationAtLeastMs n | DurationAtMostMs n => n < 4294967296
  | _ => True
  end.

Definition selector_nameb (n : string) : bool :=
  negb (String.eqb n "") && String.eqb (trim n) n && plain n && negb (str_has "=" n)
  && negb (starts_with "/" n) && negb (ends_with ">" n) && negb (ends_with "<" n) && negb (String.eqb n "l").

Lemma selector_nameb_spec n : selector_nameb n = true → selector_name n.
Proof.
  unfold selector_nameb. intros [[[[[[[H1 H2]%andb_true_iff H3]%andb_true_iff H4]%andb_true_iff
    H5]%andb_true_iff H6]%andb_true_iff H7]%andb_true_iff H8]%andb_true_iff.
  apply negb_true_iff in H1, H4, H5, H6, H7, H8. apply String.eqb_neq in H1, H8. apply String.eqb_eq in H2.
  apply trim_id in H2 as [? ?]. by repeat split.
Qed.

Lemma sub_reads n v sel :
  selector_name n → parse_selector n = sel → clean_value v → reads_as (n +:+ String "=" (esc v)) (sub_of sel v).
Proof. intros Hn <- Hv. exact (selector_reads n _ _ Hn (reads_esc v Hv)). Qed.

Lemma regex_reads n r ci sel :
  selector_name n → parse_selector n = sel → plain r = true →
  reads_as (n +:+ String "=" (regex_lit r ci)) (regex_of (SelectorPattern sel) r ci).
Proof. intros Hn <- Hr. exact (selector_reads n _ _ Hn (reads_regex r ci Hr)). Qed.

Lemma word_reads n v sel :
  selector_name n → parse_selector n = sel → plain v = true → trim v = v → starts_with "/" v = false →
  reads_as (n +:+ String "=" v) (sub_of sel v).
Proof. intros Hn <- Hp Ht Hs. exact (selector_reads n v _ Hn (reads_plain v Hp Ht Hs)). Qed.

(** Tokens that start with one of the comparison prefixes. *)
Lemma prefixed_reads p c rest res :
  plain (p +:+ String c "") = true → tight p → separates white_space c = true → separates rwhite_space c = true →
  plain rest = true → tight rest →
  (tight ((p +:+ String c "") +:+ rest) → parse_token ((p +:+ String c "") +:+ rest) = res) →
  reads_as ((p +:+ String c "") +:+ rest) res.
Proof.
  intros Hp [P1 P2 P3] Hw Hr Hrp [R1 R2 R3] H.
  assert (tight ((p +:+ String c "") +:+ rest)) as Ht.
  { rewrite <-(assoc_L String.append). change (String c "" +:+ rest)%string with (String c rest).
    split; [by destruct p|by apply no_lead_app|by apply no_trail_app]. }
  split; [done| |by apply H]. apply passes_app; by apply passes_plain.
Qed.

Lemma level_named l : Level_from_name (level_as_str l) = Some (level_of l).
Proof using L. destruct l; unfold Level_from_name; rewrite to_uppercase_ascii by done; reflexivity. Qed.

Lemma digit_name a : is_ascii_digit a = true → name_char a = true.
Proof. intros H. unfold name_char, is_ascii_alphanumeric. by rewrite H. Qed.

Lemma pretty_tight n : n ≤ u64_max → tight (pretty n) ∧ plain (pretty n) = true ∧ starts_with "/" (pretty n) = false.
Proof.
  intros Hn. destruct (pretty_digits n Hn) as [Hp Hd].
  pose proof (pretty_not_empty n) as Hne.
  assert (str_forall name_char (pretty n) = true) as Hnc.
  { clear Hp Hne. induction (pretty n) as [|a s IH]; [done|]. simpl in *. apply andb_true_iff in Hd as [Ha Hd].
    rewrite digit_name by done. by apply IH. }
  destruct (name_tight _ Hne Hnc) as [? ?]. split_and!; [done|done|].
  apply not_true_iff_false. intros (r & E)%starts_with_spec. rewrite E in Hd. discriminate Hd.
Qed.

Lemma take_all_digits s : ∀ acc k v,
  str_forall is_ascii_digit s = true → parse_digits acc s = Some v →
  take_digits (Z.of_N acc) k s = (Z.of_N v, (k + String.length s)%nat, EmptyString).
Proof.
  induction s as [|a s IH]; intros acc k v; simpl.
  - intros _ [= ->]. by rewrite Nat.add_0_r.
  - intros [Ha Hs]%andb_true_iff. rewrite Ha. destruct (u64_max <? _); [done|]. intros Hv.
    assert (10 * Z.of_N acc + digit_val a = Z.of_N (10 * acc + (N_of_ascii a - 48)))%Z as ->.
    { unfold digit_val. lia. }
    rewrite (IH _ _ _ Hs Hv). f_equal. f_equal. lia.
Qed.

Lemma parse_f64_pretty n : n ≤ u64_max → parse_f64 (pretty n) = Some (decimal_to_f64 false (Z.of_N n) 0).
Proof.
  intros Hn. destruct (pretty_digits n Hn) as [Hp Hd]. destruct (pretty_tight n Hn) as [[Hne _ _] _].
  unfold parse_f64. destruct (pretty n) as [|a s] eqn:E; [done|]. assert (is_ascii_digit a = true) as Ha.
  { simpl in Hd. by apply andb_true_iff in Hd as [? _]. }
  assert (parse_sign (String a s) = (false, String a s)) as ->.
  { unfold parse_sign. destruct (Ascii.eqb_spec a "-") as [->|]; [discriminate Ha|].
    destruct (Ascii.eqb_spec a "+") as [->|]; [discriminate Ha|done]. }
  assert (∀ b x, ascii_lower b ≠ b ∨ is_ascii_digit b = false → str_map ascii_lower (String a s) ≠ String b x) as Hlow.
  { intros b x Hb [= E1 E2]. assert (ascii_lower a = a) as Hla.
    { unfold ascii_lower. unfold is_ascii_digit, in_range in *. apply andb_true_iff in Ha as [_ Ha].
      apply N.leb_le in Ha. destruct (N.leb_spec 65 (N_of_ascii a)); [lia|done]. }
    rewrite Hla in E1. subst b. rewrite Hla in Hb. destruct Hb; congruence. }
  cbn zeta. rewrite !bool_decide_eq_false_2 by (intros H; try destruct H as [H|H];
    (eapply Hlow; [|exact H]; right; reflexivity)).
  pose proof (take_all_digits _ 0 0 n Hd Hp) as Ht. change (Z.of_N 0) with 0%Z in Ht. rewrite Ht. simpl bool_decide. done.
Qed.

Lemma bare_reads s : clean_bare s → reads_as (esc s) (inr (BarePattern (Substring (to_lowercase s)))).
Proof.
  intros [Hq Hc]. rewrite esc_eq by done. destruct (str_has "," s) eqn:E.
  - split; [apply quoted_tight|by apply passes_quoted|].
    unfold parse_token. rewrite tight_trim by apply quoted_tight. cbn [strip_prefix Ascii.eqb Bool.eqb].
    unfold pattern_token. by rewrite unquote_quoted.
  - destruct Hc as [|(Ht & He & Hs)]; [done|]. split; [done|apply passes_plain; unfold plain; by rewrite E, Hq|].
    assert (∀ p, str_has "=" p = true → strip_prefix p s = None) as Hp.
    { intros p H. destruct (strip_prefix p s) as [x|] eqn:Ex; [|done]. apply strip_prefix_Some in Ex.
      rewrite Ex, str_has_app, H in He. done. }
    unfold parse_token. rewrite (tight_trim _ Ht), !Hp by done. unfold pattern_token.
    assert (starts_with "c<=" s = false) as -> by (unfold starts_with; by rewrite Hp).
    rewrite unquote_no_quote, Hs by done. unfold selector_token.
    destruct (split_once "=" s) as [[l r]|] eqn:Es; [|done].
    apply split_once_Some in Es. rewrite Es, str_has_app in He. simpl in He. by rewrite orb_true_r in He.
Qed.

Lemma bare_regex_reads r ci : plain r = true → reads_as (regex_lit r ci) (regex_of BarePattern r ci).
Proof.
  intros Hr. pose proof (reads_regex r ci Hr) as Hx. split; [apply regex_lit_tight|apply Hx|].
  unfold parse_token. rewrite tight_trim by apply regex_lit_tight. unfold regex_of. rewrite <-parse_regex_lit.
  assert (unquote (regex_lit r ci) = None) as Hu by (rewrite regex_lit_eq; reflexivity).
  unfold pattern_token. rewrite Hu, regex_lit_eq. reflexivity.
Qed.

Lemma bookmark_reads (mk : string → Qualifier) name :
  is_valid_bookmark_token name = true →
  bookmark_token mk name = inr (mk name) ∧ tight name ∧ plain name = true.
Proof.
  intros H. pose proof H as H0. unfold is_valid_bookmark_token in H.
  apply andb_true_iff in H as [Hne%negb_true_iff%String.eqb_neq Hall].
  destruct (name_tight _ Hne Hall) as [Ht Hp]. split; [|done]. unfold bookmark_token. rewrite (tight_trim _ Ht), H0.
  by destruct (String.eqb_spec name "").
Qed.

Lemma clean_word s :
  negb (String.eqb s "") && String.eqb (trim s) s && negb (str_has dquote s) && negb (str_has "=" s)
    && negb (starts_with "/" s) = true → clean_bare s.
Proof.
  intros [[[[H1 H2]%andb_true_iff H3]%andb_true_iff H4]%andb_true_iff H5]%andb_true_iff.
  apply negb_true_iff in H1, H3, H4, H5. apply String.eqb_neq in H1. apply String.eqb_eq, trim_id in H2 as [? ?].
  split; [done|]. right. by repeat split.
Qed.

(** Spells the written prefix [name=] as the name and an equals sign. *)
Ltac as_selector :=
  match goal with
  | |- reads_as (?p +:+ ?r) _ =>
      let n := eval vm_compute in (String.substring 0 (String.length p - 1) p) in
      change (p +:+ r)%string with (n +:+ String "=" r)%string
  end.
(** The same for a comparison [ident>=]. *)
Ltac as_prefixed :=
  match goal with
  | |- reads_as (?p +:+ ?r) _ =>
      let n := eval vm_compute in (String.substring 0 (String.length p - 1) p) in
      change (p +:+ r)%string with ((n +:+ String "=" "") +:+ r)%string
  end.

Lemma level_reads (n : string) op l :
  plain (n +:+ "=") = true → tight n →
  (∀ rest, tight ((n +:+ "=") +:+ rest) → parse_token ((n +:+ "=") +:+ rest) = level_token op rest) →
  reads_as ((n +:+ "=") +:+ level_as_str l) (inr (LevelFilter op (level_of l))).
Proof using L.
  intros Hn Ht H. apply prefixed_reads; [done|done|reflexivity|reflexivity|by destruct l| |].
  - apply name_tight; by destruct l.
  - intros Hw. rewrite H by done. unfold level_token. by rewrite level_named.
Qed.

Lemma duration_reads (n : string) op ms :
  plain (n +:+ "=") = true → tight n → ms ≤ u64_max →
  (∀ rest, tight ((n +:+ "=") +:+ rest) → parse_token ((n +:+ "=") +:+ rest) = duration_token op rest) →
  reads_as ((n +:+ "=") +:+ pretty ms) (inr (DurationFilter op (decimal_to_f64 false (Z.of_N ms) 0))).
Proof.
  intros Hn Ht Hms H. destruct (pretty_tight ms Hms) as (H1 & H2 & _).
  apply prefixed_reads; [done|done|reflexivity|reflexivity|done|done|].
  intros Hw. rewrite H by done. unfold duration_token. by rewrite parse_f64_pretty.
Qed.

Lemma named_reads (n : string) mk name :
  plain (n +:+ "=") = true → tight n → is_valid_bookmark_token name = true →
  (∀ rest, tight ((n +:+ "=") +:+ rest) → parse_token ((n +:+ "=") +:+ rest) = bookmark_token mk rest) →
  reads_as ((n +:+ "=") +:+ name) (inr (mk name)).
Proof.
  intros Hn Ht Hv H. destruct (bookmark_reads mk name Hv) as (H1 & H2 & H3).
  apply prefixed_reads; [done|done|reflexivity|reflexivity|done|done|]. intros Hw. by rewrite H.
Qed.

Lemma call_reads c : clean c → reads_as (pushed c) (meaning c).
Proof using L.
  assert (∀ n, n < 4294967296 → n ≤ u64_max) as Hu by (intros; unfold u64_max; lia).
  destruct c; cbn [clean pushed meaning]; intros Hc;
    try exact (bare_reads _ Hc); try exact (bare_regex_reads _ _ Hc);
    try (as_selector; apply sub_reads || apply regex_reads;
         [apply selector_nameb_spec; reflexivity|reflexivity|exact Hc]);
    try (as_prefixed; apply level_reads || (apply duration_reads; [..|by apply Hu|]) || (apply named_reads; [..|done|]);
         [reflexivity|by repeat split|intros rest Ht; unfold parse_token; rewrite (tight_trim _ Ht); reflexivity]).
  - apply (bare_reads "ALL"), clean_word. reflexivity.
  - apply (bare_reads "NONE"), clean_word. reflexivity.
  - destruct (pretty_tight n (Hu _ Hc)) as (H1 & H2 & H3). as_selector.
    apply word_reads; [by apply selector_nameb_spec|done|done|by apply tight_trim|done].
  - as_selector. by apply word_reads; [apply selector_nameb_spec|destruct s..].
  - as_selector. by apply word_reads; [apply selector_nameb_spec|destruct k..].
  - destruct Hc as (H1 & H2 & H3). by apply sub_reads.
  - destruct Hc as (H1 & H2 & H3). by apply regex_reads.
Qed.

(** ** Whole filters *)

Fixpoint meanings (cs : list Call) : parse_res (list Qualifier) :=
  match cs with
  | [] => inr []
  | c :: cs =>
      match meaning c, meanings cs with
      | inl e, _ => inl e
      | _, inl e => inl e
      | inr q, inr qs => inr (q :: qs)
      end
  end.

Lemma built_eq cs : built cs = String.concat ", " (pushed <$> cs).
Proof.
  unfold built, build. f_equal. enough (∀ b, foldl push_call b cs = b ++ (pushed <$> cs)) as H by by rewrite H.
  induction cs as [|c cs IH]; intros b; simpl; [by rewrite app_nil_r|]. rewrite IH. unfold push_call.
  by rewrite <-(assoc_L app).
Qed.

Lemma tight_concat ts t : Forall tight ts → tight t → tight (String.concat ", " (t :: ts)).
Proof.
  intros Hts. revert t. induction Hts as [|u ts Hu _ IH]; intros t Ht; [done|].
  exact (tight_join t "," "" " " (String.concat ", " (u :: ts)) eq_refl eq_refl Ht (IH u Hu)).
Qed.

Lemma parse_read_tokens f cs :
  (∀ t, tight t → trim (f t) = t) → Forall clean cs →
  parse_tokens (f <$> (pushed <$> cs)) = meanings cs.
Proof using L.
  intros Hf. induction 1 as [|c cs Hc _ IH]; [done|]. destruct (call_reads c Hc) as [Ht _ Hp]. cbn [fmap list_fmap parse_tokens].
  rewrite (Hf _ Ht). destruct (String.eqb_spec (pushed c) "") as [E|_]; [by destruct (tight_nonempty _ Ht)|].
  rewrite Hp. cbn [meanings]. destruct (meaning c); [done|]. by rewrite IH.
Qed.

(** The chain whose text is one of the grammar's two words: the call of that name,
    or a lone pattern spelled as it. *)
Definition reserved_word (cs : list Call) : option ParsedFilter :=
  match cs with
  | [MatchAll] => Some FAll
  | [MatchNone] => Some FNone
  | [PatternSub s] => if String.eqb s "ALL" then Some FAll else if String.eqb s "NONE" then Some FNone else None
  | _ => None
  end.

Lemma esc_reserved s w : str_has dquote w = false → esc s = w ↔ s = w ∧ str_has "," s || str_has dquote s = false.
Proof using Type.
  intros Hw. unfold esc. destruct (str_has "," s || str_has dquote s).
  - split; [|naive_solver]. intros <-. by simpl in Hw.
  - naive_solver.
Qed.

(** A word without punctuation, pushed by a clean call. *)
Lemma pushed_word c w : clean c →
  w = "ALL"%string ∨ w = "NONE"%string →
  pushed c = w → c = PatternSub w ∨ (c = MatchAll ∧ w = "ALL"%string) ∨ (c = MatchNone ∧ w = "NONE"%string).
Proof using Type.
  intros Hc Hw. assert (∀ n v, (n +:+ "=" +:+ v)%string ≠ w) as Hsel.
  { intros n v E. assert (str_has "=" w = true) as H by (rewrite <-E, !str_has_app; apply orb_true_r). by destruct Hw as [-> | ->]. }
  destruct c; cbn [pushed]; intros E; try (by destruct Hw as [-> | ->]); try (by destruct Hw as [-> | ->]; auto);
    try (exfalso; by apply (Hsel _ _ E)).
  - left. f_equal. by apply esc_reserved in E as [-> _]; [|destruct Hw as [-> | ->]].
  - exfalso. unfold regex_lit in E. destruct ci; by destruct Hw as [-> | ->].
Qed.

Lemma built_word cs w : Forall clean cs → w = "ALL"%string ∨ w = "NONE"%string →
  built cs = w → cs = [PatternSub w] ∨ (cs = [MatchAll] ∧ w = "ALL"%string) ∨ (cs = [MatchNone] ∧ w = "NONE"%string).
Proof using Type.
  intros Hc Hw E. rewrite built_eq in E. destruct cs as [|c [|c' cs]]; [by destruct Hw as [-> | ->]| |].
  - apply Forall_cons in Hc as [Hc _]. destruct (pushed_word c w Hc Hw E) as [-> | [[-> ->] | [-> ->]]]; auto.
  - exfalso. rewrite !fmap_cons in E. change (String.concat ", " (?x :: ?y :: ?l)) with (x +:+ ", " +:+ String.concat ", " (y :: l))%string in E.
    assert (str_has "," w = true) as H by (rewrite <-E, !str_has_app; apply orb_true_r). by destruct Hw as [-> | ->].
Qed.

Lemma reserved_built cs : Forall clean cs →
  reserved_word cs = if String.eqb (built cs) "ALL" then Some FAll else if String.eqb (built cs) "NONE" then Some FNone else None.
Proof using Type.
  intros Hc. destruct (String.eqb_spec (built cs) "ALL") as [E|Ha].
  { destruct (built_word cs _ Hc (or_introl eq_refl) E) as [-> | [[-> _] | [_ ?]]]; done. }
  destruct (String.eqb_spec (built cs) "NONE") as [E|Hn].
  { destruct (built_word cs _ Hc (or_intror eq_refl) E) as [-> | [[_ ?] | [-> _]]]; done. }
  rewrite built_eq in Ha, Hn. destruct cs as [|[] [|]]; try done. simpl in *.
  destruct (String.eqb_spec sub "ALL") as [->|]; [done|]. by destruct (String.eqb_spec sub "NONE") as [->|].
Qed.

(** C26: what the client's builder writes, the broker reads back. Any chain of
    builder calls whose texts are clean parses to exactly the qualifiers the calls
    named, in their order and with their texts unchanged (quoted where they hold a
    comma), or is refused exactly when those qualifiers are refused; but for a chain
    of one call whose text is [ALL] or [NONE], the grammar's words for the filter of
    everything and of nothing: [match_all] and [match_none] give those, and so does a
    lone pattern of that very text, which is then no pattern. *)
Theorem builder_roundtrip cs :
  cs ≠ [] → Forall clean cs →
  parse_filter (built cs) = match reserved_word cs with
                            | Some f => inr f
                            | None => match meanings cs with inl e => inl e | inr qs => check_qualifiers qs end
                            end.
Proof using L.
  intros Hne Hc. rewrite (reserved_built cs Hc). destruct cs as [|c cs]; [done|].
  apply Forall_cons in Hc as [Hc Hcs]. pose proof (call_reads c Hc) as [Ht Hp Hr].
  assert (Forall (λ t, tight t ∧ passes t) (pushed <$> cs)) as [Hts Hps]%Forall_and.
  { apply Forall_fmap. eapply Forall_impl; [exact Hcs|]. intros c' [? ? _]%call_reads. done. }
  pose proof (tight_concat _ _ Hts Ht) as Hw. rewrite built_eq. unfold parse_filter.
  cbn [fmap list_fmap] in *. rewrite (tight_trim _ Hw).
  destruct (String.eqb_spec (String.concat ", " (pushed c :: (pushed <$> cs))) "") as [E|_].
  { by destruct (tight_nonempty _ Hw). }
  destruct (String.eqb_spec (String.concat ", " (pushed c :: (pushed <$> cs))) "ALL"); [done|].
  destruct (String.eqb_spec (String.concat ", " (pushed c :: (pushed <$> cs))) "NONE"); [done|].
  rewrite (split_tokens _ _ Hps Hp). cbn [parse_tokens meanings]. rewrite (tight_trim _ Ht).
  destruct (String.eqb_spec (pushed c) "") as [E|_]; [by destruct (tight_nonempty _ Ht)|].
  rewrite Hr. destruct (meaning c); [done|]. rewrite (parse_read_tokens spaced cs trim_space Hcs). by destruct (meanings cs).
Qed.
End roundtrip.

(** ** Where the builder's promise ends *)

Abbreviation sample_parse := (parse_filter (X:=sample_externals)).

(** A pattern spelled as the word for everything matches everything. *)
Example lone_pattern_all : sample_parse (built [PatternSub "ALL"]) = inr FAll.
Proof. reflexivity. Qed.

(** A path is read as a regex: [/src/main.rs] searches, ignoring case, for [src]. *)
Example path_reads_as_regex :
  sample_parse (built [FileSub "/src/main.rs"]) =
    inr (Qualifiers [SelectorPattern File (PRegex (X:=sample_externals) "src" "(?i)src"%string true)]).
Proof. vm_compute. reflexivity. Qed.

(** A regex with a comma is cut in two. *)
Example regex_comma_splits :
  sample_parse (built [MessageRegex "a{1,3}" false]) =
    inr (Qualifiers [SelectorPattern Message (PRegex (X:=sample_externals) "a{1" "a{1"%string false);
                     BarePattern (Substring "3}/")]).
Proof. vm_compute. reflexivity. Qed.

(** The backslash before a quote stays in the text, and a single quote does not close. *)
Example quote_keeps_backslash :
  sample_parse (built [MessageSub (String dquote (String "a" (String dquote "")))]) =
    inr (Qualifiers [SelectorPattern Message (Substring (X:=sample_externals)
          (String backslash (String dquote (String "a" (String backslash (String dquote ""))))))]) ∧
  sample_parse (built [MessageSub (String "a" (String dquote ""))]) = inl UnclosedQuote.
Proof. split; vm_compute; reflexivity. Qed.

(** A bare pattern with an equals sign is a selector, and one with [l>=] a level. *)
Example bare_equals_selects :
  sample_parse (built [PatternSub "user=7"]) =
    inr (Qualifiers [SelectorPattern (AdditionalField "user") (Substring (X:=sample_externals) "7")]).
Proof. vm_compute. reflexivity. Qed.

(** [match_all] with anything else searches for the word. *)
Example match_all_in_company :
  sample_parse (built [MatchAll; MessageSub "x"]) =
    inr (Qualifiers [BarePattern (Substring (X:=sample_externals) "all"); SelectorPattern Message (Substring "x")]).
Proof. vm_compute. reflexivity. Qed.

(** ** Witnesses *)

Definition sample_calls : list Call :=
  [LevelAtLeast LvError; MessageSub "a, b"; HostRegex "/db|web/" true; BookmarkAfter "s/deploy"; LineIs 42].

Lemma builder_roundtrip_witness :
  sample_parse (built sample_calls) =
    inr (Qualifiers (X:=sample_externals)
      [LevelFilter LGte Error; SelectorPattern Message (Substring (X:=sample_externals) "a, b");
       SelectorPattern Host (PRegex (X:=sample_externals) "db|web" "(?i)db|web"%string true);
       BookmarkFilter BGte "s/deploy"; SelectorPattern Line (Substring (X:=sample_externals) "42")]).
Proof.
  rewrite (builder_roundtrip (X:=sample_externals) sample_calls); [reflexivity|done|].
  unfold sample_calls. repeat constructor; reflexivity.
Defined.
