(* ===== verification/Measure.v ===== *)
(** * Measure: what a collector measures with ([collector/sketch.rs],
    [collector/exact.rs], [collector/intern.rs], [collector/sample.rs])

    The [sketches_ddsketch] crate is a parameter. A [usize] is an [N]; an
    [i64] of nanoseconds is a [Z], and so is the [i128] sum of them. *)

From S2P Require Import Prelude Text F64 Gelf Filter Matcher.
From Stdlib Require Import SpecFloat.

Set Default Proof Using "Type".
Local Open Scope N_scope.

(** ** The sketch ([sketch.rs]) *)

(** [DDSketch]: a new one from its configuration, [add], [quantile], [count],
    [merge] ([None] on incompatible configurations) and the byte form. *)
Class SketchCrate := {
  DDSketch : Type;
  dd_new : f64 → N → f64 → DDSketch;
  dd_add : f64 → DDSketch → DDSketch;
  dd_quantile : f64 → DDSketch → option f64;
  dd_count : DDSketch → N;
  dd_merge : DDSketch → DDSketch → option DDSketch;
  dd_bytes : DDSketch → list N;
  dd_from_bytes : list N → option DDSketch;
}.

(** [i64 as f64]. *)
Definition f64_of_Z (z : Z) : f64 := binary_normalize 53 1024 z 0 false.

Definition ALPHA : f64 := decimal_to_f64 false 1 (-2).
Definition MIN_NS : f64 := f64_of_Z 1.
Definition MAX_NS : f64 := f64_of_Z 3600000000000.
Definition MAX_NUM_BINS : N := 2048.

Inductive Recorded := Added | Zero | Clamped | NegativeRejected.

Record SketchLayout := mkLayout {
  ly_algo : string;
  ly_alpha : f64;
  ly_unit : string;
  ly_min_ns : f64;
  ly_max_ns : f64;
  ly_max_num_bins : N;
}.
Definition CURRENT_LAYOUT : SketchLayout := mkLayout "ddsketch" ALPHA "ns" MIN_NS MAX_NS MAX_NUM_BINS.

Definition f64_eqb (x y : f64) : bool := match SFcompare x y with Some Eq => true | _ => false end.
Definition layout_eqb (a b : SketchLayout) : bool :=
  String.eqb (ly_algo a) (ly_algo b) && f64_eqb (ly_alpha a) (ly_alpha b) && String.eqb (ly_unit a) (ly_unit b)
  && f64_eqb (ly_min_ns a) (ly_min_ns b) && f64_eqb (ly_max_ns a) (ly_max_ns b)
  && (ly_max_num_bins a =? ly_max_num_bins b).

(** ** Interning ([intern.rs]) *)

Definition OVERFLOW_ID : N := 0.
Definition OVERFLOW_LABEL : string := "__overflow__".
Definition ABSENT_ID : N := 1.
Definition ABSENT_LABEL : string := "__absent__".
Definition FIRST_REAL_ID : N := 2.
Definition DEFAULT_GROUP_VALUE_CAP : N := 1024.
Definition DEFAULT_NAME_CAP : N := 256.

Record Interner := mkInterner {
  in_to_id : gmap string N;
  in_to_value : list string;
  in_cap : N;
  in_capped : bool;
}.

Definition interner_new (cap : N) : Interner := mkInterner ∅ [] cap false.

Definition intern (value : string) (i : Interner) : N * Interner :=
  match in_to_id i !! value with
  | Some id => (id, i)
  | None =>
      if in_cap i <=? N.of_nat (length (in_to_value i)) then
        (OVERFLOW_ID, mkInterner (in_to_id i) (in_to_value i) (in_cap i) true)
      else
        let id := FIRST_REAL_ID + N.of_nat (length (in_to_value i)) in
        (id, mkInterner (<[value := id]> (in_to_id i)) (in_to_value i ++ [value]) (in_cap i) (in_capped i))
  end.

Definition resolve (id : N) (i : Interner) : string :=
  if id =? OVERFLOW_ID then OVERFLOW_LABEL
  else if id =? ABSENT_ID then ABSENT_LABEL
  else default OVERFLOW_LABEL (in_to_value i !! N.to_nat (id - FIRST_REAL_ID)).

(** ** The sample tier ([sample.rs]) *)

Definition CHUNK_RECORDS : N := 8192.
Definition BYTES_PER_GROUP_KEY : N := 4.
Definition MAX_GROUP_KEYS : N := 8.
#[global] Arguments CHUNK_RECORDS : simpl never.

Inductive CollectLevel := Scalar | Timing | Tree.
#[export] Instance CollectLevel_eq_dec : EqDecision CollectLevel.
Proof. solve_decision. Defined.

Definition bytes_per_level (l : CollectLevel) : N :=
  match l with Scalar => 0 | Timing => 21 | Tree => 53 end.
Definition has_samples (l : CollectLevel) : bool := match l with Scalar => false | _ => true end.
Definition has_tree (l : CollectLevel) : bool := match l with Tree => true | _ => false end.

Definition pack_flags (status : SpanStatus) (kind : SpanKind) : N :=
  N.lor (match status with SUnset => 0 | SOk => 1 | SError _ => 2 end)
        (N.shiftl (match kind with
                   | KUnspecified => 0 | KInternal => 1 | KServer => 2
                   | KClient => 3 | KProducer => 4 | KConsumer => 5
                   end) 2).
Definition flags_is_error (flags : N) : bool := N.land flags 3 =? 2.
Definition flags_kind (flags : N) : SpanKind :=
  match N.land (N.shiftr flags 2) 7 with
  | 1 => KInternal | 2 => KServer | 3 => KClient | 4 => KProducer | 5 => KConsumer
  | _ => KUnspecified
  end.

Record SampleRecord := mkSample {
  sr_start_ns : Z;
  sr_end_ns : Z;
  sr_name_id : N;
  sr_flags : N;
  sr_span_id : N;
  sr_parent_span_id : N;
  sr_trace_id : N;
}.

(** The columns; the capacity of a [Vec] is not modelled. *)
Record SampleChunk := mkChunk {
  ck_start_ns : list Z;
  ck_end_ns : list Z;
  ck_name_id : list N;
  ck_flags : list N;
  ck_span_id : list N;
  ck_parent_span_id : list N;
  ck_trace_id : list N;
  ck_group_ids : list N;
}.
Definition chunk_new : SampleChunk := mkChunk [] [] [] [] [] [] [] [].
Definition chunk_len (c : SampleChunk) : nat := length (ck_name_id c).

Record SampleTier := mkTier {
  st_level : CollectLevel;
  st_n_group_keys : N;
  st_max_bytes : N;
  st_sealed : list SampleChunk;
  st_active : SampleChunk;
  st_retained : N;
  st_complete : bool;
}.

Definition tier_new (level : CollectLevel) (n_group_keys max_bytes : N) : SampleTier :=
  mkTier level (N.min n_group_keys MAX_GROUP_KEYS) max_bytes [] chunk_new 0 true.

Definition bytes_per_record (t : SampleTier) : N :=
  bytes_per_level (st_level t) + st_n_group_keys t * BYTES_PER_GROUP_KEY.
Definition chunk_bytes (t : SampleTier) : N := CHUNK_RECORDS * bytes_per_record t.
Definition max_chunks (t : SampleTier) : N := N.max (st_max_bytes t / N.max (chunk_bytes t) 1) 1.
Definition bytes_allocated (t : SampleTier) : N := (N.of_nat (length (st_sealed t)) + 1) * chunk_bytes t.

Definition chunk_push (tree : bool) (r : SampleRecord) (group_ids : list N) (c : SampleChunk) : SampleChunk :=
  let col (l : list N) (x : N) := if tree then l ++ [x] else l in
  mkChunk (ck_start_ns c ++ [sr_start_ns r]) (ck_end_ns c ++ [sr_end_ns r])
    (ck_name_id c ++ [sr_name_id r]) (ck_flags c ++ [sr_flags r])
    (col (ck_span_id c) (sr_span_id r)) (col (ck_parent_span_id c) (sr_parent_span_id r))
    (col (ck_trace_id c) (sr_trace_id r)) (ck_group_ids c ++ group_ids).

Definition set_retention (sealed : list SampleChunk) (active : SampleChunk) (retained : N) (complete : bool)
  (t : SampleTier) : SampleTier :=
  mkTier (st_level t) (st_n_group_keys t) (st_max_bytes t) sealed active retained complete.

(** The answer is whether the record was retained. *)
Definition tier_push (r : SampleRecord) (group_ids : list N) (t : SampleTier) : bool * SampleTier :=
  if negb (has_samples (st_level t)) then (false, t)
  else
    let put sealed active :=
      (true, set_retention sealed (chunk_push (has_tree (st_level t)) r group_ids active)
               (st_retained t + 1) (st_complete t) t) in
    if CHUNK_RECORDS <=? N.of_nat (chunk_len (st_active t)) then
      if max_chunks t <=? N.of_nat (length (st_sealed t)) + 1 then
        (false, set_retention (st_sealed t) (st_active t) (st_retained t) false t)
      else put (st_sealed t ++ [st_active t]) chunk_new
    else put (st_sealed t) (st_active t).

Record SampleSnapshot := mkSampleSnapshot {
  ss_level : CollectLevel;
  ss_n_group_keys : N;
  ss_sealed : list SampleChunk;
  ss_active : SampleChunk;
  ss_complete : bool;
}.
Definition tier_snapshot (t : SampleTier) : SampleSnapshot :=
  mkSampleSnapshot (st_level t) (st_n_group_keys t) (st_sealed t) (st_active t) (st_complete t).

Definition snapshot_len (s : SampleSnapshot) : N :=
  foldr N.add 0 (N.of_nat ∘ chunk_len <$> ss_sealed s) + N.of_nat (chunk_len (ss_active s)).

(** Record [i] of a chunk; [None] is an index out of range, which panics. *)
Definition record_at (tree : bool) (c : SampleChunk) (i : nat) : option SampleRecord :=
  start ← ck_start_ns c !! i; end_ ← ck_end_ns c !! i; name ← ck_name_id c !! i; flags ← ck_flags c !! i;
  if tree : bool then
    span ← ck_span_id c !! i; parent ← ck_parent_span_id c !! i; trace ← ck_trace_id c !! i;
    Some (mkSample start end_ name flags span parent trace)
  else Some (mkSample start end_ name flags 0 0 0).

Definition chunk_records (tree : bool) (c : SampleChunk) : option (list SampleRecord) :=
  mapM (record_at tree c) (List.seq 0 (chunk_len c)).
Definition records (s : SampleSnapshot) : option (list SampleRecord) :=
  mjoin <$> mapM (chunk_records (has_tree (ss_level s))) (ss_sealed s ++ [ss_active s]).

(** The slice; [None] is a slice out of range. *)
Definition group_ids_at (s : SampleSnapshot) (c : SampleChunk) (i : nat) : option (list N) :=
  let n := N.to_nat (ss_n_group_keys s) in
  if (n =? 0)%nat then Some []
  else if (i * n + n <=? length (ck_group_ids c))%nat then Some (take n (drop (i * n) (ck_group_ids c))) else None.

(** ** Exact statistics ([exact.rs]) *)

Inductive SpanDuration := DOk (ns : Z) | DNegative (ns : Z) | DMalformed.

Section measure.
Context {X : Externals} {SK : SketchCrate}.

(** [timestamp_nanos_opt]. *)
Definition timestamp_nanos_opt (t : Z) : option Z := if fits_i64 t then Some t else None.

Definition classify (s : SpanEntry) : SpanDuration :=
  match timestamp_nanos_opt (sp_start_time s), timestamp_nanos_opt (sp_end_time s) with
  | Some start, Some end_ =>
      if (start =? 0)%Z || (end_ =? 0)%Z then DMalformed
      else
        let d := i64_cast (end_ - start) in
        if (d <? 0)%Z then DNegative d else DOk d
  | _, _ => DMalformed
  end.

Record DurationSketch := mkSketch { sk_inner : DDSketch; sk_layout : SketchLayout }.

Definition sketch_new : DurationSketch := mkSketch (dd_new ALPHA MAX_NUM_BINS MIN_NS) CURRENT_LAYOUT.
Definition sketch_add (v : f64) (s : DurationSketch) : DurationSketch := mkSketch (dd_add v (sk_inner s)) (sk_layout s).

Definition sketch_record (d : Z) (s : DurationSketch) : Recorded * DurationSketch :=
  if (d <? 0)%Z then (NegativeRejected, s)
  else
    let v := f64_of_Z d in
    if f64_le v MIN_NS then (Zero, sketch_add (f64_of_Z 0) s)
    else if f64_gt v MAX_NS then (Clamped, sketch_add MAX_NS s)
    else (Added, sketch_add v s).

Definition sketch_from_bytes (b : list N) (l : SketchLayout) : option DurationSketch :=
  (λ d, mkSketch d l) <$> dd_from_bytes b.

(** [None] is [LayoutMismatch]. *)
Definition sketch_merge (other s : DurationSketch) : option DurationSketch :=
  if negb (layout_eqb (sk_layout s) (sk_layout other)) then None
  else (λ d, mkSketch d (sk_layout s)) <$> dd_merge (sk_inner s) (sk_inner other).

Record ExactStats := mkExact {
  es_count : N;
  es_total_ns : Z;
  es_min_ns : option Z;
  es_max_ns : option Z;
  es_error_count : N;
  es_negative : N;
  es_malformed : N;
  es_out_of_range : N;
  es_sketch : DurationSketch;
}.

Definition exact_new : ExactStats := mkExact 0 0 None None 0 0 0 0 sketch_new.

Definition exact_record (d : SpanDuration) (err : bool) (s : ExactStats) : ExactStats :=
  let count := u64_add (es_count s) 1 in
  let errors := if err then u64_add (es_error_count s) 1 else es_error_count s in
  match d with
  | DMalformed =>
      mkExact count (es_total_ns s) (es_min_ns s) (es_max_ns s) errors (es_negative s)
        (u64_add (es_malformed s) 1) (es_out_of_range s) (es_sketch s)
  | DNegative _ =>
      mkExact count (es_total_ns s) (es_min_ns s) (es_max_ns s) errors (u64_add (es_negative s) 1)
        (es_malformed s) (es_out_of_range s) (es_sketch s)
  | DOk ns =>
      let '(rec, sketch) := sketch_record ns (es_sketch s) in
      mkExact count (es_total_ns s + ns)%Z
        (Some match es_min_ns s with Some m => Z.min m ns | None => ns end)
        (Some match es_max_ns s with Some m => Z.max m ns | None => ns end)
        errors (es_negative s) (es_malformed s)
        (match rec with Clamped => u64_add (es_out_of_range s) 1 | _ => es_out_of_range s end) sketch
  end.

Definition well_formed_count (s : ExactStats) : N := es_count s - es_negative s - es_malformed s.

(** [i128 as f64] and [u64 as f64], then the division. *)
Definition avg_ns (s : ExactStats) : option f64 :=
  let n := well_formed_count s in
  if 0 <? n then Some (SFdiv 53 1024 (f64_of_Z (es_total_ns s)) (f64_of_Z (Z.of_N n))) else None.

Definition quantile_ns (q : f64) (s : ExactStats) : option f64 := dd_quantile q (sk_inner (es_sketch s)).

Definition opt_or {A} (f : A → A → A) (a b : option A) : option A :=
  match a, b with
  | Some x, Some y => Some (f x y)
  | Some x, None => Some x
  | None, b => b
  end.

(** [None] is the sketches' refusal; nothing has changed then. *)
Definition exact_merge (other s : ExactStats) : option ExactStats :=
  (λ sk, mkExact (u64_add (es_count s) (es_count other)) (es_total_ns s + es_total_ns other)%Z
     (opt_or Z.min (es_min_ns s) (es_min_ns other)) (opt_or Z.max (es_max_ns s) (es_max_ns other))
     (u64_add (es_error_count s) (es_error_count other)) (u64_add (es_negative s) (es_negative other))
     (u64_add (es_malformed s) (es_malformed other)) (u64_add (es_out_of_range s) (es_out_of_range other)) sk)
    <$> sketch_merge (es_sketch other) (es_sketch s).
End measure.
