(* ===== verification/MeasureSpec.v ===== *)
(** * MeasureSpec: exact aggregates, interning and the sample tier *)

From S2P Require Import Prelude Text F64 Gelf Filter Matcher Measure.

Set Default Proof Using "Type".
Local Open Scope N_scope.

(** ** Interning *)

(** Distinct values, numbered from 2 in order of arrival, at most [cap] of them. *)
Record interner_ok (i : Interner) : Prop := {
  io_ids v id : in_to_id i !! v = Some id ↔ FIRST_REAL_ID ≤ id ∧ in_to_value i !! N.to_nat (id - FIRST_REAL_ID) = Some v;
  io_nodup : NoDup (in_to_value i);
  io_cap : N.of_nat (length (in_to_value i)) ≤ in_cap i;
}.

Lemma interner_new_ok cap : interner_ok (interner_new cap).
Proof. split; simpl; [|by constructor|lia]. intros v id. rewrite lookup_empty, lookup_nil. naive_solver. Qed.

Lemma intern_ok v i : interner_ok i → interner_ok (intern v i).2.
Proof.
  intros [Hi Hn Hc]. unfold intern. destruct (in_to_id i !! v) as [id|] eqn:E; [done|].
  destruct (N.leb_spec (in_cap i) (N.of_nat (length (in_to_value i)))) as [|Hlt]; [done|].
  assert (v ∉ in_to_value i) as Hv.
  { intros (k & Hk)%list_elem_of_lookup. enough (in_to_id i !! v = Some (FIRST_REAL_ID + N.of_nat k)) by congruence.
    apply Hi. split; [lia|]. by replace (N.to_nat (FIRST_REAL_ID + N.of_nat k - FIRST_REAL_ID)) with k by lia. }
  split; simpl.
  - intros w id. destruct (decide (v = w)) as [<-|Hne].
    + rewrite lookup_insert_eq. split.
      * intros [= <-]. split; [lia|]. apply list_lookup_middle. lia.
      * intros [H1 H2]. f_equal. apply lookup_snoc_Some in H2 as [[? H2]|[H2 _]]; [|unfold FIRST_REAL_ID in *; lia].
        by destruct Hv; eapply list_elem_of_lookup_2.
    + rewrite lookup_insert_ne by done. rewrite Hi. split; intros [H1 H2]; (split; [done|]).
      * by apply lookup_app_l_Some.
      * apply lookup_snoc_Some in H2 as [[_ H2]|[_ H2]]; [done|congruence].
  - apply NoDup_app. split_and!; [done| |apply NoDup_singleton]. by intros x Hx ->%list_elem_of_singleton.
  - rewrite length_app. simpl. lia.
Qed.

(** The id a value has in a table: its own, or the overflow bucket's. *)
Definition id_in (i : Interner) (v : string) : N := default OVERFLOW_ID (in_to_id i !! v).

Lemma intern_id v i : (intern v i).1 = id_in (intern v i).2 v.
Proof.
  unfold intern, id_in. destruct (in_to_id i !! v) as [id|] eqn:E; simpl; [by rewrite E|].
  case_goal; simpl; [by rewrite E|by rewrite lookup_insert_eq].
Qed.

(** A full table stays full, and a table only grows: a value's id never changes
    once the value has been offered. *)
Definition offered (i : Interner) (v : string) : Prop :=
  is_Some (in_to_id i !! v) ∨ in_cap i ≤ N.of_nat (length (in_to_value i)) ∧ in_capped i = true.

Lemma intern_offered v i : offered (intern v i).2 v.
Proof.
  unfold intern, offered. destruct (in_to_id i !! v) as [id|] eqn:E; simpl; [rewrite E; left; by eexists|].
  destruct (N.leb_spec (in_cap i) (N.of_nat (length (in_to_value i)))); simpl; [by right|].
  left. rewrite lookup_insert_eq. by eexists.
Qed.

Lemma intern_stable v w i : offered i v → offered (intern w i).2 v ∧ id_in (intern w i).2 v = id_in i v.
Proof.
  unfold intern, offered, id_in. intros H. destruct (in_to_id i !! w) as [id|] eqn:E; [done|].
  destruct (N.leb_spec (in_cap i) (N.of_nat (length (in_to_value i)))); simpl; [tauto|].
  destruct H as [[id H]|[H _]]; [|lia]. rewrite lookup_insert_ne by (intros ->; congruence).
  split; [left; rewrite H; by eexists|done].
Qed.

Lemma intern_cap v i : in_cap (intern v i).2 = in_cap i.
Proof. unfold intern. by repeat case_goal. Qed.

Lemma id_in_range i v : interner_ok i → id_in i v = OVERFLOW_ID ∨ FIRST_REAL_ID ≤ id_in i v < FIRST_REAL_ID + in_cap i.
Proof.
  intros [Hi _ Hc]. unfold id_in. destruct (in_to_id i !! v) as [id|] eqn:E; [|by left]. right. simpl.
  apply Hi in E as [H1 H2%lookup_lt_Some]. lia.
Qed.

Lemma resolve_id i v : interner_ok i → is_Some (in_to_id i !! v) → resolve (id_in i v) i = v.
Proof.
  intros [Hi _ _] [id Hid]. unfold id_in. rewrite Hid. simpl. apply Hi in Hid as [H1 H2]. unfold resolve.
  unfold FIRST_REAL_ID, OVERFLOW_ID, ABSENT_ID in *.
  destruct (N.eqb_spec id 0); [lia|]. destruct (N.eqb_spec id 1); [lia|]. by rewrite H2.
Qed.

(** ** The sample tier *)

(** What a chunk keeps of a record at its level. *)
Definition kept_of (tree : bool) (r : SampleRecord) : SampleRecord :=
  if tree then r else mkSample (sr_start_ns r) (sr_end_ns r) (sr_name_id r) (sr_flags r) 0 0 0.

(** The columns of a chunk that holds [rs], with [n] group ids each. *)
Record chunk_holds (tree : bool) (n : nat) (c : SampleChunk) (rs : list (SampleRecord * list N)) : Prop := {
  ch_start : ck_start_ns c = sr_start_ns <$> rs.*1;
  ch_end : ck_end_ns c = sr_end_ns <$> rs.*1;
  ch_name : ck_name_id c = sr_name_id <$> rs.*1;
  ch_flags : ck_flags c = sr_flags <$> rs.*1;
  ch_span : ck_span_id c = if tree then sr_span_id <$> rs.*1 else [];
  ch_parent : ck_parent_span_id c = if tree then sr_parent_span_id <$> rs.*1 else [];
  ch_trace : ck_trace_id c = if tree then sr_trace_id <$> rs.*1 else [];
  ch_groups : ck_group_ids c = mjoin rs.*2;
  ch_widths : Forall (λ ids, length ids = n) rs.*2;
}.

Lemma chunk_new_holds tree n : chunk_holds tree n chunk_new [].
Proof. split; try done; by destruct tree. Qed.

Lemma chunk_push_holds tree n r ids c rs :
  chunk_holds tree n c rs → length ids = n → chunk_holds tree n (chunk_push tree r ids c) (rs ++ [(r, ids)]).
Proof.
  intros [H1 H2 H3 H4 H5 H6 H7 H8 H9] Hl. unfold chunk_push.
  split; simpl; rewrite ?H1, ?H2, ?H3, ?H4, ?H5, ?H6, ?H7, ?H8, ?fmap_app; try done.
  1-3: destruct tree; [by rewrite ?fmap_app|done].
  - rewrite join_app. simpl. by rewrite app_nil_r.
  - apply Forall_app. by split; [|constructor].
Qed.

Lemma chunk_len_holds tree n c rs : chunk_holds tree n c rs → chunk_len c = length rs.
Proof. intros H. unfold chunk_len. rewrite (ch_name _ _ _ _ H). by rewrite !length_fmap. Qed.

Lemma record_at_holds tree n c rs i r ids :
  chunk_holds tree n c rs → rs !! i = Some (r, ids) → record_at tree c i = Some (kept_of tree r).
Proof.
  intros [H1 H2 H3 H4 H5 H6 H7 _ _] Hi. unfold record_at.
  assert (rs.*1 !! i = Some r) as Hr by by rewrite list_lookup_fmap, Hi.
  rewrite H1, H2, H3, H4, H5, H6, H7. clear H1 H2 H3 H4 H5 H6 H7 Hi. generalize dependent rs.*1. intros rs' Hr.
  destruct tree; rewrite !list_lookup_fmap, Hr; simpl; [by destruct r|done].
Qed.

Lemma mapM_seq {A} (f : nat → option A) (l : list A) :
  (∀ i x, l !! i = Some x → f i = Some x) → mapM f (List.seq 0 (length l)) = Some l.
Proof.
  intros Hf. apply mapM_Some. apply Forall2_same_length_lookup_2; [by rewrite length_seq|].
  intros i x y Hx Hy. apply lookup_seq in Hx as [-> _]. by apply Hf.
Qed.

Lemma chunk_records_holds tree n c rs :
  chunk_holds tree n c rs → chunk_records tree c = Some (kept_of tree <$> rs.*1).
Proof.
  intros H. unfold chunk_records. rewrite (chunk_len_holds _ _ _ _ H).
  replace (length rs) with (length (kept_of tree <$> rs.*1)) by by rewrite !length_fmap.
  apply mapM_seq. intros i x Hx. rewrite list_lookup_fmap in Hx. destruct (rs.*1 !! i) as [r|] eqn:Er; [|done].
  injection Hx as <-. rewrite list_lookup_fmap in Er. destruct (rs !! i) as [[r' ids]|] eqn:E; [|done].
  injection Er as <-. by eapply record_at_holds.
Qed.

(** The tier holds [rs]: sealed chunks full, the active one not over full. *)
Record tier_holds (t : SampleTier) (rs : list (SampleRecord * list N)) : Prop := {
  th_split : ∃ full last, rs = mjoin full ++ last ∧
    Forall2 (chunk_holds (has_tree (st_level t)) (N.to_nat (st_n_group_keys t))) (st_sealed t) full ∧
    Forall (λ ch, N.of_nat (length ch) = CHUNK_RECORDS) full ∧
    chunk_holds (has_tree (st_level t)) (N.to_nat (st_n_group_keys t)) (st_active t) last ∧
    N.of_nat (length last) ≤ CHUNK_RECORDS;
  th_sealed : N.of_nat (length (st_sealed t)) + 1 ≤ max_chunks t;
  th_retained : st_retained t = N.of_nat (length rs);
}.

Definition capacity (t : SampleTier) : N := max_chunks t * CHUNK_RECORDS.

Lemma full_length (full : list (list (SampleRecord * list N))) :
  Forall (λ ch, N.of_nat (length ch) = CHUNK_RECORDS) full →
  N.of_nat (length (mjoin full)) = N.of_nat (length full) * CHUNK_RECORDS.
Proof.
  induction 1 as [|ch full H _ IH]; [done|]. simpl. rewrite length_app. simpl. lia.
Qed.

Lemma tier_capacity t rs : tier_holds t rs → N.of_nat (length rs) ≤ capacity t.
Proof.
  intros [(full & last & -> & H1 & H2 & H3 & H4) Hs _]. rewrite length_app.
  pose proof (full_length full H2). apply Forall2_length in H1. unfold capacity.
  assert (N.of_nat (length full) + 1 ≤ max_chunks t) by lia. nia.
Qed.

(** One offer: kept while there is room, refused for good after. *)
Lemma tier_push_holds t rs r ids :
  has_samples (st_level t) = true → tier_holds t rs → length ids = N.to_nat (st_n_group_keys t) →
  let '(kept, t') := tier_push r ids t in
  if N.of_nat (length rs) <? capacity t then kept = true ∧ tier_holds t' (rs ++ [(r, ids)]) ∧ st_complete t' = st_complete t
  else kept = false ∧ tier_holds t' rs ∧ st_complete t' = false.
Proof.
  intros Hs Ht Hl. pose proof Ht as [(full & last & -> & H1 & H2 & H3 & H4) Hsl Hr]. unfold tier_push. rewrite Hs. simpl negb.
  rewrite (chunk_len_holds _ _ _ _ H3). pose proof (full_length full H2) as Hf. pose proof (Forall2_length _ _ _ H1) as Hlen.
  rewrite length_app in *. assert (CHUNK_RECORDS = 8192) as HC by done.
  destruct (N.leb_spec CHUNK_RECORDS (N.of_nat (length last))) as [Hfull|Hroom].
  - destruct (N.leb_spec (max_chunks t) (N.of_nat (length (st_sealed t)) + 1)) as [Hend|Hmore].
    + destruct (N.ltb_spec (N.of_nat (length (mjoin full) + length last)) (capacity t)) as [Hlt|_].
      { unfold capacity in Hlt. assert (max_chunks t = N.of_nat (length full) + 1) as He by lia. rewrite He in Hlt. nia. }
      split; [done|]. split; [|done]. split; [by exists full, last|exact Hsl|rewrite length_app; exact Hr].
    + destruct (N.ltb_spec (N.of_nat (length (mjoin full) + length last)) (capacity t)) as [_|Hge].
      2: { unfold capacity in Hge. assert (N.of_nat (length full) + 2 ≤ max_chunks t) as He by lia. nia. }
      split; [done|]. split; [|done]. split; simpl.
      * exists (full ++ [last]), [(r, ids)]. split_and!.
        -- rewrite join_app. simpl. by rewrite app_nil_r.
        -- apply Forall2_app; [done|]. by constructor.
        -- apply Forall_app. split; [done|]. constructor; [lia|done].
        -- apply (chunk_push_holds _ _ r ids chunk_new []); [apply chunk_new_holds|done].
        -- simpl. lia.
      * change (max_chunks (set_retention _ _ _ _ t)) with (max_chunks t). rewrite length_app. simpl. lia.
      * rewrite !length_app in *. simpl. lia.
  - destruct (N.ltb_spec (N.of_nat (length (mjoin full) + length last)) (capacity t)) as [_|Hge].
    2: { unfold capacity in Hge. assert (N.of_nat (length full) + 1 ≤ max_chunks t) as He by lia. nia. }
    split; [done|]. split; [|done]. split; simpl.
    + exists full, (last ++ [(r, ids)]). split_and!; [by rewrite (assoc_L app)|done|done|by apply chunk_push_holds|].
      rewrite length_app. simpl. lia.
    + done.
    + rewrite !length_app in *. simpl. lia.
Qed.

Definition tier_offer (t : SampleTier) (o : SampleRecord * list N) : SampleTier := (tier_push o.1 o.2 t).2.

Lemma tier_push_same o t :
  st_level (tier_offer t o) = st_level t ∧ st_n_group_keys (tier_offer t o) = st_n_group_keys t ∧
  st_max_bytes (tier_offer t o) = st_max_bytes t.
Proof. unfold tier_offer, tier_push. by repeat case_goal. Qed.

Lemma capacity_same o t : capacity (tier_offer t o) = capacity t.
Proof.
  destruct (tier_push_same o t) as (H1 & H2 & H3). unfold capacity, max_chunks, chunk_bytes, bytes_per_record.
  by rewrite H1, H2, H3.
Qed.

Lemma tier_run t0 rs0 os :
  has_samples (st_level t0) = true → tier_holds t0 rs0 →
  st_complete t0 = true ∨ N.of_nat (length rs0) = capacity t0 →
  Forall (λ o, length o.2 = N.to_nat (st_n_group_keys t0)) os →
  let t := foldl tier_offer t0 os in
  let room := (N.to_nat (capacity t0) - length rs0)%nat in
  tier_holds t (rs0 ++ take room os) ∧
  (st_complete t = true ↔ st_complete t0 = true ∧ (length os ≤ room)%nat).
Proof.
  revert t0 rs0. induction os as [|[r ids] os IH]; intros t0 rs0 Hs Ht Hc Hw; simpl.
  { rewrite firstn_nil, app_nil_r. split; [done|]. split; [|tauto]. intros H. split; [done|lia]. }
  apply Forall_cons in Hw as [Hw1 Hw]. pose proof (tier_push_same (r, ids) t0) as (S1 & S2 & S3).
  pose proof (capacity_same (r, ids) t0) as S4. pose proof (tier_push_holds t0 rs0 r ids Hs Ht Hw1) as Hp.
  pose proof (tier_capacity _ _ Ht) as Hcap.
  unfold tier_offer in S1, S2, S4. simpl in S1, S2, S4. change (tier_offer t0 (r, ids)) with (tier_push r ids t0).2.
  destruct (tier_push r ids t0) as [kept t1]. simpl in *.
  specialize (IH t1). rewrite S1, S2, S4 in IH.
  destruct (N.ltb_spec (N.of_nat (length rs0)) (capacity t0)) as [Hlt|Hge].
  - destruct Hp as (_ & Hp & Hk). destruct (IH (rs0 ++ [(r, ids)]) Hs Hp) as [I1 I2].
    + rewrite Hk. destruct Hc as [?|Hc]; [by left|lia].
    + done.
    + rewrite length_app in I1, I2. simpl in I1, I2.
      replace (N.to_nat (capacity t0) - length rs0)%nat
        with (S (N.to_nat (capacity t0) - (length rs0 + 1)))%nat by lia.
      simpl. rewrite <-(assoc_L app) in I1. split; [exact I1|]. rewrite I2, Hk.
      split; intros [? ?]; (split; [done|lia]).
  - destruct Hp as (_ & Hp & Hk). destruct (IH rs0 Hs Hp ltac:(right; lia) Hw) as [I1 I2].
    replace (N.to_nat (capacity t0) - length rs0)%nat with 0%nat in * by lia. simpl in *.
    rewrite take_0 in I1. split; [exact I1|]. rewrite I2, Hk. split; [by intros []|]. intros [_ H]. lia.
Qed.

Lemma fmap_mjoin {A B} (f : A → B) (ls : list (list A)) : mjoin ((λ l, f <$> l) <$> ls) = f <$> mjoin ls.
Proof. induction ls as [|l ls IH]; [done|]. simpl. by rewrite fmap_app, <-IH. Qed.

Lemma tier_snapshot_records t rs :
  tier_holds t rs → records (tier_snapshot t) = Some (kept_of (has_tree (st_level t)) <$> rs.*1).
Proof.
  intros [(full & last & -> & H1 & _ & H3 & _) _ _]. unfold records. simpl.
  assert (mapM (chunk_records (has_tree (st_level t))) (st_sealed t ++ [st_active t]) =
    Some ((λ ch, (kept_of (has_tree (st_level t)) ∘ fst) <$> ch) <$> (full ++ [last]))) as ->.
  { apply mapM_Some. apply Forall2_fmap_r. apply Forall2_app.
    - eapply Forall2_impl; [exact H1|]. intros c ch H. rewrite (chunk_records_holds _ _ _ _ H). f_equal. symmetry. apply list_fmap_compose.
    - constructor; [|done]. rewrite (chunk_records_holds _ _ _ _ H3). f_equal. symmetry. apply list_fmap_compose. }
  simpl. f_equal. rewrite fmap_mjoin, <-list_fmap_compose, join_app. simpl. by rewrite app_nil_r.
Qed.

(** ** Exact statistics *)

(** Multiset semantics of a sketch: what it answers depends on the values added,
    not on their order nor on how they were split between merged sketches. *)
Definition dd_adds {SK : SketchCrate} (vs : list f64) (s : DDSketch) : DDSketch := foldl (λ s v, dd_add v s) s vs.
Class SketchLaws (SK : SketchCrate) := {
  dd_equiv : relation DDSketch;
  #[global] dd_equivalence :: Equivalence dd_equiv;
  #[global] dd_quantile_proper :: Proper (eq ==> dd_equiv ==> eq) dd_quantile;
  #[global] dd_count_proper :: Proper (dd_equiv ==> eq) dd_count;
  dd_adds_perm vs ws a n m : vs ≡ₚ ws → dd_equiv (dd_adds vs (dd_new a n m)) (dd_adds ws (dd_new a n m));
  dd_merge_adds vs ws a n m :
    ∃ d, dd_merge (dd_adds vs (dd_new a n m)) (dd_adds ws (dd_new a n m)) = Some d ∧
         dd_equiv d (dd_adds (vs ++ ws) (dd_new a n m));
}.

Section exact.
Context {SK : SketchCrate}.

(** What one span contributes: its duration's class and whether it failed. *)
#[local] Abbreviation Observation := (SpanDuration * bool)%type.
Definition stats_of (os : list Observation) : ExactStats := foldl (λ s o, exact_record o.1 o.2 s) exact_new os.

Definition usable (o : Observation) : option Z := match o.1 with DOk ns => Some ns | _ => None end.
Definition is_negative (o : Observation) : bool := match o.1 with DNegative _ => true | _ => false end.
Definition is_malformed (o : Observation) : bool := match o.1 with DMalformed => true | _ => false end.

(** The value a duration puts in the sketch, and whether it was clamped. *)
Definition sketched (ns : Z) : option f64 :=
  if (ns <? 0)%Z then None
  else if f64_le (f64_of_Z ns) MIN_NS then Some (f64_of_Z 0)
  else if f64_gt (f64_of_Z ns) MAX_NS then Some MAX_NS else Some (f64_of_Z ns).
Definition is_clamped (ns : Z) : bool :=
  negb (ns <? 0)%Z && negb (f64_le (f64_of_Z ns) MIN_NS) && f64_gt (f64_of_Z ns) MAX_NS.

Definition countb {A} (f : A → bool) (l : list A) : N := N.of_nat (length (List.filter f l)).
Definition opt_fold (f : Z → Z → Z) (l : list Z) : option Z := foldr (λ x m, opt_or f (Some x) m) None l.

(** The same figures computed from the whole list at once. *)
Record stats_spec (os : list Observation) (s : ExactStats) : Prop := {
  sp_count : es_count s = N.of_nat (length os);
  sp_total : es_total_ns s = foldr Z.add 0%Z (omap usable os);
  sp_min : es_min_ns s = opt_fold Z.min (omap usable os);
  sp_max : es_max_ns s = opt_fold Z.max (omap usable os);
  sp_errors : es_error_count s = countb snd os;
  sp_neg : es_negative s = countb is_negative os;
  sp_mal : es_malformed s = countb is_malformed os;
  sp_range : es_out_of_range s = countb is_clamped (omap usable os);
  sp_layout : sk_layout (es_sketch s) = CURRENT_LAYOUT;
  sp_sketch : sk_inner (es_sketch s) = dd_adds (omap sketched (omap usable os)) (dd_new ALPHA MAX_NUM_BINS MIN_NS);
}.

Lemma countb_app {A} (f : A → bool) l1 l2 : countb f (l1 ++ l2) = countb f l1 + countb f l2.
Proof. unfold countb. rewrite List.filter_app, length_app. lia. Qed.
Lemma countb_le {A} (f : A → bool) l : countb f l ≤ N.of_nat (length l).
Proof. unfold countb. pose proof (List.filter_length_le f l). lia. Qed.
Lemma countb_cons {A} (f : A → bool) x l : countb f (x :: l) = (if f x then 1 else 0) + countb f l.
Proof. change (x :: l) with ([x] ++ l). rewrite countb_app. unfold countb at 1. simpl. by destruct (f x). Qed.
Lemma countb_one {A} (f : A → bool) x : countb f [x] = if f x then 1 else 0.
Proof. unfold countb. simpl. by destruct (f x). Qed.

Lemma opt_or_assoc (f : Z → Z → Z) `{!Assoc (=) f} a b c : opt_or f a (opt_or f b c) = opt_or f (opt_or f a b) c.
Proof. destruct a, b, c; simpl; try done. by rewrite (assoc_L f). Qed.
Lemma opt_fold_app f `{!Assoc (=) f} l1 l2 : opt_fold f (l1 ++ l2) = opt_or f (opt_fold f l1) (opt_fold f l2).
Proof. induction l1 as [|x l1 IH]; [done|]. change (opt_fold f ((x :: l1) ++ l2)) with (opt_or f (Some x) (opt_fold f (l1 ++ l2))).
  by rewrite IH, opt_or_assoc.
Qed.
Lemma sum_app l1 l2 : foldr Z.add 0%Z (l1 ++ l2) = (foldr Z.add 0 l1 + foldr Z.add 0 l2)%Z.
Proof. induction l1 as [|x l1 IH]; [done|]. simpl. rewrite IH. lia. Qed.

#[local] Instance zmin_assoc : Assoc (=) Z.min.
Proof. intros ???. lia. Qed.
#[local] Instance zmax_assoc : Assoc (=) Z.max.
Proof. intros ???. lia. Qed.

Lemma clamped_le os : countb is_clamped (omap usable os) ≤ N.of_nat (length os).
Proof.
  etrans; [apply countb_le|]. assert (length (omap usable os) ≤ length os)%nat as H; [|lia].
  induction os as [|o os IH]; [done|]. csimpl. destruct (usable o); csimpl; lia.
Qed.

Lemma sketch_record_spec ns sk :
  match (sketch_record ns sk).1 with Clamped => true | _ => false end = is_clamped ns ∧
  (sketch_record ns sk).2 = match sketched ns with Some v => sketch_add v sk | None => sk end.
Proof. unfold sketch_record, is_clamped, sketched. by repeat (case_goal; simpl). Qed.

Lemma opt_step f l ns : opt_fold f (l ++ [ns]) = opt_or f (opt_fold f l) (Some ns) →
  Some match opt_fold f l with Some m => f m ns | None => ns end = opt_fold f (l ++ [ns]).
Proof. intros ->. by destruct (opt_fold f l). Qed.

Lemma exact_record_spec os s o :
  stats_spec os s → N.of_nat (length os) < u64_max → stats_spec (os ++ [o]) (exact_record o.1 o.2 s).
Proof.
  intros [H1 H2 H3 H4 H5 H6 H7 H8 H9 H10] Hb. destruct o as [d err].
  pose proof (countb_le snd os). pose proof (countb_le is_negative os). pose proof (countb_le is_malformed os).
  pose proof (clamped_le os).
  assert (∀ n, n ≤ N.of_nat (length os) → u64_add n 1 = n + 1) as Ha by (intros; apply u64_add_small; lia).
  unfold exact_record. cbn [fst snd]. destruct d as [ns|ns|].
  1: destruct (sketch_record_spec ns (es_sketch s)) as [Hc Hs];
     destruct (sketch_record ns (es_sketch s)) as [rec sk]; cbn [fst snd] in Hc, Hs; subst sk.
  all: split; cbn [es_count es_total_ns es_min_ns es_max_ns es_error_count es_negative es_malformed
                   es_out_of_range es_sketch]; rewrite ?H1, ?H2, ?H3, ?H4, ?H5, ?H6, ?H7, ?H9, ?length_app;
    rewrite ?omap_app, ?countb_app, ?countb_one, ?sum_app, ?app_nil_r; try (by rewrite Ha); try done;
    try (destruct err; [by rewrite Ha|by rewrite N.add_0_r]); try (by rewrite N.add_0_r);
    try (rewrite Ha by done; simpl; lia).
  - csimpl. lia.
  - apply opt_step. by rewrite opt_fold_app by apply _.
  - apply opt_step. by rewrite opt_fold_app by apply _.
  - csimpl. rewrite countb_one, <-Hc, H8. destruct rec; by rewrite ?Ha, ?N.add_0_r.
  - by destruct (sketched ns).
  - csimpl. unfold dd_adds. destruct (sketched ns); simpl.
    + by rewrite foldl_app, H10.
    + by rewrite app_nil_r, H10.
  - csimpl. lia.
  - csimpl. lia.
Qed.

Lemma stats_of_spec os : N.of_nat (length os) ≤ u64_max → stats_spec os (stats_of os).
Proof.
  unfold stats_of. induction os as [|o os IH] using rev_ind; [done|]. rewrite length_app, foldl_app. simpl. intros H.
  apply exact_record_spec; [apply IH; lia|lia].
Qed.

Lemma stats_of_snoc os o : stats_of (os ++ [o]) = exact_record o.1 o.2 (stats_of os).
Proof. unfold stats_of. by rewrite foldl_app. Qed.

(** ** Merging *)

Context {SL : SketchLaws SK}.

(** Two aggregates that no reader can tell apart. *)
Record exact_equiv (s1 s2 : ExactStats) : Prop := {
  ee_count : es_count s1 = es_count s2;
  ee_total : es_total_ns s1 = es_total_ns s2;
  ee_min : es_min_ns s1 = es_min_ns s2;
  ee_max : es_max_ns s1 = es_max_ns s2;
  ee_errors : es_error_count s1 = es_error_count s2;
  ee_neg : es_negative s1 = es_negative s2;
  ee_mal : es_malformed s1 = es_malformed s2;
  ee_range : es_out_of_range s1 = es_out_of_range s2;
  ee_layout : sk_layout (es_sketch s1) = sk_layout (es_sketch s2);
  ee_sketch : dd_equiv (sk_inner (es_sketch s1)) (sk_inner (es_sketch s2));
}.

#[global] Instance exact_equiv_equivalence : Equivalence exact_equiv.
Proof.
  split.
  - by split.
  - intros s1 s2 []. by split.
  - intros s1 s2 s3 [] []. split; by etrans.
Qed.

(** Everything reported from an aggregate respects it. *)
#[global] Instance avg_ns_proper : Proper (exact_equiv ==> eq) avg_ns.
Proof. intros s1 s2 [E1 E2 _ _ _ E6 E7 _ _ _]. unfold avg_ns, well_formed_count. by rewrite E1, E2, E6, E7. Qed.
#[global] Instance quantile_ns_proper : Proper (eq ==> exact_equiv ==> eq) quantile_ns.
Proof. intros q ? <- s1 s2 []. unfold quantile_ns. by apply dd_quantile_proper. Qed.

Lemma layout_eqb_current : layout_eqb CURRENT_LAYOUT CURRENT_LAYOUT = true.
Proof. vm_compute. reflexivity. Qed.

Lemma exact_merge_app os1 os2 :
  N.of_nat (length os1 + length os2) ≤ u64_max →
  ∃ m, exact_merge (stats_of os2) (stats_of os1) = Some m ∧ exact_equiv m (stats_of (os1 ++ os2)).
Proof using SL.
  intros Hb. pose proof (stats_of_spec os1 ltac:(lia)) as [A1 A2 A3 A4 A5 A6 A7 A8 A9 A10].
  pose proof (stats_of_spec os2 ltac:(lia)) as [B1 B2 B3 B4 B5 B6 B7 B8 B9 B10].
  pose proof (stats_of_spec (os1 ++ os2) ltac:(rewrite length_app; lia)) as [C1 C2 C3 C4 C5 C6 C7 C8 C9 C10].
  destruct (dd_merge_adds (omap sketched (omap usable os1)) (omap sketched (omap usable os2)) ALPHA MAX_NUM_BINS MIN_NS)
    as (d & Hd & He).
  unfold exact_merge, sketch_merge. rewrite A9, B9, layout_eqb_current, A10, B10, Hd. simpl.
  eexists. split; [done|].
  pose proof (countb_le snd os1). pose proof (countb_le is_negative os1). pose proof (countb_le is_malformed os1).
  pose proof (clamped_le os1). pose proof (countb_le snd os2). pose proof (countb_le is_negative os2).
  pose proof (countb_le is_malformed os2). pose proof (clamped_le os2).
  split; cbn [es_count es_total_ns es_min_ns es_max_ns es_error_count es_negative es_malformed
              es_out_of_range es_sketch sk_layout sk_inner];
    rewrite ?A1, ?A2, ?A3, ?A4, ?A5, ?A6, ?A7, ?A8, ?B1, ?B2, ?B3, ?B4, ?B5, ?B6, ?B7, ?B8,
      ?C1, ?C2, ?C3, ?C4, ?C5, ?C6, ?C7, ?C8, ?C9, ?C10, ?omap_app, ?countb_app, ?length_app, ?u64_add_small by lia;
    try lia; try done.
  - by rewrite sum_app.
  - by rewrite opt_fold_app by apply _.
  - by rewrite opt_fold_app by apply _.
Qed.

Lemma countb_perm {A} (f : A → bool) l1 l2 : l1 ≡ₚ l2 → countb f l1 = countb f l2.
Proof. intros H. unfold countb. by rewrite H. Qed.

Lemma opt_fold_perm f `{!Assoc (=) f, !Comm (=) f} l1 l2 : l1 ≡ₚ l2 → opt_fold f l1 = opt_fold f l2.
Proof.
  unfold opt_fold. induction 1 as [|x l1 l2 _ IH|x y l|l1 l2 l3 _ IH1 _ IH2]; cbn [foldr].
  - done.
  - by rewrite IH.
  - generalize (foldr (λ x m, opt_or f (Some x) m) None l). intros [m|]; simpl; [|by rewrite (comm f)]. by rewrite !(assoc_L f), (comm f y x).
  - congruence.
Qed.

Lemma stats_of_perm os1 os2 :
  N.of_nat (length os1) ≤ u64_max → os1 ≡ₚ os2 → exact_equiv (stats_of os1) (stats_of os2).
Proof using SL.
  intros Hb Hp. pose proof (stats_of_spec os1 Hb) as [A1 A2 A3 A4 A5 A6 A7 A8 A9 A10].
  pose proof (stats_of_spec os2 ltac:(by rewrite <-Hp)) as [B1 B2 B3 B4 B5 B6 B7 B8 B9 B10].
  assert (omap usable os1 ≡ₚ omap usable os2) as Hu by by rewrite Hp.
  split; rewrite ?A1, ?A2, ?A3, ?A4, ?A5, ?A6, ?A7, ?A8, ?A9, ?A10, ?B1, ?B2, ?B3, ?B4, ?B5, ?B6, ?B7, ?B8, ?B9, ?B10;
    try (by apply countb_perm); try (by rewrite Hp); try done.
  - clear -Hu. induction Hu; simpl; lia.
  - apply opt_fold_perm; [apply _|intros ??; lia|done].
  - apply opt_fold_perm; [apply _|intros ??; lia|done].
  - apply dd_adds_perm. by rewrite Hu.
Qed.
End exact.
