(* ===== verification/Threshold.v ===== *)
(** * Threshold: the rolling guard of a collector ([collector/threshold.rs])

    The ring of buckets advances with the spans that arrive. Its fields are
    atomics; the model runs one [record] at a time, as the collector's callers
    do for one domain. *)

From S2P Require Import Prelude Text F64 Gelf Filter Matcher Measure.
From Stdlib Require Import SpecFloat.

Set Default Proof Using "Type".
Local Open Scope N_scope.

Definition BUCKETS : N := 16.
Definition MIN_WINDOW_MS : N := 16.
Definition MAX_WINDOW_MS : N := 600000.

Inductive Metric := MCount | TotalMs | AvgMs | ErrorCount | ErrorRatePct.
Definition metric_as_str (m : Metric) : string :=
  match m with
  | MCount => "count" | TotalMs => "total_ms" | AvgMs => "avg_ms" | ErrorCount => "error_count"
  | ErrorRatePct => "error_rate_pct"
  end.
(** [None] is the error, whose text is not modelled. *)
Definition metric_parse (s : string) : option Metric :=
  if String.eqb s "count" then Some MCount
  else if String.eqb s "total_ms" then Some TotalMs
  else if String.eqb s "avg_ms" then Some AvgMs
  else if String.eqb s "error_count" then Some ErrorCount
  else if String.eqb s "error_rate_pct" then Some ErrorRatePct
  else None.

Inductive ThresholdOp := OpGt | OpGte | OpLt | OpLte.
Definition op_as_str (o : ThresholdOp) : string :=
  match o with OpGt => "gt" | OpGte => "gte" | OpLt => "lt" | OpLte => "lte" end.
Definition op_parse (s : string) : option ThresholdOp :=
  if String.eqb s "gt" || String.eqb s ">" then Some OpGt
  else if String.eqb s "gte" || String.eqb s ">=" then Some OpGte
  else if String.eqb s "lt" || String.eqb s "<" then Some OpLt
  else if String.eqb s "lte" || String.eqb s "<=" then Some OpLte
  else None.

Definition f64_lt (x y : f64) : bool := match SFcompare x y with Some Lt => true | _ => false end.
Definition holds (o : ThresholdOp) (value limit : f64) : bool :=
  match o with
  | OpGt => f64_gt value limit
  | OpGte => f64_ge value limit
  | OpLt => f64_lt value limit
  | OpLte => f64_le value limit
  end.
Definition is_downward (o : ThresholdOp) : bool := match o with OpLt | OpLte => true | _ => false end.

Record Threshold := mkThreshold {
  th_metric : Metric;
  th_group : option string;
  th_op : ThresholdOp;
  th_value : f64;
  th_window_ms : N;
}.

(** The errors and warnings, by what they say. *)
Inductive ThresholdError := NotFinite | WindowOutside | GroupWithoutKeys | RateOutside.
Inductive ThresholdWarning := DownwardWindow | FirstKeyOnly | SummedWork.

Definition threshold_validate (group_keys : list string) (t : Threshold)
  : ThresholdError + list ThresholdWarning :=
  if negb (is_finite (th_value t)) then inl NotFinite
  else if negb ((MIN_WINDOW_MS <=? th_window_ms t) && (th_window_ms t <=? MAX_WINDOW_MS)) then inl WindowOutside
  else if bool_decide (is_Some (th_group t)) && bool_decide (group_keys = []) then inl GroupWithoutKeys
  else if match th_metric t with ErrorRatePct => true | _ => false end
          && negb (f64_le (f64_of_Z 0) (th_value t) && f64_le (th_value t) (f64_of_Z 100)) then inl RateOutside
  else inr ((if is_downward (th_op t) then [DownwardWindow] else []) ++
            (if bool_decide (is_Some (th_group t)) && (1 <? length group_keys)%nat then [FirstKeyOnly] else []) ++
            match th_metric t with TotalMs => [SummedWork] | _ => [] end).

(** ** The ring *)

Record Bucket := mkBucket {
  bk_epoch : N;
  bk_count : N;
  bk_ok_count : N;
  bk_total_ns : N;
  bk_errors : N;
}.
Definition bucket_new : Bucket := mkBucket 0 0 0 0 0.

(** The packed [verdict] word is its two fields, [None] before any evaluation;
    the value is in thousandths. *)
Record ThresholdState := mkTState {
  ts_def : Threshold;
  ts_bucket_ms : N;
  ts_ring : list Bucket;
  ts_head : N;
  ts_breached : bool;
  ts_breached_at_epoch : N;
  ts_fires : N;
  ts_verdict : N;
}.

Definition V_EVALUATED : N := 1.
Definition V_BREACHED : N := 2.
Definition V_MAX_THOUSANDTHS : N := N.shiftr u64_max 2.

Definition div_ceil (a b : N) : N := (a + b - 1) / b.

Definition threshold_new (def : Threshold) : ThresholdState :=
  mkTState def (N.max (div_ceil (th_window_ms def) BUCKETS) 1) (replicate (N.to_nat BUCKETS) bucket_new)
    0 false 0 0 0.

Definition effective_window_ms (t : ThresholdState) : N := ts_bucket_ms t * BUCKETS.

Definition epoch_of (start_ms : Z) (t : ThresholdState) : N := Z.to_N (Z.max start_ms 0) / ts_bucket_ms t.

(** The sums of the live buckets: count, well-formed, nanoseconds, errors. *)
Definition sum_bucket (head : N) (acc : N * N * N * N) (b : Bucket) : N * N * N * N :=
  let '(count, ok, total, errors) := acc in
  if (bk_epoch b <? head - (BUCKETS - 1)) || (head <? bk_epoch b) then acc
  else (u64_add count (bk_count b), u64_add ok (bk_ok_count b), u64_add total (bk_total_ns b),
        u64_add errors (bk_errors b)).
Definition window_sums (head : N) (ring : list Bucket) : N * N * N * N :=
  foldl (sum_bucket head) (0, 0, 0, 0) ring.

Definition f64_of_N (n : N) : f64 := f64_of_Z (Z.of_N n).
Definition f64_div (a b : f64) : f64 := SFdiv 53 1024 a b.
Definition f64_mul (a b : f64) : f64 := SFmul 53 1024 a b.

Definition metric_value (m : Metric) (sums : N * N * N * N) : option f64 :=
  let '(count, ok, total, errors) := sums in
  let mega := f64_of_Z 1000000 in
  match m with
  | MCount => Some (f64_of_N count)
  | TotalMs => Some (f64_div (f64_of_N total) mega)
  | AvgMs => if 0 <? ok then Some (f64_div (f64_div (f64_of_N total) (f64_of_N ok)) mega) else None
  | ErrorCount => Some (f64_of_N errors)
  | ErrorRatePct =>
      if 0 <? count then Some (f64_mul (f64_div (f64_of_N errors) (f64_of_N count)) (f64_of_Z 100)) else None
  end.

(** [as u64] of a finite non-negative float: towards zero, saturating. *)
Definition f64_to_u64 (x : f64) : N :=
  match x with
  | S754_finite false m e =>
      N.min (if (0 <=? e)%Z then Npos m * 2 ^ Z.to_N e else N.shiftr (Npos m) (Z.to_N (- e))) u64_max
  | S754_infinity false => u64_max
  | _ => 0
  end.

Definition thousandths (value : f64) : N :=
  f64_to_u64 (f64_min (f64_max (f64_mul value (f64_of_Z 1000)) (f64_of_Z 0)) (f64_of_N V_MAX_THOUSANDTHS)).

Definition set_ring (ring : list Bucket) (head : N) (t : ThresholdState) : ThresholdState :=
  mkTState (ts_def t) (ts_bucket_ms t) ring head (ts_breached t) (ts_breached_at_epoch t) (ts_fires t) (ts_verdict t).

(** The [u64] shift drops the bits past the word. *)
Definition evaluate_window (head : N) (t : ThresholdState) : ThresholdState :=
  match metric_value (th_metric (ts_def t)) (window_sums head (ts_ring t)) with
  | None => t
  | Some value =>
      let now := holds (th_op (ts_def t)) value (th_value (ts_def t)) in
      let packed := N.lor (N.lor (u64_wrap (N.shiftl (thousandths value) 2)) (if now then V_BREACHED else 0)) V_EVALUATED in
      let fired := now && negb (ts_breached t) in
      mkTState (ts_def t) (ts_bucket_ms t) (ts_ring t) (ts_head t) now
        (if fired then head else ts_breached_at_epoch t)
        (if fired then u64_add (ts_fires t) 1 else ts_fires t) packed
  end.

(** A stale slot is reclaimed for the epoch before it counts. *)
Definition bucket_record (epoch : N) (d : SpanDuration) (err : bool) (b : Bucket) : Bucket :=
  let b := if bk_epoch b =? epoch then b else mkBucket epoch 0 0 0 0 in
  let '(ok, total) := match d with
                      | DOk ns => (u64_add (bk_ok_count b) 1, u64_add (bk_total_ns b) (Z.to_N ns))
                      | _ => (bk_ok_count b, bk_total_ns b)
                      end in
  mkBucket (bk_epoch b) (u64_add (bk_count b) 1) ok total (if err then u64_add (bk_errors b) 1 else bk_errors b).

Definition watched (group : option string) (t : ThresholdState) : bool :=
  match th_group (ts_def t) with
  | Some want => match group with Some g => String.eqb g want | None => false end
  | None => true
  end.

Definition threshold_record (start_ms : Z) (d : SpanDuration) (err : bool) (group : option string)
  (t : ThresholdState) : ThresholdState :=
  if negb (watched group t) then t
  else
    let epoch := epoch_of start_ms t in
    let head := N.max (ts_head t) epoch in
    if epoch + BUCKETS <=? head then set_ring (ts_ring t) head t
    else
      let ring := alter (bucket_record epoch d err) (N.to_nat (epoch mod BUCKETS)) (ts_ring t) in
      evaluate_window head (set_ring ring head t).

Definition threshold_clear (t : ThresholdState) : ThresholdState :=
  mkTState (ts_def t) (ts_bucket_ms t) ((λ _, bucket_new) <$> ts_ring t) 0 false 0 0 0.

Record ThresholdReport := mkReport {
  tr_metric : string;
  tr_group : option string;
  tr_op : string;
  tr_value : f64;
  tr_window_ms : N;
  tr_effective_window_ms : N;
  tr_breached : bool;
  tr_fires : N;
  tr_last_value : option f64;
  tr_evaluated : bool;
}.

Definition threshold_report (t : ThresholdState) : ThresholdReport :=
  let v := ts_verdict t in
  let known := negb (N.land v V_EVALUATED =? 0) in
  mkReport (metric_as_str (th_metric (ts_def t))) (th_group (ts_def t)) (op_as_str (th_op (ts_def t)))
    (th_value (ts_def t)) (th_window_ms (ts_def t)) (effective_window_ms t)
    (negb (N.land v V_BREACHED =? 0)) (ts_fires t)
    (if known then Some (f64_div (f64_of_N (N.shiftr v 2)) (f64_of_Z 1000)) else None) known.
