(* ===== verification/ThresholdSpec.v ===== *)
(** * ThresholdSpec: the ring is a sliding window over the spans *)

From S2P Require Import Prelude Text F64 Gelf Filter Matcher Measure Threshold.

Set Default Proof Using "Type".
Local Open Scope N_scope.

(** One call of [record]. *)
Record ThEvent := mkEvent { te_start_ms : Z; te_duration : SpanDuration; te_error : bool; te_group : option string }.

Definition th_step (t : ThresholdState) (e : ThEvent) : ThresholdState :=
  threshold_record (te_start_ms e) (te_duration e) (te_error e) (te_group e) t.
Definition th_run (def : Threshold) (evs : list ThEvent) : ThresholdState := foldl th_step (threshold_new def) evs.

(** ** Sums modulo the width *)

Abbreviation sums4 := (N * N * N * N)%type.

Lemma wrap_add a b : u64_add (u64_wrap a) (u64_wrap b) = u64_wrap (a + b).
Proof. unfold u64_add, u64_wrap. by rewrite <-N.Div0.add_mod. Qed.
Lemma wrap_add_r a b : u64_add (u64_wrap a) b = u64_wrap (a + b).
Proof. unfold u64_add, u64_wrap. by rewrite N.Div0.add_mod_idemp_l. Qed.

Definition plus4 (a b : sums4) : sums4 :=
  let '(a1, a2, a3, a4) := a in let '(b1, b2, b3, b4) := b in (a1 + b1, a2 + b2, a3 + b3, a4 + b4).
Definition wrap4 (a : sums4) : sums4 := let '(a1, a2, a3, a4) := a in (u64_wrap a1, u64_wrap a2, u64_wrap a3, u64_wrap a4).

Lemma plus4_assoc a b c : plus4 a (plus4 b c) = plus4 (plus4 a b) c.
Proof. destruct a as [[[]]], b as [[[]]], c as [[[]]]. unfold plus4. by rewrite !N.add_assoc. Qed.
Lemma plus4_comm a b : plus4 a b = plus4 b a.
Proof. destruct a as [[[]]], b as [[[]]]. simpl. f_equal; [f_equal; [f_equal|]|]; lia. Qed.
Lemma plus4_0_r a : plus4 a (0, 0, 0, 0) = a.
Proof. destruct a as [[[]]]. simpl. by rewrite !N.add_0_r. Qed.

#[local] Arguments plus4 : simpl never.

(** What one event adds: itself, its duration if usable, its error. *)
Definition share (e : ThEvent) : sums4 :=
  (1, match te_duration e with DOk _ => 1 | _ => 0 end,
   match te_duration e with DOk ns => Z.to_N ns | _ => 0 end, if te_error e then 1 else 0).
Definition shares (evs : list ThEvent) : sums4 := foldr (λ e, plus4 (share e)) (0, 0, 0, 0) evs.

Lemma shares_app l1 l2 : shares (l1 ++ l2) = plus4 (shares l1) (shares l2).
Proof. induction l1 as [|e l1 IH]; simpl; [by rewrite plus4_comm, plus4_0_r|]. by rewrite IH, plus4_assoc. Qed.

(** Splitting a list by a residue loses nothing. *)
Lemma shares_split (f : ThEvent → nat) n evs :
  (∀ e, e ∈ evs → (f e < n)%nat) →
  shares evs = foldr (λ i, plus4 (shares (filter (λ e, f e = i) evs))) (0, 0, 0, 0) (List.seq 0 n).
Proof.
  induction evs as [|e evs IH]; intros Hf.
  { clear Hf. generalize 0%nat. induction n as [|n IHn]; intros k; [done|]. simpl. by rewrite <-IHn. }
  change (shares (e :: evs)) with (plus4 (share e) (shares evs)).
  rewrite IH by (intros x Hx; apply Hf; by right). assert (f e < n)%nat as He by (apply Hf; by left).
  assert (∀ js, NoDup js → f e ∈ js →
    plus4 (share e) (foldr (λ i, plus4 (shares (filter (λ e, f e = i) evs))) (0, 0, 0, 0) js) =
    foldr (λ i, plus4 (shares (filter (λ e, f e = i) (e :: evs)))) (0, 0, 0, 0) js) as H.
  { assert (∀ js, f e ∉ js →
      foldr (λ i, plus4 (shares (filter (λ e, f e = i) evs))) (0, 0, 0, 0) js =
      foldr (λ i, plus4 (shares (filter (λ e, f e = i) (e :: evs)))) (0, 0, 0, 0) js) as Hout.
    { induction js as [|i js IHi]; [done|]. intros Hi. cbn [foldr]. rewrite filter_cons_False by set_solver.
      by rewrite IHi by set_solver. }
    induction js as [|i js IHi]; [by intros _ ?%elem_of_nil|]. intros [Hi Hn]%NoDup_cons Hin. cbn [foldr].
    destruct (decide (f e = i)) as [<-|Hne].
    - rewrite filter_cons_True by done. rewrite <-(Hout js Hi). simpl. by rewrite plus4_assoc.
    - rewrite filter_cons_False by done. rewrite <-IHi by (done || set_solver).
      rewrite !plus4_assoc. f_equal. apply plus4_comm. }
  apply H; [apply NoDup_seq|]. apply elem_of_seq. lia.
Qed.

(** ** The ring *)

Definition bucket_width (def : Threshold) : N := N.max (div_ceil (th_window_ms def) BUCKETS) 1.
Definition ev_epoch (def : Threshold) (e : ThEvent) : N := Z.to_N (Z.max (te_start_ms e) 0) / bucket_width def.
Definition ev_watched (def : Threshold) (e : ThEvent) : bool :=
  match th_group def with
  | Some want => match te_group e with Some g => String.eqb g want | None => false end
  | None => true
  end.

Definition bucket_sums (b : Bucket) : sums4 := (bk_count b, bk_ok_count b, bk_total_ns b, bk_errors b).
Definition at_epoch (def : Threshold) (n : N) (evs : list ThEvent) : list ThEvent :=
  filter (λ e, ev_epoch def e = n) evs.

(** [evs] are the watched spans so far. *)
Record ring_ok (def : Threshold) (evs : list ThEvent) (ring : list Bucket) (head : N) : Prop := {
  ri_length : length ring = N.to_nat BUCKETS;
  ri_epoch i b : ring !! i = Some b →
    bk_epoch b ≤ head ∧ (bk_epoch b mod BUCKETS = N.of_nat i ∨ b = bucket_new);
  ri_live n b : n ≤ head → head < n + BUCKETS → ring !! N.to_nat (n mod BUCKETS) = Some b →
    (bk_epoch b = n → bucket_sums b = wrap4 (shares (at_epoch def n evs))) ∧
    (bk_epoch b ≠ n → at_epoch def n evs = []);
  ri_head e : e ∈ evs → ev_epoch def e ≤ head;
}.

Lemma same_slot a b head :
  a ≤ head → b ≤ head → head < a + BUCKETS → head < b + BUCKETS → a mod BUCKETS = b mod BUCKETS → a = b.
Proof.
  unfold BUCKETS. intros Ha Hb Ha' Hb' E.
  pose proof (N.div_mod a 16 ltac:(done)). pose proof (N.div_mod b 16 ltac:(done)). rewrite E in *.
  assert (∀ x y r, a = 16 * x + r → b = 16 * y + r → a = b) as H1; [|by eapply H1].
  intros x y r -> ->. assert (x = y) as ->; [|done]. nia.
Qed.

Lemma ring_new_ok def : ring_ok def [] (replicate (N.to_nat BUCKETS) bucket_new) 0.
Proof.
  split.
  - by rewrite length_replicate.
  - intros i b [-> _]%lookup_replicate. split; [done|by right].
  - intros n b _ _ [-> _]%lookup_replicate. done.
  - by intros e ?%elem_of_nil.
Qed.

Lemma at_epoch_snoc def n evs x :
  at_epoch def n (evs ++ [x]) = at_epoch def n evs ++ if decide (ev_epoch def x = n) then [x] else [].
Proof. unfold at_epoch. rewrite filter_app, filter_cons, filter_nil. by case_decide. Qed.

Lemma at_epoch_future def n evs ring head : ring_ok def evs ring head → head < n → at_epoch def n evs = [].
Proof.
  intros H Hn. unfold at_epoch.
  destruct (filter _ evs) as [|e l] eqn:E; [done|]. assert (e ∈ filter (λ e, ev_epoch def e = n) evs) as Hin by (rewrite E; by left).
  apply list_elem_of_filter in Hin as [He Hin]. pose proof (ri_head _ _ _ _ H e Hin). lia.
Qed.

(** A late span is in no live bucket. *)
Lemma ring_late def evs ring head x :
  ring_ok def evs ring head → ev_epoch def x + BUCKETS ≤ N.max head (ev_epoch def x) →
  ring_ok def (evs ++ [x]) ring (N.max head (ev_epoch def x)).
Proof.
  intros H Hl. assert (N.max head (ev_epoch def x) = head) as -> by (unfold BUCKETS in *; lia).
  destruct H as [H1 H2 H3 H4]. split; [done|done| |].
  - intros n b Hn Hlive Hb. rewrite at_epoch_snoc. rewrite decide_False by (intros <-; unfold BUCKETS in *; lia).
    rewrite app_nil_r. by apply H3.
  - intros e [He| ->%list_elem_of_singleton]%elem_of_app; [by apply H4|]. unfold BUCKETS in *. lia.
Qed.

Lemma bucket_record_sums b x s :
  bucket_sums b = wrap4 s →
  bucket_sums (bucket_record (bk_epoch b) (te_duration x) (te_error x) b) = wrap4 (plus4 s (share x)).
Proof.
  destruct b as [e c o t er], s as [[[s1 s2] s3] s4]. unfold bucket_sums, bucket_record, share, plus4. simpl.
  intros [= -> -> -> ->]. rewrite N.eqb_refl.
  destruct (te_duration x); simpl; rewrite ?wrap_add_r; destruct (te_error x); by rewrite ?wrap_add_r, ?N.add_0_r.
Qed.

Lemma bucket_record_stale b x ep :
  bk_epoch b ≠ ep →
  bucket_record ep (te_duration x) (te_error x) b = bucket_record ep (te_duration x) (te_error x) (mkBucket ep 0 0 0 0).
Proof. intros H. unfold bucket_record. simpl. rewrite N.eqb_refl. by destruct (N.eqb_spec (bk_epoch b) ep). Qed.

Lemma bucket_record_epoch b x ep : bk_epoch (bucket_record ep (te_duration x) (te_error x) b) = ep.
Proof.
  unfold bucket_record. destruct (N.eqb_spec (bk_epoch b) ep) as [<-|]; by destruct (te_duration x).
Qed.

Lemma ring_accept def evs ring head x :
  let ep := ev_epoch def x in let head' := N.max head ep in
  ring_ok def evs ring head → head' < ep + BUCKETS →
  ring_ok def (evs ++ [x]) (alter (bucket_record ep (te_duration x) (te_error x)) (N.to_nat (ep mod BUCKETS)) ring) head'.
Proof.
  intros ep head' H Hep. pose proof H as [H1 H2 H3 H4].
  assert (ep ≤ head') as Hle by (unfold head'; lia). assert (head ≤ head') as Hh by (unfold head'; lia).
  assert (∀ n b, n ≤ head' → head' < n + BUCKETS → ring !! N.to_nat (n mod BUCKETS) = Some b →
    (bk_epoch b = n → bucket_sums b = wrap4 (shares (at_epoch def n evs))) ∧
    (bk_epoch b ≠ n → at_epoch def n evs = [])) as Hold.
  { intros n b Hn Hlive Hb. destruct (decide (n ≤ head)); [apply H3; [done|lia|done]|].
    destruct (H2 _ _ Hb) as [Hbe _]. split; [lia|]. intros _. by eapply (at_epoch_future _ _ _ _ head); [|lia]. }
  split.
  - by rewrite length_alter.
  - intros i b. destruct (decide (i = N.to_nat (ep mod BUCKETS))) as [->|Hi].
    + rewrite list_lookup_alter_eq.
      destruct (ring !! _) as [b0|]; [|done]. intros [= <-]. rewrite bucket_record_epoch. split; [done|]. left.
      rewrite N2Nat.id. done.
    + rewrite list_lookup_alter_ne by done. intros Hb. destruct (H2 i b Hb) as [? ?]. split; [lia|done].
  - intros n b Hn Hlive. rewrite at_epoch_snoc. fold ep. destruct (decide (ep = n)) as [<-|Hne].
    + rewrite list_lookup_alter_eq. destruct (ring !! _) as [b0|] eqn:E; [|done]. intros [= <-].
      rewrite bucket_record_epoch. split; [intros _|done]. destruct (Hold ep b0 Hn Hlive E) as [Hs He].
      rewrite shares_app. change (shares [x]) with (plus4 (share x) (0, 0, 0, 0)). rewrite plus4_0_r.
      destruct (decide (bk_epoch b0 = ep)) as [Heq|Hneq].
      * specialize (Hs Heq). rewrite <-Heq. apply bucket_record_sums. by rewrite Heq.
      * rewrite bucket_record_stale, (He Hneq) by done. apply (bucket_record_sums (mkBucket ep 0 0 0 0)). done.
    + rewrite app_nil_r. rewrite list_lookup_alter_ne; [by apply Hold|]. intros Hslot.
      apply Hne. apply (same_slot ep n head'); [done|done|done|done|]. lia.
  - intros e [He| ->%list_elem_of_singleton]%elem_of_app; [|done]. specialize (H4 e He). lia.
Qed.

(** ** The window *)

Definition in_window (def : Threshold) (head : N) (e : ThEvent) : Prop :=
  head - (BUCKETS - 1) ≤ ev_epoch def e ≤ head.

Definition is_live (head : N) (b : Bucket) : bool := negb ((bk_epoch b <? head - (BUCKETS - 1)) || (head <? bk_epoch b)).
Definition slot_shares (def : Threshold) (head : N) (evs : list ThEvent) (i : nat) : sums4 :=
  shares (filter (λ e, N.to_nat (ev_epoch def e mod BUCKETS) = i) (filter (in_window def head) evs)).

Lemma window_sums_fold head ring (C : nat → sums4) js a :
  Forall2 (λ b i, (if is_live head b then bucket_sums b else (0, 0, 0, 0)) = wrap4 (C i)) ring js →
  foldl (sum_bucket head) (wrap4 a) ring = wrap4 (plus4 a (foldr (λ i, plus4 (C i)) (0, 0, 0, 0) js)).
Proof.
  intros H. revert a. induction H as [|b i ring js Hb _ IH]; intros a; simpl; [by rewrite plus4_0_r|].
  rewrite plus4_assoc, <-IH. f_equal. unfold is_live in Hb. destruct a as [[[a1 a2] a3] a4]. unfold sum_bucket. simpl.
  destruct (_ || _); simpl in Hb; destruct (C i) as [[[c1 c2] c3] c4]; unfold plus4; simpl in *.
  - injection Hb as E1 E2 E3 E4. rewrite <-!wrap_add, <-E1, <-E2, <-E3, <-E4. by rewrite !wrap_add_r, !N.add_0_r.
  - unfold bucket_sums in Hb. injection Hb as E1 E2 E3 E4. rewrite E1, E2, E3, E4. by rewrite !wrap_add.
Qed.

Lemma slot_sums def evs ring head i b :
  ring_ok def evs ring head → ring !! i = Some b →
  (if is_live head b then bucket_sums b else (0, 0, 0, 0)) = wrap4 (slot_shares def head evs i).
Proof.
  intros H Hb. destruct (ri_epoch _ _ _ _ H i b Hb) as [Hle Hslot].
  assert (i < 16)%nat as Hi by (apply lookup_lt_Some in Hb; rewrite (ri_length _ _ _ _ H) in Hb; exact Hb).
  assert (∀ n, n ≤ head → head < n + BUCKETS → N.to_nat (n mod BUCKETS) = i → bk_epoch b ≠ n → at_epoch def n evs = []) as Hno.
  { intros n Hn Hlive Hni Hne. refine (proj2 (ri_live _ _ _ _ H n b Hn Hlive _) Hne). by rewrite Hni. }
  assert (∀ n, (∀ e, in_window def head e → N.to_nat (ev_epoch def e mod BUCKETS) = i → ev_epoch def e = n) →
    n ≤ head → head < n + BUCKETS → N.to_nat (n mod BUCKETS) = i →
    slot_shares def head evs i = shares (at_epoch def n evs)) as Hone.
  { intros n Hu Hn Hlive Hni. unfold slot_shares, at_epoch. f_equal. rewrite list_filter_filter.
    apply list_filter_iff. intros e. split; [intros [H1 H2]; by apply Hu|]. intros <-. split; [done|].
    unfold in_window, BUCKETS in *. lia. }
  assert ((∀ e, e ∈ evs → in_window def head e → N.to_nat (ev_epoch def e mod BUCKETS) ≠ i) →
    slot_shares def head evs i = (0, 0, 0, 0)) as Hnone.
  { intros Hall. unfold slot_shares. destruct (filter _ (filter _ evs)) as [|e l] eqn:E; [done|].
    assert (e ∈ filter (λ e, N.to_nat (ev_epoch def e mod BUCKETS) = i) (filter (in_window def head) evs)) as Hin by (rewrite E; by left).
    apply list_elem_of_filter in Hin as [H1 [H2 H3]%list_elem_of_filter]. by destruct (Hall e H3 H2). }
  assert (∀ e, in_window def head e → ev_epoch def e ≤ head ∧ head < ev_epoch def e + BUCKETS) as Hwin.
  { intros e He. unfold in_window, BUCKETS in *. lia. }
  assert ((∀ e, in_window def head e → N.to_nat (ev_epoch def e mod BUCKETS) = i → bk_epoch b ≠ ev_epoch def e) →
    slot_shares def head evs i = (0, 0, 0, 0)) as Hempty.
  { intros Hne. apply Hnone. intros e He Hw Hs. destruct (Hwin e Hw) as [W1 W2].
    pose proof (Hno (ev_epoch def e) W1 W2 Hs (Hne e Hw Hs)) as Hz.
    assert (e ∈ at_epoch def (ev_epoch def e) evs) as Hin by by apply list_elem_of_filter.
    rewrite Hz in Hin. by apply elem_of_nil in Hin. }
  unfold is_live. destruct (N.ltb_spec (bk_epoch b) (head - (BUCKETS - 1))) as [Hold|Hnew]; simpl.
  { rewrite Hempty; [done|]. intros e He _ Heq. unfold in_window in He. lia. }
  destruct (N.ltb_spec head (bk_epoch b)); [lia|]. simpl.
  assert (head < bk_epoch b + BUCKETS) as Hlive by (unfold BUCKETS in *; lia).
  destruct (decide (N.to_nat (bk_epoch b mod BUCKETS) = i)) as [Hmod|Hmod].
  - destruct (ri_live _ _ _ _ H (bk_epoch b) b Hle Hlive ltac:(by rewrite Hmod)) as [Hs _].
    rewrite (Hs eq_refl), (Hone (bk_epoch b)); [done| |done|done|done].
    intros e He Hei. destruct (Hwin e He). apply (same_slot _ _ head); [done|done|done|done|lia].
  - destruct Hslot as [Hslot| ->]; [lia|]. rewrite Hempty; [done|]. intros e _ Hei He. simpl in *. rewrite <-He in Hei. done.
Qed.

Lemma window_exact def evs ring head :
  ring_ok def evs ring head → window_sums head ring = wrap4 (shares (filter (in_window def head) evs)).
Proof.
  intros H. unfold window_sums. change (0, 0, 0, 0) with (wrap4 (0, 0, 0, 0)) at 1.
  rewrite (window_sums_fold head ring (slot_shares def head evs) (List.seq 0 16)).
  - rewrite plus4_comm, plus4_0_r.
    rewrite (shares_split (λ e, N.to_nat (ev_epoch def e mod BUCKETS)) 16); [done|].
    intros e _. pose proof (N.mod_lt (ev_epoch def e) BUCKETS ltac:(done)). unfold BUCKETS in *. lia.
  - apply Forall2_same_length_lookup_2; [by rewrite (ri_length _ _ _ _ H)|].
    intros i b j Hb Hj. apply lookup_seq in Hj as [-> _]. by apply (slot_sums def evs ring).
Qed.

(** ** The verdict *)

(** The thousandths a verdict keeps: the [u64] shift drops the two top bits. *)
Definition kept (k : N) : N := k mod 2 ^ 62.
Definition packed (k : N) (now : bool) : N :=
  N.lor (N.lor (u64_wrap (N.shiftl k 2)) (if now then V_BREACHED else 0)) V_EVALUATED.

Lemma wrap_shift k : u64_wrap (N.shiftl k 2) = N.shiftl (kept k) 2.
Proof.
  unfold u64_wrap, kept. rewrite !N.shiftl_mul_pow2. change (u64_max + 1) with (2 ^ 62 * 2 ^ 2).
  by rewrite N.Div0.mul_mod_distr_r.
Qed.

(** What [report] unpacks is what the evaluation packed. *)
Lemma packed_spec k now :
  N.land (packed k now) V_EVALUATED ≠ 0 ∧ negb (N.land (packed k now) V_BREACHED =? 0) = now ∧
  N.shiftr (packed k now) 2 = kept k.
Proof.
  unfold packed. rewrite wrap_shift. set (w := N.shiftl (kept k) 2).
  assert (∀ i, i < 2 → N.testbit w i = false) as Hlow by (intros i Hi; by apply N.shiftl_spec_low).
  split; [|split].
  - intros H. assert (N.testbit (N.land (N.lor (N.lor w (if now then V_BREACHED else 0)) V_EVALUATED) V_EVALUATED) 0 = false)
      as H0 by by rewrite H.
    rewrite N.land_spec, !N.lor_spec, Hlow in H0 by lia. by destruct now.
  - assert (N.land (N.lor (N.lor w (if now then V_BREACHED else 0)) V_EVALUATED) V_BREACHED = if now then V_BREACHED else 0) as ->;
      [|by destruct now].
    apply N.bits_inj. intros i. rewrite N.land_spec, !N.lor_spec. destruct (decide (i = 1)) as [->|Hi].
    + rewrite Hlow by lia. by destruct now.
    + assert (N.testbit V_BREACHED i = false) as Hb by (unfold V_BREACHED; change 2 with (2 ^ 1); by rewrite N.pow2_bits_false).
      rewrite Hb, andb_false_r. by destruct now.
  - rewrite !N.shiftr_lor. unfold w. rewrite N.shiftr_shiftl_l by done. rewrite N.shiftl_0_r.
    destruct now; simpl; by rewrite !N.lor_0_r.
Qed.

(** ** Runs *)

(** The newest epoch of the watched spans, and the watched spans of the window
    that ends there. *)
Definition watched_of (def : Threshold) (evs : list ThEvent) : list ThEvent := filter (λ e, ev_watched def e = true) evs.
Definition newest (def : Threshold) (evs : list ThEvent) : N := foldl (λ h e, N.max h (ev_epoch def e)) 0 (watched_of def evs).
Definition window (def : Threshold) (evs : list ThEvent) : list ThEvent :=
  filter (in_window def (newest def evs)) (watched_of def evs).

Record th_ok (def : Threshold) (evs : list ThEvent) (t : ThresholdState) : Prop := {
  to_def : ts_def t = def;
  to_width : ts_bucket_ms t = bucket_width def;
  to_head : ts_head t = newest def evs;
  to_ring : ring_ok def (watched_of def evs) (ts_ring t) (ts_head t);
  to_verdict : tr_breached (threshold_report t) = ts_breached t;
}.

Lemma watched_snoc def evs e :
  watched_of def (evs ++ [e]) = watched_of def evs ++ if ev_watched def e then [e] else [].
Proof. unfold watched_of. rewrite filter_app, filter_cons, filter_nil. destruct (ev_watched def e); by simplify_option_eq. Qed.

Lemma newest_snoc def evs e :
  newest def (evs ++ [e]) = if ev_watched def e then N.max (newest def evs) (ev_epoch def e) else newest def evs.
Proof. unfold newest. rewrite watched_snoc, foldl_app. by destruct (ev_watched def e). Qed.

(** A span is taken when it is watched and not behind the whole window. *)
Definition taken (def : Threshold) (evs : list ThEvent) (e : ThEvent) : bool :=
  ev_watched def e && negb (ev_epoch def e + BUCKETS <=? N.max (newest def evs) (ev_epoch def e)).

(** What one more span does to the report. *)
Definition judged (def : Threshold) (sums : sums4) (r r' : ThresholdReport) : Prop :=
  match metric_value (th_metric def) sums with
  | Some v =>
      let now := holds (th_op def) v (th_value def) in
      tr_evaluated r' = true ∧ tr_breached r' = now ∧
      tr_last_value r' = Some (f64_div (f64_of_N (kept (thousandths v))) (f64_of_Z 1000)) ∧
      tr_fires r' = if now && negb (tr_breached r) then u64_add (tr_fires r) 1 else tr_fires r
  | None => r' = r
  end.

Lemma evaluate_spec def head t sums :
  ts_def t = def → window_sums head (ts_ring t) = sums → tr_breached (threshold_report t) = ts_breached t →
  judged def sums (threshold_report t) (threshold_report (evaluate_window head t)) ∧
  tr_breached (threshold_report (evaluate_window head t)) = ts_breached (evaluate_window head t) ∧
  ts_def (evaluate_window head t) = ts_def t ∧ ts_bucket_ms (evaluate_window head t) = ts_bucket_ms t ∧
  ts_ring (evaluate_window head t) = ts_ring t ∧ ts_head (evaluate_window head t) = ts_head t.
Proof.
  intros <- Hs Hb. unfold judged, evaluate_window. rewrite Hs.
  destruct (metric_value _ _) as [v|]; [|done]. cbv zeta. fold (packed (thousandths v) (holds (th_op (ts_def t)) v (th_value (ts_def t)))).
  destruct (packed_spec (thousandths v) (holds (th_op (ts_def t)) v (th_value (ts_def t)))) as (P1 & P2 & P3).
  rewrite Hb. unfold threshold_report. cbn [ts_verdict ts_def ts_fires tr_evaluated tr_breached tr_last_value tr_fires ts_breached ts_ring ts_bucket_ms ts_head].
  rewrite P2, P3. assert (negb (N.land (packed (thousandths v) (holds (th_op (ts_def t)) v (th_value (ts_def t)))) V_EVALUATED =? 0) = true) as ->;
    [|done].
  by apply negb_true_iff, N.eqb_neq.
Qed.

Lemma th_step_ok def evs t e :
  th_ok def evs t →
  th_ok def (evs ++ [e]) (th_step t e) ∧
  if taken def evs e then judged def (wrap4 (shares (window def (evs ++ [e])))) (threshold_report t) (threshold_report (th_step t e))
  else threshold_report (th_step t e) = threshold_report t.
Proof.
  intros [H1 H2 H3 H4 H5]. unfold th_step, threshold_record, taken, window.
  assert (watched (te_group e) t = ev_watched def e) as -> by (unfold watched, ev_watched; by rewrite H1).
  assert (epoch_of (te_start_ms e) t = ev_epoch def e) as -> by (unfold epoch_of, ev_epoch; by rewrite H2).
  rewrite H3. pose proof (newest_snoc def evs e) as Hn. pose proof (watched_snoc def evs e) as Hw. rewrite Hn, Hw.
  destruct (ev_watched def e); cbn [negb andb];
    [|split; [split; [done|done|by rewrite Hn|by rewrite Hw, app_nil_r|done]|done]].
  destruct (N.leb_spec (ev_epoch def e + BUCKETS) (N.max (newest def evs) (ev_epoch def e))) as [Hl|Hl]; cbn [negb].
  { split; [|done]. split; [done|done|by rewrite Hn| |done]. rewrite Hw. cbn [set_ring ts_ring ts_head].
    rewrite H3 in H4. by apply ring_late. }
  rewrite H3 in H4. pose proof (ring_accept def _ _ _ e H4 Hl) as Hr.
  edestruct (evaluate_spec def (N.max (newest def evs) (ev_epoch def e))
    (set_ring (alter (bucket_record (ev_epoch def e) (te_duration e) (te_error e)) (N.to_nat (ev_epoch def e mod BUCKETS)) (ts_ring t))
      (N.max (newest def evs) (ev_epoch def e)) t)) as (E1 & E2 & E3 & E4 & E5 & E6); [done|by apply window_exact|done|].
  split; [|exact E1]. split; [by rewrite E3|by rewrite E4|by rewrite E6, Hn|rewrite E5, E6, Hw; exact Hr|done].
Qed.

Lemma th_run_ok def evs : th_ok def evs (th_run def evs).
Proof.
  unfold th_run. induction evs as [|e evs IH] using rev_ind; [split; [done|done|done|apply ring_new_ok|done]|].
  rewrite foldl_app. by apply th_step_ok.
Qed.

(** C31: the sixteen atomic buckets are a sliding window. After any spans, one
    more that is watched and not behind the window is judged by the metric of
    exactly the watched spans whose epochs are within sixteen of the newest
    one, in whatever order they came; the report says that verdict and value,
    and the fire count rises exactly when the threshold goes from clear to
    breached. A span of another group, or one behind the window, and a window
    whose metric is undefined leave the report alone. *)
Theorem threshold_window def evs e :
  let r := threshold_report (th_run def evs) in
  let r' := threshold_report (th_run def (evs ++ [e])) in
  if taken def evs e then judged def (wrap4 (shares (window def (evs ++ [e])))) r r' else r' = r.
Proof.
  pose proof (th_step_ok def evs _ e (th_run_ok def evs)) as [_ H]. unfold th_run in *. by rewrite foldl_app.
Qed.

(** Two spans fire once; a third keeps the breach; a span sixteen epochs on
    judges a window that holds only itself. *)
Definition two_or_more : Threshold := mkThreshold MCount None OpGte (f64_of_Z 2) 1600.
Definition span_at (ms : Z) : ThEvent := mkEvent ms (DOk 5) false None.

Example window_slides :
  (λ evs, let r := threshold_report (th_run two_or_more evs) in (tr_breached r, tr_fires r)) <$>
    [[span_at 0]; [span_at 0; span_at 150]; [span_at 0; span_at 150; span_at 100];
     [span_at 0; span_at 150; span_at 100; span_at 1700]] =
  [(false, 0); (true, 1); (true, 1); (false, 1)].
Proof. vm_compute. reflexivity. Qed.
