(* ===== verification/Collector.v ===== *)
(** * Collector: one span collector ([collector/state.rs])

    Everything behind the collector's lock is [Inner]; the rolling threshold
    beside it is [Threshold.v]'s. A step is one call: the lock makes it atomic. *)

From S2P Require Import Prelude Text F64 Gelf Filter Matcher Measure Threshold.

Set Default Proof Using "Type".
Local Open Scope N_scope.

Definition MAX_GROUP_TUPLES : N := 256.
#[global] Arguments MAX_GROUP_TUPLES : simpl never.

(** The scalars of a [serde_json::Value] other than strings: [true] and [false],
    and a number's [to_string]. *)
Class JsonScalars {X : Externals} := {
  Value_as_bool : Value → option bool;
  Value_as_number : Value → option string;
}.

Section collector.
Context {X : Externals} {SK : SketchCrate} {J : JsonScalars}.

Record CollectorDef := mkDef {
  cd_name : string;
  cd_filter_string : string;
  cd_filter : ParsedFilter;
  cd_level : CollectLevel;
  cd_group_keys : list string;
  cd_max_sample_bytes : N;
  cd_description : option string;
  cd_threshold : option Threshold;
}.

Record Inner := mkInnerState {
  ci_total : ExactStats;
  ci_per_name : gmap N ExactStats;
  ci_per_group : gmap (list N) ExactStats;
  ci_names : Interner;
  ci_group_values : list Interner;
  ci_samples : SampleTier;
  ci_armed_at : Z;
  ci_zeroed_at : option Z;
  ci_group_tuples_capped : bool;
}.

Definition inner_new (def : CollectorDef) (now : Z) : Inner :=
  mkInnerState exact_new ∅ ∅ (interner_new DEFAULT_NAME_CAP)
    ((λ _, interner_new DEFAULT_GROUP_VALUE_CAP) <$> cd_group_keys def)
    (tier_new (cd_level def) (N.of_nat (length (cd_group_keys def))) (cd_max_sample_bytes def)) now None false.

Record CollectorSnapshot := mkCSnap {
  cs_def : CollectorDef;
  cs_total : ExactStats;
  cs_per_name : gmap N ExactStats;
  cs_per_group : gmap (list N) ExactStats;
  cs_names : Interner;
  cs_group_values : list Interner;
  cs_samples : SampleSnapshot;
  cs_armed_at : Z;
  cs_zeroed_at : option Z;
  cs_group_tuples_capped : bool;
}.

Definition window_start (s : CollectorSnapshot) : Z :=
  match cs_zeroed_at s with
  | Some z => if (cs_armed_at s <? z)%Z then z else cs_armed_at s
  | None => cs_armed_at s
  end.

Definition cardinality_capped (s : CollectorSnapshot) : bool :=
  in_capped (cs_names s) || cs_group_tuples_capped s || existsb in_capped (cs_group_values s).

Record Collector := mkCollector {
  co_def : CollectorDef;
  co_inner : Inner;
  co_threshold : option ThresholdState;
}.

Definition collector_new (def : CollectorDef) (now : Z) : Collector :=
  mkCollector def (inner_new def now) (threshold_new <$> cd_threshold def).

Definition set_zeroed_at (z : option Z) (i : Inner) : Inner :=
  mkInnerState (ci_total i) (ci_per_name i) (ci_per_group i) (ci_names i) (ci_group_values i)
    (ci_samples i) (ci_armed_at i) z (ci_group_tuples_capped i).

Definition new_restored (def : CollectorDef) (armed_at restored_at : Z) : Collector :=
  let me := collector_new def armed_at in
  mkCollector (co_def me) (set_zeroed_at (Some restored_at) (co_inner me)) (co_threshold me).

Definition is_zeroed (c : Collector) : bool := es_count (ci_total (co_inner c)) =? 0.

Definition render_attribute (v : Value) : option string :=
  match Value_as_str v with
  | Some s => Some s
  | None =>
      match Value_as_bool v with
      | Some b => Some (if b then "true" else "false")%string
      | None => Value_as_number v
      end
  end.

(** The rendered value of a group key on a span. *)
Definition group_attribute (key : string) (s : SpanEntry) : option string :=
  sp_attributes s !! key ≫= render_attribute.

(** The loop over the group keys, one interner each. *)
Fixpoint intern_groups (keys : list string) (s : SpanEntry) (ins : list Interner) : list N * list Interner :=
  match keys, ins with
  | key :: keys, i :: ins =>
      let '(id, i) := match group_attribute key s with
                      | None => (ABSENT_ID, i)
                      | Some v => intern v i
                      end in
      let '(ids, ins) := intern_groups keys s ins in
      (id :: ids, i :: ins)
  | _, _ => ([], ins)
  end.

Definition record_in {K} `{Countable K} (k : K) (d : SpanDuration) (err : bool) (m : gmap K ExactStats)
  : gmap K ExactStats :=
  <[k := exact_record d err (default exact_new (m !! k))]> m.

(** The group aggregate: the ids the record carries, and the three fields it
    touches. *)
Definition record_group (keys : list string) (s : SpanEntry) (d : SpanDuration) (err : bool)
  (values : list Interner) (groups : gmap (list N) ExactStats) (capped : bool)
  : list N * list Interner * gmap (list N) ExactStats * bool :=
  match keys with
  | [] => ([], values, groups, capped)
  | _ =>
      let '(ids, values) := intern_groups keys s values in
      let full := negb (bool_decide (is_Some (groups !! ids))) && (MAX_GROUP_TUPLES <=? N.of_nat (size groups)) in
      let ids := if full then replicate (length keys) OVERFLOW_ID else ids in
      (ids, values, record_in ids d err groups, capped || full)
  end.

Definition sample_of (s : SpanEntry) (name_id : N) (start end_ : Z) : SampleRecord :=
  mkSample start end_ name_id (pack_flags (sp_status s) (sp_kind s)) (sp_span_id s)
    (default 0 (sp_parent_span_id s)) (sp_trace_id s).

Definition ingest_inner (def : CollectorDef) (s : SpanEntry) (i : Inner) : Inner :=
  let d := classify s in
  let err := is_error s in
  let total := exact_record d err (ci_total i) in
  let '(name_id, names) := intern (sp_name s) (ci_names i) in
  let per_name := record_in name_id d err (ci_per_name i) in
  let '(ids, values, per_group, capped) :=
    record_group (cd_group_keys def) s d err (ci_group_values i) (ci_per_group i) (ci_group_tuples_capped i) in
  let samples :=
    match d, timestamp_nanos_opt (sp_start_time s), timestamp_nanos_opt (sp_end_time s) with
    | DOk _, Some start, Some end_ => (tier_push (sample_of s name_id start end_) ids (ci_samples i)).2
    | _, _, _ => ci_samples i
    end in
  mkInnerState total per_name per_group names values samples (ci_armed_at i) (ci_zeroed_at i) capped.

(** The first group key's value, kept when the threshold names a group. *)
Definition threshold_group (def : CollectorDef) (s : SpanEntry) (t : ThresholdState) : option string :=
  match th_group (ts_def t), cd_group_keys def with
  | Some _, key :: _ => group_attribute key s
  | _, _ => None
  end.

(** [timestamp_millis]: towards minus infinity. *)
Definition timestamp_millis (t : Z) : Z := (t / 1000000)%Z.

Definition ingest (s : SpanEntry) (c : Collector) : Collector :=
  mkCollector (co_def c) (ingest_inner (co_def c) s (co_inner c))
    ((λ t, threshold_record (timestamp_millis (sp_start_time s)) (classify s) (is_error s)
             (threshold_group (co_def c) s t) t) <$> co_threshold c).

Definition snapshot_of (def : CollectorDef) (i : Inner) : CollectorSnapshot :=
  mkCSnap def (ci_total i) (ci_per_name i) (ci_per_group i) (ci_names i) (ci_group_values i)
    (tier_snapshot (ci_samples i)) (ci_armed_at i) (ci_zeroed_at i) (ci_group_tuples_capped i).

Definition collector_snapshot (c : Collector) : CollectorSnapshot := snapshot_of (co_def c) (co_inner c).

(** The view taken, and the collector left. *)
Definition collector_swap (now : Z) (c : Collector) : CollectorSnapshot * Collector :=
  let fresh := set_zeroed_at (Some now) (inner_new (co_def c) (ci_armed_at (co_inner c))) in
  (snapshot_of (co_def c) (co_inner c), mkCollector (co_def c) fresh (threshold_clear <$> co_threshold c)).

(** The fields are copied one by one over a fresh [Inner]. *)
Definition with_def (def : CollectorDef) (c : Collector) : Collector :=
  let g := co_inner c in
  mkCollector def
    (mkInnerState (ci_total g) (ci_per_name g) (ci_per_group g) (ci_names g) (ci_group_values g)
       (ci_samples g) (ci_armed_at g) (ci_zeroed_at g) (ci_group_tuples_capped g))
    (co_threshold c).
End collector.
