(* ===== verification/CollectorSamples.v ===== *)
(** * CollectorSamples: a concrete sketch, spans and definitions for collectors *)

From S2P Require Import Prelude Text F64 Gelf Filter Matcher Measure Threshold Collector.

Set Default Proof Using "Type".
Local Open Scope N_scope.

(** A sketch that counts. *)
Definition sample_sketch : SketchCrate := {|
  DDSketch := N;
  dd_new := λ _ _ _, 0;
  dd_add := λ _, N.succ;
  dd_quantile := λ _ n, if n =? 0 then None else Some (f64_of_N n);
  dd_count := id;
  dd_merge := λ a b, Some (a + b);
  dd_bytes := λ n, [n];
  dd_from_bytes := λ b, match b with [n] => Some n | _ => None end;
|}.

#[export] Existing Instance sample_externals.
#[export] Existing Instance sample_sketch.
#[export] Instance sample_scalars : JsonScalars := {| Value_as_bool := λ _, None; Value_as_number := λ _, None |}.

Definition sample_span (name : string) (start end_ : Z) : SpanEntry :=
  mkSpanEntry 0 7 1 None start end_ (f64_of_Z 1) name KServer "svc" SUnset ∅ [].
Definition sample_def (level : CollectLevel) : CollectorDef :=
  mkDef "perf" "ALL" FAll level ["region"%string] 1024 None None.
Definition sample_spans : list SpanEntry :=
  [sample_span "a" 10 30; sample_span "b" 20 15; sample_span "a" 0 5; sample_span "a" 40 41].
