(* ===== verification/CollectorSpec.v ===== *)
(** * CollectorSpec: what a collector's figures mean *)

From S2P Require Import Prelude Text F64 Gelf Filter Matcher Measure MeasureSpec Threshold Collector CollectorSamples.

Set Default Proof Using "Type".
Local Open Scope N_scope.

Section spec.
Context {X : Externals} {SK : SketchCrate} {J : JsonScalars}.

Definition obs (s : SpanEntry) : SpanDuration * bool := (classify s, is_error s).

(** ** One map of aggregates *)

Section aggregates.
Context {K : Type} `{Countable K}.

(** The aggregate of the spans whose key is [k], if there is any. *)
Definition stats_at (key : SpanEntry → K) (k : K) (l : list SpanEntry) : option ExactStats :=
  match filter (λ s, key s = k) l with
  | [] => None
  | f => Some (stats_of (obs <$> f))
  end.

Definition agg_holds (key : SpanEntry → K) (l : list SpanEntry) (m : gmap K ExactStats) : Prop :=
  ∀ k, m !! k = stats_at key k l.

Lemma agg_ext key key' l m : (∀ s, s ∈ l → key' s = key s) → agg_holds key l m → agg_holds key' l m.
Proof.
  intros Hk Hm k. rewrite Hm. unfold stats_at.
  assert (filter (λ s, key' s = k) l = filter (λ s, key s = k) l) as ->; [|done].
  clear Hm. induction l as [|s l IH]; [done|]. rewrite !filter_cons, Hk by by left.
  rewrite IH; [done|]. intros x Hx. apply Hk. by right.
Qed.

Lemma agg_snoc key l m s :
  agg_holds key l m → agg_holds key (l ++ [s]) (record_in (key s) (classify s) (is_error s) m).
Proof.
  intros Hm k. unfold record_in, stats_at. rewrite filter_app, filter_cons, filter_nil.
  destruct (decide (key s = k)) as [<-|Hne].
  - rewrite lookup_insert_eq, Hm. unfold stats_at. destruct (filter _ l) as [|x f]; [done|]. simpl.
    rewrite !fmap_app. simpl. f_equal. rewrite app_comm_cons. symmetry. apply (stats_of_snoc (obs x :: (obs <$> f)) (obs s)).
  - rewrite lookup_insert_ne, app_nil_r by done. by rewrite Hm.
Qed.

Lemma agg_empty key : agg_holds key [] ∅.
Proof. intros k. by rewrite lookup_empty. Qed.

Lemma agg_keys key l m k : agg_holds key l m → is_Some (m !! k) ↔ ∃ s, s ∈ l ∧ key s = k.
Proof.
  intros Hm. rewrite Hm. unfold stats_at. destruct (filter (λ s, key s = k) l) as [|x f] eqn:E.
  - split; [by intros []|]. intros (s & Hs & Hk). assert (s ∈ filter (λ s, key s = k) l) as Hin by by apply list_elem_of_filter.
    rewrite E in Hin. by apply elem_of_nil in Hin.
  - split; [|by eexists]. intros _. exists x. assert (x ∈ filter (λ s, key s = k) l) as Hin by (rewrite E; by left).
    apply list_elem_of_filter in Hin. tauto.
Qed.
End aggregates.

(** ** The group ids of a span *)

Definition group_ids (keys : list string) (values : list Interner) (s : SpanEntry) : list N :=
  zip_with (λ k i, match group_attribute k s with None => ABSENT_ID | Some v => id_in i v end) keys values.

Definition groups_offered (keys : list string) (values : list Interner) (s : SpanEntry) : Prop :=
  Forall2 (λ k i, ∀ v, group_attribute k s = Some v → offered i v) keys values.

Lemma intern_groups_spec keys s values :
  length keys = length values → Forall interner_ok values →
  let '(ids, values') := intern_groups keys s values in
  ids = group_ids keys values' s ∧ groups_offered keys values' s ∧ length keys = length values' ∧
  Forall interner_ok values' ∧
  ∀ s', groups_offered keys values s' → groups_offered keys values' s' ∧ group_ids keys values' s' = group_ids keys values s'.
Proof.
  revert values. induction keys as [|key keys IH]; intros [|i values]; simpl; try done.
  { intros _ _. split_and!; try done. constructor. }
  intros [= Hl] [Hi Hv]%Forall_cons. specialize (IH values Hl Hv).
  destruct (group_attribute key s) as [v|] eqn:Ev.
  - pose proof (intern_id v i) as I1. pose proof (intern_offered v i) as I2. pose proof (intern_ok v i Hi) as I3.
    pose proof (λ w, intern_stable w v i) as I4.
    destruct (intern v i) as [id i']. destruct (intern_groups keys s values) as [ids values']. simpl in *.
    destruct IH as (H1 & H2 & H3 & H4 & H5). unfold group_ids in *. simpl.
    rewrite ?Ev, <-I1, <-H1.
    split_and!; [done| |congruence|by constructor|].
    + constructor; [|done]. intros w Hw. by assert (w = v) as -> by congruence.
    + intros s' [Ho Hos]%Forall2_cons. destruct (H5 s' Hos) as [H6 H7]. simpl. rewrite H7. split.
      * constructor; [|done]. intros w Hw. by apply I4, Ho.
      * f_equal. destruct (group_attribute key s') as [w|] eqn:Ew; [|done]. by apply I4, Ho.
  - destruct (intern_groups keys s values) as [ids values']. destruct IH as (H1 & H2 & H3 & H4 & H5).
    unfold group_ids in *. simpl. rewrite ?Ev, <-H1. split_and!; [done| |congruence|by constructor|].
    + constructor; [|done]. intros w Hw. congruence.
    + intros s' [Ho Hos]%Forall2_cons. destruct (H5 s' Hos) as [H6 H7]. simpl. rewrite H7. split; [by constructor|done].
Qed.

Lemma group_ids_length keys values s : length keys = length values → length (group_ids keys values s) = length keys.
Proof. intros H. unfold group_ids. rewrite length_zip_with. lia. Qed.

(** The row a span's figures are in: its own tuple if that has a row, else the
    overflow row. *)
Definition row_in (keys : list string) (values : list Interner) (groups : gmap (list N) ExactStats) (s : SpanEntry)
  : list N :=
  let ids := group_ids keys values s in
  if bool_decide (is_Some (groups !! ids)) then ids else replicate (length keys) OVERFLOW_ID.
Definition group_row (def : CollectorDef) (i : Inner) : SpanEntry → list N :=
  row_in (cd_group_keys def) (ci_group_values i) (ci_per_group i).

Definition name_row (i : Inner) (s : SpanEntry) : N := id_in (ci_names i) (sp_name s).

(** The well-formed spans, and what they offer the sample tier. *)
Definition well_formed (s : SpanEntry) : bool := match classify s with DOk _ => true | _ => false end.
Definition offer_of (def : CollectorDef) (i : Inner) (s : SpanEntry) : SampleRecord * list N :=
  (sample_of s (name_row i s) (sp_start_time s) (sp_end_time s), group_row def i s).

Definition fresh_tier (def : CollectorDef) : SampleTier :=
  tier_new (cd_level def) (N.of_nat (length (cd_group_keys def))) (cd_max_sample_bytes def).

(** [i] is the state after exactly the spans of [l], in that order. *)
Record collected (def : CollectorDef) (l : list SpanEntry) (i : Inner) : Prop := {
  cl_total : ci_total i = stats_of (obs <$> l);
  cl_names : interner_ok (ci_names i);
  cl_name_cap : in_cap (ci_names i) = DEFAULT_NAME_CAP;
  cl_offered s : s ∈ l → offered (ci_names i) (sp_name s);
  cl_per_name : agg_holds (name_row i) l (ci_per_name i);
  cl_values : Forall interner_ok (ci_group_values i);
  cl_values_len : length (cd_group_keys def) = length (ci_group_values i);
  cl_group_offered s : s ∈ l → groups_offered (cd_group_keys def) (ci_group_values i) s;
  cl_per_group : if decide (cd_group_keys def = []) then ci_per_group i = ∅
                 else agg_holds (group_row def i) l (ci_per_group i);
  cl_settled s : s ∈ l → cd_group_keys def ≠ [] →
    is_Some (ci_per_group i !! group_ids (cd_group_keys def) (ci_group_values i) s) ∨
    MAX_GROUP_TUPLES ≤ N.of_nat (size (ci_per_group i)) ∧ ci_group_tuples_capped i = true;
  cl_group_size : N.of_nat (size (ci_per_group i)) ≤ MAX_GROUP_TUPLES + 1;
  cl_overflow : MAX_GROUP_TUPLES < N.of_nat (size (ci_per_group i)) →
    is_Some (ci_per_group i !! replicate (length (cd_group_keys def)) OVERFLOW_ID);
  cl_samples : ci_samples i = foldl tier_offer (fresh_tier def) (offer_of def i <$> List.filter well_formed l);
}.

Lemma collected_new def now : collected def [] (inner_new def now).
Proof.
  split; simpl; try done; try (by intros s ?%elem_of_nil); try apply interner_new_ok; try apply agg_empty.
  - apply Forall_fmap, Forall_true. intros k. apply interner_new_ok.
  - by rewrite length_fmap.
  - case_decide; [done|]. apply agg_empty.
Qed.

Lemma record_in_known {K} `{Countable K} (k k' : K) d err m :
  is_Some (record_in k d err m !! k') ↔ k' = k ∨ is_Some (m !! k').
Proof.
  unfold record_in. destruct (decide (k = k')) as [<-|Hne].
  - rewrite lookup_insert_eq. split; [by left|by eexists].
  - rewrite lookup_insert_ne by done. naive_solver.
Qed.

Lemma record_in_size {K} `{Countable K} (k : K) d err m :
  size (record_in k d err m) = if decide (is_Some (m !! k)) then size m else S (size m).
Proof.
  unfold record_in. rewrite map_size_insert. destruct (m !! k) eqn:E; case_decide as Hd; try done.
  - by destruct Hd.
Qed.

(** The groups after one more span: its row is the one recorded in, and no other
    span's row moves. *)
Lemma record_group_spec keys s l values groups capped :
  keys ≠ [] → length keys = length values → Forall interner_ok values →
  (∀ x, x ∈ l → groups_offered keys values x) →
  (∀ x, x ∈ l → is_Some (groups !! group_ids keys values x) ∨ MAX_GROUP_TUPLES ≤ N.of_nat (size groups) ∧ capped = true) →
  N.of_nat (size groups) ≤ MAX_GROUP_TUPLES + 1 →
  (MAX_GROUP_TUPLES < N.of_nat (size groups) → is_Some (groups !! replicate (length keys) OVERFLOW_ID)) →
  agg_holds (row_in keys values groups) l groups →
  let '(ids, values', groups', capped') := record_group keys s (classify s) (is_error s) values groups capped in
  ids = row_in keys values' groups' s ∧
  agg_holds (row_in keys values' groups') (l ++ [s]) groups' ∧
  length keys = length values' ∧ Forall interner_ok values' ∧
  (∀ x, x ∈ l ++ [s] → groups_offered keys values' x) ∧
  (∀ x, x ∈ l ++ [s] → is_Some (groups' !! group_ids keys values' x) ∨
                       MAX_GROUP_TUPLES ≤ N.of_nat (size groups') ∧ capped' = true) ∧
  N.of_nat (size groups') ≤ MAX_GROUP_TUPLES + 1 ∧
  (MAX_GROUP_TUPLES < N.of_nat (size groups') → is_Some (groups' !! replicate (length keys) OVERFLOW_ID)) ∧
  (∀ x, x ∈ l → row_in keys values' groups' x = row_in keys values groups x).
Proof.
  intros Hk Hl Hv Ho Hs Hsz Hov Hagg. unfold record_group. destruct keys as [|key keys0] eqn:Ek; [done|]. rewrite <-Ek in *. clear Hk.
  pose proof (intern_groups_spec keys s values Hl Hv) as Hi.
  destruct (intern_groups keys s values) as [ids values']. destruct Hi as (-> & I2 & I3 & I4 & I5).
  set (ids := group_ids keys values' s). set (over := replicate (length keys) OVERFLOW_ID) in *.
  set (full := negb (bool_decide (is_Some (groups !! ids))) && (MAX_GROUP_TUPLES <=? N.of_nat (size groups))).
  set (row := if full then over else ids). set (groups' := record_in row (classify s) (is_error s) groups).
  assert (∀ x, x ∈ l → group_ids keys values' x = group_ids keys values x) as Hids by (intros x Hx; by apply I5, Ho).
  assert (∀ k, is_Some (groups' !! k) ↔ k = row ∨ is_Some (groups !! k)) as Hin by (intros; apply record_in_known).
  assert (full = true → ¬ is_Some (groups !! ids) ∧ MAX_GROUP_TUPLES ≤ N.of_nat (size groups)) as Hft.
  { intros [H1 H2]%andb_true_iff. by bool_to_prop. }
  assert (full = false → is_Some (groups !! ids) ∨ N.of_nat (size groups) < MAX_GROUP_TUPLES) as Hff.
  { intros [H1|H1]%andb_false_iff; bool_to_prop; [by left|by right]. }
  assert (row = row_in keys values' groups' s) as Hrow.
  { unfold row_in. fold ids over. case_bool_decide as Hd; unfold row in *; destruct full; try done.
    - apply Hin in Hd as [Hd|Hd]; [done|]. by destruct (Hft eq_refl).
    - destruct Hd. apply Hin. by left. }
  assert (∀ x, x ∈ l → row_in keys values' groups' x = row_in keys values groups x) as Hsame.
  { intros x Hx. unfold row_in. rewrite (Hids x Hx). fold over.
    case_bool_decide as H1; case_bool_decide as H2; try done.
    - apply Hin in H1 as [H1|]; [|done]. unfold row in H1. destruct full; [done|]. rewrite H1 in H2.
      destruct (Hff eq_refl) as [?|?]; [done|]. destruct (Hs x Hx) as [H3|[? _]]; [by rewrite H1 in H3|lia].
    - destruct H1. apply Hin. by right. }
  assert (size groups' = if decide (is_Some (groups !! row)) then size groups else S (size groups)) as Hsize
    by apply record_in_size.
  split; [done|]. split.
  { pose proof (agg_snoc (row_in keys values' groups') l groups s (agg_ext _ _ _ _ Hsame Hagg)) as H.
    rewrite <-Hrow in H. exact H. }
  split; [done|]. split; [done|]. split.
  { intros x [Hx| ->%list_elem_of_singleton]%elem_of_app; [by apply I5, Ho|done]. }
  split; [|split; [|split; [|done]]].
  - intros x [Hx| ->%list_elem_of_singleton]%elem_of_app.
    + rewrite (Hids x Hx). destruct (Hs x Hx) as [H1|[H1 H2]]; [left; apply Hin; by right|right].
      rewrite H2. split; [|done]. rewrite Hsize. case_decide; lia.
    + fold ids. destruct full eqn:Ef; [right|left; apply Hin; by left].
      destruct (Hft eq_refl) as [H1 H2]. rewrite orb_true_r. split; [|done]. rewrite Hsize. case_decide; lia.
  - rewrite Hsize. case_decide as Hd; [done|]. unfold row in Hd. destruct full.
    + destruct (decide (MAX_GROUP_TUPLES < N.of_nat (size groups))); [by destruct Hd; apply Hov|lia].
    + destruct (Hff eq_refl); [done|lia].
  - rewrite Hsize. case_decide as Hd.
    + intros H. apply Hin. right. by apply Hov.
    + intros H. unfold row in *. destruct full; [apply Hin; by left|]. destruct (Hff eq_refl); [done|lia].
Qed.

Lemma record_group_nil s d err values groups capped : record_group [] s d err values groups capped = ([], values, groups, capped).
Proof. done. Qed.

Lemma well_formed_stamps s : well_formed s = true →
  timestamp_nanos_opt (sp_start_time s) = Some (sp_start_time s) ∧
  timestamp_nanos_opt (sp_end_time s) = Some (sp_end_time s) ∧ ∃ ns, classify s = DOk ns.
Proof.
  unfold well_formed, classify. unfold timestamp_nanos_opt. destruct (fits_i64 (sp_start_time s)), (fits_i64 (sp_end_time s)); try done.
  intros H. split_and!; [done|done|]. repeat case_match; try done. by eexists.
Qed.

(** What [ingest] does to the groups, whether or not the collector has keys. *)
Lemma ingest_groups def l i s :
  collected def l i →
  let '(ids, values, groups, capped) :=
    record_group (cd_group_keys def) s (classify s) (is_error s) (ci_group_values i) (ci_per_group i)
      (ci_group_tuples_capped i) in
  ids = row_in (cd_group_keys def) values groups s ∧
  (if decide (cd_group_keys def = []) then groups = ∅
   else agg_holds (row_in (cd_group_keys def) values groups) (l ++ [s]) groups) ∧
  length (cd_group_keys def) = length values ∧ Forall interner_ok values ∧
  (∀ x, x ∈ l ++ [s] → groups_offered (cd_group_keys def) values x) ∧
  (∀ x, x ∈ l ++ [s] → cd_group_keys def ≠ [] → is_Some (groups !! group_ids (cd_group_keys def) values x) ∨
                       MAX_GROUP_TUPLES ≤ N.of_nat (size groups) ∧ capped = true) ∧
  N.of_nat (size groups) ≤ MAX_GROUP_TUPLES + 1 ∧
  (MAX_GROUP_TUPLES < N.of_nat (size groups) → is_Some (groups !! replicate (length (cd_group_keys def)) OVERFLOW_ID)) ∧
  (∀ x, x ∈ l → row_in (cd_group_keys def) values groups x = group_row def i x).
Proof.
  intros [_ _ _ _ _ C6 C7 C8 C9 C10 C11 C12 _]. destruct (decide (cd_group_keys def = [])) as [Ek|Hk].
  - rewrite Ek in *. unfold group_row. rewrite Ek, record_group_nil. simpl in C7.
    destruct (ci_group_values i); [|done]. rewrite C9 in *.
    split_and!; try done. intros x _. constructor.
  - pose proof (record_group_spec (cd_group_keys def) s l (ci_group_values i) (ci_per_group i)
      (ci_group_tuples_capped i) Hk C7 C6 C8 (λ x Hx, C10 x Hx Hk) C11 C12 C9) as H.
    destruct (record_group _ _ _ _ _ _ _) as [[[ids values] groups] capped].
    destruct H as (H1 & H2 & H3 & H4 & H5 & H6 & H7 & H8 & H9). split_and!; try done. intros x Hx _. by apply H6.
Qed.

Lemma ingest_collected def l i s : collected def l i → collected def (l ++ [s]) (ingest_inner def s i).
Proof.
  intros C. pose proof (ingest_groups def l i s C) as HG. destruct C as [C1 C2 C3 C4 C5 C6 C7 C8 C9 C10 C11 C12 C13].
  unfold ingest_inner. pose proof (intern_id (sp_name s) (ci_names i)) as N1.
  pose proof (intern_offered (sp_name s) (ci_names i)) as N2. pose proof (intern_ok (sp_name s) _ C2) as N3.
  pose proof (λ v, intern_stable v (sp_name s) (ci_names i)) as N4. pose proof (intern_cap (sp_name s) (ci_names i)) as N5.
  destruct (intern (sp_name s) (ci_names i)) as [name_id names]. cbn [fst snd] in *.
  destruct (record_group _ _ _ _ _ _ _) as [[[ids values] groups] capped].
  destruct HG as (G1 & G2 & G3 & G4 & G5 & G6 & G7 & G8 & G9).
  set (i' := mkInnerState _ _ _ _ _ _ _ _ _).
  assert (∀ x, x ∈ l → name_row i' x = name_row i x) as Hname by (intros x Hx; by apply N4, C4).
  assert (∀ x, x ∈ l → offer_of def i' x = offer_of def i x) as Hoffer.
  { intros x Hx. unfold offer_of. rewrite (Hname x Hx). f_equal. by apply G9. }
  split; try done.
  - cbn [ci_total i']. rewrite C1, fmap_app. symmetry. apply (stats_of_snoc (obs <$> l) (obs s)).
  - simpl. congruence.
  - intros x [Hx| ->%list_elem_of_singleton]%elem_of_app; [by apply N4, C4|done].
  - unfold i' at 2. cbn [ci_per_name]. rewrite N1. change (id_in names (sp_name s)) with (name_row i' s).
    apply agg_snoc. by eapply agg_ext.
  - assert (ci_samples i' =
      match classify s, timestamp_nanos_opt (sp_start_time s), timestamp_nanos_opt (sp_end_time s) with
      | DOk _, Some start, Some end_ => (tier_push (sample_of s name_id start end_) ids (ci_samples i)).2
      | _, _, _ => ci_samples i
      end) as -> by done.
    rewrite C13, List.filter_app, fmap_app, foldl_app.
    assert (offer_of def i' <$> List.filter well_formed l = offer_of def i <$> List.filter well_formed l) as E.
    { apply list_fmap_ext. intros k x Hx. apply Hoffer. apply list_elem_of_lookup_2, elem_of_lfilter in Hx. tauto. }
    rewrite E. simpl. destruct (well_formed s) eqn:Ew.
    + destruct (well_formed_stamps s Ew) as (-> & -> & ns & ->). simpl. unfold tier_offer at 2, offer_of. simpl.
      unfold name_row, group_row. simpl. by rewrite <-N1, <-G1.
    + unfold well_formed in Ew. by destruct (classify s).
Qed.

Definition ingest_all (l : list SpanEntry) (c : Collector) : Collector := foldl (λ c s, ingest s c) c l.

Lemma ingest_all_collected l0 l c :
  collected (co_def c) l0 (co_inner c) →
  let c' := ingest_all l c in
  co_def c' = co_def c ∧ collected (co_def c) (l0 ++ l) (co_inner c') ∧
  ci_armed_at (co_inner c') = ci_armed_at (co_inner c) ∧ ci_zeroed_at (co_inner c') = ci_zeroed_at (co_inner c).
Proof.
  intros Hc. induction l as [|s l (IH1 & IH2 & IH3 & IH4)] using rev_ind; [by rewrite app_nil_r|].
  unfold ingest_all in *. rewrite foldl_app. simpl. rewrite IH1, (assoc_L app).
  split; [done|]. split; [by apply ingest_collected|].
  unfold ingest_inner. destruct (intern _ _). destruct (record_group _ _ _ _ _ _ _) as [[[? ?] ?] ?]. done.
Qed.

Definition collector_run (def : CollectorDef) (now : Z) (l : list SpanEntry) : Collector :=
  ingest_all l (collector_new def now).

Lemma run_collected def now l : collected def l (co_inner (collector_run def now l)).
Proof. apply (ingest_all_collected [] l (collector_new def now)), collected_new. Qed.

(** ** Bounds and rows *)

Lemma names_bounded def l i : collected def l i → N.of_nat (size (ci_per_name i)) ≤ DEFAULT_NAME_CAP + 1.
Proof.
  intros C. rewrite <-size_dom.
  set (ids := N.of_nat <$> (0%nat :: List.seq 2 256)).
  assert (dom (ci_per_name i) ⊆ list_to_set (C:=gset N) ids) as Hs.
  { intros id Hid%elem_of_dom. apply (agg_keys _ _ _ _ (cl_per_name _ _ _ C)) in Hid as (s & _ & <-).
    apply elem_of_list_to_set. unfold ids. apply list_elem_of_fmap.
    destruct (id_in_range (ci_names i) (sp_name s) (cl_names _ _ _ C)) as [H|H].
    - exists 0%nat. split; [exact H|by left].
    - exists (N.to_nat (name_row i s)). unfold name_row. rewrite (cl_name_cap _ _ _ C) in H.
      unfold FIRST_REAL_ID, DEFAULT_NAME_CAP in H. split; [lia|]. right. apply elem_of_seq. lia. }
  apply subseteq_size in Hs. rewrite size_list_to_set in Hs.
  - unfold ids in Hs. rewrite length_fmap in Hs. simpl length in Hs. unfold DEFAULT_NAME_CAP. lia.
  - apply NoDup_fmap_2; [intros ??; lia|]. apply NoDup_cons. split; [|apply NoDup_seq].
    rewrite elem_of_seq. lia.
Qed.

Lemma offered_known i v : offered i v → in_capped i = false → is_Some (in_to_id i !! v).
Proof. intros [?|[_ ?]]; [done|congruence]. Qed.

Lemma id_in_inj i v w :
  interner_ok i → is_Some (in_to_id i !! v) → is_Some (in_to_id i !! w) → id_in i v = id_in i w → v = w.
Proof. intros Hi Hv Hw E. rewrite <-(resolve_id i v Hi Hv), <-(resolve_id i w Hi Hw). congruence. Qed.

Lemma group_ids_inj keys values s1 s2 :
  Forall interner_ok values → existsb in_capped values = false →
  groups_offered keys values s1 → groups_offered keys values s2 →
  group_ids keys values s1 = group_ids keys values s2 ↔
  Forall (λ k, group_attribute k s1 = group_attribute k s2) keys.
Proof.
  intros Hv Hc H1. revert Hv Hc. unfold group_ids, groups_offered in *.
  induction H1 as [|k i keys values H1 _ IH]; [done|].
  intros [Hi Hv]%Forall_cons [Hci Hc]%orb_false_iff [H2 H2']%Forall2_cons. simpl. rewrite Forall_cons, <-IH by done.
  assert (∀ s, (∀ v, group_attribute k s = Some v → offered i v) → ∀ v, group_attribute k s = Some v →
    is_Some (in_to_id i !! v) ∧ FIRST_REAL_ID ≤ id_in i v) as Hk.
  { intros s Ho v Ev. pose proof (offered_known i v (Ho v Ev) Hci) as [id Hid]. split; [by eexists|].
    unfold id_in. rewrite Hid. simpl. by apply (io_ids i Hi) in Hid as [? _]. }
  split.
  - intros [= E E']. split; [|done]. pose proof (Hk s1 H1) as K1. pose proof (Hk s2 H2) as K2. clear Hk.
    unfold FIRST_REAL_ID, ABSENT_ID in *.
    destruct (group_attribute k s1) as [v|], (group_attribute k s2) as [w|]; try done.
    + f_equal. apply (id_in_inj i); [done|by apply K1|by apply K2|done].
    + destruct (K1 v eq_refl) as [_ H]. lia.
    + destruct (K2 w eq_refl) as [_ H]. lia.
  - intros [-> ->]. done.
Qed.

(** C30: every figure a collector reports is the figure of exactly the spans it
    speaks for. After any spans, the totals are those of all of them; each
    name's row and each group's row is the aggregate of the spans of that row, and
    there are at most 257 of each; and unless the snapshot admits to a cardinality
    cap, a span's row is its own: it bears the span's name, and two spans share a
    group row exactly when every group key reads the same on both. *)
Theorem collector_exact def now l :
  let c := collector_run def now l in let i := co_inner c in
  ci_total i = stats_of (obs <$> l) ∧
  (∀ id, ci_per_name i !! id = stats_at (name_row i) id l) ∧
  (∀ k, cd_group_keys def ≠ [] → ci_per_group i !! k = stats_at (group_row def i) k l) ∧
  N.of_nat (size (ci_per_name i)) ≤ 257 ∧ N.of_nat (size (ci_per_group i)) ≤ 257 ∧
  (cardinality_capped (collector_snapshot c) = false →
   (∀ s, s ∈ l → resolve (name_row i s) (ci_names i) = sp_name s) ∧
   (∀ s1 s2, s1 ∈ l → s2 ∈ l → group_row def i s1 = group_row def i s2 ↔
      Forall (λ k, group_attribute k s1 = group_attribute k s2) (cd_group_keys def))).
Proof.
  pose proof (run_collected def now l) as C. cbn zeta. set (c := collector_run def now l) in *.
  split; [apply C|]. split; [apply C|]. split.
  { intros k Hk. pose proof (cl_per_group _ _ _ C) as H. rewrite decide_False in H by done. apply H. }
  split; [exact (names_bounded _ _ _ C)|]. split; [exact (cl_group_size _ _ _ C)|].
  intros [[Hn Ht]%orb_false_iff Hg]%orb_false_iff. split.
  - intros s Hs. apply resolve_id; [apply C|]. apply offered_known; [by eapply cl_offered|done].
  - intros s1 s2 H1 H2. destruct (decide (cd_group_keys def = [])) as [Ek|Hk].
    + rewrite Ek. split; [done|]. intros _. unfold group_row, row_in, group_ids. by rewrite Ek.
    + assert (∀ s, s ∈ l → group_row def (co_inner c) s = group_ids (cd_group_keys def) (ci_group_values (co_inner c)) s) as Hr.
      { intros s Hs. unfold group_row, row_in. rewrite bool_decide_eq_true_2; [done|].
        destruct (cl_settled _ _ _ C s Hs Hk) as [?|[_ Hc]]; [done|].
        change (ci_group_tuples_capped (co_inner c) = false) in Ht. congruence. }
      rewrite (Hr s1 H1), (Hr s2 H2). apply group_ids_inj; [apply C|done|by eapply cl_group_offered..].
Qed.

(** ** The sample tier *)

Lemma fresh_tier_holds def :
  has_samples (cd_level def) = true → tier_holds (fresh_tier def) [].
Proof.
  intros Hs. split; [|simpl; unfold max_chunks; lia|done]. exists [], []. split_and!; try done. simpl. apply chunk_new_holds.
Qed.

Lemma chunk_bytes_pos t : has_samples (st_level t) = true → 0 < chunk_bytes t.
Proof.
  intros H. unfold chunk_bytes, bytes_per_record. assert (CHUNK_RECORDS = 8192) as -> by done.
  destruct (st_level t); simpl in *; [done|lia|lia].
Qed.

Lemma bytes_bounded t rs :
  has_samples (st_level t) = true → tier_holds t rs → bytes_allocated t ≤ N.max (st_max_bytes t) (chunk_bytes t).
Proof.
  intros Hs [_ H _]. pose proof (chunk_bytes_pos t Hs) as Hp. unfold bytes_allocated.
  etrans; [apply N.mul_le_mono_r, H|]. unfold max_chunks. rewrite (N.max_l (chunk_bytes t)) by lia.
  pose proof (N.Div0.mul_div_le (st_max_bytes t) (chunk_bytes t)) as Hd.
  assert (∀ q, chunk_bytes t * q ≤ st_max_bytes t → N.max q 1 * chunk_bytes t ≤ N.max (st_max_bytes t) (chunk_bytes t)) as Hq.
  { intros q Hq. destruct (N.max_spec q 1) as [[_ ->]|[_ ->]]; lia. }
  by apply Hq.
Qed.

Lemma snapshot_len_holds t rs : tier_holds t rs → snapshot_len (tier_snapshot t) = N.of_nat (length rs).
Proof.
  intros [(full & last & -> & H1 & H2 & H3 & _) _ _]. unfold snapshot_len. simpl.
  rewrite (chunk_len_holds _ _ _ _ H3), length_app. clear H3.
  enough (foldr N.add 0 (N.of_nat ∘ chunk_len <$> st_sealed t) = N.of_nat (length (mjoin full))) as -> by lia.
  clear H2. induction H1 as [|c ch cs full Hc _ IH]; [done|]. rewrite fmap_cons. cbn [foldr].
  rewrite IH. change (mjoin (ch :: full)) with (ch ++ mjoin full). rewrite length_app. simpl.
  rewrite (chunk_len_holds _ _ _ _ Hc). lia.
Qed.

Lemma tier_fixed t os :
  st_level (foldl tier_offer t os) = st_level t ∧ st_max_bytes (foldl tier_offer t os) = st_max_bytes t ∧
  st_n_group_keys (foldl tier_offer t os) = st_n_group_keys t ∧ capacity (foldl tier_offer t os) = capacity t.
Proof.
  revert t. induction os as [|o os IH]; intros t; [done|]. simpl. destruct (IH (tier_offer t o)) as (-> & -> & -> & ->).
  destruct (tier_push_same o t) as (-> & -> & ->). by rewrite capacity_same.
Qed.

Lemma row_length def i s l : collected def l i → length (group_row def i s) = length (cd_group_keys def).
Proof.
  intros C. unfold group_row, row_in. case_bool_decide; [|apply length_replicate].
  apply group_ids_length, C.
Qed.

Lemma well_formed_counted l :
  N.of_nat (length l) ≤ u64_max →
  well_formed_count (stats_of (obs <$> l)) = N.of_nat (length (List.filter well_formed l)).
Proof.
  intros H. destruct (stats_of_spec (obs <$> l) ltac:(by rewrite length_fmap)) as [H1 _ _ _ _ H6 H7 _ _ _].
  unfold well_formed_count. rewrite H1, H6, H7, length_fmap.
  assert (N.of_nat (length l) = countb well_formed l + countb is_negative (obs <$> l)
            + countb is_malformed (obs <$> l)) as He; [|unfold countb in *; lia].
  clear. induction l as [|s l IH]; [done|]. rewrite fmap_cons, !countb_cons.
  unfold is_negative at 1, is_malformed at 1, well_formed at 1. simpl. destruct (classify s); lia.
Qed.

(** The sample tier holds the first well-formed spans, in order and with every
    field its level keeps, up to exactly the number its budget affords; what it
    allocates never exceeds the budget (one chunk at the least); and it calls
    itself complete exactly when it holds them all, so that a complete sample and
    the exact tier count the same spans. *)
Theorem samples_prefix def now l :
  has_samples (cd_level def) = true → N.of_nat (length (cd_group_keys def)) ≤ MAX_GROUP_KEYS →
  N.of_nat (length l) ≤ u64_max →
  let i := co_inner (collector_run def now l) in let t := ci_samples i in
  let wf := List.filter well_formed l in
  records (tier_snapshot t) =
    Some ((λ s, kept_of (has_tree (cd_level def)) (offer_of def i s).1) <$> take (N.to_nat (capacity t)) wf) ∧
  bytes_allocated t ≤ N.max (cd_max_sample_bytes def) (chunk_bytes t) ∧
  (st_complete t = true ↔ N.of_nat (length wf) ≤ capacity t) ∧
  (st_complete t = true → snapshot_len (tier_snapshot t) = well_formed_count (ci_total i)).
Proof.
  intros Hs Hk Hl. pose proof (run_collected def now l) as C. cbn zeta. set (i := co_inner _) in *.
  set (os := offer_of def i <$> List.filter well_formed l).
  destruct (tier_run (fresh_tier def) [] os Hs (fresh_tier_holds def Hs) ltac:(by left)) as [H1 H2].
  { apply Forall_fmap, Forall_true. intros s. simpl. rewrite (row_length _ _ _ _ C). lia. }
  destruct (tier_fixed (fresh_tier def) os) as (F1 & F2 & F3 & F4).
  rewrite (cl_samples _ _ _ C). fold os. rewrite (tier_snapshot_records _ _ H1), F1, F4.
  assert (length os = length (List.filter well_formed l)) as Hlen by apply length_fmap.
  simpl app in *. simpl length in *. rewrite Nat.sub_0_r in *.
  assert (st_complete (foldl tier_offer (fresh_tier def) os) = true ↔
          N.of_nat (length (List.filter well_formed l)) ≤ capacity (fresh_tier def)) as Hcomp.
  { rewrite H2, Hlen. simpl. split; [intros [_ ?]; lia|]. intros ?. split; [done|lia]. }
  split_and!; [|rewrite <-F2 at 1; eapply bytes_bounded; [by rewrite F1|exact H1]|exact Hcomp|].
  - f_equal. unfold os. by rewrite <-fmap_take, <-!list_fmap_compose.
  - intros Hc%Hcomp. rewrite (snapshot_len_holds _ _ H1), (cl_total _ _ _ C), well_formed_counted by done.
    rewrite take_ge by lia. by rewrite Hlen.
Qed.

(** ** Windows *)

Lemma fresh_collected def armed z : collected def [] (set_zeroed_at z (inner_new def armed)).
Proof. destruct (collected_new def armed). by split. Qed.

(** A reset loses no span and mixes none. Swap the collector between two runs of
    spans: the view taken reports exactly the first run, the collector afterwards
    exactly the second with a window that starts at the swap, and merging the two
    gives what one uninterrupted collector would have reported, whatever order the
    same spans had arrived in. *)
Theorem split_window `{SL : !SketchLaws SK} def now t l1 l2 l :
  N.of_nat (length l) ≤ u64_max → l ≡ₚ l1 ++ l2 → (now ≤ t)%Z →
  let '(view, c) := collector_swap t (collector_run def now l1) in
  let c' := ingest_all l2 c in
  cs_total view = stats_of (obs <$> l1) ∧ ci_total (co_inner c') = stats_of (obs <$> l2) ∧
  window_start view = now ∧ window_start (collector_snapshot c') = t ∧
  ∃ m, exact_merge (ci_total (co_inner c')) (cs_total view) = Some m ∧
       exact_equiv m (ci_total (co_inner (collector_run def now l))).
Proof using Type*.
  intros Hb Hp Ht.
  destruct (ingest_all_collected [] l1 (collector_new def now) (collected_new def now)) as (A1 & A2 & A3 & A4).
  pose proof (run_collected def now l) as C. unfold collector_swap.
  change (ingest_all l1 (collector_new def now)) with (collector_run def now l1) in *.
  set (c1 := collector_run def now l1) in *. cbn beta iota zeta.
  set (c := mkCollector (co_def c1) _ _).
  destruct (ingest_all_collected [] l2 c (fresh_collected _ _ _)) as (B1 & B2 & B3 & B4).
  assert (N.of_nat (length (obs <$> l1) + length (obs <$> l2)) ≤ u64_max) as Hlen.
  { rewrite !length_fmap, <-length_app. by rewrite <-Hp. }
  destruct (exact_merge_app (obs <$> l1) (obs <$> l2) Hlen) as (m & Hm & He).
  assert (ci_total (co_inner c1) = stats_of (obs <$> l1)) as E1 by apply A2.
  assert (ci_total (co_inner (ingest_all l2 c)) = stats_of (obs <$> l2)) as E2 by apply B2.
  split; [exact E1|]. split; [exact E2|]. split; [|split].
  - unfold window_start. simpl. by rewrite A4, A3.
  - unfold window_start. simpl. rewrite B4, B3. simpl. rewrite A3. simpl.
    destruct (Z.ltb_spec now t); lia.
  - exists m. cbn [cs_total snapshot_of]. rewrite E1, E2. split; [exact Hm|]. etrans; [exact He|].
    rewrite (cl_total _ _ _ C). symmetry. rewrite <-fmap_app. apply stats_of_perm; [by rewrite length_fmap|by rewrite Hp].
Qed.
End spec.

(** ** Witnesses *)

Lemma sample_adds vs (s : N) : dd_adds (SK:=sample_sketch) vs s = N.of_nat (length vs) + s.
Proof. revert s. induction vs as [|v vs IH]; intros s; [done|]. simpl length. change (dd_adds (SK:=sample_sketch) vs (N.succ s) = N.of_nat (S (length vs)) + s). rewrite IH. lia. Qed.

#[export] Instance sample_sketch_laws : SketchLaws sample_sketch.
Proof.
  refine (Build_SketchLaws sample_sketch (@eq N) _ _ _ _ _).
  - intros vs ws a n m H. rewrite !sample_adds. by rewrite H.
  - intros vs ws a n m. eexists. split; [reflexivity|]. rewrite !sample_adds, length_app. simpl. lia.
Qed.

Lemma samples_prefix_witness :
  let t := ci_samples (co_inner (collector_run (sample_def Timing) 5 sample_spans)) in
  records (tier_snapshot t) = Some [mkSample 10 30 2 8 0 0 0; mkSample 40 41 2 8 0 0 0] ∧ st_complete t = true.
Proof.
  destruct (samples_prefix (sample_def Timing) 5 sample_spans eq_refl ltac:(done) ltac:(done)) as (H1 & _ & H3 & _).
  split; [rewrite H1; vm_compute; reflexivity|]. apply H3. vm_compute. discriminate.
Defined.

Lemma split_window_witness :
  let c := collector_run (sample_def Tree) 5 (take 2 sample_spans) in
  let '(view, c') := collector_swap 9 c in
  es_count (cs_total view) = 2 ∧
  ∃ m, exact_merge (ci_total (co_inner (ingest_all (drop 2 sample_spans) c'))) (cs_total view) = Some m ∧
       es_count m = 4 ∧ es_total_ns m = 21%Z.
Proof.
  pose proof (split_window (sample_def Tree) 5 9 (take 2 sample_spans) (drop 2 sample_spans) sample_spans
    ltac:(done) ltac:(by rewrite take_drop) ltac:(done)) as H.
  cbn zeta. destruct (collector_swap 9 _) as [view c']. destruct H as (H1 & _ & _ & _ & m & H2 & H3).
  split; [rewrite H1; vm_compute; reflexivity|]. exists m. split; [exact H2|].
  rewrite (ee_count _ _ H3), (ee_total _ _ H3). split; vm_compute; reflexivity.
Defined.
