(* ===== verification/History.v ===== *)
(** * History: a collector's recorded runs ([collector/history.rs])

    A snapshot copies the figures of a window with the definition they were
    taken under. [History] hands out labels and keeps the newest snapshots; the
    label loop takes fuel, one more than the snapshots held. *)

From S2P Require Import Prelude Text F64 Gelf Filter Matcher Measure Threshold Collector.
From Stdlib Require Import SpecFloat.

Set Default Proof Using "Type".
Local Open Scope N_scope.

Definition MAX_SNAPSHOTS : nat := 50.
#[global] Arguments MAX_SNAPSHOTS : simpl never.

Record SnapshotPolicy := mkPolicy { po_per_name : bool; po_per_group : bool; po_projections : bool }.
Definition policy_default : SnapshotPolicy := mkPolicy true true true.

(** Whether the policy is refused at a level; the text is not modelled. *)
Definition policy_refused (level : CollectLevel) (p : SnapshotPolicy) : bool :=
  po_projections p && negb (has_samples level).

(** ** What a projection gives ([protocol/methods.rs], [collector/project.rs]) *)

Record ProfileSampled := mkSampled {
  ps_complete : bool;
  ps_sample_count : N;
  ps_self_ms : option f64;
  ps_nested_matches : N;
  ps_overlapping_child_ms : f64;
  ps_overlapping_child_spans : N;
  ps_wall_union_ms : option f64;
  ps_achieved_concurrency : option f64;
  ps_p50_ms : option f64;
  ps_p80_ms : option f64;
  ps_p95_ms : option f64;
  ps_p99_ms : option f64;
  ps_stddev_ms : option f64;
  ps_durations_ms : option (list f64);
}.
Record PathRow := mkPathRow { pr_frames : list string; pr_self_ms : f64; pr_count : N; pr_incomplete : bool }.
Record Projected := mkProjected { pj_sampled : option ProfileSampled; pj_paths : list PathRow; pj_paths_truncated : bool }.
Definition projected_default : Projected := mkProjected None [] false.

(** ** Span loss ([receiver/metrics.rs]) *)

Record TraceIngestLoss := mkLoss { tl_dropped : N; tl_shed_batches : N; tl_malformed : N }.
Definition loss_default : TraceIngestLoss := mkLoss 0 0 0.
Definition loss_since (baseline l : TraceIngestLoss) : TraceIngestLoss :=
  mkLoss (tl_dropped l - tl_dropped baseline) (tl_shed_batches l - tl_shed_batches baseline)
    (tl_malformed l - tl_malformed baseline).

Section history.
Context {X : Externals} {SK : SketchCrate} {J : JsonScalars}.

(** ** A snapshot *)

Record StoredSnapshot := mkSnap {
  sn_label : string;
  sn_description : option string;
  sn_meta : Value;
  sn_taken_at : Z;
  sn_def : CollectorDef;
  sn_policy : SnapshotPolicy;
  sn_window_start : Z;
  sn_wall_ms : f64;
  sn_total : ExactStats;
  sn_per_name : option (gmap N ExactStats);
  sn_per_group : option (gmap (list N) ExactStats);
  sn_names : Interner;
  sn_group_values : list Interner;
  sn_ingest : option TraceIngestLoss;
  sn_projections : option ProfileSampled;
  sn_paths : list PathRow;
  sn_paths_truncated : bool;
  sn_sample_complete : bool;
  sn_cardinality_capped : bool;
}.

(** [num_microseconds().unwrap_or(0)], then milliseconds, none below zero. *)
Definition wall_ms (window_start taken_at : Z) : f64 :=
  let us := Z.quot (taken_at - window_start) 1000 in
  f64_max (f64_div (f64_of_Z (if fits_i64 us then us else 0)) (f64_of_Z 1000)) (f64_of_Z 0).

Definition from_view (label : string) (description : option string) (meta : Value) (taken_at : Z)
  (policy : SnapshotPolicy) (view : CollectorSnapshot) (ingest : option TraceIngestLoss) (projected : Projected)
  : StoredSnapshot :=
  mkSnap label description meta taken_at (cs_def view) policy (window_start view)
    (wall_ms (window_start view) taken_at) (cs_total view)
    (if po_per_name policy then Some (cs_per_name view) else None)
    (if po_per_group policy then Some (cs_per_group view) else None)
    (cs_names view) (cs_group_values view) ingest (pj_sampled projected) (pj_paths projected)
    (pj_paths_truncated projected) (ss_complete (cs_samples view)) (cardinality_capped view).

Definition snap_layout (s : StoredSnapshot) : SketchLayout := sk_layout (es_sketch (sn_total s)).
Definition ns_to_ms (ns : Z) : f64 := f64_div (f64_of_Z ns) (f64_of_Z 1000000).
Definition total_ms (s : StoredSnapshot) : f64 := ns_to_ms (es_total_ns (sn_total s)).

(** ** The history *)

Record History := mkHistory {
  hi_snapshots : list StoredSnapshot;
  hi_next_auto : N;
  hi_evicted : N;
  hi_max : nat;
}.

Inductive HistoryError :=
| DuplicateLabel (label : string)
| InvalidLabel (label : string)
| UnknownLabel (label : string) (known : list string).

Definition with_max (max : nat) : History := mkHistory [] 1 0 (Nat.max max 1).
Definition history_new : History := with_max MAX_SNAPSHOTS.

Definition set_next_auto (n : N) (h : History) : History := mkHistory (hi_snapshots h) n (hi_evicted h) (hi_max h).

Definition is_label_char (c : ascii) : bool :=
  is_ascii_alphanumeric c || Ascii.eqb c "." || Ascii.eqb c "_" || Ascii.eqb c "-".
Definition is_valid_label (label : string) : bool :=
  negb (String.eqb label "") && str_forall is_label_char label.

Definition labels (h : History) : list string := sn_label <$> hi_snapshots h.
Definition has_label (l : string) (h : History) : bool := existsb (λ s, String.eqb (sn_label s) l) (hi_snapshots h).

Definition auto_label (n : N) : string := "snapshot-" +:+ pretty n.

(** The loop; [None] is out of fuel. *)
Fixpoint auto_loop (fuel : nat) (h : History) : option (string * History) :=
  match fuel with
  | O => None
  | S fuel =>
      let candidate := auto_label (hi_next_auto h) in
      let h := set_next_auto (u64_add (hi_next_auto h) 1) h in
      if has_label candidate h then auto_loop fuel h else Some (candidate, h)
  end.

Definition reserve_label (requested : option string) (h : History) : option ((HistoryError + string) * History) :=
  match requested with
  | Some l =>
      if negb (is_valid_label l) then Some (inl (InvalidLabel l), h)
      else if has_label l h then Some (inl (DuplicateLabel l), h)
      else Some (inr l, h)
  | None => (λ r, (inr r.1, r.2)) <$> auto_loop (S (length (hi_snapshots h))) h
  end.

(** The loop that drops the oldest. *)
Fixpoint evict_over (fuel : nat) (snaps : list StoredSnapshot) (evicted : N) (max : nat) : list StoredSnapshot * N :=
  match fuel with
  | O => (snaps, evicted)
  | S fuel =>
      if (max <? length snaps)%nat then evict_over fuel (drop 1 snaps) (u64_add evicted 1) max else (snaps, evicted)
  end.

Definition history_push (snap : StoredSnapshot) (h : History) : History :=
  let snaps := hi_snapshots h ++ [snap] in
  let '(snaps, evicted) := evict_over (length snaps) snaps (hi_evicted h) (hi_max h) in
  mkHistory snaps (hi_next_auto h) evicted (hi_max h).

Definition history_get (label : string) (h : History) : HistoryError + StoredSnapshot :=
  match List.find (λ s, String.eqb (sn_label s) label) (hi_snapshots h) with
  | Some s => inr s
  | None => inl (UnknownLabel label (labels h))
  end.

Definition restore_counters (next_auto evicted : N) (h : History) : History :=
  mkHistory (hi_snapshots h) (N.max next_auto 1) evicted (hi_max h).

(** ** Merging runs, and their spread *)

(** The layouts stand for their [Debug] text. [DefinitionMismatch] is the diff's. *)
Inductive MergeError :=
| MergeEmpty
| LayoutMismatch (first offending : SketchLayout)
| DefinitionMismatch (a b : string).

Fixpoint merge_rest (layout : SketchLayout) (rest : list StoredSnapshot) (acc : ExactStats) : MergeError + ExactStats :=
  match rest with
  | [] => inr acc
  | s :: rest =>
      if negb (layout_eqb (snap_layout s) layout) then inl (LayoutMismatch layout (snap_layout s))
      else match exact_merge (sn_total s) acc with
           | None => inl (LayoutMismatch layout (snap_layout s))
           | Some acc => merge_rest layout rest acc
           end
  end.
Definition merge_snapshots (snaps : list StoredSnapshot) : MergeError + ExactStats :=
  match snaps with
  | [] => inl MergeEmpty
  | first :: rest => merge_rest (snap_layout first) rest (sn_total first)
  end.

Record RunToRunFloor := mkFloor {
  fl_metric : string;
  fl_runs : nat;
  fl_min : f64;
  fl_max : f64;
  fl_mean : f64;
  fl_cv_pct : option f64;
}.

Definition f64_add (a b : f64) : f64 := SFadd 53 1024 a b.
Definition f64_sub (a b : f64) : f64 := SFsub 53 1024 a b.
Definition f64_sqrt (a : f64) : f64 := SFsqrt 53 1024 a.
Definition f64_sum (l : list f64) : f64 := foldl f64_add (f64_of_Z 0) l.

Definition floor_over (values : list f64) (metric : string) : option RunToRunFloor :=
  let n := length values in
  if (n =? 0)%nat then None
  else
    let mean := f64_div (f64_sum values) (f64_of_N (N.of_nat n)) in
    let cv :=
      if (n <? 2)%nat || f64_eqb mean (f64_of_Z 0) then None
      else
        let var := f64_div (f64_sum ((λ v, f64_mul (f64_sub v mean) (f64_sub v mean)) <$> values))
                     (f64_of_N (N.of_nat (n - 1))) in
        Some (f64_mul (f64_div (f64_sqrt var) mean) (f64_of_Z 100)) in
    Some (mkFloor metric n (foldl f64_min (S754_infinity false) values) (foldl f64_max (S754_infinity true) values)
            mean cv).

Definition over_total_ms (snaps : list StoredSnapshot) : option RunToRunFloor :=
  floor_over (total_ms <$> snaps) "total_ms".
Definition over_count (snaps : list StoredSnapshot) : option RunToRunFloor :=
  floor_over ((λ s, f64_of_N (es_count (sn_total s))) <$> snaps) "count".
End history.
