(* ===== verification/HistorySpec.v ===== *)
(** * HistorySpec: labels and eviction of recorded runs *)

From S2P Require Import Prelude Text F64 Gelf Filter Matcher Measure Threshold Collector CollectorSamples History.

Set Default Proof Using "Type".
Local Open Scope N_scope.

Section history_spec.
Context {X : Externals} {SK : SketchCrate} {J : JsonScalars}.

(** ** Labels *)

Lemma auto_label_inj a b : auto_label a = auto_label b → a = b.
Proof. unfold auto_label. intros H. apply (inj (String.append "snapshot-")) in H. by apply (inj pretty) in H. Qed.

Lemma auto_label_valid n : n ≤ u64_max → is_valid_label (auto_label n) = true.
Proof.
  intros Hn. unfold is_valid_label, auto_label. rewrite str_forall_app.
  replace (str_forall is_label_char "snapshot-") with true by reflexivity.
  destruct (pretty_digits n Hn) as [_ Hd]. simpl negb.
  enough (str_forall is_label_char (pretty n) = true) as -> by done.
  eapply str_forall_impl; [|apply Hd]. intros a Ha. unfold is_label_char, is_ascii_alphanumeric.
  by rewrite Ha.
Qed.

Lemma has_label_spec l h : has_label l h = true ↔ l ∈ labels h.
Proof.
  unfold has_label, labels. rewrite existsb_exists. rewrite list_elem_of_fmap. split.
  - intros (s & Hs & <-%String.eqb_eq). exists s. by rewrite list_elem_of_In.
  - intros (s & -> & Hs). exists s. split; [by apply list_elem_of_In|]. apply String.eqb_refl.
Qed.

(** ** The label loop ends *)

(** The number the loop is at after [i] turns. *)
Definition nth_auto (n : N) (i : nat) : N := Nat.iter i (λ k, u64_add k 1) n.

Lemma nth_auto_wrap n i : n ≤ u64_max → nth_auto n i = u64_wrap (n + N.of_nat i).
Proof.
  intros Hn. induction i as [|i IH]; simpl.
  - unfold u64_wrap. rewrite N.mod_small; lia.
  - fold (nth_auto n i). rewrite IH. unfold u64_add, u64_wrap. rewrite N.Div0.add_mod_idemp_l. f_equal. lia.
Qed.

Lemma nth_auto_S n i : nth_auto (u64_add n 1) i = nth_auto n (S i).
Proof. unfold nth_auto. by rewrite Nat.iter_succ_r. Qed.

Lemma nth_auto_inj n i j : n ≤ u64_max → (i < 51)%nat → (j < 51)%nat → nth_auto n i = nth_auto n j → i = j.
Proof.
  intros Hn Hi Hj. rewrite !nth_auto_wrap by done. unfold u64_wrap, u64_max in *. intros H.
  change (18446744073709551615 + 1) with 18446744073709551616 in H.
  assert (∀ x, x < 2 * 18446744073709551616 →
    x = x mod 18446744073709551616 ∨ x = x mod 18446744073709551616 + 18446744073709551616) as Hm.
  { intros x Hx. pose proof (N.div_mod x 18446744073709551616 ltac:(done)) as E.
    assert (x / 18446744073709551616 < 2) as Hq by (apply N.Div0.div_lt_upper_bound; lia).
    generalize dependent (x mod 18446744073709551616). generalize dependent (x / 18446744073709551616).
    clear H. intros q Hq r E. assert (q = 0 ∨ q = 1) as [->| ->] by lia; lia. }
  destruct (Hm (n + N.of_nat i) ltac:(lia)), (Hm (n + N.of_nat j) ltac:(lia)); lia.
Qed.

(** Out of fuel means every candidate tried is held. *)
Lemma auto_loop_None fuel : ∀ h,
  auto_loop fuel h = None → ∀ i, (i < fuel)%nat → auto_label (nth_auto (hi_next_auto h) i) ∈ labels h.
Proof.
  induction fuel as [|fuel IH]; intros h H i Hi; [lia|]. simpl in H. set (h' := set_next_auto _ h) in *.
  destruct (has_label _ h') eqn:E; [|done]. apply has_label_spec in E.
  destruct i as [|i]; [done|]. rewrite <-nth_auto_S. apply (IH h' H i). lia.
Qed.

(** What the loop returns: the first number from the counter that is free. *)
Lemma auto_loop_Some fuel : ∀ h l h',
  auto_loop fuel h = Some (l, h') →
  ∃ i, (i < fuel)%nat ∧ l = auto_label (nth_auto (hi_next_auto h) i) ∧ (l ∉ labels h) ∧
       h' = set_next_auto (nth_auto (hi_next_auto h) (S i)) h.
Proof.
  induction fuel as [|fuel IH]; intros h l h' H; [done|]. simpl in H. set (h1 := set_next_auto _ h) in *.
  destruct (has_label (auto_label (hi_next_auto h)) h1) eqn:E.
  - destruct (IH _ _ _ H) as (i & Hi & -> & Hl & ->). exists (S i).
    split_and!; [lia|by rewrite <-nth_auto_S|done|]. exact (f_equal (λ n, set_next_auto n h) (nth_auto_S _ _)).
  - simplify_eq. exists 0%nat. split_and!; [lia|done| |done]. intros Hin%has_label_spec.
    change (has_label (auto_label (hi_next_auto h)) h = false) in E. congruence.
Qed.

Lemma nth_auto_u64 n i : n ≤ u64_max → nth_auto n i ≤ u64_max.
Proof. intros Hn. rewrite nth_auto_wrap by done. unfold u64_wrap, u64_max. pose proof (N.mod_lt (n + N.of_nat i) (18446744073709551615 + 1) ltac:(done)). lia. Qed.

Lemma auto_loop_total h :
  hi_next_auto h ≤ u64_max → (length (hi_snapshots h) < 51)%nat → is_Some (auto_loop (S (length (hi_snapshots h))) h).
Proof.
  intros Hn Hl. destruct (auto_loop _ h) as [r|] eqn:E; [by eexists|]. exfalso.
  assert ((λ i, auto_label (nth_auto (hi_next_auto h) i)) <$> List.seq 0 (S (length (hi_snapshots h))) ⊆ labels h) as Hsub.
  { intros l (i & -> & Hi%elem_of_seq)%list_elem_of_fmap. apply (auto_loop_None _ _ E). lia. }
  apply NoDup_submseteq in Hsub as Hle.
  - unfold labels in Hle. apply submseteq_length in Hle. rewrite !length_fmap, length_seq in Hle. lia.
  - apply NoDup_fmap_2_strong; [|apply NoDup_seq]. intros i j Hi%elem_of_seq Hj%elem_of_seq Hij%auto_label_inj.
    apply (nth_auto_inj (hi_next_auto h)); [done|lia|lia|done].
Qed.

(** The label loop always ends, and the label is good. From any history of
    at most fifty snapshots, whatever the counter (a wrapped one included), a
    reservation returns: an automatic or accepted label is well formed and held
    by no snapshot; a refusal names an ill-formed label or one that is held. *)
Theorem reserve_label_total req h :
  hi_next_auto h ≤ u64_max → (length (hi_snapshots h) ≤ 50)%nat →
  ∃ r h', reserve_label req h = Some (r, h') ∧ hi_snapshots h' = hi_snapshots h ∧
  match req, r with
  | None, inr l => is_valid_label l = true ∧ l ∉ labels h
  | Some l, inr l' => l' = l ∧ is_valid_label l = true ∧ l ∉ labels h
  | Some l, inl (InvalidLabel l') => l' = l ∧ is_valid_label l = false
  | Some l, inl (DuplicateLabel l') => l' = l ∧ l ∈ labels h
  | _, _ => False
  end.
Proof.
  intros Hn Hl. destruct req as [l|]; unfold reserve_label.
  - destruct (is_valid_label l) eqn:Ev; simpl; [|by eexists _, h].
    destruct (has_label l h) eqn:Eh; [apply has_label_spec in Eh; by eexists _, h|].
    assert (l ∉ labels h) by (intros Hin%has_label_spec; congruence). by eexists _, h.
  - destruct (auto_loop_total h Hn ltac:(lia)) as [[l h'] E].
    rewrite E. destruct (auto_loop_Some _ _ _ _ E) as (i & _ & -> & Hf & ->). eexists _, _. split_and!; [done|done|].
    split; [|done]. apply auto_label_valid. by apply nth_auto_u64.
Qed.

(** ** Runs *)

Definition relabel (l : string) (s : StoredSnapshot) : StoredSnapshot :=
  mkSnap l (sn_description s) (sn_meta s) (sn_taken_at s) (sn_def s) (sn_policy s) (sn_window_start s) (sn_wall_ms s)
    (sn_total s) (sn_per_name s) (sn_per_group s) (sn_names s) (sn_group_values s) (sn_ingest s) (sn_projections s)
    (sn_paths s) (sn_paths_truncated s) (sn_sample_complete s) (sn_cardinality_capped s).

(** A history, the snapshots taken so far and the automatic labels issued. *)
Record HistRun := mkHRun { hr_history : History; hr_taken : list StoredSnapshot; hr_auto : list string }.

(** One snapshot: its label reserved, then filed under it. *)
Definition hist_step (st : HistRun) (req : option string * StoredSnapshot) : option HistRun :=
  '(r, h) ← reserve_label req.1 (hr_history st);
  match r with
  | inl _ => Some (mkHRun h (hr_taken st) (hr_auto st))
  | inr l =>
      let s := relabel l req.2 in
      Some (mkHRun (history_push s h) (hr_taken st ++ [s])
              (hr_auto st ++ match req.1 with None => [l] | Some _ => [] end))
  end.
Fixpoint hist_run (reqs : list (option string * StoredSnapshot)) (st : HistRun) : option HistRun :=
  match reqs with
  | [] => Some st
  | req :: reqs => hist_step st req ≫= hist_run reqs
  end.
Definition hist_start : HistRun := mkHRun history_new [] [].

Record hist_ok (n : nat) (st : HistRun) : Prop := {
  ho_held : hi_snapshots (hr_history st) = drop (length (hr_taken st) - 50) (hr_taken st);
  ho_evicted : hi_evicted (hr_history st) = N.of_nat (length (hr_taken st) - 50);
  ho_max : hi_max (hr_history st) = 50%nat;
  ho_nodup : NoDup (labels (hr_history st));
  ho_next : 1 ≤ hi_next_auto (hr_history st) ≤ 1 + 51 * N.of_nat n;
  ho_auto : ∃ ns, hr_auto st = auto_label <$> ns ∧ ascending id ns ∧ Forall (λ k, k < hi_next_auto (hr_history st)) ns;
  ho_count : (length (hr_taken st) ≤ n)%nat;
}.

Lemma evict_over_spec fuel : ∀ snaps evicted max,
  (length snaps ≤ fuel)%nat → evicted + N.of_nat (length snaps) ≤ u64_max →
  evict_over fuel snaps evicted max = (drop (length snaps - max) snaps, evicted + N.of_nat (length snaps - max)).
Proof.
  induction fuel as [|fuel IH]; intros snaps evicted max Hf He; simpl.
  - destruct snaps; simpl in *; [|lia]. by rewrite N.add_0_r.
  - destruct (Nat.ltb_spec max (length snaps)).
    + rewrite IH; rewrite ?length_drop; rewrite ?u64_add_small by lia; [|lia|lia].
      rewrite drop_drop. f_equal; [f_equal; lia|lia].
    + replace (length snaps - max)%nat with 0%nat by lia. by rewrite drop_0, N.add_0_r.
Qed.

Lemma drop_last_snoc {A} (l : list A) x n :
  (0 < n)%nat → drop (length (drop (length l - n) l ++ [x]) - n) (drop (length l - n) l ++ [x]) = drop (length (l ++ [x]) - n) (l ++ [x]).
Proof.
  intros Hn. rewrite !length_app, length_drop. simpl. rewrite <-drop_app_le by lia. rewrite drop_drop. f_equal. lia.
Qed.

Lemma push_ok n st h s auto :
  hist_ok n st → hi_snapshots h = hi_snapshots (hr_history st) → hi_evicted h = hi_evicted (hr_history st) →
  hi_max h = 50%nat → sn_label s ∉ labels (hr_history st) → N.of_nat (length (hr_taken st)) + 1 ≤ u64_max →
  1 ≤ hi_next_auto h ≤ 1 + 51 * N.of_nat (S n) →
  (∃ ns, auto = auto_label <$> ns ∧ ascending id ns ∧ Forall (λ k, k < hi_next_auto h) ns) →
  hist_ok (S n) (mkHRun (history_push s h) (hr_taken st ++ [s]) auto).
Proof.
  intros [H1 H2 H3 H4 H5 H6 H7] Es Ee Em Hl Hb Hnext Ha.
  assert (length (hi_snapshots h) = length (hr_taken st) - (length (hr_taken st) - 50))%nat as Hlen by (by rewrite Es, H1, length_drop).
  unfold history_push. rewrite evict_over_spec; [|done|rewrite Ee, H2, length_app, Hlen; simpl; lia].
  split; simpl; rewrite ?Em; try done.
  - rewrite Es, H1. apply drop_last_snoc. lia.
  - rewrite Ee, H2, !length_app, Hlen. simpl. lia.
  - unfold labels. simpl. rewrite Es. eapply sublist_NoDup; [|apply fmap_sublist, sublist_drop].
    rewrite fmap_app. apply NoDup_app. split_and!; [done| |apply NoDup_singleton].
    intros x Hx ->%list_elem_of_singleton. done.
  - rewrite length_app. simpl. lia.
Qed.

Lemma nth_auto_small n i : n + N.of_nat i ≤ u64_max → nth_auto n i = n + N.of_nat i.
Proof. intros H. rewrite nth_auto_wrap by lia. unfold u64_wrap. apply N.mod_small. lia. Qed.

Lemma hist_ok_mono n st h :
  hist_ok n st → hi_snapshots h = hi_snapshots (hr_history st) → hi_evicted h = hi_evicted (hr_history st) →
  hi_max h = hi_max (hr_history st) → hi_next_auto h = hi_next_auto (hr_history st) →
  hist_ok (S n) (mkHRun h (hr_taken st) (hr_auto st)).
Proof.
  intros [H1 H2 H3 H4 H5 H6 H7] Es Ee Em En. split; simpl; rewrite ?Es, ?Ee, ?Em, ?En; try done; [|lia|lia].
  unfold labels. by rewrite Es.
Qed.

Lemma hist_step_ok n st req :
  hist_ok n st → 1 + 51 * N.of_nat (S n) ≤ u64_max → ∃ st', hist_step st req = Some st' ∧ hist_ok (S n) st'.
Proof.
  intros H Hb. pose proof H as [H1 H2 H3 H4 H5 H6 H7].
  assert (length (hi_snapshots (hr_history st)) ≤ 50)%nat as Hlen by (rewrite H1, length_drop; lia).
  destruct req as [[l|] s]; unfold hist_step; cbn [fst snd]; unfold reserve_label.
  - destruct (negb (is_valid_label l)); [eexists; split; [done|by apply hist_ok_mono]|].
    destruct (has_label l (hr_history st)) eqn:E; [eexists; split; [done|by apply hist_ok_mono]|].
    eexists. split; [done|]. cbn. rewrite app_nil_r. apply push_ok; try done; [|lia|lia].
    intros Hin%has_label_spec. cbn in Hin. congruence.
  - destruct (auto_loop_total (hr_history st)) as [[l h'] E]; [lia|lia|]. rewrite E.
    destruct (auto_loop_Some _ _ _ _ E) as (i & Hi & -> & Hf & ->).
    rewrite (nth_auto_small _ i) in Hf |- * by lia. rewrite nth_auto_small by lia. eexists. split; [done|]. cbn.
    apply push_ok; try done; [lia|cbn; lia|].
    destruct H6 as (ns & -> & Hns & Hlt). exists (ns ++ [hi_next_auto (hr_history st) + N.of_nat i]). split_and!.
    + by rewrite fmap_app.
    + apply ascending_snoc. split; [done|]. intros k Hk. rewrite Forall_forall in Hlt. specialize (Hlt k Hk). unfold id. lia.
    + apply Forall_app. split; [|repeat constructor; cbn; lia]. eapply Forall_impl; [done|]. cbn. lia.
Qed.

Lemma hist_run_ok reqs : ∀ n st,
  hist_ok n st → 1 + 51 * N.of_nat (n + length reqs) ≤ u64_max →
  ∃ st', hist_run reqs st = Some st' ∧ hist_ok (n + length reqs) st'.
Proof.
  induction reqs as [|req reqs IH]; intros n st H Hb; simpl in *.
  - exists st. by rewrite Nat.add_0_r.
  - destruct (hist_step_ok n st req H ltac:(lia)) as (st1 & -> & H1). simpl. rewrite <-Nat.add_succ_comm. apply IH; [done|lia].
Qed.

(** A label names one run. Take any number of snapshots one after another,
    under requested or automatic labels: the history holds the newest fifty of
    those taken, oldest first, and its count of dropped ones is the rest; no
    two held snapshots share a label; and the automatic labels issued have
    ascending numbers, so none is ever issued twice, whatever was dropped since. *)
Theorem history_exact reqs :
  1 + 51 * N.of_nat (length reqs) ≤ u64_max →
  ∃ st, hist_run reqs hist_start = Some st ∧
    hi_snapshots (hr_history st) = drop (length (hr_taken st) - 50) (hr_taken st) ∧
    hi_evicted (hr_history st) = N.of_nat (length (hr_taken st) - 50) ∧
    NoDup (labels (hr_history st)) ∧
    ∃ ns, hr_auto st = auto_label <$> ns ∧ ascending id ns.
Proof.
  intros Hb. destruct (hist_run_ok reqs 0 hist_start) as (st & E & [H1 H2 H3 H4 H5 (ns & H6 & H7 & _) H8]).
  - split; simpl; try done; [by constructor|]. exists []. by split_and!; [|apply ascending_nil|].
  - done.
  - exists st. split_and!; try done. by exists ns.
Qed.
End history_spec.

(** ** Concrete histories *)

#[local] Existing Instance sample_externals.

Definition sample_snap (label : string) : StoredSnapshot :=
  from_view label None "" 0 policy_default (collector_snapshot (collector_new (sample_def Tree) 0)) None projected_default.

(** A label taken by hand is skipped; one already issued is refused. *)
Lemma history_exact_witness :
  let s := sample_snap "" in
  let reqs := [(None, s); (Some "snapshot-2"%string, s); (None, s); (Some "snapshot-1"%string, s)] in
  ∃ st, hist_run reqs hist_start = Some st ∧ labels (hr_history st) = ["snapshot-1"; "snapshot-2"; "snapshot-3"]%string ∧
    NoDup (labels (hr_history st)).
Proof.
  intros s reqs. destruct (history_exact reqs ltac:(vm_compute; discriminate)) as (st & E & _ & _ & H & _).
  exists st. split_and!; [exact E| |exact H].
  assert ((λ st, labels (hr_history st)) <$> hist_run reqs hist_start = Some ["snapshot-1"; "snapshot-2"; "snapshot-3"]%string)
    as Hc by (vm_compute; reflexivity).
  rewrite E in Hc. by injection Hc.
Defined.

Lemma reserve_label_total_witness :
  ∃ r h', reserve_label None history_new = Some (r, h') ∧ r = inr "snapshot-1"%string.
Proof.
  destruct (reserve_label_total None history_new ltac:(done) ltac:(vm_compute; lia)) as (r & h' & E & _ & _).
  exists r, h'. split; [exact E|].
  assert (fst <$> reserve_label None history_new = Some (inr "snapshot-1"%string)) as Hc by (vm_compute; reflexivity).
  rewrite E in Hc. by injection Hc.
Defined.

(** Two snapshots at once: each label is reserved before either snapshot is
    filed, and both runs are filed under one label. *)
Example one_label_two_runs :
  match reserve_label (Some "run"%string) history_new with
  | Some (inr l1, h1) =>
      match reserve_label (Some "run"%string) h1 with
      | Some (inr l2, h2) => labels (history_push (sample_snap l2) (history_push (sample_snap l1) h2))
      | _ => []
      end
  | _ => []
  end = ["run"; "run"]%string.
Proof. reflexivity. Qed.

(** An automatic label can name a second run: the first, under the same label
    by hand, was dropped in between. *)
Example hand_label_reissued :
  let s := sample_snap "" in
  (λ st, (hd ""%string (sn_label <$> hr_taken st), last (sn_label <$> hr_taken st)))
    <$> hist_run ((Some "snapshot-51"%string, s) :: repeat (None, s) 51) hist_start =
  Some ("snapshot-51"%string, Some "snapshot-51"%string).
Proof. vm_compute. reflexivity. Qed.
