(* ===== verification/Persist.v ===== *)
(** * Persist: collector files ([collector/persist.rs])

    What a collector writes and what comes back of it, the names of the files,
    and the boot pass over the directory. The directory is a map from file names
    to what reading the file would give, with its modification time; whether a
    rename succeeds and the order the directory is listed in are arguments, and so
    is what JSON makes of a float on its way through a file ([JsonBack]).
    Reasons are not modelled, only that there is one. *)

From S2P Require Import Prelude Text F64 Gelf Filter Matcher Epoch DataFile Measure Threshold Collector History.
From stdpp Require Import sorting.

Set Default Proof Using "Type".
Local Open Scope N_scope.

Definition FORMAT_VERSION : N := 1.
Definition MAX_FULL_NAME : nat := 200.
Definition PREFIX : nat := 80.

(** ** File names *)

Definition is_ascii_lowercase (a : ascii) : bool := in_range 97 122 a.
Definition is_ascii_uppercase (a : ascii) : bool := in_range 65 90 a.

(** [{b:02X}]. *)
Definition hex_upper (n : N) : ascii := ascii_of_N (if n <? 10 then 48 + n else 55 + n).
Definition encode_byte (b : ascii) : string :=
  if is_ascii_lowercase b || is_ascii_digit b || Ascii.eqb b "-" || Ascii.eqb b "_" then String b ""
  else if is_ascii_uppercase b then String "^" (String (ascii_lower b) "")
  else String "%" (String (hex_upper (N_of_ascii b / 16)) (String (hex_upper (N_of_ascii b mod 16)) "")).
Fixpoint encode (s : string) : string :=
  match s with
  | EmptyString => EmptyString
  | String b s => encode_byte b +:+ encode s
  end.

(** The same constants as the registry's: the hash of the two names around a byte
    that UTF-8 never has. *)
Definition fnv1a64 (owner name : string) : N := fnv1a (owner +:+ String (ascii_of_N 255) name).

Definition full_len (owner name : string) : nat := String.length (encode owner) + 1 + String.length (encode name) + 5.

(** The file's name in the collectors' directory. *)
Definition collector_path (owner name : string) : string :=
  if (full_len owner name <=? MAX_FULL_NAME)%nat then encode owner +:+ "." +:+ encode name +:+ ".json"
  else
    String.substring 0 (Nat.min (String.length (encode owner)) PREFIX) (encode owner) +:+ "." +:+
    String.substring 0 (Nat.min (String.length (encode name)) PREFIX) (encode name) +:+ "." +:+
    hex_digits 16 (fnv1a64 owner name) "" +:+ ".json".

(** ** What is written *)

Record PersistedLayout := mkPLayout {
  pl_algo : string;
  pl_alpha : f64;
  pl_unit : string;
  pl_min_ns : f64;
  pl_max_ns : f64;
  pl_max_num_bins : N;
}.
Definition layout_repr (l : SketchLayout) : PersistedLayout :=
  mkPLayout (ly_algo l) (ly_alpha l) (ly_unit l) (ly_min_ns l) (ly_max_ns l) (ly_max_num_bins l).
Definition to_layout (l : PersistedLayout) : option SketchLayout :=
  if String.eqb (pl_algo l) (ly_algo CURRENT_LAYOUT) && String.eqb (pl_unit l) (ly_unit CURRENT_LAYOUT) then
    Some (mkLayout (ly_algo CURRENT_LAYOUT) (pl_alpha l) (ly_unit CURRENT_LAYOUT) (pl_min_ns l) (pl_max_ns l)
            (pl_max_num_bins l))
  else None.

Record PersistedExact := mkPExact {
  pe_count : N;
  pe_total_ns : string;
  pe_min_ns : option Z;
  pe_max_ns : option Z;
  pe_error_count : N;
  pe_negative : N;
  pe_malformed : N;
  pe_out_of_range : N;
  pe_sketch : list N;
  pe_layout : PersistedLayout;
}.

(** [i128::to_string] and [str::parse::<i128>]. *)
Definition i128_max : Z := 170141183460469231731687303715884105727.
Definition i128_min : Z := -170141183460469231731687303715884105728.
Definition show_i128 (z : Z) : string := pretty z.
Fixpoint digits_value (acc : Z) (s : string) : option Z :=
  match s with
  | EmptyString => Some acc
  | String a s => if is_ascii_digit a then digits_value (10 * acc + digit_val a)%Z s else None
  end.
Definition parse_i128 (s : string) : option Z :=
  let '(neg, digits) := parse_sign s in
  if String.eqb digits "" then None
  else
    v ← digits_value 0 digits;
    let v := if neg : bool then (- v)%Z else v in
    if (i128_min <=? v)%Z && (v <=? i128_max)%Z then Some v else None.

Record PersistedThreshold := mkPThreshold {
  pt_metric : string;
  pt_group : option string;
  pt_op : string;
  pt_value : f64;
  pt_window_ms : N;
}.
Definition pthreshold_of (t : Threshold) : PersistedThreshold :=
  mkPThreshold (metric_as_str (th_metric t)) (th_group t) (op_as_str (th_op t)) (th_value t) (th_window_ms t).
Definition pthreshold_restore (p : PersistedThreshold) : option Threshold :=
  m ← metric_parse (pt_metric p); o ← op_parse (pt_op p);
  Some (mkThreshold m (pt_group p) o (pt_value p) (pt_window_ms p)).

Definition level_as_str (l : CollectLevel) : string :=
  match l with Scalar => "scalar" | Timing => "timing" | Tree => "tree" end.
Definition level_from_str (s : string) : option CollectLevel :=
  if String.eqb s "scalar" then Some Scalar
  else if String.eqb s "timing" then Some Timing
  else if String.eqb s "tree" then Some Tree
  else None.

Section persist.
Context {X : Externals} {SK : SketchCrate} {J : JsonScalars}.

Definition pexact_of (e : ExactStats) : PersistedExact :=
  mkPExact (es_count e) (show_i128 (es_total_ns e)) (es_min_ns e) (es_max_ns e) (es_error_count e)
    (es_negative e) (es_malformed e) (es_out_of_range e) (dd_bytes (sk_inner (es_sketch e)))
    (layout_repr (sk_layout (es_sketch e))).

Definition pexact_restore (p : PersistedExact) : option ExactStats :=
  layout ← to_layout (pe_layout p);
  sketch ← sketch_from_bytes (pe_sketch p) layout;
  if pe_count p <? sat_add (pe_negative p) (pe_malformed p) then None
  else
    total ← parse_i128 (pe_total_ns p);
    Some (mkExact (pe_count p) total (pe_min_ns p) (pe_max_ns p) (pe_error_count p) (pe_negative p)
            (pe_malformed p) (pe_out_of_range p) sketch).

Record PersistedSnapshot := mkPSnap {
  pp_label : string;
  pp_description : option string;
  pp_meta : Value;
  pp_taken_at : Z;
  pp_window_start : Z;
  pp_wall_ms : f64;
  pp_filter : string;
  pp_level : string;
  pp_group_keys : list string;
  pp_max_sample_bytes : N;
  pp_collector_description : option string;
  pp_threshold : option PersistedThreshold;
  pp_policy_per_name : bool;
  pp_policy_per_group : bool;
  pp_policy_projections : bool;
  pp_total : PersistedExact;
  pp_projections : option ProfileSampled;
  pp_paths : list PathRow;
  pp_paths_truncated : bool;
  pp_ingest_dropped : option N;
  pp_ingest_shed_batches : option N;
  pp_ingest_malformed : option N;
  pp_sample_complete : bool;
  pp_cardinality_capped : bool;
}.

Definition psnapshot_of (s : StoredSnapshot) : PersistedSnapshot :=
  let d := sn_def s in
  mkPSnap (sn_label s) (sn_description s) (sn_meta s) (sn_taken_at s) (sn_window_start s) (sn_wall_ms s)
    (cd_filter_string d) (level_as_str (cd_level d)) (cd_group_keys d) (cd_max_sample_bytes d) (cd_description d)
    (pthreshold_of <$> cd_threshold d) (po_per_name (sn_policy s)) (po_per_group (sn_policy s))
    (po_projections (sn_policy s)) (pexact_of (sn_total s)) (sn_projections s) (sn_paths s) (sn_paths_truncated s)
    (tl_dropped <$> sn_ingest s) (tl_shed_batches <$> sn_ingest s) (tl_malformed <$> sn_ingest s)
    (sn_sample_complete s) (sn_cardinality_capped s).

Definition psnapshot_restore (name : string) (p : PersistedSnapshot) : option StoredSnapshot :=
  level ← level_from_str (pp_level p);
  filter ← (match parse_filter (pp_filter p) with inr f => Some f | inl _ => None end);
  let ingest :=
    match pp_ingest_dropped p, pp_ingest_shed_batches p, pp_ingest_malformed p with
    | Some d, Some s, Some m => Some (mkLoss d s m)
    | _, _, _ => None
    end in
  total ← pexact_restore (pp_total p);
  Some (mkSnap (pp_label p) (pp_description p) (pp_meta p) (pp_taken_at p)
    (mkDef name (pp_filter p) filter level (pp_group_keys p) (pp_max_sample_bytes p) (pp_collector_description p)
       (pp_threshold p ≫= pthreshold_restore))
    (mkPolicy (pp_policy_per_name p) (pp_policy_per_group p) (pp_policy_projections p))
    (pp_window_start p) (pp_wall_ms p) total None None (interner_new 0) [] ingest (pp_projections p) (pp_paths p)
    (pp_paths_truncated p) (pp_sample_complete p) (pp_cardinality_capped p)).

Record PersistedCollector := mkPCollector {
  pc_version : N;
  pc_name : string;
  pc_owner : string;
  pc_domain : string;
  pc_filter : string;
  pc_level : string;
  pc_group_keys : list string;
  pc_max_sample_bytes : N;
  pc_description : option string;
  pc_threshold : option PersistedThreshold;
  pc_armed_at : Z;
  pc_snapshots : list PersistedSnapshot;
  pc_next_auto_label : N;
  pc_snapshots_evicted : N;
}.

(** ** The text between

    A file is JSON, and [serde_json] is built without its [float_roundtrip]
    feature: a float is written with its shortest digits, and what those are read
    back as may be a neighbour of it. Text, integers and structure come back as
    they were. What reading back makes of a finite float, and of a JSON value with
    the floats in it, is an argument; decimals as short as the constants of the
    sketch's layout ([0.01], [1.0], [3600000000000.0]) are read exactly. *)
Class JsonBack := {
  json_f64 : f64 → f64;
  json_value : Value → Value;
  json_layout_floats : json_f64 ALPHA = ALPHA ∧ json_f64 MIN_NS = MIN_NS ∧ json_f64 MAX_NS = MAX_NS;
}.

Context {JB : JsonBack}.

Definition json_layout (l : PersistedLayout) : PersistedLayout :=
  mkPLayout (pl_algo l) (json_f64 (pl_alpha l)) (pl_unit l) (json_f64 (pl_min_ns l)) (json_f64 (pl_max_ns l))
    (pl_max_num_bins l).
Definition json_exact (p : PersistedExact) : PersistedExact :=
  mkPExact (pe_count p) (pe_total_ns p) (pe_min_ns p) (pe_max_ns p) (pe_error_count p) (pe_negative p) (pe_malformed p)
    (pe_out_of_range p) (pe_sketch p) (json_layout (pe_layout p)).
Definition json_threshold (t : PersistedThreshold) : PersistedThreshold :=
  mkPThreshold (pt_metric t) (pt_group t) (pt_op t) (json_f64 (pt_value t)) (pt_window_ms t).
Definition json_sampled (p : ProfileSampled) : ProfileSampled :=
  mkSampled (ps_complete p) (ps_sample_count p) (json_f64 <$> ps_self_ms p) (ps_nested_matches p)
    (json_f64 (ps_overlapping_child_ms p)) (ps_overlapping_child_spans p) (json_f64 <$> ps_wall_union_ms p)
    (json_f64 <$> ps_achieved_concurrency p) (json_f64 <$> ps_p50_ms p) (json_f64 <$> ps_p80_ms p)
    (json_f64 <$> ps_p95_ms p) (json_f64 <$> ps_p99_ms p) (json_f64 <$> ps_stddev_ms p)
    (map json_f64 <$> ps_durations_ms p).
Definition json_path (r : PathRow) : PathRow :=
  mkPathRow (pr_frames r) (json_f64 (pr_self_ms r)) (pr_count r) (pr_incomplete r).
Definition json_snapshot (p : PersistedSnapshot) : PersistedSnapshot :=
  mkPSnap (pp_label p) (pp_description p) (json_value (pp_meta p)) (pp_taken_at p) (pp_window_start p)
    (json_f64 (pp_wall_ms p)) (pp_filter p) (pp_level p) (pp_group_keys p) (pp_max_sample_bytes p)
    (pp_collector_description p) (json_threshold <$> pp_threshold p) (pp_policy_per_name p) (pp_policy_per_group p)
    (pp_policy_projections p) (json_exact (pp_total p)) (json_sampled <$> pp_projections p) (json_path <$> pp_paths p)
    (pp_paths_truncated p) (pp_ingest_dropped p) (pp_ingest_shed_batches p) (pp_ingest_malformed p)
    (pp_sample_complete p) (pp_cardinality_capped p).
Definition json_collector (f : PersistedCollector) : PersistedCollector :=
  mkPCollector (pc_version f) (pc_name f) (pc_owner f) (pc_domain f) (pc_filter f) (pc_level f) (pc_group_keys f)
    (pc_max_sample_bytes f) (pc_description f) (json_threshold <$> pc_threshold f) (pc_armed_at f)
    (json_snapshot <$> pc_snapshots f) (pc_next_auto_label f) (pc_snapshots_evicted f).

(** The history, and the labels of the runs that could not be restored. *)
Definition restore_history (f : PersistedCollector) : History * list string :=
  let '(h, errors) :=
    foldl (λ st s, match psnapshot_restore (pc_name f) s with
                   | Some snap => (history_push snap st.1, st.2)
                   | None => (st.1, st.2 ++ [pp_label s])
                   end) (history_new, []) (pc_snapshots f) in
  (restore_counters (pc_next_auto_label f) (pc_snapshots_evicted f) h, errors).

(** ** The directory *)

Inductive CollectorFile := CFUnreadable | CFUnparseable | CFParsed (p : PersistedCollector).
Abbreviation Dir := (gmap string (Z * CollectorFile)).

Inductive ReadError := ReadFailed | Unparseable | NewerFormat (version : N).
Definition read_one (f : CollectorFile) : ReadError + PersistedCollector :=
  match f with
  | CFUnreadable => inl ReadFailed
  | CFUnparseable => inl Unparseable
  | CFParsed p => if FORMAT_VERSION <? pc_version p then inl (NewerFormat (pc_version p)) else inr p
  end.

(** [std::fs::rename] onto a free name; [ok] says whether the system allows it. *)
Definition fs_rename (ok : string → string → bool) (from to : string) (d : Dir) : bool * Dir :=
  match d !! from with
  | Some f => if ok from to then (true, <[to := f]> (delete from d)) else (false, d)
  | None => (false, d)
  end.

Definition exists_in (path : string) (d : Dir) : bool := bool_decide (is_Some (d !! path)).

(** The loop's candidates; [None] is out of fuel. *)
Fixpoint aside_loop (fuel : nat) (first candidate : string) (n : N) (d : Dir) : option string :=
  if exists_in candidate d then
    match fuel with
    | O => None
    | S fuel => aside_loop fuel first (first +:+ "." +:+ pretty n) (n + 1) d
    end
  else Some candidate.

Definition set_aside (ok : string → string → bool) (path suffix : string) (d : Dir) : option string * Dir :=
  let first := path +:+ "." +:+ suffix in
  match aside_loop (size d) first first 1 d with
  | None => (None, d)
  | Some candidate =>
      let '(moved, d) := fs_rename ok path candidate d in
      (if moved then Some candidate else None, d)
  end.

(** [rsplit] of the file name at its last dot, as [Path::extension] does it. *)
Definition path_extension (path : string) : option string :=
  match rsplit_once "." path with
  | Some (stem, ext) => if String.eqb stem "" then None else Some ext
  | None => None
  end.
Definition with_extension (path ext : string) : string :=
  match rsplit_once "." path with
  | Some (stem, _) => if String.eqb stem "" then path +:+ "." +:+ ext else stem +:+ "." +:+ ext
  | None => path +:+ "." +:+ ext
  end.

Definition staging_path (canonical : string) : string := with_extension canonical "moving.json".

Definition rename_no_clobber (ok : string → string → bool) (from to : string) (d : Dir) : bool * Dir :=
  if exists_in to d then (false, d) else fs_rename ok from to d.

Record LoadOutcome := mkLoad {
  lo_collectors : list PersistedCollector;
  lo_quarantined : list (string * ReadError);
  lo_superseded : list (string * string);
}.

(** A readable copy: where it is, when it was written, what it holds. *)
Definition FileCopy : Type := string * Z * PersistedCollector.
Definition copy_path (c : FileCopy) : string := c.1.1.
Definition copy_modified (c : FileCopy) : Z := c.1.2.
Definition copy_key (c : FileCopy) : string * string := (pc_owner c.2, pc_name c.2).

(** The first pass: read each file, set aside the ones that cannot be read. *)
Definition read_step (ok : string → string → bool) (st : list FileCopy * list (string * ReadError) * Dir) (path : string)
  : list FileCopy * list (string * ReadError) * Dir :=
  let '(copies, quarantined, d) := st in
  let '(modified, r) := match d !! path with
                        | Some (modified, content) => (modified, read_one content)
                        | None => (0%Z, inl ReadFailed)
                        end in
  match r with
  | inr c => (copies ++ [(path, modified, c)], quarantined, d)
  | inl reason =>
      match set_aside ok path "corrupt" d with
      | (Some moved, d) => (copies, quarantined ++ [(moved, reason)], d)
      | (None, d) => (copies, quarantined ++ [(path, reason)], d)
      end
  end.

(** [keys.sort()]: pairs of strings, without repetition. *)
Definition key_le (a b : string * string) : Prop :=
  a.1 ≠ b.1 ∧ String.le a.1 b.1 ∨ a.1 = b.1 ∧ String.le a.2 b.2.
#[global] Instance key_le_dec a b : Decision (key_le a b).
Proof. unfold key_le. apply _. Defined.
Definition copy_keys (copies : list FileCopy) : list (string * string) :=
  merge_sort key_le (remove_dups (copy_key <$> copies)).

(** Newest first; on a tie the one in place, then by path. *)
Definition copy_le (canonical : string) (a b : FileCopy) : Prop :=
  (copy_modified b < copy_modified a)%Z ∨
  copy_modified a = copy_modified b ∧
  (copy_path a = canonical ∧ copy_path b ≠ canonical ∨
   (copy_path a = canonical ↔ copy_path b = canonical) ∧ String.le (copy_path a) (copy_path b)).
#[global] Instance copy_le_dec canonical a b : Decision (copy_le canonical a b).
Proof. unfold copy_le. apply _. Defined.

(** A winner: where it is, where it belongs, what it holds. *)
Definition Winner : Type := string * string * PersistedCollector.

Definition aside_step (ok : string → string → bool) (i : nat) (st : list (nat * string) * Dir) (c : FileCopy)
  : list (nat * string) * Dir :=
  match set_aside ok (copy_path c) "superseded" st.2 with
  | (Some moved, d) => (st.1 ++ [(i, moved)], d)
  | (None, d) => (st.1, d)
  end.

Definition pick_step (ok : string → string → bool) (copies : list FileCopy)
  (st : list Winner * list (nat * string) * Dir) (key : string * string) : list Winner * list (nat * string) * Dir :=
  let '(winners, losers, d) := st in
  let canonical := collector_path key.1 key.2 in
  match merge_sort (copy_le canonical) (filter (λ c, copy_key c = key) copies) with
  | [] => st
  | c :: stale =>
      let '(losers, d) := foldl (aside_step ok (length winners)) (losers, d) stale in
      (winners ++ [(copy_path c, canonical, c.2)], losers, d)
  end.

(** The first of the two moves; a winner already staged stays. *)
Definition stage_step (ok : string → string → bool) (st : list (nat * string) * Dir) (iw : nat * Winner)
  : list (nat * string) * Dir :=
  let '(i, (path, canonical, _)) := iw in
  if String.eqb path canonical then st
  else
    let staging := staging_path canonical in
    if String.eqb path staging then (st.1 ++ [(i, staging)], st.2)
    else match rename_no_clobber ok path staging st.2 with
         | (true, d) => (st.1 ++ [(i, staging)], d)
         | (false, d) => (st.1, d)
         end.

(** The second move; [st.1] are the winners' final paths. *)
Definition place_step (ok : string → string → bool) (winners : list Winner) (st : list string * Dir) (s : nat * string)
  : list string * Dir :=
  let '(i, staging) := s in
  match winners !! i with
  | None => st
  | Some (original, canonical, _) =>
      match rename_no_clobber ok staging canonical st.2 with
      | (true, d) => (<[i := canonical]> st.1, d)
      | (false, d) =>
          match rename_no_clobber ok staging original d with
          | (true, d) => (<[i := original]> st.1, d)
          | (false, d) => (<[i := staging]> st.1, d)
          end
      end
  end.

(** [listing] is the directory's listing order. *)
Definition load_all (ok : string → string → bool) (listing : list string) (d : Dir) : LoadOutcome * Dir :=
  let paths := filter (λ p, path_extension p = Some "json"%string) listing in
  let '(copies, quarantined, d) := foldl (read_step ok) ([], [], d) paths in
  let '(winners, losers, d) := foldl (pick_step ok copies) ([], [], d) (copy_keys copies) in
  let '(staged, d) := foldl (stage_step ok) ([], d) (imap pair winners) in
  let '(finals, d) := foldl (place_step ok winners) ((λ w, w.1.1) <$> winners, d) staged in
  (mkLoad ((λ w, w.2) <$> winners) quarantined
     ((λ l, (l.2, default "" (finals !! l.1))) <$> losers), d).
End persist.
