(* ===== verification/PersistSpec.v ===== *)
(** * PersistSpec: a collector's file is its own, and no file is ever lost *)

From S2P Require Import Prelude Text F64 Gelf Filter Matcher Epoch DataFile Measure MeasureSpec Threshold Collector CollectorSamples CollectorSpec History HistorySpec Persist.
From stdpp Require Import sorting.

Set Default Proof Using "Type".
Local Open Scope N_scope.

(** ** Names *)

(** What a case-insensitive filesystem compares. *)
Definition fold_case : string → string := str_map ascii_lower.

Lemma str_map_app f s t : str_map f (s +:+ t) = str_map f s +:+ str_map f t.
Proof. induction s as [|a s IH]; [done|]. simpl. change (String.append s t) with (s +:+ t). by rewrite IH. Qed.

(** Reading one byte back from folded text. *)
Definition hex_value (a : ascii) : N := let n := N_of_ascii a in if n <? 58 then n - 48 else n - 87.
Definition decode_byte (s : string) : option (ascii * string) :=
  match s with
  | String "^" (String c r) => Some (ascii_upper c, r)
  | String "%" (String h (String l r)) => Some (ascii_of_N (16 * hex_value h + hex_value l), r)
  | String c r => Some (c, r)
  | EmptyString => None
  end.

Lemma decode_encode_byte b r : decode_byte (fold_case (encode_byte b) +:+ r) = Some (b, r).
Proof. destruct b as [[] [] [] [] [] [] [] []]; reflexivity. Qed.

Definition name_sep (a : ascii) : bool := negb (Ascii.eqb a ".").
Lemma encode_byte_dotless b : str_forall name_sep (fold_case (encode_byte b)) = true ∧ fold_case (encode_byte b) ≠ "".
Proof. destruct b as [[] [] [] [] [] [] [] []]; done. Qed.

Lemma encode_dotless s : str_forall name_sep (fold_case (encode s)) = true.
Proof.
  induction s as [|b s IH]; [done|]. simpl. unfold fold_case in *. rewrite str_map_app, str_forall_app.
  apply andb_true_iff. by split; [apply encode_byte_dotless|].
Qed.

(** A dot ends an encoded part. *)
Lemma decode_stops r : decode_byte (String "." r) = Some ("."%char, r).
Proof. done. Qed.

Lemma encode_inj_sep s t r1 r2 :
  fold_case (encode s) +:+ String "." r1 = fold_case (encode t) +:+ String "." r2 → s = t ∧ r1 = r2.
Proof.
  revert t. induction s as [|b s IH]; intros [|c t] H; simpl in H.
  - by injection H.
  - exfalso. unfold fold_case in H. rewrite str_map_app, <-(assoc_L String.append) in H.
    pose proof (decode_encode_byte c (str_map ascii_lower (encode t) +:+ String "." r2)) as E.
    unfold fold_case in E. change (String.append ?a ?b) with (a +:+ b) in *. rewrite <-H in E. injection E as E1 E2.
    by subst c.
  - exfalso. unfold fold_case in H. rewrite str_map_app, <-(assoc_L String.append) in H.
    pose proof (decode_encode_byte b (str_map ascii_lower (encode s) +:+ String "." r1)) as E.
    unfold fold_case in E. rewrite H in E. injection E as E1 E2. by subst b.
  - unfold fold_case in *. rewrite !str_map_app, <-!(assoc_L String.append) in H.
    pose proof (decode_encode_byte b (str_map ascii_lower (encode s) +:+ String "." r1)) as E1.
    pose proof (decode_encode_byte c (str_map ascii_lower (encode t) +:+ String "." r2)) as E2.
    unfold fold_case in E1, E2. rewrite H, E2 in E1. injection E1 as -> E1. destruct (IH _ (eq_sym E1)) as [-> ->]. done.
Qed.

Lemma sep_inj s t r1 r2 :
  str_forall name_sep s = true → str_forall name_sep t = true →
  s +:+ String "." r1 = t +:+ String "." r2 → s = t ∧ r1 = r2.
Proof.
  revert t. induction s as [|a s IH]; intros [|b t] Hs Ht H; simpl in *.
  - by injection H.
  - injection H as <- _. done.
  - injection H as -> _. done.
  - apply andb_true_iff in Hs as [_ Hs]. apply andb_true_iff in Ht as [_ Ht]. injection H as -> H.
    change (String.append ?a ?b) with (a +:+ b) in *. by destruct (IH t Hs Ht H) as [-> ->].
Qed.

Lemma sep_dotted u v : str_forall name_sep (u +:+ String "." v) = false.
Proof. rewrite str_forall_app. change (str_forall name_sep (String "." v)) with false. apply andb_false_r. Qed.

Lemma str_forall_substring p n s : str_forall p s = true → str_forall p (String.substring 0 n s) = true.
Proof.
  revert s. induction n as [|n IH]; intros [|a s] H; try done. simpl in *.
  apply andb_true_iff in H as [-> H]. by apply IH.
Qed.

Lemma str_map_substring f n s : str_map f (String.substring 0 n s) = String.substring 0 n (str_map f s).
Proof. revert s. induction n as [|n IH]; intros [|a s]; try done. simpl. by rewrite IH. Qed.

Lemma hex_digits_spec fuel : ∀ n acc,
  String.length (hex_digits fuel n acc) = (fuel + String.length acc)%nat ∧
  (str_forall name_sep (fold_case acc) = true → str_forall name_sep (fold_case (hex_digits fuel n acc)) = true).
Proof.
  induction fuel as [|fuel IH]; intros n acc; [done|]. simpl. destruct (IH (n / 16) (String (hex_digit (n mod 16)) acc)) as [H1 H2].
  split; [rewrite H1; simpl; lia|]. intros Ha. apply H2. simpl. fold (fold_case acc). rewrite Ha, andb_true_r.
  pose proof (N.mod_lt n 16 ltac:(done)) as Hm. generalize dependent (n mod 16). intros m _ _ Hm.
  assert (m = 0 ∨ m = 1 ∨ m = 2 ∨ m = 3 ∨ m = 4 ∨ m = 5 ∨ m = 6 ∨ m = 7 ∨ m = 8 ∨ m = 9 ∨ m = 10 ∨ m = 11 ∨ m = 12 ∨
    m = 13 ∨ m = 14 ∨ m = 15) as Hcases by lia. by repeat destruct Hcases as [->|Hcases]; try subst.
Qed.

(** A name in its folded parts. *)
Definition short_hash (owner name : string) : string := fold_case (hex_digits 16 (fnv1a64 owner name) "").
Definition short_part (s : string) : string :=
  fold_case (String.substring 0 (Nat.min (String.length (encode s)) PREFIX) (encode s)).

Lemma full_path owner name :
  (full_len owner name ≤ MAX_FULL_NAME)%nat →
  fold_case (collector_path owner name) = fold_case (encode owner) +:+ String "." (fold_case (encode name) +:+ String "." "json").
Proof.
  intros H. unfold collector_path. rewrite (proj2 (Nat.leb_le _ _) H). unfold fold_case. by rewrite !str_map_app.
Qed.

Lemma short_path owner name :
  (MAX_FULL_NAME < full_len owner name)%nat →
  fold_case (collector_path owner name) =
    short_part owner +:+ String "." (short_part name +:+ String "." (short_hash owner name +:+ String "." "json")).
Proof.
  intros H. unfold collector_path. rewrite (proj2 (Nat.leb_gt _ _) H). unfold short_part, short_hash, fold_case.
  by rewrite !str_map_app.
Qed.

Lemma short_part_dotless s : str_forall name_sep (short_part s) = true.
Proof. unfold short_part, fold_case. rewrite str_map_substring. apply str_forall_substring, encode_dotless. Qed.
Lemma short_hash_dotless owner name : str_forall name_sep (short_hash owner name) = true.
Proof. unfold short_hash. generalize (fnv1a64 owner name). intros h. by apply (proj2 (hex_digits_spec 16 h "")). Qed.
Lemma short_hash_length owner name : String.length (short_hash owner name) = 16%nat.
Proof.
  unfold short_hash, fold_case. assert (∀ f s, String.length (str_map f s) = String.length s) as ->.
  { intros f s. induction s as [|a s IH]; [done|]. simpl. by rewrite IH. }
  generalize (fnv1a64 owner name). intros h. by rewrite (proj1 (hex_digits_spec 16 h _)).
Qed.

Lemma path_inj o1 n1 o2 n2 :
  (full_len o1 n1 ≤ MAX_FULL_NAME)%nat →
  fold_case (collector_path o1 n1) = fold_case (collector_path o2 n2) → o1 = o2 ∧ n1 = n2.
Proof.
  intros H1 H. rewrite full_path in H by done. destruct (decide (full_len o2 n2 ≤ MAX_FULL_NAME)%nat) as [H2|H2].
  - rewrite full_path in H by done. apply encode_inj_sep in H as [-> H]. by apply encode_inj_sep in H as [-> _].
  - exfalso. rewrite short_path in H by lia.
    apply sep_inj in H as [_ H]; [|apply encode_dotless|apply short_part_dotless].
    apply sep_inj in H as [_ H]; [|apply encode_dotless|apply short_part_dotless].
    pose proof (f_equal (str_forall name_sep) H) as Hd. by rewrite sep_dotted in Hd.
Qed.

(** No two collectors share a file, even where the filesystem folds case:
    two names written in full never meet, and a name written in full never meets
    a shortened one (two shortened names are kept apart by their hash only). *)
Theorem files_distinct o1 n1 o2 n2 :
  (full_len o1 n1 ≤ MAX_FULL_NAME)%nat →
  fold_case (collector_path o1 n1) = fold_case (collector_path o2 n2) → o1 = o2 ∧ n1 = n2.
Proof. apply path_inj. Qed.

Lemma files_distinct_witness :
  fold_case (collector_path "a__b" "c") ≠ fold_case (collector_path "a" "b__c") ∧
  fold_case (collector_path "s" "Perf") ≠ fold_case (collector_path "s" "perf").
Proof.
  split; intros H; [apply (files_distinct "a__b" "c" "a" "b__c" ltac:(vm_compute; lia)) in H
                   |apply (files_distinct "s" "Perf" "s" "perf" ltac:(vm_compute; lia)) in H]; by destruct H.
Defined.

Section load.
Context {X : Externals} {SK : SketchCrate} {J : JsonScalars}.

(** ** Renames lose nothing *)

Abbreviation Dir := (gmap string (Z * CollectorFile)).
Definition files (d : Dir) : list (Z * CollectorFile) := (map_to_list d).*2.

Lemma fs_rename_perm ok from to (d : Dir) : d !! to = None → files (fs_rename ok from to d).2 ≡ₚ files d.
Proof.
  intros Hto. unfold fs_rename. destruct (d !! from) as [f|] eqn:E; [|done]. destruct (ok from to); [|done].
  cbn [snd]. unfold files. rewrite map_to_list_insert by (rewrite lookup_delete_None; by right).
  rewrite <-(map_to_list_delete d from f) by done. done.
Qed.

Lemma fs_rename_other ok from to (d : Dir) p :
  p ≠ from → p ≠ to → (fs_rename ok from to d).2 !! p = d !! p.
Proof.
  intros H1 H2. unfold fs_rename. destruct (d !! from) as [f|]; [|done]. destruct (ok from to); [|done].
  cbn [snd]. by rewrite lookup_insert_ne, lookup_delete_ne by done.
Qed.

Lemma fs_rename_kept ok from to (d : Dir) p f : d !! to = None → d !! p = Some f → p ≠ from → (fs_rename ok from to d).2 !! p = Some f.
Proof. intros H1 H2 H3. rewrite fs_rename_other; [done|done|congruence]. Qed.

Lemma exists_in_false p d : exists_in p d = false ↔ d !! p = None.
Proof. unfold exists_in. rewrite bool_decide_eq_false. by rewrite eq_None_not_Some. Qed.

Lemma aside_loop_free fuel : ∀ first c n d x, aside_loop fuel first c n d = Some x → d !! x = None.
Proof.
  induction fuel as [|fuel IH]; intros first c n d x; simpl; destruct (exists_in c d) eqn:E; try done.
  - intros [= <-]. by apply exists_in_false.
  - apply IH.
  - intros [= <-]. by apply exists_in_false.
Qed.

(** Out of fuel means as many distinct names taken as there was fuel. *)
Lemma aside_loop_None fuel : ∀ first c n d,
  aside_loop fuel first c n d = None →
  is_Some (d !! c) ∧ ∀ i, (i < fuel)%nat → is_Some (d !! (first +:+ "." +:+ pretty (n + N.of_nat i))).
Proof.
  induction fuel as [|fuel IH]; intros first c n d; simpl; destruct (exists_in c d) eqn:E; try done;
    unfold exists_in in E; apply bool_decide_eq_true in E.
  - intros _. split; [done|lia].
  - intros H. destruct (IH _ _ _ _ H) as [H1 H2]. split; [done|]. intros [|i] Hi; [by rewrite N.add_0_r|].
    replace (n + N.of_nat (S i)) with (n + 1 + N.of_nat i) by lia. apply H2. lia.
Qed.

Lemma aside_name_inj first i j :
  first +:+ "." +:+ pretty (1 + N.of_nat i) = first +:+ "." +:+ pretty (1 + N.of_nat j) → i = j.
Proof. intros H. apply (inj (String.append first)), (inj (String.append ".")), (inj pretty) in H. lia. Qed.

(** The loop always finds a free name. *)
Lemma aside_loop_total first (d : Dir) : is_Some (aside_loop (size d) first first 1 d).
Proof.
  destruct (aside_loop _ _ _ _ _) as [x|] eqn:E; [by eexists|]. exfalso. apply aside_loop_None in E as [E1 E2].
  set (names := first :: ((λ i, first +:+ "." +:+ pretty (1 + N.of_nat i)) <$> List.seq 0 (size d))).
  assert (NoDup names) as Hnd.
  { apply NoDup_cons. split.
    - intros (i & H & _)%list_elem_of_fmap. apply (f_equal String.length) in H. revert H.
      generalize (pretty (1 + N.of_nat i)). intros w. change (first +:+ "." +:+ w) with (first ++ (String "." w))%string.
      assert (∀ u v, String.length (u ++ v)%string = (String.length u + String.length v)%nat) as ->; [|simpl; lia].
      intros u v. induction u as [|a u IHu]; [done|]. simpl. by rewrite IHu.
    - apply NoDup_fmap_2_strong; [|apply NoDup_seq]. intros i j _ _. apply aside_name_inj. }
  assert (list_to_set names ⊆ dom d) as Hsub.
  { intros x Hx%elem_of_list_to_set. apply elem_of_dom. apply elem_of_cons in Hx as [->|(i & -> & Hi%elem_of_seq)%list_elem_of_fmap]; [done|].
    apply E2. lia. }
  apply subseteq_size in Hsub. rewrite size_list_to_set, size_dom in Hsub by done.
  unfold names in Hsub. simpl in Hsub. rewrite length_fmap, length_seq in Hsub. lia.
Qed.

Lemma set_aside_spec ok path suffix (d : Dir) :
  files (set_aside ok path suffix d).2 ≡ₚ files d ∧
  ∀ p f, d !! p = Some f → p ≠ path → (set_aside ok path suffix d).2 !! p = Some f.
Proof.
  unfold set_aside. destruct (aside_loop _ _ _ _ _) as [x|] eqn:E; [|done]. apply aside_loop_free in E.
  destruct (fs_rename ok path x d) as [moved d'] eqn:Er. cbn [snd]. change d' with (moved, d').2. rewrite <-Er.
  split; [by apply fs_rename_perm|]. intros p f Hp Hne. by apply fs_rename_kept.
Qed.

Lemma rename_no_clobber_perm ok from to d : files (rename_no_clobber ok from to d).2 ≡ₚ files d.
Proof.
  unfold rename_no_clobber. destruct (exists_in to d) eqn:E; [done|]. apply fs_rename_perm. by apply exists_in_false.
Qed.

(** ** The passes over the directory *)

Definition readable (d : Dir) (p : string) : option FileCopy :=
  match d !! p with
  | Some (m, content) => match read_one content with inr c => Some (p, m, c) | inl _ => None end
  | None => None
  end.

Lemma read_run ok d0 ps : ∀ copies q d,
  NoDup ps → (∀ p, p ∈ ps → d !! p = d0 !! p ∧ is_Some (d0 !! p)) →
  let '(copies', _, d') := foldl (read_step ok) (copies, q, d) ps in
  copies' = copies ++ omap (readable d0) ps ∧ files d' ≡ₚ files d.
Proof.
  induction ps as [|p ps IH]; intros copies q d Hnd Hin; [by simpl; rewrite app_nil_r|].
  apply NoDup_cons in Hnd as [Hp Hnd]. cbn [foldl]. unfold read_step at 2.
  destruct (Hin p ltac:(by left)) as [Ed [[m content] E0]]. rewrite E0 in Ed. rewrite Ed. cbn [omap list_omap].
  unfold readable at 1. rewrite E0. destruct (read_one content) as [reason|c].
  - destruct (set_aside_spec ok p "corrupt" d) as [H1 H2].
    assert (∀ p', p' ∈ ps → (set_aside ok p "corrupt" d).2 !! p' = d0 !! p' ∧ is_Some (d0 !! p')) as Hin'.
    { intros p' Hp'. destruct (Hin p' ltac:(by right)) as [E' [f Ef]]. split; [|by exists f].
      rewrite Ef in E' |- *. apply H2; [done|]. by intros ->. }
    destruct (set_aside ok p "corrupt" d) as [[moved|] d']; cbn [fst snd] in *.
    + specialize (IH copies (q ++ [(moved, reason)]) d' Hnd Hin'). destruct (foldl _ _ _) as [[? ?] ?]. by rewrite H1 in IH.
    + specialize (IH copies (q ++ [(p, reason)]) d' Hnd Hin'). destruct (foldl _ _ _) as [[? ?] ?]. by rewrite H1 in IH.
  - specialize (IH (copies ++ [(p, m, c)]) q d Hnd ltac:(intros; apply Hin; by right)).
    destruct (foldl _ _ _) as [[? ?] ?]. by rewrite <-app_assoc in IH.
Qed.

Lemma aside_run ok i stale : ∀ st, files (foldl (aside_step ok i) st stale).2 ≡ₚ files st.2.
Proof.
  induction stale as [|c stale IH]; intros st; [done|]. cbn [foldl]. rewrite IH. unfold aside_step.
  pose proof (set_aside_spec ok (copy_path c) "superseded" st.2) as [H _].
  by destruct (set_aside _ _ _ _) as [[moved|] d'].
Qed.

Definition winner_of (copies : list FileCopy) (key : string * string) : option Winner :=
  match merge_sort (copy_le (collector_path key.1 key.2)) (filter (λ c, copy_key c = key) copies) with
  | [] => None
  | c :: _ => Some (copy_path c, collector_path key.1 key.2, c.2)
  end.

Lemma pick_run ok copies keys : ∀ winners losers d,
  let '(winners', _, d') := foldl (pick_step ok copies) (winners, losers, d) keys in
  winners' = winners ++ omap (winner_of copies) keys ∧ files d' ≡ₚ files d.
Proof.
  induction keys as [|key keys IH]; intros winners losers d; [by simpl; rewrite app_nil_r|].
  cbn [foldl omap list_omap]. unfold pick_step at 2, winner_of at 1.
  destruct (merge_sort _ _) as [|c stale]; [apply IH|].
  pose proof (aside_run ok (length winners) stale (losers, d)) as Ha.
  destruct (foldl (aside_step _ _) _ _) as [losers' d']. cbn [snd] in Ha.
  specialize (IH (winners ++ [(copy_path c, collector_path key.1 key.2, c.2)]) losers' d').
  destruct (foldl _ _ _) as [[? ?] ?]. by rewrite <-app_assoc, Ha in IH.
Qed.

Lemma stage_run ok iws : ∀ st, files (foldl (stage_step ok) st iws).2 ≡ₚ files st.2.
Proof.
  induction iws as [|[i [[path canonical] c]] iws IH]; intros st; [done|]. cbn [foldl]. rewrite IH. unfold stage_step.
  case_goal; [done|]. case_goal; [done|]. pose proof (rename_no_clobber_perm ok path (staging_path canonical) st.2) as H.
  by destruct (rename_no_clobber _ _ _ _) as [[] d'].
Qed.

Lemma place_run ok winners ss : ∀ st, files (foldl (place_step ok winners) st ss).2 ≡ₚ files st.2.
Proof.
  induction ss as [|[i staging] ss IH]; intros st; [done|]. cbn [foldl]. rewrite IH. unfold place_step.
  destruct (winners !! i) as [[[original canonical] c]|]; [|done].
  pose proof (rename_no_clobber_perm ok staging canonical st.2) as H1.
  destruct (rename_no_clobber ok staging canonical st.2) as [[] d1]; [done|]. cbn [snd] in H1.
  pose proof (rename_no_clobber_perm ok staging original d1) as H2.
  destruct (rename_no_clobber ok staging original d1) as [[] d2]; cbn [snd] in *; by rewrite H2.
Qed.

Lemma load_spec ok listing d :
  NoDup listing → (∀ p, p ∈ listing → is_Some (d !! p)) →
  let '(o, d') := load_all ok listing d in
  let copies := omap (readable d) (filter (λ p, path_extension p = Some "json"%string) listing) in
  lo_collectors o = (λ w, w.2) <$> omap (winner_of copies) (copy_keys copies) ∧ files d' ≡ₚ files d.
Proof.
  intros Hnd Hin. unfold load_all.
  pose proof (read_run ok d (filter (λ p, path_extension p = Some "json"%string) listing) [] [] d) as H1.
  destruct (foldl (read_step ok) _ _) as [[copies q] d1].
  destruct H1 as [-> H1]; [by apply NoDup_filter|intros p [_ Hp]%list_elem_of_filter; split; [done|by apply Hin]|].
  cbn [app] in *. set (copies := omap _ _) in *.
  pose proof (pick_run ok copies (copy_keys copies) [] [] d1) as H2.
  destruct (foldl (pick_step ok copies) _ _) as [[winners losers] d2]. destruct H2 as [-> H2]. cbn [app] in *.
  pose proof (stage_run ok (imap pair (omap (winner_of copies) (copy_keys copies))) ([], d2)) as H3.
  destruct (foldl (stage_step ok) _ _) as [staged d3]. cbn [snd] in H3.
  pose proof (place_run ok (omap (winner_of copies) (copy_keys copies)) staged
    ((λ w, w.1.1) <$> omap (winner_of copies) (copy_keys copies), d3)) as H4.
  destruct (foldl (place_step ok _) _ _) as [finals d4]. cbn [snd] in H4.
  cbn [lo_collectors]. split; [done|]. by rewrite H4, H3, H2, H1.
Qed.

(** C40: the boot pass destroys no file. Whatever the directory holds, in
    whatever order it is listed and whichever renames fail, every file is still
    there afterwards with its bytes, under its name or another. *)
Theorem load_keeps_files ok listing d :
  NoDup listing → (∀ p, p ∈ listing → is_Some (d !! p)) →
  files (load_all ok listing d).2 ≡ₚ files d.
Proof.
  intros Hn Hl. pose proof (load_spec ok listing d Hn Hl) as H. destruct (load_all ok listing d) as [o d']. apply H.
Qed.

(** ** The newest copy *)

#[global] Instance copy_le_trans canonical : Transitive (copy_le canonical).
Proof.
  intros a b c [Hab|(E1 & H1)] [Hbc|(E2 & H2)]; [left; lia|left; lia|left; lia|]. right. split; [lia|].
  destruct H1 as [[]|[]], H2 as [[]|[]]; [naive_solver|naive_solver|naive_solver|].
  right. split; [naive_solver|]. by etrans.
Qed.
#[global] Instance copy_le_total canonical : Total (copy_le canonical).
Proof.
  intros a b. unfold copy_le. destruct (decide (copy_modified a < copy_modified b)%Z); [right; by left|].
  destruct (decide (copy_modified b < copy_modified a)%Z); [left; by left|].
  assert (copy_modified a = copy_modified b) as E by lia.
  destruct (decide (copy_path a = canonical)), (decide (copy_path b = canonical));
    [|left; right; by auto|right; right; by auto|];
    (destruct (String.leb_total (copy_path a) (copy_path b)) as [H|H];
      [left|right]; right; (split; [done|]); right; (split; [done|]); by unfold String.le; rewrite H).
Qed.

Lemma copy_le_antisym canonical a b : copy_le canonical a b → copy_le canonical b a → copy_path a = copy_path b.
Proof.
  intros [|(E1 & [[H1 H1']|[H1 S1]])] [|(E2 & [[H2 H2']|[H2 S2]])]; try lia.
  - done.
  - by destruct H1', H2; auto.
  - by destruct H2', H1; auto.
  - by apply (anti_symm String.le).
Qed.

Definition key_of (c : PersistedCollector) : string * string := (pc_owner c, pc_name c).

(** A readable copy of a collector in the directory. *)
Definition copy_in (d : Dir) (f : FileCopy) : Prop :=
  path_extension (copy_path f) = Some "json"%string ∧
  d !! copy_path f = Some (copy_modified f, CFParsed f.2) ∧ pc_version f.2 ≤ FORMAT_VERSION.

Lemma elem_of_copies d (listing : list string) f :
  (∀ p, is_Some (d !! p) → p ∈ listing) →
  f ∈ omap (readable d) (filter (λ p, path_extension p = Some "json"%string) listing) ↔ copy_in d f.
Proof.
  intros Hl. rewrite list_elem_of_omap. setoid_rewrite list_elem_of_filter. destruct f as [[p m] c].
  unfold copy_in, copy_path, copy_modified, readable. cbn [fst snd]. split.
  - intros (p' & [Hext Hin] & H). destruct (d !! p') as [[m' content]|] eqn:E; [|done].
    destruct content as [| |c']; simpl in H; [done|done|]. destruct (N.ltb_spec FORMAT_VERSION (pc_version c')); [done|].
    by simplify_eq.
  - intros (Hext & E & Hv). exists p. split; [split; [done|]; apply Hl; by eexists|]. rewrite E. simpl.
    destruct (N.ltb_spec FORMAT_VERSION (pc_version c)); [lia|done].
Qed.

Lemma winner_of_spec copies key :
  (∃ f, f ∈ copies ∧ copy_key f = key) →
  ∃ f, winner_of copies key = Some (copy_path f, collector_path key.1 key.2, f.2) ∧ f ∈ copies ∧ copy_key f = key ∧
    ∀ g, g ∈ copies → copy_key g = key → copy_le (collector_path key.1 key.2) f g.
Proof.
  intros (f0 & Hf0 & Hk0). unfold winner_of.
  pose proof (StronglySorted_merge_sort (copy_le (collector_path key.1 key.2)) (filter (λ c, copy_key c = key) copies)) as Hs.
  pose proof (merge_sort_Permutation (copy_le (collector_path key.1 key.2)) (filter (λ c, copy_key c = key) copies)) as Hp.
  destruct (merge_sort _ _) as [|f l].
  { exfalso. apply Permutation_nil_l in Hp. assert (f0 ∈ filter (λ c, copy_key c = key) copies) as Hin
      by by apply list_elem_of_filter. rewrite <-Hp in Hin. by apply elem_of_nil in Hin. }
  exists f. assert (f ∈ filter (λ c, copy_key c = key) copies) as Hf by (rewrite <-Hp; by left).
  apply list_elem_of_filter in Hf as [Hk Hf]. split_and!; [done|done|done|].
  intros g Hg Hgk. assert (g ∈ f :: l) as Hin by (rewrite Hp; by apply list_elem_of_filter).
  apply StronglySorted_inv in Hs as [_ Hs]. rewrite Forall_forall in Hs.
  apply elem_of_cons in Hin as [->|Hin]; [|by apply Hs].
  destruct (total (copy_le (collector_path key.1 key.2)) f f); done.
Qed.

Lemma copy_keys_spec copies :
  NoDup (copy_keys copies) ∧ ∀ k, k ∈ copy_keys copies ↔ ∃ f, f ∈ copies ∧ copy_key f = k.
Proof.
  unfold copy_keys. split; [rewrite merge_sort_Permutation; apply NoDup_remove_dups|].
  intros k. rewrite merge_sort_Permutation, elem_of_remove_dups, list_elem_of_fmap. naive_solver.
Qed.

Lemma winners_keys copies (ks : list (string * string)) :
  (∀ k, k ∈ ks → ∃ f, f ∈ copies ∧ copy_key f = k) → (λ w : Winner, key_of w.2) <$> omap (winner_of copies) ks = ks.
Proof.
  induction ks as [|k ks IH]; intros H; [done|]. cbn [omap list_omap].
  destruct (winner_of_spec copies k (H k ltac:(by left))) as (f & -> & _ & <- & _). cbn [fmap list_fmap].
  f_equal. apply IH. intros k' Hk'. apply H. by right.
Qed.

(** The boot pass restores each collector once, from its newest copy. For
    every owner and name with a readable copy in the directory, exactly one
    collector comes back, and it is the copy that was written last (on a tie the
    one at the collector's own path). *)
Lemma load_outcome ok (listing : list string) d :
  NoDup listing → (∀ p, p ∈ listing ↔ is_Some (d !! p)) →
  let cs := lo_collectors (load_all ok listing d).1 in
  NoDup (key_of <$> cs) ∧
  (∀ c, c ∈ cs ↔ ∃ f, copy_in d f ∧ f.2 = c ∧
     ∀ g, copy_in d g → copy_key g = copy_key f → copy_le (collector_path (pc_owner c) (pc_name c)) f g) ∧
  (∀ f, copy_in d f → ∃ c, c ∈ cs ∧ key_of c = copy_key f).
Proof.
  intros Hn Hl. pose proof (load_spec ok listing d Hn ltac:(by intros p ?%Hl)) as H.
  destruct (load_all ok listing d) as [o d']. cbn [fst]. destruct H as [-> _]. cbn zeta.
  set (copies := omap (readable d) _) in *. set (ws := omap (winner_of copies) _).
  assert (∀ f, f ∈ copies ↔ copy_in d f) as Hc by (intros f; apply elem_of_copies; intros p ?; by apply Hl).
  destruct (copy_keys_spec copies) as [Hnd Hks].
  assert (∀ c, c ∈ (λ w : Winner, w.2) <$> ws ↔ ∃ f, copy_in d f ∧ f.2 = c ∧
     ∀ g, copy_in d g → copy_key g = copy_key f → copy_le (collector_path (pc_owner c) (pc_name c)) f g) as Hcs.
  { intros c. unfold ws. rewrite list_elem_of_fmap. setoid_rewrite list_elem_of_omap. split.
    - intros (w & -> & k & Hk & Hw). destruct (winner_of_spec copies k (proj1 (Hks k) Hk)) as (f & E & Hf & <- & Hle).
      rewrite E in Hw. injection Hw as <-. exists f. split_and!; [by apply Hc|done|]. intros g Hg%Hc Hgk. by apply Hle.
    - intros (f & Hf%Hc & <- & Hle). destruct (winner_of_spec copies (copy_key f) ltac:(by exists f)) as (f' & E & Hf' & Hk & Hle').
      assert (f' = f) as ->; [|eexists; split; [|exists (copy_key f); split; [apply Hks; by exists f|exact E]]; done].
      apply Hc in Hf as Hfd. apply Hc in Hf' as Hfd'.
      pose proof (Hle f' Hfd' Hk) as L1. pose proof (Hle' f Hf eq_refl) as L2.
      assert (copy_path f' = copy_path f) as Hp.
      { by eapply copy_le_antisym. }
      destruct f as [[p m] c], f' as [[p' m'] c']. unfold copy_in, copy_path, copy_modified in *. cbn [fst snd] in *.
      destruct Hfd as (_ & Hd & _), Hfd' as (_ & Hd' & _). subst p'. rewrite Hd in Hd'. by simplify_eq. }
  split_and!; [|exact Hcs|].
  - rewrite <-list_fmap_compose. change (NoDup ((λ w : Winner, key_of w.2) <$> ws)). unfold ws.
    rewrite winners_keys; [done|]. intros k. apply Hks.
  - intros f Hf%Hc. destruct (winner_of_spec copies (copy_key f) ltac:(by exists f)) as (f' & E & Hf' & Hk & _).
    exists f'.2. split; [|done]. apply list_elem_of_fmap. eexists. split; [|apply list_elem_of_omap; exists (copy_key f); split; [apply Hks; by exists f|exact E]]. done.
Qed.

End load.

(** ** A run written and read back *)

Lemma pretty_go_value n : ∀ s,
  digits_value 0 (pretty_N_go n s) = digits_value (Z.of_N n) s ∧
  (is_ascii_digit <$> String.get 0 s ≠ Some false → is_ascii_digit <$> String.get 0 (pretty_N_go n s) ≠ Some false).
Proof.
  induction n as [n IH] using (well_founded_induction N.lt_wf_0). intros s.
  destruct (decide (n = 0)) as [->|Hz]; [by rewrite pretty_N_go_0|]. rewrite pretty_N_go_step by lia.
  destruct (IH (n / 10) ltac:(apply N.div_lt; lia) (String (pretty_N_char (n mod 10)) s)) as [-> H2].
  pose proof (N.mod_lt n 10 ltac:(lia)) as Hm. pose proof (digit_char _ Hm) as Hd.
  assert (is_ascii_digit (pretty_N_char (n mod 10)) = true) as Hdig.
  { unfold is_ascii_digit, in_range. rewrite Hd. apply andb_true_iff. rewrite !N.leb_le.
    assert (∀ y, y < 10 → 48 ≤ 48 + y ∧ 48 + y ≤ 57) as Hb by lia. by apply Hb. }
  split; [|intros _; apply H2; simpl; by rewrite Hdig]. simpl. rewrite Hdig. f_equal. unfold digit_val. rewrite Hd.
  pose proof (N.div_mod n 10 ltac:(lia)) as E. rewrite N.add_comm, N.add_sub. lia.
Qed.

Lemma pretty_nonempty (n : N) : pretty n ≠ "".
Proof.
  unfold pretty, pretty_N. case_decide; [done|]. intros He. pose proof (pretty_go_value n "") as [Hv _].
  rewrite He in Hv. simpl in Hv. injection Hv. lia.
Qed.

Lemma pretty_value (n : N) : digits_value 0 (pretty n) = Some (Z.of_N n) ∧ parse_sign (pretty n) = (false, pretty n).
Proof.
  unfold pretty, pretty_N. case_decide as Hn; [by subst|]. destruct (pretty_go_value n "") as [-> H]. split; [done|].
  specialize (H ltac:(done)). destruct (pretty_N_go n "") as [|a r]; [done|]. simpl in *.
  destruct (Ascii.eqb_spec a "-") as [->|]; [done|]. by destruct (Ascii.eqb_spec a "+") as [->|].
Qed.

Lemma i128_roundtrip z : (i128_min ≤ z ≤ i128_max)%Z → parse_i128 (show_i128 z) = Some z.
Proof.
  intros Hz. unfold show_i128, parse_i128. destruct z as [|p|p].
  - done.
  - change (pretty (Z.pos p)) with (pretty (N.pos p)). destruct (pretty_value (N.pos p)) as [E1 E2].
    rewrite E2, (proj2 (String.eqb_neq _ _) (pretty_nonempty _)), E1. simpl.
    destruct (Z.leb_spec i128_min (Zpos p)); [|lia]. by destruct (Z.leb_spec (Zpos p) i128_max); [|lia].
  - change (pretty (Z.neg p)) with (String "-" (pretty (N.pos p))). destruct (pretty_value (N.pos p)) as [E1 _].
    cbn [parse_sign]. change (Ascii.eqb "-" "-") with true. cbv iota beta.
    rewrite (proj2 (String.eqb_neq _ _) (pretty_nonempty _)), E1. simpl.
    change (Z.neg p) with (- Z.pos p)%Z in *. destruct (Z.leb_spec i128_min (- Z.pos p)); [|lia].
    by destruct (Z.leb_spec (- Z.pos p) i128_max); [|lia].
Qed.

Lemma metric_roundtrip m : metric_parse (metric_as_str m) = Some m.
Proof. by destruct m. Qed.
Lemma op_roundtrip o : op_parse (op_as_str o) = Some o.
Proof. by destruct o. Qed.
Lemma level_roundtrip l : level_from_str (level_as_str l) = Some l.
Proof. by destruct l. Qed.
Lemma threshold_roundtrip t : pthreshold_restore (pthreshold_of t) = Some t.
Proof. unfold pthreshold_restore. simpl. rewrite metric_roundtrip. simpl. rewrite op_roundtrip. by destruct t. Qed.

(** The bytes of a sketch read back as a sketch nothing tells from it. *)
Class SketchBytes (SK : SketchCrate) `{!SketchLaws SK} := {
  dd_bytes_back s : ∃ s', dd_from_bytes (dd_bytes s) = Some s' ∧ dd_equiv s' s;
}.

#[export] Instance sample_sketch_bytes : SketchBytes sample_sketch.
Proof. constructor. intros s. by exists s. Qed.

Section roundtrip.
Context {X : Externals} {SK : SketchCrate} {J : JsonScalars} `{SL : !SketchLaws SK} {SB : SketchBytes SK} {JB : JsonBack}.

(** What every aggregate a collector builds satisfies. *)
Record exact_sane (e : ExactStats) : Prop := {
  xs_counts : es_negative e + es_malformed e ≤ es_count e ≤ u64_max;
  xs_total : (i128_min ≤ es_total_ns e ≤ i128_max)%Z;
  xs_layout : sk_layout (es_sketch e) = CURRENT_LAYOUT;
}.

Lemma layout_roundtrip : to_layout (json_layout (layout_repr CURRENT_LAYOUT)) = Some CURRENT_LAYOUT.
Proof.
  unfold to_layout, json_layout, layout_repr. destruct json_layout_floats as (Ha & Hmin & Hmax).
  cbn [pl_algo pl_unit pl_alpha pl_min_ns pl_max_ns pl_max_num_bins ly_algo ly_unit ly_alpha ly_min_ns ly_max_ns
    ly_max_num_bins CURRENT_LAYOUT]. by rewrite Ha, Hmin, Hmax.
Qed.

Lemma exact_roundtrip e : exact_sane e → ∃ e', pexact_restore (json_exact (pexact_of e)) = Some e' ∧ exact_equiv e' e.
Proof using SB.
  intros [H1 H2 H3]. unfold pexact_restore, pexact_of, json_exact, sketch_from_bytes.
  cbn -[to_layout json_layout layout_repr]. rewrite H3, layout_roundtrip.
  destruct (dd_bytes_back (sk_inner (es_sketch e))) as (s' & E & Heq).
  cbn. rewrite E. cbn.
  destruct (N.ltb_spec (es_count e) (sat_add (es_negative e) (es_malformed e))) as [Hlt|_]; [unfold sat_add in Hlt; lia|].
  rewrite i128_roundtrip by done. cbn. eexists. split; [done|]. by split.
Qed.

(** A definition whose threshold went through a file. *)
Definition json_limit (t : Threshold) : Threshold :=
  mkThreshold (th_metric t) (th_group t) (th_op t) (json_f64 (th_value t)) (th_window_ms t).
Definition json_def (d : CollectorDef) : CollectorDef :=
  mkDef (cd_name d) (cd_filter_string d) (cd_filter d) (cd_level d) (cd_group_keys d) (cd_max_sample_bytes d)
    (cd_description d) (json_limit <$> cd_threshold d).

(** The same run, as far as the file keeps it: the breakdowns per name and per
    group are gone, and floats are what JSON reads back for them. *)
Record same_run (s' s : StoredSnapshot) : Prop := {
  sr_label : sn_label s' = sn_label s;
  sr_description : sn_description s' = sn_description s;
  sr_meta : sn_meta s' = json_value (sn_meta s);
  sr_times : sn_taken_at s' = sn_taken_at s ∧ sn_window_start s' = sn_window_start s;
  sr_wall : sn_wall_ms s' = json_f64 (sn_wall_ms s);
  sr_def : sn_def s' = json_def (sn_def s);
  sr_policy : sn_policy s' = sn_policy s;
  sr_total : exact_equiv (sn_total s') (sn_total s);
  sr_breakdowns : sn_per_name s' = None ∧ sn_per_group s' = None;
  sr_ingest : sn_ingest s' = sn_ingest s;
  sr_projections : sn_projections s' = json_sampled <$> sn_projections s;
  sr_paths : sn_paths s' = json_path <$> sn_paths s ∧ sn_paths_truncated s' = sn_paths_truncated s;
  sr_flags : sn_sample_complete s' = sn_sample_complete s ∧ sn_cardinality_capped s' = sn_cardinality_capped s;
}.

(** The filter is the parse of its text, and the figures are sane. *)
Definition run_sane (name : string) (s : StoredSnapshot) : Prop :=
  cd_name (sn_def s) = name ∧ parse_filter (cd_filter_string (sn_def s)) = inr (cd_filter (sn_def s)) ∧
  exact_sane (sn_total s).

Lemma limit_roundtrip (t : option Threshold) :
  (json_threshold <$> (pthreshold_of <$> t)) ≫= pthreshold_restore = json_limit <$> t.
Proof. destruct t as [t|]; [|done]. exact (threshold_roundtrip (json_limit t)). Qed.

Lemma snapshot_roundtrip name s :
  run_sane name s → ∃ s', psnapshot_restore name (json_snapshot (psnapshot_of s)) = Some s' ∧ same_run s' s.
Proof using SB.
  intros (H1 & H2 & H3). destruct (exact_roundtrip _ H3) as (t & Ht & Heq).
  unfold psnapshot_restore, json_snapshot, psnapshot_of.
  cbn -[pexact_restore pexact_of parse_filter json_exact pthreshold_restore]. rewrite level_roundtrip.
  cbn -[pexact_restore pexact_of parse_filter json_exact pthreshold_restore].
  rewrite H2. cbn -[pexact_restore pexact_of parse_filter json_exact pthreshold_restore]. rewrite Ht, limit_roundtrip.
  cbn. eexists. split; [done|]. split; cbn; try done.
  - unfold json_def. by rewrite H1.
  - by destruct (sn_policy s).
  - by destruct (sn_ingest s) as [[]|].
Qed.

Lemma restore_fold name snaps : ∀ h es,
  Forall (run_sane name) snaps → (length (hi_snapshots h) + length snaps ≤ hi_max h)%nat →
  ∃ news,
    foldl (λ st s, match psnapshot_restore name s with
                   | Some snap => (history_push snap st.1, st.2)
                   | None => (st.1, st.2 ++ [pp_label s])
                   end) (h, es) (json_snapshot <$> (psnapshot_of <$> snaps)) =
      (mkHistory (hi_snapshots h ++ news) (hi_next_auto h) (hi_evicted h) (hi_max h), es) ∧
    Forall2 same_run news snaps.
Proof using SB.
  induction snaps as [|s snaps IH]; intros h es Hs Hl.
  { exists []. rewrite app_nil_r. by destruct h. }
  apply Forall_cons in Hs as [H1 Hs]. destruct (snapshot_roundtrip name s H1) as (s' & E & Hsame).
  cbn [fmap list_fmap foldl]. rewrite E. cbn [fst snd].
  assert (history_push s' h = mkHistory (hi_snapshots h ++ [s']) (hi_next_auto h) (hi_evicted h) (hi_max h)) as ->.
  { unfold history_push. assert (∀ fuel ev, evict_over fuel (hi_snapshots h ++ [s']) ev (hi_max h) = (hi_snapshots h ++ [s'], ev)) as ->; [|done].
    intros [|fuel] ev; [done|]. simpl. rewrite length_app. simpl in *.
    by destruct (Nat.ltb_spec (hi_max h) (length (hi_snapshots h) + 1)); [lia|]. }
  destruct (IH (mkHistory (hi_snapshots h ++ [s']) (hi_next_auto h) (hi_evicted h) (hi_max h)) es Hs) as (news & En & Hn).
  { simpl in *. rewrite length_app. simpl. lia. }
  exists (s' :: news). split; [|by constructor]. cbn [hi_snapshots hi_next_auto hi_evicted hi_max] in En. by rewrite <-app_assoc in En.
Qed.

(** A history read back: the same runs under the same labels, and the counters
    that keep a label from being issued twice. *)
Lemma history_roundtrip name h f :
  pc_name f = name → pc_snapshots f = psnapshot_of <$> hi_snapshots h →
  pc_next_auto_label f = hi_next_auto h → pc_snapshots_evicted f = hi_evicted h →
  Forall (run_sane name) (hi_snapshots h) → (length (hi_snapshots h) ≤ 50)%nat → 1 ≤ hi_next_auto h →
  ∃ h', restore_history (json_collector f) = (h', []) ∧ Forall2 same_run (hi_snapshots h') (hi_snapshots h) ∧
        hi_next_auto h' = hi_next_auto h ∧ hi_evicted h' = hi_evicted h ∧ hi_max h' = 50%nat.
Proof using SB.
  intros E1 E2 E3 E4 Hs Hl Hn. unfold restore_history. cbn [json_collector pc_name pc_snapshots pc_next_auto_label pc_snapshots_evicted].
  rewrite E1, E2.
  destruct (restore_fold name (hi_snapshots h) history_new [] Hs) as (news & -> & Hnews); [done|].
  eexists. split; [done|]. cbn. rewrite E3, E4. split_and!; [done|lia|done|done].
Qed.
End roundtrip.

(** ** A directory with an older naming's copy, a newer one and a broken file *)

Definition sample_file (armed_at : Z) : PersistedCollector :=
  mkPCollector 1 "perf" "a" "default" "ALL" "tree" [] 1024 None None armed_at [] 1 0.
Definition sample_dir : gmap string (Z * CollectorFile) :=
  {["a__perf.json"%string := (5%Z, CFParsed (sample_file 1)); "a.perf.json"%string := (3%Z, CFParsed (sample_file 2));
    "x.json"%string := (1%Z, CFUnparseable)]}.
Definition sample_listing : list string := ["x.json"; "a.perf.json"; "a__perf.json"].

Lemma sample_listed p : p ∈ sample_listing ↔ is_Some (sample_dir !! p).
Proof.
  rewrite <-elem_of_dom. assert (dom sample_dir = list_to_set sample_listing) as ->; [|by rewrite elem_of_list_to_set].
  by apply (bool_decide_unpack _); vm_compute.
Qed.

Lemma load_keeps_files_witness :
  let d' := (load_all (λ _ _, true) sample_listing sample_dir).2 in
  files d' ≡ₚ files sample_dir ∧
  elements (dom d') = ["a.perf.json.superseded"; "a.perf.json"; "x.json.corrupt"]%string.
Proof.
  split; [|vm_compute; reflexivity].
  apply (load_keeps_files (λ _ _, true) sample_listing sample_dir); [by apply (bool_decide_unpack _); vm_compute|].
  by intros p ?%sample_listed.
Defined.
