(* ===== verification/CollReg.v ===== *)
(** * CollReg: the collector registry and its files ([collector/registry.rs])

    Requests run concurrently. Everything done under the registry's lock is one
    step; the file work a request leaves runs afterwards, lock by lock, as a
    thread of jobs. A path's lock is an object that the ledger's map names and
    that a waiting job holds a clone of, as the [Arc] is; the number beside a file
    on disk is the collector it was written from and the stamp of the write, which
    nothing reads. Whether a save or an unlink succeeds is an argument. *)

From S2P Require Import Prelude Text F64 Gelf Filter Matcher Session Measure Threshold Collector History Persist.

Set Default Proof Using "Type".
Local Open Scope N_scope.

Definition DEFAULT_MAX_TOTAL_SAMPLE_BYTES : N := 268435456.

(** What the change policies refuse, by which rule. *)
Inductive Refusal := InvalidFilter | NotZeroed | NoSamples.
Inductive RegistryError :=
| DuplicateName (name : string)
| NotFound (name : string)
| BudgetExceeded (requested remaining total : N)
| LabelError (e : HistoryError)
| PolicyRejected (why : Refusal)
| PersistFailed.

Section registry.
Context {X : Externals} {SK : SketchCrate} {J : JsonScalars}.

(** A metrics handle is the name of a [ReceiverMetrics]; [loss] reads it now. *)
Abbreviation Readings := (N → TraceIngestLoss).

Record CEntry := mkCEntry {
  en_id : N;
  en_owner : SessionId;
  en_domain : DomainId;
  en_collector : Collector;
  en_metrics : N;
  en_baseline : TraceIngestLoss;
  en_history : History;
  en_zeroed_by : option string;
}.
Definition en_def (e : CEntry) : CollectorDef := co_def (en_collector e).
Definition en_name (e : CEntry) : string := cd_name (en_def e).

Definition set_collector (c : Collector) (baseline : TraceIngestLoss) (zeroed_by : option string) (e : CEntry) : CEntry :=
  mkCEntry (en_id e) (en_owner e) (en_domain e) c (en_metrics e) baseline (en_history e) zeroed_by.
Definition set_history (h : History) (e : CEntry) : CEntry :=
  mkCEntry (en_id e) (en_owner e) (en_domain e) (en_collector e) (en_metrics e) (en_baseline e) h (en_zeroed_by e).
Definition set_owner (o : SessionId) (e : CEntry) : CEntry :=
  mkCEntry (en_id e) o (en_domain e) (en_collector e) (en_metrics e) (en_baseline e) (en_history e) (en_zeroed_by e).

Record ArmedCollector := mkArmed {
  ac_owner : SessionId;
  ac_latest_snapshot : option (string * Z);
  ac_zeroed_by : option string;
  ac_snapshot_count : nat;
  ac_collector : Collector;
  ac_domain : DomainId;
  ac_metrics : N;
  ac_ingest_baseline : TraceIngestLoss;
}.
Definition armed (e : CEntry) : ArmedCollector :=
  mkArmed (en_owner e) ((λ s, (sn_label s, sn_taken_at s)) <$> last (hi_snapshots (en_history e))) (en_zeroed_by e)
    (length (hi_snapshots (en_history e))) (en_collector e) (en_domain e) (en_metrics e) (en_baseline e).

Definition persisted_with (def : CollectorDef) (domain : DomainId) (e : CEntry) : PersistedCollector :=
  mkPCollector FORMAT_VERSION (cd_name def) (id_string (en_owner e)) domain (cd_filter_string def)
    (level_as_str (cd_level def)) (cd_group_keys def) (cd_max_sample_bytes def) (cd_description def)
    (pthreshold_of <$> cd_threshold def) (ci_armed_at (co_inner (en_collector e)))
    (psnapshot_of <$> hi_snapshots (en_history e)) (hi_next_auto (en_history e)) (hi_evicted (en_history e)).
Definition to_persisted (e : CEntry) : PersistedCollector := persisted_with (en_def e) (en_domain e) e.

(** ** Edits *)

Record CollectorEdit := mkEdit {
  ed_description : option string;
  ed_filter : option string;
  ed_level : option CollectLevel;
  ed_group_keys : option (list string);
  ed_max_sample_bytes : option N;
  ed_domain : option DomainId;
  ed_threshold : option (option Threshold);
}.

#[export] Instance Metric_eq_dec : EqDecision Metric.
Proof. solve_decision. Defined.
#[export] Instance ThresholdOp_eq_dec : EqDecision ThresholdOp.
Proof. solve_decision. Defined.

(** The derived [PartialEq], a float comparison for the limit. *)
Definition threshold_eqb (a b : option Threshold) : bool :=
  match a, b with
  | None, None => true
  | Some a, Some b =>
      bool_decide (th_metric a = th_metric b) && bool_decide (th_group a = th_group b) && bool_decide (th_op a = th_op b)
      && f64_eqb (th_value a) (th_value b) && (th_window_ms a =? th_window_ms b)
  | _, _ => false
  end.

Definition is_some_and {A} (p : A → bool) (o : option A) : bool := match o with Some a => p a | None => false end.

Definition is_structural (c : CollectorEdit) (cur : CollectorDef) : bool :=
  is_some_and (λ f, negb (String.eqb f (cd_filter_string cur))) (ed_filter c)
  || is_some_and (λ l, negb (bool_decide (l = cd_level cur))) (ed_level c)
  || is_some_and (λ k, negb (bool_decide (k = cd_group_keys cur))) (ed_group_keys c)
  || is_some_and (λ b, negb (b =? cd_max_sample_bytes cur)) (ed_max_sample_bytes c)
  || is_some_and (λ t, negb (threshold_eqb t (cd_threshold cur))) (ed_threshold c).

Definition find_entry (owner : SessionId) (name : string) (es : list CEntry) : option CEntry :=
  List.find (λ e, bool_decide (en_owner e = owner) && String.eqb (en_name e) name) es.
Definition find_id (id : N) (es : list CEntry) : option CEntry := List.find (λ e, en_id e =? id) es.

Definition reserved (es : list CEntry) : N := foldr (λ e n, cd_max_sample_bytes (en_def e) + n) 0 es.

Definition over_budget (budget requested : N) (es : list CEntry) : option RegistryError :=
  let remaining := budget - reserved es in
  if remaining <? requested then Some (BudgetExceeded requested remaining budget) else None.

(** The edited definition. *)
Definition edited_def (c : CollectorEdit) (d : CollectorDef) : option CollectorDef :=
  filter ← (match ed_filter c with
            | None => Some (cd_filter_string d, cd_filter d)
            | Some f => match parse_filter f with inr p => Some (f, p) | inl _ => None end
            end);
  Some (mkDef (cd_name d) filter.1 filter.2 (default (cd_level d) (ed_level c)) (default (cd_group_keys d) (ed_group_keys c))
          (default (cd_max_sample_bytes d) (ed_max_sample_bytes c))
          (match ed_description c with
           | None => cd_description d
           | Some s => if String.eqb s "" then None else Some s
           end)
          (default (cd_threshold d) (ed_threshold c))).

Record EditPlan := mkPlan { pl_id : N; pl_def : CollectorDef; pl_structural : bool; pl_domain : DomainId; pl_file : PersistedCollector }.

(** The first phase: read-only, under the lock. *)
Definition edit_plan (budget : N) (owner : SessionId) (name : string) (c : CollectorEdit) (es : list CEntry)
  : RegistryError + EditPlan :=
  match find_entry owner name es with
  | None => inl (NotFound name)
  | Some e =>
      let structural := is_structural c (en_def e) in
      match edited_def c (en_def e) with
      | None => inl (PolicyRejected InvalidFilter)
      | Some def =>
          let others := List.filter (λ e', negb (en_id e' =? en_id e)) es in
          match (if structural then over_budget budget (cd_max_sample_bytes def) others else None) with
          | Some err => inl err
          | None =>
              if bool_decide (is_Some (ed_domain c)) && negb (is_zeroed (en_collector e)) && negb structural
              then inl (PolicyRejected NotZeroed)
              else
                let domain := default (en_domain e) (ed_domain c) in
                inr (mkPlan (en_id e) def structural domain (persisted_with def domain e))
          end
      end
  end.

(** The second: the entry, once its file is written. *)
Definition edit_entry (loss : Readings) (p : EditPlan) (metrics : option N) (now : Z) (e : CEntry) : CEntry :=
  let m := default (en_metrics e) metrics in
  if pl_structural p then
    mkCEntry (en_id e) (en_owner e) (pl_domain p) (collector_new (pl_def p) now) m (loss m) (en_history e)
      (Some "edit"%string)
  else
    mkCEntry (en_id e) (en_owner e) (pl_domain p) (with_def (pl_def p) (en_collector e)) m (en_baseline e) (en_history e)
      (en_zeroed_by e).

(** ** Snapshots and resets *)

Record SnapshotRequest := mkRequest {
  rq_name : string;
  rq_label : option string;
  rq_description : option string;
  rq_meta : Value;
  rq_policy : SnapshotPolicy;
  rq_reset : bool;
  rq_now : Z;
}.

Definition reset_entry (loss : Readings) (now : Z) (e : CEntry) : CEntry :=
  set_collector (collector_swap now (en_collector e)).2 (loss (en_metrics e)) (Some "reset"%string) e.

(** Step 1 and 2 on the entry found; [None] is the label loop out of fuel. *)
Definition snapshot_take (loss : Readings) (project : CollectorSnapshot → Projected) (rq : SnapshotRequest) (e : CEntry)
  : option ((RegistryError + StoredSnapshot) * CEntry) :=
  if policy_refused (cd_level (en_def e)) (rq_policy rq) then Some (inl (PolicyRejected NoSamples), e)
  else
    '(r, h) ← reserve_label (rq_label rq) (en_history e);
    match r with
    | inl err => Some (inl (LabelError err), e)
    | inr label =>
        let current := loss (en_metrics e) in
        let e := set_history h e in
        let '(view, e') :=
          if rq_reset rq then
            let '(taken, c) := collector_swap (rq_now rq) (en_collector e) in
            (taken, set_collector c current (Some "snapshot"%string) e)
          else (collector_snapshot (en_collector e), e) in
        let projected := if po_projections (rq_policy rq) then project view else projected_default in
        Some (inr (from_view label (rq_description rq) (rq_meta rq) (rq_now rq) (rq_policy rq) view
                     (Some (loss_since (en_baseline e) current)) projected), e')
    end.

(** ** Restoring *)

Definition entry_from_file (loss : Readings) (metrics_for : DomainId → N) (now : Z) (id : N) (f : PersistedCollector)
  : option CEntry :=
  level ← level_from_str (pc_level f);
  filter ← (match parse_filter (pc_filter f) with inr p => Some p | inl _ => None end);
  if contains_bookmark_qualifier filter then None
  else if negb (is_valid_name (pc_domain f)) then None
  else
    let def := mkDef (pc_name f) (pc_filter f) filter level (pc_group_keys f) (pc_max_sample_bytes f) (pc_description f)
                 (pc_threshold f ≫= pthreshold_restore) in
    let m := metrics_for (pc_domain f) in
    Some (mkCEntry id (Named (pc_owner f)) (pc_domain f) (new_restored def (pc_armed_at f) now) m (loss m)
            (restore_history f).1 (Some "daemon_restart"%string)).

(** ** The file ledger *)

Record FileLedger := mkLedger {
  fl_paths : gmap string N;
  fl_last : gmap N N;
  fl_held : gset N;
  fl_seq : N;
  fl_fresh : N;
}.
Definition ledger_new : FileLedger := mkLedger ∅ ∅ ∅ 0 0.
Definition last_write (l : N) (fl : FileLedger) : N := default 0 (fl_last fl !! l).

(** The path's lock, made if there is none. *)
Definition path_lock (path : string) (fl : FileLedger) : N * FileLedger :=
  match fl_paths fl !! path with
  | Some l => (l, fl)
  | None =>
      (fl_fresh fl, mkLedger (<[path := fl_fresh fl]> (fl_paths fl)) (fl_last fl) (fl_held fl) (fl_seq fl) (fl_fresh fl + 1))
  end.
Definition acquire (l : N) (fl : FileLedger) : N * FileLedger :=
  let stamp := u64_add (fl_seq fl) 1 in
  (stamp, mkLedger (fl_paths fl) (fl_last fl) ({[l]} ∪ fl_held fl) stamp (fl_fresh fl)).
Definition release (l : N) (written : option N) (fl : FileLedger) : FileLedger :=
  mkLedger (fl_paths fl) (match written with Some stamp => <[l := stamp]> (fl_last fl) | None => fl_last fl end)
    (fl_held fl ∖ {[l]}) (fl_seq fl) (fl_fresh fl).
(** [clones] are the jobs' clones of the lock, the caller's included. *)
Definition forget_if_unused (path : string) (clones : nat) (fl : FileLedger) : FileLedger :=
  if (clones =? 1)%nat then
    mkLedger (delete path (fl_paths fl)) (fl_last fl) (fl_held fl) (fl_seq fl) (fl_fresh fl)
  else fl.

(** ** File work *)

(** What a write's caller does next. *)
Inductive Cont :=
| KAdd
| KEdit (p : EditPlan) (owner : SessionId) (name : string) (metrics : option N) (now : Z)
| KSnap
| KMoved (old : SessionId) (name : string) (since : N).

Inductive Job :=
| JSnapFile (id : N) (snap : StoredSnapshot)
| JSnapCheck (id : N)
| JEditApply (p : EditPlan) (owner : SessionId) (name : string) (metrics : option N) (now : Z)
| JWrite (k : Cont) (id : N) (file : PersistedCollector)
| JWriteLock (k : Cont) (id : N) (file : PersistedCollector) (lock : N)
| JSave (k : Cont) (id : N) (file : PersistedCollector) (lock stamp : N)
| JMoved (old new : SessionId) (name : string) (since : N)
| JUnlink (owner : SessionId) (name : string) (since : N)
| JUnlinkLock (owner : SessionId) (name : string) (since lock : N).

(** What a caller is told. *)
Inductive Reply :=
| RAdd (r : RegistryError + N)
| REdit (r : RegistryError + bool)
| RSnapshot (r : RegistryError + option bool)
| RReset (r : option RegistryError)
| RRemove (r : option RegistryError)
| RMoved (collectors : nat)
| RDropped (collectors : nat).

Record Sys := mkSys {
  sy_entries : list CEntry;
  sy_budget : N;
  sy_persist : bool;
  sy_next_id : N;
  sy_files : FileLedger;
  sy_threads : list (list Job);
  sy_disk : gmap string (N * N * PersistedCollector);
  sy_replies : list Reply;
}.
Definition sys_new (budget : N) (persist : bool) : Sys := mkSys [] budget persist 1 ledger_new [] ∅ [].

Definition upd_entries (es : list CEntry) (s : Sys) : Sys :=
  mkSys es (sy_budget s) (sy_persist s) (sy_next_id s) (sy_files s) (sy_threads s) (sy_disk s) (sy_replies s).
Definition upd_files (fl : FileLedger) (s : Sys) : Sys :=
  mkSys (sy_entries s) (sy_budget s) (sy_persist s) (sy_next_id s) fl (sy_threads s) (sy_disk s) (sy_replies s).
Definition upd_disk (d : gmap string (N * N * PersistedCollector)) (s : Sys) : Sys :=
  mkSys (sy_entries s) (sy_budget s) (sy_persist s) (sy_next_id s) (sy_files s) (sy_threads s) d (sy_replies s).
Definition upd_threads (ts : list (list Job)) (s : Sys) : Sys :=
  mkSys (sy_entries s) (sy_budget s) (sy_persist s) (sy_next_id s) (sy_files s) ts (sy_disk s) (sy_replies s).
Definition reply (r : Reply) (s : Sys) : Sys :=
  mkSys (sy_entries s) (sy_budget s) (sy_persist s) (sy_next_id s) (sy_files s) (sy_threads s) (sy_disk s)
    (sy_replies s ++ [r]).
Definition new_id (s : Sys) : N * Sys :=
  (sy_next_id s,
   mkSys (sy_entries s) (sy_budget s) (sy_persist s) (u64_add (sy_next_id s) 1) (sy_files s) (sy_threads s) (sy_disk s)
     (sy_replies s)).
Definition spawn (jobs : list Job) (s : Sys) : Sys := upd_threads (sy_threads s ++ [jobs]) s.
Definition upd_entry (id : N) (f : CEntry → CEntry) (s : Sys) : Sys :=
  upd_entries ((λ e, if en_id e =? id then f e else e) <$> sy_entries s) s.

(** ** Requests: what each does under the registry's lock *)

Definition add (loss : Readings) (owner : SessionId) (domain : DomainId) (metrics : N) (def : CollectorDef) (now : Z)
  (s : Sys) : Sys :=
  if bool_decide (is_Some (find_entry owner (cd_name def) (sy_entries s))) then reply (RAdd (inl (DuplicateName (cd_name def)))) s
  else match over_budget (sy_budget s) (cd_max_sample_bytes def) (sy_entries s) with
       | Some err => reply (RAdd (inl err)) s
       | None =>
           let '(id, s) := new_id s in
           let e := mkCEntry id owner domain (collector_new def now) metrics (loss metrics) history_new None in
           spawn [JWrite KAdd id (to_persisted e)] (reply (RAdd (inr id)) (upd_entries (sy_entries s ++ [e]) s))
       end.

Definition edit (owner : SessionId) (name : string) (c : CollectorEdit) (metrics : option N) (now : Z) (s : Sys) : Sys :=
  match edit_plan (sy_budget s) owner name c (sy_entries s) with
  | inl err => reply (REdit (inl err)) s
  | inr p => spawn [JWrite (KEdit p owner name metrics now) (pl_id p) (pl_file p)] s
  end.

Definition reset (loss : Readings) (owner : SessionId) (name : string) (now : Z) (s : Sys) : Sys :=
  match find_entry owner name (sy_entries s) with
  | None => reply (RReset (Some (NotFound name))) s
  | Some e => reply (RReset None) (upd_entry (en_id e) (reset_entry loss now) s)
  end.

Definition snapshot (loss : Readings) (project : CollectorSnapshot → Projected) (owner : SessionId) (rq : SnapshotRequest)
  (s : Sys) : option Sys :=
  match find_entry owner (rq_name rq) (sy_entries s) with
  | None => Some (reply (RSnapshot (inl (NotFound (rq_name rq)))) s)
  | Some e =>
      '(r, e') ← snapshot_take loss project rq e;
      match r with
      | inl err => Some (reply (RSnapshot (inl err)) s)
      | inr snap => Some (spawn [JSnapFile (en_id e) snap] (upd_entry (en_id e) (λ _, e') s))
      end
  end.

Definition owned_by (owner : SessionId) (e : CEntry) : bool := bool_decide (en_owner e = owner).

Definition remove (owner : SessionId) (name : string) (s : Sys) : Sys :=
  let kept := List.filter (λ e, negb (owned_by owner e && String.eqb (en_name e) name)) (sy_entries s) in
  if (length kept =? length (sy_entries s))%nat then reply (RRemove (Some (NotFound name))) s
  else spawn [JUnlink owner name (fl_seq (sy_files s))] (reply (RRemove None) (upd_entries kept s)).

(** [PendingFiles]: the moves and the unlinks left for after the lock. *)
Record PendingFiles := mkPending { pf_moved : list Job; pf_unlink : list Job }.
Definition absorb (p other : PendingFiles) : PendingFiles :=
  mkPending (pf_moved p ++ pf_moved other) (pf_unlink p ++ pf_unlink other).

Definition detach_session (owner : SessionId) (s : Sys) : PendingFiles * Sys :=
  let doomed := List.filter (owned_by owner) (sy_entries s) in
  (mkPending [] ((λ e, JUnlink owner (en_name e) (fl_seq (sy_files s))) <$> doomed),
   upd_entries (List.filter (λ e, negb (owned_by owner e)) (sy_entries s)) s).

Definition move_owner (old new : SessionId) (s : Sys) : PendingFiles * Sys :=
  if bool_decide (old = new) then (mkPending [] [], s)
  else
    (mkPending ((λ e, JMoved old new (en_name e) (fl_seq (sy_files s))) <$> List.filter (owned_by old) (sy_entries s)) [],
     upd_entries ((λ e, if owned_by old e then set_owner new e else e) <$> sy_entries s) s).

(** [finish] runs the moves, then the unlinks. *)
Definition finish (p : PendingFiles) (s : Sys) : Sys := spawn (pf_moved p ++ pf_unlink p) s.

(** The rename of a session, as [sessions.rename] makes it under the session
    registry's lock: a displaced holder's collectors go, the renamer's move. *)
Definition rename_session (old new : SessionId) (displaced : bool) (s : Sys) : Sys :=
  let '(p1, s) := if displaced then detach_session new s else (mkPending [] [], s) in
  let '(p2, s) := move_owner old new s in
  finish (absorb p1 p2) (reply (RMoved (length (pf_moved p2))) s).

Definition drop_session (owner : SessionId) (s : Sys) : Sys :=
  let '(p, s) := detach_session owner s in finish p (reply (RDropped (length (pf_unlink p))) s).

Definition ingest_span (domain : DomainId) (sp : SpanEntry) (s : Sys) : Sys :=
  upd_entries
    ((λ e, if bool_decide (en_domain e = domain) && matches_span (cd_filter (en_def e)) sp then
             mkCEntry (en_id e) (en_owner e) (en_domain e) (ingest sp (en_collector e)) (en_metrics e) (en_baseline e)
               (en_history e) (en_zeroed_by e)
           else e) <$> sy_entries s) s.

(** ** One turn of a job *)

Definition job_lock (j : Job) : option N :=
  match j with
  | JWriteLock _ _ _ l | JSave _ _ _ l _ | JUnlinkLock _ _ _ l => Some l
  | _ => None
  end.
Definition clones (l : N) (ts : list (list Job)) : nat :=
  length (List.filter (λ j, bool_decide (job_lock j = Some l)) (concat ts)).

Definition file_path (f : PersistedCollector) : string := collector_path (pc_owner f) (pc_name f).
Definition owner_path (owner : SessionId) (name : string) : string := collector_path (id_string owner) name.

Inductive WriteResult := Written | Gone | Failed.

(** The jobs a write's caller goes on with, and its reply. *)
Definition continue (k : Cont) (id : N) (r : WriteResult) (s : Sys) : list Job * Sys :=
  match k, r with
  | KAdd, _ => ([], s)
  | KEdit p owner name metrics now, Written => ([JEditApply p owner name metrics now], s)
  | KEdit _ _ name _ _, Gone => ([], reply (REdit (inl (NotFound name))) s)
  | KEdit _ _ _ _ _, Failed => ([], reply (REdit (inl PersistFailed)) s)
  | KSnap, Written => ([], reply (RSnapshot (inr None)) s)
  | KSnap, Failed => ([], reply (RSnapshot (inr (Some true))) s)
  | KSnap, Gone => ([JSnapCheck id], s)
  | KMoved old name since, (Written | Gone) => ([JUnlink old name since], s)
  | KMoved _ _ _, Failed => ([], s)
  end.

(** The head job of a thread; [None] is a lock that another job holds. The
    jobs returned go in front of the thread's rest. A snapshot's reply says
    whether the run is kept ([Some true]: kept in memory, not written). *)
Definition job_step (loss : Readings) (ok : bool) (j : Job) (s : Sys) : option (list Job * Sys) :=
  let fl := sy_files s in
  match j with
  | JSnapFile id snap =>
      match find_id id (sy_entries s) with
      | None => Some ([], reply (RSnapshot (inr (Some false))) s)
      | Some e =>
          let e' := set_history (history_push snap (en_history e)) e in
          Some ([JWrite KSnap id (to_persisted e')], upd_entry id (λ _, e') s)
      end
  | JSnapCheck id =>
      Some ([], reply (RSnapshot (inr (if bool_decide (is_Some (find_id id (sy_entries s))) then None else Some false))) s)
  | JEditApply p owner name metrics now =>
      match find_id (pl_id p) (sy_entries s) with
      | Some e =>
          if owned_by owner e then
            Some ([], reply (REdit (inr (pl_structural p))) (upd_entry (pl_id p) (edit_entry loss p metrics now) s))
          else Some ([], reply (REdit (inl (NotFound name))) s)
      | None => Some ([], reply (REdit (inl (NotFound name))) s)
      end
  | JWrite k id f =>
      if sy_persist s then let '(l, fl) := path_lock (file_path f) fl in Some ([JWriteLock k id f l], upd_files fl s)
      else Some (continue k id Written s)
  | JWriteLock k id f l =>
      if bool_decide (l ∈ fl_held fl) then None
      else if existsb (λ e, (en_id e =? id) && owned_by (Named (pc_owner f)) e) (sy_entries s) then
        let '(stamp, fl) := acquire l fl in Some ([JSave k id f l stamp], upd_files fl s)
      else
        let fl := if last_write l fl =? 0 then forget_if_unused (file_path f) (clones l (sy_threads s)) fl else fl in
        Some (continue k id Gone (upd_files fl s))
  | JSave k id f l stamp =>
      if ok then
        Some (continue k id Written
                (upd_files (release l (Some stamp) fl) (upd_disk (<[file_path f := (id, stamp, f)]> (sy_disk s)) s)))
      else Some (continue k id Failed (upd_files (release l None fl) s))
  | JMoved old new name since =>
      match find_entry new name (sy_entries s) with
      | Some e => Some ([JWrite (KMoved old name since) (en_id e) (to_persisted e)], s)
      | None => Some ([JUnlink old name since], s)
      end
  | JUnlink owner name since =>
      if sy_persist s then
        let '(l, fl) := path_lock (owner_path owner name) fl in Some ([JUnlinkLock owner name since l], upd_files fl s)
      else Some ([], s)
  | JUnlinkLock owner name since l =>
      if bool_decide (l ∈ fl_held fl) then None
      else if since <? last_write l fl then Some ([], s)
      else if bool_decide (is_Some (sy_disk s !! owner_path owner name)) && negb ok then Some ([], s)
      else
        Some ([], upd_files (forget_if_unused (owner_path owner name) (clones l (sy_threads s)) fl)
                    (upd_disk (delete (owner_path owner name) (sy_disk s)) s))
  end.

(** ** The whole *)

Inductive Call :=
| CAdd (owner : SessionId) (domain : DomainId) (metrics : N) (def : CollectorDef) (now : Z)
| CEdit (owner : SessionId) (name : string) (c : CollectorEdit) (metrics : option N) (now : Z)
| CReset (owner : SessionId) (name : string) (now : Z)
| CSnapshot (owner : SessionId) (rq : SnapshotRequest) (project : CollectorSnapshot → Projected)
| CRemove (owner : SessionId) (name : string)
| CRename (old new : SessionId) (displaced : bool)
| CDrop (owner : SessionId)
| CIngest (domain : DomainId) (sp : SpanEntry).

Definition do_call (loss : Readings) (c : Call) (s : Sys) : option Sys :=
  match c with
  | CAdd owner domain metrics def now => Some (add loss owner domain metrics def now s)
  | CEdit owner name c metrics now => Some (edit owner name c metrics now s)
  | CReset owner name now => Some (reset loss owner name now s)
  | CSnapshot owner rq project => snapshot loss project owner rq s
  | CRemove owner name => Some (remove owner name s)
  | CRename old new displaced => Some (rename_session old new displaced s)
  | CDrop owner => Some (drop_session owner s)
  | CIngest domain sp => Some (ingest_span domain sp s)
  end.

(** Thread [i] takes a turn. *)
Definition turn (loss : Readings) (ok : bool) (i : nat) (s : Sys) : option Sys :=
  match sy_threads s !! i with
  | Some (j :: rest) =>
      '(jobs, s') ← job_step loss ok j s;
      Some (upd_threads (<[i := jobs ++ rest]> (sy_threads s')) s')
  | _ => None
  end.

Inductive Action := ACall (c : Call) (loss : Readings) | ATurn (i : nat) (ok : bool) (loss : Readings).
Definition act (a : Action) (s : Sys) : option Sys :=
  match a with
  | ACall c loss => do_call loss c s
  | ATurn i ok loss => turn loss ok i s
  end.
Fixpoint act_all (acts : list Action) (s : Sys) : option Sys :=
  match acts with
  | [] => Some s
  | a :: acts => act a s ≫= act_all acts
  end.

(** ** The boot pass *)

(** The reasons are texts, not modelled. *)
Record RestoreReport := mkReport {
  rr_restored : list string;
  rr_quarantined : list (string * ReadError);
  rr_superseded : list (string * string);
  rr_rejected : list string;
}.
Definition restore_step (loss : Readings) (metrics_for : DomainId → N) (now : Z) (st : RestoreReport * Sys)
    (f : PersistedCollector) : RestoreReport * Sys :=
  let '(r, s) := st in
  let '(id, s) := new_id s in
  match entry_from_file loss metrics_for now id f with
  | Some e =>
      (mkReport (rr_restored r ++ [en_name e]) (rr_quarantined r) (rr_superseded r) (rr_rejected r),
       upd_entries (sy_entries s ++ [e]) s)
  | None => (mkReport (rr_restored r) (rr_quarantined r) (rr_superseded r) (rr_rejected r ++ [pc_name f]), s)
  end.
(** [outcome] is [load_all]'s. *)
Definition restore (loss : Readings) (metrics_for : DomainId → N) (now : Z) (outcome : LoadOutcome) (s : Sys)
  : RestoreReport * Sys :=
  if sy_persist s then
    foldl (restore_step loss metrics_for now)
      (mkReport [] (lo_quarantined outcome) (lo_superseded outcome) [], s) (lo_collectors outcome)
  else (mkReport [] [] [] [], s).

(** ** Reading *)

Definition get (owner : SessionId) (name : string) (s : Sys) : option ArmedCollector :=
  armed <$> find_entry owner name (sy_entries s).
Definition list_owned (owner : SessionId) (s : Sys) : list ArmedCollector :=
  armed <$> List.filter (owned_by owner) (sy_entries s).
Definition list_for_domain (domain : DomainId) (s : Sys) : list ArmedCollector :=
  armed <$> List.filter (λ e, bool_decide (en_domain e = domain)) (sy_entries s).
Definition history (owner : SessionId) (name : string) (s : Sys) : RegistryError + list StoredSnapshot * N :=
  match find_entry owner name (sy_entries s) with
  | None => inl (NotFound name)
  | Some e => inr (hi_snapshots (en_history e), hi_evicted (en_history e))
  end.
Definition get_snapshot (owner : SessionId) (name label : string) (s : Sys) : RegistryError + StoredSnapshot :=
  match find_entry owner name (sy_entries s) with
  | None => inl (NotFound name)
  | Some e => match history_get label (en_history e) with inl err => inl (LabelError err) | inr snap => inr snap end
  end.
Definition owners (s : Sys) : list SessionId :=
  foldl (λ seen e, if bool_decide (en_owner e ∈ seen) then seen else seen ++ [en_owner e]) [] (sy_entries s).
Definition reserved_bytes (s : Sys) : N := reserved (sy_entries s).
End registry.
