(* ===== verification/CollRegSpec.v ===== *)
(** * CollRegSpec: a collector's file is there while the collector is, and gone once it is gone

    Any requests run at once, their file work interleaved job by job. [inv]
    holds whatever the disk refuses; [synced] says, of a disk that has refused
    nothing, what the files have to do with the live collectors. *)

From S2P Require Import Prelude Text F64 Gelf Filter Matcher Session Measure Threshold Collector History Persist PersistSpec CollReg.

Set Default Proof Using "Type".
Local Open Scope N_scope.

Section registry_spec.
Context {X : Externals} {SK : SketchCrate} {J : JsonScalars}.

(** ** Who is live *)

(** A collector's identity, owner and name. *)
Abbreviation Ent := (N * SessionId * string)%type.
Definition ent (e : CEntry) : Ent := (en_id e, en_owner e, en_name e).
Definition fits (owner name : string) : Prop := (full_len owner name ≤ MAX_FULL_NAME)%nat.

Record ents_ok (E : list Ent) (next : N) : Prop := {
  eo_id id o n : (id, o, n) ∈ E → id < next;
  eo_named id o n : (id, o, n) ∈ E → ∃ x, o = Named x;
  eo_fits id o n : (id, o, n) ∈ E → fits (id_string o) n;
  eo_ids id o1 n1 o2 n2 : (id, o1, n1) ∈ E → (id, o2, n2) ∈ E → o1 = o2 ∧ n1 = n2;
  eo_names id1 id2 o n : (id1, o, n) ∈ E → (id2, o, n) ∈ E → id1 = id2;
}.

Definition live (E : list Ent) (id : N) (p : string) : Prop := ∃ o n, (id, o, n) ∈ E ∧ owner_path o n = p.

Lemma owner_path_inj E next id1 o1 n1 id2 o2 n2 :
  ents_ok E next → (id1, o1, n1) ∈ E → (id2, o2, n2) ∈ E → owner_path o1 n1 = owner_path o2 n2 →
  o1 = o2 ∧ n1 = n2 ∧ id1 = id2.
Proof.
  intros H H1 H2 Hp. destruct (eo_named _ _ H _ _ _ H1) as [x1 ->], (eo_named _ _ H _ _ _ H2) as [x2 ->].
  unfold owner_path in Hp. simpl in Hp.
  destruct (path_inj x1 n1 x2 n2 (eo_fits _ _ H _ _ _ H1) ltac:(by rewrite Hp)) as [-> ->].
  split_and!; [done|done|]. by apply (eo_names _ _ H _ _ (Named x2) n2).
Qed.

(** ** What a job is about *)

(** The lock it holds a clone of, and the path. *)
Definition jlock (j : Job) : option (string * N) :=
  match j with
  | JWriteLock _ _ f l | JSave _ _ f l _ => Some (file_path f, l)
  | JUnlinkLock owner name _ l => Some (owner_path owner name, l)
  | _ => None
  end.
(** The delete it is or will lead to: the path, and the stamp it was decided at. *)
Definition kpend (k : Cont) : option (string * N) :=
  match k with KMoved old name since => Some (owner_path old name, since) | _ => None end.
Definition jpend (j : Job) : option (string * N) :=
  match j with
  | JWrite k _ _ | JWriteLock k _ _ _ | JSave k _ _ _ _ => kpend k
  | JMoved old _ name since | JUnlink old name since | JUnlinkLock old name since _ => Some (owner_path old name, since)
  | _ => None
  end.
Definition jsave (j : Job) : option (N * N) := match j with JSave _ _ _ l stamp => Some (l, stamp) | _ => None end.
Definition holds_lock (l : N) (j : Job) : bool := match jsave j with Some (l', _) => l' =? l | None => false end.

(** The write it is about. *)
Definition jwrite (j : Job) : option (N * PersistedCollector) :=
  match j with JWrite _ id f | JWriteLock _ id f _ | JSave _ id f _ _ => Some (id, f) | _ => None end.
Definition write_ok (E : list Ent) (next id : N) (f : PersistedCollector) : Prop :=
  id < next ∧ ∀ o n, (id, o, n) ∈ E → n = pc_name f.

(** A job that will write the file of a live collector. *)
Definition writer (id : N) (o : SessionId) (n : string) (j : Job) : Prop :=
  match j with
  | JWrite _ id' f | JWriteLock _ id' f _ => id' = id ∧ pc_owner f = id_string o ∧ pc_name f = n
  | JSave _ id' f _ _ => id' = id ∧ file_path f = owner_path o n
  | JMoved _ o' n' _ => o' = o ∧ n' = n
  | _ => False
  end.

Definition pend (js : list Job) (p : string) (since : N) : Prop := ∃ j, j ∈ js ∧ jpend j = Some (p, since).
Definition saves (l : N) (js : list Job) : nat := length (List.filter (holds_lock l) js).

#[local] Arguments saves : simpl never.
#[local] Arguments pend : simpl never.

Abbreviation Disk := (gmap string (N * N * PersistedCollector)).

(** [m] bounds the ids and the stamps. *)
Record inv (m : N) (E : list Ent) (next : N) (fl : FileLedger) (js : list Job) (disk : Disk) : Prop := {
  iv_ents : ents_ok E next;
  iv_bound : fl_seq fl ≤ m ∧ next ≤ m + 1;
  iv_lock j p l : j ∈ js → jlock j = Some (p, l) → fl_paths fl !! p = Some l;
  iv_inj p1 p2 l : fl_paths fl !! p1 = Some l → fl_paths fl !! p2 = Some l → p1 = p2;
  iv_fresh p l : fl_paths fl !! p = Some l → l < fl_fresh fl;
  iv_last l : last_write l fl ≤ fl_seq fl ∧ (fl_fresh fl ≤ l → last_write l fl = 0);
  iv_held l : saves l js = if bool_decide (l ∈ fl_held fl) then 1%nat else 0%nat;
  iv_save j l st : j ∈ js → jsave j = Some (l, st) → last_write l fl < st ≤ fl_seq fl;
  iv_disk p id st f : disk !! p = Some (id, st, f) →
    0 < st ∧ ∃ l, fl_paths fl !! p = Some l ∧ last_write l fl = st;
  iv_pend p since : pend js p since → since ≤ fl_seq fl;
  iv_write j id f : j ∈ js → jwrite j = Some (id, f) → write_ok E next id f;
}.

(** Nothing on disk but the files of live collectors and files about to go, and
    every live collector's file on disk or about to be written. *)
Record synced (E : list Ent) (fl : FileLedger) (js : list Job) (disk : Disk) : Prop := {
  sy_dead p id st f : disk !! p = Some (id, st, f) → live E id p ∨ ∃ since, st ≤ since ∧ pend js p since;
  sy_save k id f l st : JSave k id f l st ∈ js → live E id (file_path f) ∨ ∃ since, st ≤ since ∧ pend js (file_path f) since;
  sy_kept id o n : (id, o, n) ∈ E →
    (∃ j, j ∈ js ∧ writer id o n j ∧
       ∀ l st, jsave j = Some (l, st) → ∀ since, pend js (owner_path o n) since → since < st) ∨
    (∃ st f, disk !! owner_path o n = Some (id, st, f) ∧ ∀ since, pend js (owner_path o n) since → since < st);
}.

Lemma pend_app js1 js2 p since : pend (js1 ++ js2) p since ↔ pend js1 p since ∨ pend js2 p since.
Proof. unfold pend. setoid_rewrite elem_of_app. naive_solver. Qed.
Lemma pend_cons j js p since : pend (j :: js) p since ↔ jpend j = Some (p, since) ∨ pend js p since.
Proof. unfold pend. setoid_rewrite elem_of_cons. naive_solver. Qed.
Lemma pend_nil p since : ¬ pend [] p since.
Proof. intros (j & H & _). by apply elem_of_nil in H. Qed.

Lemma saves_app l js1 js2 : saves l (js1 ++ js2) = (saves l js1 + saves l js2)%nat.
Proof. unfold saves. by rewrite List.filter_app, length_app. Qed.
Lemma saves_cons l j js : saves l (j :: js) = ((if holds_lock l j then 1 else 0) + saves l js)%nat.
Proof. unfold saves. simpl. by destruct (holds_lock l j). Qed.
Lemma saves_perm l js1 js2 : js1 ≡ₚ js2 → saves l js1 = saves l js2.
Proof. intros H. unfold saves. induction H; simpl; repeat case_match; simpl; lia. Qed.

#[global] Instance pend_proper : Proper ((≡ₚ) ==> eq ==> eq ==> iff) pend.
Proof. intros js1 js2 H p ? <- s ? <-. unfold pend. by setoid_rewrite H. Qed.

Lemma inv_perm m E next fl js1 js2 disk : js1 ≡ₚ js2 → inv m E next fl js1 disk → inv m E next fl js2 disk.
Proof.
  intros Hp [H1 H2 H3 H4 H5 H6 H7 H8 H9 H10 H11]. split; try done.
  - intros j p l Hj. apply H3. by rewrite Hp.
  - intros l. by rewrite <-(saves_perm l _ _ Hp).
  - intros j l st Hj. apply H8. by rewrite Hp.
  - intros p since. rewrite <-Hp. apply H10.
  - intros j id f Hj. apply H11. by rewrite Hp.
Qed.
Lemma synced_perm E fl js1 js2 disk : js1 ≡ₚ js2 → synced E fl js1 disk → synced E fl js2 disk.
Proof.
  intros Hp [H1 H2 H3]. split.
  - intros p id st f Hd. setoid_rewrite <-Hp. by eapply H1.
  - intros k id f l st Hj. setoid_rewrite <-Hp. eapply H2. by rewrite Hp.
  - intros id o n He. setoid_rewrite <-Hp. by apply H3.
Qed.

Lemma jlock_jsave j l st : jsave j = Some (l, st) → ∃ p, jlock j = Some (p, l).
Proof. destruct j; try done. intros [= -> ->]. by eexists. Qed.
Lemma unlocked_holds l j : jlock j = None → holds_lock l j = false.
Proof. by destruct j. Qed.
Lemma unlocked_saves l js : (∀ j, j ∈ js → jlock j = None) → saves l js = 0%nat.
Proof.
  induction js as [|j js IH]; intros H; [done|]. rewrite saves_cons, unlocked_holds by (apply H; by left). apply IH.
  intros j' Hj'. apply H. by right.
Qed.

(** ** A job that gives way to jobs that hold no lock *)

Lemma swap_inv m E next fl j js R disk :
  inv m E next fl (j :: R) disk → jlock j = None → (∀ j', j' ∈ js → jlock j' = None) →
  (∀ p since, pend js p since → jpend j = Some (p, since)) →
  (∀ j' id f, j' ∈ js → jwrite j' = Some (id, f) → write_ok E next id f) → inv m E next fl (js ++ R) disk.
Proof.
  intros [H1 H2 H3 H4 H5 H6 H7 H8 H9 H10 H11] Hj Hjs Hp Hwr. split; try done.
  - intros j' p l [Hj'|Hj']%elem_of_app Hl; [by rewrite Hjs in Hl|]. apply (H3 j'); [by right|done].
  - intros l. rewrite saves_app, unlocked_saves by done. specialize (H7 l). by rewrite saves_cons, unlocked_holds in H7.
  - intros j' l st [Hj'|Hj']%elem_of_app Hs; [|apply (H8 j'); [by right|done]].
    apply jlock_jsave in Hs as [p Hs]. by rewrite Hjs in Hs.
  - intros p since [Hps|Hps]%pend_app; apply (H10 p); apply pend_cons; [left; by apply Hp|by right].
  - intros j' id f [Hin|Hin]%elem_of_app Hw; [by eapply Hwr|]. apply (H11 j'); [by right|done].
Qed.

Lemma swap_synced E fl fl' j js R disk :
  synced E fl (j :: R) disk → jsave j = None → (∀ j', j' ∈ js → jsave j' = None) →
  (∀ p since, jpend j = Some (p, since) ↔ pend js p since) →
  (∀ id o n, (id, o, n) ∈ E → writer id o n j → ∃ j', j' ∈ js ∧ writer id o n j') →
  synced E fl' (js ++ R) disk.
Proof.
  intros [H1 H2 H3] Hj Hjs Hp Hw.
  assert (∀ p since, pend (js ++ R) p since ↔ pend (j :: R) p since) as Heq
    by (intros p since; rewrite pend_app, pend_cons; by rewrite Hp).
  split.
  - intros p id st f Hd. setoid_rewrite Heq. by eapply H1.
  - intros k id f l st [Hin|Hin]%elem_of_app; [by apply Hjs in Hin|]. setoid_rewrite Heq. apply (H2 k id f l st). by right.
  - intros id o n He. setoid_rewrite Heq. destruct (H3 id o n He) as [(j' & Hin & Hwr & Hst)|]; [left|by right].
    apply elem_of_cons in Hin as [->|Hin].
    + destruct (Hw id o n He Hwr) as (j'' & Hin & Hwr''). exists j''. split_and!; [apply elem_of_app; by left|done|].
      intros l st Hs. by rewrite Hjs in Hs.
    + exists j'. split_and!; [apply elem_of_app; by right|done|done].
Qed.

(** ** A job that takes a clone of its path's lock *)

Lemma path_lock_spec m E next fl js disk path l fl' :
  inv m E next fl js disk → path_lock path fl = (l, fl') →
  inv m E next fl' js disk ∧ fl_paths fl' !! path = Some l ∧ (fl_paths fl !! path = None → disk !! path = None).
Proof.
  intros H Hp. pose proof H as [H1 H2 H3 H4 H5 H6 H7 H8 H9 H10 H11]. unfold path_lock in Hp.
  destruct (fl_paths fl !! path) as [l0|] eqn:E0; injection Hp as <- <-.
  { split_and!; [done|done|done]. }
  assert (disk !! path = None) as Hd.
  { destruct (disk !! path) as [[[id st] f]|] eqn:Ed; [|done]. destruct (H9 _ _ _ _ Ed) as (_ & l & Hl & _). congruence. }
  split_and!; [|by cbn; rewrite lookup_insert_eq|done]. split; cbn; try done.
  - intros j p l Hj Hl. rewrite lookup_insert_ne; [by apply (H3 j)|]. intros <-. apply (H3 j) in Hl; [congruence|done].
  - intros p1 p2 l Hl1 Hl2. apply lookup_insert_Some in Hl1 as [[<- <-]|[? Hl1]], Hl2 as [[<- E']|[? Hl2]]; try done.
    + apply H5 in Hl2. lia.
    + apply H5 in Hl1. lia.
    + by eapply H4.
  - intros p l Hl. apply lookup_insert_Some in Hl as [[<- <-]|[? Hl]]; [lia|]. apply H5 in Hl. lia.
  - intros l. destruct (H6 l) as [Ha Hb]. split; [done|]. intros Hl. apply Hb. lia.
  - intros p id st f Hdp. destruct (H9 _ _ _ _ Hdp) as (Hst & l & Hl & Hlast). split; [done|]. exists l.
    split; [|done]. rewrite lookup_insert_ne; [done|]. congruence.
Qed.

(** The job is the same but for the clone. *)
Lemma clone_inv m E next fl j j' R disk p l :
  inv m E next fl (j :: R) disk → jlock j = None → jlock j' = Some (p, l) → jsave j' = None → jpend j' = jpend j → jwrite j' = jwrite j →
  fl_paths fl !! p = Some l → inv m E next fl (j' :: R) disk.
Proof.
  intros [H1 H2 H3 H4 H5 H6 H7 H8 H9 H10 H11] Hj Hj' Hs Hpe Hwr Hl. split; try done.
  - intros j0 p0 l0 [->|Hin]%elem_of_cons Hj0; [congruence|]. apply (H3 j0); [by right|done].
  - intros l0. specialize (H7 l0). rewrite saves_cons in H7 |- *. rewrite unlocked_holds in H7 by done.
    unfold holds_lock. by rewrite Hs.
  - intros j0 l0 st [->|Hin]%elem_of_cons Hj0; [congruence|]. apply (H8 j0); [by right|done].
  - intros p0 since. rewrite pend_cons, Hpe, <-pend_cons. apply H10.
  - intros j0 id f [->|Hin]%elem_of_cons Hw; [|apply (H11 j0); [by right|done]]. rewrite Hwr in Hw. apply (H11 j); [by left|done].
Qed.

(** ** A write's turn under its path's lock *)

Lemma unsaved_holds l j : jsave j = None → holds_lock l j = false.
Proof. unfold holds_lock. by intros ->. Qed.
Lemma saves_none l js j st : saves l js = 0%nat → j ∈ js → jsave j = Some (l, st) → False.
Proof.
  intros Hs Hin Hj. apply elem_of_Permutation in Hin as [js' Hp]. rewrite (saves_perm l _ _ Hp), saves_cons in Hs.
  unfold holds_lock in Hs at 1. by rewrite Hj, N.eqb_refl in Hs.
Qed.

Lemma acquire_spec m E next fl k id f l R disk :
  inv m E next fl (JWriteLock k id f l :: R) disk → l ∉ fl_held fl → m + 1 ≤ u64_max →
  inv (m + 1) E next (acquire l fl).2 (JSave k id f l (fl_seq fl + 1) :: R) disk ∧ (acquire l fl).1 = fl_seq fl + 1.
Proof.
  intros [H1 H2 H3 H4 H5 H6 H7 H8 H9 H10 H11] Hl Hm.
  unfold acquire. rewrite u64_add_small by lia. split; [|done]. split; cbn; try done; try lia.
  - intros j p l0 [->|Hin]%elem_of_cons Hj; [|apply (H3 j); [by right|done]].
    apply (H3 (JWriteLock k id f l)); [by left|done].
  - intros l0. destruct (H6 l0) as [Ha Hb]. split; [|done]. unfold last_write in *. cbn. lia.
  - intros l0. specialize (H7 l0). rewrite saves_cons in H7 |- *. rewrite unsaved_holds in H7 by done.
    unfold holds_lock at 1. simpl. destruct (N.eqb_spec l l0) as [<-|Hne].
    + rewrite bool_decide_eq_false_2 in H7 by done. rewrite bool_decide_eq_true_2 by set_solver. lia.
    + rewrite (bool_decide_ext (l0 ∈ {[l]} ∪ fl_held fl) (l0 ∈ fl_held fl)) by set_solver. lia.
  - intros j l0 st [->|Hin]%elem_of_cons Hj.
    + simpl in Hj. injection Hj as <- <-. destruct (H6 l) as [Ha _]. unfold last_write in *. cbn. lia.
    + assert (last_write l0 fl < st ≤ fl_seq fl) as Hb by (apply (H8 j); [by right|done]). unfold last_write in *. cbn. lia.
  - intros p since Hp. assert (pend (JWriteLock k id f l :: R) p since) as Hp'%H10 by (by rewrite pend_cons in Hp |- *). lia.
  - intros j id0 f0 [->|Hin]%elem_of_cons Hw; [|apply (H11 j); [by right|done]]. apply (H11 (JWriteLock k id f l)); [by left|done].
Qed.

(** A writer that becomes another keeps the rest as they were. *)
Lemma writer_swap E fl fl' j j' R disk :
  synced E fl (j :: R) disk → jsave j = None → jpend j' = jpend j →
  (∀ k id f l st, j' = JSave k id f l st → live E id (file_path f)) →
  (∀ id o n, (id, o, n) ∈ E → writer id o n j → writer id o n j' ∧
     ∀ l st, jsave j' = Some (l, st) → ∀ p since, pend (j :: R) p since → since < st) →
  synced E fl' (j' :: R) disk.
Proof.
  intros [H1 H2 H3] Hj Hp Hl Hw.
  assert (∀ p since, pend (j' :: R) p since ↔ pend (j :: R) p since) as Heq by (intros; by rewrite !pend_cons, Hp).
  split.
  - intros p id st f Hd. setoid_rewrite Heq. by eapply H1.
  - intros k id f l st [Hj'|Hin]%elem_of_cons; [left; by eapply Hl|]. setoid_rewrite Heq. apply (H2 k id f l st). by right.
  - intros id o n He. setoid_rewrite Heq. destruct (H3 id o n He) as [(j0 & Hin & Hwr & Hst)|]; [left|by right].
    apply elem_of_cons in Hin as [->|Hin].
    + destruct (Hw id o n He Hwr) as [Hwr' Hst']. exists j'. split_and!; [by left|done|]. intros l st Hs since. by apply (Hst' l).
    + exists j0. split_and!; [by right|done|done].
Qed.

Lemma acquire_synced m E next fl k id f l R disk n :
  inv m E next fl (JWriteLock k id f l :: R) disk → synced E fl (JWriteLock k id f l :: R) disk →
  (id, Named (pc_owner f), n) ∈ E → m + 1 ≤ u64_max →
  synced E (acquire l fl).2 (JSave k id f l (fl_seq fl + 1) :: R) disk.
Proof.
  intros H Hs He Hm. eapply writer_swap; [exact Hs|done|done| |].
  - intros ? ? ? ? ? [= <- <- <- <- <-]. exists (Named (pc_owner f)), n. split; [done|].
    unfold owner_path, file_path. simpl. f_equal. eapply (iv_write _ _ _ _ _ _ H (JWriteLock k id f l)); [by left|done|done].
  - intros id0 o n0 He0 (<- & Ho & Hn). split.
    + simpl. split; [done|]. unfold file_path, owner_path. by rewrite Ho, Hn.
    + intros l0 st [= <- <-] p since Hp%(iv_pend _ _ _ _ _ _ H). lia.
Qed.

(** ** Letting go of a lock *)

(** A job with no lock, gone. *)
Lemma drop_inv m E next fl j R disk :
  inv m E next fl (j :: R) disk → jsave j = None → inv m E next fl R disk.
Proof.
  intros [H1 H2 H3 H4 H5 H6 H7 H8 H9 H10 H11] Hs. split; try done.
  - intros j' p l Hin. apply H3. by right.
  - intros l. specialize (H7 l). by rewrite saves_cons, unsaved_holds in H7.
  - intros j' l st Hin. apply H8. by right.
  - intros p since Hp. apply (H10 p). apply pend_cons. by right.
  - intros j' id f Hin. apply H11. by right.
Qed.

(** A lock's name goes with the last job that holds it. *)
Lemma forget_spec m E next fl j R disk p l :
  inv m E next fl (j :: R) disk → jlock j = Some (p, l) → jsave j = None → disk !! p = None →
  inv m E next (forget_if_unused p (length (List.filter (λ j', bool_decide (job_lock j' = Some l)) (j :: R))) fl) R disk.
Proof.
  intros H Hj Hs Hd. unfold forget_if_unused. destruct (Nat.eqb_spec (length (List.filter (λ j', bool_decide (job_lock j' = Some l)) (j :: R))) 1) as [Hc|];
    [|by eapply drop_inv].
  pose proof H as [H1 H2 H3 H4 H5 H6 H7 H8 H9 H10 H11].
  assert (job_lock j = Some l) as Hjl by (by destruct j; simplify_eq/=).
  simpl in Hc. rewrite bool_decide_eq_true_2 in Hc by done. simpl in Hc.
  assert (∀ j', j' ∈ R → job_lock j' ≠ Some l) as Hno.
  { intros j' Hin Hl. assert (j' ∈ List.filter (λ j', bool_decide (job_lock j' = Some l)) R) as Hin'.
    { apply elem_of_lfilter. by rewrite bool_decide_eq_true. }
    destruct (List.filter _ R); [by apply elem_of_nil in Hin'|simpl in Hc; lia]. }
  assert (fl_paths fl !! p = Some l) as Hpl by (apply (H3 j); [by left|done]).
  split; cbn; try done.
  - intros j' p' l' Hin Hl'. rewrite lookup_delete_ne; [apply (H3 j'); [by right|done]|]. intros <-.
    assert (l' = l) as -> by (assert (fl_paths fl !! p = Some l') by (apply (H3 j'); [by right|done]); congruence).
    apply (Hno j' Hin). by destruct j'; simplify_eq/=.
  - intros p1 p2 l0 [_ Hl1]%lookup_delete_Some [_ Hl2]%lookup_delete_Some. by eapply H4.
  - intros p0 l0 [_ Hl0]%lookup_delete_Some. by eapply H5.
  - intros l0. specialize (H7 l0). by rewrite saves_cons, unsaved_holds in H7.
  - intros j' l0 st Hin. apply H8. by right.
  - intros p0 id st f Hp0. destruct (H9 _ _ _ _ Hp0) as (Hst & l0 & Hl0 & Hlast). split; [done|]. exists l0. split; [|done].
    rewrite lookup_delete_ne; [done|]. congruence.
  - intros p0 since Hp. apply (H10 p0). apply pend_cons. by right.
  - intros j' id f Hin. apply H11. by right.
Qed.

(** New jobs with no lock. *)
Lemma push_inv m E next fl js R disk :
  inv m E next fl R disk → (∀ j, j ∈ js → jlock j = None) → (∀ p since, pend js p since → since ≤ fl_seq fl) →
  (∀ j id f, j ∈ js → jwrite j = Some (id, f) → write_ok E next id f) → inv m E next fl (js ++ R) disk.
Proof.
  intros [H1 H2 H3 H4 H5 H6 H7 H8 H9 H10 H11] Hjs Hp Hw. split; try done.
  - intros j p l [Hin|Hin]%elem_of_app Hl; [by rewrite Hjs in Hl|by apply (H3 j)].
  - intros l. rewrite saves_app, unlocked_saves by done. apply H7.
  - intros j l st [Hin|Hin]%elem_of_app Hs; [|by apply (H8 j)]. apply jlock_jsave in Hs as [p Hs]. by rewrite Hjs in Hs.
  - intros p since [Hps|Hps]%pend_app; [by apply (Hp p)|by apply (H10 p)].
  - intros j id f [Hin|Hin]%elem_of_app Hj; [by eapply Hw|by apply (H11 j)].
Qed.

Lemma delete_inv m E next fl js disk p : inv m E next fl js disk → inv m E next fl js (delete p disk).
Proof.
  intros [H1 H2 H3 H4 H5 H6 H7 H8 H9 H10 H11]. split; try done. intros p' id st f [_ Hd]%lookup_delete_Some. by eapply H9.
Qed.

Lemma held_save m E next fl k id f l st R disk :
  inv m E next fl (JSave k id f l st :: R) disk →
  l ∈ fl_held fl ∧ saves l R = 0%nat ∧ fl_paths fl !! file_path f = Some l ∧ last_write l fl < st ≤ fl_seq fl.
Proof.
  intros H. pose proof (iv_held _ _ _ _ _ _ H l) as Hh. rewrite saves_cons in Hh.
  assert (holds_lock l (JSave k id f l st) = true) as Hb by (unfold holds_lock; simpl; apply N.eqb_refl). rewrite Hb in Hh.
  case_bool_decide as Hin; [|lia]. split; [done|split; [lia|split]].
  - apply (iv_lock _ _ _ _ _ _ H (JSave k id f l st)); [by left|done].
  - apply (iv_save _ _ _ _ _ _ H (JSave k id f l st)); [by left|done].
Qed.

Lemma release_inv m E next fl k id f l st R disk w disk' :
  inv m E next fl (JSave k id f l st :: R) disk →
  (w = None ∧ disk' = disk ∨ w = Some st ∧ disk' = <[file_path f := (id, st, f)]> disk) →
  inv m E next (release l w fl) R disk'.
Proof.
  intros H Hw. destruct (held_save _ _ _ _ _ _ _ _ _ _ _ H) as (Hin & Hs & Hp & Hst).
  pose proof H as [H1 H2 H3 H4 H5 H6 H7 H8 H9 H10 H11].
  assert (∀ l', l' ≠ l → last_write l' (release l w fl) = last_write l' fl) as Hother.
  { intros l' Hne. unfold last_write, release. cbn. destruct w; [|done]. by rewrite lookup_insert_ne. }
  assert (last_write l (release l w fl) = default (last_write l fl) w) as Hsame.
  { unfold last_write, release. cbn. destruct w; [|done]. by rewrite lookup_insert_eq. }
  split; try done.
  - intros j p l' Hj. apply H3. by right.
  - intros l'. change (fl_fresh (release l w fl)) with (fl_fresh fl). change (fl_seq (release l w fl)) with (fl_seq fl).
    destruct (decide (l' = l)) as [->|Hne]; [|rewrite Hother by done; apply H6].
    rewrite Hsame. destruct (H6 l) as [Ha Hb]. apply H5 in Hp. destruct Hw as [[-> _]|[-> _]]; simpl; [done|split; [lia|lia]].
  - intros l'. change (fl_held (release l w fl)) with (fl_held fl ∖ {[l]}). specialize (H7 l'). rewrite saves_cons in H7.
    destruct (decide (l' = l)) as [->|Hne].
    + rewrite bool_decide_eq_false_2 by set_solver. done.
    + unfold holds_lock in H7 at 1. simpl in H7. rewrite (proj2 (N.eqb_neq l l')) in H7 by done.
      rewrite (bool_decide_ext (l' ∈ fl_held fl ∖ {[l]}) (l' ∈ fl_held fl)) by set_solver. lia.
  - intros j l' st' Hj Hjs. destruct (decide (l' = l)) as [->|Hne]; [by destruct (saves_none l R j st' Hs Hj Hjs)|].
    rewrite Hother by done. apply (H8 j); [by right|done].
  - intros p id0 st0 f0 Hd. destruct Hw as [[-> ->]|[-> ->]].
    + destruct (H9 _ _ _ _ Hd) as (? & l' & Hl' & Hlast). split; [done|]. exists l'. split; [done|].
      destruct (decide (l' = l)) as [->|Hne]; [by rewrite Hsame|by rewrite Hother].
    + apply lookup_insert_Some in Hd as [[<- [= <- <- <-]]|[Hne Hd]].
      * split; [lia|]. exists l. by rewrite Hsame.
      * destruct (H9 _ _ _ _ Hd) as (? & l' & Hl' & Hlast). split; [done|]. exists l'. split; [done|].
        rewrite Hother; [done|]. intros ->. apply Hne. by apply (H4 _ _ l).
  - intros p since Hps. apply (H10 p). apply pend_cons. by right.
  - intros j id0 f0 Hj. apply H11. by right.
Qed.

Lemma saved_synced m E next fl k id f l st js R disk fl' :
  inv m E next fl (JSave k id f l st :: R) disk → synced E fl (JSave k id f l st :: R) disk →
  (∀ j', j' ∈ js → jsave j' = None) → (∀ p since, kpend k = Some (p, since) ↔ pend js p since) →
  synced E fl' (js ++ R) (<[file_path f := (id, st, f)]> disk).
Proof.
  intros H [H1 H2 H3] Hjs Hp. destruct (held_save _ _ _ _ _ _ _ _ _ _ _ H) as (Hin & Hs & Hl & Hst).
  assert (∀ p since, pend (js ++ R) p since ↔ pend (JSave k id f l st :: R) p since) as Heq
    by (intros p since; rewrite pend_app, pend_cons; by rewrite <-Hp).
  split.
  - intros p id0 st0 f0 Hd. setoid_rewrite Heq. apply lookup_insert_Some in Hd as [[<- [= <- <- <-]]|[Hne Hd]].
    + apply (H2 k id f l st). by left.
    + by eapply H1.
  - intros k0 id0 f0 l0 st0 [Hj|Hj]%elem_of_app; [by apply Hjs in Hj|]. setoid_rewrite Heq. apply (H2 k0 id0 f0 l0 st0). by right.
  - intros id0 o n He. setoid_rewrite Heq. destruct (H3 id0 o n He) as [(j0 & Hj0 & Hwr & Hst0)|(st0 & f0 & Hd & Hst0)].
    + apply elem_of_cons in Hj0 as [->|Hj0].
      * right. destruct Hwr as [-> Hfp]. exists st, f. rewrite <-Hfp, lookup_insert_eq. split; [done|]. rewrite Hfp. by apply (Hst0 l).
      * left. exists j0. split_and!; [apply elem_of_app; by right|done|done].
    + right. destruct (decide (file_path f = owner_path o n)) as [Hpe|Hne]; [|exists st0, f0; by rewrite lookup_insert_ne].
      destruct (iv_disk _ _ _ _ _ _ H _ _ _ _ Hd) as (_ & l0 & Hl0 & Hlast). rewrite <-Hpe in Hl0. assert (l0 = l) as -> by congruence.
      destruct (H2 k id f l st ltac:(by left)) as [(o' & n' & He' & Hp')|(since & Hge & Hps)].
      * destruct (owner_path_inj E next id o' n' id0 o n (iv_ents _ _ _ _ _ _ H) He' He) as (-> & -> & ->); [congruence|].
        exists st, f. rewrite <-Hpe, lookup_insert_eq. split; [done|]. intros since Hps. rewrite Hpe in Hps. specialize (Hst0 since Hps). lia.
      * rewrite Hpe in Hps. specialize (Hst0 since Hps). lia.
Qed.

Lemma unlink_synced m E next fl owner name since l R disk disk' fl' :
  let p := owner_path owner name in
  inv m E next fl (JUnlinkLock owner name since l :: R) disk → synced E fl (JUnlinkLock owner name since l :: R) disk →
  l ∉ fl_held fl → (since < last_write l fl ∧ disk' = disk ∨ last_write l fl ≤ since ∧ disk' = delete p disk) →
  synced E fl' R disk'.
Proof.
  intros p H [H1 H2 H3] Hl Hd. assert (fl_paths fl !! p = Some l) as Hp by (apply (iv_lock _ _ _ _ _ _ H (JUnlinkLock owner name since l)); [by left|done]).
  assert (∀ p' since', pend (JUnlinkLock owner name since l :: R) p' since' ↔ (p = p' ∧ since = since') ∨ pend R p' since') as Heq.
  { intros p' since'. rewrite pend_cons. simpl. fold p. naive_solver. }
  assert (∀ id st f, disk !! p = Some (id, st, f) → st = last_write l fl) as Hlast.
  { intros id st f Hdp. destruct (iv_disk _ _ _ _ _ _ H _ _ _ _ Hdp) as (_ & l0 & Hl0 & <-). congruence. }
  assert (∀ k id f l0 st, JSave k id f l0 st ∈ R → file_path f ≠ p) as Hnosave.
  { intros k id f l0 st Hj Hfp. assert (fl_paths fl !! file_path f = Some l0) as Hl0
      by (apply (iv_lock _ _ _ _ _ _ H (JSave k id f l0 st)); [by right|done]).
    assert (l0 = l) as -> by congruence. pose proof (iv_held _ _ _ _ _ _ H l) as Hh. rewrite bool_decide_eq_false_2 in Hh by done.
    rewrite saves_cons, unsaved_holds in Hh by done. by eapply (saves_none l R (JSave k id f l st)). }
  split.
  - intros p' id st f Hdp. assert (disk !! p' = Some (id, st, f)) as Hdp' by (destruct Hd as [[_ ->]|[_ ->]]; [done|by apply lookup_delete_Some in Hdp as [_ ?]]).
    destruct (H1 _ _ _ _ Hdp') as [?|(since' & Hge & Hps)]; [by left|]. right. exists since'. split; [done|].
    apply Heq in Hps as [[<- <-]|?]; [|done]. exfalso. destruct Hd as [[Hlt ->]|[_ ->]].
    + rewrite (Hlast _ _ _ Hdp) in Hge. lia.
    + by rewrite lookup_delete_eq in Hdp.
  - intros k id f l0 st Hj. destruct (H2 k id f l0 st ltac:(by right)) as [?|(since' & Hge & Hps)]; [by left|]. right. exists since'.
    split; [done|]. apply Heq in Hps as [[Hfp _]|?]; [|done]. by destruct (Hnosave _ _ _ _ _ Hj).
  - intros id o n He. destruct (H3 id o n He) as [(j0 & Hj0 & Hwr & Hst0)|(st0 & f0 & Hd0 & Hst0)].
    + left. apply elem_of_cons in Hj0 as [->|Hj0]; [done|]. exists j0. split_and!; [done|done|].
      intros l0 st Hs since' Hps. apply (Hst0 l0 st Hs). apply Heq. by right.
    + right. exists st0, f0. split; [|intros since' Hps; apply Hst0; apply Heq; by right].
      destruct Hd as [[_ ->]|[Hle ->]]; [done|]. rewrite lookup_delete_ne; [done|]. intros Hpe.
      rewrite <-Hpe in Hd0, Hst0. rewrite (Hlast _ _ _ Hd0) in Hst0. specialize (Hst0 since ltac:(apply Heq; by left)). lia.
Qed.

(** ** Collectors that come, go or move *)

Lemma relocate_synced m E next fl js R disk E' :
  inv m E next fl R disk → synced E fl R disk → (∀ j, j ∈ js → jsave j = None) →
  (∀ id o n, (id, o, n) ∈ E → (id, o, n) ∈ E' ∨ pend js (owner_path o n) (fl_seq fl)) →
  (∀ p since, pend js p since → ∀ id o n, (id, o, n) ∈ E → (id, o, n) ∈ E' → owner_path o n ≠ p) →
  (∀ id o n, (id, o, n) ∈ E' → (id, o, n) ∈ E ∨ ∃ j, j ∈ js ∧ writer id o n j) →
  synced E' fl (js ++ R) disk.
Proof.
  intros H [H1 H2 H3] Hjs Ha Hb Hc.
  assert (∀ id st p, st ≤ fl_seq fl → live E id p ∨ (∃ since, st ≤ since ∧ pend R p since) →
    live E' id p ∨ ∃ since, st ≤ since ∧ pend (js ++ R) p since) as Hstay.
  { intros id st p Hle [(o & n & He & <-)|(since & Hge & Hps)].
    - destruct (Ha id o n He) as [He'|Hps]; [left; by exists o, n|right; exists (fl_seq fl); split; [done|apply pend_app; by left]].
    - right. exists since. split; [done|]. apply pend_app. by right. }
  split.
  - intros p id st f Hd. apply Hstay; [|by eapply H1].
    destruct (iv_disk _ _ _ _ _ _ H _ _ _ _ Hd) as (_ & l & _ & <-). apply (iv_last _ _ _ _ _ _ H l).
  - intros k id f l st [Hj|Hj]%elem_of_app; [by apply Hjs in Hj|]. apply Hstay; [|by apply (H2 k id f l st)].
    apply (iv_save _ _ _ _ _ _ H _ l st Hj eq_refl).
  - intros id o n He'. destruct (Hc id o n He') as [He|(j & Hj & Hw)].
    + assert (∀ since, pend (js ++ R) (owner_path o n) since → pend R (owner_path o n) since) as Hsub.
      { intros since [Hps|Hps]%pend_app; [|done]. by destruct (Hb _ _ Hps id o n He He'). }
      destruct (H3 id o n He) as [(j0 & Hj0 & Hwr & Hst0)|(st0 & f0 & Hd0 & Hst0)].
      * left. exists j0. split_and!; [apply elem_of_app; by right|done|]. intros l st Hs since Hps. by apply (Hst0 l st Hs), Hsub.
      * right. exists st0, f0. split; [done|]. intros since Hps. by apply Hst0, Hsub.
    + left. exists j. split_and!; [apply elem_of_app; by left|done|]. intros l st Hs. by rewrite Hjs in Hs.
Qed.

Lemma relocate_inv m m' E next fl js R disk E' next' :
  inv m E next fl R disk → ents_ok E' next' → m ≤ m' → next ≤ next' ≤ m' + 1 →
  (∀ j, j ∈ js → jlock j = None) → (∀ p since, pend js p since → since ≤ fl_seq fl) →
  (∀ j id f, j ∈ js → jwrite j = Some (id, f) → write_ok E' next' id f) →
  (∀ id o n, (id, o, n) ∈ E' → id < next → ∃ o', (id, o', n) ∈ E) →
  inv m' E' next' fl (js ++ R) disk.
Proof.
  intros [H1 H2 H3 H4 H5 H6 H7 H8 H9 H10 H11] He Hm Hn Hjs Hp Hw Hold. apply push_inv; [|done|done|done].
  split; try done; [lia|]. intros j id f Hj Hjw. destruct (H11 j id f Hj Hjw) as [Hid Hname]. split; [lia|].
  intros o n Hin. destruct (Hold id o n Hin Hid) as [o' Ho']. by eapply Hname.
Qed.
End registry_spec.
