(* ===== verification/CollRegRuns.v ===== *)
(** * CollRegRuns: every request and every job keeps the files in step *)

From S2P Require Import Prelude Text F64 Gelf Filter Matcher Session Measure Threshold Collector CollectorSamples CollectorSpec History Persist PersistSpec CollReg CollRegSpec.

Set Default Proof Using "Type".
Local Open Scope N_scope.

Section runs.
Context {X : Externals} {SK : SketchCrate} {J : JsonScalars}.

Abbreviation Ent := (N * SessionId * string)%type.
Definition ents (s : Sys) : list Ent := ent <$> sy_entries s.
Definition jobs (s : Sys) : list Job := concat (sy_threads s).

(** The definition an edit is about to put in place keeps the collector's name. *)
Definition kplan (k : Cont) : option EditPlan := match k with KEdit p _ _ _ _ => Some p | _ => None end.
Definition jplan (j : Job) : option EditPlan :=
  match j with
  | JEditApply p _ _ _ _ => Some p
  | JWrite k _ _ | JWriteLock k _ _ _ | JSave k _ _ _ _ => kplan k
  | _ => None
  end.
Definition plan_ok (E : list Ent) (next : N) (p : EditPlan) : Prop :=
  pl_id p < next ∧ ∀ o n, (pl_id p, o, n) ∈ E → n = cd_name (pl_def p).

Record sys_inv (m : N) (s : Sys) (js : list Job) : Prop := {
  si_persist : sy_persist s = true;
  si_inv : inv m (ents s) (sy_next_id s) (sy_files s) js (sy_disk s);
  si_plan j p : j ∈ js → jplan j = Some p → plan_ok (ents s) (sy_next_id s) p;
}.
Definition sys_synced (s : Sys) (js : list Job) : Prop := synced (ents s) (sy_files s) js (sy_disk s).

(** ** Threads as a bag of jobs *)

Lemma concat_turn (ts : list (list Job)) i j rest :
  ts !! i = Some (j :: rest) →
  ∃ R, concat ts ≡ₚ j :: R ∧ ∀ js, concat (<[i := js ++ rest]> ts) ≡ₚ js ++ R.
Proof.
  intros H. exists (rest ++ concat (take i ts) ++ concat (drop (S i) ts)).
  pose proof (take_drop_middle ts i _ H) as E. assert (i < length ts)%nat as Hi by by eapply lookup_lt_Some.
  split.
  - rewrite <-E at 1. rewrite concat_app. simpl. solve_Permutation.
  - intros js. rewrite insert_take_drop by done. rewrite concat_app. simpl. solve_Permutation.
Qed.

Lemma sys_inv_perm m s js1 js2 : js1 ≡ₚ js2 → sys_inv m s js1 → sys_inv m s js2.
Proof. intros H [H1 H2 H3]. split; [done|by eapply inv_perm|]. intros j p Hj. apply H3. by rewrite H. Qed.

(** ** Finding an entry *)

Lemma find_entry_Some o n es e : find_entry o n es = Some e → e ∈ es ∧ en_owner e = o ∧ en_name e = n.
Proof.
  unfold find_entry. intros H. apply List.find_some in H as [Hin Hb].
  apply andb_true_iff in Hb as [Ho Hn]. apply bool_decide_eq_true in Ho. apply String.eqb_eq in Hn.
  split_and!; [by apply list_elem_of_In|done|done].
Qed.
Lemma find_entry_None o n es e : find_entry o n es = None → e ∈ es → en_owner e = o → en_name e = n → False.
Proof.
  unfold find_entry. intros H Hin Ho Hn. apply list_elem_of_In in Hin. apply (List.find_none _ _ H) in Hin.
  rewrite bool_decide_eq_true_2, Hn, String.eqb_refl in Hin by done. done.
Qed.
Lemma find_id_Some id es e : find_id id es = Some e → e ∈ es ∧ en_id e = id.
Proof. unfold find_id. intros H. apply List.find_some in H as [Hin Hb%N.eqb_eq]. split; [by apply list_elem_of_In|done]. Qed.

Lemma elem_of_ents s e : e ∈ sy_entries s → (en_id e, en_owner e, en_name e) ∈ ents s.
Proof. intros H. apply list_elem_of_fmap. by exists e. Qed.
Lemma ents_elem s id o n : (id, o, n) ∈ ents s → ∃ e, e ∈ sy_entries s ∧ en_id e = id ∧ en_owner e = o ∧ en_name e = n.
Proof. intros (e & [= -> -> ->] & H)%list_elem_of_fmap. by exists e. Qed.

(** An update that keeps identity, owner and name. *)
Lemma upd_entry_ents next id f s :
  ents_ok (ents s) next → (∀ e, e ∈ sy_entries s → en_id e = id → ent (f e) = ent e) → ents (upd_entry id f s) = ents s.
Proof.
  intros H Hf. unfold ents, upd_entry. simpl. rewrite <-list_fmap_compose. apply list_fmap_ext.
  intros i e He. simpl. destruct (N.eqb_spec (en_id e) id) as [<-|]; [|done]. apply Hf; [by eapply list_elem_of_lookup_2|done].
Qed.
Lemma replace_entry_ents next e e' s :
  ents_ok (ents s) next → e ∈ sy_entries s → ent e' = ent e → ents (upd_entry (en_id e) (λ _, e') s) = ents s.
Proof.
  intros H He Hent. eapply upd_entry_ents; [done|]. intros e0 He0 Hid. rewrite Hent.
  destruct (eo_ids _ _ H (en_id e) (en_owner e) (en_name e) (en_owner e0) (en_name e0)) as [Ho Hn].
  - by apply elem_of_ents.
  - rewrite <-Hid. by apply elem_of_ents.
  - unfold ent. by rewrite Ho, Hn, Hid.
Qed.

(** A write prepared from an entry. *)
Lemma entry_write_ok next s e f :
  ents_ok (ents s) next → e ∈ sy_entries s → pc_name f = en_name e → write_ok (ents s) next (en_id e) f.
Proof.
  intros H He Hn. apply elem_of_ents in He. split; [by eapply eo_id|]. intros o n Hin.
  rewrite Hn. by destruct (eo_ids _ _ H _ _ _ _ _ Hin He).
Qed.

(** ** What comes after a write *)

Lemma continue_spec k id r s js s' :
  continue k id r s = (js, s') →
  (sy_entries s' = sy_entries s ∧ sy_files s' = sy_files s ∧ sy_disk s' = sy_disk s ∧ sy_next_id s' = sy_next_id s ∧
   sy_persist s' = sy_persist s ∧ sy_threads s' = sy_threads s) ∧
  (∀ j, j ∈ js → jlock j = None ∧ jwrite j = None ∧ (∀ p, jplan j = Some p → kplan k = Some p)) ∧
  (∀ p since, pend js p since → kpend k = Some (p, since)) ∧
  (r ≠ Failed → ∀ p since, kpend k = Some (p, since) → pend js p since).
Proof.
  intros H. destruct k, r; simpl in H; injection H as <- <-; (split; [done|]);
    (split; [intros j Hj; try (apply elem_of_nil in Hj; done); apply list_elem_of_singleton in Hj as ->; simpl; naive_solver|]);
    (split; [intros p' since'; try (by intros ?%pend_nil); rewrite pend_cons; simpl; intros [?|?%pend_nil]; done|]);
    intros Hr p' since'; simpl; try done; intros [= <- <-]; rewrite pend_cons; by left.
Qed.

(** ** One job's turn *)

(** A step that changes nothing the files depend on. *)
Record quiet (s s' : Sys) : Prop := {
  q_ents : ents s' = ents s;
  q_files : sy_files s' = sy_files s;
  q_disk : sy_disk s' = sy_disk s;
  q_next : sy_next_id s' = sy_next_id s;
  q_persist : sy_persist s' = sy_persist s;
  q_threads : sy_threads s' = sy_threads s;
}.

(** What a job's turn must keep, its jobs [js] in its place. *)
Record kept (m : N) (ok : bool) (s s' : Sys) (j : Job) (js R : list Job) : Prop := {
  k_inv : sys_inv (m + 1) s' (js ++ R);
  k_ents : ents s' = ents s;
  k_threads : sy_threads s' = sy_threads s;
  k_next : sy_next_id s' = sy_next_id s;
  k_synced : ok = true → sys_synced s (j :: R) → sys_synced s' (js ++ R);
}.

Lemma inv_mono m m' E next fl js disk : inv m E next fl js disk → m ≤ m' → inv m' E next fl js disk.
Proof. intros [H1 H2 H3 H4 H5 H6 H7 H8 H9 H10 H11] Hm. split; try done. lia. Qed.

Lemma quiet_reply s r : quiet s (reply r s).
Proof. by split. Qed.
Lemma quiet_refl s : quiet s s.
Proof. by split. Qed.
#[local] Hint Resolve quiet_reply quiet_refl : core.

Lemma quiet_kept m ok s s' j js R :
  sys_inv m s (j :: R) → quiet s s' → jlock j = None →
  (∀ j', j' ∈ js → jlock j' = None ∧ (∀ id f, jwrite j' = Some (id, f) → write_ok (ents s) (sy_next_id s) id f) ∧
     ∀ p, jplan j' = Some p → plan_ok (ents s) (sy_next_id s) p) →
  (∀ p since, jpend j = Some (p, since) ↔ pend js p since) →
  (∀ id o n, (id, o, n) ∈ ents s → writer id o n j → ∃ j', j' ∈ js ∧ writer id o n j') →
  kept m ok s s' j js R.
Proof.
  intros [Hp Hi Hpl] [Q1 Q2 Q3 Q4 Q5 Q6] Hj Hjs Hpe Hw. split; try done.
  - split; [by rewrite Q5| |].
    + rewrite Q1, Q2, Q3, Q4. apply inv_mono with m; [|lia]. eapply swap_inv; [done|done|by intros j' [? _]%Hjs| |].
      * intros p since. by rewrite <-Hpe.
      * intros j' id f Hin Hwr. by apply (Hjs j' Hin).
    + rewrite Q1, Q4. intros j' p [Hin|Hin]%elem_of_app Hjp; [by apply (Hjs j' Hin)|]. apply (Hpl j'); [by right|done].
  - intros _. unfold sys_synced. rewrite Q1, Q2, Q3. intros Hs.
    assert (∀ j', jlock j' = None → jsave j' = None) as Hls by (by intros []).
    eapply swap_synced; [done|by apply Hls|by intros j' [? _]%Hjs; apply Hls|done|done].
Qed.

(** The job is over, with nothing left to do. *)
Lemma quiet_done m ok s s' j R :
  sys_inv m s (j :: R) → quiet s s' → jlock j = None → jpend j = None → (∀ id o n, (id, o, n) ∈ ents s → ¬ writer id o n j) →
  kept m ok s s' j [] R.
Proof.
  intros H Hq Hj Hp Hw. apply quiet_kept; try done.
  - intros j' Hin. by apply elem_of_nil in Hin.
  - intros p since. rewrite Hp. split; [done|by intros ?%pend_nil].
  - intros id o n He Hwr. by destruct (Hw id o n He).
Qed.

Lemma pend_one j p since : pend [j] p since ↔ jpend j = Some (p, since).
Proof. rewrite pend_cons. split; [by intros [?|?%pend_nil]|by left]. Qed.

#[local] Ltac quiet_over := apply quiet_done; [assumption|try done|reflexivity|reflexivity|intros ? ? ? _ []].

(** The job gives way to one other. *)
Lemma quiet_next m ok s s' j j' R :
  sys_inv m s (j :: R) → quiet s s' → jlock j = None → jlock j' = None → jpend j' = jpend j →
  (∀ id f, jwrite j' = Some (id, f) → write_ok (ents s) (sy_next_id s) id f) →
  (∀ p, jplan j' = Some p → plan_ok (ents s) (sy_next_id s) p) →
  (∀ id o n, (id, o, n) ∈ ents s → writer id o n j → writer id o n j') →
  kept m ok s s' j [j'] R.
Proof.
  intros H Hq Hj Hj' Hp Hw Hpl Hwr. apply quiet_kept; try done.
  - by intros j0 ->%list_elem_of_singleton.
  - intros p since. by rewrite pend_one, Hp.
  - intros id o n He Hjw. exists j'. split; [by apply list_elem_of_singleton|by apply Hwr].
Qed.

Lemma quiet_upd next id f s :
  ents_ok (ents s) next → (∀ e, e ∈ sy_entries s → en_id e = id → ent (f e) = ent e) → quiet s (upd_entry id f s).
Proof. intros H Hf. split; try done. by eapply upd_entry_ents. Qed.
Lemma quiet_trans s1 s2 s3 : quiet s1 s2 → quiet s2 s3 → quiet s1 s3.
Proof. intros [] []. split; congruence. Qed.

Lemma snap_file_step loss m ok s id snap R js s' :
  sys_inv m s (JSnapFile id snap :: R) → job_step loss ok (JSnapFile id snap) s = Some (js, s') →
  kept m ok s s' (JSnapFile id snap) js R.
Proof.
  intros H. pose proof (iv_ents _ _ _ _ _ _ (si_inv _ _ _ H)) as He. simpl.
  destruct (find_id id (sy_entries s)) as [e|] eqn:Ef; intros [= <- <-]; [|quiet_over].
  apply find_id_Some in Ef as [Hin <-]. apply quiet_next; try (done || intros ? ? ? _ []).
  - eapply quiet_upd; [done|]. intros e0 He0 Hid.
    destruct (eo_ids _ _ He _ _ _ _ _ (elem_of_ents s e Hin) ltac:(rewrite <-Hid; by apply elem_of_ents)) as [Ho Hn].
    unfold ent. change (en_name (set_history _ e)) with (en_name e). simpl. by rewrite Ho, Hn, Hid.
  - intros id f [= <- <-]. by apply entry_write_ok.
Qed.

Lemma snap_check_step loss m ok s id R js s' :
  sys_inv m s (JSnapCheck id :: R) → job_step loss ok (JSnapCheck id) s = Some (js, s') →
  kept m ok s s' (JSnapCheck id) js R.
Proof. intros H [= <- <-]. quiet_over. Qed.

Lemma edit_apply_step loss m ok s p owner name metrics now R js s' :
  let j := JEditApply p owner name metrics now in
  sys_inv m s (j :: R) → job_step loss ok j s = Some (js, s') → kept m ok s s' j js R.
Proof.
  intros j H. pose proof (iv_ents _ _ _ _ _ _ (si_inv _ _ _ H)) as He. simpl.
  destruct (find_id (pl_id p) (sy_entries s)) as [e|] eqn:Ef; [|intros [= <- <-]; quiet_over].
  destruct (owned_by owner e); intros [= <- <-]; quiet_over.
  apply quiet_trans with (upd_entry (pl_id p) (edit_entry loss p metrics now) s); [|apply quiet_reply].
  eapply quiet_upd; [done|]. intros e0 He0 Hid.
  destruct (si_plan _ _ _ H j p ltac:(by left) eq_refl) as [_ Hn]. apply elem_of_ents in He0. rewrite Hid in He0.
  unfold ent. rewrite (Hn _ _ He0). unfold edit_entry, en_name, en_def. by destruct (pl_structural p).
Qed.

Lemma moved_step loss m ok s old new name since R js s' :
  let j := JMoved old new name since in
  sys_inv m s (j :: R) → job_step loss ok j s = Some (js, s') → kept m ok s s' j js R.
Proof.
  intros j H. pose proof (iv_ents _ _ _ _ _ _ (si_inv _ _ _ H)) as He. simpl.
  destruct (find_entry new name (sy_entries s)) as [e|] eqn:Ef; intros [= <- <-]; apply quiet_next; try done.
  - intros id f [= <- <-]. apply find_entry_Some in Ef as (Hin & _ & _). by apply entry_write_ok.
  - apply find_entry_Some in Ef as (Hin & Ho & Hn). intros id o n Hen [-> ->]. simpl. rewrite Ho.
    split_and!; [|done|done]. apply elem_of_ents in Hin. rewrite Ho, Hn in Hin. by apply (eo_names _ _ He _ _ _ _ Hin).
  - intros id o n (e & Hin & _ & Ho & Hn)%ents_elem [-> ->]. by destruct (find_entry_None _ _ _ e Ef).
Qed.

(** The lock's clone, once taken. *)
Lemma clone_kept m ok s j j' R path l fl' :
  sys_inv m s (j :: R) → path_lock path (sy_files s) = (l, fl') → jlock j = None → jlock j' = Some (path, l) →
  jsave j' = None → jpend j' = jpend j → jwrite j' = jwrite j → jplan j' = jplan j →
  (∀ id o n, writer id o n j → writer id o n j') → kept m ok s (upd_files fl' s) j [j'] R.
Proof.
  intros [Hp Hi Hpl] Hl Hj Hj' Hs Hpe Hw Hpn Hwr. destruct (path_lock_spec _ _ _ _ _ _ _ _ _ Hi Hl) as (Hi' & Hlk & _).
  split; try done.
  - split; [done| |].
    + apply inv_mono with m; [|lia]. by eapply clone_inv.
    + intros j0 p [->|Hin]%elem_of_cons Hjp; [rewrite Hpn in Hjp; by apply (Hpl j); [left|]|]. apply (Hpl j0); [by right|done].
  - intros _ Hsy. eapply (writer_swap _ _ _ j); [exact Hsy|by destruct j|done| |].
    + intros k id f l0 st ->. done.
    + intros id o n _ Hwj. split; [by apply Hwr|]. intros l0 st. by rewrite Hs.
Qed.

Lemma write_step loss m ok s k id f R js s' :
  let j := JWrite k id f in
  sys_inv m s (j :: R) → job_step loss ok j s = Some (js, s') → kept m ok s s' j js R.
Proof.
  intros j H. simpl. rewrite (si_persist _ _ _ H). destruct (path_lock _ _) as [l fl'] eqn:El. intros [= <- <-].
  by apply clone_kept with (file_path f) l.
Qed.
Lemma unlink_step loss m ok s owner name since R js s' :
  let j := JUnlink owner name since in
  sys_inv m s (j :: R) → job_step loss ok j s = Some (js, s') → kept m ok s s' j js R.
Proof.
  intros j H. simpl. rewrite (si_persist _ _ _ H). destruct (path_lock _ _) as [l fl'] eqn:El. intros [= <- <-].
  by apply clone_kept with (owner_path owner name) l.
Qed.

#[local] Arguments acquire : simpl never.
#[local] Arguments forget_if_unused : simpl never.
#[local] Arguments continue : simpl never.

Lemma forget_seq p n fl : fl_seq (forget_if_unused p n fl) = fl_seq fl.
Proof. unfold forget_if_unused. by case_match. Qed.

Lemma clones_perm l s js :
  jobs s ≡ₚ js → clones l (sy_threads s) = length (List.filter (λ j, bool_decide (job_lock j = Some l)) js).
Proof.
  unfold jobs, clones. generalize (concat (sy_threads s)). intros js' H. induction H; simpl; repeat case_bool_decide; simpl; lia.
Qed.

(** A write that is over: its caller goes on in its place. *)
Lemma continue_kept m ok s fl d s' j k id f r js R :
  sys_inv m s (j :: R) → continue k id r (upd_files fl (upd_disk d s)) = (js, s') →
  jpend j = kpend k → jplan j = kplan k → jwrite j = Some (id, f) →
  inv m (ents s) (sy_next_id s) fl R d → fl_seq fl = fl_seq (sy_files s) → (ok = true → r ≠ Failed) →
  (∀ js', (∀ j', j' ∈ js' → jsave j' = None) → (∀ p since, kpend k = Some (p, since) ↔ pend js' p since) →
     ok = true → sys_synced s (j :: R) → synced (ents s) fl (js' ++ R) d) →
  kept m ok s s' j js R.
Proof.
  intros [Hp Hi Hpl] Hc Hpe Hpn Hw Hinv Hseq Hr Hsy.
  destruct (continue_spec _ _ _ _ _ _ Hc) as ((E1 & E2 & E3 & E4 & E5 & E6) & Hjs & Hp1 & Hp2).
  assert (ents s' = ents s) as Hents by (unfold ents; by rewrite E1).
  split; [split| | | |]; try done.
  - by rewrite E5.
  - rewrite Hents, E2, E3, E4. apply inv_mono with m; [|lia]. apply push_inv; [done|by intros j' [? _]%Hjs| |].
    + simpl. intros p since Hps%Hp1. rewrite Hseq. apply (iv_pend _ _ _ _ _ _ Hi p). apply pend_cons. left. by rewrite Hpe.
    + intros j' id0 f0 Hin Hw0. destruct (Hjs _ Hin) as (_ & Hn & _). congruence.
  - rewrite Hents, E4. intros j' p [Hin|Hin]%elem_of_app Hjp; [|apply (Hpl j'); [by right|done]].
    apply (Hpl j); [by left|]. rewrite Hpn. by apply (Hjs j' Hin).
  - intros Hok Hs. unfold sys_synced. rewrite Hents, E2, E3. apply Hsy; [|split; [by apply Hp2, Hr|by apply Hp1]|done|done].
    intros j' [Hn _]%Hjs. by destruct j'.
Qed.

Lemma save_step loss m ok s k id f l st R js s' :
  let j := JSave k id f l st in
  sys_inv m s (j :: R) → job_step loss ok j s = Some (js, s') → kept m ok s s' j js R.
Proof.
  intros j H. pose proof (si_inv _ _ _ H) as Hi. simpl. destruct ok; intros [= Hc].
  - eapply continue_kept; [exact H|exact Hc|try done..|].
    + eapply release_inv; [done|by right].
    + intros js' Hjs Hpe _ Hs. by eapply saved_synced.
  - eapply (continue_kept _ _ _ _ (sy_disk s)); [exact H|exact Hc|try done..]. eapply release_inv; [done|by left].
Qed.

Lemma live_entry s next id f o n :
  ents_ok (ents s) next → (id, o, n) ∈ ents s → pc_owner f = id_string o →
  existsb (λ e, (en_id e =? id) && owned_by (Named (pc_owner f)) e) (sy_entries s) = true.
Proof.
  intros H He Ho. destruct (eo_named _ _ H _ _ _ He) as [x ->]. apply ents_elem in He as (e & Hin & <- & Heo & _).
  apply List.existsb_exists. exists e. split; [by apply list_elem_of_In|]. rewrite N.eqb_refl. simpl in Ho.
  unfold owned_by. by rewrite bool_decide_eq_true_2 by by rewrite Ho.
Qed.

Lemma write_lock_step loss m ok s k id f l R js s' :
  let j := JWriteLock k id f l in
  sys_inv m s (j :: R) → jobs s ≡ₚ j :: R → m + 1 ≤ u64_max → job_step loss ok j s = Some (js, s') → kept m ok s s' j js R.
Proof.
  intros j H Hjobs Hm. pose proof H as [Hp Hi Hpl]. unfold job_step, j. case_bool_decide as Hheld; [done|].
  destruct (existsb _ _) eqn:Hlive.
  - destruct (acquire l (sy_files s)) as [stamp fl'] eqn:Ha. intros [= <- <-].
    destruct (acquire_spec _ _ _ _ _ _ _ _ _ _ Hi Hheld Hm) as [Hi' Hst]. rewrite Ha in Hi', Hst. simpl in Hi', Hst. subst stamp.
    split; [split| | | |]; try done.
    + intros j' p [->|Hin]%elem_of_cons Hjp; [by apply (Hpl j); [left|]|]. apply (Hpl j'); [by right|done].
    + intros _ Hs. apply List.existsb_exists in Hlive as (e & Hin%list_elem_of_In & [Hid%N.eqb_eq Ho%bool_decide_eq_true]%andb_true_iff).
      apply elem_of_ents in Hin. rewrite Hid, Ho in Hin. replace fl' with ((acquire l (sy_files s)).2) by by rewrite Ha.
      by eapply acquire_synced.
  - assert (∀ fl', inv m (ents s) (sy_next_id s) fl' R (sy_disk s) → fl_seq fl' = fl_seq (sy_files s) →
      Some (continue k id Gone (upd_files fl' s)) = Some (js, s') → kept m ok s s' j js R) as Hgone.
    { intros fl' Hi' Hseq [= Hc]. eapply (continue_kept _ _ _ fl' (sy_disk s)); [exact H|exact Hc|try done..].
      intros js' Hjs Hpe _ Hs. eapply (swap_synced _ (sy_files s) _ j); try done.
      intros id0 o n He (<- & Ho & _). by rewrite (live_entry _ _ _ _ _ _ (iv_ents _ _ _ _ _ _ Hi) He Ho) in Hlive. }
    rewrite (clones_perm _ _ _ Hjobs). destruct (N.eqb_spec (last_write l (sy_files s)) 0) as [Hl0|]; apply Hgone; [|by rewrite forget_seq| |done].
    + eapply forget_spec; [done|done|done|]. destruct (sy_disk s !! file_path f) as [[[id0 st] f0]|] eqn:Hd; [|done].
      destruct (iv_disk _ _ _ _ _ _ Hi _ _ _ _ Hd) as (Hst & l0 & Hl & <-).
      assert (fl_paths (sy_files s) !! file_path f = Some l) as Hl' by (apply (iv_lock _ _ _ _ _ _ Hi j); [by left|done]).
      assert (l0 = l) as -> by congruence. lia.
    + by eapply drop_inv.
Qed.

Lemma upd_same s : upd_files (sy_files s) (upd_disk (sy_disk s) s) = s.
Proof. by destruct s. Qed.

Lemma unlink_lock_step loss m ok s owner name since l R js s' :
  let j := JUnlinkLock owner name since l in
  sys_inv m s (j :: R) → jobs s ≡ₚ j :: R → job_step loss ok j s = Some (js, s') → kept m ok s s' j js R.
Proof.
  intros j H Hjobs. pose proof H as [Hp Hi Hpl]. unfold job_step, j. case_bool_decide as Hheld; [done|].
  assert (∀ fl' d', inv m (ents s) (sy_next_id s) fl' R d' →
    (ok = true → since < last_write l (sy_files s) ∧ d' = sy_disk s ∨
       last_write l (sy_files s) ≤ since ∧ d' = delete (owner_path owner name) (sy_disk s)) →
    kept m ok s (upd_files fl' (upd_disk d' s)) j [] R) as Hover.
  { intros fl' d' Hi' Hd. split; [split| | | |]; try done.
    - apply inv_mono with m; [done|lia].
    - intros j' p Hin. apply Hpl. by right.
    - intros Hok Hs. eapply unlink_synced; [exact Hi|exact Hs|done|by apply Hd]. }
  pose proof (Hover (sy_files s) (sy_disk s)) as Hsame. rewrite upd_same in Hsame. rewrite (clones_perm _ _ _ Hjobs).
  destruct (N.ltb_spec since (last_write l (sy_files s))) as [Hlt|Hle]; [|destruct (_ && _) eqn:Hb]; intros [= <- <-].
  - apply Hsame; [by eapply drop_inv|by left].
  - apply Hsame; [by eapply drop_inv|]. intros ->. by rewrite andb_false_r in Hb.
  - apply Hover; [|by right]. apply (forget_spec m _ _ _ j R _ _ l); [by apply delete_inv|done|done|]. by rewrite lookup_delete_eq.
Qed.

Lemma job_step_kept loss m ok s j R js s' :
  sys_inv m s (j :: R) → jobs s ≡ₚ j :: R → m + 1 ≤ u64_max → job_step loss ok j s = Some (js, s') → kept m ok s s' j js R.
Proof.
  intros H Hj Hm Hs. destruct j.
  - by eapply snap_file_step.
  - by eapply snap_check_step.
  - by eapply edit_apply_step.
  - by eapply write_step.
  - by eapply write_lock_step.
  - by eapply save_step.
  - by eapply moved_step.
  - by eapply unlink_step.
  - by eapply unlink_lock_step.
Qed.

(** A turn, on the whole system's jobs. *)
Lemma turn_kept loss m ok i s s' :
  sys_inv m s (jobs s) → m + 1 ≤ u64_max → turn loss ok i s = Some s' →
  sys_inv (m + 1) s' (jobs s') ∧ (ok = true → sys_synced s (jobs s) → sys_synced s' (jobs s')) ∧ ents s' = ents s.
Proof.
  intros H Hm. unfold turn. destruct (sy_threads s !! i) as [[|j rest]|] eqn:Ht; try done.
  destruct (concat_turn _ _ _ _ Ht) as (R & Hp & Hjs). destruct (job_step loss ok j s) as [[js s1]|] eqn:Hs; [|done].
  intros [= <-]. eapply sys_inv_perm in H; [|exact Hp].
  destruct (job_step_kept _ _ _ _ _ _ _ _ H Hp Hm Hs) as [Hi He Hth _ Hsy].
  assert (js ++ R ≡ₚ jobs (upd_threads (<[i := js ++ rest]> (sy_threads s1)) s1)) as Hp'
    by (unfold jobs; simpl; rewrite Hth; by rewrite Hjs).
  split_and!; [|intros Hok Hs0|done].
  - eapply sys_inv_perm; [exact Hp'|]. destruct Hi. by split.
  - eapply synced_perm; [exact Hp'|]. apply Hsy; [done|]. by eapply synced_perm.
Qed.
End runs.
