(* ===== verification/CollRegFiles.v ===== *)
(** * CollRegFiles: the files on disk are the live collectors' *)

From S2P Require Import Prelude Text F64 Gelf Filter Matcher Session Measure Threshold Collector CollectorSamples CollectorSpec History Persist PersistSpec CollReg CollRegSpec CollRegRuns.

Set Default Proof Using "Type".
Local Open Scope N_scope.

Section files.
Context {X : Externals} {SK : SketchCrate} {J : JsonScalars}.

Abbreviation Ent := (N * SessionId * string)%type.

(** ** What a request does to the files' world *)

(** A request that leaves the file work [js], its entries changed to match. *)
Record relocated (s s' : Sys) (js : list Job) : Prop := {
  rl_files : sy_files s' = sy_files s;
  rl_disk : sy_disk s' = sy_disk s;
  rl_persist : sy_persist s' = sy_persist s;
  rl_next : sy_next_id s ≤ sy_next_id s' ≤ sy_next_id s + 1;
  rl_ents : ents_ok (ents s') (sy_next_id s');
  rl_jobs j : j ∈ js → jlock j = None ∧
    (∀ id f, jwrite j = Some (id, f) → write_ok (ents s') (sy_next_id s') id f) ∧
    (∀ p, jplan j = Some p → plan_ok (ents s') (sy_next_id s') p);
  rl_pend p since : pend js p since → since = fl_seq (sy_files s) ∧
    ∀ id o n, (id, o, n) ∈ ents s → (id, o, n) ∈ ents s' → owner_path o n ≠ p;
  rl_old id o n : (id, o, n) ∈ ents s' → id < sy_next_id s → ∃ o', (id, o', n) ∈ ents s;
  rl_gone id o n : (id, o, n) ∈ ents s → (id, o, n) ∈ ents s' ∨ pend js (owner_path o n) (fl_seq (sy_files s));
  rl_come id o n : (id, o, n) ∈ ents s' → (id, o, n) ∈ ents s ∨ ∃ j, j ∈ js ∧ writer id o n j;
}.

Lemma unlocked_unsaved j : jlock j = None → jsave j = None.
Proof. by destruct j. Qed.

Lemma relocated_inv m m' s s' js R :
  sys_inv m s R → relocated s s' js → m ≤ m' → sy_next_id s' ≤ m' + 1 → sys_inv m' s' (js ++ R).
Proof.
  intros [Hp Hi Hpl] [R1 R2 R3 R4 R5 R6 R7 R8 R9 R10] Hm Hn. split.
  - by rewrite R3.
  - rewrite R1, R2. eapply relocate_inv; [exact Hi|done|done|lia|by intros j [? _]%R6| | |done].
    + intros p since [-> _]%R7. lia.
    + intros j id f Hj. by apply (R6 j Hj).
  - intros j p [Hj|Hj]%elem_of_app Hjp; [by apply (R6 j Hj)|]. destruct (Hpl j p Hj Hjp) as [Hid Hname].
    split; [lia|]. intros o n Hin. destruct (R8 _ _ _ Hin Hid) as [o' Ho']. by eapply Hname.
Qed.

Lemma relocated_synced m s s' js R :
  sys_inv m s R → relocated s s' js → sys_synced s R → sys_synced s' (js ++ R).
Proof.
  intros [Hp Hi Hpl] [R1 R2 R3 R4 R5 R6 R7 R8 R9 R10] Hs. unfold sys_synced. rewrite R1, R2.
  eapply relocate_synced; [exact Hi|exact Hs|by intros j [? _]%R6; apply unlocked_unsaved|exact R9| |exact R10].
  intros p since [_ Hne]%R7 id o n. apply Hne.
Qed.

(** Nobody comes, goes or moves. *)
Lemma stay_relocated m s s' js R :
  sys_inv m s R → ents s' = ents s → sy_next_id s' = sy_next_id s → sy_files s' = sy_files s → sy_disk s' = sy_disk s →
  sy_persist s' = sy_persist s →
  (∀ j, j ∈ js → jlock j = None ∧ jpend j = None ∧
    (∀ id f, jwrite j = Some (id, f) → write_ok (ents s) (sy_next_id s) id f) ∧
    (∀ p, jplan j = Some p → plan_ok (ents s) (sy_next_id s) p)) →
  relocated s s' js.
Proof.
  intros [_ Hi _] E1 E2 E3 E4 E5 Hjs. pose proof (iv_ents _ _ _ _ _ _ Hi) as He.
  split; rewrite ?E1, ?E2; try done; try (by left); try lia.
  - intros j Hj. by destruct (Hjs j Hj) as (? & _ & ? & ?).
  - intros p since (j & Hj & Hjp). destruct (Hjs j Hj) as (_ & Hn & _). congruence.
  - intros id o n Hin _. by exists o.
Qed.
Lemma quiet_relocated m s s' R : sys_inv m s R → quiet s s' → relocated s s' [].
Proof. intros H []. eapply stay_relocated; try done. intros j Hj. by apply elem_of_nil in Hj. Qed.

(** ** Collectors that go *)

Lemma gone_relocated m s s' (gone : CEntry → bool) js R :
  sys_inv m s R → sy_entries s' = List.filter (λ e, negb (gone e)) (sy_entries s) →
  sy_next_id s' = sy_next_id s → sy_files s' = sy_files s → sy_disk s' = sy_disk s → sy_persist s' = sy_persist s →
  (∀ e e', en_owner e = en_owner e' → en_name e = en_name e' → gone e = gone e') →
  (∀ e, e ∈ sy_entries s → gone e = true → JUnlink (en_owner e) (en_name e) (fl_seq (sy_files s)) ∈ js) →
  (∀ j, j ∈ js → ∃ e, e ∈ sy_entries s ∧ gone e = true ∧ j = JUnlink (en_owner e) (en_name e) (fl_seq (sy_files s))) →
  relocated s s' js.
Proof.
  intros [_ Hi _] E1 E2 E3 E4 E5 Hg Hjs1 Hjs2. pose proof (iv_ents _ _ _ _ _ _ Hi) as He.
  assert (∀ id o n, (id, o, n) ∈ ents s' → (id, o, n) ∈ ents s) as Hsub.
  { intros id o n (e & Hin & <- & <- & <-)%ents_elem. rewrite E1 in Hin. apply elem_of_lfilter in Hin as [_ Hin].
    by apply elem_of_ents. }
  split; rewrite ?E2; try done; try lia.
  - destruct He as [H1 H2 H3 H4 H5]. split; eauto.
  - intros j Hj. by destruct (Hjs2 j Hj) as (e & _ & _ & ->).
  - intros p since (j & Hj & Hjp). destruct (Hjs2 j Hj) as (e & Hin & Hge & ->). simpl in Hjp. injection Hjp as <- <-.
    split; [done|]. intros id o n Hs Hs' Hpath.
    destruct (owner_path_inj _ _ _ _ _ _ _ _ He Hs (elem_of_ents _ _ Hin) Hpath) as (-> & -> & _).
    apply ents_elem in Hs' as (e' & Hin' & _ & Ho & Hn). rewrite E1 in Hin'. apply elem_of_lfilter in Hin' as [Hge' _].
    by rewrite (Hg e' e Ho Hn), Hge in Hge'.
  - intros id o n Hin%Hsub _. by exists o.
  - intros id o n (e & Hin & <- & <- & <-)%ents_elem. destruct (gone e) eqn:Hge.
    + right. exists (JUnlink (en_owner e) (en_name e) (fl_seq (sy_files s))). split; [by apply Hjs1|done].
    + left. apply elem_of_ents. rewrite E1. apply elem_of_lfilter. by rewrite Hge.
  - intros id o n Hin. left. by apply Hsub.
Qed.

(** ** Collectors that move *)

Lemma move_same old s : (move_owner old old s).2 = s ∧ pf_moved (move_owner old old s).1 = [].
Proof. unfold move_owner. by rewrite bool_decide_eq_true_2. Qed.

Lemma ents_moved old new s id o n :
  old ≠ new → (id, o, n) ∈ ents (move_owner old new s).2 →
  (id, o, n) ∈ ents s ∧ o ≠ old ∨ o = new ∧ (id, old, n) ∈ ents s.
Proof.
  intros Hne. unfold move_owner. rewrite bool_decide_eq_false_2 by done. intros (e & Hin & <- & <- & <-)%ents_elem.
  simpl in Hin. apply list_elem_of_fmap in Hin as (e0 & -> & Hin). unfold owned_by. case_bool_decide as Ho.
  - right. split; [done|]. apply elem_of_ents in Hin. by rewrite Ho in Hin.
  - left. split; [by apply elem_of_ents|done].
Qed.
Lemma moved_ents old new s id o n :
  old ≠ new → (id, o, n) ∈ ents s → (id, if bool_decide (o = old) then new else o, n) ∈ ents (move_owner old new s).2.
Proof.
  intros Hne (e & Hin & <- & <- & <-)%ents_elem.
  assert ((if owned_by old e then set_owner new e else e) ∈ sy_entries (move_owner old new s).2) as Hm%elem_of_ents.
  { unfold move_owner. rewrite (bool_decide_eq_false_2 (old = new)) by done. simpl. apply list_elem_of_fmap. by exists e. }
  unfold owned_by in Hm. by case_bool_decide.
Qed.

Lemma move_jobs old new s j :
  j ∈ pf_moved (move_owner old new s).1 ↔
  old ≠ new ∧ ∃ e, e ∈ sy_entries s ∧ en_owner e = old ∧ j = JMoved old new (en_name e) (fl_seq (sy_files s)).
Proof.
  unfold move_owner. case_bool_decide as Hon; simpl.
  - split; [by intros ?%elem_of_nil|naive_solver].
  - rewrite list_elem_of_fmap. setoid_rewrite elem_of_lfilter. unfold owned_by.
    setoid_rewrite bool_decide_eq_true. naive_solver.
Qed.

(** The new owner owns nothing yet, and the moved names still fit their files. *)
Definition may_move (E : list Ent) (old new : SessionId) : Prop :=
  (∃ x, new = Named x ∧ ∀ id n, (id, old, n) ∈ E → fits x n) ∧ ∀ id n, (id, new, n) ∉ E.

Lemma move_ents_ok old new s :
  ents_ok (ents s) (sy_next_id s) → old ≠ new → may_move (ents s) old new →
  ents_ok (ents (move_owner old new s).2) (sy_next_id s).
Proof.
  intros He Hne [(x & -> & Hfits) Hfree]. pose proof He as [H1 H2 H3 H4 H5]. split.
  - intros id o n [[? _]|[_ ?]]%ents_moved; [by eapply H1|by eapply H1|done].
  - intros id o n [[? _]|[-> ?]]%ents_moved; [by eapply H2|by exists x|done].
  - intros id o n [[? _]|[-> ?]]%ents_moved; [by eapply H3|by eapply Hfits|done].
  - intros id o1 n1 o2 n2 [[A Ao]|[-> A]]%ents_moved [[B Bo]|[-> B]]%ents_moved; try done; destruct (H4 _ _ _ _ _ A B); by subst.
  - intros id1 id2 o n [[A Ao]|[-> A]]%ents_moved [[B Bo]|[? B]]%ents_moved; try done; subst;
      try (by eapply H5); by edestruct Hfree.
Qed.

Lemma move_relocated m s old new R :
  sys_inv m s R → old = new ∨ may_move (ents s) old new →
  relocated s (move_owner old new s).2 (pf_moved (move_owner old new s).1).
Proof.
  intros H Hmove. destruct (decide (old = new)) as [<-|Hne].
  { destruct (move_same old s) as [-> ->]. by eapply quiet_relocated. }
  destruct Hmove as [?|Hmove]; [done|]. pose proof (iv_ents _ _ _ _ _ _ (si_inv _ _ _ H)) as He.
  assert (sy_files (move_owner old new s).2 = sy_files s ∧ sy_disk (move_owner old new s).2 = sy_disk s ∧
          sy_persist (move_owner old new s).2 = sy_persist s ∧ sy_next_id (move_owner old new s).2 = sy_next_id s)
    as (E1 & E2 & E3 & E4) by (unfold move_owner; by case_bool_decide).
  split; rewrite ?E1, ?E2, ?E3, ?E4; try done; try lia.
  - by apply move_ents_ok.
  - by intros j (_ & e & _ & _ & ->)%move_jobs.
  - intros p since (j & (_ & e & Hin & Ho & ->)%move_jobs & [= <- <-]). split; [done|]. intros id o n Hs Hs' Hpath.
    apply elem_of_ents in Hin. rewrite Ho in Hin. destruct (owner_path_inj _ _ _ _ _ _ _ _ He Hs Hin Hpath) as (-> & -> & ->).
    by apply ents_moved in Hs' as [[_ ?]|[-> _]].
  - intros id o n [[? _]|[_ ?]]%ents_moved _; [by exists o|by exists old|done].
  - intros id o n Hin. pose proof (moved_ents old new s _ _ _ Hne Hin) as Hm. case_bool_decide as Ho; [|by left]. right. subst o.
    apply ents_elem in Hin as (e & Hin & _ & Ho & <-). exists (JMoved old new (en_name e) (fl_seq (sy_files s))).
    split; [|done]. apply move_jobs. split; [done|]. by exists e.
  - intros id o n [[? _]|[-> Hin]]%ents_moved; [by left| |done]. right.
    apply ents_elem in Hin as (e & Hin & _ & Ho & <-). exists (JMoved old new (en_name e) (fl_seq (sy_files s))).
    split; [|done]. apply move_jobs. split; [done|]. by exists e.
Qed.

(** ** Collectors that come *)

Lemma add_relocated m s R e s' :
  sys_inv m s R → sy_next_id s < u64_max → en_id e = sy_next_id s → (∃ x, en_owner e = Named x ∧ fits x (en_name e)) →
  find_entry (en_owner e) (en_name e) (sy_entries s) = None →
  sy_entries s' = sy_entries s ++ [e] → sy_next_id s' = u64_add (sy_next_id s) 1 → sy_files s' = sy_files s →
  sy_disk s' = sy_disk s → sy_persist s' = sy_persist s →
  relocated s s' [JWrite KAdd (en_id e) (to_persisted e)].
Proof.
  intros H Hnext Hid (x & Ho & Hfit) Hnone E1 E2 E3 E4 E5. rewrite u64_add_small in E2 by lia.
  pose proof (iv_ents _ _ _ _ _ _ (si_inv _ _ _ H)) as He. pose proof He as [H1 H2 H3 H4 H5].
  assert (∀ id o n, (id, o, n) ∈ ents s' ↔ (id, o, n) ∈ ents s ∨ (id = en_id e ∧ o = en_owner e ∧ n = en_name e)) as Hents.
  { intros id o n. unfold ents. rewrite E1, fmap_app, elem_of_app. simpl. rewrite list_elem_of_singleton. unfold ent at 2.
    split; (intros [?|Heq]; [by left|right]); [by simplify_eq|by destruct Heq as (-> & -> & ->)]. }
  assert (∀ o n, (en_id e, o, n) ∈ ents s → False) as Hnew by (intros o n Hin%H1; lia).
  assert (∀ id, (id, en_owner e, en_name e) ∈ ents s → False) as Hfree
    by (intros id (e0 & Hin & _ & Ho0 & Hn0)%ents_elem; by eapply find_entry_None).
  split; rewrite ?E2; try done; try lia.
  - split; setoid_rewrite Hents.
    + intros id o n [Hin%H1|(-> & _)]; lia.
    + intros id o n [Hin|(_ & -> & _)]; [by eapply H2|by exists x].
    + intros id o n [Hin|(_ & -> & ->)]; [by eapply H3|by rewrite Ho].
    + intros id o1 n1 o2 n2 [A|(-> & -> & ->)] [B|(? & -> & ->)]; subst; try done; [by eapply H4| |]; by edestruct Hnew.
    + intros id1 id2 o n [A|(-> & -> & ->)] [B|(-> & ? & ?)]; subst; try done; [by eapply H5| |]; by edestruct Hfree.
  - intros j ->%list_elem_of_singleton. simpl. split_and!; [done| |done]. intros id f [= <- <-]. split; [lia|].
    intros o n [Hin|(_ & _ & ->)]%Hents; [by edestruct Hnew|done].
  - intros p since Hp%pend_one. done.
  - intros id o n [Hin|(-> & _)]%Hents Hlt; [by exists o|lia].
  - intros id o n Hin. left. apply Hents. by left.
  - intros id o n [Hin|(-> & -> & ->)]%Hents; [by left|]. right. exists (JWrite KAdd (en_id e) (to_persisted e)).
    split; [by apply list_elem_of_singleton|done].
Qed.

(** ** Every request *)

(** What the callers see to: a collector's owner is a named session
    ([handle_collectors_add]), a rename's target is free once a displaced holder
    is out; the names fit their file's name. *)
Definition call_ok (c : Call) (s : Sys) : Prop :=
  match c with
  | CAdd owner _ _ def _ => ∃ x, owner = Named x ∧ fits x (cd_name def)
  | CRename old new displaced =>
      old = new ∧ displaced = false ∨
      old ≠ new ∧ (∃ x, new = Named x ∧ ∀ id n, (id, old, n) ∈ ents s → fits x n) ∧
        (displaced = true ∨ ∀ id n, (id, new, n) ∉ ents s)
  | _ => True
  end.

Definition keeps (m : N) (s s' : Sys) : Prop :=
  sys_inv (m + 1) s' (jobs s') ∧ (sys_synced s (jobs s) → sys_synced s' (jobs s')).

Lemma relocated_keeps m s s' js :
  sys_inv m s (jobs s) → relocated s s' js → jobs s' ≡ₚ js ++ jobs s → keeps m s s'.
Proof.
  intros H Hr Hj. pose proof (rl_next _ _ _ Hr). pose proof (iv_bound _ _ _ _ _ _ (si_inv _ _ _ H)) as [_ Hb]. split.
  - eapply sys_inv_perm; [symmetry; exact Hj|]. eapply relocated_inv; [done|done|lia|lia].
  - intros Hs. eapply synced_perm; [symmetry; exact Hj|]. by eapply relocated_synced.
Qed.
Lemma quiet_keeps m s s' : sys_inv m s (jobs s) → quiet s s' → keeps m s s'.
Proof.
  intros H Hq. eapply relocated_keeps; [done|by eapply quiet_relocated|]. unfold jobs. simpl. by rewrite (q_threads _ _ Hq).
Qed.
Lemma spawn_jobs js s s0 : sy_threads s = sy_threads s0 → jobs (spawn js s) ≡ₚ js ++ jobs s0.
Proof. intros H. unfold jobs. simpl. rewrite H, concat_app. simpl. solve_Permutation. Qed.

Lemma add_keeps loss owner domain metrics def now m s :
  sys_inv m s (jobs s) → m + 2 ≤ u64_max → (∃ x, owner = Named x ∧ fits x (cd_name def)) →
  keeps m s (add loss owner domain metrics def now s).
Proof.
  intros H Hm Hfit. unfold add. case_bool_decide as Hdup; [by apply quiet_keeps|].
  destruct (over_budget _ _ _); [by apply quiet_keeps|]. pose proof (iv_bound _ _ _ _ _ _ (si_inv _ _ _ H)) as [_ Hb].
  set (e := mkCEntry (sy_next_id s) owner domain (collector_new def now) metrics (loss metrics) history_new None).
  apply relocated_keeps with [JWrite KAdd (en_id e) (to_persisted e)]; [done| |by apply spawn_jobs].
  eapply add_relocated; try done; [lia|]. simpl. change (en_name e) with (cd_name def).
  by apply eq_None_not_Some.
Qed.

Lemma edited_name c d d' : edited_def c d = Some d' → cd_name d' = cd_name d.
Proof. unfold edited_def. intros (f & _ & [= <-])%bind_Some. done. Qed.

Lemma edit_plan_spec budget owner name c es p :
  edit_plan budget owner name c es = inr p →
  ∃ e, e ∈ es ∧ pl_id p = en_id e ∧ cd_name (pl_def p) = en_name e ∧ pc_name (pl_file p) = en_name e.
Proof.
  unfold edit_plan. destruct (find_entry owner name es) as [e|] eqn:Hf; [|done].
  destruct (edited_def c (en_def e)) as [d|] eqn:Hd; [|done].
  destruct (if is_structural _ _ then _ else _) as [err|]; [done|]. destruct (_ && _ && _); [done|].
  intros [= <-]. exists e. apply find_entry_Some in Hf as (Hin & _). apply edited_name in Hd. by split_and!.
Qed.

Lemma edit_keeps owner name c metrics now m s :
  sys_inv m s (jobs s) → keeps m s (edit owner name c metrics now s).
Proof.
  intros H. unfold edit. destruct (edit_plan _ _ _ _ _) as [err|p] eqn:Hp; [by apply quiet_keeps|].
  apply edit_plan_spec in Hp as (e & Hin & Hid & Hd & Hf). pose proof (iv_ents _ _ _ _ _ _ (si_inv _ _ _ H)) as He.
  assert (∀ f, pc_name f = en_name e → write_ok (ents s) (sy_next_id s) (pl_id p) f) as Hw
    by (intros f Hn; rewrite Hid; by apply entry_write_ok).
  eapply relocated_keeps; [done| |by apply spawn_jobs]. eapply stay_relocated; try done.
  intros j ->%list_elem_of_singleton. simpl. split_and!; [done|done| |].
  - intros id f [= <- <-]. by apply Hw.
  - intros p0 [= <-]. destruct (Hw (pl_file p) Hf) as [Hlt Hname]. split; [done|]. intros o n Hin'. rewrite (Hname o n Hin'). congruence.
Qed.

Lemma reset_keeps loss owner name now m s : sys_inv m s (jobs s) → keeps m s (reset loss owner name now s).
Proof.
  intros H. unfold reset. destruct (find_entry owner name (sy_entries s)) as [e|]; [|by apply quiet_keeps].
  apply quiet_keeps; [done|]. eapply quiet_trans; [|apply quiet_reply].
  eapply quiet_upd; [exact (iv_ents _ _ _ _ _ _ (si_inv _ _ _ H))|done].
Qed.

Lemma reserve_label_quiet loss project rq e snap e' :
  snapshot_take loss project rq e = Some (inr snap, e') → ent e' = ent e.
Proof.
  unfold snapshot_take. case_match; [done|]. intros ([r h] & _ & Hr)%bind_Some. destruct r; [done|].
  destruct (rq_reset rq); simplify_eq/=; done.
Qed.

Lemma snapshot_keeps loss project owner rq m s s' :
  sys_inv m s (jobs s) → snapshot loss project owner rq s = Some s' → keeps m s s'.
Proof.
  intros H. unfold snapshot. destruct (find_entry owner (rq_name rq) (sy_entries s)) as [e|] eqn:Hf;
    [|intros [= <-]; by apply quiet_keeps].
  intros ([r e'] & Ht & Hr)%bind_Some. destruct r as [err|snap]; injection Hr as <-; [by apply quiet_keeps|].
  apply reserve_label_quiet in Ht. apply find_entry_Some in Hf as (Hin & _).
  eapply relocated_keeps; [done| |by apply spawn_jobs]. eapply stay_relocated; try done.
  - eapply (replace_entry_ents _ e e' s); [exact (iv_ents _ _ _ _ _ _ (si_inv _ _ _ H))|done|done].
  - by intros j ->%list_elem_of_singleton.
Qed.

Lemma lfilter_none {A} (p : A → bool) l : existsb p l = false → List.filter (λ x, negb (p x)) l = l.
Proof. induction l as [|x l IH]; [done|]. simpl. intros [-> Hl]%orb_false_iff. simpl. by rewrite IH. Qed.

Lemma remove_keeps owner name m s : sys_inv m s (jobs s) → keeps m s (remove owner name s).
Proof.
  intros H. unfold remove. destruct (Nat.eqb_spec (length (List.filter (λ e, negb (owned_by owner e && String.eqb (en_name e) name)) (sy_entries s)))
    (length (sy_entries s))) as [|Hlen]; [by apply quiet_keeps|].
  eapply relocated_keeps; [done| |by apply spawn_jobs].
  apply gone_relocated with m (λ e, owned_by owner e && String.eqb (en_name e) name) (jobs s); try done.
  - intros e e' Ho Hn. unfold owned_by. by rewrite Ho, Hn.
  - intros e Hin [Ho%bool_decide_eq_true Hn%String.eqb_eq]%andb_true_iff. rewrite Ho, Hn. by apply list_elem_of_singleton.
  - intros j ->%list_elem_of_singleton. destruct (List.existsb (λ e, owned_by owner e && String.eqb (en_name e) name) (sy_entries s)) eqn:Hx.
    + apply List.existsb_exists in Hx as (e & Hin%list_elem_of_In & Hg). exists e. split; [done|]. split; [done|].
      by apply andb_true_iff in Hg as [->%bool_decide_eq_true ->%String.eqb_eq].
    + destruct Hlen. by rewrite lfilter_none.
Qed.

Lemma detach_relocated m s owner R :
  sys_inv m s R → relocated s (detach_session owner s).2 (pf_unlink (detach_session owner s).1).
Proof.
  intros H. apply gone_relocated with m (owned_by owner) R; try done.
  - intros e e' Ho _. unfold owned_by. by rewrite Ho.
  - intros e Hin Ho. simpl. apply list_elem_of_fmap. exists e. apply bool_decide_eq_true in Ho as Ho'. subst owner.
    split; [done|]. by apply elem_of_lfilter.
  - intros j. simpl. rewrite list_elem_of_fmap. intros (e & -> & [Ho Hin]%elem_of_lfilter). exists e.
    split_and!; [done|done|]. by apply bool_decide_eq_true in Ho as ->.
Qed.

Lemma drop_keeps owner m s : sys_inv m s (jobs s) → keeps m s (drop_session owner s).
Proof.
  intros H. pose proof (detach_relocated m s owner (jobs s) H) as []. eapply relocated_keeps; [exact H|by split|by apply spawn_jobs].
Qed.

(** After the displaced holder's collectors, the renamer's. *)
Lemma detached_free m s new R : sys_inv m s R → ∀ id n, (id, new, n) ∉ ents (detach_session new s).2.
Proof.
  intros _ id n (e & Hin & _ & Ho & _)%ents_elem. simpl in Hin. apply elem_of_lfilter in Hin as [Hb _].
  unfold owned_by in Hb. by rewrite bool_decide_eq_true_2 in Hb.
Qed.
Lemma detached_sub new s id o n : (id, o, n) ∈ ents (detach_session new s).2 → (id, o, n) ∈ ents s.
Proof. intros (e & Hin & <- & <- & <-)%ents_elem. simpl in Hin. apply elem_of_lfilter in Hin as [_ Hin]. by apply elem_of_ents. Qed.

Lemma relocated_twice m s s1 s' js1 js2 :
  sys_inv m s (jobs s) → relocated s s1 js1 → relocated s1 s' js2 → sy_next_id s' ≤ sy_next_id s + 1 →
  jobs s' ≡ₚ js2 ++ js1 ++ jobs s → keeps m s s'.
Proof.
  intros H R1 R2 Hn Hj. pose proof (rl_next _ _ _ R1) as Hn1. pose proof (rl_next _ _ _ R2) as Hn2.
  pose proof (iv_bound _ _ _ _ _ _ (si_inv _ _ _ H)) as [_ Hb].
  assert (sys_inv (m + 1) s1 (js1 ++ jobs s)) as H1 by (eapply relocated_inv; [done|done|lia|lia]). split.
  - eapply sys_inv_perm; [symmetry; exact Hj|]. eapply relocated_inv; [exact H1|done|lia|lia].
  - intros Hs. eapply synced_perm; [symmetry; exact Hj|]. eapply relocated_synced; [exact H1|done|]. by eapply relocated_synced.
Qed.

Lemma move_nothing_to_unlink old new s : pf_unlink (move_owner old new s).1 = [].
Proof. unfold move_owner. by case_bool_decide. Qed.

Lemma rename_keeps old new displaced m s :
  sys_inv m s (jobs s) → call_ok (CRename old new displaced) s → keeps m s (rename_session old new displaced s).
Proof.
  intros H Hok. set (p1 := if displaced then detach_session new s else (mkPending [] [], s)).
  set (p2 := move_owner old new p1.2).
  assert (rename_session old new displaced s = finish (absorb p1.1 p2.1) (reply (RMoved (length (pf_moved p2.1))) p2.2)) as ->.
  { unfold rename_session. fold p1. unfold p2. destruct p1 as [q1 s1]. simpl. by destruct (move_owner old new s1). }
  assert (relocated s p1.2 (pf_unlink p1.1) ∧ pf_moved p1.1 = [] ∧ sy_threads p1.2 = sy_threads s ∧ sy_next_id p1.2 = sy_next_id s)
    as (R1 & Hm1 & Ht & Hn).
  { unfold p1. destruct displaced; split_and!; try done; [by eapply detach_relocated|by eapply quiet_relocated]. }
  assert (old = new ∨ may_move (ents p1.2) old new) as Hmay.
  { destruct Hok as [[? _]|(Hne & (x & Hx & Hfits) & Hfree)]; [by left|]. right. unfold p1. split.
    - exists x. split; [done|]. intros id n Hin. apply (Hfits id). destruct displaced; [by apply detached_sub in Hin|done].
    - destruct displaced; [by eapply detached_free|by destruct Hfree]. }
  pose proof (relocated_inv _ (m + 1) _ _ _ _ H R1 ltac:(lia)) as H1.
  pose proof (iv_bound _ _ _ _ _ _ (si_inv _ _ _ H)) as [_ Hb]. specialize (H1 ltac:(lia)).
  pose proof (move_relocated _ _ _ _ _ H1 Hmay) as R2. fold p2 in R2.
  assert (sy_threads p2.2 = sy_threads s ∧ sy_next_id p2.2 = sy_next_id s) as [Ht2 Hn2]
    by (unfold p2, move_owner; case_bool_decide; simpl; by rewrite ?Ht, ?Hn).
  eapply relocated_twice; [exact H|exact R1| | |].
  - destruct R2. split; done.
  - simpl. lia.
  - unfold finish. erewrite spawn_jobs by exact Ht2. unfold absorb. simpl. rewrite Hm1. simpl.
    unfold p2 at 2. rewrite move_nothing_to_unlink, app_nil_r. solve_Permutation.
Qed.

Lemma ingest_keeps domain sp m s : sys_inv m s (jobs s) → keeps m s (ingest_span domain sp s).
Proof.
  intros H. apply quiet_keeps; [done|]. split; try done. unfold ents, ingest_span. simpl. rewrite <-list_fmap_compose.
  apply list_fmap_ext. intros i e _. simpl. by destruct (_ && _).
Qed.

Lemma call_keeps loss c m s s' :
  sys_inv m s (jobs s) → m + 2 ≤ u64_max → call_ok c s → do_call loss c s = Some s' → keeps m s s'.
Proof.
  intros H Hm Hok. destruct c; cbn [do_call]; try (intros [= <-]).
  - by apply add_keeps.
  - by apply edit_keeps.
  - by apply reset_keeps.
  - by apply snapshot_keeps.
  - by apply remove_keeps.
  - by apply rename_keeps.
  - by apply drop_keeps.
  - by apply ingest_keeps.
Qed.

(** ** Whole runs *)

Definition act_ok (a : Action) (s : Sys) : Prop := match a with ACall c _ => call_ok c s | ATurn _ _ _ => True end.
(** The disk refuses nothing. *)
Definition io_ok (a : Action) : Prop := match a with ACall _ _ => True | ATurn _ ok _ => ok = true end.
Fixpoint runs_ok (acts : list Action) (s : Sys) : Prop :=
  match acts with
  | [] => True
  | a :: acts => act_ok a s ∧ ∀ s', act a s = Some s' → runs_ok acts s'
  end.

Lemma act_keeps a m s s' :
  sys_inv m s (jobs s) → m + 2 ≤ u64_max → act_ok a s → act a s = Some s' →
  sys_inv (m + 1) s' (jobs s') ∧ (io_ok a → sys_synced s (jobs s) → sys_synced s' (jobs s')).
Proof.
  intros H Hm Hok Ha. destruct a as [c loss|i ok loss]; simpl in *.
  - destruct (call_keeps _ _ _ _ _ H Hm Hok Ha) as [? Hs]. by split.
  - by destruct (turn_kept _ _ _ _ _ _ H ltac:(lia) Ha) as (? & Hs & _).
Qed.

Lemma run_keeps acts m s s' :
  sys_inv m s (jobs s) → runs_ok acts s → m + N.of_nat (length acts) + 1 ≤ u64_max → act_all acts s = Some s' →
  sys_inv (m + N.of_nat (length acts)) s' (jobs s') ∧
  (Forall io_ok acts → sys_synced s (jobs s) → sys_synced s' (jobs s')).
Proof.
  revert m s. induction acts as [|a acts IH]; intros m s H Hok Hm Ha.
  { injection Ha as <-. by rewrite N.add_0_r. }
  destruct Hok as (Hact & Hrest). simpl in Ha. apply bind_Some in Ha as (s1 & Ha & Hr). simpl in Hm.
  destruct (act_keeps _ _ _ _ H ltac:(lia) Hact Ha) as [H1 Hs1].
  destruct (IH (m + 1) s1 H1 (Hrest _ Ha) ltac:(lia) Hr) as [H2 Hs2]. split.
  - replace (m + N.of_nat (length (a :: acts))) with (m + 1 + N.of_nat (length acts)) by (simpl; lia). done.
  - intros [Hio Hios]%Forall_cons Hs. by apply Hs2, Hs1.
Qed.

Lemma start_inv budget : sys_inv 1 (sys_new budget true) [] ∧ sys_synced (sys_new budget true) [].
Proof.
  assert (∀ x : Ent, x ∉ ents (sys_new budget true)) as Hno by by intros x ?%elem_of_nil.
  split; [split; [done| |by intros j p ?%elem_of_nil]|]; split; simpl; try done; try lia; try (by intros ? ? ? ?%elem_of_nil).
  - split; try (intros ? ? ? Hx; by destruct (Hno _ Hx)); [intros ? ? ? ? ? Hx|intros ? ? ? ? Hx]; by destruct (Hno _ Hx).
  - by intros ? ? ?%pend_nil.
  - intros ? ? ? ? ? Hx. by apply elem_of_nil in Hx.
Qed.

(** A run on a disk that refuses nothing, with no work left; a counter's bound
    is far away. *)
Record settled (budget : N) (acts : list Action) (s : Sys) : Prop := {
  st_ok : runs_ok acts (sys_new budget true);
  st_io : Forall io_ok acts;
  st_len : N.of_nat (length acts) < u64_max - 1;
  st_run : act_all acts (sys_new budget true) = Some s;
  st_done : jobs s = [];
}.

Lemma settled_ents budget acts s : settled budget acts s → ents_ok (ents s) (sy_next_id s).
Proof.
  intros [Hok _ Hlen Ha _]. destruct (run_keeps acts 1 _ s (proj1 (start_inv budget)) Hok ltac:(lia) Ha) as [Hi _].
  exact (iv_ents _ _ _ _ _ _ (si_inv _ _ _ Hi)).
Qed.

(** A path's file was written from a collector exactly when that collector is
    live and the path is its own. *)
Lemma files_match budget acts s p id :
  settled budget acts s →
  (∃ st f, sy_disk s !! p = Some (id, st, f)) ↔
  ∃ e, e ∈ sy_entries s ∧ en_id e = id ∧ owner_path (en_owner e) (en_name e) = p.
Proof.
  intros [Hok Hio Hlen Ha Hdone]. destruct (start_inv budget) as [Hi Hs].
  destruct (run_keeps acts 1 _ s Hi Hok ltac:(lia) Ha) as [_ Hsy]. destruct (Hsy Hio Hs) as [Hd _ Hk]. rewrite Hdone in Hd, Hk. split.
  - intros (st & f & Hp). destruct (Hd _ _ _ _ Hp) as [(o & n & He & <-)|(since & _ & Hps)]; [|by apply pend_nil in Hps].
    apply ents_elem in He as (e & Hin & Hid & <- & <-). by exists e.
  - intros (e & Hin & <- & <-). destruct (Hk _ _ _ (elem_of_ents _ _ Hin)) as [(j & Hj & _)|(st & f & Hp & _)].
    + by apply elem_of_nil in Hj.
    + by exists st, f.
Qed.

(** A run's conditions, decided. *)
Definition fitsb (owner name : string) : bool := (full_len owner name <=? MAX_FULL_NAME)%nat.
Definition call_okb (c : Call) (s : Sys) : bool :=
  match c with
  | CAdd (Named x) _ _ def _ => fitsb x (cd_name def)
  | CAdd _ _ _ _ _ => false
  | CRename old (Named x) displaced =>
      bool_decide (old ≠ Named x) &&
      forallb (λ e, negb (owned_by old e) || fitsb x (en_name e)) (sy_entries s) &&
      (displaced || forallb (λ e, negb (owned_by (Named x) e)) (sy_entries s))
  | CRename _ _ _ => false
  | _ => true
  end.
Fixpoint runs_okb (acts : list Action) (s : Sys) : bool :=
  match acts with
  | [] => true
  | a :: acts =>
      match a with ACall c _ => call_okb c s | ATurn _ _ _ => true end &&
      match act a s with Some s' => runs_okb acts s' | None => true end
  end.

Lemma call_okb_spec c s : call_okb c s = true → call_ok c s.
Proof.
  assert (∀ x n, fitsb x n = true → fits x n) as Hfit by by intros x n ?%Nat.leb_le.
  destruct c as [[| x]| | | | |old [|x] displaced| |]; try done; simpl.
  - intros Hf. exists x. by auto.
  - intros [[Hne%bool_decide_eq_true Hf]%andb_true_iff Hd]%andb_true_iff. right. split; [done|].
    rewrite !forallb_forall in Hf. split.
    + exists x. split; [done|]. intros id n (e & Hin & _ & Ho & <-)%ents_elem. apply list_elem_of_In, Hf in Hin.
      unfold owned_by in Hin. rewrite bool_decide_eq_true_2 in Hin by done. by apply Hfit.
    + apply orb_true_iff in Hd as [->|Hd]; [by left|]. right. rewrite forallb_forall in Hd.
      intros id n (e & Hin & _ & Ho & _)%ents_elem. apply list_elem_of_In, Hd in Hin.
      unfold owned_by in Hin. by rewrite bool_decide_eq_true_2 in Hin.
Qed.
Lemma runs_okb_spec acts s : runs_okb acts s = true → runs_ok acts s.
Proof.
  revert s. induction acts as [|a acts IH]; intros s; [done|]. simpl. intros [Ha Hr]%andb_true_iff. split.
  - destruct a; [by apply call_okb_spec|done].
  - intros s' E. rewrite E in Hr. by apply IH.
Qed.
End files.
