(* ===== verification/CollRegProgress.v ===== *)
(** * CollRegProgress: the registry's file work always ends

    A job waits only for a path's lock, and whoever holds one is running. *)

From S2P Require Import Prelude Text F64 Gelf Filter Matcher Session Measure Threshold Collector CollectorSamples CollectorSpec History Persist PersistSpec CollReg CollRegSpec CollRegRuns CollRegFiles.

Set Default Proof Using "Type".

Section progress.
Context {X : Externals} {SK : SketchCrate} {J : JsonScalars}.

(** ** How much is left *)

Definition cont_work (k : Cont) : nat := match k with KAdd => 0 | KEdit _ _ _ _ _ => 1 | KSnap => 1 | KMoved _ _ _ => 2 end.
Definition job_work (j : Job) : nat :=
  match j with
  | JSnapFile _ _ => 5
  | JSnapCheck _ | JEditApply _ _ _ _ _ | JUnlinkLock _ _ _ _ => 1
  | JWrite k _ _ => 3 + cont_work k
  | JWriteLock k _ _ _ => 2 + cont_work k
  | JSave k _ _ _ _ => 1 + cont_work k
  | JMoved _ _ _ _ => 6
  | JUnlink _ _ _ => 2
  end.
Definition jobs_work (js : list Job) : nat := sum_list_with job_work js.
Definition work (s : Sys) : nat := jobs_work (jobs s).

Lemma jobs_work_perm js1 js2 : js1 ≡ₚ js2 → jobs_work js1 = jobs_work js2.
Proof. unfold jobs_work. induction 1; simpl; lia. Qed.

Lemma continue_work k id r s : jobs_work (continue k id r s).1 ≤ cont_work k ∧ length (continue k id r s).1 ≤ 1.
Proof. destruct k, r; simpl; lia. Qed.
Lemma continue_threads k id r s : sy_threads (continue k id r s).2 = sy_threads s.
Proof. by destruct k, r. Qed.

Lemma step_work loss ok j s js s' :
  job_step loss ok j s = Some (js, s') → jobs_work js < job_work j ∧ length js ≤ 1 ∧ sy_threads s' = sy_threads s.
Proof.
  destruct j; unfold job_step; intros H; repeat case_match; simplify_eq; simpl; try (split_and!; (done || lia));
    match goal with
    | H : continue ?k ?id ?r ?s = _ |- _ =>
        pose proof (continue_work k id r s) as [? ?]; pose proof (continue_threads k id r s); rewrite H in *; simpl in *
    end; split_and!; try lia; done.
Qed.

Lemma turn_work loss ok i s s' : turn loss ok i s = Some s' → work s' < work s.
Proof.
  unfold turn. destruct (sy_threads s !! i) as [[|j rest]|] eqn:Ht; try done.
  destruct (concat_turn _ _ _ _ Ht) as (R & Hp & Hjs). destruct (job_step loss ok j s) as [[js s1]|] eqn:Hs; [|done].
  intros [= <-]. apply step_work in Hs as (Hw & _ & Hth). unfold work, jobs at 1. simpl. rewrite Hth.
  rewrite (jobs_work_perm _ _ (Hjs js)). unfold jobs. rewrite (jobs_work_perm _ _ Hp).
  unfold jobs_work in *. rewrite sum_list_with_app. simpl. lia.
Qed.

(** ** Only a thread's head holds a lock *)

Definition heads_ok (ts : list (list Job)) : Prop := ∀ t j, t ∈ ts → j ∈ tail t → jlock j = None.

Lemma turn_heads loss ok i s s' : turn loss ok i s = Some s' → heads_ok (sy_threads s) → heads_ok (sy_threads s').
Proof.
  unfold turn. destruct (sy_threads s !! i) as [[|j rest]|] eqn:Ht; try done.
  destruct (job_step loss ok j s) as [[js s1]|] eqn:Hs; [|done].
  intros [= <-] H. apply step_work in Hs as (_ & Hlen & Hth). intros t j' Hin Hj'. simpl in Hin. rewrite Hth in Hin.
  apply list_elem_of_lookup in Hin as [k Hk]. apply list_lookup_insert_Some in Hk as [(<- & <- & _)|[_ Hk]].
  - apply (H (j :: rest)); [by eapply list_elem_of_lookup_2|]. destruct js as [|j1 [|]]; simpl in *; [|done|lia].
    destruct rest; [by apply elem_of_nil in Hj'|by right].
  - apply (H t); [by eapply list_elem_of_lookup_2|done].
Qed.

Lemma call_spawns loss c s s' :
  do_call loss c s = Some s' →
  sy_threads s' = sy_threads s ∨ ∃ js, sy_threads s' = sy_threads s ++ [js] ∧ ∀ j, j ∈ js → jlock j = None.
Proof.
  assert (∀ j : Job, jlock j = None → ∀ j', j' ∈ [j] → jlock j' = None) as Hone by (by intros j Hj j' ->%list_elem_of_singleton).
  destruct c; simpl.
  - intros [= <-]. unfold add. case_match; [by left|]. case_match; [by left|right]. eexists. split; [done|by apply Hone].
  - intros [= <-]. unfold CollReg.edit. case_match; [by left|right]. eexists. split; [done|by apply Hone].
  - intros [= <-]. unfold CollReg.reset. case_match; by left.
  - unfold CollReg.snapshot. case_match; [|intros [= <-]; by left]. intros ([r e'] & _ & Hr)%bind_Some.
    destruct r; injection Hr as <-; [by left|right]. eexists. split; [done|by apply Hone].
  - intros [= <-]. unfold remove. case_match; [by left|right]. eexists. split; [done|by apply Hone].
  - intros [= <-]. right. unfold rename_session, move_owner.
    destruct displaced; simpl; case_bool_decide; simpl; eexists; (split; [done|]).
    all: intros j; rewrite ?app_nil_r, ?elem_of_app, ?elem_of_nil, ?list_elem_of_fmap; naive_solver.
  - intros [= <-]. right. eexists. split; [done|]. simpl. intros j. rewrite list_elem_of_fmap. naive_solver.
  - intros [= <-]. by left.
Qed.

Lemma act_heads a s s' : act a s = Some s' → heads_ok (sy_threads s) → heads_ok (sy_threads s').
Proof.
  destruct a as [c loss|i ok loss]; simpl; [|by apply turn_heads]. intros [->|(js & -> & Hjs)]%call_spawns H; [done|].
  intros t j [Hin| ->%list_elem_of_singleton]%elem_of_app Hj; [by eapply H|]. apply Hjs. destruct js; [by apply elem_of_nil in Hj|by right].
Qed.
Lemma run_heads acts s s' : act_all acts s = Some s' → heads_ok (sy_threads s) → heads_ok (sy_threads s').
Proof.
  revert s. induction acts as [|a acts IH]; simpl; [by intros s [= <-]|]. intros s (s1 & Ha & Hr)%bind_Some H.
  apply (IH s1); [done|by eapply act_heads].
Qed.

(** ** Somebody can run *)

Lemma elem_of_jobs j s : j ∈ jobs s ↔ ∃ i t, sy_threads s !! i = Some t ∧ j ∈ t.
Proof.
  unfold jobs. rewrite list_elem_of_In, List.in_concat. split.
  - intros (t & Ht%list_elem_of_In & Hj%list_elem_of_In). apply list_elem_of_lookup in Ht as [i Hi]. by exists i, t.
  - intros (i & t & Hi & Hj). exists t. split; apply list_elem_of_In; [by eapply list_elem_of_lookup_2|done].
Qed.


Lemma free_head loss ok j s : (∀ l, job_lock j = Some l → jsave j = None → l ∉ fl_held (sy_files s)) → is_Some (job_step loss ok j s).
Proof.
  intros H. destruct j; simpl; repeat case_match; try done; try by eexists.
  all: match goal with H : bool_decide _ = true |- _ => apply bool_decide_eq_true in H end; by edestruct H.
Qed.

Lemma save_runs loss ok j l st s : jsave j = Some (l, st) → is_Some (job_step loss ok j s).
Proof. intros Hj. apply free_head. intros l' _ Hn. congruence. Qed.

Lemma progress m s loss ok :
  sys_inv m s (jobs s) → heads_ok (sy_threads s) → jobs s ≠ [] → ∃ i s', turn loss ok i s = Some s'.
Proof.
  intros H Hh Hne.
  assert (∀ i j rest, sy_threads s !! i = Some (j :: rest) → is_Some (job_step loss ok j s) → ∃ i s', turn loss ok i s = Some s') as Hrun.
  { intros i j rest Hi [[js s1] Hs]. exists i. unfold turn. rewrite Hi, Hs. by eexists. }
  destruct (decide (Exists (λ j, is_Some (jsave j)) (jobs s))) as [Hsave|Hnone].
  - apply Exists_exists in Hsave as (j & (i & t & Hi & Hjt)%elem_of_jobs & [[l st] Hj]).
    destruct t as [|j0 rest]; [by apply elem_of_nil in Hjt|].
    apply elem_of_cons in Hjt as [->|Hin]; [by eapply Hrun, save_runs|].
    pose proof (jlock_jsave _ _ _ Hj) as [p Hp]. by rewrite (Hh (j0 :: rest) j ltac:(by eapply list_elem_of_lookup_2) Hin) in Hp.
  - destruct (jobs s) as [|j R] eqn:Hjobs; [done|]. assert (j ∈ jobs s) as (i & t & Hi & Hjt)%elem_of_jobs by (rewrite Hjobs; by left).
    destruct t as [|j0 rest]; [by apply elem_of_nil in Hjt|].
    eapply Hrun; [done|]. apply free_head. intros l _ _ Hheld. pose proof (iv_held _ _ _ _ _ _ (si_inv _ _ _ H) l) as Hs.
    rewrite bool_decide_eq_true_2 in Hs by done. apply Hnone. unfold saves in Hs.
    destruct (List.filter (holds_lock l) (j :: R)) as [|j' l'] eqn:Hf; [done|].
    assert (j' ∈ List.filter (holds_lock l) (j :: R)) as [Hb Hin]%elem_of_lfilter by (rewrite Hf; by left).
    apply Exists_exists. exists j'. split; [done|]. unfold holds_lock in Hb. by destruct (jsave j').
Qed.

(** Turns, a thread each. *)
Definition turns (loss : N → TraceIngestLoss) (ok : bool) (sched : list nat) : list Action := (λ i, ATurn i ok loss) <$> sched.

Lemma turns_bound loss ok sched s s' : act_all (turns loss ok sched) s = Some s' → length sched + work s' ≤ work s.
Proof.
  revert s. induction sched as [|i sched IH]; simpl; intros s; [intros [= <-]; lia|].
  intros (s1 & Ht%turn_work & Hr%IH)%bind_Some. lia.
Qed.

Lemma drain n m s loss ok :
  work s ≤ n → sys_inv m s (jobs s) → heads_ok (sy_threads s) → (m + N.of_nat n ≤ u64_max)%N →
  ∃ sched s', act_all (turns loss ok sched) s = Some s' ∧ jobs s' = [].
Proof.
  revert m s. induction n as [|n IH]; intros m s Hw H Hh Hm; (destruct (decide (jobs s = [])) as [Hj|Hj]; [by exists [], s|]);
    destruct (progress _ _ loss ok H Hh Hj) as (i & s1 & Ht); pose proof (turn_work _ _ _ _ _ Ht) as Hlt; [lia|].
  destruct (turn_kept _ _ _ _ _ _ H ltac:(lia) Ht) as (H1 & _ & _).
  destruct (IH (m + 1)%N s1 ltac:(lia) H1 ltac:(by eapply turn_heads) ltac:(lia)) as (sched & s' & Hr & Hdone).
  exists (i :: sched), s'. split; [|done]. unfold turns in *. simpl. by rewrite Ht.
Qed.

(** C33: the file work that requests leave always ends. After any requests and any
    turns, whatever the disk refused: no schedule of turns is longer than
    [work s], so no job runs for ever; and a schedule that leaves no job exists,
    since no lock is held by a job that waits for another and so some thread can
    always take a turn. *)
Theorem file_work_ends budget acts s loss ok :
  runs_ok acts (sys_new budget true) → act_all acts (sys_new budget true) = Some s →
  (N.of_nat (length acts + work s) < u64_max - 1)%N →
  (∀ sched s', act_all (turns loss ok sched) s = Some s' → length sched ≤ work s) ∧
  ∃ sched s', act_all (turns loss ok sched) s = Some s' ∧ jobs s' = [].
Proof.
  intros Hok Ha Hm. split; [intros sched s' Hr%turns_bound; lia|].
  destruct (run_keeps acts 1 _ s (proj1 (start_inv budget)) Hok ltac:(lia) Ha) as [H _].
  eapply drain; [done|exact H| |lia]. eapply run_heads; [done|]. by intros t j Ht%elem_of_nil.
Qed.
End progress.

(** ** Two collectors armed, their session renamed, one removed *)

Definition no_loss : N → TraceIngestLoss := λ _, loss_default.
Definition sample_other : CollectorDef := mkDef "other" "ALL" FAll Timing [] 1024 None None.
Definition sample_acts : list Action :=
  [ACall (CAdd (Named "a") "default" 0 (sample_def Tree) 5) no_loss;
   ACall (CAdd (Named "a") "default" 0 sample_other 6) no_loss;
   ATurn 0 true no_loss; ATurn 1 true no_loss; ATurn 1 true no_loss; ATurn 0 true no_loss;
   ACall (CRename (Named "a") (Named "b") true) no_loss;
   ATurn 0 true no_loss; ATurn 2 true no_loss; ATurn 2 true no_loss;
   ACall (CRemove (Named "b") "other") no_loss;
   ATurn 3 true no_loss; ATurn 3 true no_loss;
   ATurn 1 true no_loss; ATurn 2 true no_loss; ATurn 2 true no_loss; ATurn 2 true no_loss; ATurn 2 true no_loss;
   ATurn 2 true no_loss; ATurn 2 true no_loss; ATurn 2 true no_loss].

(** In the middle of it all: one thread under a lock, others waiting. *)
Definition sample_mid : Sys := default (sys_new 4096 true) (act_all (take 11 sample_acts) (sys_new 4096 true)).

Lemma file_work_ends_witness :
  (length (sy_threads sample_mid), work sample_mid) = (4, 13) ∧
  ∃ sched s', act_all (turns no_loss false sched) sample_mid = Some s' ∧ jobs s' = [].
Proof.
  split; [vm_compute; reflexivity|].
  assert (act_all (take 11 sample_acts) (sys_new 4096 true) = Some sample_mid) as Hrun.
  { unfold sample_mid. assert (bool_decide (is_Some (act_all (take 11 sample_acts) (sys_new 4096 true))) = true) as H by (vm_compute; reflexivity).
    apply bool_decide_eq_true in H as [s ->]. done. }
  apply (file_work_ends 4096 (take 11 sample_acts) sample_mid no_loss false); [|exact Hrun|].
  - apply runs_okb_spec. vm_compute. reflexivity.
  - vm_compute. reflexivity.
Defined.
