(* ===== verification/CollRegRestart.v ===== *)
(** * CollRegRestart: a restart brings back the collectors that were armed, and only those *)

From S2P Require Import Prelude Text F64 Gelf Filter Matcher Session Measure MeasureSpec Threshold Collector CollectorSamples CollectorSpec History Persist PersistSpec CollReg CollRegSpec CollRegRuns CollRegFiles CollRegProgress.
From Stdlib Require Import SpecFloat.

Set Default Proof Using "Type".
Local Open Scope N_scope.

Section restart.
Context {X : Externals} {SK : SketchCrate} {J : JsonScalars}.

(** ** Files that a boot can read *)

(** What [collectors.add] and [collectors.edit] accept: a filter that parses,
    with no bookmark in it, and a valid domain. *)
Definition good_def (def : CollectorDef) (domain : DomainId) : Prop :=
  parse_filter (cd_filter_string def) = inr (cd_filter def) ∧ contains_bookmark_qualifier (cd_filter def) = false ∧
  is_valid_name domain = true.
Definition bootable (f : PersistedCollector) : Prop :=
  pc_version f = FORMAT_VERSION ∧ is_Some (level_from_str (pc_level f)) ∧
  (∃ flt, parse_filter (pc_filter f) = inr flt ∧ contains_bookmark_qualifier flt = false) ∧ is_valid_name (pc_domain f) = true.

Lemma persisted_bootable def domain e : good_def def domain → bootable (persisted_with def domain e).
Proof.
  intros (H1 & H2 & H3). split_and!; [done| |by exists (cd_filter def)|done].
  cbn [pc_level persisted_with]. rewrite level_roundtrip. by eexists.
Qed.
Lemma bootable_entry loss metrics_for now id f :
  bootable f → ∃ e, entry_from_file loss metrics_for now id f = Some e ∧ en_owner e = Named (pc_owner f) ∧ en_name e = pc_name f.
Proof.
  intros (_ & [level Hl] & (flt & Hp & Hb) & Hd). unfold entry_from_file. rewrite Hl. cbn -[parse_filter restore_history].
  rewrite Hp. cbn -[restore_history]. rewrite Hb, Hd. cbn -[restore_history]. eexists. split; [done|by split].
Qed.

Definition job_good (j : Job) : Prop :=
  (∀ id f, jwrite j = Some (id, f) → bootable f) ∧ (∀ p, jplan j = Some p → good_def (pl_def p) (pl_domain p)).
Record all_good (s : Sys) : Prop := {
  ag_entries e : e ∈ sy_entries s → good_def (en_def e) (en_domain e);
  ag_jobs j : j ∈ jobs s → job_good j;
  ag_disk p id st f : sy_disk s !! p = Some (id, st, f) → file_path f = p ∧ bootable f;
}.

Lemma all_good_reply r s : all_good s → all_good (reply r s).
Proof. by intros []; split. Qed.
Lemma all_good_upd_entry id f s :
  all_good s → (∀ e, e ∈ sy_entries s → en_id e = id → good_def (en_def (f e)) (en_domain (f e))) → all_good (upd_entry id f s).
Proof.
  intros [H1 H2 H3] Hf. split; try done. intros e' (e & -> & He)%list_elem_of_fmap.
  destruct (N.eqb_spec (en_id e) id); [by apply Hf|by apply H1].
Qed.
Lemma all_good_entries es s :
  all_good s → (∀ e, e ∈ es → good_def (en_def e) (en_domain e)) → all_good (upd_entries es s).
Proof. by intros [H1 H2 H3] He; split. Qed.
Lemma all_good_spawn js s : all_good s → (∀ j, j ∈ js → job_good j) → all_good (spawn js s).
Proof.
  intros [H1 H2 H3] Hj. split; try done. intros j. unfold jobs. simpl. rewrite concat_app. simpl. rewrite app_nil_r.
  intros [?|?]%elem_of_app; [by apply H2|by apply Hj].
Qed.
Lemma all_good_files fl s : all_good s → all_good (upd_files fl s).
Proof. by intros []; split. Qed.

(** Jobs that carry no write. *)
Lemma idle_good j : jwrite j = None → jplan j = None → job_good j.
Proof. intros H1 H2. split; congruence. Qed.
#[local] Hint Resolve idle_good all_good_reply all_good_files : core.

(** ** What the callers see to *)

Definition call_sane (c : Call) : Prop :=
  match c with
  | CAdd _ domain _ def _ => good_def def domain
  | CEdit _ _ c _ _ =>
      (∀ f flt, ed_filter c = Some f → parse_filter f = inr flt → contains_bookmark_qualifier flt = false) ∧
      (∀ d, ed_domain c = Some d → is_valid_name d = true)
  | _ => True
  end.

Lemma edited_good c d domain d' :
  (∀ f flt, ed_filter c = Some f → parse_filter f = inr flt → contains_bookmark_qualifier flt = false) →
  (∀ d, ed_domain c = Some d → is_valid_name d = true) → good_def d domain → edited_def c d = Some d' →
  good_def d' (default domain (ed_domain c)).
Proof.
  intros Hf Hd (H1 & H2 & H3) (f & Hpf & [= <-])%bind_Some. unfold good_def. cbn -[parse_filter].
  split_and!; [| |by destruct (ed_domain c) as [d0|]; [apply Hd|]];
    (destruct (ed_filter c) as [f0|]; [|by injection Hpf as <-]); destruct (parse_filter f0) as [|flt] eqn:E; try done;
    injection Hpf as <-; simpl; first [done|by eapply Hf].
Qed.

Lemma edit_plan_good budget owner name c es p :
  call_sane (CEdit owner name c None 0%Z) → (∀ e, e ∈ es → good_def (en_def e) (en_domain e)) →
  edit_plan budget owner name c es = inr p → good_def (pl_def p) (pl_domain p) ∧ bootable (pl_file p).
Proof.
  intros [Hf Hd] Hes. unfold edit_plan. destruct (find_entry owner name es) as [e|] eqn:Hfe; [|done].
  apply find_entry_Some in Hfe as (Hin & _). destruct (edited_def c (en_def e)) as [d|] eqn:He; [|done].
  destruct (if is_structural _ _ then _ else _); [done|]. destruct (_ && _ && _); [done|]. intros [= <-]. simpl.
  pose proof (edited_good _ _ _ _ Hf Hd (Hes e Hin) He) as Hg. split; [done|by apply persisted_bootable].
Qed.

Lemma spawn_one_good j s : all_good s → job_good j → all_good (spawn [j] s).
Proof. intros H Hj. apply all_good_spawn; [done|]. by intros j' ->%list_elem_of_singleton. Qed.

Lemma write_good k id f :
  bootable f → (∀ p, kplan k = Some p → good_def (pl_def p) (pl_domain p)) → job_good (JWrite k id f).
Proof. intros Hf Hk. split; [by intros id' f' [= <- <-]|done]. Qed.

Lemma detach_good owner s : all_good s → all_good (detach_session owner s).2.
Proof. intros H. apply all_good_entries; [done|]. intros e [_ Hin]%elem_of_lfilter. by apply H. Qed.
Lemma move_good old new s : all_good s → all_good (move_owner old new s).2.
Proof.
  intros H. unfold move_owner. case_bool_decide; [done|]. apply all_good_entries; [done|].
  intros e' (e & -> & Hin%H)%list_elem_of_fmap. by destruct (owned_by old e).
Qed.
Lemma unlinks_good owner s j : j ∈ pf_unlink (detach_session owner s).1 → job_good j.
Proof. simpl. intros (e & -> & _)%list_elem_of_fmap. by apply idle_good. Qed.
Lemma moves_good old new s j : j ∈ pf_moved (move_owner old new s).1 → job_good j.
Proof. intros (_ & e & _ & _ & ->)%move_jobs. by apply idle_good. Qed.

Lemma rename_good old new displaced s : all_good s → all_good (rename_session old new displaced s).
Proof.
  intros H. unfold rename_session.
  assert (∃ p1 s1, (if displaced then detach_session new s else (mkPending [] [], s)) = (p1, s1) ∧ all_good s1 ∧
    pf_moved p1 = [] ∧ ∀ j, j ∈ pf_unlink p1 → job_good j) as (p1 & s1 & -> & H1 & Hm & Hu).
  { destruct displaced; do 2 eexists; (split; [done|]); split_and!; try done.
    - by apply detach_good.
    - by apply unlinks_good.
    - by intros j ?%elem_of_nil. }
  pose proof (move_good old new s1 H1) as H2. pose proof (moves_good old new s1) as Hj.
  pose proof (move_nothing_to_unlink old new s1) as Hn. destruct (move_owner old new s1) as [p2 s2]. simpl in *.
  apply all_good_spawn; [by apply all_good_reply|]. simpl. rewrite Hm, Hn, app_nil_r. intros j [?|?]%elem_of_app; auto.
Qed.

Lemma call_good loss c s s' : all_good s → call_sane c → do_call loss c s = Some s' → all_good s'.
Proof.
  intros H Hc. pose proof (ag_entries _ H) as He. destruct c; cbn [do_call].
  - intros [= <-]. unfold add. case_match; [by auto|]. case_match; [by auto|].
    apply spawn_one_good; [|by apply write_good; [apply persisted_bootable|]]. apply all_good_reply, all_good_entries; [by destruct H|].
    intros e [Hin| ->%list_elem_of_singleton]%elem_of_app; [by apply He|done].
  - intros [= <-]. unfold CollReg.edit. destruct (edit_plan _ _ _ _ _) as [|p] eqn:Hp; [by auto|].
    apply (edit_plan_good _ _ _ _ _ _ Hc He) in Hp as [Hd Hf]. apply spawn_one_good; [done|]. apply write_good; [done|].
    by intros p' [= <-].
  - intros [= <-]. unfold CollReg.reset. case_match; [|by auto]. apply all_good_reply, all_good_upd_entry; [done|].
    intros e' He' _. by apply (He e').
  - unfold CollReg.snapshot. destruct (find_entry _ _ _) as [e|] eqn:Hf; [|intros [= <-]; by auto].
    intros ([r e'] & Ht & Hr)%bind_Some. destruct r; injection Hr as <-; [by auto|]. apply spawn_one_good; [|by auto].
    apply all_good_upd_entry; [done|]. intros _ _ _. apply find_entry_Some in Hf as (Hin & _). apply He in Hin.
    unfold snapshot_take in Ht. case_match; [done|]. apply bind_Some in Ht as ([r h] & _ & Ht). destruct r; [done|].
    by destruct (rq_reset rq); simplify_eq/=.
  - intros [= <-]. unfold remove. destruct (_ =? _)%nat; [by auto|]. apply spawn_one_good; [|by auto].
    apply all_good_reply, all_good_entries; [done|]. intros e [_ ?]%elem_of_lfilter. by apply He.
  - intros [= <-]. by apply rename_good.
  - intros [= <-]. apply all_good_spawn; [by apply all_good_reply, detach_good|by apply unlinks_good].
  - intros [= <-]. apply all_good_entries; [done|]. intros e' (e & -> & Hin%He)%list_elem_of_fmap. by destruct (_ && _).
Qed.

Lemma continue_good k id r s js s' :
  continue k id r s = (js, s') → all_good s → (∀ p, kplan k = Some p → good_def (pl_def p) (pl_domain p)) →
  all_good s' ∧ ∀ j, j ∈ js → job_good j.
Proof.
  intros Hc H Hk. destruct k, r; injection Hc as <- <-; (split; [by auto|]); intros j Hj;
    try (by apply elem_of_nil in Hj); apply list_elem_of_singleton in Hj as ->; try (by apply idle_good).
  split; [done|]. intros p' [= <-]. by apply Hk.
Qed.

Lemma step_good loss ok j s js s' :
  all_good s → job_good j → job_step loss ok j s = Some (js, s') → all_good s' ∧ ∀ j', j' ∈ js → job_good j'.
Proof.
  intros H [Hw Hp]. assert (∀ j' : Job, j' ∈ [] → job_good j') as Hnil by by intros j' ?%elem_of_nil.
  assert (∀ j1 : Job, job_good j1 → ∀ j', j' ∈ [j1] → job_good j') as Hone by by intros j1 Hj j' ->%list_elem_of_singleton.
  destruct j; unfold job_step; intros Hs.
  - destruct (find_id _ _) as [e|] eqn:Hf; injection Hs as <- <-; [|by auto].
    apply find_id_Some in Hf as (Hin%H & _). split.
    + by apply all_good_upd_entry.
    + apply Hone, write_good; [by apply persisted_bootable|done].
  - injection Hs as <- <-. by auto.
  - pose proof (Hp _ eq_refl) as Hg. destruct (find_id _ _); [case_match|]; injection Hs as <- <-; [|by auto..].
    split; [|done]. apply all_good_reply, all_good_upd_entry; [done|]. intros e _ _. unfold edit_entry. by destruct (pl_structural p).
  - case_match; [destruct (path_lock _ _) as [l fl]|]; injection Hs as Hs.
    + subst. split; [by auto|]. by apply Hone.
    + by eapply continue_good.
  - case_bool_decide; [done|]. case_match; [destruct (acquire _ _) as [stamp fl]|]; injection Hs as Hs.
    + subst. split; [by auto|]. by apply Hone.
    + eapply continue_good; [done|by auto|done].
  - destruct ok; injection Hs as Hs; (eapply continue_good; [done| |done]); [|by auto].
    apply all_good_files. destruct H as [H1 H2 H3]. split; [done|done|]. intros p id0 st f. cbn [sy_disk upd_disk].
    intros [[<- [= <- <- <-]]|[_ Hd]]%lookup_insert_Some.
    + split; [done|]. by eapply Hw.
    + by eapply H3.
  - destruct (find_entry _ _ _) as [e|] eqn:Hf; injection Hs as <- <-; (split; [done|]); apply Hone; [|by auto].
    apply find_entry_Some in Hf as (Hin%H & _). apply write_good; [by apply persisted_bootable|done].
  - case_match; [destruct (path_lock _ _) as [l fl]|]; injection Hs as <- <-; [|by auto]. split; [by auto|]. by apply Hone; auto.
  - case_bool_decide; [done|]. case_match; [by simplify_eq; auto|]. case_match; injection Hs as <- <-; [by auto|].
    split; [|done]. apply all_good_files. destruct H as [A1 A2 A3]. split; [done|done|].
    intros p id0 st f. cbn [sy_disk upd_disk]. intros [_ Hd]%lookup_delete_Some. by eapply A3.
Qed.

Lemma turn_good loss ok i s s' : all_good s → turn loss ok i s = Some s' → all_good s'.
Proof.
  intros H. unfold turn. destruct (sy_threads s !! i) as [[|j rest]|] eqn:Ht; try done.
  destruct (concat_turn _ _ _ _ Ht) as (R & Hp & Hjs). destruct (job_step loss ok j s) as [[js s1]|] eqn:Hs; [|done].
  intros [= <-]. assert (∀ j', j' ∈ j :: R → job_good j') as HR by (intros j'; rewrite <-Hp; apply H).
  destruct (step_good _ _ _ _ _ _ H (HR j ltac:(by left)) Hs) as [[A1 A2 A3] Hg].
  apply step_work in Hs as (_ & _ & Hth). split; [done| |done]. intros j'. unfold jobs. simpl. rewrite Hth, Hjs.
  intros [?|?]%elem_of_app; [by apply Hg|]. apply HR. by right.
Qed.

(** ** The boot pass *)

Lemma restore_fold_spec loss metrics_for now fs : ∀ r s,
  Forall bootable fs →
  let '(r', s') := foldl (restore_step loss metrics_for now) (r, s) fs in
  rr_rejected r' = rr_rejected r ∧
  (λ e, (en_owner e, en_name e)) <$> sy_entries s' =
    ((λ e, (en_owner e, en_name e)) <$> sy_entries s) ++ ((λ f, (Named (pc_owner f), pc_name f)) <$> fs).
Proof.
  induction fs as [|f fs IH]; intros r s Hf; [by rewrite app_nil_r|]. apply Forall_cons in Hf as [Hf Hfs].
  cbn [foldl]. unfold restore_step at 2. destruct (new_id s) as [id s1] eqn:Hn. injection Hn as <- <-.
  destruct (bootable_entry loss metrics_for now (sy_next_id s) f Hf) as (e & -> & Ho & Hnm).
  set (r1 := mkReport _ _ _ _). set (s2 := upd_entries _ _). specialize (IH r1 s2 Hfs).
  destruct (foldl _ _ _) as [r' s']. destruct IH as [-> ->]. split; [done|]. unfold s2. simpl.
  rewrite fmap_app. simpl. by rewrite Ho, Hnm, <-app_assoc.
Qed.

(** The directory, each file with some modification time. *)
Definition dir_of (modified : string → Z) (disk : gmap string (N * N * PersistedCollector)) : gmap string (Z * CollectorFile) :=
  map_imap (λ p x, Some (modified p, CFParsed x.2)) disk.

Lemma collector_path_json owner name : fits owner name → path_extension (collector_path owner name) = Some "json"%string.
Proof.
  intros H. unfold collector_path. rewrite (proj2 (Nat.leb_le _ _)) by done. unfold path_extension.
  change ".json"%string with (String "." "json"). rewrite !(assoc_L String.append). rewrite rsplit_once_last by done.
  by destruct (encode owner).
Qed.

Definition act_sane (a : Action) : Prop := match a with ACall c _ => call_sane c | ATurn _ _ _ => True end.
Lemma run_good acts s s' : all_good s → Forall act_sane acts → act_all acts s = Some s' → all_good s'.
Proof.
  revert s. induction acts as [|a acts IH]; simpl; intros s H Hs; [by intros [= <-]|]. apply Forall_cons in Hs as [Ha Hs].
  intros (s1 & Hact & Hr)%bind_Some. apply (IH s1); [|done|done]. destruct a; [by eapply call_good|by eapply turn_good].
Qed.
Lemma start_good budget persist : all_good (sys_new budget persist).
Proof. split; [by intros e ?%elem_of_nil|by intros j ?%elem_of_nil|]. intros p id st f. simpl. by rewrite lookup_empty. Qed.

Definition keys (s : Sys) : list (SessionId * string) := (λ e, (en_owner e, en_name e)) <$> sy_entries s.

Lemma dir_of_spec modified disk p c :
  dir_of modified disk !! p = Some c ↔ ∃ id st f, disk !! p = Some (id, st, f) ∧ c = (modified p, CFParsed f).
Proof.
  unfold dir_of. rewrite map_lookup_imap. split.
  - intros ([[id st] f] & Hd & [= <-])%bind_Some. by exists id, st, f.
  - intros (id & st & f & -> & ->). done.
Qed.

(** What is on disk once no work is left, by owner and name. *)
Lemma settled_disk budget acts s p id st f :
  settled budget acts s → Forall act_sane acts → sy_disk s !! p = Some (id, st, f) →
  bootable f ∧ (Named (pc_owner f), pc_name f) ∈ keys s ∧ fits (pc_owner f) (pc_name f) ∧
  p = collector_path (pc_owner f) (pc_name f).
Proof.
  intros H Hsane Hd. pose proof (run_good _ _ _ (start_good _ _) Hsane (st_run _ _ _ H)) as [_ _ Hg].
  destruct (Hg _ _ _ _ Hd) as [Hp Hb]. pose proof (settled_ents _ _ _ H) as He.
  destruct (proj1 (files_match budget acts s p id H) ltac:(by exists st, f)) as (e & Hin & _ & Hpath).
  pose proof (elem_of_ents _ _ Hin) as Hine. destruct (eo_named _ _ He _ _ _ Hine) as [x Hx].
  pose proof (eo_fits _ _ He _ _ _ Hine) as Hfit. rewrite Hx in Hfit, Hpath.
  destruct (path_inj x (en_name e) (pc_owner f) (pc_name f) Hfit) as [<- <-].
  { unfold file_path in Hp. unfold owner_path in Hpath. simpl in Hpath. by rewrite Hp, Hpath. }
  split_and!; [done| |done|done]. apply list_elem_of_fmap. exists e. by rewrite Hx.
Qed.

Lemma copy_on_disk modified disk f :
  copy_in (dir_of modified disk) f → ∃ id st, disk !! copy_path f = Some (id, st, f.2).
Proof. intros (_ & Hd & _). apply dir_of_spec in Hd as (id & st & f0 & Hd & [= _ <-]). by exists id, st. Qed.

(** Every live collector has its copy there. *)
Lemma live_copied budget acts s modified e :
  settled budget acts s → Forall act_sane acts → e ∈ sy_entries s →
  ∃ f, copy_in (dir_of modified (sy_disk s)) f ∧ en_owner e = Named (pc_owner f.2) ∧ en_name e = pc_name f.2.
Proof.
  intros H Hsane Hin. destruct (proj2 (files_match budget acts s _ (en_id e) H) ltac:(by exists e)) as (st & f & Hd).
  destruct (settled_disk _ _ _ _ _ _ _ H Hsane Hd) as ((Hv & _) & _ & Hfit & Hp).
  pose proof (settled_ents _ _ _ H) as He. pose proof (elem_of_ents _ _ Hin) as Hine.
  destruct (eo_named _ _ He _ _ _ Hine) as [x Hx]. pose proof (eo_fits _ _ He _ _ _ Hine) as Hfe. rewrite Hx in Hfe, Hp, Hd |- *.
  destruct (path_inj x (en_name e) (pc_owner f) (pc_name f) Hfe) as [-> Hn]; [unfold owner_path in Hp; simpl in Hp; by rewrite Hp|].
  set (p := owner_path (Named (pc_owner f)) (en_name e)) in *. exists (p, modified p, f). split; [|done].
  split_and!; [|apply dir_of_spec; by exists (en_id e), st, f|simpl; by rewrite Hv].
  simpl. unfold copy_path. simpl. rewrite Hp. by apply collector_path_json.
Qed.


End restart.

Definition sample_end : Sys := default (sys_new 4096 true) (act_all sample_acts (sys_new 4096 true)).

Lemma sample_settled : settled 4096 sample_acts sample_end ∧ Forall act_sane sample_acts.
Proof.
  assert (act_all sample_acts (sys_new 4096 true) = Some sample_end) as Hrun.
  { unfold sample_end. assert (bool_decide (is_Some (act_all sample_acts (sys_new 4096 true))) = true) as H by (vm_compute; reflexivity).
    apply bool_decide_eq_true in H as [s ->]. done. }
  split; [split; [|by repeat constructor|by vm_compute|exact Hrun|]|].
  - apply runs_okb_spec. vm_compute. reflexivity.
  - apply nil_length_inv. vm_compute. reflexivity.
  - repeat constructor.
Qed.


(** ** One collector through a restart *)

Section survive.
Context {X : Externals} {SK : SketchCrate} {J : JsonScalars} `{SL : !SketchLaws SK} {SB : SketchBytes SK} {JB : JsonBack}.

End survive.

(** A JSON that reads the text of one float back as its neighbour. *)
Definition neighbour_of_third (x : f64) : f64 :=
  match x with S754_finite false m e => if Pos.eqb m 6004799503160661 then S754_finite false (m + 1) e else x | _ => x end.
#[export, program] Instance sample_json : JsonBack := {| json_f64 := neighbour_of_third; json_value := λ v, v |}.
Next Obligation. by vm_compute. Qed.

Definition sample_run : StoredSnapshot :=
  let def := sample_def Tree in
  mkSnap "snapshot-3" None "" 1000333 def (mkPolicy true false true) 1000000 (f64_div (f64_of_Z 1) (f64_of_Z 3)) exact_new
    (Some ∅) None (interner_new 0) [] None None [mkPathRow ["root"%string] (f64_of_Z 2) 1 false] false true false.


(** ** What the order of saves does not keep *)

Definition sample_request (now : Z) : SnapshotRequest :=
  mkRequest "perf" None None "" (mkPolicy false false false) false now.
Definition sample_snapshot (now : Z) : Action :=
  ACall (CSnapshot (Named "a") (sample_request now) (λ _, projected_default)) no_loss.
Definition turn_of (i : nat) : Action := ATurn i true no_loss.
(** Runs on file and runs in memory, by label. *)
Definition runs_at (p : string) (s : Sys) : option (list string) := (λ x, pp_label <$> pc_snapshots x.2) <$> sy_disk s !! p.
Definition runs_live (s : Sys) : list (list string) := (λ e, sn_label <$> hi_snapshots (en_history e)) <$> sy_entries s.
Definition snapshot_replies (s : Sys) : list (option bool) :=
  omap (λ r, match r with RSnapshot (inr o) => Some o | _ => None end) (sy_replies s).

(** Two snapshots at once: each prepares its file under the registry's lock and
    saves it later, whatever was saved since. Here the older file is saved last:
    the second run is on no file, and its caller was told it is. *)
Example stale_save_wins :
  (λ s, (runs_at "a.perf.json" s, runs_live s, snapshot_replies s, length (jobs s))) <$>
    act_all ([ACall (CAdd (Named "a") "default" 0 (sample_def Tree) 5) no_loss; turn_of 0; turn_of 0; turn_of 0;
              sample_snapshot 10; sample_snapshot 11; turn_of 1; turn_of 2; turn_of 2; turn_of 2; turn_of 2;
              turn_of 1; turn_of 1; turn_of 1]) (sys_new 4096 true) =
  Some (Some ["snapshot-1"], [["snapshot-1"; "snapshot-2"]], [None; None], 0%nat)%string.
Proof. vm_compute. reflexivity. Qed.

(** A session renamed twice: the first move finds the collector gone on, and
    deletes the file it came from - still the only copy, for the second move has
    written nothing yet. If the second write fails there is none. *)
Example moved_twice_uncovered :
  (λ s, (keys s, elements (dom (sy_disk s)), length (jobs s))) <$>
    act_all ([ACall (CAdd (Named "a") "default" 0 (sample_def Tree) 5) no_loss; turn_of 0; turn_of 0; turn_of 0;
              ACall (CRename (Named "a") (Named "b") false) no_loss; ACall (CRename (Named "b") (Named "c") false) no_loss;
              turn_of 1; turn_of 1; turn_of 1; turn_of 2; turn_of 2; turn_of 2; ATurn 2 false no_loss]) (sys_new 4096 true) =
  Some ([(Named "c", "perf")], [], 0%nat)%string.
Proof. vm_compute. reflexivity. Qed.

(** A structural edit arms the collector anew; the file it leaves has the old
    arming time. *)
Example edit_keeps_old_arming :
  (λ s, ((λ x : N * N * PersistedCollector, pc_armed_at x.2) <$> sy_disk s !! "a.perf.json"%string,
         (λ e, ci_armed_at (co_inner (en_collector e))) <$> sy_entries s)) <$>
    act_all ([ACall (CAdd (Named "a") "default" 0 (sample_def Tree) 5) no_loss; turn_of 0; turn_of 0; turn_of 0;
              ACall (CEdit (Named "a") "perf" (mkEdit None None (Some Timing) None None None None) None 50) no_loss;
              turn_of 1; turn_of 1; turn_of 1; turn_of 1]) (sys_new 4096 true) =
  Some (Some 5%Z, [50%Z]).
Proof. vm_compute. reflexivity. Qed.
