(* ===== verification/Project.v ===== *)
(** * Project: what a profile computes from a collector's records ([collector/project.rs])

    [records()] panics on a malformed tier, so what walks it is an [option]. The
    order a [HashMap] is walked in is an argument where it could show. The texts
    of a suppression are not modelled: it is the field and which reason. *)

From S2P Require Import Prelude Text F64 Gelf Filter Matcher DataFile Measure Threshold Collector History.
From Stdlib Require Import SpecFloat.
From stdpp Require Import sorting.

Set Default Proof Using "Type".
Local Open Scope N_scope.

Definition PERCENTILES : list f64 :=
  [decimal_to_f64 false 50 (-2); decimal_to_f64 false 80 (-2); decimal_to_f64 false 95 (-2); decimal_to_f64 false 99 (-2)].
Definition MAX_INLINE_DURATIONS : N := 50.
Definition MAX_PATH_DEPTH : nat := 64.
#[global] Arguments MAX_PATH_DEPTH : simpl never.

Inductive GroupBy := GbNone | GbName | GbGroup | GbTrace | GbPath.
Definition GroupBy_ALL : list GroupBy := [GbNone; GbName; GbGroup; GbTrace; GbPath].
Definition groupby_as_str (g : GroupBy) : string :=
  match g with GbNone => "none" | GbName => "name" | GbGroup => "group" | GbTrace => "trace" | GbPath => "path" end.

(** [rejection::one_of]. *)
Definition ticked (v : string) : string := "`" +:+ v +:+ "`".
Definition one_of (values : list string) : string :=
  match values with
  | [] => ""
  | [only] => ticked only
  | _ => String.concat ", " (ticked <$> removelast values) +:+ " or " +:+ ticked (List.last values "")
  end.
Definition groupby_accepted : string := one_of (groupby_as_str <$> GroupBy_ALL).

Definition groupby_parse (s : string) : option GroupBy :=
  if String.eqb s "none" || String.eqb s "" then Some GbNone
  else if String.eqb s "name" then Some GbName
  else if String.eqb s "group" then Some GbGroup
  else if String.eqb s "trace" then Some GbTrace
  else if String.eqb s "path" then Some GbPath
  else None.
#[export] Instance GroupBy_eq_dec : EqDecision GroupBy.
Proof. solve_decision. Defined.
Definition is_sample_derived (g : GroupBy) : bool := match g with GbTrace | GbPath => true | _ => false end.

Record ProfileOptions := mkOptions { op_group_by : GroupBy; op_skip_warmup_ms : option f64; op_top_n : nat }.
Definition options_default : ProfileOptions := mkOptions GbNone None 20.

Inductive IngestBasis :=
| BSame (baseline current : TraceIngestLoss)
| BUnavailable
| BNoWindow.

(** ** What a profile withholds, and why *)

Inductive Suppressed :=
| SupUnplacedCut (retains : bool)
| SupExactUnwindowed
| SupEstimatedUnwindowed
| SupLevelNoRecords (level : CollectLevel)
| SupDomainGone
| SupNoWindow
| SupTruncatedSample
| SupTooManyDurations (count : N)
| SupNoParents
| SupNothingNested
| SupAxisNeedsTree (axis : GroupBy) (level : CollectLevel)
| SupNoGroupKeys
| SupAxisUnwindowed (axis : GroupBy) (tree : bool).
Definition sup_field (s : Suppressed) : string :=
  match s with
  | SupUnplacedCut _ => "excluded_by_warmup"
  | SupExactUnwindowed => "exact"
  | SupEstimatedUnwindowed => "estimated"
  | SupLevelNoRecords _ => "sampled"
  | SupDomainGone | SupNoWindow => "ingest"
  | SupTruncatedSample | SupTooManyDurations _ => "sampled.durations_ms"
  | SupNoParents | SupNothingNested => "sampled.self_ms"
  | SupAxisNeedsTree _ _ | SupNoGroupKeys | SupAxisUnwindowed _ _ => "groups"
  end.

(** ** The wire records ([protocol/methods.rs]) *)

Record ProfileWindow := mkWindow { pw_armed_at : option Z; pw_zeroed_at : option Z; pw_read_at : option Z; pw_wall_ms : f64 }.
Record ProfileIngest := mkIngest {
  pi_drops_in_window : N;
  pi_shed_batches : N;
  pi_malformed_dropped : N;
  pi_malformed_timestamps : N;
  pi_negative_duration_spans : N;
  pi_attribution : string;
}.
Record ProfileExact := mkPExactView {
  px_count : N;
  px_total_ms : f64;
  px_avg_ms : option f64;
  px_min_ms : option f64;
  px_max_ms : option f64;
  px_error_count : N;
  px_out_of_range_spans : N;
}.
Record ProfileEstimated := mkEstimated {
  pq_axis : string;
  pq_alpha_pct : f64;
  pq_p50_ms : option f64;
  pq_p80_ms : option f64;
  pq_p95_ms : option f64;
  pq_p99_ms : option f64;
}.
Record ProfileGroup := mkGroup {
  pg_key : string;
  pg_exact : option ProfileExact;
  pg_estimated : option ProfileEstimated;
  pg_sampled : option ProfileSampled;
  pg_path_incomplete : bool;
}.

(** ** Intervals *)

Abbreviation Interval := (Z * Z)%type.
(** Lengths are [i64] differences, which wrap past 292 years; the sums are [i128]. *)
Definition ivl_len (i : Interval) : Z := i64_cast (i.2 - i.1).
(** Confined to [bounds]; [None] when they do not overlap. *)
Definition clip (i bounds : Interval) : option Interval :=
  let start := Z.max i.1 bounds.1 in
  let end_ := Z.min i.2 bounds.2 in
  if (start <? end_)%Z then Some (start, end_) else None.

Definition ivl_le (a b : Interval) : Prop := (a.1 < b.1)%Z ∨ a.1 = b.1 ∧ (a.2 <= b.2)%Z.
#[global] Instance ivl_le_dec a b : Decision (ivl_le a b).
Proof. unfold ivl_le. apply _. Defined.

(** The sweep: the total so far, the run being built. *)
Fixpoint union_loop (l : list Interval) (total : Z) (cs ce : Z) : Z :=
  match l with
  | [] => (total + i64_cast (ce - cs))%Z
  | (s, e) :: l => if (s <=? ce)%Z then union_loop l total cs (Z.max ce e)
      else union_loop l (total + i64_cast (ce - cs))%Z s e
  end.
Definition union_len (l : list Interval) : Z :=
  match merge_sort ivl_le l with
  | [] => 0
  | (s, e) :: l => union_loop l 0 s e
  end.

(** ** Quantiles and spread *)

Definition quantile_index (n : nat) (q : f64) : option nat :=
  if (n =? 0)%nat then None
  else
    let rank := f64_add (f64_of_Z 1) (f64_mul q (f64_sub (f64_of_N (N.of_nat n)) (f64_of_Z 1))) in
    Some (Nat.min (Nat.max (N.to_nat (N.min (f64_to_u64 rank) (N.of_nat n))) 1) n - 1)%nat.
Definition quantile_sorted (sorted : list Z) (q : f64) : option Z := quantile_index (length sorted) q ≫= λ i, sorted !! i.

Definition percentiles (durations : list Z) : f64 → option f64 :=
  let sorted := merge_sort Z.le durations in λ q, ns_to_ms <$> quantile_sorted sorted q.
Definition pct_at (durations : list Z) (k : nat) : option f64 := PERCENTILES !! k ≫= percentiles durations.

Definition sample_stddev_ms (durations : list Z) : option f64 :=
  if (length durations <? 2)%nat then None
  else
    let n := f64_of_N (N.of_nat (length durations)) in
    let mean := f64_div (f64_sum (f64_of_Z <$> durations)) n in
    let variance :=
      f64_div (f64_sum ((λ d, let dev := f64_sub (f64_of_Z d) mean in f64_mul dev dev) <$> durations)) (f64_sub n (f64_of_Z 1)) in
    Some (f64_div (f64_sqrt variance) (f64_of_Z 1000000)).

(** ** The records a view walks *)

(** [as i64] of a float: towards zero, saturating. *)
Definition f64_to_i64 (x : f64) : Z :=
  match x with
  | S754_finite s m e =>
      let v := if (0 <=? e)%Z then (Z.pos m * 2 ^ e)%Z else Z.shiftr (Z.pos m) (- e) in
      Z.max i64_min (Z.min (if s then (- v)%Z else v) i64_max)
  | S754_infinity s => if s then i64_min else i64_max
  | _ => 0
  end.
Definition i64_saturating_add (a b : Z) : Z := Z.max i64_min (Z.min (a + b) i64_max).

Definition min_start (rs : list SampleRecord) : option Z :=
  match sr_start_ns <$> rs with
  | [] => None
  | z :: zs => Some (foldl Z.min z zs)
  end.
Definition warmup_cutoff_ns (rs : list SampleRecord) (ms : f64) : option Z :=
  first ← min_start rs;
  Some (i64_saturating_add first (f64_to_i64 (f64_min (f64_mul ms (f64_of_Z 1000000)) (f64_of_Z i64_max)))).

Definition before_cut (cut_ns : option Z) (r : SampleRecord) : bool :=
  match cut_ns with Some c => (sr_start_ns r <? c)%Z | None => false end.
Definition kept_records (cut_ns : option Z) (rs : list SampleRecord) : list SampleRecord :=
  List.filter (λ r, negb (before_cut cut_ns r)) rs.

Definition duration_of (r : SampleRecord) : Z := i64_cast (sr_end_ns r - sr_start_ns r).
Definition interval_of (r : SampleRecord) : Interval := (sr_start_ns r, sr_end_ns r).

(** By trace and span; a repeated span keeps the later index. *)
Definition span_key (r : SampleRecord) : N * N := (sr_trace_id r, sr_span_id r).
Definition parent_key (r : SampleRecord) : N * N := (sr_trace_id r, sr_parent_span_id r).
Definition index_by_id (rs : list SampleRecord) : gmap (N * N) nat :=
  foldl (λ m ir, <[span_key ir.2 := ir.1]> m) ∅ (imap pair rs).

(** ** Self time *)

Record SelfTime := mkSelf { se_self_ns : Z; se_nested_matches : N; se_clipped_away_ns : Z; se_clipped_spans : N }.

Record SelfState := mkSelfState {
  ss_children : gmap nat (list Interval);
  ss_nested : N;
  ss_away : Z;
  ss_clipped : N;
}.

(** The parent of record [i], unless it is itself or the two claim each other. *)
Definition counted_parent (rs : list SampleRecord) (ids : gmap (N * N) nat) (i : nat) (r : SampleRecord)
  : option (nat * SampleRecord) :=
  if sr_parent_span_id r =? 0 then None
  else
    p ← ids !! parent_key r;
    rp ← rs !! p;
    if (p =? i)%nat || match ids !! parent_key rp with Some k => (k =? i)%nat | None => false end then None
    else Some (p, rp).

Definition self_step (rs : list SampleRecord) (ids : gmap (N * N) nat) (st : SelfState) (ir : nat * SampleRecord) : SelfState :=
  let '(i, r) := ir in
  match counted_parent rs ids i r with
  | None => st
  | Some (p, rp) =>
      let nested := ss_nested st + 1 in
      let child := interval_of r in
      match clip child (interval_of rp) with
      | Some c =>
          let lost := i64_cast (ivl_len child - ivl_len c) in
          let children := <[p := default [] (ss_children st !! p) ++ [c]]> (ss_children st) in
          if (0 <? lost)%Z then mkSelfState children nested (ss_away st + lost)%Z (ss_clipped st + 1)
          else mkSelfState children nested (ss_away st) (ss_clipped st)
      | None => mkSelfState (ss_children st) nested (ss_away st + ivl_len child)%Z (ss_clipped st + 1)
      end
  end.

Definition covered (children : gmap nat (list Interval)) (i : nat) : Z :=
  match children !! i with None => 0 | Some cs => union_len cs end.
Definition self_sum (children : gmap nat (list Interval)) (rs : list SampleRecord) : Z :=
  foldl (λ total ir, total + Z.max (duration_of ir.2 - covered children ir.1) 0)%Z 0%Z (imap pair rs).

Definition self_time (rs : list SampleRecord) (ids : gmap (N * N) nat) : SelfTime :=
  let st := foldl (self_step rs ids) (mkSelfState ∅ 0 0 0) (imap pair rs) in
  mkSelf (self_sum (ss_children st) rs) (ss_nested st) (ss_away st) (ss_clipped st).

(** ** The sampled view *)

Definition durations_view (complete : bool) (durations : list Z) : option (list f64) * list Suppressed :=
  let count := N.of_nat (length durations) in
  if negb complete then (None, [SupTruncatedSample])
  else if MAX_INLINE_DURATIONS <? count then (None, [SupTooManyDurations count])
  else (Some (ns_to_ms <$> durations), []).

Definition concurrency (total_ns union_ns : Z) : option f64 :=
  if (0 <? union_ns)%Z then Some (f64_div (f64_of_Z total_ns) (f64_of_Z union_ns)) else None.
Definition sum_ns (durations : list Z) : Z := foldl Z.add 0%Z durations.

Definition sampled_view (complete : bool) (rs : list SampleRecord) (cut_ns : option Z) (tree : bool)
  : ProfileSampled * list Suppressed :=
  let rs := kept_records cut_ns rs in
  let durations := duration_of <$> rs in
  let count := N.of_nat (length durations) in
  let union_ns := union_len (interval_of <$> rs) in
  let '(inline, sup) := durations_view complete durations in
  let out self nested away spans :=
    mkSampled complete count self nested away spans (if 0 <? count then Some (ns_to_ms union_ns) else None)
      (concurrency (sum_ns durations) union_ns) (pct_at durations 0) (pct_at durations 1) (pct_at durations 2)
      (pct_at durations 3) (sample_stddev_ms durations) inline in
  if negb tree then (out None 0 (f64_of_Z 0) 0, sup ++ [SupNoParents])
  else
    let st := self_time rs (index_by_id rs) in
    let away := ns_to_ms (se_clipped_away_ns st) in
    if se_nested_matches st =? 0 then (out None 0 away (se_clipped_spans st), sup ++ [SupNothingNested])
    else (out (Some (ns_to_ms (se_self_ns st))) (se_nested_matches st) away (se_clipped_spans st), sup).

(** ** Call paths *)

(** The chain so far, innermost last; [None] is out of fuel. *)
Fixpoint walk_loop (fuel : nat) (rs : list SampleRecord) (ids : gmap (N * N) nat) (names : Interner)
    (chain : list string) (visited : list nat) (cur : SampleRecord) : option (list string * bool) :=
  match fuel with
  | O => None
  | S fuel =>
      if sr_parent_span_id cur =? 0 then Some (chain, false)
      else
        match ids !! parent_key cur with
        | None => Some (chain, true)
        | Some p =>
            if bool_decide (p ∈ visited) || (MAX_PATH_DEPTH <=? length visited)%nat then Some (chain, true)
            else
              rp ← rs !! p;
              walk_loop fuel rs ids names (chain ++ [resolve (sr_name_id rp) names]) (visited ++ [p]) rp
        end
  end.
Definition walk_path (rs : list SampleRecord) (ids : gmap (N * N) nat) (names : Interner) (start : nat) (r : SampleRecord)
  : option (list string * bool) :=
  '(chain, incomplete) ← walk_loop MAX_PATH_DEPTH rs ids names [resolve (sr_name_id r) names] [start] r;
  Some (reverse chain, incomplete).

Record PathAggregate := mkPath { pa_frames : list string; pa_self_ns : Z; pa_count : N; pa_incomplete : bool }.
Definition pa_path (p : PathAggregate) : string :=
  let joined := String.concat " > " (pa_frames p) in
  if pa_incomplete p then "[?] > " +:+ joined else joined.

(** The parent here is any but the record itself. *)
Definition path_children_step (rs : list SampleRecord) (ids : gmap (N * N) nat) (children : gmap nat (list Interval))
    (ir : nat * SampleRecord) : gmap nat (list Interval) :=
  let '(i, r) := ir in
  if sr_parent_span_id r =? 0 then children
  else
    match ids !! parent_key r with
    | None => children
    | Some p =>
        if (p =? i)%nat then children
        else
          match (rs !! p) ≫= λ rp, clip (interval_of r) (interval_of rp) with
          | Some c => <[p := default [] (children !! p) ++ [c]]> children
          | None => children
          end
    end.

Definition path_cmp (a b : PathAggregate) : comparison :=
  cmp_then (pa_self_ns b ?= pa_self_ns a)%Z
    (cmp_then (cmp_list String.compare (pa_frames a) (pa_frames b)) (Bool.compare (pa_incomplete a) (pa_incomplete b))).
Definition path_le (a b : PathAggregate) : Prop := path_cmp a b ≠ Gt.
#[global] Instance path_le_dec a b : Decision (path_le a b).
Proof. unfold path_le. apply _. Defined.

Abbreviation PathRows := (gmap (list string * bool) (Z * N)).
Definition add_row (rows : PathRows) (key : list string * bool) (self_ns : Z) : PathRows :=
  let '(s, n) := default (0%Z, 0) (rows !! key) in <[key := ((s + self_ns)%Z, n + 1)]> rows.
Definition path_step (rs : list SampleRecord) (ids : gmap (N * N) nat) (names : Interner) (children : gmap nat (list Interval))
    (rows : option PathRows) (ir : nat * SampleRecord) : option PathRows :=
  rows ← rows;
  key ← walk_path rs ids names ir.1 ir.2;
  Some (add_row rows key (Z.max (duration_of ir.2 - covered children ir.1) 0)).

Definition path_children (rs : list SampleRecord) : gmap nat (list Interval) :=
  foldl (path_children_step rs (index_by_id rs)) ∅ (imap pair rs).

(** [order] is the order that the row map is walked in. *)
Definition path_rows_of (names : Interner) (rs : list SampleRecord) : option PathRows :=
  foldl (path_step rs (index_by_id rs) names (path_children rs)) (Some ∅) (imap pair rs).
Definition row_path (kr : (list string * bool) * (Z * N)) : PathAggregate := mkPath kr.1.1 kr.2.1 kr.2.2 kr.1.2.
Definition path_aggregates (order : PathRows → list ((list string * bool) * (Z * N))) (names : Interner)
    (rs : list SampleRecord) (cut_ns : option Z) : option (list PathAggregate) :=
  rows ← path_rows_of names (kept_records cut_ns rs);
  Some (merge_sort path_le (row_path <$> order rows)).

Definition SNAPSHOT_PATH_ROWS : nat := 200.
Definition SNAPSHOT_PATH_BYTES : N := 65536.
#[global] Arguments SNAPSHOT_PATH_ROWS : simpl never.

Fixpoint take_paths (l : list PathAggregate) (bytes : N) (out : list PathRow) : list PathRow :=
  match l with
  | [] => out
  | p :: l =>
      let bytes := bytes + foldr N.add 0 (N.of_nat ∘ String.length <$> pa_frames p) in
      if (SNAPSHOT_PATH_BYTES <? bytes) && negb (bool_decide (out = [])) then out
      else take_paths l bytes (out ++ [mkPathRow (pa_frames p) (ns_to_ms (pa_self_ns p)) (pa_count p) (pa_incomplete p)])
  end.
Definition stored_paths (all : list PathAggregate) : list PathRow * bool :=
  let out := take_paths (take SNAPSHOT_PATH_ROWS all) 0 [] in (out, (length out <? length all)%nat).

(** ** Rows *)

(** [f64::total_cmp]. *)
Definition f64_total_cmp (a b : f64) : comparison :=
  match SFcompare a b with
  | Some Eq =>
      match a, b with
      | S754_zero true, S754_zero false => Lt
      | S754_zero false, S754_zero true => Gt
      | _, _ => Eq
      end
  | Some c => c
  | None => match is_nan a, is_nan b with true, true => Eq | true, false => Gt | false, _ => Lt end
  end.
Definition group_total (g : ProfileGroup) : f64 := match pg_exact g with Some e => px_total_ms e | None => f64_of_Z 0 end.
Definition group_le (a b : ProfileGroup) : Prop :=
  match f64_total_cmp (group_total b) (group_total a) with
  | Lt => True
  | Eq => String.compare (pg_key a) (pg_key b) ≠ Gt
  | Gt => False
  end.
#[global] Instance group_le_dec a b : Decision (group_le a b).
Proof. unfold group_le. destruct (f64_total_cmp _ _); apply _. Defined.

(** The rows, and how many there were before the cut. *)
Definition rank_and_truncate (v : list ProfileGroup) (top_n : nat) : list ProfileGroup * nat :=
  (take top_n (merge_sort group_le v), length v).

Definition group_label (interners : list Interner) (ids : list N) : string :=
  match ids with
  | [id] => match interners with i :: _ => resolve id i | [] => OVERFLOW_LABEL end
  | _ => String.concat " / "
           (imap (λ i id, match interners !! i with Some n => resolve id n | None => OVERFLOW_LABEL end) ids)
  end.

Definition trace_step (m : gmap N (list SampleRecord)) (r : SampleRecord) : gmap N (list SampleRecord) :=
  <[sr_trace_id r := default [] (m !! sr_trace_id r) ++ [r]]> m.
Definition trace_group (complete : bool) (kv : N * list SampleRecord) : ProfileGroup :=
  let durations := duration_of <$> kv.2 in
  let union := union_len (interval_of <$> kv.2) in
  mkGroup (hex_digits 32 kv.1 "") None None
    (Some (mkSampled complete (N.of_nat (length durations)) None 0 (f64_of_Z 0) 0 (Some (ns_to_ms union))
       (concurrency (sum_ns durations) union) (pct_at durations 0) (pct_at durations 1) (pct_at durations 2)
       (pct_at durations 3) (sample_stddev_ms (merge_sort Z.le durations)) None)) false.
Definition trace_rows (order : gmap N (list SampleRecord) → list (N * list SampleRecord)) (complete : bool)
    (rs : list SampleRecord) (cut_ns : option Z) (top_n : nat) : list ProfileGroup * nat :=
  rank_and_truncate (trace_group complete <$> order (foldl trace_step ∅ (kept_records cut_ns rs))) top_n.

Definition path_group (complete : bool) (p : PathAggregate) : ProfileGroup :=
  mkGroup (pa_path p) None None
    (Some (mkSampled complete (pa_count p) (Some (ns_to_ms (pa_self_ns p))) 0 (f64_of_Z 0) 0 None None None None None None None None))
    (pa_incomplete p).
Definition path_rows (complete : bool) (aggregates : list PathAggregate) (top_n : nat) : list ProfileGroup * nat :=
  (path_group complete <$> take top_n aggregates, length aggregates).

Section project.
Context {X : Externals} {SK : SketchCrate} {J : JsonScalars}.

Definition window_view (snap : CollectorSnapshot) (read_at : Z) : ProfileWindow :=
  mkWindow (Some (cs_armed_at snap)) (cs_zeroed_at snap) (Some read_at) (wall_ms (window_start snap) read_at).

Definition ingest_view (snap : CollectorSnapshot) (basis : IngestBasis) : option ProfileIngest * list Suppressed :=
  match basis with
  | BUnavailable => (None, [SupDomainGone])
  | BNoWindow => (None, [SupNoWindow])
  | BSame baseline current =>
      let d := loss_since baseline current in
      (Some (mkIngest (tl_dropped d) (tl_shed_batches d) (tl_malformed d) (es_malformed (cs_total snap))
               (es_negative (cs_total snap)) "domain"), [])
  end.

Definition mega : f64 := f64_of_Z 1000000.
Definition exact_view (e : ExactStats) : ProfileExact :=
  mkPExactView (es_count e) (ns_to_ms (es_total_ns e)) ((λ ns, f64_div ns mega) <$> avg_ns e) (ns_to_ms <$> es_min_ns e)
    (ns_to_ms <$> es_max_ns e) (es_error_count e) (es_out_of_range e).
Definition estimated_view (e : ExactStats) (axis : string) : ProfileEstimated :=
  let q k := PERCENTILES !! k ≫= λ p, (λ ns, f64_div ns mega) <$> quantile_ns p e in
  mkEstimated axis (f64_mul ALPHA (f64_of_Z 100)) (q 0%nat) (q 1%nat) (q 2%nat) (q 3%nat).

Definition exact_rows (rows : list (string * ExactStats)) (axis : string) (top_n : nat) : list ProfileGroup * nat :=
  rank_and_truncate
    ((λ ke, mkGroup ke.1 (Some (exact_view ke.2)) (Some (estimated_view ke.2 axis)) None false) <$> rows) top_n.

(** The orders the maps are walked in. *)
Record Orders := mkOrders {
  or_names : gmap N ExactStats → list (N * ExactStats);
  or_groups : gmap (list N) ExactStats → list (list N * ExactStats);
  or_traces : gmap N (list SampleRecord) → list (N * list SampleRecord);
  or_paths : gmap (list string * bool) (Z * N) → list ((list string * bool) * (Z * N));
}.

Definition axis_rows (ord : Orders) (snap : CollectorSnapshot) (rs : list SampleRecord) (axis : GroupBy)
    (cut_ns : option Z) (top_n : nat) : option (list ProfileGroup * nat) :=
  let complete := ss_complete (cs_samples snap) in
  match axis with
  | GbNone => None
  | GbName => Some (exact_rows ((λ ke, (resolve ke.1 (cs_names snap), ke.2)) <$> or_names ord (cs_per_name snap)) "name" top_n)
  | GbGroup =>
      Some (exact_rows ((λ ke, (group_label (cs_group_values snap) ke.1, ke.2)) <$> or_groups ord (cs_per_group snap)) "group" top_n)
  | GbTrace => Some (trace_rows (or_traces ord) complete rs cut_ns top_n)
  | GbPath =>
      aggregates ← path_aggregates (or_paths ord) (cs_names snap) rs cut_ns;
      Some (path_rows complete aggregates top_n)
  end.

(** [None] is a walk out of fuel. *)
Definition group_rows (ord : Orders) (snap : CollectorSnapshot) (rs : list SampleRecord) (opts : ProfileOptions)
    (cut_ns : option Z) : option (list ProfileGroup * option nat * list Suppressed) :=
  let level := cd_level (cs_def snap) in
  let axis := op_group_by opts in
  if is_sample_derived axis && negb (has_tree level) then Some ([], None, [SupAxisNeedsTree axis level])
  else if bool_decide (axis = GbNone) then Some ([], None, [])
  else if bool_decide (axis = GbGroup) && bool_decide (cd_group_keys (cs_def snap) = []) then Some ([], None, [SupNoGroupKeys])
  else
    '(rows, total) ← axis_rows ord snap rs axis cut_ns (op_top_n opts);
    if bool_decide (is_Some cut_ns) && (bool_decide (axis = GbName) || bool_decide (axis = GbGroup)) then
      Some ([], None, [SupAxisUnwindowed axis (has_tree level)])
    else Some (rows, Some total, []).

Record ProfileResult := mkProfile {
  pf_collector : option string;
  pf_description : option string;
  pf_filter : string;
  pf_level : CollectLevel;
  pf_matched : N;
  pf_nesting : string;
  pf_window : ProfileWindow;
  pf_ingest : option ProfileIngest;
  pf_exact : option ProfileExact;
  pf_estimated : option ProfileEstimated;
  pf_sampled : option ProfileSampled;
  pf_grouped_by : option string;
  pf_groups : list ProfileGroup;
  pf_groups_total : option nat;
  pf_excluded_by_warmup : option N;
  pf_cardinality_capped : bool;
  pf_suppressed : list Suppressed;
}.

Definition warmup_of (opts : ProfileOptions) : option f64 :=
  match op_skip_warmup_ms opts with Some ms => if f64_gt ms (f64_of_Z 0) then Some ms else None | None => None end.

(** [snapshot], [warnings] and [threshold] are left for the caller, always empty
    here. [None] is a malformed tier, or a walk out of fuel. *)
Definition profile (ord : Orders) (snap : CollectorSnapshot) (ingest : IngestBasis) (opts : ProfileOptions) (read_at : Z)
  : option ProfileResult :=
  let level := cd_level (cs_def snap) in
  let warmup := warmup_of opts in
  rs ← records (cs_samples snap);
  let cut_ns := warmup ≫= warmup_cutoff_ns rs in
  let excluded := (λ c, N.of_nat (length (List.filter (before_cut (Some c)) rs))) <$> cut_ns in
  let warm := bool_decide (is_Some warmup) in
  let sup1 := if warm && bool_decide (cut_ns = None) then [SupUnplacedCut (has_samples level)] else [] in
  let '(exact, sup2) := if warm then (None, [SupExactUnwindowed]) else (Some (exact_view (cs_total snap)), []) in
  let '(estimated, sup3) :=
    if warm then (None, [SupEstimatedUnwindowed]) else (Some (estimated_view (cs_total snap) "collector"), []) in
  let '(sampled, sup4) :=
    if has_samples level then
      let '(v, sup) := sampled_view (ss_complete (cs_samples snap)) rs cut_ns (has_tree level) in (Some v, sup)
    else (None, [SupLevelNoRecords level]) in
  let nesting :=
    if negb (has_tree level) then "unknown"%string
    else if match sampled with Some s => 0 <? ps_nested_matches s | None => false end then "detected"%string
    else "undetected"%string in
  '(groups, total, sup5) ← group_rows ord snap rs opts cut_ns;
  let '(ing, sup6) := ingest_view snap ingest in
  Some (mkProfile (Some (cd_name (cs_def snap))) (cd_description (cs_def snap)) (cd_filter_string (cs_def snap)) level
          (es_count (cs_total snap)) nesting (window_view snap read_at) ing exact estimated sampled
          (if bool_decide (op_group_by opts = GbNone) then None else Some (groupby_as_str (op_group_by opts)))
          groups total excluded (cardinality_capped snap) (sup1 ++ sup2 ++ sup3 ++ sup4 ++ sup5 ++ sup6)).

(** ** What a snapshot records *)

Definition project_samples (snap : CollectorSnapshot) : option (option ProfileSampled) :=
  let level := cd_level (cs_def snap) in
  if negb (has_samples level) then Some None
  else
    rs ← records (cs_samples snap);
    Some (Some (sampled_view (ss_complete (cs_samples snap)) rs None (has_tree level)).1).
Definition project_paths (ord : Orders) (snap : CollectorSnapshot) : option (list PathRow * bool) :=
  if negb (has_tree (cd_level (cs_def snap))) then Some ([], false)
  else
    rs ← records (cs_samples snap);
    all ← path_aggregates (or_paths ord) (cs_names snap) rs None;
    Some (stored_paths all).
Definition project_for_snapshot (ord : Orders) (snap : CollectorSnapshot) : option Projected :=
  '(paths, truncated) ← project_paths ord snap;
  sampled ← project_samples snap;
  Some (mkProjected sampled paths truncated).
End project.
