(* ===== verification/ProjectSpec.v ===== *)
(** * ProjectSpec: what the projections of a sample account for

    Self time is the time no matched child runs; the call paths of a sample
    partition its records, with their self time, in an order that the map they
    are gathered in does not decide; every figure that a profile withholds is
    explained. *)

From S2P Require Import Prelude Text F64 Gelf Filter Matcher DataFile Measure Threshold Collector CollectorSamples CollectorSpec History Project.
From stdpp Require Import sorting.

Set Default Proof Using "Type".
Local Open Scope Z_scope.

(** ** Counting instants *)

Definition inside (i : Interval) (t : Z) : bool := (i.1 <=? t) && (t <? i.2).
Definition covers (l : list Interval) (t : Z) : bool := existsb (λ i, inside i t) l.
(** How many instants of [lo, hi) satisfy [f]. *)
Definition count (f : Z → bool) (lo hi : Z) : Z := Z.of_nat (length (List.filter f (seqZ lo (hi - lo)))).

Lemma count_ext f g lo hi : (∀ t, lo ≤ t < hi → f t = g t) → count f lo hi = count g lo hi.
Proof.
  intros H. unfold count. f_equal. f_equal. apply filter_ext_in. intros t Ht%list_elem_of_In%elem_of_seqZ. apply H. lia.
Qed.
Lemma count_split f lo mid hi : lo ≤ mid ≤ hi → count f lo hi = count f lo mid + count f mid hi.
Proof.
  intros H. unfold count. replace (hi - lo) with ((mid - lo) + (hi - mid)) by lia. rewrite seqZ_app by lia.
  rewrite List.filter_app, length_app. replace (lo + (mid - lo)) with mid by lia. lia.
Qed.
Lemma count_all lo hi : lo ≤ hi → count (λ _, true) lo hi = hi - lo.
Proof.
  intros H. unfold count. assert (∀ l : list Z, List.filter (λ _, true) l = l) as -> by (induction l; simpl; congruence).
  rewrite length_seqZ. lia.
Qed.
Lemma count_none lo hi : count (λ _, false) lo hi = 0.
Proof. unfold count. by induction (seqZ lo (hi - lo)). Qed.
Lemma count_true f lo hi : lo ≤ hi → (∀ t, lo ≤ t < hi → f t = true) → count f lo hi = hi - lo.
Proof. intros Hl H. rewrite <-(count_all lo hi Hl). by apply count_ext. Qed.
Lemma count_false f lo hi : (∀ t, lo ≤ t < hi → f t = false) → count f lo hi = 0.
Proof. intros H. rewrite <-(count_none lo hi). by apply count_ext. Qed.
Lemma count_negb f lo hi : lo ≤ hi → count f lo hi + count (λ t, negb (f t)) lo hi = hi - lo.
Proof.
  intros H. unfold count. assert (∀ l : list Z, (length (List.filter f l) + length (List.filter (λ t, negb (f t)) l) = length l)%nat) as Hl
    by (induction l as [|t l IH]; simpl; [done|destruct (f t); simpl; lia]).
  specialize (Hl (seqZ lo (hi - lo))). rewrite length_seqZ in Hl. lia.
Qed.
Lemma count_bounds f lo hi : lo ≤ hi → 0 ≤ count f lo hi ≤ hi - lo.
Proof. intros H. pose proof (count_negb f lo hi H). unfold count in *. lia. Qed.

Lemma inside_true i t : inside i t = true ↔ i.1 ≤ t < i.2.
Proof. unfold inside. rewrite andb_true_iff, Z.leb_le, Z.ltb_lt. done. Qed.
Lemma covers_true l t : covers l t = true ↔ ∃ i, i ∈ l ∧ i.1 ≤ t < i.2.
Proof.
  unfold covers. rewrite existsb_exists. setoid_rewrite inside_true. by setoid_rewrite list_elem_of_In.
Qed.
Lemma covers_false l t : covers l t = false ↔ ∀ i, i ∈ l → ¬ i.1 ≤ t < i.2.
Proof. rewrite <-not_true_iff_false, covers_true. naive_solver. Qed.
Lemma covers_perm l1 l2 t : l1 ≡ₚ l2 → covers l1 t = covers l2 t.
Proof. intros H. apply eq_bool_prop_intro. rewrite !Is_true_true, !covers_true. by setoid_rewrite H. Qed.

(** ** The union of intervals *)

#[local] Instance ivl_le_total : Total ivl_le.
Proof. intros [a b] [c d]. unfold ivl_le. simpl. lia. Qed.
#[local] Instance ivl_le_trans : Transitive ivl_le.
Proof. intros [a b] [c d] [e f]. unfold ivl_le. simpl. lia. Qed.

Definition proper_ivls (l : list Interval) : Prop := ∀ i, i ∈ l → i.1 ≤ i.2.

Lemma count_head cs ce l : cs ≤ ce → count (covers ((cs, ce) :: l)) cs ce = ce - cs.
Proof. intros H. apply count_true; [done|]. intros t Ht. apply covers_true. exists (cs, ce). split; [by left|done]. Qed.
Lemma count_after cs ce l lo hi :
  ce ≤ lo → count (covers ((cs, ce) :: l)) lo hi = count (covers l) lo hi.
Proof.
  intros H. apply count_ext. intros t Ht. cbn [covers existsb]. assert (inside (cs, ce) t = false) as ->; [|done].
  apply not_true_iff_false. rewrite inside_true. simpl. lia.
Qed.
Lemma count_before l lo hi : (∀ i, i ∈ l → hi ≤ i.1) → count (covers l) lo hi = 0.
Proof. intros H. apply count_false. intros t Ht. apply covers_false. intros i Hi. specialize (H i Hi). lia. Qed.

(** Two runs that touch are one. *)
Lemma covers_join cs ce s e l t :
  cs ≤ s ≤ ce → s ≤ e → covers ((cs, Z.max ce e) :: l) t = covers ((cs, ce) :: (s, e) :: l) t.
Proof.
  intros H1 H2. cbn [covers existsb]. rewrite orb_assoc. f_equal. apply eq_bool_prop_intro.
  rewrite !Is_true_true, orb_true_iff, !inside_true. simpl. lia.
Qed.

Lemma span_small a b : a ≤ b → b - a ≤ i64_max → i64_cast (b - a) = b - a.
Proof. intros. apply i64_cast_small. unfold i64_min. lia. Qed.

Lemma union_loop_spec hi : ∀ l total cs ce,
  StronglySorted ivl_le l → (∀ i, i ∈ l → cs ≤ i.1 ≤ i.2 ∧ i.2 ≤ hi) → cs ≤ ce ≤ hi → hi - cs ≤ i64_max →
  union_loop l total cs ce = total + count (covers ((cs, ce) :: l)) cs hi.
Proof.
  induction l as [|[s e] l IH]; intros total cs ce Hs Hl Hc Hw; cbn [union_loop]; rewrite ?span_small by lia.
  { rewrite (count_split _ cs ce hi) by done. rewrite count_head, count_after by lia.
    rewrite (count_before []) by (by intros i Hi%elem_of_nil). lia. }
  apply StronglySorted_inv in Hs as [Hs Hle]. rewrite Forall_forall in Hle.
  destruct (Hl (s, e) ltac:(by left)) as [Hse Hehi]. simpl in Hse, Hehi.
  destruct (Z.leb_spec s ce) as [Hsc|Hsc].
  - rewrite IH; [|done|intros i Hi; apply Hl; by right|lia|lia]. f_equal. apply count_ext. intros t _. apply covers_join; lia.
  - assert (∀ i, i ∈ l → s ≤ i.1) as Hsl by (intros i Hi; destruct (Hle i Hi) as [?|[? _]]; simpl in *; lia).
    rewrite IH; [|done|intros i Hi; destruct (Hl i ltac:(by right)); specialize (Hsl i Hi); lia|lia|lia].
    rewrite (count_split (covers ((cs, ce) :: _)) cs ce hi) by lia. rewrite count_head by lia.
    rewrite (count_after cs ce _ ce hi) by lia. rewrite (count_split _ ce s hi) by lia.
    rewrite (count_before _ ce s) by (intros i [->|Hi]%elem_of_cons; [simpl; lia|by apply Hsl]). lia.
Qed.

(** The measure of the union, on any frame that holds the intervals. *)
Lemma union_len_spec l lo hi :
  proper_ivls l → (∀ i, i ∈ l → lo ≤ i.1 ∧ i.2 ≤ hi) → lo ≤ hi → hi - lo ≤ i64_max → union_len l = count (covers l) lo hi.
Proof.
  intros Hp Hl Hlh Hw. unfold union_len. pose proof (merge_sort_Permutation ivl_le l) as Hperm.
  pose proof (StronglySorted_merge_sort ivl_le l) as Hs. destruct (merge_sort ivl_le l) as [|[s e] l'].
  { symmetry in Hperm. apply Permutation_nil_r in Hperm as ->. by rewrite count_before by by intros ? ?%elem_of_nil. }
  apply StronglySorted_inv in Hs as [Hs Hle]. rewrite Forall_forall in Hle.
  assert (∀ i, i ∈ (s, e) :: l' → i.1 ≤ i.2 ∧ lo ≤ i.1 ∧ i.2 ≤ hi) as Hl'.
  { intros i. rewrite Hperm. intros Hi. split; [by apply Hp|by apply Hl]. }
  destruct (Hl' (s, e) ltac:(by left)) as (Hse & Hlos & Hehi). simpl in *.
  assert (∀ i, i ∈ (s, e) :: l' → s ≤ i.1) as Hsl.
  { intros i [->|Hi]%elem_of_cons; [done|]. destruct (Hle i Hi) as [?|[? _]]; simpl in *; lia. }
  rewrite (union_loop_spec hi); [|done| |done|lia].
  - rewrite (count_ext (covers l) (covers ((s, e) :: l'))) by (intros t _; by apply covers_perm).
    rewrite (count_split _ lo s hi) by lia. by rewrite (count_before _ lo s).
  - intros i Hi. destruct (Hl' i ltac:(by right)) as (? & ? & ?). specialize (Hsl i ltac:(by right)). lia.
Qed.

(** ** Clipping *)

Definition both (i j : Interval) (t : Z) : bool := inside i t && inside j t.

Lemma clip_inside i b t : match clip i b with Some c => inside c t | None => false end = both i b t.
Proof.
  unfold clip, both. apply eq_iff_eq_true. rewrite andb_true_iff, !inside_true.
  destruct (Z.ltb_spec (Z.max i.1 b.1) (Z.min i.2 b.2)); rewrite ?inside_true; simpl; [lia|]. split; [done|lia].
Qed.
Lemma clip_Some i b c : clip i b = Some c → i.1 ≤ c.1 < c.2 ∧ c.2 ≤ i.2 ∧ b.1 ≤ c.1 ∧ c.2 ≤ b.2.
Proof. unfold clip. destruct (Z.ltb_spec (Z.max i.1 b.1) (Z.min i.2 b.2)); intros [= <-]; simpl; lia. Qed.

(** What of a child hangs out of its parent. *)
Definition overhang (child parent : Interval) : Z := count (λ t, negb (inside parent t)) child.1 child.2.
Definition contained (child parent : Interval) : bool := (parent.1 <=? child.1) && (child.1 <? child.2) && (child.2 <=? parent.2).

(** The clipped-away part, whose lengths do not wrap for a child an [i64] measures. *)
Lemma clip_lengths child parent c :
  clip child parent = Some c → child.2 - child.1 ≤ i64_max →
  i64_cast (ivl_len child - ivl_len c) = (child.2 - child.1) - (c.2 - c.1).
Proof.
  intros H%clip_Some Hw. unfold ivl_len.
  rewrite (span_small child.1), (span_small c.1) by lia. apply span_small; lia.
Qed.

Lemma clip_overhang child parent :
  child.1 ≤ child.2 → child.2 - child.1 ≤ i64_max →
  overhang child parent =
    match clip child parent with Some c => i64_cast (ivl_len child - ivl_len c) | None => ivl_len child end.
Proof.
  intros Hp Hw. transitivity (match clip child parent with Some c => (child.2 - child.1) - (c.2 - c.1) | None => child.2 - child.1 end).
  2:{ destruct (clip child parent) as [c|] eqn:E; [by rewrite (clip_lengths _ _ _ E Hw)|]. unfold ivl_len. by rewrite span_small. } unfold overhang. pose proof (count_negb (inside parent) child.1 child.2 Hp) as H.
  assert (count (inside parent) child.1 child.2 = match clip child parent with Some c => c.2 - c.1 | None => 0 end) as Hc;
    [|destruct (clip child parent); lia].
  rewrite (count_ext _ (both child parent)).
  2:{ intros t Ht. unfold both. assert (inside child t = true) as -> by (by apply inside_true). done. }
  rewrite (count_ext _ (λ t, match clip child parent with Some c => inside c t | None => false end)) by (intros t _; by rewrite clip_inside).
  destruct (clip child parent) as [c|] eqn:E; [|by rewrite count_none]. apply clip_Some in E as (? & ? & ? & ?).
  rewrite (count_split _ child.1 c.1), (count_split _ c.1 c.2) by lia.
  rewrite (count_false _ child.1 c.1), (count_true _ c.1 c.2), (count_false _ c.2 child.2); [lia|..]; try lia;
    intros t Ht; (apply inside_true || (apply not_true_iff_false; rewrite inside_true)); lia.
Qed.
Lemma clip_contained child parent :
  child.1 ≤ child.2 → child.2 - child.1 ≤ i64_max →
  contained child parent =
    match clip child parent with Some c => negb (0 <? i64_cast (ivl_len child - ivl_len c)) | None => false end.
Proof.
  intros Hp Hw. transitivity (match clip child parent with Some c => negb (0 <? (child.2 - child.1) - (c.2 - c.1)) | None => false end).
  2:{ destruct (clip child parent) as [c|] eqn:E; [by rewrite (clip_lengths _ _ _ E Hw)|done]. }
  unfold contained, clip. apply eq_iff_eq_true. rewrite !andb_true_iff, !Z.leb_le, Z.ltb_lt.
  destruct (Z.ltb_spec (Z.max child.1 parent.1) (Z.min child.2 parent.2)); simpl;
    rewrite ?negb_true_iff, ?Z.ltb_ge; [lia|]. split; [lia|done].
Qed.

(** ** Self time *)

Abbreviation Rec := (nat * SampleRecord)%type.
Definition sane (r : SampleRecord) : Prop := sr_start_ns r ≤ sr_end_ns r ∧ sr_end_ns r - sr_start_ns r ≤ i64_max.

Lemma sane_duration r : sane r → duration_of r = sr_end_ns r - sr_start_ns r.
Proof. intros []. apply i64_cast_small. unfold i64_min, i64_max in *. lia. Qed.

Definition zsum {A} (f : A → Z) (l : list A) : Z := foldr Z.add 0 (f <$> l).
Lemma zsum_nil {A} (f : A → Z) : zsum f [] = 0.
Proof. done. Qed.
Lemma zsum_cons {A} (f : A → Z) x l : zsum f (x :: l) = f x + zsum f l.
Proof. done. Qed.
Lemma zsum_app {A} (f : A → Z) k l : zsum f (k ++ l) = zsum f k + zsum f l.
Proof. induction k as [|x k IH]; simpl; rewrite ?zsum_nil, ?zsum_cons; lia. Qed.
Lemma zsum_perm {A} (f : A → Z) k l : k ≡ₚ l → zsum f k = zsum f l.
Proof. induction 1; rewrite ?zsum_cons in *; lia. Qed.
Lemma foldl_zsum {A} (f : A → Z) l : ∀ z, foldl (λ total x, total + f x) z l = z + zsum f l.
Proof. induction l as [|x l IH]; intros z; rewrite ?zsum_nil, ?zsum_cons; simpl; [lia|]. rewrite IH. lia. Qed.
Lemma zsum_ext {A} (f g : A → Z) l : (∀ x, x ∈ l → f x = g x) → zsum f l = zsum g l.
Proof. intros H. unfold zsum. f_equal. apply list_fmap_ext. intros i x Hx%list_elem_of_lookup_2. by apply H. Qed.
Lemma zsum_le {A} (f g : A → Z) l : (∀ x, x ∈ l → f x ≤ g x) → zsum f l ≤ zsum g l.
Proof.
  induction l as [|x l IH]; intros H; rewrite ?zsum_nil, ?zsum_cons; [done|].
  pose proof (H x ltac:(by left)). specialize (IH ltac:(intros y Hy; apply H; by right)). lia.
Qed.
Lemma zsum_nonneg {A} (f : A → Z) l : (∀ x, x ∈ l → 0 ≤ f x) → 0 ≤ zsum f l.
Proof. intros H. etrans; [|apply (zsum_le (λ _, 0) f); done]. clear. induction l; rewrite ?zsum_nil, ?zsum_cons; lia. Qed.
Lemma zsum_imap {A} (f : A → Z) l : zsum (λ ir : nat * A, f ir.2) (imap pair l) = zsum f l.
Proof.
  unfold zsum. f_equal. apply list_eq. intros i. rewrite !list_lookup_fmap, list_lookup_imap. by destruct (l !! i).
Qed.

Section self.
Context (rs : list SampleRecord).
Let ids := index_by_id rs.

(** The record whose child [ir] is, if its parent is a record and neither its own child nor itself. *)
Definition parent_of (ir : Rec) : option Rec := counted_parent rs ids ir.1 ir.2.
Definition child_of (p : nat) (ir : Rec) : bool := match parent_of ir with Some q => (q.1 =? p)%nat | None => false end.
Definition nested (ir : Rec) : bool := match parent_of ir with Some _ => true | None => false end.
Definition hangs (ir : Rec) : bool :=
  match parent_of ir with Some q => negb (contained (interval_of ir.2) (interval_of q.2)) | None => false end.
Definition overhang_of (ir : Rec) : Z :=
  match parent_of ir with Some q => overhang (interval_of ir.2) (interval_of q.2) | None => 0 end.
(** A child of [p] is running at [t]. *)
Definition busy_below (p : nat) (l : list Rec) (t : Z) : bool := existsb (λ ir, child_of p ir && inside (interval_of ir.2) t) l.
(** The instants at which [r] runs and none of its children does. *)
Definition own_ns (ir : Rec) : Z := count (λ t, negb (busy_below ir.1 (imap pair rs) t)) (sr_start_ns ir.2) (sr_end_ns ir.2).

Lemma parent_in ir q : parent_of ir = Some q → rs !! q.1 = Some q.2.
Proof.
  unfold parent_of, counted_parent. destruct (_ =? _)%N; [done|]. destruct (ids !! _) as [p|]; simpl; [|done].
  destruct (rs !! p) as [rp|] eqn:E; simpl; [|done]. case_match; [done|]. by intros [= <-].
Qed.

Definition below (st : SelfState) (p : nat) : list Interval := default [] (ss_children st !! p).

Lemma self_step_spec st ir :
  sane ir.2 →
  ss_nested (self_step rs ids st ir) = (ss_nested st + (if nested ir then 1 else 0))%N ∧
  ss_clipped (self_step rs ids st ir) = (ss_clipped st + (if hangs ir then 1 else 0))%N ∧
  ss_away (self_step rs ids st ir) = ss_away st + overhang_of ir ∧
  (∀ p r t, rs !! p = Some r → inside (interval_of r) t = true →
    covers (below (self_step rs ids st ir) p) t = covers (below st p) t || (child_of p ir && inside (interval_of ir.2) t)) ∧
  (∀ p r i, rs !! p = Some r → i ∈ below (self_step rs ids st ir) p →
    i ∈ below st p ∨ sr_start_ns r ≤ i.1 ≤ i.2 ∧ i.2 ≤ sr_end_ns r).
Proof.
  intros [Hs Hw]. destruct ir as [j c]. simpl in Hs, Hw. unfold self_step, nested, hangs, overhang_of, child_of, parent_of. cbn [fst snd].
  destruct (counted_parent rs ids j c) as [[q rq]|] eqn:E; cbn [fst snd].
  2:{ rewrite !N.add_0_r, Z.add_0_r. repeat split; auto. intros. by rewrite orb_false_r. }
  rewrite clip_contained, clip_overhang by done. pose proof (parent_in (j, c) (q, rq) E) as Hq. cbn [fst snd] in Hq.
  pose proof (clip_inside (interval_of c) (interval_of rq)) as Hclip. destruct (clip (interval_of c) (interval_of rq)) as [i|] eqn:Ei.
  - pose proof (clip_lengths _ _ _ Ei Hw) as Hlen. simpl in Hlen. apply clip_Some in Ei. simpl in Ei. rewrite Hlen.
    set (st' := if 0 <? _ then _ else _).
    assert (∀ p, below st' p = if (q =? p)%nat then below st p ++ [i] else below st p) as Hb.
    { intros p. subst st'. unfold below. destruct (0 <? _); simpl; destruct (Nat.eqb_spec q p) as [->|Hne];
        by rewrite ?lookup_insert_eq, ?lookup_insert_ne by done. }
    split_and!; [subst st'; by destruct (0 <? _)|subst st'; destruct (0 <? _); simpl; lia| | |].
    + subst st'. destruct (Z.ltb_spec 0 (sr_end_ns c - sr_start_ns c - (i.2 - i.1))); simpl; lia.
    + intros p r t Hp Ht. rewrite Hb. destruct (Nat.eqb_spec q p) as [->|Hne]; [|by rewrite orb_false_r].
      unfold covers. rewrite existsb_app. f_equal. simplify_eq. simpl.
      rewrite orb_false_r, Hclip. unfold both. by rewrite Ht, andb_true_r.
    + intros p r i' Hp. rewrite Hb. destruct (Nat.eqb_spec q p) as [->|Hne]; [|by left].
      rewrite elem_of_app, list_elem_of_singleton. intros [Hi| ->]; [by left|]. simplify_eq. right. simpl in *. lia.
  - simpl. split_and!; [done..| |auto]. intros p r t Hp Ht. destruct (Nat.eqb_spec q p) as [->|Hne]; [|by rewrite orb_false_r].
    simplify_eq. specialize (Hclip t). unfold both in Hclip. rewrite Ht, andb_true_r in Hclip. by rewrite <-Hclip, orb_false_r.
Qed.

Lemma self_fold_spec l : ∀ st,
  Forall (sane ∘ snd) l →
  let st' := foldl (self_step rs ids) st l in
  ss_nested st' = (ss_nested st + N.of_nat (length (List.filter nested l)))%N ∧
  ss_clipped st' = (ss_clipped st + N.of_nat (length (List.filter hangs l)))%N ∧
  ss_away st' = ss_away st + zsum overhang_of l ∧
  (∀ p r t, rs !! p = Some r → inside (interval_of r) t = true →
    covers (below st' p) t = covers (below st p) t || busy_below p l t) ∧
  (∀ p r i, rs !! p = Some r → i ∈ below st' p → i ∈ below st p ∨ sr_start_ns r ≤ i.1 ≤ i.2 ∧ i.2 ≤ sr_end_ns r).
Proof.
  induction l as [|ir l IH]; intros st Hl; simpl.
  { rewrite zsum_nil, !N.add_0_r, Z.add_0_r. repeat split; auto. intros. by rewrite orb_false_r. }
  apply Forall_cons in Hl as [Hir Hl]. destruct (self_step_spec st ir Hir) as (Hn & Hc & Ha & Hb & Hi).
  destruct (IH (self_step rs ids st ir) Hl) as (IHn & IHc & IHa & IHb & IHi). split_and!.
  - rewrite IHn, Hn. destruct (nested ir); simpl; lia.
  - rewrite IHc, Hc. destruct (hangs ir); simpl; lia.
  - rewrite IHa, Ha, zsum_cons. lia.
  - intros p r t Hp Ht. by rewrite (IHb p r t), (Hb p r t), orb_assoc.
  - intros p r i Hp Hin. destruct (IHi p r i Hp Hin) as [Hin'|]; [|by right]. by apply (Hi p r i).
Qed.

Lemma covered_below st p : covered (ss_children st) p = union_len (below st p).
Proof. unfold covered, below. by destruct (ss_children st !! p). Qed.
Lemma imap_pair_in {A} (l : list A) i x : (i, x) ∈ imap pair l → l !! i = Some x.
Proof. intros (j & y & [= -> ->] & H)%elem_of_lookup_imap_1. done. Qed.
Lemma imap_pair_sane : Forall sane rs → Forall (sane ∘ snd) (imap pair rs).
Proof.
  rewrite !Forall_forall. intros H [i r] Hi%imap_pair_in. apply H. by eapply list_elem_of_lookup_2.
Qed.

(** What the code subtracts is the time a child ran. *)
Lemma own_time st i r :
  Forall sane rs → rs !! i = Some r →
  (∀ t, inside (interval_of r) t = true → covers (below st i) t = busy_below i (imap pair rs) t) →
  (∀ j, j ∈ below st i → sr_start_ns r ≤ j.1 ≤ j.2 ∧ j.2 ≤ sr_end_ns r) →
  Z.max (duration_of r - covered (ss_children st) i) 0 = own_ns (i, r).
Proof.
  intros Hs Hi Hc Hb. rewrite Forall_lookup in Hs. specialize (Hs i r Hi). rewrite sane_duration, covered_below by done.
  destruct Hs as [Hs Hw].
  rewrite (union_len_spec _ (sr_start_ns r) (sr_end_ns r)); [|intros j Hj; by apply Hb|intros j Hj; destruct (Hb j Hj); lia|done|done].
  unfold own_ns. cbn [fst snd].
  assert (∀ t, sr_start_ns r ≤ t < sr_end_ns r → covers (below st i) t = busy_below i (imap pair rs) t) as Hc'
    by (intros t Ht; by apply Hc, inside_true).
  rewrite (count_ext _ _ _ _ Hc'). pose proof (count_negb (busy_below i (imap pair rs)) _ _ Hs).
  pose proof (count_bounds (λ t, negb (busy_below i (imap pair rs) t)) _ _ Hs). lia.
Qed.

(** C35: For records that end no earlier than they start and last no longer
    than an [i64] of nanoseconds counts (292 years), the self time a profile
    reports is, exactly, the number of nanoseconds at which a record ran and no
    record whose parent it is did (neither itself nor its own parent counts as
    one), summed over the records; so it is never negative, and never more than
    the records lasted. The nested matches are the records that have a counted
    parent; the clipped-away time is the time that children ran outside their
    parents, and the clipped spans are the children that are not an interval of
    some length within their parent's: those that stick out, and also those that
    last no time at all, wherever they lie. *)
Theorem self_time_exact :
  Forall sane rs →
  let all := imap pair rs in let st := self_time rs (index_by_id rs) in
  se_self_ns st = zsum own_ns all ∧ 0 ≤ se_self_ns st ≤ zsum duration_of rs ∧
  se_nested_matches st = N.of_nat (length (List.filter nested all)) ∧
  se_clipped_away_ns st = zsum overhang_of all ∧
  se_clipped_spans st = N.of_nat (length (List.filter hangs all)).
Proof.
  intros Hs all st. destruct (self_fold_spec all (mkSelfState ∅ 0 0 0) (imap_pair_sane Hs)) as (Hn & Hc & Ha & Hb & Hi).
  subst st. unfold self_time. cbn [se_self_ns se_nested_matches se_clipped_away_ns se_clipped_spans].
  set (st := foldl _ _ _) in *. assert (self_sum (ss_children st) rs = zsum own_ns all) as ->.
  { unfold self_sum. rewrite (foldl_zsum (λ ir : Rec, Z.max (duration_of ir.2 - covered (ss_children st) ir.1) 0)). rewrite Z.add_0_l.
    apply zsum_ext. intros [i r] Hir%imap_pair_in. apply own_time; [done..|intros t Ht; by rewrite (Hb i r t)|].
    intros j Hj. destruct (Hi i r j Hir Hj) as [Hj'%elem_of_nil|]; done. }
  split; [done|]. split; [|by rewrite Ha]. rewrite <-(zsum_imap duration_of). rewrite Forall_lookup in Hs.
  assert (∀ ir, ir ∈ all → 0 ≤ own_ns ir ≤ duration_of ir.2) as Hb'.
  { intros [i r] Hir%imap_pair_in. specialize (Hs i r Hir). rewrite sane_duration by done. apply count_bounds. apply Hs. }
  split; [apply zsum_nonneg|apply zsum_le]; intros ir Hir; by apply Hb'.
Qed.
End self.

(** Two children of the first record run together, one past its end. *)
Definition family : list SampleRecord :=
  [mkSample 0 100 2 0 1 0 7; mkSample 10 70 3 0 2 1 7; mkSample 20 110 4 0 3 1 7].
Lemma family_sane : Forall sane family.
Proof. repeat constructor; done. Qed.

Lemma self_time_exact_witness :
  self_time family (index_by_id family) = mkSelf 160 2 10 1 ∧
  se_self_ns (self_time family (index_by_id family)) = zsum (own_ns family) (imap pair family).
Proof. split; [vm_compute; reflexivity|]. apply (self_time_exact family family_sane). Defined.

(** ** The index *)

Lemma index_fold_lookup k p l : ∀ m : gmap (N * N) nat,
  foldl (λ m ir, <[span_key ir.2 := ir.1]> m) m l !! k = Some p →
  m !! k = Some p ∨ ∃ r, (p, r) ∈ l ∧ span_key r = k.
Proof.
  induction l as [|[i r] l IH]; intros m; simpl; [by left|]. intros [H|(r' & Hr & Hk)]%IH.
  - apply lookup_insert_Some in H as [[Hk ->]|[_ H]]; [right|by left]. exists r. split; [by left|done].
  - right. exists r'. split; [by right|done].
Qed.
Lemma index_by_id_lookup rs k p : index_by_id rs !! k = Some p → ∃ r, rs !! p = Some r ∧ span_key r = k.
Proof.
  intros [H|(r & Hr%imap_pair_in & Hk)]%index_fold_lookup; [done|by exists r].
Qed.

(** ** The walk *)

Section walk.
Context (rs : list SampleRecord) (names : Interner).
Let ids := index_by_id rs.

(** [q] is the record that [p] names as its parent. *)
Definition parent_at (p q : nat) : Prop :=
  ∃ r, rs !! p = Some r ∧ sr_parent_span_id r ≠ 0%N ∧ ids !! parent_key r = Some q.
Fixpoint climbs (p : nat) (l : list nat) : Prop :=
  match l with [] => True | q :: l => parent_at p q ∧ climbs q l end.
Definition name_at (p : nat) : string := match rs !! p with Some r => resolve (sr_name_id r) names | None => "" end.
Definition rootless (p : nat) : bool := match rs !! p with Some r => negb (sr_parent_span_id r =? 0)%N | None => false end.

Lemma walk_loop_total fuel : ∀ chain visited i cur,
  rs !! i = Some cur → (MAX_PATH_DEPTH < fuel + length visited)%nat → (length visited ≤ MAX_PATH_DEPTH)%nat →
  NoDup visited →
  ∃ up, climbs i up ∧ NoDup (visited ++ up) ∧ (length (visited ++ up) ≤ MAX_PATH_DEPTH)%nat ∧
    walk_loop fuel rs ids names chain visited cur = Some (chain ++ (name_at <$> up), rootless (List.last (i :: up) 0%nat)).
Proof.
  induction fuel as [|fuel IH]; intros chain visited i cur Hi Hf Hv Hnd; [lia|]. cbn [walk_loop].
  assert (rootless i = negb (sr_parent_span_id cur =? 0)%N) as Hr by (unfold rootless; by rewrite Hi).
  assert (∀ b, rootless i = b → ∃ up, climbs i up ∧ NoDup (visited ++ up) ∧ (length (visited ++ up) ≤ MAX_PATH_DEPTH)%nat ∧
    Some (chain, b) = Some (chain ++ (name_at <$> up), rootless (List.last (i :: up) 0%nat))) as Hstop.
  { intros b <-. exists []. simpl. by rewrite !app_nil_r. }
  destruct (sr_parent_span_id cur =? 0)%N eqn:E0; [by apply Hstop|].
  destruct (ids !! parent_key cur) as [p|] eqn:Ep; [|by apply Hstop].
  destruct (bool_decide (p ∈ visited) || (MAX_PATH_DEPTH <=? length visited)%nat) eqn:Es; [by apply Hstop|].
  apply orb_false_iff in Es as [Hp%bool_decide_eq_false Hd%Nat.leb_gt]. clear Hstop.
  destruct (index_by_id_lookup _ _ _ Ep) as (rp & Hrp & _). rewrite Hrp. simpl.
  destruct (IH (chain ++ [resolve (sr_name_id rp) names]) (visited ++ [p]) p rp) as (up & Hc & Hn & Hl & Hw); [done| | | |].
  - rewrite length_app. simpl. lia.
  - rewrite length_app. simpl. lia.
  - apply NoDup_app. split_and!; [done| |apply NoDup_singleton]. by intros x Hx ->%list_elem_of_singleton.
  - exists (p :: up). rewrite <-(assoc (++)) in Hn, Hl. simpl in *. split_and!; [|done..|done|].
    + exists cur. by apply N.eqb_neq in E0.
    + rewrite Hw. simpl. f_equal. f_equal. rewrite <-(assoc (++)). unfold name_at at 2. by rewrite Hrp.
Qed.

Lemma walk_path_total i r :
  rs !! i = Some r →
  ∃ up, climbs i up ∧ NoDup (i :: up) ∧ (length (i :: up) ≤ MAX_PATH_DEPTH)%nat ∧
    walk_path rs ids names i r = Some (reverse (name_at <$> i :: up), rootless (List.last (i :: up) 0%nat)).
Proof.
  intros Hi. assert (name_at i = resolve (sr_name_id r) names) as Hname by (unfold name_at; by rewrite Hi).
  destruct (walk_loop_total MAX_PATH_DEPTH [resolve (sr_name_id r) names] [i] i r) as (up & Hc & Hn & Hl & Hw);
    [done|unfold MAX_PATH_DEPTH; simpl; lia|unfold MAX_PATH_DEPTH; simpl; lia|apply NoDup_singleton|].
  exists up. split_and!; [done..|]. unfold walk_path. rewrite Hw. simpl. by rewrite Hname.
Qed.

(** ** The rows *)

Definition key_of (ir : Rec) : list string * bool := default ([], false) (walk_path rs ids names ir.1 ir.2).
Definition mine (k : list string * bool) (l : list Rec) : list Rec := List.filter (λ ir, bool_decide (key_of ir = k)) l.
Definition path_own (ir : Rec) : Z := Z.max (duration_of ir.2 - covered (path_children rs) ir.1) 0.
Definition rows_from (l : list Rec) : PathRows := foldl (λ m ir, add_row m (key_of ir) (path_own ir)) ∅ l.

Lemma path_rows_from : path_rows_of names rs = Some (rows_from (imap pair rs)).
Proof.
  unfold path_rows_of, rows_from. assert (∀ ir, ir ∈ imap pair rs → is_Some (walk_path rs ids names ir.1 ir.2)) as H.
  { intros [i r] Hir%imap_pair_in. destruct (walk_path_total i r Hir) as (up & _ & _ & _ & Hw). by eexists. }
  revert H. generalize (∅ : PathRows). induction (imap pair rs) as [|ir l IH]; intros m H; simpl; [done|].
  destruct (H ir ltac:(by left)) as [k Hk]. unfold key_of. fold ids. rewrite Hk. simpl. apply IH. intros ir' Hin. apply H. by right.
Qed.

Lemma add_row_lookup m k k' s :
  add_row m k s !! k' = if bool_decide (k = k') then Some ((default (0%Z, 0%N) (m !! k)).1 + s, ((default (0%Z, 0%N) (m !! k)).2 + 1)%N) else m !! k'.
Proof.
  unfold add_row. destruct (default _ (m !! k)) as [t n]. case_bool_decide as H; [subst; by rewrite lookup_insert_eq|by rewrite lookup_insert_ne].
Qed.
Lemma rows_lookup k l :
  rows_from l !! k = match mine k l with [] => None | _ => Some (zsum path_own (mine k l), N.of_nat (length (mine k l))) end.
Proof.
  induction l as [|ir l IH] using rev_ind; [done|]. unfold rows_from. rewrite foldl_app. simpl. fold (rows_from l).
  rewrite add_row_lookup. unfold mine. rewrite List.filter_app. simpl. fold (mine k l). case_bool_decide as H.
  - rewrite H, IH, zsum_app, length_app, zsum_cons, zsum_nil, Nat2N.inj_add.
    destruct (mine k l) as [|y l']; cbn [app default fst snd length]; rewrite ?zsum_nil, ?Z.add_0_r; [done|].
    done.
  - by rewrite app_nil_r, IH.
Qed.

Lemma zsum_add_row (f : (list string * bool) * (Z * N) → Z) m k s :
  zsum f (map_to_list (add_row m k s)) =
  zsum f (map_to_list m) - from_option (λ r, f (k, r)) 0 (m !! k)
  + f (k, ((default (0%Z, 0%N) (m !! k)).1 + s, ((default (0%Z, 0%N) (m !! k)).2 + 1)%N)).
Proof.
  assert (add_row m k s = <[k := ((default (0%Z, 0%N) (m !! k)).1 + s, ((default (0%Z, 0%N) (m !! k)).2 + 1)%N)]> (delete k m)) as ->.
  { rewrite insert_delete_eq. unfold add_row. by destruct (default _ (m !! k)). }
  rewrite (zsum_perm f _ _ (map_to_list_insert _ _ _ (lookup_delete_eq m k))), zsum_cons.
  destruct (m !! k) as [r|] eqn:E; simpl.
  - rewrite <-(zsum_perm f _ _ (map_to_list_delete m k r E)), zsum_cons. lia.
  - rewrite delete_id by done. lia.
Qed.
Lemma rows_sums l :
  zsum (λ kr, kr.2.1) (map_to_list (rows_from l)) = zsum path_own l ∧
  zsum (λ kr, Z.of_N kr.2.2) (map_to_list (rows_from l)) = Z.of_nat (length l).
Proof.
  induction l as [|ir l [IH1 IH2]] using rev_ind; [done|]. unfold rows_from in *. rewrite foldl_app. simpl.
  rewrite !zsum_add_row, IH1, IH2, zsum_app, length_app, zsum_cons, zsum_nil. simpl.
  destruct (_ !! key_of ir) as [[]|]; simpl; lia.
Qed.

End walk.

(** ** The order *)

Definition path_id (p : PathAggregate) : list string * bool := (pa_frames p, pa_incomplete p).
Definition path_key (p : PathAggregate) : Z * (list string * bool) := (pa_self_ns p, path_id p).
Definition key_cmp : Z * (list string * bool) → Z * (list string * bool) → comparison :=
  cmp_pair (flip Z.compare) (cmp_pair (cmp_list String.compare) Bool.compare).
#[export] Instance key_cmp_lawful : LawfulCmp key_cmp.
Proof.
  apply cmp_pair_lawful; [apply flip_lawful, Z_lawful|].
  apply cmp_pair_lawful; [apply cmp_list_lawful, string_lawful|apply bool_lawful].
Qed.
Lemma path_le_key p q : path_le p q ↔ key_le path_key key_cmp p q.
Proof. done. Qed.
#[export] Instance path_le_total : Total path_le.
Proof. intros p q. rewrite !path_le_key. apply (key_le_total path_key key_cmp). Qed.
#[export] Instance path_le_trans : Transitive path_le.
Proof. intros p q r. rewrite !path_le_key. apply (key_le_trans path_key key_cmp). Qed.

Lemma paths_sorted l : StronglySorted path_le (merge_sort path_le l).
Proof. apply StronglySorted_merge_sort; apply _. Qed.
(** Sorted by [path_le], a list with no path twice is determined by its elements. *)
Lemma sorted_paths_unique l l' :
  NoDup (path_id <$> l) → l ≡ₚ l' → merge_sort path_le l = merge_sort path_le l'.
Proof.
  apply (merge_sort_unique path_le path_id). intros p q. rewrite !path_le_key. intros H1 H2.
  pose proof (key_le_antisym path_key key_cmp p q H1 H2) as [= _ Hfr Hin]. unfold path_id. by rewrite Hfr, Hin.
Qed.

(** ** The paths *)

Definition paths_of (k : list string * bool) (names : Interner) (rs : list SampleRecord) : list Rec := mine rs names k (imap pair rs).

Lemma row_elem l rows k s n :
  l ≡ₚ row_path <$> map_to_list rows → (∃ p, p ∈ l ∧ path_key p = (s, k) ∧ pa_count p = n) ↔ rows !! k = Some (s, n).
Proof.
  intros Hl. setoid_rewrite Hl. split.
  - intros (q & ([[f i] [s' n']] & -> & Hin%elem_of_map_to_list)%list_elem_of_fmap & [= <- <-] & <-). done.
  - intros H. destruct k as [f i]. exists (mkPath f s n i). split; [|done]. apply list_elem_of_fmap. exists ((f, i), (s, n)).
    by rewrite elem_of_map_to_list.
Qed.
Lemma zsum_fmap {A B} (f : B → Z) (g : A → B) l : zsum f (g <$> l) = zsum (f ∘ g) l.
Proof. unfold zsum. by rewrite <-list_fmap_compose. Qed.

(** C36: A profile's call paths account for every record once. Whatever the
    order its map is walked in, the walk ends, with the same rows in the same
    order, no path twice; a path has a row exactly when some record walks to
    it, with the number of those records and the sum of their self times, so
    that the rows' counts add up to the records and their self times to the
    records' self times. A record's path is the names of its chain of parents,
    root first, no record twice and at most 64 of them, marked incomplete
    exactly when the outermost one names a parent. *)
Theorem path_aggregates_account order names all cut :
  (∀ m, order m ≡ₚ map_to_list m) →
  let rs := kept_records cut all in let recs := imap pair rs in
  ∃ v, path_aggregates order names all cut = Some v ∧
    (∀ order', (∀ m, order' m ≡ₚ map_to_list m) → path_aggregates order' names all cut = Some v) ∧
    NoDup (path_id <$> v) ∧ StronglySorted path_le v ∧
    (∀ k s n, (∃ p, p ∈ v ∧ path_key p = (s, k) ∧ pa_count p = n) ↔
      paths_of k names rs ≠ [] ∧ s = zsum (path_own rs) (paths_of k names rs) ∧ n = N.of_nat (length (paths_of k names rs))) ∧
    zsum pa_self_ns v = zsum (path_own rs) recs ∧ zsum (λ p, Z.of_N (pa_count p)) v = Z.of_nat (length rs) ∧
    ∀ i r, rs !! i = Some r → ∃ up, climbs rs i up ∧ NoDup (i :: up) ∧ (length (i :: up) ≤ MAX_PATH_DEPTH)%nat ∧
      key_of rs names (i, r) = (reverse (name_at rs names <$> i :: up), rootless rs (List.last (i :: up) 0%nat)).
Proof.
  intros Ho rs recs. set (rows := rows_from rs names recs).
  assert (∀ o, path_aggregates o names all cut = Some (merge_sort path_le (row_path <$> o rows))) as Hpa.
  { intros o. unfold path_aggregates. fold rs. by rewrite path_rows_from. }
  assert (∀ o, (∀ m, o m ≡ₚ map_to_list m) → row_path <$> o rows ≡ₚ row_path <$> map_to_list rows) as Hperm by (intros o H; by rewrite H).
  assert (NoDup (path_id <$> (row_path <$> map_to_list rows))) as Hn.
  { rewrite <-list_fmap_compose. rewrite (list_fmap_ext _ fst) by (by intros i [[? ?] [? ?]] _). apply NoDup_fst_map_to_list. }
  exists (merge_sort path_le (row_path <$> map_to_list rows)).
  pose proof (rows_sums rs names recs) as [Hs1 Hs2].
  split_and!.
  - rewrite Hpa. f_equal. symmetry. apply sorted_paths_unique; [done|]. symmetry. by apply Hperm.
  - intros o H. rewrite Hpa. f_equal. symmetry. apply sorted_paths_unique; [done|]. symmetry. by apply Hperm.
  - by rewrite merge_sort_Permutation.
  - apply paths_sorted.
  - intros k s n. rewrite row_elem by apply merge_sort_Permutation. subst rows. rewrite rows_lookup.
    unfold paths_of. fold recs. destruct (mine rs names k recs); [naive_solver|]. split; [intros [= <- <-]; done|intros (_ & -> & ->); done].
  - by rewrite (zsum_perm _ _ _ (merge_sort_Permutation _ _)), zsum_fmap.
  - rewrite (zsum_perm _ _ _ (merge_sort_Permutation _ _)), zsum_fmap. subst recs. by rewrite length_imap in Hs2.
  - intros i r Hi. destruct (walk_path_total rs names i r Hi) as (up & ? & ? & ? & Hw). exists up. split_and!; [done..|].
    unfold key_of. cbn [fst snd]. by rewrite Hw.
Qed.

(** ** Against self time *)

(** No two records name each other as their parent. *)
Definition no_mutual (rs : list SampleRecord) : Prop :=
  ∀ i r p rp, rs !! i = Some r → sr_parent_span_id r ≠ 0%N → index_by_id rs !! parent_key r = Some p → p ≠ i →
    rs !! p = Some rp → index_by_id rs !! parent_key rp ≠ Some i.

Lemma children_agree rs l : ∀ st,
  no_mutual rs → (∀ i r, (i, r) ∈ l → rs !! i = Some r) →
  ss_children (foldl (self_step rs (index_by_id rs)) st l) = foldl (path_children_step rs (index_by_id rs)) (ss_children st) l.
Proof.
  induction l as [|[i r] l IH]; intros st Hm Hl; simpl; [done|].
  rewrite IH by (try done; intros j s Hj; apply Hl; by right). f_equal. pose proof (Hl i r ltac:(by left)) as Hi.
  unfold counted_parent. destruct (N.eqb_spec (sr_parent_span_id r) 0) as [|Hne]; [done|].
  destruct (index_by_id rs !! parent_key r) as [p|] eqn:Ep; simpl; [|done].
  destruct (index_by_id_lookup _ _ _ Ep) as (rp & Hrp & _). rewrite Hrp. simpl.
  destruct (Nat.eqb_spec p i) as [|Hpi]; simpl; [done|]. specialize (Hm i r p rp Hi Hne Ep Hpi Hrp).
  replace (match index_by_id rs !! parent_key rp with Some k => (k =? i)%nat | None => false end) with false.
  - destruct (clip _ _); [|done]. by destruct (0 <? _).
  - destruct (index_by_id rs !! parent_key rp) as [k|]; [|done]. symmetry. apply Nat.eqb_neq. congruence.
Qed.

Lemma kept_all rs : kept_records None rs = rs.
Proof. induction rs as [|r rs IH]; [done|]. apply (f_equal (cons r) IH). Qed.

(** The self times of a profile's paths add up to the self time that the
    profile reports for the whole sample, unless two records name each other
    as their parent: the two walks attribute children by the same rule. *)
Theorem path_self_total rs names order v :
  (∀ m, order m ≡ₚ map_to_list m) → no_mutual rs → path_aggregates order names rs None = Some v →
  zsum pa_self_ns v = se_self_ns (self_time rs (index_by_id rs)).
Proof.
  intros Ho Hm Hv. unfold path_aggregates in Hv. rewrite kept_all, path_rows_from in Hv. injection Hv as <-.
  rewrite (zsum_perm _ _ _ (merge_sort_Permutation _ _)), zsum_fmap, (zsum_perm _ _ _ (Ho _)).
  etrans; [apply (rows_sums rs names (imap pair rs))|].
  unfold self_time. cbn [se_self_ns]. unfold self_sum.
  rewrite (children_agree rs (imap pair rs)) by (done || apply imap_pair_in).
  by rewrite (foldl_zsum (λ ir : Rec, Z.max (duration_of ir.2 - covered (path_children rs) ir.1) 0)).
Qed.

Definition family_names : Interner := mkInterner ∅ ["root"; "left"; "right"] 10 false.
Definition no_mutualb (rs : list SampleRecord) : bool :=
  forallb (λ ir : Rec,
    (sr_parent_span_id ir.2 =? 0)%N ||
    match index_by_id rs !! parent_key ir.2 with
    | None => true
    | Some p => (p =? ir.1)%nat || match rs !! p with
                                   | Some rp => negb (bool_decide (index_by_id rs !! parent_key rp = Some ir.1))
                                   | None => true
                                   end
    end) (imap pair rs).
Lemma no_mutualb_ok rs : no_mutualb rs = true → no_mutual rs.
Proof.
  intros H i r p rp Hi Hp Hk Hne Hrp. unfold no_mutualb in H. rewrite forallb_forall in H.
  specialize (H (i, r)). cbn [fst snd] in H. apply Nat.eqb_neq in Hne. apply N.eqb_neq in Hp.
  rewrite Hp, Hk, Hne, Hrp in H. simpl in H. apply (bool_decide_eq_false (_ = _)), negb_true_iff, H.
  apply list_elem_of_In, list_elem_of_lookup. exists i. by rewrite list_lookup_imap, Hi.
Qed.
Lemma family_no_mutual : no_mutual family.
Proof. apply no_mutualb_ok. vm_compute. reflexivity. Qed.
Lemma path_aggregates_account_witness :
  ∃ v, path_aggregates map_to_list family_names family None = Some v ∧ zsum (λ p, Z.of_N (pa_count p)) v = 3.
Proof.
  destruct (path_aggregates_account map_to_list family_names family None) as (v & Hv & _ & _ & _ & _ & _ & Hc & _); [done|].
  exists v. split; [exact Hv|]. rewrite Hc, kept_all. reflexivity.
Defined.
Lemma path_self_total_witness :
  ∃ v, path_aggregates map_to_list family_names family None = Some v ∧ zsum pa_self_ns v = 160.
Proof.
  eexists. split; [vm_compute; reflexivity|].
  etrans; [apply (path_self_total family family_names map_to_list); [done|apply family_no_mutual|vm_compute; reflexivity]|].
  vm_compute. reflexivity.
Defined.

(** Where they do, the paths lose what self time keeps: the two walks differ in what a child is. *)
Definition feud : list SampleRecord := [mkSample 0 100 0 0 1 2 7; mkSample 0 100 1 0 2 1 7].
Lemma feud_differs :
  se_self_ns (self_time feud (index_by_id feud)) = 200 ∧
  zsum pa_self_ns <$> path_aggregates map_to_list family_names feud None = Some 0.
Proof. by vm_compute. Qed.
(** A child of no length is counted as one that needed clipping, wherever it lies. *)
Lemma instant_child_clipped :
  let rs := [mkSample 0 100 0 0 1 0 7; mkSample 50 50 1 0 2 1 7] in
  self_time rs (index_by_id rs) = mkSelf 100 1 0 1.
Proof. by vm_compute. Qed.

Local Open Scope N_scope.

(** A suppression names the field. *)
Definition withheld (f : string) (l : list Suppressed) : bool := existsb (λ s, String.eqb (sup_field s) f) l.
Definition given {A} (o : option A) : bool := match o with Some _ => true | None => false end.

Lemma withheld_app f k l : withheld f (k ++ l) = withheld f k || withheld f l.
Proof. apply existsb_app. Qed.

Lemma withheld_one f s : withheld f [s] = String.eqb (sup_field s) f.
Proof. apply orb_false_r. Qed.
Lemma withheld_nil f : withheld f [] = false.
Proof. done. Qed.
Lemma field_other a f : f ≠ a → String.eqb a f = false.
Proof. intros H. apply String.eqb_neq. congruence. Qed.

(** ** The sampled view *)

Lemma quantile_index_bound n q : match quantile_index n q with Some i => (i < n)%nat | None => n = 0%nat end.
Proof. unfold quantile_index. destruct (Nat.eqb_spec n 0); [done|]. lia. Qed.
Lemma pct_given durations k : (k < 4)%nat → given (pct_at durations k) = negb (length durations =? 0)%nat.
Proof.
  intros Hk. unfold pct_at. destruct (PERCENTILES !! k) as [q|] eqn:E; [|apply lookup_ge_None in E; simpl in E; lia].
  cbn [mbind option_bind]. unfold percentiles, quantile_sorted. rewrite sorting.merge_sort_Permutation.
  pose proof (quantile_index_bound (length durations) q) as H. destruct (quantile_index (length durations) q) as [i|].
  - destruct (lookup_lt_is_Some_2 (sorting.merge_sort Z.le durations) i) as [d Hd]; [by rewrite sorting.merge_sort_Permutation|].
    cbn [mbind option_bind]. rewrite Hd. simpl. destruct (Nat.eqb_spec (length durations) 0); [lia|done].
  - simpl. by rewrite H.
Qed.

Lemma durations_explained complete durations v sup :
  durations_view complete durations = (v, sup) →
  given v = negb (withheld "sampled.durations_ms" sup) ∧
  (∀ f, f ≠ "sampled.durations_ms" → withheld f sup = false).
Proof.
  unfold durations_view. destruct (negb complete); [|destruct (_ <? _)]; intros [= <- <-]; (split; [done|]);
    intros f H; by rewrite ?withheld_one, ?field_other.
Qed.

Record sampled_ok (complete : bool) (kept : list SampleRecord) (v : ProfileSampled) (sup : list Suppressed) : Prop := {
  so_self : given (ps_self_ms v) = negb (withheld "sampled.self_ms" sup);
  so_durations : given (ps_durations_ms v) = negb (withheld "sampled.durations_ms" sup);
  so_other f : f ≠ "sampled.durations_ms" → f ≠ "sampled.self_ms" → withheld f sup = false;
  so_count : ps_sample_count v = N.of_nat (length kept);
  so_pct : (given <$> [ps_p50_ms v; ps_p80_ms v; ps_p95_ms v; ps_p99_ms v]) = repeat (0 <? ps_sample_count v) 4;
}.

Lemma sampled_explained complete rs cut tree v sup :
  sampled_view complete rs cut tree = (v, sup) → sampled_ok complete (kept_records cut rs) v sup.
Proof.
  unfold sampled_view. destruct (durations_view _ _) as [inline s1] eqn:Ed. apply durations_explained in Ed as [Hd Hother].
  assert (∀ k, (k < 4)%nat → given (pct_at (duration_of <$> kept_records cut rs) k) = (0 <? N.of_nat (length (kept_records cut rs)))) as Hp.
  { intros k Hk. rewrite pct_given, length_fmap by done. by destruct (length (kept_records cut rs)). }
  destruct tree; simpl; [destruct (_ =? 0)|]; intros [= <- <-]; split; cbn [ps_self_ms ps_durations_ms ps_sample_count ps_p50_ms ps_p80_ms ps_p95_ms ps_p99_ms fmap list_fmap repeat given];
    rewrite ?withheld_app, ?length_fmap, ?Hp, ?Hd, ?Hother by (done || lia); try done; try (by rewrite orb_false_r);
    intros f H1 H2; by rewrite ?withheld_app, Hother, ?withheld_one, ?field_other.
Qed.

(** ** The profile *)

Section spec.
Context {X : Externals} {SK : SketchCrate} {J : JsonScalars}.

Lemma path_aggregates_some o names rs cut : is_Some (path_aggregates o names rs cut).
Proof. unfold path_aggregates. rewrite path_rows_from. by eexists. Qed.

Lemma axis_rows_some ord snap rs axis cut n :
  axis ≠ GbNone → ∃ rows total, axis_rows ord snap rs axis cut n = Some (rows, total) ∧ (length rows ≤ total)%nat ∧ (length rows ≤ n)%nat.
Proof.
  assert (∀ v, (length (rank_and_truncate v n).1 ≤ (rank_and_truncate v n).2)%nat ∧ (length (rank_and_truncate v n).1 ≤ n)%nat) as Hr.
  { intros v. unfold rank_and_truncate. cbn [fst snd]. rewrite length_take, sorting.merge_sort_Permutation. lia. }
  intros Ha. unfold axis_rows. destruct axis; [done|..].
  - do 2 eexists. split; [by rewrite (surjective_pairing (exact_rows _ _ _))|apply Hr].
  - do 2 eexists. split; [by rewrite (surjective_pairing (exact_rows _ _ _))|apply Hr].
  - do 2 eexists. split; [by rewrite (surjective_pairing (trace_rows _ _ _ _ _))|apply Hr].
  - destruct (path_aggregates_some (or_paths ord) (cs_names snap) rs cut) as [v ->]. simpl. do 2 eexists. split; [done|].
    rewrite length_fmap, length_take. lia.
Qed.

Record groups_ok (opts : ProfileOptions) (groups : list ProfileGroup) (total : option nat) (sup : list Suppressed) : Prop := {
  go_given : given total = negb (bool_decide (op_group_by opts = GbNone) || withheld "groups" sup);
  go_other f : f ≠ "groups" → withheld f sup = false;
  go_rows : match total with Some n => (length groups ≤ n)%nat | None => groups = [] end;
  go_top : (length groups ≤ op_top_n opts)%nat;
}.
Lemma group_rows_explained ord snap rs opts cut :
  ∃ groups total sup, group_rows ord snap rs opts cut = Some (groups, total, sup) ∧ groups_ok opts groups total sup.
Proof.
  assert (∀ s, sup_field s = "groups" → op_group_by opts ≠ GbNone → groups_ok opts [] None [s]) as Hnone.
  { intros s Hs Hne. split; [|intros f Hf; by rewrite withheld_one, Hs, field_other|done|simpl; lia].
    rewrite withheld_one, Hs, String.eqb_refl, orb_true_r. done. }
  unfold group_rows. destruct (is_sample_derived _ && _) eqn:E1.
  { do 3 eexists. split; [done|]. apply Hnone; [done|]. intros E. by rewrite E in E1. }
  case_bool_decide as E2.
  { do 3 eexists. split; [done|]. split; [by rewrite bool_decide_eq_true_2|done|done|simpl; lia]. }
  destruct (bool_decide _ && bool_decide _); [do 3 eexists; split; [done|]; by apply Hnone|].
  destruct (axis_rows_some ord snap rs (op_group_by opts) cut (op_top_n opts) E2) as (rows & total & -> & Hrows & Htop). simpl.
  destruct (bool_decide _ && (_ || _)); [do 3 eexists; split; [done|]; by apply Hnone|].
  do 3 eexists. split; [done|]. split; [|done|done|done]. by rewrite bool_decide_eq_false_2.
Qed.

Lemma kept_partition cut rs :
  (length (List.filter (before_cut cut) rs) + length (kept_records cut rs))%nat = length rs.
Proof. unfold kept_records. induction rs as [|r rs IH]; simpl; [done|]. destruct (before_cut cut r); simpl; lia. Qed.

(** What is said of each figure: it is there, or its absence is explained, and not both. *)
Record explained (snap : CollectorSnapshot) (opts : ProfileOptions) (rs : list SampleRecord) (r : ProfileResult) : Prop := {
  ex_exact : given (pf_exact r) = negb (withheld "exact" (pf_suppressed r));
  ex_estimated : given (pf_estimated r) = negb (withheld "estimated" (pf_suppressed r));
  ex_ingest : given (pf_ingest r) = negb (withheld "ingest" (pf_suppressed r));
  ex_sampled : given (pf_sampled r) = negb (withheld "sampled" (pf_suppressed r));
  ex_warmup : given (pf_excluded_by_warmup r) = given (warmup_of opts) && negb (withheld "excluded_by_warmup" (pf_suppressed r));
  ex_groups : given (pf_groups_total r) = negb (bool_decide (op_group_by opts = GbNone) || withheld "groups" (pf_suppressed r));
  ex_rows : match pf_groups_total r with Some n => (length (pf_groups r) ≤ n)%nat | None => pf_groups r = [] end ∧
            (length (pf_groups r) ≤ op_top_n opts)%nat;
  ex_self v : pf_sampled r = Some v → given (ps_self_ms v) = negb (withheld "sampled.self_ms" (pf_suppressed r));
  ex_durations v : pf_sampled r = Some v → given (ps_durations_ms v) = negb (withheld "sampled.durations_ms" (pf_suppressed r));
  ex_count v : pf_sampled r = Some v → ps_sample_count v + default 0 (pf_excluded_by_warmup r) = N.of_nat (length rs);
  ex_pct v : pf_sampled r = Some v →
    (given <$> [ps_p50_ms v; ps_p80_ms v; ps_p95_ms v; ps_p99_ms v]) = repeat (0 <? ps_sample_count v) 4;
}.

(** What each part of a profile withholds. *)
Definition named (fs : list string) (l : list Suppressed) : Prop := ∀ f, f ∉ fs → withheld f l = false.
Lemma named_nil fs : named fs [].
Proof. done. Qed.
Lemma named_one fs s : sup_field s ∈ fs → named fs [s].
Proof. intros H f Hf. rewrite withheld_one. apply String.eqb_neq. by intros <-. Qed.

Lemma ingest_explained snap basis ing sup :
  ingest_view snap basis = (ing, sup) → given ing = negb (withheld "ingest" sup) ∧ named ["ingest"] sup.
Proof. unfold ingest_view. destruct basis; intros [= <- <-]; (split; [done|]); [done|by apply named_one; left..]. Qed.
Lemma sampled_named complete kept v sup :
  sampled_ok complete kept v sup → named ["sampled.self_ms"; "sampled.durations_ms"] sup.
Proof. intros H f Hf. apply (so_other _ _ _ _ H); set_solver. Qed.
Lemma groups_named opts groups total sup : groups_ok opts groups total sup → named ["groups"] sup.
Proof. intros H f Hf. apply (go_other _ _ _ _ H); set_solver. Qed.
(** Drop what a part does not withhold. *)
Ltac named_out :=
  repeat match goal with
  | H : named ?fs ?l |- context [withheld ?f ?l] =>
      rewrite (H f) by (apply (bool_decide_unpack _); vm_compute; exact I)
  end.

(** A profile of a readable sample is always produced, and every figure it
    leaves out is one that its suppressions name: the exact and the estimated
    figures, the ingest loss, the sample, the sample's self time and durations,
    the warm-up's exclusions and the groups are each there if and only if no
    suppression names them. The records counted and the records excluded add
    up to the sample's, a percentile is given exactly when a record is
    counted, and the rows are at most as many as asked, and as the total. *)
Theorem profile_explained ord snap basis opts now rs :
  records (cs_samples snap) = Some rs → ∃ r, profile ord snap basis opts now = Some r ∧ explained snap opts rs r.
Proof.
  intros Hrs. unfold profile. rewrite Hrs. cbn [mbind option_bind].
  set (warm := bool_decide (is_Some (warmup_of opts))). set (cut := warmup_of opts ≫= warmup_cutoff_ns rs).
  destruct (group_rows_explained ord snap rs opts cut) as (groups & total & sup5 & -> & Hg).
  destruct (sampled_view (ss_complete (cs_samples snap)) rs cut (has_tree (cd_level (cs_def snap)))) as [v sup4] eqn:Ev.
  apply sampled_explained in Ev. destruct (ingest_view snap basis) as [ing sup6] eqn:Ei. apply ingest_explained in Ei as [Hing Hn6].
  pose proof (sampled_named _ _ _ _ Ev) as Hn4. pose proof (groups_named _ _ _ _ Hg) as Hn5.
  destruct Hg as [Hg1 _ Hg2 Hg3]. destruct Ev as [Hv1 Hv2 _ Hv3 Hv4].
  set (sup1 := if warm && bool_decide (cut = None) then _ else []).
  assert (named ["excluded_by_warmup"] sup1) as Hn1 by (subst sup1; destruct (_ && _); [by apply named_one; left|done]).
  assert (withheld "excluded_by_warmup" sup1 = warm && bool_decide (cut = None)) as Hw1 by (subst sup1; by destruct (_ && _)).
  pose proof (kept_partition cut rs) as Hkept.
  assert (given cut = given (warmup_of opts) && negb (warm && bool_decide (cut = None))) as Hcut.
  { subst warm cut. destruct (warmup_of opts) as [ms|]; [|done]. simpl. by destruct (warmup_cutoff_ns rs ms). }
  destruct (if warm then (None, [SupExactUnwindowed]) else _) as [exact sup2] eqn:E2.
  assert (given exact = negb (withheld "exact" sup2) ∧ named ["exact"] sup2) as [Hex Hn2]
    by (destruct warm; injection E2 as <- <-; (split; [done|]); [apply named_one; left|done]).
  destruct (if warm then (None, [SupEstimatedUnwindowed]) else _) as [estimated sup3] eqn:E3.
  assert (given estimated = negb (withheld "estimated" sup3) ∧ named ["estimated"] sup3) as [Hes Hn3]
    by (destruct warm; injection E3 as <- <-; (split; [done|]); [apply named_one; left|done]).
  destruct (if has_samples _ then _ else _) as [sampled sup4'] eqn:E4.
  assert (given sampled = negb (withheld "sampled" sup4') ∧ named ["sampled"; "sampled.self_ms"; "sampled.durations_ms"] sup4' ∧
    (∀ v', sampled = Some v' → v' = v ∧ sup4' = sup4)) as (Hsa & Hn4' & Hsome).
  { destruct (has_samples _); injection E4 as <- <-; split_and!; try done.
    - by rewrite Hn4 by set_solver.
    - intros f Hf. apply Hn4. set_solver.
    - by intros v' [= ->].
    - apply named_one. left. }
  eexists. split; [done|]. split; cbn -[app withheld PERCENTILES]; rewrite ?withheld_app; named_out; rewrite ?orb_false_r; try done.
  - rewrite Hw1. by destruct cut.
  - by intros v' [-> ->]%Hsome.
  - by intros v' [-> ->]%Hsome.
  - intros v' [-> _]%Hsome. rewrite Hv3. destruct cut; simpl in *; [lia|]. by rewrite kept_all, N.add_0_r.
  - by intros v' [-> _]%Hsome.
Qed.
End spec.

(** ** A witness *)

Definition sample_orders : Orders (SK:=sample_sketch) := mkOrders map_to_list map_to_list map_to_list map_to_list.
Lemma profile_explained_witness :
  let snap := collector_snapshot (collector_run (sample_def Tree) 5 sample_spans) in
  ∃ rs r, records (cs_samples snap) = Some rs ∧ (0 < length rs)%nat ∧
    profile sample_orders snap BNoWindow (mkOptions GbPath None 20) 9 = Some r ∧ explained snap (mkOptions GbPath None 20) rs r.
Proof.
  cbn zeta. set (snap := collector_snapshot _).
  assert (∃ rs, records (cs_samples snap) = Some rs ∧ (0 < length rs)%nat) as (rs & Hrs & Hl).
  { eexists. split; [vm_compute; reflexivity|]. simpl. lia. }
  destruct (profile_explained sample_orders snap BNoWindow (mkOptions GbPath None 20) 9%Z rs Hrs) as (r & Hr & Hx).
  exists rs, r. split; [exact Hrs|]. split; [exact Hl|]. split; [exact Hr|exact Hx].
Defined.

(** Rows by trace have no exact figure to be ranked by: the longest trace is
    cut when its number is the greater. *)
Lemma traces_rank_by_number :
  let rs := [mkSample 0 1 2 0 1 0 7; mkSample 0 1000000000 2 0 1 0 8] in
  (pg_key <$> (trace_rows map_to_list true rs None 1).1) = ["00000000000000000000000000000007"].
Proof. vm_compute. reflexivity. Qed.
