(* ===== verification/Diff.v ===== *)
(** * Diff: comparing two arms ([collector/diff.rs])

    An arm is a live window, one recorded run or several merged ones. The texts
    of marks, notes and suppressions are not modelled: a note or a suppression is
    which one it is, a refusal carries what its text is written from. The orders
    that maps are walked in are arguments. *)

From S2P Require Import Prelude Text F64 Gelf Filter Matcher DataFile Measure Threshold Collector History Project.
From Stdlib Require Import SpecFloat.
From stdpp Require Import sorting.

Set Default Proof Using "Type".
Local Open Scope N_scope.

Definition MATERIAL_COUNT_CHANGE_PCT : f64 := f64_of_Z 1.

Inductive DiffGroupBy := DgNone | DgName | DgGroup.
#[export] Instance DiffGroupBy_eq_dec : EqDecision DiffGroupBy.
Proof. solve_decision. Defined.
Definition DiffGroupBy_ALL : list DiffGroupBy := [DgNone; DgName; DgGroup].
Definition diffgroupby_as_str (g : DiffGroupBy) : string :=
  match g with DgNone => "none" | DgName => "name" | DgGroup => "group" end.
Definition diffgroupby_accepted : string := one_of (diffgroupby_as_str <$> DiffGroupBy_ALL).
Definition diffgroupby_parse (s : string) : option DiffGroupBy :=
  if String.eqb s "none" || String.eqb s "" then Some DgNone
  else if String.eqb s "name" then Some DgName
  else if String.eqb s "group" then Some DgGroup
  else None.

Inductive Aggregation := AgLive | AgSingleRun (label : string) | AgMerged (labels : list string).
Definition aggregation_as_str (g : Aggregation) : string :=
  match g with
  | AgLive => "live window (single run, still open)"
  | AgSingleRun l => "single run: " +:+ l
  | AgMerged ls => "merged across " +:+ pretty (N.of_nat (length ls)) +:+ " runs: " +:+ String.concat ", " ls
  end.
Definition is_single_run (g : Aggregation) : bool :=
  match g with AgMerged l => negb (1 <? length l)%nat | _ => true end.

(** ** What a filter selects, written canonically *)

Definition LevelOp_debug (op : LevelOp) : string := match op with LEq => "Eq" | LGte => "Gte" | LLte => "Lte" end.
Definition BookmarkOp_debug (op : BookmarkOp) : string := match op with BGte => "Gte" | BLte => "Lte" end.
Definition SeqOp_debug (op : SeqOp) : string := match op with SGt => "Gt" | SLt => "Lt" end.
Definition Level_debug (l : Level) : string :=
  match l with Error => "Error" | Warn => "Warn" | Info => "Info" | Debug => "Debug" | Trace => "Trace" end.
Definition bool_str (b : bool) : string := if b then "true" else "false".

(** [f64::to_bits]. *)
Definition two_52 : N := 4503599627370496.
Definition magnitude_bits (x : f64) : N :=
  match x with
  | S754_zero _ => 0
  | S754_infinity _ => 2047 * two_52
  | S754_nan => 2047 * two_52 + 2251799813685248
  | S754_finite _ m e => if N.pos m <? two_52 then N.pos m else Z.to_N (e + 1075) * two_52 + (N.pos m - two_52)
  end.
Definition sign_bit (x : f64) : bool :=
  match x with S754_zero s | S754_infinity s | S754_finite s _ _ => s | S754_nan => false end.
Definition f64_to_bits (x : f64) : N := (if sign_bit x then 9223372036854775808 else 0) + magnitude_bits x.

Section diff.
Context {X : Externals} {SK : SketchCrate} {J : JsonScalars}.

Definition canonical_pattern (p : Pattern) : string :=
  match p with
  | Substring s => "sub:" +:+ to_lowercase s
  | PRegex src _ ci => "re:" +:+ bool_str ci +:+ ":" +:+ src
  end.
Definition canonical_selector (s : Selector) : string :=
  match s with
  | AdditionalField f => "af:" +:+ to_lowercase f
  | Message => "Message" | FullMessage => "FullMessage" | MessageOrFull => "MessageOrFull"
  | Host => "Host" | Facility => "Facility" | File => "File" | Line => "Line"
  | SpanName => "SpanName" | ServiceName => "ServiceName" | SpanStatusSel => "SpanStatus" | SpanKindSel => "SpanKind"
  end.
Definition canonical_qualifier (q : Qualifier) : string :=
  match q with
  | BarePattern p => "bare:" +:+ canonical_pattern p
  | SelectorPattern s p => "sel:" +:+ canonical_selector s +:+ ":" +:+ canonical_pattern p
  | LevelFilter op l => "lvl:" +:+ LevelOp_debug op +:+ ":" +:+ Level_debug l
  | DurationFilter op v =>
      "dur:" +:+ match op with DGte => "gte" | DLte => "lte" end +:+ ":" +:+ hex_digits 16 (f64_to_bits v) ""
  | BookmarkFilter op name => "bm:" +:+ BookmarkOp_debug op +:+ ":" +:+ name
  | CursorFilter name => "cur:" +:+ name
  | SeqFilter op value => "seq:" +:+ SeqOp_debug op +:+ ":" +:+ pretty value
  | CursorSeq after => "curseq:" +:+ pretty after
  end.
Definition str_le (a b : string) : Prop := String.compare a b ≠ Gt.
#[export] Instance str_le_dec a b : Decision (str_le a b).
Proof. unfold str_le. apply _. Defined.
Definition canonical_filter (f : ParsedFilter) : list string :=
  match f with
  | FAll => ["ALL"%string]
  | FNone => ["NONE"%string]
  | Qualifiers qs => merge_sort str_le (canonical_qualifier <$> qs)
  end.

(** ** An arm *)

Abbreviation Rows := (gmap string ExactStats).
Record Arm := mkArm {
  ar_spec : string;
  ar_collector : string;
  ar_aggregation : Aggregation;
  ar_def : CollectorDef;
  ar_total : ExactStats;
  ar_per_name : option Rows;
  ar_per_group : option Rows;
  ar_projections : option ProfileSampled;
  ar_nesting : string;
  ar_ingest : option TraceIngestLoss;
  ar_sample_complete : bool;
  ar_cardinality_capped : bool;
  ar_wall_ms : f64;
  ar_window_start : option Z;
  ar_taken_at : option Z;
  ar_meta : option Value;
  ar_description : option string;
  ar_paths : list PathRow;
  ar_paths_truncated : bool;
  ar_floor : option RunToRunFloor;
  ar_count_floor : option RunToRunFloor;
}.

(** [collect] into a map: of two entries under one label the later stays. *)
Definition collect_rows (l : list (string * ExactStats)) : Rows := foldl (λ m ke, <[ke.1 := ke.2]> m) ∅ l.
Definition named_rows (ord : Orders) (names : Interner) (m : gmap N ExactStats) : list (string * ExactStats) :=
  (λ ke, (resolve ke.1 names, ke.2)) <$> or_names ord m.
Definition grouped_rows (ord : Orders) (values : list Interner) (m : gmap (list N) ExactStats) : list (string * ExactStats) :=
  (λ ke, (group_label values ke.1, ke.2)) <$> or_groups ord m.

(** Of two entries under one label the merge stays; a failed merge drops it. *)
Definition merge_row (out : Rows) (ke : string * ExactStats) : Rows :=
  match out !! ke.1 with
  | None => <[ke.1 := ke.2]> out
  | Some acc => match exact_merge ke.2 acc with Some acc => <[ke.1 := acc]> out | None => delete ke.1 out end
  end.
Definition merge_by_label (rows : list (list (string * ExactStats))) : Rows := foldl (foldl merge_row) ∅ rows.

Definition nesting_of (p : option ProfileSampled) (level : CollectLevel) : string :=
  match p, has_tree level with
  | Some p, true => if 0 <? ps_nested_matches p then "detected" else "undetected"
  | _, _ => "unknown"
  end.

(** [None] is [records()] on a malformed tier. *)
Definition from_live (ord : Orders) (spec : string) (view : CollectorSnapshot) (ingest : option TraceIngestLoss) (read_at : Z)
  : option Arm :=
  projections ← project_samples view;
  '(paths, truncated) ← project_paths ord view;
  Some (mkArm spec (cd_name (cs_def view)) AgLive (cs_def view) (cs_total view)
          (Some (collect_rows (named_rows ord (cs_names view) (cs_per_name view))))
          (Some (collect_rows (grouped_rows ord (cs_group_values view) (cs_per_group view))))
          projections (nesting_of projections (cd_level (cs_def view))) ingest (ss_complete (cs_samples view))
          (cardinality_capped view) (wall_ms (window_start view) read_at) (Some (window_start view)) (Some read_at) None
          (cd_description (cs_def view)) paths truncated None None).

Definition from_snapshot (ord : Orders) (spec : string) (s : StoredSnapshot) : Arm :=
  mkArm spec (cd_name (sn_def s)) (AgSingleRun (sn_label s)) (sn_def s) (sn_total s)
    ((λ m, collect_rows (named_rows ord (sn_names s) m)) <$> sn_per_name s)
    ((λ m, collect_rows (grouped_rows ord (sn_group_values s) m)) <$> sn_per_group s)
    (sn_projections s) (nesting_of (sn_projections s) (cd_level (sn_def s))) (sn_ingest s) (sn_sample_complete s)
    (sn_cardinality_capped s) (sn_wall_ms s) (Some (sn_window_start s)) (Some (sn_taken_at s)) (Some (sn_meta s))
    (sn_description s) (sn_paths s) (sn_paths_truncated s) None None.

Definition same_definition (a b : CollectorDef) : bool :=
  bool_decide (canonical_filter (cd_filter a) = canonical_filter (cd_filter b))
  && bool_decide (cd_level a = cd_level b) && bool_decide (cd_group_keys a = cd_group_keys b).

Definition add_loss (acc : option TraceIngestLoss) (s : StoredSnapshot) : option TraceIngestLoss :=
  acc ← acc;
  i ← sn_ingest s;
  Some (mkLoss (sat_add (tl_dropped acc) (tl_dropped i)) (sat_add (tl_shed_batches acc) (tl_shed_batches i))
          (sat_add (tl_malformed acc) (tl_malformed i))).
Definition worse_nesting (acc n : string) : string :=
  if String.eqb acc "detected" || String.eqb n "detected" then "detected"
  else if String.eqb acc "unknown" || String.eqb n "unknown" then "unknown"
  else "undetected".

(** The labels stand for the text of a mismatch. *)
Definition merged (ord : Orders) (spec : string) (snaps : list StoredSnapshot) : MergeError + Arm :=
  match last snaps with
  | None => inl MergeEmpty
  | Some last =>
      match List.find (λ s, negb (same_definition (sn_def s) (sn_def last))) snaps with
      | Some s => inl (DefinitionMismatch (sn_label s) (sn_label last))
      | None =>
          match merge_snapshots snaps with
          | inl e => inl e
          | inr total =>
              inr (mkArm spec (cd_name (sn_def last)) (AgMerged (sn_label <$> snaps)) (sn_def last) total
                     ((λ ms, merge_by_label (zip_with (λ s m, named_rows ord (sn_names s) m) snaps ms)) <$> mapM sn_per_name snaps)
                     ((λ ms, merge_by_label (zip_with (λ s m, grouped_rows ord (sn_group_values s) m) snaps ms)) <$> mapM sn_per_group snaps)
                     None
                     (foldl worse_nesting "undetected"%string ((λ s, nesting_of (sn_projections s) (cd_level (sn_def s))) <$> snaps))
                     (foldl add_loss (Some loss_default) snaps) (forallb sn_sample_complete snaps)
                     (existsb sn_cardinality_capped snaps) (f64_sum (sn_wall_ms <$> snaps))
                     (sn_window_start <$> head snaps) (Some (sn_taken_at last)) (Some (sn_meta last)) (sn_description last)
                     [] false (over_total_ms snaps) (over_count snaps))
          end
      end
  end.

Definition arm_layout (a : Arm) : SketchLayout := sk_layout (es_sketch (ar_total a)).
Definition truncated (a : Arm) : bool := negb (ar_sample_complete a).
Definition lost_spans (a : Arm) : option bool :=
  (λ i, (0 <? tl_dropped i) || (0 <? tl_shed_batches i) || (0 <? tl_malformed i)) <$> ar_ingest a.

(** ** Marks, refusals and rows *)

Record Mark := mkMark { mk_kind : string; mk_overridden_by : option string }.
Definition is_informational (m : Mark) : bool :=
  if String.eqb (mk_kind m) "collector" then true
  else if String.eqb (mk_kind m) "filter" then bool_decide (mk_overridden_by m = None)
  else false.

Inductive DiffError :=
| DiffLayoutMismatch (a b : SketchLayout)
| DiffFilterMismatch (a b : string)
| DiffAsymmetricLoss (a b : option TraceIngestLoss)
| DiffBothTruncated.

Record DiffAllowances := mkAllow { al_mismatch : bool; al_lossy : bool; al_truncated : bool }.
Record DiffOptions := mkDiffOptions { do_group_by : DiffGroupBy; do_top_n : nat; do_allow : DiffAllowances }.
Definition diff_options_default : DiffOptions := mkDiffOptions DgNone 20 (mkAllow false false false).

Inductive Tier := TExact | TEstimated | TSampled.
Definition tier_as_str (t : Tier) : string :=
  match t with TExact => "exact" | TEstimated => "estimated" | TSampled => "sampled" end.
Inductive ThresholdBasis := BasisRunToRun | BasisResolution | BasisBinding | BasisUnknown.
Definition basis_as_str (b : ThresholdBasis) : string :=
  match b with
  | BasisRunToRun => "run-to-run"
  | BasisResolution => "measurement-resolution"
  | BasisBinding => "run-to-run and measurement-resolution"
  | BasisUnknown => "unknown"
  end.

Inductive Note :=
| NoteNesting
| NoteCountMoved
| NoteCompareTotal
| NoteEmptySketch
| NoteNothingNested
| NoteNoParents (level : CollectLevel)
| NoteOneArm (presence : string)
| NoteKeyCountMoved
| NoteNoFloor.

Record Row := mkRow {
  rw_metric : string;
  rw_tier : Tier;
  rw_a : option f64;
  rw_b : option f64;
  rw_delta : option f64;
  rw_delta_pct : option f64;
  rw_threshold_abs : option f64;
  rw_threshold_pct : option f64;
  rw_basis : ThresholdBasis;
  rw_error_bound_pct : option f64;
  rw_suppressed : bool;
  rw_trustworthy : bool;
  rw_notes : list Note;
}.
Definition row_absent (metric : string) (tier : Tier) (reason : Note) : Row :=
  mkRow metric tier None None None None None None BasisUnknown None false false [reason].
Definition row_values (a b : option f64) (r : Row) : Row :=
  mkRow (rw_metric r) (rw_tier r) a b (rw_delta r) (rw_delta_pct r) (rw_threshold_abs r) (rw_threshold_pct r) (rw_basis r)
    (rw_error_bound_pct r) (rw_suppressed r) (rw_trustworthy r) (rw_notes r).
Definition row_note (n : Note) (r : Row) : Row :=
  mkRow (rw_metric r) (rw_tier r) (rw_a r) (rw_b r) (rw_delta r) (rw_delta_pct r) (rw_threshold_abs r) (rw_threshold_pct r)
    (rw_basis r) (rw_error_bound_pct r) (rw_suppressed r) (rw_trustworthy r) (rw_notes r ++ [n]).
Definition row_distrust (r : Row) : Row :=
  mkRow (rw_metric r) (rw_tier r) (rw_a r) (rw_b r) (rw_delta r) (rw_delta_pct r) (rw_threshold_abs r) (rw_threshold_pct r)
    (rw_basis r) (rw_error_bound_pct r) (rw_suppressed r) false (rw_notes r).
Definition row_error_bound (e : option f64) (r : Row) : Row :=
  mkRow (rw_metric r) (rw_tier r) (rw_a r) (rw_b r) (rw_delta r) (rw_delta_pct r) (rw_threshold_abs r) (rw_threshold_pct r)
    (rw_basis r) e (rw_suppressed r) (rw_trustworthy r) (rw_notes r).

Record GroupDiff := mkGroupDiff { gd_key : string; gd_presence : string; gd_rows : list Row }.

Record Ctx := mkCtx {
  cx_floor_pct : option f64;
  cx_count_floor_pct : option f64;
  cx_count_moved : bool;
  cx_truncated_either : bool;
  cx_total_ms_untrustworthy : bool;
  cx_level : CollectLevel;
}.

(** ** One row *)

Definition hundred : f64 := f64_of_Z 100.
Definition mean_of (a b : f64) : f64 := f64_div (SFabs (f64_add a b)) (f64_of_Z 2).
Definition finish (metric : string) (tier : Tier) (a b : f64) (threshold_pct : option f64) (basis : ThresholdBasis) : Row :=
  let delta := f64_sub b a in
  let threshold_abs := (λ p, f64_mul (f64_div p hundred) (mean_of a b)) <$> threshold_pct in
  let suppressed := match threshold_abs with Some t => f64_le (SFabs delta) t | None => false end in
  mkRow metric tier (Some a) (Some b) (Some delta)
    (if f64_eqb a (f64_of_Z 0) then None else Some (f64_mul (f64_div delta (SFabs a)) hundred))
    threshold_abs threshold_pct (match threshold_pct with None => BasisUnknown | Some _ => basis end) None suppressed true
    (match threshold_pct with None => [NoteNoFloor] | Some _ => [] end).

Definition exact_row (metric : string) (a b : f64) (ctx : Ctx) : Row :=
  let floor := if String.eqb metric "count" || String.eqb metric "error_count" then cx_count_floor_pct ctx else cx_floor_pct ctx in
  finish metric TExact a b floor BasisRunToRun.

Definition resolution_pct : f64 := f64_mul (f64_mul (f64_of_Z 2) ALPHA) hundred.
Definition estimated_row (metric : string) (a b : f64) (ctx : Ctx) : Row :=
  let '(pct, basis) :=
    match cx_floor_pct ctx with
    | Some f => (Some (if f64_gt f resolution_pct then f else resolution_pct), BasisBinding)
    | None => (Some resolution_pct, BasisResolution)
    end in
  let denom := SFabs (f64_sub a b) in
  row_error_bound
    (if f64_gt denom (f64_of_Z 0) then Some (f64_mul (f64_div (f64_mul ALPHA (SFabs (f64_add a b))) denom) hundred) else None)
    (finish metric TEstimated a b pct basis).

Definition sampled_row (metric : string) (a b : f64) (ctx : Ctx) : Row :=
  finish metric TSampled a b (cx_floor_pct ctx) BasisRunToRun.

Definition binding_floor_pct (a b : option RunToRunFloor) : option f64 :=
  ca ← a ≫= fl_cv_pct;
  cb ← b ≫= fl_cv_pct;
  Some (f64_max ca cb).
Definition count_moved_materially (a b : ExactStats) : bool :=
  let x := f64_of_N (es_count a) in
  let y := f64_of_N (es_count b) in
  let base := f64_max x y in
  if f64_eqb base (f64_of_Z 0) then false
  else f64_gt (f64_mul (f64_div (SFabs (f64_sub x y)) base) hundred) MATERIAL_COUNT_CHANGE_PCT.

(** ** The rows of the whole *)

Inductive DiffSuppressed :=
| DsMerged (spec : string)
| DsNoProjections
| DsGroupKeysDiffer
| DsNoGroupKeys
| DsNotRecorded (axis : DiffGroupBy).
Definition diff_sup_field (s : DiffSuppressed) : string :=
  match s with DsMerged _ | DsNoProjections => "sampled" | _ => "groups" end.

Definition million : f64 := f64_of_Z 1000000.
Definition PERCENTILE_NAMES : list string := ["p50_ms"; "p80_ms"; "p95_ms"; "p99_ms"]%string.
Definition sampled_pct (p : ProfileSampled) (i : nat) : option f64 :=
  match i with
  | 0%nat => ps_p50_ms p | 1%nat => ps_p80_ms p | 2%nat => ps_p95_ms p | 3%nat => ps_p99_ms p
  | _ => None
  end.
Definition ms_of (v : f64) : f64 := f64_div v million.

Definition avg_rows (a b : ExactStats) (ctx : Ctx) : list Row :=
  match avg_ns a, avg_ns b with
  | Some x, Some y =>
      if negb (cx_count_moved ctx) then [exact_row "avg_ms" (ms_of x) (ms_of y) ctx]
      else [row_note NoteCompareTotal (row_values (Some (ms_of x)) (Some (ms_of y)) (row_absent "avg_ms" TExact NoteCountMoved))]
  | _, _ => []
  end.
Definition estimated_rows (a b : ExactStats) (ctx : Ctx) : list Row :=
  zip_with (λ name q,
      match quantile_ns q a, quantile_ns q b with
      | Some x, Some y => estimated_row name (ms_of x) (ms_of y) ctx
      | _, _ => row_absent name TEstimated NoteEmptySketch
      end) PERCENTILE_NAMES PERCENTILES.
Definition truncation_distrust (ctx : Ctx) (r : Row) : Row := if cx_truncated_either ctx then row_distrust r else r.
Definition self_row (pa pb : ProfileSampled) (ctx : Ctx) : Row :=
  if has_tree (cx_level ctx) then
    match ps_self_ms pa, ps_self_ms pb with
    | Some x, Some y => truncation_distrust ctx (sampled_row "self_ms" x y ctx)
    | _, _ => row_absent "self_ms" TSampled NoteNothingNested
    end
  else row_absent "self_ms" TSampled (NoteNoParents (cx_level ctx)).
Definition sampled_rows (pa pb : ProfileSampled) (ctx : Ctx) : list Row :=
  omap (λ iname,
      match sampled_pct pa iname.1, sampled_pct pb iname.1 with
      | Some x, Some y => Some (truncation_distrust ctx (sampled_row iname.2 x y ctx))
      | _, _ => None
      end) (imap pair PERCENTILE_NAMES).
Definition is_merged (a : Arm) : bool := match ar_aggregation a with AgMerged _ => true | _ => false end.

Definition overall_rows (a b : Arm) (ctx : Ctx) : list Row * list DiffSuppressed :=
  let ta := ar_total a in
  let tb := ar_total b in
  let total := exact_row "total_ms" (ns_to_ms (es_total_ns ta)) (ns_to_ms (es_total_ns tb)) ctx in
  let rows :=
    [exact_row "count" (f64_of_N (es_count ta)) (f64_of_N (es_count tb)) ctx;
     if cx_total_ms_untrustworthy ctx then row_note NoteNesting (row_distrust total) else total]
    ++ avg_rows ta tb ctx
    ++ [exact_row "error_count" (f64_of_N (es_error_count ta)) (f64_of_N (es_error_count tb)) ctx]
    ++ estimated_rows ta tb ctx in
  match ar_projections a, ar_projections b with
  | Some pa, Some pb => (rows ++ self_row pa pb ctx :: sampled_rows pa pb ctx, [])
  | _, _ => (rows, [match List.find is_merged [a; b] with Some m => DsMerged (ar_spec m) | None => DsNoProjections end])
  end.

(** ** The rows of each group *)

(** Pieces between occurrences of [sep], leftmost first. *)
Fixpoint str_pieces (sep : string) (skip : nat) (cur s : string) : list string :=
  match s with
  | EmptyString => [str_rev cur]
  | String a s' =>
      match skip with
      | S k => str_pieces sep k cur s'
      | O => if starts_with sep s then str_rev cur :: str_pieces sep (String.length sep - 1) "" s'
             else str_pieces sep 0 (String a cur) s'
      end
  end.
Definition is_overflow (key : string) : bool :=
  String.eqb key OVERFLOW_LABEL || existsb (String.eqb OVERFLOW_LABEL) (str_pieces " / " 0 "" key).

Definition group_metric_rows (ea eb : ExactStats) (ctx : Ctx) : list Row :=
  [exact_row "count" (f64_of_N (es_count ea)) (f64_of_N (es_count eb)) ctx;
   exact_row "total_ms" (ns_to_ms (es_total_ns ea)) (ns_to_ms (es_total_ns eb)) ctx]
  ++ match avg_ns ea, avg_ns eb with
     | Some x, Some y =>
         if count_moved_materially ea eb
         then [row_values (Some (ms_of x)) (Some (ms_of y)) (row_absent "avg_ms" TExact NoteKeyCountMoved)]
         else [exact_row "avg_ms" (ms_of x) (ms_of y) ctx]
     | _, _ => []
     end
  ++ omap (λ nq,
         match quantile_ns nq.2 ea, quantile_ns nq.2 eb with
         | Some x, Some y => Some (estimated_row nq.1 (ms_of x) (ms_of y) ctx)
         | _, _ => None
         end) (zip PERCENTILE_NAMES PERCENTILES).

(** A key on one arm: the values there, and nothing to subtract. *)
Definition one_arm_rows (presence : string) (ea eb : option ExactStats) : list Row :=
  let vals (f : ExactStats → f64) := row_values (f <$> ea) (f <$> eb) in
  [vals (λ e, f64_of_N (es_count e)) (row_absent "count" TExact (NoteOneArm presence));
   vals (λ e, ns_to_ms (es_total_ns e)) (row_absent "total_ms" TExact (NoteOneArm presence))].

Definition group_diff (ra rb : Rows) (ctx : Ctx) (key : string) : GroupDiff :=
  match ra !! key, rb !! key with
  | Some ea, Some eb => mkGroupDiff key "both" (group_metric_rows ea eb ctx)
  | ea, eb =>
      let presence := if bool_decide (is_Some ea) then "a_only"%string else "b_only"%string in
      mkGroupDiff key presence (one_arm_rows presence ea eb)
  end.

(** The keys in the order met, once each, and the overflow rows met. *)
Definition key_step (st : list string * N) (k : string) : list string * N :=
  let '(keys, overflow) := st in
  if is_overflow k then (keys, u64_add overflow 1)
  else if bool_decide (k ∈ keys) then (keys, overflow) else (keys ++ [k], overflow).

Definition movement (g : GroupDiff) : option f64 :=
  SFabs <$> (List.find (λ r, String.eqb (rw_metric r) "total_ms") (gd_rows g) ≫= rw_delta).
Definition movement_cmp (x y : GroupDiff) : comparison :=
  match movement x, movement y with
  | Some dx, Some dy => cmp_then (f64_total_cmp dy dx) (String.compare (gd_key x) (gd_key y))
  | Some _, None => Lt
  | None, Some _ => Gt
  | None, None => String.compare (gd_key x) (gd_key y)
  end.
Definition movement_le (x y : GroupDiff) : Prop := movement_cmp x y ≠ Gt.
#[export] Instance movement_le_dec x y : Decision (movement_le x y).
Proof. unfold movement_le. apply _. Defined.

(** [labels] is the order in which a map of rows gives its keys. *)
Definition compare_rows (labels : Rows → list string) (ra rb : Rows) (ctx : Ctx) (top_n : nat) : list GroupDiff * nat * N :=
  let '(keys, overflow) := foldl key_step ([], 0) (labels ra ++ labels rb) in
  let out := merge_sort movement_le (group_diff ra rb ctx <$> keys) in
  (take top_n out, length out, overflow).

Definition diff_group_rows (labels : Rows → list string) (a b : Arm) (ctx : Ctx) (opts : DiffOptions)
  : list GroupDiff * nat * N * list DiffSuppressed :=
  let by_ := do_group_by opts in
  let keys_a := cd_group_keys (ar_def a) in
  let keys_b := cd_group_keys (ar_def b) in
  if bool_decide (by_ = DgNone) then ([], 0%nat, 0, [])
  else if bool_decide (by_ = DgGroup) && negb (bool_decide (keys_a = keys_b)) then ([], 0%nat, 0, [DsGroupKeysDiffer])
  else if bool_decide (by_ = DgGroup) && bool_decide (keys_a = []) && bool_decide (keys_b = []) then ([], 0%nat, 0, [DsNoGroupKeys])
  else
    let sel (x : Arm) := if bool_decide (by_ = DgName) then ar_per_name x else ar_per_group x in
    match sel a, sel b with
    | Some ra, Some rb => (compare_rows labels ra rb ctx (do_top_n opts), [])
    | _, _ => ([], 0%nat, 0, [DsNotRecorded by_])
    end.

(** ** The comparison *)

Record DiffResult := mkDiff {
  df_a : Arm;
  df_b : Arm;
  df_level : CollectLevel;
  df_trustworthy : bool;
  df_rows : list Row;
  df_grouped_by : DiffGroupBy;
  df_groups : list GroupDiff;
  df_groups_total : nat;
  df_marks : list Mark;
  df_overflow_rows_suppressed : N;
  df_suppressed : list DiffSuppressed;
}.

Definition filter_marks (a b : Arm) (allow : bool) : DiffError + list Mark :=
  let sa := cd_filter_string (ar_def a) in
  let sb := cd_filter_string (ar_def b) in
  if negb (bool_decide (canonical_filter (cd_filter (ar_def a)) = canonical_filter (cd_filter (ar_def b)))) then
    if negb allow then inl (DiffFilterMismatch sa sb) else inr [mkMark "filter" (Some "allow_mismatch"%string)]
  else if negb (String.eqb sa sb) then inr [mkMark "filter" None]
  else inr [].
Definition loss_marks (a b : Arm) (allow : bool) : DiffError + list Mark :=
  match lost_spans a, lost_spans b with
  | Some true, Some false | Some false, Some true =>
      if negb allow then inl (DiffAsymmetricLoss (ar_ingest a) (ar_ingest b))
      else inr [mkMark "ingest_loss" (Some "allow_lossy"%string)]
  | Some true, Some true => inr [mkMark "ingest_loss" None]
  | Some false, Some false => inr []
  | _, _ => inr [mkMark "ingest_loss" None]
  end.
Definition truncation_marks (a b : Arm) (allow : bool) : DiffError + list Mark :=
  if truncated a && truncated b then
    if negb allow then inl DiffBothTruncated else inr [mkMark "truncated" (Some "allow_truncated"%string)]
  else if truncated a || truncated b then inr [mkMark "truncated" None]
  else inr [].
Definition when (b : bool) (kind : string) : list Mark := if b then [mkMark kind None] else [].
Definition nested_either (a b : Arm) : bool := String.eqb (ar_nesting a) "detected" || String.eqb (ar_nesting b) "detected".
Definition nesting_unknown (a b : Arm) : bool := String.eqb (ar_nesting a) "unknown" || String.eqb (ar_nesting b) "unknown".
Definition other_marks (a b : Arm) : list Mark :=
  when (negb (bool_decide (cd_level (ar_def a) = cd_level (ar_def b)))) "level"
  ++ when (negb (bool_decide (cd_group_keys (ar_def a) = cd_group_keys (ar_def b)))) "group_keys"
  ++ when (negb (String.eqb (ar_collector a) (ar_collector b))) "collector"
  ++ when (ar_cardinality_capped a || ar_cardinality_capped b) "cardinality"
  ++ when (nested_either a b || nesting_unknown a b) "nesting".

(** [Ord] of [Level]. *)
Definition level_min (a b : CollectLevel) : CollectLevel :=
  match a, b with
  | Scalar, _ | _, Scalar => Scalar
  | Timing, _ | _, Timing => Timing
  | Tree, Tree => Tree
  end.
Definition ctx_of (a b : Arm) : Ctx :=
  mkCtx (binding_floor_pct (ar_floor a) (ar_floor b)) (binding_floor_pct (ar_count_floor a) (ar_count_floor b))
    (count_moved_materially (ar_total a) (ar_total b)) (truncated a || truncated b) (nested_either a b || nesting_unknown a b)
    (level_min (cd_level (ar_def a)) (cd_level (ar_def b))).

Definition diff (labels : Rows → list string) (a b : Arm) (opts : DiffOptions) : DiffError + DiffResult :=
  let allow := do_allow opts in
  if negb (layout_eqb (arm_layout a) (arm_layout b)) then inl (DiffLayoutMismatch (arm_layout a) (arm_layout b))
  else
    match filter_marks a b (al_mismatch allow) with
    | inl e => inl e
    | inr m1 =>
        match loss_marks a b (al_lossy allow) with
        | inl e => inl e
        | inr m2 =>
            match truncation_marks a b (al_truncated allow) with
            | inl e => inl e
            | inr m3 =>
                let marks := m1 ++ m2 ++ m3 ++ other_marks a b in
                let ctx := ctx_of a b in
                let '(rows, s1) := overall_rows a b ctx in
                let '(groups, total, overflow, s2) := diff_group_rows labels a b ctx opts in
                let trustworthy :=
                  negb (existsb (λ m, negb (is_informational m)) marks)
                  && negb (is_single_run (ar_aggregation a)) && negb (is_single_run (ar_aggregation b)) in
                inr (mkDiff a b (cx_level ctx) trustworthy rows (do_group_by opts) groups total marks overflow (s1 ++ s2))
            end
        end
    end.
End diff.
