(* ===== verification/DiffSpec.v ===== *)
(** * DiffSpec: what a comparison of two arms vouches for

    The refusals, marks and rows of a comparison; then that two filters written
    alike canonically select alike. *)

From S2P Require Import Prelude Text F64 Gelf Filter Matcher DataFile Measure Threshold Collector CollectorSamples History Project ProjectSpec Diff.
From Stdlib Require Import SpecFloat.
From stdpp Require Import sorting.

Set Default Proof Using "Type".
Local Open Scope N_scope.

Section spec.
Context {X : Externals} {SK : SketchCrate} {J : JsonScalars}.

(** ** Refusals and trust *)

(** The arms measured the same thing, in full. *)
Record comparable (a b : Arm) : Prop := {
  cm_filter : canonical_filter (cd_filter (ar_def a)) = canonical_filter (cd_filter (ar_def b));
  cm_level : cd_level (ar_def a) = cd_level (ar_def b);
  cm_keys : cd_group_keys (ar_def a) = cd_group_keys (ar_def b);
  cm_loss : lost_spans a = Some false ∧ lost_spans b = Some false;
  cm_whole : ar_sample_complete a = true ∧ ar_sample_complete b = true;
  cm_uncapped : ar_cardinality_capped a = false ∧ ar_cardinality_capped b = false;
  cm_flat : (ar_nesting a ≠ "detected" ∧ ar_nesting a ≠ "unknown") ∧ (ar_nesting b ≠ "detected" ∧ ar_nesting b ≠ "unknown");
  cm_repeated : is_single_run (ar_aggregation a) = false ∧ is_single_run (ar_aggregation b) = false;
}.

(** What blocks, in the order that it is looked at. *)
Inductive refusal (a b : Arm) (allow : DiffAllowances) : DiffError → Prop :=
| rf_filter :
    canonical_filter (cd_filter (ar_def a)) ≠ canonical_filter (cd_filter (ar_def b)) → al_mismatch allow = false →
    refusal a b allow (DiffFilterMismatch (cd_filter_string (ar_def a)) (cd_filter_string (ar_def b)))
| rf_loss x :
    (canonical_filter (cd_filter (ar_def a)) = canonical_filter (cd_filter (ar_def b)) ∨ al_mismatch allow = true) →
    lost_spans a = Some x → lost_spans b = Some (negb x) → al_lossy allow = false →
    refusal a b allow (DiffAsymmetricLoss (ar_ingest a) (ar_ingest b))
| rf_truncated :
    (canonical_filter (cd_filter (ar_def a)) = canonical_filter (cd_filter (ar_def b)) ∨ al_mismatch allow = true) →
    (∀ x, lost_spans a = Some x → lost_spans b = Some (negb x) → al_lossy allow = true) →
    ar_sample_complete a = false → ar_sample_complete b = false → al_truncated allow = false →
    refusal a b allow DiffBothTruncated.

Definition marks_ok (l : list Mark) : bool := negb (existsb (λ m, negb (is_informational m)) l).
Lemma marks_ok_app k l : marks_ok (k ++ l) = marks_ok k && marks_ok l.
Proof. unfold marks_ok. by rewrite existsb_app, negb_orb. Qed.

Lemma filter_marks_spec a b allow :
  match filter_marks a b allow with
  | inl e => canonical_filter (cd_filter (ar_def a)) ≠ canonical_filter (cd_filter (ar_def b)) ∧ allow = false ∧
             e = DiffFilterMismatch (cd_filter_string (ar_def a)) (cd_filter_string (ar_def b))
  | inr m => marks_ok m = bool_decide (canonical_filter (cd_filter (ar_def a)) = canonical_filter (cd_filter (ar_def b))) ∧
             (canonical_filter (cd_filter (ar_def a)) = canonical_filter (cd_filter (ar_def b)) ∨ allow = true)
  end.
Proof.
  unfold filter_marks. case_bool_decide as Hf; simpl; [destruct (negb _); auto|]. by destruct allow; simpl; auto.
Qed.
Lemma loss_marks_spec a b allow :
  match loss_marks a b allow with
  | inl e => (∃ x, lost_spans a = Some x ∧ lost_spans b = Some (negb x)) ∧ allow = false ∧ e = DiffAsymmetricLoss (ar_ingest a) (ar_ingest b)
  | inr m => (marks_ok m = true ↔ lost_spans a = Some false ∧ lost_spans b = Some false) ∧
             (∀ x, lost_spans a = Some x → lost_spans b = Some (negb x) → allow = true)
  end.
Proof.
  unfold loss_marks. destruct (lost_spans a) as [[]|], (lost_spans b) as [[]|], allow; simpl; try (by split; [split|]; [done|naive_solver..]);
    try (split; [|done]); eauto; naive_solver.
Qed.
Lemma truncation_marks_spec a b allow :
  match truncation_marks a b allow with
  | inl e => ar_sample_complete a = false ∧ ar_sample_complete b = false ∧ allow = false ∧ e = DiffBothTruncated
  | inr m => (marks_ok m = true ↔ ar_sample_complete a = true ∧ ar_sample_complete b = true) ∧
             (ar_sample_complete a = false → ar_sample_complete b = false → allow = true)
  end.
Proof. unfold truncation_marks, truncated. destruct (ar_sample_complete a), (ar_sample_complete b), allow; naive_solver. Qed.
Lemma other_marks_ok a b :
  marks_ok (other_marks a b) = true ↔
    cd_level (ar_def a) = cd_level (ar_def b) ∧ cd_group_keys (ar_def a) = cd_group_keys (ar_def b) ∧
    (ar_cardinality_capped a = false ∧ ar_cardinality_capped b = false) ∧
    (ar_nesting a ≠ "detected" ∧ ar_nesting a ≠ "unknown") ∧ (ar_nesting b ≠ "detected" ∧ ar_nesting b ≠ "unknown").
Proof.
  unfold other_marks, nested_either, nesting_unknown. rewrite !marks_ok_app, !andb_true_iff.
  assert (∀ c kind, kind ∈ ["level"; "group_keys"; "cardinality"; "nesting"]%string → marks_ok (when c kind) = negb c) as H.
  { intros [] kind Hk; [|done]. repeat (apply elem_of_cons in Hk as [->|Hk]; [done|]). by apply elem_of_nil in Hk. }
  assert (∀ c, marks_ok (when c "collector") = true) as H' by by intros [].
  rewrite H'. rewrite !H by set_solver.
  rewrite !negb_true_iff, !negb_false_iff, !orb_false_iff, !bool_decide_eq_true, !String.eqb_neq.
  tauto.
Qed.

(** C38: A comparison is refused exactly when the sketches' layouts differ, or
    when a difference that it blocks on is not allowed: different filters, spans
    known to be lost on one side only, or both samples cut short, looked at in
    that order. When it is not refused, it calls itself trustworthy exactly
    when the two arms measured the same thing in full: the same canonical
    filter, level and group keys, known to have lost no span, neither sample
    cut short nor a row folded, no nesting found or left unknown, and several
    runs on each side; whatever was allowed. *)
Theorem diff_gate labels a b opts :
  match diff labels a b opts with
  | inl e =>
      (layout_eqb (arm_layout a) (arm_layout b) = false ∧ e = DiffLayoutMismatch (arm_layout a) (arm_layout b)) ∨
      (layout_eqb (arm_layout a) (arm_layout b) = true ∧ refusal a b (do_allow opts) e)
  | inr r =>
      layout_eqb (arm_layout a) (arm_layout b) = true ∧ (∀ e, ¬ refusal a b (do_allow opts) e) ∧
      (df_trustworthy r = true ↔ comparable a b)
  end.
Proof.
  unfold diff. destruct (layout_eqb _ _); [|by left]. cbn [negb].
  pose proof (filter_marks_spec a b (al_mismatch (do_allow opts))) as H1. destruct (filter_marks _ _ _) as [e|m1].
  { right. split; [done|]. destruct H1 as (Hne & Hl & ->). by apply rf_filter. }
  destruct H1 as [Hm1 Hok1].
  pose proof (loss_marks_spec a b (al_lossy (do_allow opts))) as H2. destruct (loss_marks _ _ _) as [e|m2].
  { right. split; [done|]. destruct H2 as ((x & Ha & Hb) & Hl & ->). by apply (rf_loss _ _ _ x). }
  destruct H2 as [Hm2 Hok2].
  pose proof (truncation_marks_spec a b (al_truncated (do_allow opts))) as H3. destruct (truncation_marks _ _ _) as [e|m3].
  { right. split; [done|]. destruct H3 as (Ha & Hb & Hl & ->). by apply rf_truncated. }
  destruct H3 as [Hm3 Hok3].
  destruct (overall_rows a b (ctx_of a b)) as [rows s1]. destruct (diff_group_rows labels a b (ctx_of a b) opts) as [[[groups total] over] s2].
  split; [done|]. split.
  - intros e [Hne Hal|x _ Ha Hb Hal|_ _ Ha Hb Hal].
    + destruct Hok1 as [Hok1|Hok1]; [done|]. by rewrite Hok1 in Hal.
    + by rewrite (Hok2 x Ha Hb) in Hal.
    + by rewrite (Hok3 Ha Hb) in Hal.
  - cbn [df_trustworthy]. fold (marks_ok (m1 ++ m2 ++ m3 ++ other_marks a b)).
    rewrite !andb_true_iff, !marks_ok_app, !andb_true_iff, Hm1, Hm2, Hm3, other_marks_ok, bool_decide_eq_true, !negb_true_iff.
    split.
    + intros (((Hf & Hl & Hw & Hlv & Hk & Hc & Hn) & Ha) & Hb). by split.
    + intros []. split_and!; naive_solver.
Qed.
End spec.

(** ** The breakdown *)

(** [total_cmp] is a total order: it compares keys that tell floats apart. *)
Definition fkey (x : f64) : Z * (Z * Z) :=
  match x with
  | S754_infinity true => (-2, (0, 0))
  | S754_finite true m e => (-1, (- e, Z.neg m))
  | S754_zero s => (0, (if s then 0 else 1, 0))
  | S754_finite false m e => (1, (e, Z.pos m))
  | S754_infinity false => (2, (0, 0))
  | S754_nan => (3, (0, 0))
  end%Z.
Definition fkey_cmp : Z * (Z * Z) → Z * (Z * Z) → comparison := cmp_pair Z.compare (cmp_pair Z.compare Z.compare).
Lemma fkey_inj x y : fkey x = fkey y → x = y.
Proof. destruct x as [[]|[]| |[] m e], y as [[]|[]| |[] m' e']; simpl; intros [= ]; try done; f_equal; lia. Qed.
Lemma f64_total_cmp_key x y : f64_total_cmp x y = fkey_cmp (fkey x) (fkey y).
Proof.
  destruct x as [[]|[]| |[] m e], y as [[]|[]| |[] m' e']; try done; unfold f64_total_cmp, fkey_cmp, cmp_pair, cmp_then; simpl.
  - assert ((- e ?= - e')%Z = CompOpp (e ?= e')%Z) as ->
      by (rewrite <-Z.compare_antisym; destruct (Z.compare_spec (- e) (- e')), (Z.compare_spec e' e); done || lia).
    destruct (e ?= e')%Z; simpl; try done. rewrite Pos.compare_cont_spec. simpl. by destruct (Pos.compare m m').
  - destruct (e ?= e')%Z; try done. rewrite Pos.compare_cont_spec. simpl. by destruct (Pos.compare m m').
Qed.
#[export] Instance fkey_cmp_lawful : LawfulCmp fkey_cmp.
Proof. apply cmp_pair_lawful; [apply Z_lawful|apply cmp_pair_lawful; apply Z_lawful]. Qed.
#[export] Instance f64_total_cmp_lawful : LawfulCmp f64_total_cmp.
Proof.
  split; intros x y; [|intros H|intros z]; rewrite ?f64_total_cmp_key in *.
  - apply cmp_opp.
  - by apply fkey_inj, (cmp_Eq (cmp:=fkey_cmp)).
  - apply cmp_Lt.
Qed.

Section groups.
Context {X : Externals} {SK : SketchCrate} {J : JsonScalars}.

Definition move_key (g : GroupDiff) : Z * (f64 * string) :=
  (match movement g with Some _ => 0 | None => 1 end%Z, (default S754_nan (movement g), gd_key g)).
Definition move_cmp : Z * (f64 * string) → Z * (f64 * string) → comparison :=
  cmp_pair Z.compare (cmp_pair (flip f64_total_cmp) String.compare).
#[local] Instance move_cmp_lawful : LawfulCmp move_cmp.
Proof.
  apply cmp_pair_lawful; [apply Z_lawful|]. apply cmp_pair_lawful; [apply flip_lawful, f64_total_cmp_lawful|apply string_lawful].
Qed.
Lemma movement_le_key x y : movement_le x y ↔ key_le move_key move_cmp x y.
Proof.
  unfold movement_le, key_le, movement_cmp, move_cmp, move_key, cmp_pair. cbn [fst snd].
  destruct (movement x), (movement y); done.
Qed.
#[local] Instance movement_le_total : Total movement_le.
Proof. intros p q. rewrite !movement_le_key. apply (key_le_total move_key move_cmp). Qed.
#[local] Instance movement_le_trans : Transitive movement_le.
Proof. intros p q r. rewrite !movement_le_key. apply (key_le_trans move_key move_cmp). Qed.

Lemma sorted_groups_unique l l' :
  NoDup (gd_key <$> l) → l ≡ₚ l' → merge_sort movement_le l = merge_sort movement_le l'.
Proof.
  apply (merge_sort_unique movement_le gd_key). intros p q. rewrite !movement_le_key. intros H1 H2.
  by pose proof (key_le_antisym move_key move_cmp p q H1 H2) as [= _ _ Hk].
Qed.

Definition labels_of (m : gmap string ExactStats) : list string := (map_to_list m).*1.
Lemma labels_elem m k : k ∈ labels_of m ↔ is_Some (m !! k).
Proof.
  unfold labels_of. rewrite list_elem_of_fmap. split.
  - intros ([k' e] & -> & H%elem_of_map_to_list). by exists e.
  - intros [e H]. exists (k, e). by rewrite elem_of_map_to_list.
Qed.

(** The keys met: those that did not overflow, once each; and the rows that did. *)
Lemma keys_spec l : ∀ keys over keys' over',
  foldl key_step (keys, over) l = (keys', over') → NoDup keys →
  NoDup keys' ∧ (∀ k, k ∈ keys' ↔ k ∈ keys ∨ k ∈ l ∧ is_overflow k = false) ∧
  (over + N.of_nat (length (List.filter is_overflow l)) ≤ u64_max → over' = over + N.of_nat (length (List.filter is_overflow l))).
Proof.
  induction l as [|k l IH]; intros keys over keys' over'; simpl.
  { intros [= <- <-] Hn. split; [done|]. split; [|lia]. intros k. rewrite elem_of_nil. tauto. }
  destruct (is_overflow k) eqn:Ho.
  - intros E Hn. apply IH in E as (H1 & H2 & H3); [|done]. split; [done|].
    split; [intros k'; rewrite H2, elem_of_cons; intuition congruence|].
    cbn [length]. rewrite Nat2N.inj_succ. intros Hle. rewrite u64_add_small in H3 by lia. rewrite H3 by lia. lia.
  - case_bool_decide as Hin; intros E Hn; apply IH in E as (H1 & H2 & H3); try done.
    + split; [done|]. split; [|done]. intros k'. rewrite H2, elem_of_cons. intuition congruence.
    + split; [done|]. split; [|done]. intros k'. rewrite H2, elem_of_cons, elem_of_app, list_elem_of_singleton. intuition congruence.
    + apply NoDup_app. split_and!; [done|by intros x Hx ->%list_elem_of_singleton|apply NoDup_singleton].
Qed.

(** A breakdown compares every key once. Whatever the order that the
    maps are walked in, the same rows in the same order: each key that either
    arm has and that did not overflow, once, with the rows of its two sides,
    sorted by how far the total moved; what is returned are the first of them,
    and the total says how many there are; the rows dropped are counted, those
    of either arm. *)
Theorem compare_rows_account labels ra rb ctx top_n :
  (∀ m, labels m ≡ₚ labels_of m) →
  let over := (length (List.filter is_overflow (labels_of ra)) + length (List.filter is_overflow (labels_of rb)))%nat in
  N.of_nat over ≤ u64_max →
  ∃ all, compare_rows labels ra rb ctx top_n = (take top_n all, length all, N.of_nat over) ∧
    (∀ labels', (∀ m, labels' m ≡ₚ labels_of m) → compare_rows labels' ra rb ctx top_n = compare_rows labels ra rb ctx top_n) ∧
    NoDup (gd_key <$> all) ∧ StronglySorted movement_le all ∧
    (∀ g, g ∈ all → g = group_diff ra rb ctx (gd_key g)) ∧
    (∀ k, k ∈ gd_key <$> all ↔ is_overflow k = false ∧ (is_Some (ra !! k) ∨ is_Some (rb !! k))).
Proof.
  intros Hl over Hover. set (keys l := (foldl key_step ([], 0) (l ra ++ l rb)).1).
  assert (∀ l, (∀ m, l m ≡ₚ labels_of m) →
    foldl key_step ([], 0) (l ra ++ l rb) = (keys l, N.of_nat over) ∧ NoDup (keys l) ∧
    ∀ k, k ∈ keys l ↔ is_overflow k = false ∧ (is_Some (ra !! k) ∨ is_Some (rb !! k))) as Hkeys.
  { intros l Hp. subst keys. cbn beta. destruct (foldl key_step ([], 0) (l ra ++ l rb)) as [ks ov] eqn:E.
    apply keys_spec in E as (H1 & H2 & H3); [|constructor].
    assert (length (List.filter is_overflow (l ra ++ l rb)) = over) as Hlen.
    { subst over. rewrite List.filter_app, length_app. f_equal; apply Permutation_length, lfilter_Permutation, Hp. }
    rewrite Hlen in H3. rewrite H3 by lia. split; [done|]. split; [done|]. intros k. rewrite H2, elem_of_app, !Hp, !labels_elem, elem_of_nil. tauto. }
  assert (∀ l : list string, gd_key <$> (group_diff ra rb ctx <$> l) = l) as Hid.
  { intros l. rewrite <-list_fmap_compose. rewrite <-(list_fmap_id l) at 2. apply list_fmap_ext. intros i k _. simpl.
    unfold group_diff. by destruct (ra !! k), (rb !! k). }
  destruct (Hkeys labels Hl) as (E & Hn & Hk).
  exists (merge_sort movement_le (group_diff ra rb ctx <$> keys labels)). split_and!.
  - unfold compare_rows. by rewrite E.
  - intros l' Hl'. destruct (Hkeys l' Hl') as (E' & Hn' & Hk'). unfold compare_rows. rewrite E, E'.
    rewrite (sorted_groups_unique (group_diff ra rb ctx <$> keys l') (group_diff ra rb ctx <$> keys labels)); [done|by rewrite Hid|].
    f_equiv. apply NoDup_Permutation; [done..|]. intros k. by rewrite Hk, Hk'.
  - by rewrite merge_sort_Permutation, Hid.
  - apply StronglySorted_merge_sort; apply _.
  - intros g. rewrite merge_sort_Permutation. intros (k & -> & _)%list_elem_of_fmap. f_equal.
    unfold group_diff. by destruct (ra !! k), (rb !! k).
  - intros k. by rewrite merge_sort_Permutation, Hid.
Qed.
End groups.

(** ** A witness, and where a breakdown loses a row *)

Definition sample_stats (n : N) (ns : Z) : ExactStats (SK:=sample_sketch) := mkExact n ns (Some 1%Z) (Some ns) 0 0 0 0 sketch_new.
Definition sample_rows_a : gmap string (ExactStats (SK:=sample_sketch)) :=
  {["a" := sample_stats 1 10; "both" := sample_stats 2 20; OVERFLOW_LABEL := sample_stats 9 9]}.
Definition sample_rows_b : gmap string (ExactStats (SK:=sample_sketch)) := {["both" := sample_stats 2 50]}.
Definition sample_ctx : Ctx := mkCtx None None false false false Tree.
Lemma compare_rows_account_witness :
  ∃ all, compare_rows labels_of sample_rows_a sample_rows_b sample_ctx 1 = (take 1 all, length all, 1) ∧
    (∀ k, k ∈ gd_key <$> all ↔ is_overflow k = false ∧ (is_Some (sample_rows_a !! k) ∨ is_Some (sample_rows_b !! k))).
Proof.
  destruct (compare_rows_account labels_of sample_rows_a sample_rows_b sample_ctx 1) as (all & H & _ & _ & _ & _ & Hk);
    [done|vm_compute; discriminate|].
  exists all. split; [|exact Hk]. rewrite H. f_equal.
Defined.

(** Two tuples of group values that read alike: a recorded run keeps the row of
    one of them, a merge of runs adds them. *)
Lemma labels_collide :
  let rows := [(String.concat " / " ["a / b"; "c"], sample_stats 1 10); (String.concat " / " ["a"; "b / c"], sample_stats 2 20)]%string in
  (es_count <$> collect_rows rows !! "a / b / c"%string) = Some 2 ∧
  (es_count <$> merge_by_label [rows] !! "a / b / c"%string) = Some 3.
Proof. split; vm_compute; reflexivity. Qed.

(** ** The bits of a float *)

(** A [spec_float] that is an [f64]. *)
Definition f64_ok (x : f64) : Prop := SpecFloat.valid_binary 53 1024 x = true.

Lemma digits2_bounds m : (2 ^ (Z.pos (digits2_pos m) - 1) <= Z.pos m < 2 ^ Z.pos (digits2_pos m))%Z.
Proof.
  induction m as [m IH|m IH|]; [| |by cbn];
    cbn [digits2_pos]; rewrite Pos2Z.inj_succ, Z.pow_succ_r by lia;
    replace (Z.succ (Z.pos (digits2_pos m)) - 1)%Z with (Z.succ (Z.pos (digits2_pos m) - 1))%Z by lia;
    rewrite Z.pow_succ_r by lia; lia.
Qed.
(** A finite [f64] is normal, or has the least exponent. *)
Lemma finite_ok s m e :
  f64_ok (S754_finite s m e) → (-1074 <= e <= 971 ∧ Z.pos m < 9007199254740992 ∧ (4503599627370496 <= Z.pos m ∨ e = -1074))%Z.
Proof.
  unfold f64_ok. cbn [valid_binary]. unfold bounded, canonical_mantissa. rewrite andb_true_iff. intros [H1%Z.eqb_eq H2%Z.leb_le].
  unfold fexp, emin in H1. pose proof (digits2_bounds m) as Hd.
  assert (Z.pos (digits2_pos m) <= 53)%Z as Hle by lia.
  split; [lia|]. split.
  - eapply Z.lt_le_trans; [apply Hd|]. change 9007199254740992%Z with (2 ^ 53)%Z. apply Z.pow_le_mono_r; lia.
  - destruct (decide (e = -1074)%Z) as [|Hne]; [by right|left]. change 4503599627370496%Z with (2 ^ 52)%Z.
    replace 52%Z with (Z.pos (digits2_pos m) - 1)%Z by lia. apply Hd.
Qed.

Lemma two_52_eq : two_52 = 4503599627370496.
Proof. reflexivity. Qed.
Lemma finite_magnitude s m e :
  f64_ok (S754_finite s m e) → 0 < magnitude_bits (S754_finite s m e) < 2047 * two_52.
Proof.
  intros (He & Hm & Hn)%finite_ok. cbn [magnitude_bits]. rewrite ?two_52_eq in *. destruct (N.ltb_spec (N.pos m) 4503599627370496); lia.
Qed.
Lemma magnitude_small x : f64_ok x → magnitude_bits x < 9223372036854775808.
Proof. intros H. destruct x as [| | |s m e]; try done. pose proof (finite_magnitude s m e H). rewrite ?two_52_eq in *. lia. Qed.
Lemma finite_bits_inj s s' m e m' e' :
  (-1074 <= e <= 971 ∧ Z.pos m < 9007199254740992 ∧ (4503599627370496 <= Z.pos m ∨ e = -1074))%Z →
  (-1074 <= e' <= 971 ∧ Z.pos m' < 9007199254740992 ∧ (4503599627370496 <= Z.pos m' ∨ e' = -1074))%Z →
  magnitude_bits (S754_finite s m e) = magnitude_bits (S754_finite s' m' e') → m = m' ∧ e = e'.
Proof.
  intros (H1 & H2 & H3) (H4 & H5 & H6). cbn [magnitude_bits]. rewrite two_52_eq.
  destruct (N.ltb_spec (N.pos m) 4503599627370496), (N.ltb_spec (N.pos m') 4503599627370496); intros E; split; lia.
Qed.
Lemma special_magnitudes s :
  magnitude_bits (S754_zero s) = 0 ∧ magnitude_bits (S754_infinity s) = 2047 * two_52 ∧
  2047 * two_52 < magnitude_bits S754_nan.
Proof. split; [done|]. split; [done|]. cbn [magnitude_bits]. rewrite two_52_eq. lia. Qed.
Lemma f64_to_bits_inj x y : f64_ok x → f64_ok y → f64_to_bits x = f64_to_bits y → x = y.
Proof.
  intros Hx Hy H. assert (sign_bit x = sign_bit y ∧ magnitude_bits x = magnitude_bits y) as [Hs Hm].
  { unfold f64_to_bits in H. pose proof (magnitude_small x Hx). pose proof (magnitude_small y Hy).
    destruct (sign_bit x), (sign_bit y); split; lia || done. }
  clear H. destruct (special_magnitudes false) as (_ & _ & Hnan). rewrite two_52_eq in Hnan.
  destruct x as [sx|sx| |sx mx ex], y as [sy|sy| |sy my ey]; cbn [sign_bit] in Hs;
    try (pose proof (finite_magnitude _ _ _ Hx)); try (pose proof (finite_magnitude _ _ _ Hy));
    try rewrite (proj1 (special_magnitudes sx)) in Hm; try rewrite (proj1 (special_magnitudes sy)) in Hm;
    try rewrite (proj1 (proj2 (special_magnitudes sx))) in Hm; try rewrite (proj1 (proj2 (special_magnitudes sy))) in Hm;
    rewrite ?two_52_eq in *.
  all: try (rewrite Hs; reflexivity). all: try reflexivity. all: try (clear -Hm Hnan; exfalso; lia).
  7: { apply finite_ok in Hx, Hy. destruct (finite_bits_inj sx sy mx ex my ey Hx Hy Hm) as [-> ->]. by rewrite Hs. }
  all: exfalso; rewrite <-?Hm in H; rewrite ?Hm in H; revert H Hm Hnan; generalize (magnitude_bits S754_nan); clear; intros; lia.
Qed.
Lemma f64_to_bits_small x : f64_ok x → f64_to_bits x < 16 ^ 16.
Proof. intros H%magnitude_small. unfold f64_to_bits. destruct (sign_bit x); lia. Qed.

(** ** Injective texts *)

Lemma hex_digit_inj : ∀ a b, a < 16 → b < 16 → hex_digit a = hex_digit b → a = b.
Proof.
  assert (∀ a, a < 16 → N_of_ascii (hex_digit a) = if a <? 10 then 48 + a else 87 + a) as H.
  { intros a Ha. unfold hex_digit. destruct (a <? 10) eqn:E; apply N_ascii_embedding; lia. }
  intros a b Ha Hb E%(f_equal N_of_ascii). rewrite !H in E by done. destruct (N.ltb_spec a 10), (N.ltb_spec b 10); lia.
Qed.
Lemma hex_digits_inj fuel : ∀ n m a b,
  n < 16 ^ N.of_nat fuel → m < 16 ^ N.of_nat fuel → hex_digits fuel n a = hex_digits fuel m b → n = m ∧ a = b.
Proof.
  induction fuel as [|fuel IH]; intros n m a b Hn Hm; cbn [hex_digits].
  { intros ->. split; [|done]. simpl in *. lia. }
  rewrite Nat2N.inj_succ, N.pow_succ_r' in Hn, Hm. intros [Hd [= Hx ->]]%IH; try (apply N.Div0.div_lt_upper_bound; lia).
  apply hex_digit_inj in Hx; try (by apply N.mod_lt). split; [|done].
  rewrite (N.div_mod n 16), (N.div_mod m 16) by done. congruence.
Qed.

(** ** Canonical texts *)

Section canon.
Context {X : Externals} {SK : SketchCrate} {J : JsonScalars}.

(** As the parser leaves a pattern: lowercase, or compiled from its source. *)
Definition pattern_ok (p : Pattern) : Prop :=
  match p with
  | Substring s => to_lowercase s = s
  | PRegex src compiled ci => Regex_new (if ci then "(?i)" +:+ src else src)%string = inr compiled
  end.
(** The names that the canonical text keeps apart. *)
Definition selector_ok (s : Selector) : Prop :=
  match s with AdditionalField f => to_lowercase f = f ∧ str_has ":" f = false | _ => True end.
Definition qualifier_ok (q : Qualifier) : Prop :=
  match q with
  | BarePattern p => pattern_ok p
  | SelectorPattern s p => selector_ok s ∧ pattern_ok p
  | DurationFilter _ v => f64_ok v
  | _ => True
  end.
Definition filter_ok (f : ParsedFilter) : Prop := match f with Qualifiers qs => Forall qualifier_ok qs | _ => True end.

Lemma canonical_pattern_inj p q : pattern_ok p → pattern_ok q → canonical_pattern p = canonical_pattern q → p = q.
Proof.
  destruct p as [s|src c ci], q as [s'|src' c' ci']; simpl; intros Hp Hq; try discriminate.
  - intros E%(inj (String.append "sub:")). rewrite Hp, Hq in E. by rewrite E.
  - intros E%(inj (String.append "re:")). destruct ci, ci'; cbn [bool_str] in E; try discriminate E;
      apply (inj (String.append _)), (inj (String.append ":")) in E; subst; rewrite Hp in Hq; injection Hq as ->; done.
Qed.

Lemma canonical_selector_inj s s' t t' :
  selector_ok s → selector_ok s' →
  (canonical_selector s +:+ ":" +:+ t = canonical_selector s' +:+ ":" +:+ t')%string → s = s' ∧ t = t'.
Proof.
  intros Hs Hs' E. pose proof (f_equal (split_once ":") E) as E1.
  destruct s as [| | | | | | | | | | |f], s' as [| | | | | | | | | | |f']; simpl in E1; try discriminate E1;
    try (injection E1 as E1; split; [done|exact E1]).
  simpl in Hs, Hs'. destruct Hs as [Hf Hc], Hs' as [Hf' Hc']. injection E1 as E1.
  change (to_lowercase f +:+ String ":" t = to_lowercase f' +:+ String ":" t')%string in E1. rewrite Hf, Hf' in E1.
  apply (f_equal (split_once ":")) in E1. rewrite !split_once_first in E1 by done. by injection E1 as -> ->.
Qed.

Lemma canonical_qualifier_inj q q' : qualifier_ok q → qualifier_ok q' → canonical_qualifier q = canonical_qualifier q' → q = q'.
Proof.
  destruct q as [p|s p|op l|op v|op n|n|op v|v], q' as [p'|s' p'|op' l'|op' v'|op' n'|n'|op' v'|v']; intros Hq Hq' E;
    try (simpl in E; discriminate E); simpl in Hq, Hq'.
  - apply (inj (String.append "bare:")) in E. by rewrite (canonical_pattern_inj p p').
  - destruct Hq as [Hs Hp], Hq' as [Hs' Hp']. apply (inj (String.append "sel:")) in E.
    apply canonical_selector_inj in E as [-> E]; [|done..]. by rewrite (canonical_pattern_inj p p').
  - apply (inj (String.append "lvl:")) in E. destruct op, op'; try discriminate E; apply (inj (String.append _)) in E;
      destruct l, l'; try discriminate E; done.
  - apply (inj (String.append "dur:")) in E. destruct op, op'; try discriminate E; apply (inj (String.append _)), (inj (String.append ":")) in E;
      apply hex_digits_inj in E as [E _]; try (by apply f64_to_bits_small); by rewrite (f64_to_bits_inj v v').
  - apply (inj (String.append "bm:")) in E. destruct op, op'; try discriminate E; apply (inj (String.append _)), (inj (String.append ":")) in E; by rewrite E.
  - apply (inj (String.append "cur:")) in E. by rewrite E.
  - apply (inj (String.append "seq:")) in E. destruct op, op'; try discriminate E; apply (inj (String.append _)), (inj (String.append ":")), (inj pretty) in E; by rewrite E.
  - apply (inj (String.append "curseq:")), (inj pretty) in E. by rewrite E.
Qed.

Lemma qualifier_head q : canonical_qualifier q ≠ "ALL"%string ∧ canonical_qualifier q ≠ "NONE"%string.
Proof. by destruct q. Qed.
Lemma canonical_elem qs l : canonical_filter (Qualifiers qs) = l → ∀ c, c ∈ l ↔ ∃ q, q ∈ qs ∧ canonical_qualifier q = c.
Proof.
  intros <- c. simpl. rewrite merge_sort_Permutation, list_elem_of_fmap. naive_solver.
Qed.
Lemma qualifiers_same qs qs' :
  Forall qualifier_ok qs → Forall qualifier_ok qs' → canonical_filter (Qualifiers qs) = canonical_filter (Qualifiers qs') →
  ∀ q, q ∈ qs → q ∈ qs'.
Proof.
  rewrite !Forall_forall. intros Hok Hok' E q Hq. pose proof (canonical_elem qs' _ (eq_sym E) (canonical_qualifier q)) as [H _].
  destruct H as (q' & Hq' & Hc); [apply (canonical_elem qs _ eq_refl); by exists q|].
  by rewrite <-(canonical_qualifier_inj q' q) by auto.
Qed.
Lemma forallb_same {A} (f : A → bool) l k : (∀ x, x ∈ l ↔ x ∈ k) → forallb f l = forallb f k.
Proof.
  intros H. apply eq_iff_eq_true. rewrite !forallb_forall. setoid_rewrite <-list_elem_of_In. naive_solver.
Qed.
Lemma canonical_same f g :
  filter_ok f → filter_ok g → canonical_filter f = canonical_filter g →
  (∀ s, matches_span f s = matches_span g s) ∧ (∀ e, matches_entry f e = matches_entry g e).
Proof.
  intros Hf Hg E. destruct f as [| |qs], g as [| |qs']; try done.
  1: pose proof (canonical_elem qs' _ (eq_sym E) "ALL"%string) as [H _].
  2: pose proof (canonical_elem qs' _ (eq_sym E) "NONE"%string) as [H _].
  3: pose proof (canonical_elem qs _ E "ALL"%string) as [H _].
  4: pose proof (canonical_elem qs _ E "NONE"%string) as [H _].
  1-4: destruct H as (q & _ & H); [by left|]; by destruct (qualifier_head q).
  assert (∀ q, q ∈ qs ↔ q ∈ qs') as H by (intros q; split; by eapply qualifiers_same).
  split; intros x; simpl; by apply forallb_same.
Qed.

(** C39: Two arms that a comparison does not mark for a difference of their
    filters that was allowed measured the same population: whatever the span,
    the filter of one takes it exactly when the filter of the other does, in
    whatever order and however spelled their qualifiers are. This needs field
    names that are lowercase and hold no colon: the canonical text folds the
    one and is ambiguous on the other. *)
Theorem diff_same_population labels a b opts r :
  filter_ok (cd_filter (ar_def a)) → filter_ok (cd_filter (ar_def b)) → diff labels a b opts = inr r →
  mkMark "filter" (Some "allow_mismatch"%string) ∉ df_marks r →
  (∀ s, matches_span (cd_filter (ar_def a)) s = matches_span (cd_filter (ar_def b)) s) ∧
  (∀ e, matches_entry (cd_filter (ar_def a)) e = matches_entry (cd_filter (ar_def b)) e).
Proof.
  intros Ha Hb Hd Hm. apply canonical_same; [done..|]. unfold diff in Hd. destruct (negb _); [done|].
  destruct (filter_marks a b _) as [e|m1] eqn:E1; [done|]. unfold filter_marks in E1.
  case_bool_decide as Hc; [done|]. simpl in E1. destruct (negb _); [done|]. injection E1 as <-. exfalso. apply Hm.
  destruct (loss_marks _ _ _); [done|]. destruct (truncation_marks _ _ _); [done|].
  destruct (overall_rows _ _ _). destruct (diff_group_rows _ _ _ _ _) as [[[? ?] ?] ?]. injection Hd as <-. by left.
Qed.
End canon.

(** ** A witness, and where the canonical text misleads *)

#[local] Existing Instance sample_externals.
#[local] Existing Instance sample_scalars.
Definition sample_filters : ParsedFilter * ParsedFilter :=
  (Qualifiers [SelectorPattern SpanName (Substring "db"); DurationFilter DGte (f64_of_Z 5)],
   Qualifiers [DurationFilter DGte (f64_of_Z 5); SelectorPattern SpanName (Substring "db")]).
Definition sample_arm (text : string) (f : ParsedFilter) : Arm (SK:=sample_sketch) :=
  mkArm "c@*" "c" (AgMerged ["r1"; "r2"]%string) (mkDef "c" text f Tree [] 1024 None None) exact_new None None None "undetected"
    (Some loss_default) true false (f64_of_Z 1) None None None None [] false None None.
Lemma diff_same_population_witness :
  let a := sample_arm "sn=db, d>=5" sample_filters.1 in
  let b := sample_arm "d>=5, sn=DB" sample_filters.2 in
  (∃ r, diff (λ m, (map_to_list m).*1) a b diff_options_default = inr r ∧ df_trustworthy r = true) ∧
  ∀ s, matches_span sample_filters.1 s = matches_span sample_filters.2 s.
Proof.
  cbn zeta. set (a := sample_arm _ sample_filters.1). set (b := sample_arm _ sample_filters.2).
  assert (match diff (λ m, (map_to_list m).*1) a b diff_options_default with
          | inr r => df_trustworthy r && (length (df_marks r) =? 1)%nat && forallb (λ m, bool_decide (mk_overridden_by m = None)) (df_marks r)
          | inl _ => false end = true) as Hok by (vm_compute; reflexivity).
  destruct (diff (λ m, (map_to_list m).*1) a b diff_options_default) as [e|r] eqn:E; [discriminate Hok|].
  apply andb_true_iff in Hok as [Hok Hm]. apply andb_true_iff in Hok as [Ht _]. split; [exists r; split; [reflexivity|exact Ht]|].
  apply (diff_same_population (λ m, (map_to_list m).*1) a b diff_options_default r); [repeat constructor..|exact E|].
  intros Hin%list_elem_of_In. rewrite forallb_forall in Hm. apply Hm in Hin. discriminate Hin.
Defined.

Definition tenant_span : SpanEntry :=
  mkSpanEntry 0 7 1 None 10 20 (f64_of_Z 1) "db" KInternal "svc" SUnset {["Tenant" := "x"]}%string [].
Lemma field_case_folded :
  let f := Qualifiers [SelectorPattern (AdditionalField "Tenant") (Substring (X:=sample_externals) "x")] in
  let g := Qualifiers [SelectorPattern (AdditionalField "tenant") (Substring (X:=sample_externals) "x")] in
  parse_filter "Tenant=x" = inr f ∧ parse_filter "tenant=x" = inr g ∧ canonical_filter f = canonical_filter g ∧
  matches_span f tenant_span = true ∧ matches_span g tenant_span = false.
Proof. split_and!; vm_compute; reflexivity. Qed.
Lemma colon_ambiguous :
  let f := Qualifiers [SelectorPattern (AdditionalField "a") (Substring (X:=sample_externals) "x:sub:b")] in
  let g := Qualifiers [SelectorPattern (AdditionalField "a:sub:x") (Substring (X:=sample_externals) "b")] in
  parse_filter "a=x:sub:b" = inr f ∧ parse_filter "a:sub:x=b" = inr g ∧ canonical_filter f = canonical_filter g.
Proof. split_and!; vm_compute; reflexivity. Qed.
