(* ===== verification/Capped.v ===== *)
(** * Capped: tables that stop learning keys

    Several tables of the broker hold a bounded number of keys: a key that is
    known keeps counting, a new one past the cap is folded elsewhere. [capped]
    is such a table with all it was given, by key, and what it folded; a concrete
    table is the image of it. *)

From S2P Require Import Prelude.

Set Default Proof Using "Type".

Section capped.
Context {K A : Type} `{Countable K} (cap : nat) (exempt : K → bool).

(** The keys it starts with, which have been given nothing. *)
Context (seeds : list K).
Definition seeded : gmap K (list A) := list_to_map ((λ k, (k, [])) <$> seeds).

Definition admits {B} (m : gmap K B) (k : K) : bool := exempt k || bool_decide (is_Some (m !! k)) || (size m <? cap)%nat.
Definition capped_step (st : gmap K (list A) * list (K * A)) (ka : K * A) : gmap K (list A) * list (K * A) :=
  if admits st.1 ka.1 then (<[ka.1 := default [] (st.1 !! ka.1) ++ [ka.2]]> st.1, st.2) else (st.1, st.2 ++ [ka]).
Definition capped (l : list (K * A)) : gmap K (list A) * list (K * A) := foldl capped_step (seeded, []) l.
Definition of_key (k : K) (l : list (K * A)) : list A := snd <$> List.filter (λ ka, bool_decide (ka.1 = k)) l.

Lemma capped_snoc l ka : capped (l ++ [ka]) = capped_step (capped l) ka.
Proof. unfold capped. by rewrite foldl_app. Qed.
Lemma of_key_snoc k l ka : of_key k (l ++ [ka]) = of_key k l ++ (if bool_decide (ka.1 = k) then [ka.2] else []).
Proof. unfold of_key. rewrite List.filter_app, fmap_app. simpl. by destruct (bool_decide (ka.1 = k)). Qed.
Lemma of_key_nil k l : of_key k l = [] ↔ ∀ a, (k, a) ∉ l.
Proof.
  unfold of_key. split.
  - intros E%fmap_nil_inv a Hin. assert ((k, a) ∈ List.filter (λ ka, bool_decide (ka.1 = k)) l) as Hf
      by (apply elem_of_lfilter; by rewrite bool_decide_eq_true_2). rewrite E in Hf. by apply elem_of_nil in Hf.
  - intros Hn. induction l as [|[k' a] l IH]; simpl; [done|]. case_bool_decide as E; simpl in E.
    + subst. exfalso. apply (Hn a). by left.
    + apply IH. intros a' Hin. apply (Hn a'). by right.
Qed.

(** What a run leaves: a known key has all it was given, and what is folded are
    the entries of the unknown ones, in order. *)
Record capped_ok (l : list (K * A)) (m : gmap K (list A)) (folded : list (K * A)) : Prop := {
  co_known k : m !! k = if bool_decide (is_Some (m !! k)) then Some (of_key k l) else None;
  co_seeds k : k ∈ seeds → is_Some (m !! k);
  co_nonempty k : m !! k = Some [] → k ∈ seeds;
  co_folded : folded = List.filter (λ ka, negb (bool_decide (is_Some (m !! ka.1)))) l;
  co_exempt ka : ka ∈ folded → exempt ka.1 = false;
  co_full : folded ≠ [] → cap ≤ size m;
  co_size : length seeds ≤ cap → size (filter (λ kv, exempt kv.1 = false) m) ≤ cap;
}.

Lemma learn_size (m : gmap K (list A)) k (v : list A) :
  admits m k = true → size (filter (λ kv, exempt kv.1 = false) m) ≤ cap →
  size (filter (λ kv, exempt kv.1 = false) (<[k := v]> m)) ≤ cap.
Proof.
  intros Ha Hs. destruct (exempt k) eqn:He.
  - rewrite map_filter_insert_False by (simpl; congruence). etrans; [|exact Hs]. apply map_subseteq_size.
    apply map_filter_subseteq_mono. intros. apply delete_subseteq.
  - rewrite map_filter_insert_True by done. destruct (filter (λ kv, exempt kv.1 = false) m !! k) as [w|] eqn:E.
    + by rewrite map_size_insert_Some by by eexists.
    + rewrite map_size_insert_None by done. unfold admits in Ha. rewrite He in Ha. simpl in Ha.
      apply orb_true_iff in Ha as [[w Hw]%bool_decide_eq_true|Hlt%Nat.ltb_lt].
      * rewrite map_lookup_filter_Some_2 with (x:=w) in E by done. done.
      * enough (size (filter (λ kv, exempt kv.1 = false) m) ≤ size m) by lia. apply map_subseteq_size, map_filter_subseteq.
Qed.

Lemma unknown_unseen l (m : gmap K (list A)) folded k :
  capped_ok l m folded → admits m k = true → m !! k = None → ∀ a, (k, a) ∉ l.
Proof.
  intros [IK ID IN IF IE IU IS] Ha E a Hin.
  assert ((k, a) ∈ folded) as Hf by (rewrite IF; apply elem_of_lfilter; cbn [fst]; by rewrite E).
  pose proof (IE _ Hf) as He. cbn [fst] in He. unfold admits in Ha. rewrite He, E in Ha. simpl in Ha. apply Nat.ltb_lt in Ha.
  destruct folded; [by apply elem_of_nil in Hf|]. specialize (IU ltac:(done)). lia.
Qed.

Lemma capped_learn l (m : gmap K (list A)) folded k a :
  capped_ok l m folded → admits m k = true → capped_ok (l ++ [(k, a)]) (<[k := default [] (m !! k) ++ [a]]> m) folded.
Proof.
  intros Hok Ha. pose proof (unknown_unseen l m folded k Hok Ha) as Hun. destruct Hok as [IK ID IN IF IE IU IS].
  assert (default [] (m !! k) = of_key k l) as ->.
  { specialize (IK k). case_bool_decide as E; [by rewrite IK|]. rewrite IK. symmetry. apply of_key_nil, Hun, IK. }
  split; [| | | |done| |intros Hl; by apply learn_size, IS].
  - intros k'. rewrite of_key_snoc. cbn [fst snd]. destruct (decide (k' = k)) as [->|Hne].
    + rewrite lookup_insert_eq, !bool_decide_eq_true_2 by (done || by eexists). done.
    + rewrite lookup_insert_ne, (bool_decide_eq_false_2 (k = k')), app_nil_r by done. apply IK.
  - intros k' Hk'. destruct (decide (k' = k)) as [->|Hne]; [rewrite lookup_insert_eq; by eexists|]. rewrite lookup_insert_ne by done. by apply ID.
  - intros k'. destruct (decide (k' = k)) as [->|Hne]; [rewrite lookup_insert_eq; intros [= E]; by destruct (of_key k l)|].
    rewrite lookup_insert_ne by done. apply IN.
  - rewrite List.filter_app. cbn [List.filter fst]. rewrite lookup_insert_eq, bool_decide_eq_true_2, app_nil_r by by eexists.
    rewrite IF at 1. apply filter_ext_in. intros [k' a'] Hin%list_elem_of_In. cbn [fst]. f_equal.
    destruct (decide (k' = k)) as [->|Hne]; [|by rewrite lookup_insert_ne].
    rewrite lookup_insert_eq. destruct (m !! k) eqn:E; [by rewrite !bool_decide_eq_true_2 by by eexists|]. by destruct (Hun eq_refl a').
  - intros Hf. specialize (IU Hf). rewrite map_size_insert. destruct (m !! k); simpl; lia.
Qed.

Lemma capped_fold l (m : gmap K (list A)) folded k a :
  capped_ok l m folded → admits m k = false → capped_ok (l ++ [(k, a)]) m (folded ++ [(k, a)]).
Proof.
  intros [IK ID IN IF IE IU IS] Ha. unfold admits in Ha. apply orb_false_iff in Ha as [Ha Hc%Nat.ltb_ge].
  apply orb_false_iff in Ha as [He Hk%bool_decide_eq_false]. apply eq_None_not_Some in Hk. split; [|done|done| | |done|done].
  - intros k'. rewrite of_key_snoc. cbn [fst snd]. case_bool_decide as E; [|by rewrite (IK k'), bool_decide_eq_false_2].
    rewrite (bool_decide_eq_false_2 (k = k')), app_nil_r by (intros ->; rewrite Hk in E; by destruct E).
    by rewrite (IK k'), bool_decide_eq_true_2.
  - rewrite List.filter_app, IF. cbn [List.filter fst]. by rewrite Hk.
  - intros ka [H1|H1%list_elem_of_singleton]%elem_of_app; [by apply IE|by subst].
Qed.

Lemma seeded_lookup k : seeded !! k = if bool_decide (k ∈ seeds) then Some [] else None.
Proof.
  unfold seeded. induction seeds as [|k' ks IH]; [done|]. cbn [fmap list_fmap list_to_map foldr uncurry fst snd].
  destruct (decide (k' = k)) as [->|Hne]; [rewrite lookup_insert_eq, bool_decide_eq_true_2 by (by left); done|].
  rewrite lookup_insert_ne, IH by done. case_bool_decide as E1; case_bool_decide as E2; try done.
  - destruct E2. by right.
  - by apply elem_of_cons in E2 as [->|].
Qed.
Lemma seeded_size : size seeded ≤ length seeds.
Proof.
  unfold seeded. induction seeds as [|k ks IH]; [cbn; by rewrite map_size_empty|]. rewrite fmap_cons, list_to_map_cons.
  rewrite map_size_insert. destruct (_ !! k); simpl; lia.
Qed.

Lemma capped_spec l : capped_ok l (capped l).1 (capped l).2.
Proof.
  induction l as [|[k a] l IH] using rev_ind.
  - cbn [capped foldl fst snd]. split.
    + intros k. rewrite seeded_lookup. case_bool_decide; [by rewrite bool_decide_eq_true_2 by by eexists|done].
    + intros k Hk. rewrite seeded_lookup, bool_decide_eq_true_2 by done. by eexists.
    + intros k. rewrite seeded_lookup. by case_bool_decide.
    + done.
    + intros ka Hin. by apply elem_of_nil in Hin.
    + done.
    + intros Hl. etrans; [apply map_subseteq_size, map_filter_subseteq|]. pose proof seeded_size. lia.
  - rewrite capped_snoc. destruct (capped l) as [m folded]. cbn [fst snd] in *. unfold capped_step. cbn [fst snd].
    destruct (admits m k) eqn:Ea; cbn [fst snd]; [by apply capped_learn|by apply capped_fold].
Qed.
End capped.
