(* ===== verification/LogProfile.v ===== *)
(** * LogProfile: how log records distribute along an axis ([logs/profile.rs])

    Counters are of records in memory, so they are numbers without a width. The
    order the table of groups is walked in is an argument of [finish]; the
    percentage in a remedy is the number, not its two decimals. *)

From Stdlib Require Import SpecFloat.
From stdpp Require Import sorting.
From S2P Require Import Prelude Text F64 Gelf Filter Matcher DataFile Measure Threshold Collector History Project.

Set Default Proof Using "Type".
Local Open Scope N_scope.

Definition KEY_CAP : nat := N.to_nat DEFAULT_GROUP_VALUE_CAP.
#[global] Arguments KEY_CAP : simpl never.
Definition MAX_GROUP_BY_KEYS : nat := 8.

(** [Display] of a level. *)
Definition Level_display (l : Level) : string :=
  match l with Error => "ERROR" | Warn => "WARN" | Info => "INFO" | Debug => "DEBUG" | Trace => "TRACE" end.

Inductive Axis := AxNone | AxLevel | AxMessage | AxHost | AxFacility | AxFile | AxLine | AxTraceId | AxSpanId | AxField.
#[global] Instance Axis_eq_dec : EqDecision Axis.
Proof. solve_decision. Defined.

Definition Axis_ALL : list Axis :=
  [AxNone; AxLevel; AxMessage; AxHost; AxFacility; AxFile; AxLine; AxTraceId; AxSpanId; AxField].
Definition axis_as_str (a : Axis) : string :=
  match a with
  | AxNone => "none" | AxLevel => "level" | AxMessage => "message" | AxHost => "host" | AxFacility => "facility"
  | AxFile => "file" | AxLine => "line" | AxTraceId => "trace_id" | AxSpanId => "span_id" | AxField => "field"
  end.
Definition axis_accepted : string := one_of (axis_as_str <$> Axis_ALL).
Definition axis_parse (s : string) : option Axis :=
  if String.eqb s "none" || String.eqb s "" then Some AxNone
  else if String.eqb s "level" then Some AxLevel
  else if String.eqb s "message" then Some AxMessage
  else if String.eqb s "host" then Some AxHost
  else if String.eqb s "facility" then Some AxFacility
  else if String.eqb s "file" then Some AxFile
  else if String.eqb s "line" then Some AxLine
  else if String.eqb s "trace_id" then Some AxTraceId
  else if String.eqb s "span_id" then Some AxSpanId
  else if String.eqb s "field" then Some AxField
  else None.

Definition member_label (a : Axis) (keys : list string) (i : nat) : string :=
  match a with AxField => default "" (keys !! i) | other => axis_as_str other end.
Definition suppressed_field (a : Axis) (i : nat) : string :=
  match a with AxField => "group_keys[" +:+ pretty (N.of_nat i) +:+ "]" | _ => "group_by" end.

(** ** Keys *)

Inductive MemberKey := MkValue (s : string) | MkAbsent | MkOverflow.
#[global] Instance MemberKey_eq_dec : EqDecision MemberKey.
Proof. solve_decision. Defined.
#[global] Instance MemberKey_countable : Countable MemberKey.
Proof.
  apply (inj_countable' (λ k, match k with MkValue s => inl s | MkAbsent => inr true | MkOverflow => inr false end)
    (λ k, match k with inl s => MkValue s | inr true => MkAbsent | inr false => MkOverflow end)).
  by intros [].
Defined.

Definition member_key_label (k : MemberKey) : string :=
  match k with MkValue s => s | MkAbsent => ABSENT_LABEL | MkOverflow => OVERFLOW_LABEL end.

Inductive Reserved := RsAbsent | RsOverflow.
#[global] Instance Reserved_eq_dec : EqDecision Reserved.
Proof. solve_decision. Defined.

Definition reserved_kind (key : list MemberKey) : option Reserved :=
  if forallb (λ m, bool_decide (m = MkAbsent)) key then Some RsAbsent
  else if forallb (λ m, bool_decide (m = MkOverflow)) key then Some RsOverflow
  else None.

Definition label (key : list MemberKey) : string :=
  match key with [k] => member_key_label k | _ => String.concat " / " (member_key_label <$> key) end.

Record LevelCounts := mkLevels { lc_trace : N; lc_debug : N; lc_info : N; lc_warn : N; lc_error : N }.
Definition no_levels : LevelCounts := mkLevels 0 0 0 0 0.
Definition levels_total (c : LevelCounts) : N := lc_trace c + lc_debug c + lc_info c + lc_warn c + lc_error c.

Definition bump (c : LevelCounts) (l : Level) : LevelCounts :=
  let '(mkLevels t d i w e) := c in
  match l with
  | Trace => mkLevels (t + 1) d i w e
  | Debug => mkLevels t (d + 1) i w e
  | Info => mkLevels t d (i + 1) w e
  | Warn => mkLevels t d i (w + 1) e
  | Error => mkLevels t d i w (e + 1)
  end.

Section profile.
Context {X : Externals} {J : JsonScalars}.

(** ** One group *)

Record Acc := mkAcc {
  ac_count : N;
  ac_levels : LevelCounts;
  ac_first_seq : N;
  ac_first_time : Z;
  ac_first_exemplar : string;
  ac_last_seq : N;
  ac_last_time : Z;
  ac_last_exemplar : string;
}.

Definition acc_new (e : LogEntry) : Acc :=
  mkAcc 1 (bump no_levels (level e)) (seq e) (timestamp e) (message e) (seq e) (timestamp e) (message e).

Definition acc_observe (a : Acc) (e : LogEntry) : Acc :=
  let '(mkAcc c ls fs ft fx qs qt qx) := a in
  let '(fs, ft, fx) := if seq e <? fs then (seq e, timestamp e, message e) else (fs, ft, fx) in
  let '(qs, qt, qx) := if qs <? seq e then (seq e, timestamp e, message e) else (qs, qt, qx) in
  mkAcc (c + 1) (bump ls (level e)) fs ft fx qs qt qx.

(** ** The table of groups *)

Record GroupMap := mkGroupMap {
  gm_axis : Axis;
  gm_keys : list string;
  gm_accs : gmap (list MemberKey) Acc;
  gm_capped : bool;
  gm_present : list N;
  gm_structured : list N;
  gm_alt : list N;
  gm_levels : LevelCounts;
  gm_matched : N;
  gm_first : option (N * Z);
  gm_last : option (N * Z);
}.

Definition members_of (a : Axis) (keys : list string) : nat :=
  if bool_decide (a = AxField) then Nat.max (length keys) 1 else 1.

Definition groups_new (a : Axis) (keys : list string) : GroupMap :=
  let zeros := repeat 0 (members_of a keys) in
  mkGroupMap a keys ∅ false zeros zeros zeros no_levels 0 None None.

Inductive Extracted := ExValue (s : string) | ExMissing | ExStructured.

Definition is_dimension (v : Value) : bool :=
  bool_decide (is_Some (Value_as_str v)) || bool_decide (is_Some (Value_as_number v)) || bool_decide (is_Some (Value_as_bool v)).

(** [render] of [logs/fields.rs] is [value_text]. *)
Definition extract (a : Axis) (keys : list string) (e : LogEntry) (i : nat) : Extracted :=
  let opt o := match o with Some s => ExValue s | None => ExMissing end in
  match a with
  | AxLevel => opt (Some (Level_display (level e)))
  | AxMessage => opt (Some (message e))
  | AxHost => opt (if String.eqb (host e) "" then None else Some (host e))
  | AxFacility => opt (facility e)
  | AxFile => opt (file e)
  | AxLine => opt (pretty <$> line e)
  | AxTraceId => opt ((λ t, hex_digits 32 t "") <$> trace_id e)
  | AxSpanId => opt ((λ s, hex_digits 16 s "") <$> span_id e)
  | AxField =>
      match keys !! i with
      | None => ExMissing
      | Some name =>
          match additional_fields e !! name with
          | None => ExMissing
          | Some v => if is_dimension v then ExValue (value_text v) else ExStructured
          end
      end
  | AxNone => ExMissing
  end.

(** One turn of the loop over the members: the key so far, [present] and [structured]. *)
Definition member_step (a : Axis) (keys : list string) (e : LogEntry)
  (st : list MemberKey * list N * list N) (i : nat) : list MemberKey * list N * list N :=
  let '(key, present, structured) := st in
  match extract a keys e i with
  | ExValue v => (key ++ [MkValue v], alter N.succ i present, structured)
  | ExStructured => (key ++ [MkAbsent], present, alter N.succ i structured)
  | ExMissing => (key ++ [MkAbsent], present, structured)
  end.

Definition group_insert (accs : gmap (list MemberKey) Acc) (key : list MemberKey) (e : LogEntry) : gmap (list MemberKey) Acc :=
  <[key := match accs !! key with Some a => acc_observe a e | None => acc_new e end]> accs.

Definition groups_observe (m : GroupMap) (e : LogEntry) : GroupMap :=
  let '(mkGroupMap a keys accs capped present structured alt levels matched first last) := m in
  let matched := matched + 1 in
  let levels := bump levels (level e) in
  let here := (seq e, timestamp e) in
  let first := match first with Some (s, _) => if seq e <? s then Some here else first | None => Some here end in
  let last := match last with Some (s, _) => if s <? seq e then Some here else last | None => Some here end in
  if bool_decide (a = AxNone) then mkGroupMap a keys accs capped present structured alt levels matched first last
  else
    let alt := if bool_decide (a ≠ AxField) && bool_decide (is_Some (additional_fields e !! axis_as_str a))
               then alter N.succ 0%nat alt else alt in
    let '(key, present, structured) := foldl (member_step a keys e) ([], present, structured) (List.seq 0 (length present)) in
    let exempt := bool_decide (is_Some (reserved_kind key)) in
    if negb exempt && negb (bool_decide (is_Some (accs !! key))) && (KEY_CAP <=? size accs)%nat
    then mkGroupMap a keys (group_insert accs (repeat MkOverflow (length key)) e) true present structured alt levels matched first last
    else mkGroupMap a keys (group_insert accs key e) capped present structured alt levels matched first last.

Record Bounds := mkBounds { bd_first_seq : option N; bd_last_seq : option N; bd_first_time : option Z; bd_last_time : option Z }.
Definition groups_bounds (m : GroupMap) : Bounds :=
  mkBounds (fst <$> gm_first m) (fst <$> gm_last m) (snd <$> gm_first m) (snd <$> gm_last m).

(** ** What is announced *)

(** A remedy: the additional field to group by, and how many percent of the
    records it covers. *)
Record LogSuppressed := mkLogSuppressed { su_field : string; su_reason : string; su_remedy : option (string * f64) }.

Definition structured_reason (name : string) (structured present matched : N) : string :=
  pretty structured +:+ " of " +:+ pretty matched +:+ " records carry `" +:+ name +:+
  "` with a null, array or object value, which is not a dimension; they are counted in `" +:+ ABSENT_LABEL +:+ "`" +:+
  (if present =? 0 then " — so `" +:+ name +:+ "` never appeared with a value that can be grouped, and every row is `" +:+ ABSENT_LABEL +:+ "`"
   else "").
Definition absent_reason (name : string) (matched : N) : string :=
  "`" +:+ name +:+ "` did not appear in any of the " +:+ pretty matched +:+ " matched records, so every row is `" +:+ ABSENT_LABEL +:+ "`".

Definition suppressed_at (m : GroupMap) (i : nat) (present : N) : option LogSuppressed :=
  let name := member_label (gm_axis m) (gm_keys m) i in
  let structured := default 0 (gm_structured m !! i) in
  let alt := default 0 (gm_alt m !! i) in
  if 0 <? structured then
    Some (mkLogSuppressed (suppressed_field (gm_axis m) i) (structured_reason name structured present (gm_matched m)) None)
  else if present =? 0 then
    Some (mkLogSuppressed (suppressed_field (gm_axis m) i) (absent_reason name (gm_matched m))
      (if 0 <? alt then Some (name, f64_div (f64_mul (f64_of_Z 100) (f64_of_Z (Z.of_N alt))) (f64_of_Z (Z.of_N (gm_matched m)))) else None))
  else None.

Definition groups_suppressed (m : GroupMap) : list LogSuppressed :=
  if (gm_matched m =? 0) || bool_decide (gm_axis m = AxNone) then []
  else omap id (imap (suppressed_at m) (gm_present m)).

(** ** The rows *)

Record LogGroup := mkLogGroup {
  lg_key : string;
  lg_reserved : option Reserved;
  lg_acc : Acc;
}.

Definition row_of (ka : list MemberKey * Acc) : LogGroup := mkLogGroup (label ka.1) (reserved_kind ka.1) ka.2.

Definition real_cmp (x y : LogGroup) : comparison :=
  cmp_then (N.compare (ac_count (lg_acc y)) (ac_count (lg_acc x)))
    (cmp_then (String.compare (lg_key x) (lg_key y)) (N.compare (ac_first_seq (lg_acc x)) (ac_first_seq (lg_acc y)))).
Definition real_le (x y : LogGroup) : Prop := real_cmp x y ≠ Gt.
#[global] Instance real_le_dec x y : Decision (real_le x y).
Proof. unfold real_le. apply _. Defined.

Definition reserved_rank (r : LogGroup) : N := match lg_reserved r with Some RsOverflow => 1 | _ => 0 end.

Definition groups_finish (order : list (list MemberKey * Acc) → list (list MemberKey * Acc)) (m : GroupMap) (top_n : nat)
  : list LogGroup * nat :=
  if bool_decide (gm_axis m = AxNone) then ([], 0%nat)
  else
    let rows := row_of <$> order (map_to_list (gm_accs m)) in
    let real := List.filter (λ r, negb (bool_decide (is_Some (lg_reserved r)))) rows in
    let reserved := List.filter (λ r, bool_decide (is_Some (lg_reserved r))) rows in
    (take top_n (merge_sort real_le real) ++ sort_by_key reserved_rank reserved, size (gm_accs m)).

Definition profile_summarize order (es : list LogEntry) (a : Axis) (keys : list string) (top_n : nat) : list LogGroup * nat :=
  groups_finish order (foldl groups_observe (groups_new a keys) es) top_n.
End profile.
