(* ===== verification/LogProfileSpec.v ===== *)
(** * LogProfileSpec: a profile accounts for every record

    [logs.profile] groups the matched records by a key per record. The table
    that is bounded under the store lock is [Capped]'s, so its rows are exact:
    each describes all the records that have its key, and the records of the
    keys it never learned are the overflow row's. *)

From stdpp Require Import sorting.
From S2P Require Import Prelude Text F64 Gelf Filter Matcher Samples DataFile Measure Threshold Collector CollectorSamples Project Capped LogProfile.

Set Default Proof Using "Type".
Local Open Scope N_scope.

Definition level_count (c : LevelCounts) (l : Level) : N :=
  match l with Trace => lc_trace c | Debug => lc_debug c | Info => lc_info c | Warn => lc_warn c | Error => lc_error c end.

Lemma level_count_bump c l l' : level_count (bump c l) l' = level_count c l' + if decide (l = l') then 1 else 0.
Proof. destruct c, l, l'; simpl; lia. Qed.

#[export] Instance N_lawful : LawfulCmp N.compare.
Proof. split; [intros; by rewrite N.compare_antisym|apply N.compare_eq|intros a b c; rewrite !N.compare_lt_iff; lia]. Qed.

Section spec.
Context {X : Externals} {J : JsonScalars}.

Definition with_level (l : Level) (es : list LogEntry) : list LogEntry := List.filter (λ e, bool_decide (level e = l)) es.
Definition all_levels (c : LevelCounts) (es : list LogEntry) : Prop :=
  ∀ l, level_count c l = N.of_nat (length (with_level l es)).

Lemma all_levels_snoc c es e : all_levels c es → all_levels (bump c (level e)) (es ++ [e]).
Proof.
  intros H1 l. rewrite level_count_bump, H1. unfold with_level. rewrite List.filter_app, length_app. simpl.
  case_bool_decide; case_decide; try done; simpl; lia.
Qed.

(** ** One row *)

Record describes (a : Acc) (es : list LogEntry) : Prop := {
  ds_count : ac_count a = N.of_nat (length es);
  ds_levels : all_levels (ac_levels a) es;
  ds_first : ∃ f, f ∈ es ∧ (∀ e, e ∈ es → seq f ≤ seq e) ∧
    ac_first_seq a = seq f ∧ ac_first_time a = timestamp f ∧ ac_first_exemplar a = message f;
  ds_last : ∃ f, f ∈ es ∧ (∀ e, e ∈ es → seq e ≤ seq f) ∧
    ac_last_seq a = seq f ∧ ac_last_time a = timestamp f ∧ ac_last_exemplar a = message f;
}.

Lemma describes_new e : describes (acc_new e) [e].
Proof.
  split; [done|apply (all_levels_snoc no_levels [] e); by intros []|..]; exists e; (split_and!; [by left|intros e'|done..]);
  intros ->%list_elem_of_singleton; lia.
Qed.

Lemma describes_observe a es e : describes a es → describes (acc_observe a e) (es ++ [e]).
Proof.
  destruct a as [c ls fs ft fx qs qt qx]. intros [HC HL (f & Hf & Hmin & Ef) (q & Hq & Hmax & Eq)]. simpl in HC, HL, Ef, Eq.
  unfold acc_observe. destruct Ef as (-> & -> & ->), Eq as (-> & -> & ->).
  destruct (N.ltb_spec (seq e) (seq f)) as [H1|H1]; destruct (N.ltb_spec (seq q) (seq e)) as [H2|H2];
    (split; cbn [ac_count ac_levels ac_first_seq ac_first_time ac_first_exemplar ac_last_seq ac_last_time ac_last_exemplar];
     [rewrite HC, length_app; simpl; lia|by apply all_levels_snoc|..]).
  all: match goal with
       | |- ∃ g, _ ∧ _ ∧ seq ?f = seq g ∧ _ => exists f
       end; (split_and!; [apply elem_of_app; (by left) || (right; by left)
                         |intros e' [He| ->%list_elem_of_singleton]%elem_of_app;
                          [specialize (Hmin _ He); specialize (Hmax _ He)|]; lia|done..]).
Qed.

(** The accumulator of a group, in the order its records were walked. *)
Definition group_acc (es : list LogEntry) : option Acc :=
  match es with [] => None | e :: es => Some (foldl acc_observe (acc_new e) es) end.
Lemma group_acc_snoc es e : group_acc (es ++ [e]) = Some (match group_acc es with Some a => acc_observe a e | None => acc_new e end).
Proof. destruct es as [|e' es]; simpl; [done|]. by rewrite foldl_app. Qed.
Lemma group_acc_describes es a : group_acc es = Some a → describes a es.
Proof.
  revert a. induction es as [|e es IH] using rev_ind; [done|]. intros a. rewrite group_acc_snoc. intros [= <-].
  destruct (group_acc es) as [b|] eqn:E; [by apply describes_observe, IH|]. destruct es; [apply describes_new|done].
Qed.
(** ** One record's key and what it counts *)

Definition key_of (a : Axis) (keys : list string) (e : LogEntry) : list MemberKey :=
  (λ i, match extract a keys e i with ExValue v => MkValue v | _ => MkAbsent end) <$> List.seq 0 (members_of a keys).

Definition has_value (a : Axis) (keys : list string) (i : nat) (e : LogEntry) : bool :=
  match extract a keys e i with ExValue _ => true | _ => false end.
Definition has_structure (a : Axis) (keys : list string) (i : nat) (e : LogEntry) : bool :=
  match extract a keys e i with ExStructured => true | _ => false end.

Definition count_if (p : LogEntry → bool) (es : list LogEntry) : N := N.of_nat (length (List.filter p es)).
Lemma count_if_snoc p es e : count_if p (es ++ [e]) = count_if p es + if p e then 1 else 0.
Proof. unfold count_if. rewrite List.filter_app, length_app. simpl. destruct (p e); simpl; lia. Qed.
Lemma count_if_pos p es : 0 < count_if p es ↔ ∃ e, e ∈ es ∧ p e = true.
Proof.
  unfold count_if. split.
  - destruct (List.filter p es) as [|e l] eqn:E; simpl; [lia|]. intros _. exists e. apply and_comm, elem_of_lfilter. rewrite E. by left.
  - intros (e & He & Hp). destruct (List.filter p es) as [|e' l] eqn:E; simpl; [|lia].
    assert (e ∈ List.filter p es) as Hf by by apply elem_of_lfilter. rewrite E in Hf. by apply elem_of_nil in Hf.
Qed.

Definition bump_if (n : nat) (t : nat → bool) (l : list N) : list N :=
  imap (λ i x, if bool_decide (i < n)%nat && t i then N.succ x else x) l.
Lemma bump_if_S n (t : nat → bool) (l : list N) : (if t n then alter N.succ n (bump_if n t l) else bump_if n t l) = bump_if (S n) t l.
Proof.
  apply list_eq. intros i.
  assert (∀ m : nat, bump_if m t l !! i = (λ x : N, if bool_decide (i < m)%nat && t i then N.succ x else x) <$> l !! i) as Hl
    by (intros m; unfold bump_if; apply list_lookup_imap).
  rewrite (Hl (S n)). destruct (decide (i = n)) as [->|Hne].
  - rewrite (bool_decide_eq_true_2 (n < S n)%nat) by lia. destruct (t n) eqn:Et; simpl.
    + rewrite list_lookup_alter, Hl. rewrite bool_decide_eq_false_2 by lia.
      rewrite decide_True by done. by destruct (l !! n).
    + rewrite Hl, bool_decide_eq_false_2 by lia. done.
  - assert (bool_decide (i < S n)%nat = bool_decide (i < n)%nat) as -> by (apply bool_decide_ext; lia).
    destruct (t n); [rewrite list_lookup_alter_ne by done|]; apply Hl.
Qed.

Lemma members_fold a keys e n present structured :
  foldl (member_step a keys e) ([], present, structured) (List.seq 0 n)
  = ((λ i, match extract a keys e i with ExValue v => MkValue v | _ => MkAbsent end) <$> List.seq 0 n,
     bump_if n (λ i, has_value a keys i e) present, bump_if n (λ i, has_structure a keys i e) structured).
Proof.
  induction n as [|n IH].
  - simpl. unfold bump_if. f_equal; [f_equal|]; (apply list_eq; intros i; rewrite list_lookup_imap, bool_decide_eq_false_2 by lia; simpl; by destruct (_ !! i)).
  - rewrite List.seq_S, foldl_app, IH, fmap_app, <-!bump_if_S. simpl. unfold has_value, has_structure.
    by destruct (extract a keys e n).
Qed.

Lemma bump_if_counts n (p : nat → LogEntry → bool) es e :
  bump_if n (λ i, p i e) ((λ i, count_if (p i) es) <$> List.seq 0 n) = (λ i, count_if (p i) (es ++ [e])) <$> List.seq 0 n.
Proof.
  apply list_eq. intros i. unfold bump_if. rewrite list_lookup_imap, !list_lookup_fmap.
  destruct (List.seq 0 n !! i) as [j|] eqn:E; [|done]. apply lookup_seq in E as [-> Hlt]. simpl.
  rewrite bool_decide_eq_true_2 by done. simpl. rewrite count_if_snoc. f_equal. destruct (p i e); lia.
Qed.
(** ** The table is a capped one *)

Definition exempt (key : list MemberKey) : bool := bool_decide (is_Some (reserved_kind key)).
Definition keyed (a : Axis) (keys : list string) (es : list LogEntry) : list (list MemberKey * LogEntry) :=
  (λ e, (key_of a keys e, e)) <$> es.
Definition learnt (a : Axis) (keys : list string) (es : list LogEntry) : gmap (list MemberKey) (list LogEntry) :=
  (capped KEY_CAP exempt [] (keyed a keys es)).1.
Definition folded (a : Axis) (keys : list string) (es : list LogEntry) : list (list MemberKey * LogEntry) :=
  (capped KEY_CAP exempt [] (keyed a keys es)).2.
Definition overflow_key (a : Axis) (keys : list string) : list MemberKey := repeat MkOverflow (members_of a keys).
Definition absent_key (a : Axis) (keys : list string) : list MemberKey := repeat MkAbsent (members_of a keys).

Lemma members_pos a keys : (0 < members_of a keys)%nat.
Proof. unfold members_of. case_bool_decide; lia. Qed.
Lemma length_key_of a keys e : length (key_of a keys e) = members_of a keys.
Proof. unfold key_of. by rewrite length_fmap, List.length_seq. Qed.
Lemma key_of_no_overflow a keys e : MkOverflow ∉ key_of a keys e.
Proof. unfold key_of. intros (i & E & _)%list_elem_of_fmap. by destruct (extract a keys e i). Qed.
Lemma overflow_key_in a keys : MkOverflow ∈ overflow_key a keys.
Proof. unfold overflow_key. pose proof (members_pos a keys). destruct (members_of a keys); [lia|]. by left. Qed.
Lemma key_of_overflow a keys e : key_of a keys e ≠ overflow_key a keys.
Proof. intros E. apply (key_of_no_overflow a keys e). rewrite E. apply overflow_key_in. Qed.

Record table_ok (ovf : list MemberKey) (accs : gmap (list MemberKey) Acc) (km : gmap (list MemberKey) (list LogEntry))
  (fd : list (list MemberKey * LogEntry)) : Prop := {
  tb_known k : k ≠ ovf → accs !! k = km !! k ≫= group_acc;
  tb_overflow : accs !! ovf = group_acc fd.*2;
  tb_free : km !! ovf = None;
  tb_size : size accs = (size km + match fd with [] => 0 | _ => 1 end)%nat;
}.

Lemma table_learn ovf accs km fd k e :
  table_ok ovf accs km fd → k ≠ ovf → (km !! k ≠ Some []) →
  table_ok ovf (group_insert accs k e) (<[k := default [] (km !! k) ++ [e]]> km) fd.
Proof.
  intros [TK TO TF TS] Hk Hne. unfold group_insert. split.
  - intros k' Hk'. destruct (decide (k' = k)) as [->|Hd]; [|rewrite !lookup_insert_ne by done; by apply TK].
    rewrite !lookup_insert_eq, (TK k Hk). simpl. rewrite group_acc_snoc. by destruct (km !! k).
  - by rewrite lookup_insert_ne.
  - by rewrite lookup_insert_ne.
  - rewrite !map_size_insert, (TK k Hk). destruct (km !! k) as [[|e' es]|]; simpl; [done|lia..].
Qed.

Lemma table_fold ovf accs km fd k e :
  table_ok ovf accs km fd → table_ok ovf (group_insert accs ovf e) km (fd ++ [(k, e)]).
Proof.
  intros [TK TO TF TS]. unfold group_insert. split.
  - intros k' Hk'. rewrite lookup_insert_ne by done. by apply TK.
  - rewrite lookup_insert_eq, TO, fmap_app. change ([(k, e)].*2) with [e]. by rewrite group_acc_snoc.
  - done.
  - rewrite map_size_insert, TO, TS. destruct fd as [|[k' e'] fd]; simpl; lia.
Qed.

Lemma table_admits ovf accs km fd a keys es k :
  table_ok ovf accs km fd → capped_ok KEY_CAP exempt [] (keyed a keys es) km fd → k ≠ ovf →
  negb (exempt k) && negb (bool_decide (is_Some (accs !! k))) && (KEY_CAP <=? size accs)%nat = negb (admits KEY_CAP exempt km k).
Proof.
  intros [TK TO TF TS] [CK CD CN CF CE CU CS] Hk. unfold admits. rewrite !negb_orb. f_equal; [f_equal; f_equal|].
  - apply bool_decide_ext. rewrite (TK k Hk). specialize (CN k). destruct (km !! k) as [[|e' l]|]; simpl; [|split; intros _; by eexists|done].
    by destruct (not_elem_of_nil k (CN eq_refl)).
  - rewrite <-Nat.leb_antisym, TS. destruct fd as [|x fd]; [by rewrite Nat.add_0_r|]. specialize (CU ltac:(done)).
    by rewrite !(proj2 (Nat.leb_le _ _)) by lia.
Qed.

(** ** What the map is after a walk *)

Definition alt_count (a : Axis) (es : list LogEntry) : N :=
  if bool_decide (a = AxField) then 0 else count_if (λ e, bool_decide (is_Some (additional_fields e !! axis_as_str a))) es.

Record groups_ok (a : Axis) (keys : list string) (es : list LogEntry) (m : GroupMap) : Prop := {
  go_axis : gm_axis m = a;
  go_keys : gm_keys m = keys;
  go_table : table_ok (overflow_key a keys) (gm_accs m) (learnt a keys es) (folded a keys es);
  go_capped : gm_capped m = bool_decide (folded a keys es ≠ []);
  go_present : gm_present m = (λ i, count_if (has_value a keys i) es) <$> List.seq 0 (members_of a keys);
  go_structured : gm_structured m = (λ i, count_if (has_structure a keys i) es) <$> List.seq 0 (members_of a keys);
  go_alt : gm_alt m !! 0%nat = Some (alt_count a es) ∧ ∀ i, default 0 (gm_alt m !! S i) = 0;
  go_levels : all_levels (gm_levels m) es;
  go_matched : gm_matched m = N.of_nat (length es);
}.
Lemma keyed_snoc a keys es e : keyed a keys (es ++ [e]) = keyed a keys es ++ [(key_of a keys e, e)].
Proof. unfold keyed. by rewrite fmap_app. Qed.

Lemma groups_ok_new a keys : groups_ok a keys [] (groups_new a keys).
Proof.
  assert (∀ (f : nat → N) n i, (∀ j, f j = 0) → repeat 0 n = f <$> List.seq i n) as Hz.
  { intros f n. induction n as [|n IH]; intros i Hf; simpl; [done|]. by rewrite Hf, (IH (S i)). }
  split; try done.
  - simpl. by apply Hz.
  - simpl. by apply Hz.
  - simpl. pose proof (members_pos a keys). split.
    + unfold alt_count. destruct (members_of a keys); [lia|]. simpl. by case_bool_decide.
    + intros i. destruct (repeat 0 (members_of a keys) !! S i) as [x|] eqn:E; [|done]. by apply list_elem_of_lookup_2, list_elem_of_In, repeat_spec in E as ->.
  - by intros [].
Qed.

Lemma groups_ok_snoc a keys es m e :
  a ≠ AxNone → groups_ok a keys es m → groups_ok a keys (es ++ [e]) (groups_observe m e).
Proof.
  intros Ha [GA GK GT GC GP GS (G0 & G1) GL GM]. destruct m as [a' keys' accs cap present structured alt levels matched fst' lst'].
  cbn [gm_axis gm_keys gm_accs gm_capped gm_present gm_structured gm_alt gm_levels gm_matched] in *. subst a' keys' present structured.
  pose proof (capped_spec KEY_CAP exempt [] (keyed a keys es)) as Hc. fold (learnt a keys es) in Hc. fold (folded a keys es) in Hc.
  unfold groups_observe. rewrite bool_decide_eq_false_2 by done.
  rewrite length_fmap, List.length_seq, members_fold, !bump_if_counts. fold (key_of a keys e). fold (exempt (key_of a keys e)).
  rewrite (table_admits _ _ _ _ a keys es _ GT Hc (key_of_overflow a keys e)).
  assert (let alt' := if bool_decide (a ≠ AxField) && bool_decide (is_Some (additional_fields e !! axis_as_str a)) then alter N.succ 0%nat alt else alt in
          alt' !! 0%nat = Some (alt_count a (es ++ [e])) ∧ ∀ i, default 0 (alt' !! S i) = 0) as Halt.
  { cbv zeta. unfold alt_count in *. destruct (decide (a = AxField)) as [E1|E1].
    - rewrite !(bool_decide_eq_true_2 (a = AxField)) in * by done. by rewrite bool_decide_eq_false_2 by (intros H1; by apply H1).
    - rewrite !(bool_decide_eq_false_2 (a = AxField)) in * by done. rewrite (bool_decide_eq_true_2 (a ≠ AxField)), count_if_snoc by done.
      destruct (bool_decide (is_Some (additional_fields e !! axis_as_str a))); simpl; [|by rewrite N.add_0_r].
      split; [|intros i; by rewrite list_lookup_alter_ne]. rewrite list_lookup_alter, G0, decide_True by done. simpl. f_equal. lia. }
  assert (all_levels (bump levels (level e)) (es ++ [e]) ∧ matched + 1 = N.of_nat (length (es ++ [e]))) as [HL HM]
    by (split; [by apply all_levels_snoc|rewrite length_app, GM; simpl; lia]).
  assert (capped KEY_CAP exempt [] (keyed a keys (es ++ [e])) = capped_step KEY_CAP exempt (learnt a keys es, folded a keys es) (key_of a keys e, e)) as Hs
    by (rewrite keyed_snoc, capped_snoc; unfold learnt, folded; by destruct (capped _ _ _ _)).
  unfold capped_step in Hs. cbn [fst snd] in Hs. destruct (admits KEY_CAP exempt (learnt a keys es) (key_of a keys e)); cbn [negb].
  - split; cbn [gm_axis gm_keys gm_accs gm_capped gm_present gm_structured gm_alt gm_levels gm_matched]; try done;
      unfold learnt, folded; rewrite Hs; cbn [fst snd]; [|done].
    apply table_learn; [done|apply key_of_overflow|]. intros E. by destruct (not_elem_of_nil (key_of a keys e) (co_nonempty _ _ _ _ _ _ Hc _ E)).
  - split; cbn [gm_axis gm_keys gm_accs gm_capped gm_present gm_structured gm_alt gm_levels gm_matched]; try done;
      unfold learnt, folded; rewrite Hs; cbn [fst snd].
    + rewrite length_key_of. by apply table_fold.
    + symmetry. apply bool_decide_eq_true_2. by destruct (folded a keys es).
Qed.

Lemma groups_ok_run a keys es : a ≠ AxNone → groups_ok a keys es (foldl groups_observe (groups_new a keys) es).
Proof.
  intros Ha. induction es as [|e es IH] using rev_ind; [apply groups_ok_new|]. rewrite foldl_app. by apply groups_ok_snoc.
Qed.
(** ** The rows *)

Definition records_of (a : Axis) (keys : list string) (k : list MemberKey) (es : list LogEntry) : list LogEntry :=
  List.filter (λ e, bool_decide (key_of a keys e = k)) es.
Definition unlearnt (a : Axis) (keys : list string) (es : list LogEntry) : list LogEntry :=
  List.filter (λ e, negb (bool_decide (is_Some (learnt a keys es !! key_of a keys e)))) es.

Lemma elem_of_records_of a keys k es e : e ∈ records_of a keys k es ↔ key_of a keys e = k ∧ e ∈ es.
Proof. unfold records_of. by rewrite elem_of_lfilter, bool_decide_eq_true. Qed.

Section walked.
Context (a : Axis) (keys : list string) (es : list LogEntry) (Ha : a ≠ AxNone).
Abbreviation m := (foldl groups_observe (groups_new a keys) es).
Abbreviation km := (learnt a keys es).

Lemma walked : groups_ok a keys es m.
Proof using Ha. by apply groups_ok_run. Qed.
Lemma learning : capped_ok KEY_CAP exempt [] (keyed a keys es) km (folded a keys es).
Proof using Type. apply capped_spec. Qed.

Lemma learnt_records k l : km !! k = Some l → l = records_of a keys k es ∧ l ≠ [].
Proof using Type.
  intros E. pose proof (co_known _ _ _ _ _ _ learning k) as H1. rewrite E, bool_decide_eq_true_2 in H1 by by eexists. injection H1 as H1.
  split; [|intros ->; by destruct (not_elem_of_nil k (co_nonempty _ _ _ _ _ _ learning k E))].
  rewrite H1. unfold of_key, keyed, records_of. clear. induction es as [|e l IH]; simpl; [done|].
  case_bool_decide; simpl; by rewrite <-IH.
Qed.
Lemma learnt_elem k : is_Some (km !! k) → ∃ e, e ∈ es ∧ key_of a keys e = k.
Proof using Type.
  intros [l Hl]. pose proof (learnt_records k l Hl) as [-> Hn]. destruct (records_of a keys k es) as [|e l] eqn:E; [done|].
  exists e. apply and_comm, elem_of_records_of. rewrite E. by left.
Qed.
Lemma folded_records : (folded a keys es).*2 = unlearnt a keys es.
Proof using Type.
  rewrite (co_folded _ _ _ _ _ _ learning). unfold unlearnt. generalize km. intros K. unfold keyed. clear. induction es as [|e l IH]; simpl; [done|].
  destruct (negb _); simpl; by rewrite <-IH.
Qed.

Lemma accs_known k x : k ≠ overflow_key a keys → gm_accs m !! k = Some x → describes x (records_of a keys k es).
Proof using Ha.
  intros Hk. rewrite (tb_known _ _ _ _ (go_table _ _ _ _ walked) k Hk). intros (l & Hl & Hx)%bind_Some.
  apply learnt_records in Hl as [-> _]. by apply group_acc_describes.
Qed.
Lemma accs_overflow x : gm_accs m !! overflow_key a keys = Some x → describes x (unlearnt a keys es).
Proof using Ha. rewrite (tb_overflow _ _ _ _ (go_table _ _ _ _ walked)), folded_records. apply group_acc_describes. Qed.
Lemma accs_dom k : k ≠ overflow_key a keys → is_Some (gm_accs m !! k) ↔ is_Some (km !! k).
Proof using Ha.
  intros Hk. rewrite (tb_known _ _ _ _ (go_table _ _ _ _ walked) k Hk). destruct (km !! k) as [l|] eqn:E; [|by simpl; split; intros [? ?]]. simpl.
  apply learnt_records in E as [_ Hl]. destruct l; [done|]. split; by eexists.
Qed.

Lemma reserved_keys k : is_Some (gm_accs m !! k) → is_Some (reserved_kind k) → k = absent_key a keys ∨ k = overflow_key a keys.
Proof using Ha.
  intros Hs Hr. destruct (decide (k = overflow_key a keys)) as [|Hk]; [by right|]. left.
  apply accs_dom, learnt_elem in Hs as (e & _ & He); [|done]. pose proof (length_key_of a keys e) as Hl. pose proof (key_of_no_overflow a keys e) as Ho.
  rewrite He in Hl, Ho. unfold absent_key. rewrite <-Hl. pose proof (members_pos a keys) as Hp. rewrite <-Hl in Hp. clear -Hr Ho Hp. unfold reserved_kind in Hr.
  destruct (forallb (λ m0, bool_decide (m0 = MkAbsent)) k) eqn:E1.
  - clear -E1. induction k as [|x k IH]; [done|]. simpl in E1. apply andb_true_iff in E1 as [->%bool_decide_eq_true E1]. simpl. by rewrite <-IH.
  - destruct (forallb (λ m0, bool_decide (m0 = MkOverflow)) k) eqn:E2; [|by destruct Hr].
    destruct k as [|x k]; [simpl in Hp; lia|]. simpl in E2. apply andb_true_iff in E2 as [->%bool_decide_eq_true _]. destruct Ho. by left.
Qed.
End walked.

Lemma reserved_absent a keys : reserved_kind (absent_key a keys) = Some RsAbsent.
Proof.
  unfold reserved_kind, absent_key. assert (∀ n, forallb (λ x, bool_decide (x = MkAbsent)) (repeat MkAbsent n) = true) as ->; [|done].
  intros n. induction n as [|n IH]; [done|]. cbn [repeat forallb]. by rewrite IH, bool_decide_eq_true_2.
Qed.
Lemma reserved_overflow a keys : reserved_kind (overflow_key a keys) = Some RsOverflow.
Proof.
  unfold reserved_kind, overflow_key. pose proof (members_pos a keys). destruct (members_of a keys) as [|n]; [lia|].
  assert (∀ n, forallb (λ x, bool_decide (x = MkOverflow)) (repeat MkOverflow n) = true) as Hn.
  { intros k. induction k as [|k IH]; [done|]. cbn [repeat forallb]. by rewrite IH, bool_decide_eq_true_2. }
  rewrite Hn. cbn [repeat forallb]. by rewrite bool_decide_eq_false_2.
Qed.
(** ** The order of the rows *)

Lemma real_le_key x y : real_le x y ↔ key_le (λ r, (ac_count (lg_acc r), (lg_key r, ac_first_seq (lg_acc r))))
  (cmp_pair (flip N.compare) (cmp_pair String.compare N.compare)) x y.
Proof. done. Qed.
#[local] Instance row_cmp_lawful : LawfulCmp (cmp_pair (flip N.compare) (cmp_pair String.compare N.compare)).
Proof. apply cmp_pair_lawful; [apply flip_lawful, _|apply _]. Qed.
#[export] Instance real_le_total : Total real_le.
Proof. intros p q. rewrite !real_le_key. apply (key_le_total _ _). Qed.
#[export] Instance real_le_trans : Transitive real_le.
Proof. intros p q r. rewrite !real_le_key. apply (key_le_trans _ _). Qed.

Definition real_pair (ka : list MemberKey * Acc) : bool := negb (bool_decide (is_Some (reserved_kind ka.1))).
Lemma filter_rows (p : option Reserved → bool) l :
  List.filter (λ r, p (lg_reserved r)) (row_of <$> l) = row_of <$> List.filter (λ ka, p (reserved_kind ka.1)) l.
Proof. induction l as [|ka l IH]; [done|]. cbn [fmap list_fmap List.filter]. rewrite IH. cbn [row_of lg_reserved]. by destruct (p (reserved_kind ka.1)). Qed.

Lemma filter_real l : List.filter (λ r, negb (bool_decide (is_Some (lg_reserved r)))) (row_of <$> l) = row_of <$> List.filter real_pair l.
Proof. exact (filter_rows (λ o : option Reserved, negb (bool_decide (is_Some o))) l). Qed.
Lemma filter_reserved l : List.filter (λ r, bool_decide (is_Some (lg_reserved r))) (row_of <$> l)
  = row_of <$> List.filter (λ ka, bool_decide (is_Some (reserved_kind ka.1))) l.
Proof. exact (filter_rows (λ o : option Reserved, bool_decide (is_Some o)) l). Qed.

Definition bucket (accs : gmap (list MemberKey) Acc) (key : list MemberKey) : list (list MemberKey * Acc) :=
  match accs !! key with Some a => [(key, a)] | None => [] end.
Lemma elem_of_bucket accs key ka : ka ∈ bucket accs key ↔ ka.1 = key ∧ accs !! key = Some ka.2.
Proof.
  unfold bucket. destruct ka as [k x]. destruct (accs !! key) as [y|]; simpl.
  - rewrite list_elem_of_singleton. split; [by intros [= -> ->]|by intros [-> [= ->]]].
  - split; [intros H1; by apply elem_of_nil in H1|by intros [_ ?]].
Qed.

Lemma sort_two {A} (f : A → N) (l : list A) (x y : list A) :
  l ≡ₚ x ++ y → (length x ≤ 1)%nat → (length y ≤ 1)%nat → (∀ a b, a ∈ x → b ∈ y → f a < f b) → sort_by_key f l = x ++ y.
Proof.
  intros Hp Hx Hy Hf. destruct x as [|a [|]], y as [|b [|]]; simpl in *; try lia.
  - by apply Permutation_nil_r in Hp as ->.
  - by apply Permutation_singleton_r in Hp as ->.
  - by apply Permutation_singleton_r in Hp as ->.
  - specialize (Hf a b ltac:(by left) ltac:(by left)). apply Permutation_sym, Permutation_length_2_inv in Hp as [-> | ->]; simpl.
    + by rewrite (proj2 (N.leb_le _ _)) by lia.
    + by rewrite (proj2 (N.leb_gt _ _)) by lia.
Qed.

Section rows.
Context (a : Axis) (keys : list string) (es : list LogEntry) (Ha : a ≠ AxNone).
Abbreviation accs := (gm_accs (foldl groups_observe (groups_new a keys) es)).

Lemma NoDup_lfilter {A} (p : A → bool) l : NoDup l → NoDup (List.filter p l).
Proof using Type. induction 1 as [|x l Hx _ IH]; simpl; [constructor|]. destruct (p x); [|done]. constructor; [|done]. rewrite elem_of_lfilter. naive_solver. Qed.

Lemma reserved_pairs :
  List.filter (λ ka, bool_decide (is_Some (reserved_kind ka.1))) (map_to_list accs)
  ≡ₚ bucket accs (absent_key a keys) ++ bucket accs (overflow_key a keys).
Proof using Ha.
  assert (absent_key a keys ≠ overflow_key a keys) as Hao
    by (intros E; pose proof (reserved_absent a keys) as H1; rewrite E, reserved_overflow in H1; done).
  apply NoDup_Permutation.
  - apply NoDup_lfilter, NoDup_map_to_list.
  - apply NoDup_app. unfold bucket. split_and!.
    + destruct (_ !! _); [apply NoDup_singleton|constructor].
    + intros ka [E1 _]%(elem_of_bucket accs) [E2 _]%(elem_of_bucket accs). congruence.
    + destruct (_ !! _); [apply NoDup_singleton|constructor].
  - intros [k x]. rewrite elem_of_lfilter, bool_decide_eq_true, elem_of_map_to_list, elem_of_app, !elem_of_bucket. cbn [fst snd]. split.
    + intros [Hr Hx]. destruct (reserved_keys a keys es Ha k ltac:(by eexists) Hr) as [-> | ->]; auto.
    + intros [[-> Hx]|[-> Hx]]; (split; [|done]); rewrite ?reserved_absent, ?reserved_overflow; by eexists.
Qed.

Lemma real_pair_elem k x : (k, x) ∈ List.filter real_pair (map_to_list accs) →
  describes x (records_of a keys k es) ∧ is_Some (learnt a keys es !! k) ∧ reserved_kind k = None.
Proof using Ha.
  unfold real_pair. rewrite elem_of_lfilter, negb_true_iff, bool_decide_eq_false, elem_of_map_to_list. cbn [fst]. intros [Hr Hx].
  apply eq_None_not_Some in Hr. assert (k ≠ overflow_key a keys) as Hk by (intros ->; rewrite reserved_overflow in Hr; done).
  split_and!; [by apply accs_known|apply (accs_dom a keys es Ha); [done|by eexists]|done].
Qed.

Lemma first_seq_unique k x k' x' : NoDup (seq <$> es) →
  (k, x) ∈ List.filter real_pair (map_to_list accs) → (k', x') ∈ List.filter real_pair (map_to_list accs) →
  ac_first_seq x = ac_first_seq x' → (k, x) = (k', x').
Proof using Ha.
  intros Hn H1 H2 E. assert (k = k') as <-.
  { apply real_pair_elem in H1 as ([_ _ (f & Hf & _ & Ef & _) _] & _ & _). apply real_pair_elem in H2 as ([_ _ (f' & Hf' & _ & Ef' & _) _] & _ & _).
    apply elem_of_records_of in Hf as [<- Hf]. apply elem_of_records_of in Hf' as [<- Hf']. f_equal.
    apply list_elem_of_lookup in Hf as [i Hi]. apply list_elem_of_lookup in Hf' as [j Hj].
    assert (i = j) as <-; [|congruence]. apply (NoDup_lookup _ i j (seq f) Hn); rewrite list_lookup_fmap; [by rewrite Hi|rewrite Hj; simpl; congruence]. }
  apply elem_of_lfilter in H1 as [_ H1%elem_of_map_to_list]. apply elem_of_lfilter in H2 as [_ H2%elem_of_map_to_list]. congruence.
Qed.

Lemma real_rows_unique l : NoDup (seq <$> es) → l ≡ₚ map_to_list accs →
  merge_sort real_le (row_of <$> List.filter real_pair l) = merge_sort real_le (row_of <$> List.filter real_pair (map_to_list accs)).
Proof using Ha.
  intros Hn Hl. symmetry. apply (merge_sort_unique real_le (λ r, ac_first_seq (lg_acc r))).
  - intros x y H1 H2. rewrite real_le_key in H1. rewrite real_le_key in H2. pose proof (key_le_antisym _ _ _ _ H1 H2) as E. by injection E.
  - rewrite <-list_fmap_compose. apply NoDup_fmap_2_strong; [|apply NoDup_lfilter, NoDup_map_to_list].
    intros [k x] [k' x'] H1 H2 E. by apply first_seq_unique.
  - by rewrite Hl.
Qed.

Definition bucket_row (o : option LogGroup) (r : Reserved) (key : list MemberKey) (rs : list LogEntry) : Prop :=
  match o with
  | Some row => lg_key row = label key ∧ lg_reserved row = Some r ∧ describes (lg_acc row) rs
  | None => rs = []
  end.

Definition row_at (key : list MemberKey) : option LogGroup := (λ x, row_of (key, x)) <$> accs !! key.
Lemma row_at_bucket key : option_list (row_at key) = row_of <$> bucket accs key.
Proof using Type. unfold row_at, bucket. by destruct (accs !! key). Qed.

Lemma absent_row : bucket_row (row_at (absent_key a keys)) RsAbsent (absent_key a keys) (records_of a keys (absent_key a keys) es).
Proof using Ha.
  assert (absent_key a keys ≠ overflow_key a keys) as Hao
    by (intros E; pose proof (reserved_absent a keys) as H1; rewrite E, reserved_overflow in H1; done).
  unfold row_at. destruct (accs !! absent_key a keys) as [x|] eqn:E; simpl.
  - split_and!; [done|apply reserved_absent|by apply accs_known].
  - destruct (records_of a keys (absent_key a keys) es) as [|e l] eqn:El; [done|]. exfalso.
    assert (e ∈ records_of a keys (absent_key a keys) es) as [He Hin]%elem_of_records_of by (rewrite El; by left).
    pose proof (learning a keys es) as Hc. assert (learnt a keys es !! absent_key a keys = None) as Hn.
    { apply eq_None_not_Some. rewrite <-(accs_dom a keys es Ha) by done. rewrite E. by intros []. }
    assert ((key_of a keys e, e) ∈ folded a keys es) as Hf.
    { rewrite (co_folded _ _ _ _ _ _ Hc). apply elem_of_lfilter. cbn [fst]. rewrite He, Hn. split; [done|]. unfold keyed. apply list_elem_of_fmap. exists e. by rewrite He. }
    pose proof (co_exempt _ _ _ _ _ _ Hc _ Hf) as Hx. cbn [fst] in Hx. unfold exempt in Hx. rewrite He, reserved_absent in Hx.
    apply bool_decide_eq_false in Hx. apply Hx. by eexists.
Qed.
Lemma overflow_row : bucket_row (row_at (overflow_key a keys)) RsOverflow (overflow_key a keys) (unlearnt a keys es).
Proof using Ha.
  unfold row_at. pose proof (tb_overflow _ _ _ _ (go_table _ _ _ _ (walked a keys es Ha))) as Ho.
  destruct (accs !! overflow_key a keys) as [x|] eqn:E; simpl.
  - split_and!; [done|apply reserved_overflow|by apply accs_overflow].
  - rewrite folded_records in Ho. by destruct (unlearnt a keys es).
Qed.
Lemma overflow_row_folded : is_Some (row_at (overflow_key a keys)) ↔ folded a keys es ≠ [].
Proof using Ha.
  unfold row_at. rewrite fmap_is_Some, (tb_overflow _ _ _ _ (go_table _ _ _ _ (walked a keys es Ha))).
  destruct (folded a keys es) as [|x l]; simpl; split; [by intros []|done..|by eexists].
Qed.

(** The keys a walk learnt: the real ones, and the reserved one if a record lacked the axis. *)
Lemma learnt_keys k : is_Some (learnt a keys es !! k) ↔ k ∈ (List.filter real_pair (map_to_list accs)).*1 ∨ k = absent_key a keys ∧ is_Some (row_at k).
Proof using Ha.
  assert (absent_key a keys ≠ overflow_key a keys) as Hao
    by (intros E; pose proof (reserved_absent a keys) as H1; rewrite E, reserved_overflow in H1; done).
  split.
  - intros Hk. assert (k ≠ overflow_key a keys) as Ho.
    { intros ->. rewrite (tb_free _ _ _ _ (go_table _ _ _ _ (walked a keys es Ha))) in Hk. by destruct Hk. }
    pose proof Hk as Hs. rewrite <-(accs_dom a keys es Ha) in Hs by done. destruct (reserved_kind k) eqn:Er.
    + right. destruct (reserved_keys a keys es Ha k Hs ltac:(by eexists)) as [->|]; [|done]. split; [done|]. unfold row_at. by rewrite fmap_is_Some.
    + left. destruct Hs as [x Hx]. apply list_elem_of_fmap. exists (k, x). split; [done|]. apply elem_of_lfilter.
      unfold real_pair. cbn [fst]. rewrite Er, bool_decide_eq_false_2 by (by intros []). by rewrite elem_of_map_to_list.
  - intros [([k' x] & -> & Hin)%list_elem_of_fmap|[-> Hs]].
    + by apply real_pair_elem in Hin as (_ & ? & _).
    + apply (accs_dom a keys es Ha); [done|]. unfold row_at in Hs. by rewrite fmap_is_Some in Hs.
Qed.

Definition count_of (r : LogGroup) : nat := N.to_nat (ac_count (lg_acc r)).
Lemma keyed_counts ks l : NoDup ks →
  sum_list_with (λ k, length (records_of a keys k l)) ks = length (List.filter (λ e, bool_decide (key_of a keys e ∈ ks)) l).
Proof using Type.
  induction 1 as [|k ks Hk _ IH].
  - cbn [sum_list_with]. induction l as [|e l IH]; cbn [List.filter]; [done|]. by rewrite bool_decide_eq_false_2 by apply not_elem_of_nil.
  - cbn [sum_list_with]. rewrite IH. clear IH. unfold records_of. induction l as [|e l IH]; cbn [List.filter]; [done|].
    destruct (decide (key_of a keys e = k)) as [<-|Hne].
    + rewrite (bool_decide_eq_true_2 (_ ∈ _ :: _)), (bool_decide_eq_false_2 (_ ∈ ks)), bool_decide_eq_true_2 by (done || by left). simpl. lia.
    + rewrite (bool_decide_eq_false_2 (_ = k)) by done. rewrite (bool_decide_ext (key_of a keys e ∈ k :: ks) (key_of a keys e ∈ ks)) by (rewrite elem_of_cons; naive_solver).
      destruct (bool_decide _); simpl; lia.
Qed.
Lemma split_count (p q : LogEntry → bool) l : (∀ e, e ∈ l → q e = negb (p e)) → (length (List.filter p l) + length (List.filter q l))%nat = length l.
Proof using Type.
  induction l as [|e l IH]; intros Hq; [done|]. simpl. rewrite (Hq e) by by left. specialize (IH ltac:(intros; apply Hq; by right)).
  destruct (p e); simpl; lia.
Qed.
Lemma bucket_count o r key rs : bucket_row o r key rs → sum_list_with count_of (option_list o) = length rs.
Proof using Type. destruct o as [row|]; simpl; [|by intros ->]. intros (_ & _ & Hd). unfold count_of. rewrite (ds_count _ _ Hd). lia. Qed.

Definition row_for (k : list MemberKey) (r : LogGroup) : Prop :=
  lg_key r = label k ∧ lg_reserved r = None ∧ describes (lg_acc r) (records_of a keys k es).
Lemma rows_count ks rows : Forall2 row_for ks rows → sum_list_with count_of rows = sum_list_with (λ k, length (records_of a keys k es)) ks.
Proof using Type. induction 1 as [|k r ks rows (_ & _ & Hd) _ IH]; [done|]. simpl. rewrite IH. unfold count_of. rewrite (ds_count _ _ Hd). lia. Qed.

Lemma real_keys_bounded : (length (List.filter real_pair (map_to_list accs)) ≤ KEY_CAP)%nat.
Proof using Ha.
  pose proof (co_size _ _ _ _ _ _ (learning a keys es) ltac:(simpl; lia)) as Hs. etrans; [|exact Hs].
  rewrite <-(length_fmap fst), <-length_map_to_list, <-(length_fmap fst (map_to_list _)).
  apply submseteq_length, NoDup_submseteq.
  - apply NoDup_fmap_fst; [|apply NoDup_lfilter, NoDup_map_to_list]. intros k x y [_ H1]%elem_of_lfilter [_ H2]%elem_of_lfilter.
    rewrite elem_of_map_to_list in H1, H2. congruence.
  - intros k ([k' x] & -> & Hin)%list_elem_of_fmap. apply real_pair_elem in Hin as (_ & [l Hl] & Hr). apply list_elem_of_fmap. exists (k', l). split; [done|].
    rewrite elem_of_map_to_list. apply map_lookup_filter_Some_2; [done|]. cbn [fst]. unfold exempt. rewrite Hr. by apply bool_decide_eq_false_2; intros [].
Qed.

Lemma finish_rows order top_n : NoDup (seq <$> es) → (∀ l, order l ≡ₚ l) →
  profile_summarize order es a keys top_n =
    (take top_n (merge_sort real_le (row_of <$> List.filter real_pair (map_to_list accs)))
       ++ option_list (row_at (absent_key a keys)) ++ option_list (row_at (overflow_key a keys)), size accs).
Proof using Ha.
  intros Hn Ho. unfold profile_summarize, groups_finish. rewrite (go_axis _ _ _ _ (walked a keys es Ha)), bool_decide_eq_false_2 by done. cbv zeta.
  rewrite filter_real, filter_reserved.
  rewrite (real_rows_unique (order (map_to_list accs)) Hn) by apply Ho. f_equal. f_equal.
  rewrite !row_at_bucket. apply sort_two.
  - rewrite <-fmap_app. apply fmap_Permutation. by rewrite Ho, <-reserved_pairs.
  - unfold bucket. destruct (accs !! absent_key a keys); simpl; lia.
  - unfold bucket. destruct (accs !! overflow_key a keys); simpl; lia.
  - intros x y (kx & -> & [E1 _]%(elem_of_bucket accs))%list_elem_of_fmap (ky & -> & [E2 _]%(elem_of_bucket accs))%list_elem_of_fmap.
    unfold reserved_rank, row_of. cbn [lg_reserved]. rewrite E1, E2, reserved_absent, reserved_overflow. lia.
Qed.

Lemma size_rows : size accs = (length (List.filter real_pair (map_to_list accs)) + length (option_list (row_at (absent_key a keys)) ++ option_list (row_at (overflow_key a keys))))%nat.
Proof using Ha.
  rewrite <-length_map_to_list, !row_at_bucket, <-fmap_app, length_fmap, <-reserved_pairs. unfold real_pair.
  generalize (map_to_list accs). intros l. induction l as [|ka l IH]; [done|]. simpl. rewrite IH. destruct (bool_decide _); simpl; lia.
Qed.
End rows.

(** The whole account; [log_profile_account] is its statement. *)
Lemma account_of a keys es :
  a ≠ AxNone → NoDup (seq <$> es) →
  ∃ ks rows absent overflow,
    NoDup ks ∧ (length ks ≤ KEY_CAP)%nat ∧ (∀ k, k ∈ ks → reserved_kind k = None) ∧
    Forall2 (row_for a keys es) ks rows ∧ StronglySorted real_le rows ∧
    bucket_row absent RsAbsent (absent_key a keys) (records_of a keys (absent_key a keys) es) ∧
    bucket_row overflow RsOverflow (overflow_key a keys)
      (List.filter (λ e, negb (bool_decide (key_of a keys e ∈ absent_key a keys :: ks))) es) ∧
    (is_Some overflow → (KEY_CAP ≤ length ks + length (option_list absent))%nat) ∧
    gm_capped (foldl groups_observe (groups_new a keys) es) = bool_decide (is_Some overflow) ∧
    sum_list_with count_of (rows ++ option_list absent ++ option_list overflow) = length es ∧
    ∀ order top_n, (∀ l, order l ≡ₚ l) →
      profile_summarize order es a keys top_n =
        (take top_n rows ++ option_list absent ++ option_list overflow,
         (length rows + length (option_list absent ++ option_list overflow))%nat).
Proof.
  intros Ha Hn. set (m := foldl groups_observe (groups_new a keys) es). set (pairs := List.filter real_pair (map_to_list (gm_accs m))).
  destruct (Permutation_map_inv row_of pairs (merge_sort_Permutation real_le (row_of <$> pairs))) as (sorted & Hsort & Hp).
  change (merge_sort real_le (row_of <$> pairs) = row_of <$> sorted) in Hsort.
  assert (NoDup sorted.*1) as Hnd.
  { rewrite <-Hp. apply NoDup_fmap_fst; [|apply NoDup_lfilter, NoDup_map_to_list]. intros k x y [_ H1]%elem_of_lfilter [_ H2]%elem_of_lfilter.
    rewrite elem_of_map_to_list in H1, H2. congruence. }
  assert (∀ k, k ∈ sorted.*1 ↔ k ∈ pairs.*1) as Hks by (intros k; by rewrite Hp).
  assert (∀ e, e ∈ es → bool_decide (is_Some (learnt a keys es !! key_of a keys e)) = bool_decide (key_of a keys e ∈ absent_key a keys :: sorted.*1)) as Hin.
  { intros e He. apply bool_decide_ext. rewrite (learnt_keys a keys es Ha), elem_of_cons, Hks. fold m pairs. split; [naive_solver|].
    intros [Hk|]; [right; split; [done|]|by left]. pose proof (absent_row a keys es Ha) as Hb. rewrite Hk.
    destruct (row_at a keys es (absent_key a keys)); [by eexists|]. simpl in Hb. assert (e ∈ records_of a keys (absent_key a keys) es) as H1 by (by apply elem_of_records_of).
    rewrite Hb in H1. by apply elem_of_nil in H1. }
  assert (List.filter (λ e, negb (bool_decide (key_of a keys e ∈ absent_key a keys :: sorted.*1))) es = unlearnt a keys es) as Hun
    by (apply filter_ext_in; intros e He%list_elem_of_In; by rewrite Hin).
  assert (∀ k x, (k, x) ∈ sorted → describes x (records_of a keys k es) ∧ is_Some (learnt a keys es !! k) ∧ reserved_kind k = None) as Hreal
    by (intros k x H1; rewrite <-Hp in H1; by apply real_pair_elem).
  assert (Forall2 (row_for a keys es) sorted.*1 (row_of <$> sorted)) as Hrows.
  { clear -Hreal. induction sorted as [|[k x] l IH]; [constructor|]. constructor; [|apply IH; intros k' x' H1; apply Hreal; by right].
    destruct (Hreal k x ltac:(by left)) as (Hd & _ & Hr). by split_and!. }
  assert (length sorted.*1 = length pairs) as Hlen by (by rewrite length_fmap, Hp).
  assert (absent_key a keys ∉ sorted.*1) as Hna.
  { intros ([k x] & E & H1)%list_elem_of_fmap. destruct (Hreal k x H1) as (_ & _ & Hr). cbn [fst] in E. by rewrite <-E, reserved_absent in Hr. }
  exists sorted.*1, (row_of <$> sorted), (row_at a keys es (absent_key a keys)), (row_at a keys es (overflow_key a keys)).
  rewrite Hun. split_and!; try done.
  - rewrite Hlen. by apply real_keys_bounded.
  - intros k ([k' x] & -> & H1)%list_elem_of_fmap. by apply Hreal in H1 as (_ & _ & ?).
  - rewrite <-Hsort. apply StronglySorted_merge_sort; apply _.
  - by apply absent_row.
  - by apply overflow_row.
  - intros Ho. rewrite Hlen. pose proof (size_rows a keys es Ha) as Hs.
    rewrite (tb_size _ _ _ _ (go_table _ _ _ _ (walked a keys es Ha))) in Hs. fold m pairs in Hs. apply (overflow_row_folded a keys es Ha) in Ho as Hf.
    pose proof (co_full _ _ _ _ _ _ (learning a keys es) Hf) as Hc. destruct Ho as [r Hr]. rewrite Hr, length_app in Hs. destruct (folded a keys es); [done|].
    simpl in Hs. lia.
  - unfold m. rewrite (go_capped _ _ _ _ (walked a keys es Ha)). apply bool_decide_ext. symmetry. by apply overflow_row_folded.
  - rewrite !sum_list_with_app, (rows_count a keys es sorted.*1) by done.
    rewrite (bucket_count _ _ _ _ (absent_row a keys es Ha)), (bucket_count _ _ _ _ (overflow_row a keys es Ha)).
    pose proof (keyed_counts a keys (absent_key a keys :: sorted.*1) es ltac:(by constructor)) as Hc. cbn [sum_list_with] in Hc.
    pose proof (split_count (λ e, bool_decide (key_of a keys e ∈ absent_key a keys :: sorted.*1)) _ es (λ e _, eq_refl)) as H2. cbv beta in H2. rewrite Hun in H2. lia.
  - intros order top_n Ho. rewrite (finish_rows a keys es Ha), (size_rows a keys es Ha) by done. fold m pairs. rewrite Hsort. by rewrite <-Hlen, !length_fmap.
Qed.

(** A profile of log records accounts for every record it matched, whatever
    order the table is walked in: each of at most [KEY_CAP] real rows describes
    exactly the records with its key (their count by level, and the first and
    the last by seq with that record's time and message), the absent row those
    that lack the axis altogether, and the overflow row, which is there exactly
    when the answer says it was capped, those of the keys not learnt, which is
    only once the table is full; the counts add up to the matched; and the reply is
    the [top_n] first of the real rows in their order, then the two reserved ones. *)
Theorem log_profile_account a keys es :
  a ≠ AxNone → NoDup (seq <$> es) →
  ∃ ks rows absent overflow,
    NoDup ks ∧ (length ks ≤ KEY_CAP)%nat ∧ (∀ k, k ∈ ks → reserved_kind k = None) ∧
    Forall2 (row_for a keys es) ks rows ∧ StronglySorted real_le rows ∧
    bucket_row absent RsAbsent (absent_key a keys) (records_of a keys (absent_key a keys) es) ∧
    bucket_row overflow RsOverflow (overflow_key a keys)
      (List.filter (λ e, negb (bool_decide (key_of a keys e ∈ absent_key a keys :: ks))) es) ∧
    (is_Some overflow → (KEY_CAP ≤ length ks + length (option_list absent))%nat) ∧
    gm_capped (foldl groups_observe (groups_new a keys) es) = bool_decide (is_Some overflow) ∧
    sum_list_with count_of (rows ++ option_list absent ++ option_list overflow) = length es ∧
    ∀ order top_n, (∀ l, order l ≡ₚ l) →
      profile_summarize order es a keys top_n =
        (take top_n rows ++ option_list absent ++ option_list overflow,
         (length rows + length (option_list absent ++ option_list overflow))%nat).
Proof. intros Ha Hn. by apply account_of. Qed.

(** ** What is announced *)

Lemma bool_false (p : LogEntry → bool) es : count_if p es = 0 ↔ ∀ e, e ∈ es → p e = false.
Proof.
  split.
  - intros H0 e He. destruct (p e) eqn:E; [|done]. assert (0 < count_if p es) by (apply count_if_pos; eauto). lia.
  - intros Hf. destruct (N.eq_0_gt_0_cases (count_if p es)) as [|Hp]; [done|]. apply count_if_pos in Hp as (e & He & E). by rewrite Hf in E.
Qed.

(** The additional field of a built-in axis's name that a remedy offers. *)
Definition remedy_for (a : Axis) (es : list LogEntry) : option (string * f64) :=
  if 0 <? alt_count a es
  then Some (axis_as_str a, f64_div (f64_mul (f64_of_Z 100) (f64_of_Z (Z.of_N (alt_count a es)))) (f64_of_Z (Z.of_nat (length es))))
  else None.

(** What is said of one member. *)
Definition announcement (a : Axis) (keys : list string) (es : list LogEntry) (i : nat) (s : LogSuppressed) : Prop :=
  (∀ e, e ∈ es → extract a keys e i = ExMissing) ∧
    s = mkLogSuppressed (suppressed_field a i) (absent_reason (member_label a keys i) (N.of_nat (length es)))
          (if bool_decide (i = 0%nat) then remedy_for a es else None) ∨
  (∃ e, e ∈ es ∧ extract a keys e i = ExStructured) ∧
    s = mkLogSuppressed (suppressed_field a i)
          (structured_reason (member_label a keys i) (count_if (has_structure a keys i) es) (count_if (has_value a keys i) es) (N.of_nat (length es))) None.

(** What a profile announces, whatever the cap folded: a member is said not to
    appear exactly when no matched record has the field, with a remedy exactly
    when some record has an additional field of the built-in axis's name; it is
    said to be carried as structure exactly when some record carries it so, with
    how many do; and about a member that some record can be grouped by and none
    carries as structure nothing is said. *)
Theorem profile_announces a keys es s :
  a ≠ AxNone → es ≠ [] →
  s ∈ groups_suppressed (foldl groups_observe (groups_new a keys) es) ↔
  ∃ i, (i < members_of a keys)%nat ∧
    announcement a keys es i s.
Proof.
  intros Ha He. destruct (groups_ok_run a keys es Ha) as [GA GK _ _ GP GS (G0 & G1) _ GM].
  unfold groups_suppressed. rewrite GA, (bool_decide_eq_false_2 (a = AxNone)), GM, orb_false_r by done.
  rewrite (proj2 (N.eqb_neq _ _)) by (destruct es; simpl; [done|lia]). rewrite list_elem_of_omap.
  assert (∀ i, (i < members_of a keys)%nat → suppressed_at (foldl groups_observe (groups_new a keys) es) i (count_if (has_value a keys i) es) = Some s ↔
    announcement a keys es i s) as Hat.
  { intros i Hi. unfold announcement, suppressed_at. rewrite GA, GK, GM, GS, list_lookup_fmap, lookup_seq_lt by done. cbn [from_option id fmap option_fmap option_map Nat.add].
    assert ((∃ e, e ∈ es ∧ extract a keys e i = ExStructured) ↔ 0 < count_if (has_structure a keys i) es) as ->.
    { rewrite count_if_pos. unfold has_structure. split; intros (e & H1 & H2); exists e; (split; [done|]); [by rewrite H2|by destruct (extract a keys e i)]. }
    assert ((∀ e, e ∈ es → extract a keys e i = ExMissing) ↔ count_if (has_structure a keys i) es = 0 ∧ count_if (has_value a keys i) es = 0) as ->.
    { rewrite !bool_false. unfold has_structure, has_value. split; [intros H1; split; intros e H2; by rewrite H1|].
      intros [H1 H2] e H3. specialize (H1 e H3). specialize (H2 e H3). by destruct (extract a keys e i). }
    assert ((if 0 <? default 0 (gm_alt (foldl groups_observe (groups_new a keys) es) !! i) then
       Some (member_label a keys i, f64_div (f64_mul (f64_of_Z 100) (f64_of_Z (Z.of_N (default 0 (gm_alt (foldl groups_observe (groups_new a keys) es) !! i)))))
               (f64_of_Z (Z.of_N (N.of_nat (length es))))) else None) = (if bool_decide (i = 0%nat) then remedy_for a es else None)) as Hr.
    { destruct i as [|i]; [|by rewrite G1]. rewrite G0. unfold remedy_for. simpl. rewrite nat_N_Z. destruct (N.ltb_spec 0 (alt_count a es)) as [Hp|]; [|done].
      unfold alt_count in Hp. destruct (decide (a = AxField)) as [->|Hf]; [done|]. by destruct a. }
    destruct (N.ltb_spec 0 (count_if (has_structure a keys i) es)) as [Hs|Hs].
    - split; [intros [= <-]; by right|]. intros [[[H1 _] _]|[_ ->]]; [lia|done].
    - destruct (N.eqb_spec (count_if (has_value a keys i) es) 0) as [Hv|Hv].
      + rewrite Hr. split; [intros [= <-]; left; split; [lia|done]|]. intros [[_ ->]|[H1 _]]; [done|lia].
      + split; [done|]. intros [[[_ H1] _]|[H1 _]]; [done|lia]. }
  rewrite GP. split.
  - intros (x & (i & Hi)%list_elem_of_lookup & Hx). rewrite list_lookup_imap, list_lookup_fmap in Hi.
    destruct (List.seq 0 (members_of a keys) !! i) as [j|] eqn:E; [|done]. apply lookup_seq in E as [-> Hlt]. exists i. split; [done|].
    apply Hat; [done|]. injection Hi as <-. done.
  - intros (i & Hi & Hs). apply Hat in Hs; [|done]. exists (Some s). split; [|done]. apply list_elem_of_lookup. exists i.
    rewrite list_lookup_imap, list_lookup_fmap, lookup_seq_lt by done. cbn [fmap option_fmap option_map Nat.add]. by rewrite Hs.
Qed.
End spec.

(** ** Applied *)

#[local] Existing Instance sample_scalars.
(** Four records: two of one value, one that lacks the field, one whose value
    is spelled as the reserved row is. *)
Definition with_kind (v : option string) (e : LogEntry) : LogEntry :=
  mkLogEntry (seq e) (timestamp e) (level e) (message e) (full_message e) (host e)
    (facility e) (file e) (line e) (match v with Some v => {["kind" := v]} | None => ∅ end) (trace_id e) (span_id e)
    (matched_filters e) (source e).
Definition profiled : list LogEntry :=
  [with_kind (Some "job") (log_at 1 "a"); with_kind None (log_at 2 "b"); with_kind (Some "__absent__") (log_at 3 "c"); with_kind (Some "job") (error_at 4 "d")].

Lemma log_profile_account_witness :
  (∃ ks rows absent overflow, NoDup ks ∧ Forall2 (row_for AxField ["kind"] profiled) ks rows ∧
     bucket_row absent RsAbsent [MkAbsent] (records_of AxField ["kind"] [MkAbsent] profiled) ∧ overflow = @None LogGroup) ∧
  ((λ r, (lg_key r, lg_reserved r, ac_count (lg_acc r), ac_last_exemplar (lg_acc r))) <$> (profile_summarize id profiled AxField ["kind"] 5).1)
  = [("job", None, 2, "d"); ("__absent__", None, 1, "c"); ("__absent__", Some RsAbsent, 1, "b")].
Proof.
  split; [|vm_compute; reflexivity].
  destruct (log_profile_account AxField ["kind"] profiled) as (ks & rows & ab & ov & H1 & _ & _ & H2 & _ & H3 & H4 & _ & H5 & _);
    [done|by_eval|]. exists ks, rows, ab, ov. split_and!; [done|done|exact H3|].
  destruct ov; [|done]. exfalso. revert H5. vm_compute. discriminate.
Defined.

Lemma profile_announces_witness :
  ¬ (mkLogSuppressed "group_by" (absent_reason "kind" 4) None ∈ groups_suppressed (foldl groups_observe (groups_new AxField ["kind"]) profiled)) ∧
  (mkLogSuppressed "group_by" (absent_reason "file" 4) None ∈ groups_suppressed (foldl groups_observe (groups_new AxFile []) profiled)).
Proof.
  split.
  - rewrite profile_announces by done. intros (i & Hi & [[_ E]|[_ E]]); discriminate.
  - apply profile_announces; [done|done|]. exists 0%nat. split; [unfold members_of; simpl; lia|]. left. split; [|vm_compute; reflexivity].
    intros e He. unfold profiled in He. repeat (apply elem_of_cons in He as [->|He]; [reflexivity|]). by apply elem_of_nil in He.
Defined.
