(* ===== verification/LogFields.v ===== *)
(** * LogFields: the fields that log records carry ([logs/fields.rs])

    A record's additional fields are walked in an order of the table's own,
    which is an argument; so are the orders in which the rows of the map and the
    values of a row are collected. *)

From Stdlib Require Import SpecFloat.
From stdpp Require Import sorting.
From S2P Require Import Prelude Text F64 Gelf Filter Matcher DataFile Measure Threshold Collector History LogProfile.

Set Default Proof Using "Type".
Local Open Scope N_scope.

Inductive ValueKind := VkString | VkInteger | VkFloat | VkBool | VkNumber | VkMixed | VkOther.
#[global] Instance ValueKind_eq_dec : EqDecision ValueKind.
Proof. solve_decision. Defined.

Inductive FieldSource := FsBuiltin | FsAdditional | FsPromoted.
#[global] Instance FieldSource_eq_dec : EqDecision FieldSource.
Proof. solve_decision. Defined.
#[global] Instance FieldSource_countable : Countable FieldSource.
Proof.
  apply (inj_countable' (λ s, match s with FsBuiltin => None | FsAdditional => Some true | FsPromoted => Some false end)
    (λ s, match s with None => FsBuiltin | Some true => FsAdditional | Some false => FsPromoted end)).
  by intros [].
Defined.
Definition FieldSource_debug (s : FieldSource) : string :=
  match s with FsBuiltin => "Builtin" | FsAdditional => "Additional" | FsPromoted => "Promoted" end.

Definition NAME_CAP : nat := N.to_nat DEFAULT_GROUP_VALUE_CAP.
Definition DISTINCT_CAP : nat := N.to_nat DEFAULT_GROUP_VALUE_CAP.
#[global] Arguments NAME_CAP : simpl never.
#[global] Arguments DISTINCT_CAP : simpl never.

Definition merge_kind (a b : ValueKind) : ValueKind :=
  if bool_decide (a = b) then a
  else match a, b with
       | VkInteger, VkFloat | VkFloat, VkInteger | VkNumber, VkInteger | VkInteger, VkNumber
       | VkNumber, VkFloat | VkFloat, VkNumber => VkNumber
       | _, _ => VkMixed
       end.

(** Whether a JSON number is a float, [Number::is_f64]. *)
Class JsonNumbers {X : Externals} := { Value_is_f64 : Value → bool }.

Section fields.
Context {X : Externals} {J : JsonScalars} {JN : JsonNumbers}.

Definition kind_of (v : Value) : ValueKind :=
  if bool_decide (is_Some (Value_as_str v)) then VkString
  else if bool_decide (is_Some (Value_as_bool v)) then VkBool
  else if bool_decide (is_Some (Value_as_number v)) then if Value_is_f64 v then VkFloat else VkInteger
  else VkOther.

(** Matched as the filter matches it. *)
Definition render (v : Value) : string := value_text v.

(** A row is of a source and a name. *)
Abbreviation RowKey := (FieldSource * string)%type.

Record FieldAcc := mkFieldAcc {
  fa_present : N;
  fa_counts : gmap string N;
  fa_capped : bool;
  fa_kind : option ValueKind;
}.
Definition field_acc_default : FieldAcc := mkFieldAcc 0 ∅ false None.

Definition field_acc_observe (a : FieldAcc) (rendered : string) (kind : ValueKind) : FieldAcc :=
  let present := fa_present a + 1 in
  let k := Some match fa_kind a with Some k => merge_kind k kind | None => kind end in
  if (DISTINCT_CAP <=? size (fa_counts a))%nat && negb (bool_decide (is_Some (fa_counts a !! rendered)))
  then mkFieldAcc present (fa_counts a) true k
  else mkFieldAcc present (<[rendered := default 0 (fa_counts a !! rendered) + 1]> (fa_counts a)) (fa_capped a) k.

Record FieldMap := mkFieldMap { fm_accs : gmap RowKey FieldAcc; fm_names_capped : bool }.

Definition BUILTINS : list (string * FieldSource * option string * ValueKind) :=
  [("level", FsBuiltin, Some "l", VkString); ("message", FsBuiltin, Some "m", VkString);
   ("host", FsBuiltin, Some "h", VkString); ("facility", FsBuiltin, Some "fa", VkString);
   ("file", FsBuiltin, Some "fi", VkString); ("line", FsBuiltin, Some "ln", VkInteger);
   ("trace_id", FsPromoted, None, VkString); ("span_id", FsPromoted, None, VkString)].

Definition builtin_row (source : FieldSource) (name : string) : option (string * FieldSource * option string * ValueKind) :=
  find (λ '(n, s, _, _), String.eqb n name && bool_decide (s = source)) BUILTINS.
Definition builtin_kind (source : FieldSource) (name : string) : option ValueKind := snd <$> builtin_row source name.

Definition seed (m : gmap RowKey FieldAcc) (b : string * FieldSource * option string * ValueKind) : gmap RowKey FieldAcc :=
  let '(name, source, _, kind) := b in
  match m !! (source, name) with
  | Some _ => m
  | None => <[(source, name) := mkFieldAcc 0 ∅ false (Some kind)]> m
  end.
Definition fields_new : FieldMap := mkFieldMap (foldl seed ∅ BUILTINS) false.

Definition bump_field (name : string) (source : FieldSource) (rendered : string) (kind : ValueKind) (m : FieldMap) : FieldMap :=
  let key := (source, name) in
  if negb (bool_decide (is_Some (fm_accs m !! key))) && (NAME_CAP <=? size (fm_accs m))%nat
  then mkFieldMap (fm_accs m) true
  else mkFieldMap (<[key := field_acc_observe (default field_acc_default (fm_accs m !! key)) rendered kind]> (fm_accs m)) (fm_names_capped m).

Definition bump_opt (name : string) (source : FieldSource) (o : option string) (kind : ValueKind) (m : FieldMap) : FieldMap :=
  match o with Some r => bump_field name source r kind m | None => m end.

Definition fields_observe (walk : gmap string Value → list (string * Value)) (m : FieldMap) (e : LogEntry) : FieldMap :=
  let m := bump_field "level" FsBuiltin (Level_display (level e)) VkString m in
  let m := bump_field "message" FsBuiltin (message e) VkString m in
  let m := bump_opt "host" FsBuiltin (if String.eqb (host e) "" then None else Some (host e)) VkString m in
  let m := bump_opt "facility" FsBuiltin (facility e) VkString m in
  let m := bump_opt "file" FsBuiltin (file e) VkString m in
  let m := bump_opt "line" FsBuiltin (pretty <$> line e) VkInteger m in
  let m := bump_opt "trace_id" FsPromoted ((λ t, hex_digits 32 t "") <$> trace_id e) VkString m in
  let m := bump_opt "span_id" FsPromoted ((λ s, hex_digits 16 s "") <$> span_id e) VkString m in
  foldl (λ m kv, bump_field kv.1 FsAdditional (render kv.2) (kind_of kv.2) m) m (walk (additional_fields e)).

(** ** The rows *)

Record FieldStats := mkFieldStats {
  fs_field : string;
  fs_source : FieldSource;
  fs_selector : option string;
  fs_present : N;
  fs_coverage_pct : f64;
  fs_distinct : option nat;
  fs_top_values : list (string * N);
  fs_kind : ValueKind;
}.

Definition top_cmp (x y : string * N) : comparison := cmp_then (N.compare y.2 x.2) (String.compare x.1 y.1).
Definition top_le (x y : string * N) : Prop := top_cmp x y ≠ Gt.
#[global] Instance top_le_dec x y : Decision (top_le x y).
Proof. unfold top_le. apply _. Defined.

Definition coverage_pct (matched present : N) : f64 :=
  if matched =? 0 then f64_of_Z 0
  else f64_div (f64_mul (f64_of_Z 100) (f64_of_Z (Z.of_N present))) (f64_of_Z (Z.of_N matched)).

Definition selector_of (source : FieldSource) (field : string) : option string :=
  match source with
  | FsBuiltin | FsPromoted => builtin_row source field ≫= λ b, b.1.2
  | FsAdditional => additional_field_selector field
  end.

Definition stats_row (values : list (string * N) → list (string * N)) (matched : N) (top_values : nat) (ka : RowKey * FieldAcc) : FieldStats :=
  let '(source, field, a) := ka in
  mkFieldStats field source (selector_of source field) (fa_present a) (coverage_pct matched (fa_present a))
    (if fa_capped a then None else Some (size (fa_counts a)))
    (take top_values (merge_sort top_le (values (map_to_list (fa_counts a)))))
    (default VkOther match fa_kind a with Some k => Some k | None => builtin_kind source field end).

Definition row_cmp (x y : FieldStats) : comparison :=
  cmp_then (N.compare (fs_present y) (fs_present x))
    (cmp_then (String.compare (fs_field x) (fs_field y)) (String.compare (FieldSource_debug (fs_source x)) (FieldSource_debug (fs_source y)))).
Definition row_le (x y : FieldStats) : Prop := row_cmp x y ≠ Gt.
#[global] Instance row_le_dec x y : Decision (row_le x y).
Proof. unfold row_le. apply _. Defined.

Definition fields_finish (rows : list (RowKey * FieldAcc) → list (RowKey * FieldAcc)) (values : list (string * N) → list (string * N))
  (matched : N) (top_values : nat) (m : FieldMap) : list FieldStats :=
  merge_sort row_le (stats_row values matched top_values <$> rows (map_to_list (fm_accs m))).

Definition fields_summarize walk rows values (es : list LogEntry) (matched : N) (top_values : nat) : list FieldStats :=
  fields_finish rows values matched top_values (foldl (fields_observe walk) fields_new es).
End fields.
