(* ===== verification/LogFieldsSpec.v ===== *)
(** * LogFieldsSpec: what the map of fields says of the records

    A row of the map describes what the records carry under its name, however
    the tables were walked: the table of rows and the table of a row's values
    are both [Capped]'s, so what is kept is exact and what is not is told. *)

From stdpp Require Import sorting.
From S2P Require Import Prelude Text F64 Gelf Filter Matcher Samples DataFile Measure Threshold Collector CollectorSamples Capped LogProfile LogProfileSpec LogFields.

Set Default Proof Using "Type".
Local Open Scope N_scope.

(** ** Kinds *)

Definition numeric (k : ValueKind) : bool := match k with VkInteger | VkFloat | VkNumber => true | _ => false end.

(** What kinds seen under one name make together, in whatever order. *)
Definition kind_join (k : ValueKind) (ks : list ValueKind) : ValueKind :=
  if forallb (λ k', bool_decide (k' = k)) ks then k
  else if numeric k && forallb numeric ks then VkNumber
  else VkMixed.

Lemma merge_join k ks : foldl merge_kind k ks = kind_join k ks.
Proof.
  induction ks as [|k' ks IH] using rev_ind; [done|]. rewrite foldl_app, IH. unfold kind_join. rewrite !forallb_app. simpl. rewrite !andb_true_r.
  destruct (forallb (λ k0, bool_decide (k0 = k)) ks) eqn:E1; simpl.
  - destruct (bool_decide_reflect (k' = k)) as [->|Hne]; [unfold merge_kind; by rewrite bool_decide_eq_true_2|].
    assert (numeric k = true → forallb numeric ks = true) as Hn.
    { intros Hk. apply forallb_forall. intros x Hx. rewrite forallb_forall in E1. by apply E1, bool_decide_eq_true in Hx as ->. }
    unfold merge_kind. rewrite bool_decide_eq_false_2 by done.
    destruct (forallb numeric ks) eqn:E2; destruct k, k'; simpl in *; try done; try (by specialize (Hn eq_refl)).
  - destruct (numeric k && forallb numeric ks) eqn:E2.
    + apply andb_true_iff in E2 as [-> ->]. simpl. by destruct k'.
    + assert (numeric k && (forallb numeric ks && numeric k') = false) as -> by (rewrite andb_assoc, E2; done). by destruct k'.
Qed.

Section spec.
Context {X : Externals} {J : JsonScalars} {JN : JsonNumbers}.
Context (walk : gmap string Value → list (string * Value)) (Hwalk : ∀ g, walk g ≡ₚ map_to_list g).

(** ** What one record carries *)

(** The value a record has in a row, and its kind. *)
Definition field_value (k : FieldSource * string) (e : LogEntry) : option (string * ValueKind) :=
  let '(source, name) := k in
  match source with
  | FsBuiltin =>
      if String.eqb name "level" then Some (Level_display (level e), VkString)
      else if String.eqb name "message" then Some (message e, VkString)
      else if String.eqb name "host" then if String.eqb (host e) "" then None else Some (host e, VkString)
      else if String.eqb name "facility" then (λ v, (v, VkString)) <$> facility e
      else if String.eqb name "file" then (λ v, (v, VkString)) <$> file e
      else if String.eqb name "line" then (λ v, (pretty v, VkInteger)) <$> line e
      else None
  | FsPromoted =>
      if String.eqb name "trace_id" then (λ t, (hex_digits 32 t "", VkString)) <$> trace_id e
      else if String.eqb name "span_id" then (λ s, (hex_digits 16 s "", VkString)) <$> span_id e
      else None
  | FsAdditional => (λ v, (render v, kind_of v)) <$> additional_fields e !! name
  end.

Abbreviation Obs := (FieldSource * string * (string * ValueKind))%type.
Definition obs_at (name : string) (source : FieldSource) (o : option string) (kind : ValueKind) : list Obs :=
  match o with Some r => [((source, name), (r, kind))] | None => [] end.
Definition obs (e : LogEntry) : list Obs :=
  [((FsBuiltin, "level"), (Level_display (level e), VkString)); ((FsBuiltin, "message"), (message e, VkString))]
  ++ obs_at "host" FsBuiltin (if String.eqb (host e) "" then None else Some (host e)) VkString
  ++ obs_at "facility" FsBuiltin (facility e) VkString
  ++ obs_at "file" FsBuiltin (file e) VkString
  ++ obs_at "line" FsBuiltin (pretty <$> line e) VkInteger
  ++ obs_at "trace_id" FsPromoted ((λ t, hex_digits 32 t "") <$> trace_id e) VkString
  ++ obs_at "span_id" FsPromoted ((λ s, hex_digits 16 s "") <$> span_id e) VkString
  ++ ((λ kv, ((FsAdditional, kv.1), (render kv.2, kind_of kv.2))) <$> walk (additional_fields e)).

Definition bump_obs (m : FieldMap) (o : Obs) : FieldMap := bump_field o.1.2 o.1.1 o.2.1 o.2.2 m.

Lemma bump_opt_obs name source o kind m : bump_opt name source o kind m = foldl bump_obs m (obs_at name source o kind).
Proof using Type. by destruct o. Qed.
Lemma fields_observe_obs m e : fields_observe walk m e = foldl bump_obs m (obs e).
Proof using Type.
  unfold fields_observe, obs. rewrite !bump_opt_obs, !foldl_app.
  assert (∀ l M, foldl (λ m kv, bump_field kv.1 FsAdditional (render kv.2) (kind_of kv.2) m) M l
    = foldl bump_obs M ((λ kv, ((FsAdditional, kv.1), (render kv.2, kind_of kv.2))) <$> l)) as ->; [|done].
  intros l. induction l as [|kv l IH]; intros M; [done|]. apply IH.
Qed.

Lemma of_key_app {K A} `{EqDecision K, !Countable K} (k : K) (l l' : list (K * A)) : of_key k (l ++ l') = of_key k l ++ of_key k l'.
Proof using Type. unfold of_key. by rewrite List.filter_app, fmap_app. Qed.
Lemma of_key_cons {K A} `{EqDecision K, !Countable K} (k k' : K) (a : A) l :
  of_key k ((k', a) :: l) = (if bool_decide (k' = k) then [a] else []) ++ of_key k l.
Proof using Type. unfold of_key. simpl. by destruct (bool_decide (k' = k)). Qed.

Lemma of_key_at k name source o kind :
  of_key k (obs_at name source o kind) = if bool_decide ((source, name) = k) then option_list ((λ r, (r, kind)) <$> o) else [].
Proof using Type. destruct o as [r|]; simpl; [|by case_bool_decide]. rewrite of_key_cons, app_nil_r. by case_bool_decide. Qed.

Lemma of_key_extra n (h : Value → string * ValueKind) (l : list (string * Value)) : NoDup l.*1 →
  of_key (FsAdditional, n) ((λ kv, ((FsAdditional, kv.1), h kv.2)) <$> l) = option_list (h <$> (list_to_map l : gmap string Value) !! n).
Proof using Type.
  induction l as [|[n' v] l IH]; intros Hn; [done|]. apply NoDup_cons in Hn as [Hn' Hn]. cbn [fmap list_fmap fst snd] in *. rewrite of_key_cons, IH by done.
  rewrite list_to_map_cons. destruct (decide (n' = n)) as [->|Hne].
  - rewrite bool_decide_eq_true_2, lookup_insert_eq by done. rewrite (not_elem_of_list_to_map_1 l n Hn'). done.
  - rewrite bool_decide_eq_false_2, lookup_insert_ne by congruence. done.
Qed.
Lemma of_key_foreign k (h : Value → string * ValueKind) (l : list (string * Value)) : k.1 ≠ FsAdditional →
  of_key k ((λ kv, ((FsAdditional, kv.1), h kv.2)) <$> l) = [].
Proof using Type.
  intros Hk. induction l as [|kv l IH]; [done|]. cbn [fmap list_fmap]. rewrite of_key_cons, IH, bool_decide_eq_false_2; [done|]. destruct k. intros [= <-]. by apply Hk.
Qed.

Lemma obs_value k e : of_key k (obs e) = option_list (field_value k e).
Proof using Hwalk.
  unfold obs. rewrite !of_key_app, !of_key_cons, !of_key_at. destruct k as [source name].
  assert (NoDup (walk (additional_fields e)).*1) as Hn by (rewrite Hwalk; apply NoDup_fst_map_to_list).
  destruct source.
  2: { rewrite !bool_decide_eq_false_2 by done. rewrite (of_key_extra name (λ v, (render v, kind_of v))) by done.
       rewrite (list_to_map_proper _ _ Hn (Hwalk _)), list_to_map_to_list. done. }
  all: rewrite (of_key_foreign _ (λ v, (render v, kind_of v))), app_nil_r by done; unfold field_value.
  - repeat match goal with
           | |- context [String.eqb name ?s] => destruct (String.eqb_spec name s) as [->|]
           end; rewrite ?bool_decide_eq_true_2 by done; rewrite ?bool_decide_eq_false_2 by congruence; simpl; rewrite ?app_nil_r;
      try done; try (by destruct (String.eqb (host e) "")); try (by destruct (facility e)); try (by destruct (file e)); by destruct (line e).
  - repeat match goal with
           | |- context [String.eqb name ?s] => destruct (String.eqb_spec name s) as [->|]
           end; rewrite ?bool_decide_eq_true_2 by done; rewrite ?bool_decide_eq_false_2 by congruence; simpl; rewrite ?app_nil_r;
      try done; try (by destruct (trace_id e)); by destruct (span_id e).
Qed.

(** Everything that is observed, and what of it is a row's. *)
Definition all_obs (es : list LogEntry) : list Obs := mjoin (obs <$> es).
Definition values_of (k : FieldSource * string) (es : list LogEntry) : list (string * ValueKind) := omap (field_value k) es.
Lemma all_obs_values k es : of_key k (all_obs es) = values_of k es.
Proof using Hwalk.
  unfold all_obs, values_of. induction es as [|e es IH]; [done|]. cbn [fmap list_fmap]. change (mjoin (obs e :: (obs <$> es))) with (obs e ++ mjoin (obs <$> es)).
  rewrite of_key_app, IH, obs_value. simpl. by destruct (field_value k e).
Qed.
Lemma fields_run m es : foldl (fields_observe walk) m es = foldl bump_obs m (all_obs es).
Proof using Type.
  revert m. induction es as [|e es IH]; intros m; [done|]. simpl. rewrite IH, fields_observe_obs. unfold all_obs. cbn [fmap list_fmap].
  change (mjoin (obs e :: (obs <$> es))) with (obs e ++ mjoin (obs <$> es)). by rewrite foldl_app.
Qed.

(** ** A row's table of values *)

Definition none_exempt {K} (_ : K) : bool := false.
Definition value_table (l : list (string * ValueKind)) : gmap string (list unit) * list (string * unit) :=
  capped DISTINCT_CAP none_exempt [] ((λ rk, (rk.1, ())) <$> l).
Definition row_acc (k : FieldSource * string) (l : list (string * ValueKind)) : FieldAcc :=
  foldl (λ a rk, field_acc_observe a rk.1 rk.2) (mkFieldAcc 0 ∅ false (builtin_kind k.1 k.2)) l.
Definition kinds_of (b : option ValueKind) (ks : list ValueKind) : option ValueKind :=
  match b, ks with
  | Some k, ks => Some (kind_join k ks)
  | None, k :: ks => Some (kind_join k ks)
  | None, [] => None
  end.

Record row_ok (k : FieldSource * string) (l : list (string * ValueKind)) (a : FieldAcc) : Prop := {
  ro_present : fa_present a = N.of_nat (length l);
  ro_counts : fa_counts a = (λ us, N.of_nat (length us)) <$> (value_table l).1;
  ro_capped : fa_capped a = bool_decide ((value_table l).2 ≠ []);
  ro_kind : fa_kind a = kinds_of (builtin_kind k.1 k.2) l.*2;
}.

Lemma value_table_snoc l rk : value_table (l ++ [rk]) = capped_step DISTINCT_CAP none_exempt (value_table l) (rk.1, ()).
Proof using Type. unfold value_table. rewrite fmap_app. apply capped_snoc. Qed.

Lemma row_acc_ok k l : row_ok k l (row_acc k l).
Proof using Type.
  induction l as [|[r kd] l [IP IC IK IV]] using rev_ind.
  - split; try done.
    change (builtin_kind k.1 k.2 = kinds_of (builtin_kind k.1 k.2) []). by destruct (builtin_kind k.1 k.2).
  - unfold row_acc. rewrite foldl_app. fold (row_acc k l). cbn [foldl fst snd]. unfold field_acc_observe.
    assert ((DISTINCT_CAP <=? size (fa_counts (row_acc k l)))%nat && negb (bool_decide (is_Some (fa_counts (row_acc k l) !! r)))
      = negb (admits DISTINCT_CAP none_exempt (value_table l).1 r)) as ->.
    { unfold admits, none_exempt. rewrite IC, map_size_fmap, lookup_fmap, orb_false_l, negb_orb, andb_comm, <-Nat.leb_antisym. f_equal. f_equal.
      apply bool_decide_ext. by rewrite fmap_is_Some. }
    assert (Some match fa_kind (row_acc k l) with Some k0 => merge_kind k0 kd | None => kd end = kinds_of (builtin_kind k.1 k.2) (l ++ [(r, kd)]).*2) as HK.
    { rewrite IV, fmap_app. cbn [fmap list_fmap snd]. destruct (builtin_kind k.1 k.2) as [b|]; simpl.
      - by rewrite <-!merge_join, foldl_app.
      - destruct (l.*2) as [|k0 ks]; simpl; [done|]. by rewrite <-!merge_join, foldl_app. }
    assert (fa_present (row_acc k l) + 1 = N.of_nat (length (l ++ [(r, kd)]))) as HP by (rewrite IP, length_app; simpl; lia).
    pose proof (value_table_snoc l (r, kd)) as Hs. unfold capped_step in Hs. cbn [fst snd] in Hs.
    destruct (admits DISTINCT_CAP none_exempt (value_table l).1 r); cbn [negb]; split; cbn [fa_present fa_counts fa_capped fa_kind]; try done;
      rewrite Hs; cbn [fst snd]; try done.
    + rewrite fmap_insert, IC, lookup_fmap. f_equal. destruct ((value_table l).1 !! r) as [us|]; simpl; [rewrite length_app; simpl; lia|done].
    + symmetry. apply bool_decide_eq_true_2. by destruct (value_table l).2.
Qed.

(** ** The table of rows *)

Definition builtin_keys : list (FieldSource * string) := (λ '(n, s, _, _), (s, n)) <$> BUILTINS.
Definition row_table (os : list Obs) : gmap (FieldSource * string) (list (string * ValueKind)) :=
  (capped NAME_CAP none_exempt builtin_keys os).1.
Definition unnamed (os : list Obs) : list Obs := (capped NAME_CAP none_exempt builtin_keys os).2.

Definition at_row (k : FieldSource * string) (b : string * FieldSource * option string * ValueKind) : bool :=
  let '(n, s, _, _) := b in String.eqb n k.2 && bool_decide (s = k.1).
Lemma at_row_key k n s sel kd : at_row k (n, s, sel, kd) = bool_decide ((s, n) = k).
Proof using Type.
  destruct k as [ks kn]. unfold at_row. cbn [fst snd]. destruct (String.eqb_spec n kn) as [->|Hn].
  - simpl. apply bool_decide_ext. split; [by intros ->|by intros [= ->]].
  - symmetry. apply bool_decide_eq_false_2. congruence.
Qed.
Lemma seeds_lookup bs : ∀ m k, foldl seed m bs !! k =
  match m !! k with Some a => Some a | None => (λ b, mkFieldAcc 0 ∅ false (Some b.2)) <$> find (at_row k) bs end.
Proof using Type.
  induction bs as [|[[[n s] sel] kd] bs IH]; intros m k; [simpl; by destruct (m !! k)|]. cbn [foldl find]. rewrite IH, at_row_key. unfold seed.
  destruct (decide ((s, n) = k)) as [<-|Hne].
  - rewrite bool_decide_eq_true_2 by done. destruct (m !! (s, n)) as [a|] eqn:E; [by rewrite E|by rewrite lookup_insert_eq].
  - rewrite bool_decide_eq_false_2 by done. destruct (m !! (s, n)) as [a|] eqn:E; [done|by rewrite lookup_insert_ne].
Qed.
Lemma find_row k bs : is_Some (find (at_row k) bs) ↔ k ∈ (λ '(n, s, _, _), (s, n)) <$> bs.
Proof using Type.
  induction bs as [|[[[n s] sel] kd] bs IH]; cbn [find fmap list_fmap]; [split; [by intros []|intros H1; by apply elem_of_nil in H1]|].
  rewrite elem_of_cons, <-IH, at_row_key. case_bool_decide as E; [split; [intros _; by left|by eexists]|].
  split; [by right|]. intros [->|]; done.
Qed.
Lemma builtin_keyed k : is_Some (builtin_kind k.1 k.2) ↔ k ∈ builtin_keys.
Proof using Type. unfold builtin_kind, builtin_keys. rewrite <-find_row. apply fmap_is_Some. Qed.

Lemma fields_new_lookup k : fm_accs fields_new !! k = row_acc k <$> (seeded builtin_keys : gmap _ (list (string * ValueKind))) !! k.
Proof using Type.
  unfold fields_new. cbn [fm_accs]. rewrite seeds_lookup, lookup_empty, seeded_lookup.
  case_bool_decide as E; rewrite <-builtin_keyed in E; unfold row_acc, builtin_kind, builtin_row in *; fold (at_row k) in *; cbn [fmap option_fmap option_map foldl] in *;
    destruct (find (at_row k) BUILTINS); [done|by destruct E|by destruct E; eexists|done].
Qed.

Record fields_ok (os : list Obs) (m : FieldMap) : Prop := {
  fo_accs k : fm_accs m !! k = row_acc k <$> row_table os !! k;
  fo_capped : fm_names_capped m = bool_decide (unnamed os ≠ []);
}.

Lemma same_size {K A B} `{Countable K} (m1 : gmap K A) (m2 : gmap K B) : (∀ k, is_Some (m1 !! k) ↔ is_Some (m2 !! k)) → size m1 = size m2.
Proof using Type. intros Hk. rewrite <-!(size_dom (D := gset K)). f_equal. apply set_eq. intros k. by rewrite !elem_of_dom. Qed.

Lemma fields_ok_size os m : fields_ok os m → size (fm_accs m) = size (row_table os).
Proof using Type. intros [FA _]. apply same_size. intros k. by rewrite FA, fmap_is_Some. Qed.

Lemma fields_ok_snoc os m o : fields_ok os m → fields_ok (os ++ [o]) (bump_obs m o).
Proof using Type.
  intros Hok. pose proof (fields_ok_size os m Hok) as Hz. destruct Hok as [FA FC]. destruct o as [k [r kd]].
  assert (capped NAME_CAP none_exempt builtin_keys (os ++ [(k, (r, kd))]) = capped_step NAME_CAP none_exempt (row_table os, unnamed os) (k, (r, kd))) as Hs
    by (rewrite capped_snoc; unfold row_table, unnamed; by destruct (capped _ _ _ os)).
  unfold bump_obs, bump_field. cbn [fst snd]. rewrite <-surjective_pairing.
  assert (negb (bool_decide (is_Some (fm_accs m !! k))) && (NAME_CAP <=? size (fm_accs m))%nat = negb (admits NAME_CAP none_exempt (row_table os) k)) as ->.
  { unfold admits, none_exempt. rewrite orb_false_l, negb_orb, <-Nat.leb_antisym, Hz. f_equal. f_equal. apply bool_decide_ext. by rewrite FA, fmap_is_Some. }
  unfold capped_step in Hs. cbn [fst snd] in Hs. destruct (admits NAME_CAP none_exempt (row_table os) k); cbn [negb];
    (split; cbn [fm_accs fm_names_capped]; [intros k'|]); unfold row_table, unnamed; rewrite Hs; cbn [fst snd]; try done.
  - destruct (decide (k' = k)) as [->|Hne]; [|rewrite !lookup_insert_ne by done; apply FA].
    rewrite !lookup_insert_eq. cbn [fmap option_fmap option_map]. f_equal.
    assert (∀ l, row_acc k (l ++ [(r, kd)]) = field_acc_observe (row_acc k l) r kd) as -> by (intros l; unfold row_acc; by rewrite foldl_app).
    rewrite FA.
    destruct (row_table os !! k) as [l|] eqn:E; [done|]. cbn [fmap option_fmap option_map from_option id].
    assert (builtin_kind k.1 k.2 = None) as Hb.
    { apply eq_None_not_Some. rewrite builtin_keyed. intros Hk.
      destruct (co_seeds _ _ _ _ _ _ (capped_spec NAME_CAP none_exempt builtin_keys os) k Hk) as [l Hl]. unfold row_table in E. by rewrite E in Hl. }
    unfold row_acc. cbn [foldl]. by rewrite Hb.
  - symmetry. apply bool_decide_eq_true_2. by destruct (unnamed os).
Qed.

Lemma fields_ok_run es : fields_ok (all_obs es) (foldl (fields_observe walk) fields_new es).
Proof using Type.
  rewrite fields_run. induction (all_obs es) as [|o os IH] using rev_ind; [|rewrite foldl_app; by apply fields_ok_snoc].
  split; [|done]. intros k. apply fields_new_lookup.
Qed.
Lemma row_learning es : capped_ok NAME_CAP none_exempt builtin_keys (all_obs es) (row_table (all_obs es)) (unnamed (all_obs es)).
Proof using Type. apply capped_spec. Qed.
Lemma row_values es k l : row_table (all_obs es) !! k = Some l → l = values_of k es.
Proof using Hwalk.
  intros E. pose proof (co_known _ _ _ _ _ _ (row_learning es) k) as H1. rewrite E, bool_decide_eq_true_2 in H1 by by eexists. injection H1 as ->. apply all_obs_values.
Qed.

(** ** A row *)

Lemma builtin_values k e v kd b : field_value k e = Some (v, kd) → builtin_kind k.1 k.2 = Some b → kd = b.
Proof using Type.
  intros Hv Hb. assert (k ∈ builtin_keys) as Hk by (apply builtin_keyed; by eexists). unfold builtin_keys in Hk. cbn [fmap list_fmap BUILTINS] in Hk.
  repeat (apply elem_of_cons in Hk as [->|Hk];
    [vm_compute in Hb; injection Hb as <-; cbn in Hv;
     first [by injection Hv as _ <-|by apply fmap_Some in Hv as (? & _ & [= _ <-])|repeat case_match; by simplify_eq]|]).
  by apply elem_of_nil in Hk.
Qed.
Lemma builtin_join k es b : builtin_kind k.1 k.2 = Some b → kind_join b (values_of k es).*2 = b.
Proof using Type.
  intros Hb. unfold kind_join. assert (forallb (λ k', bool_decide (k' = b)) (values_of k es).*2 = true) as ->; [|done].
  apply forallb_forall. intros kd ([v kd'] & -> & Hin)%list_elem_of_In%list_elem_of_fmap. apply bool_decide_eq_true_2.
  unfold values_of in Hin. apply list_elem_of_omap in Hin as (e & _ & He). by eapply builtin_values.
Qed.

(** How many of a row's records have a value, and which values there are. *)
Definition count_value (v : string) (l : list (string * ValueKind)) : nat := length (List.filter (λ rk, bool_decide (rk.1 = v)) l).
Definition distinct_of (l : list (string * ValueKind)) : nat := size (list_to_set l.*1 : gset string).

Lemma value_learning l : capped_ok DISTINCT_CAP none_exempt [] ((λ rk, (rk.1, ())) <$> l) (value_table l).1 (value_table l).2.
Proof using Type. apply capped_spec. Qed.
Lemma value_known l v us : (value_table l).1 !! v = Some us → length us = count_value v l ∧ (0 < count_value v l)%nat.
Proof using Type.
  intros E. pose proof (co_known _ _ _ _ _ _ (value_learning l) v) as H1. rewrite E, bool_decide_eq_true_2 in H1 by by eexists. injection H1 as H1.
  assert (length us = count_value v l) as Hl.
  { rewrite H1. unfold of_key, count_value. rewrite length_fmap. clear. induction l as [|[r kd] l IH]; [done|]. cbn [fmap list_fmap List.filter fst]. case_bool_decide; simpl; lia. }
  split; [done|]. rewrite <-Hl. destruct us; [|simpl; lia]. by destruct (not_elem_of_nil v (co_nonempty _ _ _ _ _ _ (value_learning l) v E)).
Qed.
Lemma count_value_elem v l : (0 < count_value v l)%nat → v ∈ l.*1.
Proof using Type.
  unfold count_value. destruct (List.filter _ l) as [|rk l'] eqn:E; simpl; [lia|]. intros _.
  assert (rk ∈ List.filter (λ rk, bool_decide (rk.1 = v)) l) as [<-%bool_decide_eq_true Hin]%elem_of_lfilter by (rewrite E; by left).
  by apply list_elem_of_fmap_2.
Qed.
Lemma table_values l : dom (value_table l).1 ⊆ (list_to_set l.*1 : gset string).
Proof using Type. intros v [us Hus]%elem_of_dom. apply elem_of_list_to_set, count_value_elem. by apply value_known in Hus as [_ ?]. Qed.

Lemma value_bounded l : (size (value_table l).1 ≤ DISTINCT_CAP)%nat.
Proof using Type.
  pose proof (co_size _ _ _ _ _ _ (value_learning l) ltac:(simpl; lia)) as Hs. rewrite map_filter_id in Hs; [done|]. done.
Qed.
Lemma values_uncapped l : (value_table l).2 = [] → dom (value_table l).1 = (list_to_set l.*1 : gset string).
Proof using Type.
  intros Hf. apply set_eq. intros v. split; [apply table_values|]. intros ([r kd] & -> & Hin)%elem_of_list_to_set%list_elem_of_fmap. apply elem_of_dom.
  destruct ((value_table l).1 !! r) eqn:E; [by eexists|]. exfalso. cbn [fst] in E.
  pose proof (co_folded _ _ _ _ _ _ (value_learning l)) as Hc. rewrite Hf in Hc.
  assert ((r, ()) ∈ @nil (string * unit)) as H1; [|by apply elem_of_nil in H1]. rewrite Hc. apply elem_of_lfilter. cbn [fst]. rewrite E. split; [done|].
  apply list_elem_of_fmap. by exists (r, kd).
Qed.
Lemma values_capped l : (value_table l).2 ≠ [] ↔ (DISTINCT_CAP < distinct_of l)%nat.
Proof using Type.
  unfold distinct_of. split.
  - intros Hf. pose proof (co_full _ _ _ _ _ _ (value_learning l) Hf) as Hs. destruct (value_table l) as [km fd] eqn:E. cbn [fst snd] in *.
    destruct fd as [|[v []] fd]; [done|]. pose proof (value_learning l) as Hc. rewrite E in Hc. cbn [fst snd] in Hc.
    assert ((v, ()) ∈ (v, ()) :: fd) as Hin by by left. rewrite (co_folded _ _ _ _ _ _ Hc) in Hin. apply elem_of_lfilter in Hin as [Hn Hin].
    cbn [fst] in Hn. apply negb_true_iff, bool_decide_eq_false in Hn. apply list_elem_of_fmap in Hin as ([r kd] & [= <-] & Hin).
    enough (size ({[ v ]} ∪ dom km : gset string) ≤ size (list_to_set l.*1 : gset string))%nat as Hz.
    { rewrite size_union, size_singleton, size_dom in Hz; [lia|]. apply disjoint_singleton_l. by rewrite elem_of_dom. }
    apply subseteq_size. intros x [->%elem_of_singleton|Hx]%elem_of_union.
    + apply elem_of_list_to_set, list_elem_of_fmap. by exists (v, kd).
    + pose proof (table_values l) as Ht. rewrite E in Ht. by apply Ht.
  - intros Hlt Hf. rewrite <-(values_uncapped l Hf), size_dom in Hlt. pose proof (value_bounded l). lia.
Qed.

(** ** The two orders *)

Abbreviation counted_cmp C := (cmp_pair (flip N.compare) C) (only parsing).
#[local] Instance counted_lawful {A} (C : A → A → comparison) : LawfulCmp C → LawfulCmp (counted_cmp C).
Proof using Type. intros HC. apply cmp_pair_lawful; [apply flip_lawful, _|done]. Qed.
Lemma top_le_key x y : top_le x y ↔ key_le (λ vc, (vc.2, vc.1)) (counted_cmp String.compare) x y.
Proof using Type. done. Qed.
#[export] Instance top_le_total : Total top_le.
Proof using Type. intros p q. rewrite !top_le_key. apply (key_le_total _ _). Qed.
#[export] Instance top_le_trans : Transitive top_le.
Proof using Type. intros p q r. rewrite !top_le_key. apply (key_le_trans _ _). Qed.
Lemma row_le_key x y : row_le x y ↔
  key_le (λ r, (fs_present r, (fs_field r, FieldSource_debug (fs_source r)))) (counted_cmp (cmp_pair String.compare String.compare)) x y.
Proof using Type. done. Qed.
#[export] Instance row_le_total : Total row_le.
Proof using Type. intros p q. rewrite !row_le_key. apply (key_le_total _ _). Qed.
#[export] Instance row_le_trans : Transitive row_le.
Proof using Type. intros p q r. rewrite !row_le_key. apply (key_le_trans _ _). Qed.

Lemma top_unique l (m : gmap string N) : l ≡ₚ map_to_list m → merge_sort top_le l = merge_sort top_le (map_to_list m).
Proof using Type.
  intros Hl. symmetry. apply (merge_sort_unique top_le fst); [|apply NoDup_fst_map_to_list|done].
  intros x y H1 H2. rewrite top_le_key in H1. rewrite top_le_key in H2. pose proof (key_le_antisym _ _ _ _ H1 H2) as E. by injection E.
Qed.

(** ** One row of the reply *)

Record field_row (k : FieldSource * string) (es : list LogEntry) (matched : N) (top : nat) (r : FieldStats) : Prop := {
  fr_key : (fs_source r, fs_field r) = k;
  fr_selector : fs_selector r = selector_of k.1 k.2;
  fr_present : fs_present r = N.of_nat (length (values_of k es));
  fr_coverage : fs_coverage_pct r = coverage_pct matched (fs_present r);
  fr_kind : Some (fs_kind r) = match builtin_kind k.1 k.2 with
                               | Some b => Some b
                               | None => (λ k0, kind_join k0 (tail (values_of k es).*2)) <$> head (values_of k es).*2
                               end;
  fr_distinct : fs_distinct r = if (distinct_of (values_of k es) <=? DISTINCT_CAP)%nat then Some (distinct_of (values_of k es)) else None;
  fr_top : ∃ tv, fs_top_values r = take top tv ∧ StronglySorted top_le tv ∧ NoDup tv.*1 ∧ (length tv ≤ DISTINCT_CAP)%nat ∧
    (∀ v c, (v, c) ∈ tv → 0 < c ∧ c = N.of_nat (count_value v (values_of k es))) ∧
    (is_Some (fs_distinct r) → ∀ v, v ∈ (values_of k es).*1 → v ∈ tv.*1);
}.

Lemma stats_row_ok k es matched top values :
  (∀ l, values l ≡ₚ l) → (k ∈ builtin_keys ∨ values_of k es ≠ []) →
  field_row k es matched top (stats_row values matched top (k, row_acc k (values_of k es))).
Proof using Type.
  intros Hv Hk. destruct (row_acc_ok k (values_of k es)) as [RP RC RK RV]. pose proof (values_capped (values_of k es)) as Hcap.
  destruct k as [source field]. cbn [fst snd] in *. unfold stats_row. split; cbn [fs_field fs_source fs_selector fs_present fs_coverage_pct fs_distinct fs_top_values fs_kind]; try done.
  - cbn [fst snd]. rewrite RV. destruct (builtin_kind source field) as [b|] eqn:Eb.
    { cbn [kinds_of from_option id]. by rewrite (builtin_join (source, field) es b Eb). }
    destruct Hk as [[b' Hk]%builtin_keyed|Hk]; [by cbn [fst snd] in Hk; rewrite Eb in Hk|].
    by destruct (values_of (source, field) es) as [|[v kd] l].
  - rewrite RK, RC, map_size_fmap. destruct (Nat.leb_spec (distinct_of (values_of (source, field) es)) DISTINCT_CAP) as [Hle|Hlt].
    + rewrite bool_decide_eq_false_2 by (rewrite Hcap; lia). unfold distinct_of. rewrite <-values_uncapped, size_dom; [done|].
      destruct (_ : list (string * unit)) eqn:E in Hcap |- *; [done|]. exfalso. assert (DISTINCT_CAP < distinct_of (values_of (source, field) es))%nat by (by apply Hcap). lia.
    + by rewrite bool_decide_eq_true_2 by by rewrite Hcap.
  - rewrite (top_unique (values _) (fa_counts _)) by apply Hv. eexists. split; [done|]. split_and!.
    + apply StronglySorted_merge_sort; apply _.
    + rewrite merge_sort_Permutation. apply NoDup_fst_map_to_list.
    + rewrite merge_sort_Permutation, length_map_to_list, RC, map_size_fmap. apply value_bounded.
    + intros v c. rewrite merge_sort_Permutation, elem_of_map_to_list, RC, lookup_fmap. intros (us & Hus & ->)%fmap_Some.
      apply value_known in Hus as [-> Hp]. split; [lia|done].
    + intros Hs v Hin. rewrite merge_sort_Permutation. assert ((value_table (values_of (source, field) es)).2 = []) as Hf.
      { rewrite RK in Hs. destruct (value_table (values_of (source, field) es)).2; [done|]. by rewrite bool_decide_eq_true_2 in Hs by done; destruct Hs. }
      pose proof (values_uncapped _ Hf) as Hd. assert (v ∈ dom (value_table (values_of (source, field) es)).1) as [us Hus]%elem_of_dom by (rewrite Hd; by apply elem_of_list_to_set).
      apply list_elem_of_fmap. exists (v, N.of_nat (length us)). split; [done|]. by rewrite elem_of_map_to_list, RC, lookup_fmap, Hus.
Qed.

Lemma seeds_fit : (length builtin_keys ≤ NAME_CAP)%nat.
Proof using Type. unfold NAME_CAP. vm_compute. lia. Qed.
Lemma table_rows es : (size (row_table (all_obs es)) ≤ NAME_CAP)%nat.
Proof using Type. pose proof (co_size _ _ _ _ _ _ (row_learning es) seeds_fit) as Hs. rewrite map_filter_id in Hs; done. Qed.
Lemma row_elem_kept es k : is_Some (row_table (all_obs es) !! k) → k ∈ builtin_keys ∨ values_of k es ≠ [].
Proof using Hwalk.
  intros [l Hl]. destruct l as [|x l]; [left; exact (co_nonempty _ _ _ _ _ _ (row_learning es) k Hl)|right]. apply row_values in Hl as <-. done.
Qed.
Lemma all_obs_elem es k : values_of k es ≠ [] ↔ ∃ x, (k, x) ∈ all_obs es.
Proof using Hwalk. rewrite <-all_obs_values, of_key_nil. split; [|naive_solver].
  intros Hn. destruct (of_key k (all_obs es)) as [|x l] eqn:E; [by rewrite of_key_nil in E; destruct Hn|]. exists x.
  assert (x ∈ of_key k (all_obs es)) as Hx by (rewrite E; by left). unfold of_key in Hx. apply list_elem_of_fmap in Hx as ([k' x'] & -> & Hx).
  apply elem_of_lfilter in Hx as [<-%bool_decide_eq_true ?]. done.
Qed.
Lemma unnamed_elem es : unnamed (all_obs es) ≠ [] ↔ ∃ k, row_table (all_obs es) !! k = None ∧ values_of k es ≠ [].
Proof using Hwalk.
  rewrite (co_folded _ _ _ _ _ _ (row_learning es)). split.
  - destruct (List.filter _ _) as [|[k x] l] eqn:E; [done|]. intros _. assert ((k, x) ∈ (k, x) :: l) as Hin by by left. rewrite <-E in Hin.
    apply elem_of_lfilter in Hin as [Hn Hin]. apply negb_true_iff, bool_decide_eq_false, eq_None_not_Some in Hn. exists k. split; [done|]. apply all_obs_elem. by eexists.
  - intros (k & Hn & [x Hx]%all_obs_elem) Hf.
    assert ((k, x) ∈ @nil Obs) as H1; [|by apply elem_of_nil in H1]. rewrite <-Hf. apply elem_of_lfilter. cbn [fst]. by rewrite Hn.
Qed.

Lemma finish_row_unique (values : list (string * N) → list (string * N)) matched top (l l' : list (FieldSource * string * FieldAcc)) :
  l' ≡ₚ l → NoDup l.*1 →
  merge_sort row_le (stats_row values matched top <$> l') = merge_sort row_le (stats_row values matched top <$> l).
Proof using Type.
  intros Hl Hn. symmetry. apply (merge_sort_unique row_le (λ r, (fs_source r, fs_field r))).
  - intros x y H1 H2. rewrite row_le_key in H1. rewrite row_le_key in H2. pose proof (key_le_antisym _ _ _ _ H1 H2) as E.
    injection E as _ E1 E2. rewrite E1. f_equal. by destruct (fs_source x), (fs_source y).
  - rewrite <-list_fmap_compose. erewrite list_fmap_ext; [exact Hn|]. by intros i [[s n] a] _.
  - by rewrite Hl.
Qed.
End spec.

Section walks.
Context `{X : Externals} {J : JsonScalars} {JN : JsonNumbers}.
Context (walk : gmap string Value → list (string * Value)) (Hwalk : ∀ g, walk g ≡ₚ map_to_list g).

(** A table that was not capped is the table of everything that is carried. *)
Lemma full_table es k : unnamed (all_obs walk es) = [] →
  row_table (all_obs walk es) !! k = if decide (k ∈ builtin_keys ∨ values_of k es ≠ []) then Some (values_of k es) else None.
Proof using Hwalk.
  intros Hu. destruct (row_table (all_obs walk es) !! k) as [l|] eqn:E.
  - rewrite decide_True by (apply (row_elem_kept walk Hwalk); by eexists). f_equal. by apply (row_values walk Hwalk).
  - rewrite decide_False; [done|]. intros [Hk|Hv].
    + destruct (co_seeds _ _ _ _ _ _ (row_learning walk es) k Hk) as [l Hl]. by rewrite E in Hl.
    + assert (unnamed (all_obs walk es) ≠ []) as Hn; [|done]. apply (unnamed_elem walk Hwalk). by exists k.
Qed.

Lemma still_room walk' es : (∀ g, walk' g ≡ₚ map_to_list g) → unnamed (all_obs walk es) = [] → unnamed (all_obs walk' es) = [].
Proof using Hwalk.
  intros Hw' Hu. destruct (decide (unnamed (all_obs walk' es) = [])) as [|Hn]; [done|]. exfalso.
  pose proof (co_full _ _ _ _ _ _ (row_learning walk' es) Hn) as Hf. apply (unnamed_elem walk' Hw') in Hn as (k & Hk & Hv).
  pose proof (table_rows walk es) as Hs. rewrite <-(size_dom (D := gset (FieldSource * string))) in Hf. rewrite <-(size_dom (D := gset (FieldSource * string))) in Hs.
  enough (size ({[ k ]} ∪ dom (row_table (all_obs walk' es)) : gset _) ≤ size (dom (row_table (all_obs walk es)) : gset _))%nat as Hz.
  { rewrite size_union, size_singleton in Hz; [lia|]. apply disjoint_singleton_l. by rewrite elem_of_dom, Hk, <-eq_None_not_Some. }
  apply subseteq_size. intros x Hx. apply elem_of_dom. rewrite full_table by done. rewrite decide_True; [by eexists|].
  apply elem_of_union in Hx as [->%elem_of_singleton|Hx%elem_of_dom]; [by right|]. by apply (row_elem_kept walk' Hw').
Qed.
End walks.

(** As long as no name was dropped, the map of fields does not depend on the
    order in which a record's additional fields are walked, nor on any other
    order a table is walked in: any two readings of the same records agree, and
    neither drops a name. *)
Theorem fields_walk_free `{X : Externals} {J : JsonScalars} {JN : JsonNumbers} walk walk' rows rows' values values' es matched top :
  (∀ g, walk g ≡ₚ map_to_list g) → (∀ g, walk' g ≡ₚ map_to_list g) →
  (∀ l, rows l ≡ₚ l) → (∀ l, rows' l ≡ₚ l) → (∀ l, values l ≡ₚ l) → (∀ l, values' l ≡ₚ l) →
  fm_names_capped (foldl (fields_observe walk) fields_new es) = false →
  fm_names_capped (foldl (fields_observe walk') fields_new es) = false ∧
  fields_summarize walk rows values es matched top = fields_summarize walk' rows' values' es matched top.
Proof.
  intros Hw Hw' Hr Hr' Hv Hv' Hc. pose proof (fields_ok_run walk es) as [FA FC]. pose proof (fields_ok_run walk' es) as [FA' FC'].
  rewrite FC in Hc. apply bool_decide_eq_false, dec_stable in Hc. pose proof (still_room walk Hw walk' es Hw' Hc) as Hc'.
  split; [rewrite FC', Hc'; by apply bool_decide_eq_false_2; intros H1; apply H1|].
  assert (fm_accs (foldl (fields_observe walk) fields_new es) = fm_accs (foldl (fields_observe walk') fields_new es)) as Ha.
  { apply map_eq. intros k. rewrite FA, FA', (full_table walk Hw) by done. by rewrite (full_table walk' Hw') by done. }
  unfold fields_summarize, fields_finish. rewrite Ha. set (M := map_to_list _).
  rewrite (finish_row_unique values matched top M), (finish_row_unique values' matched top M (rows' M)) by (apply Hr || apply Hr' || apply NoDup_fst_map_to_list).
  f_equal. apply list_fmap_ext. intros i [[source field] a] _. unfold stats_row. f_equal. f_equal.
  by rewrite (top_unique (values _) (fa_counts a)), (top_unique (values' _) (fa_counts a)).
Qed.

(** C37: The map of fields that [logs.fields] answers with: a row for each field of
    the schema and each additional field it learnt, at most [NAME_CAP], and it
    says so when the records carry a field that has no row, which is only when
    the table is full; a row has how many records carry the field, the kind its values make
    together, how many distinct ones there are (nothing past the cap, never a
    part of them), and values with exactly how many records have each, the most
    frequent first, all of them when their number is known; rows are in the
    reply's order, which does not depend on how a table is walked. *)
Theorem log_fields_account `{X : Externals} {J : JsonScalars} {JN : JsonNumbers} walk es matched top :
  (∀ g, walk g ≡ₚ map_to_list g) →
  ∃ ks out,
    NoDup ks ∧ builtin_keys ⊆ ks ∧ (length ks ≤ NAME_CAP)%nat ∧
    (∀ k, k ∈ ks → k ∈ builtin_keys ∨ values_of k es ≠ []) ∧
    (fm_names_capped (foldl (fields_observe walk) fields_new es) = true ↔ ∃ k, ¬ (k ∈ ks) ∧ values_of k es ≠ []) ∧
    ((∃ k, ¬ (k ∈ ks) ∧ values_of k es ≠ []) → length ks = NAME_CAP) ∧
    Forall2 (λ k r, field_row k es matched top r) ks out ∧ StronglySorted row_le out ∧
    ∀ rows values, (∀ l, rows l ≡ₚ l) → (∀ l, values l ≡ₚ l) → fields_summarize walk rows values es matched top = out.
Proof.
  intros Hw. set (m := foldl (fields_observe walk) fields_new es). pose proof (fields_ok_run walk es) as Hok. fold m in Hok.
  set (P := map_to_list (fm_accs m)).
  destruct (Permutation_map_inv (stats_row id matched top) P (merge_sort_Permutation row_le (stats_row id matched top <$> P))) as (sorted & Hsort & Hp).
  change (merge_sort row_le (stats_row id matched top <$> P) = stats_row id matched top <$> sorted) in Hsort.
  assert (∀ k, k ∈ sorted.*1 ↔ is_Some (row_table (all_obs walk es) !! k)) as Hk.
  { intros k. rewrite <-Hp. unfold P. rewrite list_elem_of_fmap. rewrite <-(fmap_is_Some (row_acc k)), <-(fo_accs _ _ Hok k). split.
    - intros ([k' a] & -> & Hin%elem_of_map_to_list). by eexists.
    - intros [a Ha]. exists (k, a). by rewrite elem_of_map_to_list. }
  assert (∀ k a, (k, a) ∈ sorted → a = row_acc k (values_of k es) ∧ (k ∈ builtin_keys ∨ values_of k es ≠ [])) as Hrow.
  { intros k a Hin. split; [|apply (row_elem_kept walk Hw), Hk, list_elem_of_fmap; by exists (k, a)]. rewrite <-Hp in Hin. apply elem_of_map_to_list in Hin.
    rewrite (fo_accs _ _ Hok k) in Hin. apply fmap_Some in Hin as (l & Hl & ->). by rewrite (row_values walk Hw es k l Hl). }
  assert (length sorted.*1 = size (row_table (all_obs walk es))) as Hlen.
  { rewrite length_fmap, <-Hp. unfold P. rewrite length_map_to_list. by apply fields_ok_size. }
  assert ((∃ k, ¬ (k ∈ sorted.*1) ∧ values_of k es ≠ []) ↔ unnamed (all_obs walk es) ≠ []) as Hun.
  { rewrite (unnamed_elem walk Hw). apply exist_proper. intros k. by rewrite Hk, eq_None_not_Some. }
  exists sorted.*1, (stats_row id matched top <$> sorted). split_and!.
  - rewrite <-Hp. apply NoDup_fst_map_to_list.
  - intros k Hin. apply Hk. exact (co_seeds _ _ _ _ _ _ (row_learning walk es) k Hin).
  - rewrite Hlen. apply table_rows.
  - intros k ([k' a] & -> & Hin)%list_elem_of_fmap. by apply Hrow in Hin as [_ ?].
  - by rewrite (fo_capped _ _ Hok), bool_decide_eq_true, Hun.
  - intros Hf%Hun. rewrite Hlen. apply (Nat.le_antisymm _ _); [apply table_rows|exact (co_full _ _ _ _ _ _ (row_learning walk es) Hf)].
  - clear -Hrow. induction sorted as [|[k a] l IH]; [constructor|]. constructor; [|apply IH; intros k' a' Hin; apply Hrow; by right].
    destruct (Hrow k a ltac:(by left)) as [-> Hin]. by apply stats_row_ok.
  - rewrite <-Hsort. apply StronglySorted_merge_sort; apply _.
  - intros rows values Hr Hv. unfold fields_summarize, fields_finish. fold m.
    rewrite (finish_row_unique values matched top P) by (apply Hr || apply NoDup_fst_map_to_list).
    rewrite <-Hsort. f_equal. apply list_fmap_ext. intros i [[source field] a] _. unfold stats_row. f_equal. f_equal. by rewrite (top_unique (values _) (fa_counts a)).
Qed.
(** ** Applied *)

#[local] Existing Instance sample_scalars.
#[local] Instance sample_numbers : JsonNumbers := {| Value_is_f64 := λ _, false |}.

Lemma log_fields_account_witness :
  (∃ ks out, NoDup ks ∧ builtin_keys ⊆ ks ∧ Forall2 (λ k r, field_row k profiled 4 2 r) ks out) ∧
  ((λ r, (fs_field r, fs_source r, fs_present r, fs_distinct r, fs_top_values r)) <$> fields_summarize map_to_list id id profiled 4 1) =
    [("host", FsBuiltin, 4, Some 1%nat, [("test", 4)]); ("level", FsBuiltin, 4, Some 2%nat, [("INFO", 3)]); ("message", FsBuiltin, 4, Some 4%nat, [("a", 1)]);
     ("kind", FsAdditional, 3, Some 2%nat, [("job", 2)]);
     ("facility", FsBuiltin, 0, Some 0%nat, []); ("file", FsBuiltin, 0, Some 0%nat, []);
     ("line", FsBuiltin, 0, Some 0%nat, []); ("span_id", FsPromoted, 0, Some 0%nat, []); ("trace_id", FsPromoted, 0, Some 0%nat, [])].
Proof.
  split; [|vm_compute; reflexivity].
  destruct (log_fields_account map_to_list profiled 4 2) as (ks & out & H1 & H2 & _ & _ & _ & _ & H3 & _); [done|]. by exists ks, out.
Defined.

Lemma fields_walk_free_witness :
  fields_summarize map_to_list id id profiled 4 1 = fields_summarize (reverse ∘ map_to_list) reverse reverse profiled 4 1.
Proof.
  apply (fields_walk_free map_to_list (reverse ∘ map_to_list) id reverse id reverse profiled 4 1); try done;
    [intros g; apply reverse_Permutation|intros l; apply reverse_Permutation|intros l; apply reverse_Permutation].
Defined.
