(* ===== verification/Params.v ===== *)
(** * Params: how a request's parameters are read ([daemon/rpc_handler.rs])

    A parameter that is absent or [null] takes its default; one of the wrong
    type is refused. The JSON values are [serde_json]'s: what each of its
    accessors answers is a parameter of the development. *)

From S2P Require Import Prelude Text F64 Gelf Filter Matcher Bookmarks Resolver DomainData Session Measure Threshold Collector.

Set Default Proof Using "Type".
Local Open Scope N_scope.

(** [get] of an object (of anything else, nothing), and the other accessors. *)
Class JsonReader {X : Externals} := {
  Value_get : string → Value → option Value;
  Value_is_null : Value → bool;
  Value_as_u64 : Value → option N;
  Value_as_f64 : Value → option f64;
  Value_as_array : Value → option (list Value);
  Value_is_object : Value → bool;
}.

(** A refusal: a text of the handlers', or another component's error, whose own
    text is not modelled. *)
Inductive RpcError :=
  | ErrText (s : string)
  | ErrParse (e : FilterParseError)
  | ErrResolve (e : BookmarkResolutionError)
  | ErrBookmark (e : BookmarkError)
  | ErrThreshold (e : ThresholdError)
  | ErrThresholdWord (s : string)
  | ErrSession (e : SessionError).

Definition rbind {A B} (r : RpcError + A) (f : A → RpcError + B) : RpcError + B :=
  match r with inl e => inl e | inr a => f a end.
Declare Scope rpc_scope.
Notation "'let?' x := r 'in' k" := (rbind r (λ x, k)) (at level 10, x pattern, k at level 200) : rpc_scope.
Local Open Scope rpc_scope.
Definition err {A} (s : string) : RpcError + A := inl (ErrText s).

Section params.
Context {X : Externals} {J : JsonScalars} {JR : JsonReader}.

Definition json_type (v : Value) : string :=
  if Value_is_null v then "null"
  else if bool_decide (is_Some (Value_as_bool v)) then "a boolean"
  else if bool_decide (is_Some (Value_as_number v)) then "a number"
  else if bool_decide (is_Some (Value_as_str v)) then "a string"
  else if bool_decide (is_Some (Value_as_array v)) then "an array"
  else "an object".

Definition opt_of {T} (params : Value) (key expected : string) (read : Value → option T) : RpcError + option T :=
  match Value_get key params with
  | None => inr None
  | Some v =>
      if Value_is_null v then inr None
      else match read v with
           | Some t => inr (Some t)
           | None => err ("`" +:+ key +:+ "` must be " +:+ expected +:+ ", not " +:+ json_type v)
           end
  end.

Definition missing (key : string) : RpcError := ErrText ("missing required parameter: " +:+ key).
Definition required {T} (key : string) (r : RpcError + option T) : RpcError + T :=
  let? o := r in match o with Some t => inr t | None => inl (missing key) end.

Definition opt_str (params : Value) (key : string) : RpcError + option string := opt_of params key "a string" Value_as_str.
Definition req_str (params : Value) (key : string) : RpcError + string := required key (opt_str params key).

Definition dquote : string := String (ascii_of_N 34) "".
Definition opt_bool (params : Value) (key : string) : RpcError + option bool :=
  match Value_get key params ≫= Value_as_str with
  | Some s =>
      if String.eqb s "true" || String.eqb s "false"
      then err ("`" +:+ key +:+ "` must be a boolean, not the string " +:+ dquote +:+ s +:+ dquote +:+ " — send " +:+ s +:+ " unquoted")
      else opt_of params key "a boolean" Value_as_bool
  | None => opt_of params key "a boolean" Value_as_bool
  end.

Definition opt_u64 (params : Value) (key : string) : RpcError + option N := opt_of params key "a non-negative integer" Value_as_u64.
Definition req_u64 (params : Value) (key : string) : RpcError + N := required key (opt_u64 params key).
Definition opt_f64 (params : Value) (key : string) : RpcError + option f64 := opt_of params key "a number" Value_as_f64.

Definition exceeds (key : string) (n max : N) : string := "`" +:+ key +:+ "` is " +:+ pretty n +:+ ", which exceeds the maximum " +:+ pretty max.
Definition bounded (max : N) (params : Value) (key : string) : RpcError + option N :=
  let? o := opt_u64 params key in
  match o with
  | None => inr None
  | Some n => if n <=? max then inr (Some n) else err (exceeds key n max)
  end.
Definition u32_max : N := 4294967295.
Definition opt_u32 (params : Value) (key : string) : RpcError + option N := bounded u32_max params key.
Definition req_u32 (params : Value) (key : string) : RpcError + N := required key (opt_u32 params key).
(** A [usize] has 64 bits. *)
Definition opt_usize (params : Value) (key : string) : RpcError + option N := bounded u64_max params key.

Definition MAX_CONTEXT_WINDOW : N := MAX_BUFFER_SIZE.
Definition opt_context_window (params : Value) (key : string) : RpcError + option N :=
  let? o := opt_u64 params key in
  match o with
  | None => inr None
  | Some n =>
      if MAX_CONTEXT_WINDOW <? n
      then err ("`" +:+ key +:+ "` is " +:+ pretty n +:+ ", which exceeds the maximum context window " +:+ pretty MAX_CONTEXT_WINDOW)
      else inr (Some n)
  end.

Fixpoint str_elements (key : string) (i : nat) (arr : list Value) : RpcError + list string :=
  match arr with
  | [] => inr []
  | v :: arr =>
      match Value_as_str v with
      | None => err ("`" +:+ key +:+ "[" +:+ pretty (N.of_nat i) +:+ "]` must be a string, not " +:+ json_type v)
      | Some s => let? out := str_elements key (S i) arr in inr (s :: out)
      end
  end.
Definition opt_str_array (params : Value) (key : string) : RpcError + option (list string) :=
  let? o := opt_of params key "an array of strings" Value_as_array in
  match o with
  | None => inr None
  | Some arr => let? out := str_elements key 0 arr in inr (Some out)
  end.

Definition is_valid_collector_name (name : string) : bool :=
  negb (String.eqb name "") && str_forall (λ a, is_ascii_alphanumeric a || Ascii.eqb a "_" || Ascii.eqb a "-") name.

Definition group_keys_of (params : Value) : RpcError + option (list string) :=
  let? o := opt_str_array params "group_keys" in
  match o with
  | None => inr None
  | Some keys =>
      if MAX_GROUP_KEYS <? N.of_nat (length keys)
      then err ("too many group_keys (" +:+ pretty (N.of_nat (length keys)) +:+ " > " +:+ pretty MAX_GROUP_KEYS +:+
                "): each one costs a column in every retained sample, and the width is not covered by max_sample_bytes. Group by one attribute — that is the case this is built for")
      else inr (Some keys)
  end.

(** [None] leaves a threshold alone, [Some None] removes it. *)
Definition threshold_of (params : Value) (group_keys : list string) : RpcError + option (option Threshold) * list ThresholdWarning :=
  match Value_get "threshold" params with
  | None => inr (None, [])
  | Some v =>
      if Value_is_null v then inr (Some None, [])
      else if negb (Value_is_object v) then err "threshold must be an object: { metric, op, value, window_ms, group? }"
      else
        let need (k : string) : RpcError + Value :=
          match Value_get k v with Some x => inr x | None => err ("threshold is missing `" +:+ k +:+ "`") end in
        let read {T} (o : option T) (text : string) : RpcError + T := match o with Some x => inr x | None => err text end in
        let word {T} (o : option T) (s : string) : RpcError + T := match o with Some x => inr x | None => inl (ErrThresholdWord s) end in
        let? m := need "metric" in
        let? m := read (Value_as_str m) "threshold.metric must be a string" in
        let? metric := word (metric_parse m) m in
        let? o := need "op" in
        let? o := read (Value_as_str o) "threshold.op must be a string" in
        let? op := word (op_parse o) o in
        let? value := need "value" in
        let? value := read (Value_as_f64 value) "threshold.value must be a number" in
        let? window := need "window_ms" in
        let? window := read (Value_as_u64 window) "threshold.window_ms must be a positive integer" in
        let? group :=
          match Value_get "group" v with
          | None => inr None
          | Some g =>
              if Value_is_null g then inr None
              else match Value_as_str g with
                   | Some s => inr (Some s)
                   | None => err ("threshold.group must be a string, not " +:+ json_type g)
                   end
          end in
        let t := mkThreshold metric group op value window in
        match threshold_validate group_keys t with
        | inl e => inl (ErrThreshold e)
        | inr warnings => inr (Some (Some t), warnings)
        end
  end.

Definition DEFAULT_CASE_WINDOW : N := 350.
Definition MAX_CASE_WINDOW : N := 5000.
Record WindowCount := mkWindowCount { wc_value : N; wc_clamped : bool }.
Definition window_count (params : Value) (key : string) : RpcError + WindowCount :=
  let? o := opt_usize params key in
  let requested := default DEFAULT_CASE_WINDOW o in
  inr (mkWindowCount (N.min requested MAX_CASE_WINDOW) (MAX_CASE_WINDOW <? requested)).

(** ** Entries of the domain registry *)

(** [None] is a panic of [parse_duration]. *)
Definition parse_ttl (v : Value) : option (TtlParseError + option TtlSpec) :=
  if Value_is_null v then Some (inr None)
  else match Value_as_bool v with
       | Some b => Some (if b then inl TtlMalformed else inr (Some TtlClear))
       | None =>
           match Value_as_str v with
           | Some s => (λ r, match r with inl e => inl e | inr secs => inr (Some (TtlSet secs)) end) <$> parse_duration s
           | None => Some (inl TtlMalformed)
           end
       end.

Inductive Parsed := PEntry (e : DataEntry) | PReject (o : DataOutcome).

(** One entry of a batch: it is refused (the batch is), a panic ([None] inside),
    read, or rejected on its own. *)
Definition parse_one (i : nat) (item : Value) : RpcError + option Parsed :=
  let here := "entries[" +:+ pretty (N.of_nat i) +:+ "]" in
  let? path :=
    match Value_get "path" item with
    | None => err ("`" +:+ here +:+ "` is missing `path`")
    | Some p =>
        if Value_is_null p then err ("`" +:+ here +:+ "` is missing `path`")
        else match Value_as_str p with
             | Some s => inr s
             | None => err ("`" +:+ here +:+ ".path` must be a string, not " +:+ json_type p)
             end
    end in
  let reject r := inr (Some (PReject (mkDataOutcome path (Rejected r)))) in
  let with_value (value : option string) :=
    match Value_get "ttl" item with
    | None => inr (Some (PEntry (mkData path value None)))
    | Some t =>
        match parse_ttl t with
        | None => inr None
        | Some (inl _) => reject MalformedTtl
        | Some (inr ttl) => inr (Some (PEntry (mkData path value ttl)))
        end
    end in
  match Value_get "value" item with
  | None => with_value None
  | Some v =>
      if Value_is_null v then with_value None
      else match Value_as_str v with
           | Some s => with_value (Some s)
           | None => reject MalformedValue
           end
  end.

(** The entries to apply and the rejections, each with its index. *)
Fixpoint parse_items (i : nat) (items : list Value) : RpcError + option (list (nat * DataEntry) * list (nat * DataOutcome)) :=
  match items with
  | [] => inr (Some ([], []))
  | item :: items =>
      let? p := parse_one i item in
      match p with
      | None => inr None
      | Some p =>
          let? rest := parse_items (S i) items in
          inr ((λ '(entries, rejected),
                 match p with
                 | PEntry e => ((i, e) :: entries, rejected)
                 | PReject o => (entries, (i, o) :: rejected)
                 end) <$> rest)
      end
  end.
Definition parse_data_entries (raw : option Value) : RpcError + option (list (nat * DataEntry) * list (nat * DataOutcome)) :=
  match raw ≫= Value_as_array with
  | None => err "entries is required and must be an array"
  | Some [] => err "entries must not be empty"
  | Some items => parse_items 0 items
  end.

(** A [sort_by_key] of the index. *)
Definition merge_outcomes (applied : list DataOutcome) (indices : list nat) (rejected : list (nat * DataOutcome)) : list DataOutcome :=
  snd <$> sort_by_key (λ io, N.of_nat io.1) (zip indices applied ++ rejected).
End params.
