(* ===== verification/Metrics.v ===== *)
(** * Metrics: what the receivers count, and how often they say it
    ([receiver/metrics.rs], [throttle.rs])

    A receiver never waits: an entry that does not fit its channel is dropped
    and counted. The channel is tokio's [mpsc], whose [try_send] fails on a
    full or a closed one. *)

From S2P Require Import Prelude Text Gelf Filter Matcher History.

Set Default Proof Using "Type".
Local Open Scope N_scope.

(** ** Throttle *)

Definition INTERVAL_NANOS : Z := 60000000000.
Record Throttle := mkThrottle { th_count : N; th_last : Z }.
Definition throttle_new : Throttle := mkThrottle 0 i64_min.

Definition i64_saturating_sub (a b : Z) : Z := Z.max i64_min (Z.min i64_max (a - b)).

(** [Some total] when this occurrence is logged. *)
Definition hit_at (now_nanos : Z) (t : Throttle) : option N * Throttle :=
  let n := u64_add (th_count t) 1 in
  if (INTERVAL_NANOS <=? i64_saturating_sub now_nanos (th_last t))%Z then (Some n, mkThrottle n now_nanos)
  else (None, mkThrottle n (th_last t)).

(** [elapsed] on the monotonic clock. *)
Definition hit (elapsed : Z) (t : Throttle) : option N * Throttle :=
  hit_at (if (elapsed <=? i64_max)%Z then elapsed else i64_max) t.

(** ** Counters *)

Inductive ReceiverSource := GelfUdp | GelfTcp | OtlpHttpLogs | OtlpHttpTraces | OtlpGrpcLogs | OtlpGrpcTraces.
#[global] Instance receiver_source_dec : EqDecision ReceiverSource.
Proof. solve_decision. Defined.
Definition source_as_str (s : ReceiverSource) : string :=
  match s with
  | GelfUdp => "gelf_udp"
  | GelfTcp => "gelf_tcp"
  | OtlpHttpLogs => "otlp_http_logs"
  | OtlpHttpTraces => "otlp_http_traces"
  | OtlpGrpcLogs => "otlp_grpc_logs"
  | OtlpGrpcTraces => "otlp_grpc_traces"
  end.

Inductive TraceTransport := OtlpHttp | OtlpGrpc.

Definition is_clean (l : TraceIngestLoss) : bool :=
  (tl_dropped l =? 0) && (tl_shed_batches l =? 0) && (tl_malformed l =? 0).

(** One cell for each source. *)
Record PerSource (A : Type) := mkSources {
  gelf_udp : A;
  gelf_tcp : A;
  otlp_http_logs : A;
  otlp_http_traces : A;
  otlp_grpc_logs : A;
  otlp_grpc_traces : A;
}.
Arguments mkSources {A}. Arguments gelf_udp {A}. Arguments gelf_tcp {A}. Arguments otlp_http_logs {A}.
Arguments otlp_http_traces {A}. Arguments otlp_grpc_logs {A}. Arguments otlp_grpc_traces {A}.

Definition cell {A} (s : ReceiverSource) (p : PerSource A) : A :=
  match s with
  | GelfUdp => gelf_udp p
  | GelfTcp => gelf_tcp p
  | OtlpHttpLogs => otlp_http_logs p
  | OtlpHttpTraces => otlp_http_traces p
  | OtlpGrpcLogs => otlp_grpc_logs p
  | OtlpGrpcTraces => otlp_grpc_traces p
  end.
Definition set_cell {A} (s : ReceiverSource) (x : A) (p : PerSource A) : PerSource A :=
  let at_ t y := if bool_decide (s = t) then x else y in
  mkSources (at_ GelfUdp (gelf_udp p)) (at_ GelfTcp (gelf_tcp p)) (at_ OtlpHttpLogs (otlp_http_logs p))
    (at_ OtlpHttpTraces (otlp_http_traces p)) (at_ OtlpGrpcLogs (otlp_grpc_logs p)) (at_ OtlpGrpcTraces (otlp_grpc_traces p)).
Definition all_sources {A} (x : A) : PerSource A := mkSources x x x x x x.
Definition map_sources {A B} (f : A → B) (p : PerSource A) : PerSource B :=
  mkSources (f (gelf_udp p)) (f (gelf_tcp p)) (f (otlp_http_logs p)) (f (otlp_http_traces p)) (f (otlp_grpc_logs p)) (f (otlp_grpc_traces p)).

(** [rm_last] is in Unix nanoseconds, [i64::MIN] for never. *)
Record ReceiverMetrics := mkMetrics {
  rm_dropped : PerSource N;
  rm_http_traces_shed : N;
  rm_grpc_traces_shed : N;
  rm_http_traces_malformed : N;
  rm_grpc_traces_malformed : N;
  rm_gelf_tcp_oversize : N;
  rm_drop_warn : Throttle;
  rm_oversize_warn : Throttle;
  rm_last : PerSource Z;
}.
Definition metrics_new : ReceiverMetrics :=
  mkMetrics (all_sources 0) 0 0 0 0 0 throttle_new throttle_new (all_sources i64_min).

(** [timestamp_nanos_opt] of the wall clock, or [i64::MAX]. *)
Definition nanos_of (now : Z) : Z := if fits_i64 now then now else i64_max.

Definition record_received (now : Z) (s : ReceiverSource) (m : ReceiverMetrics) : ReceiverMetrics :=
  mkMetrics (rm_dropped m) (rm_http_traces_shed m) (rm_grpc_traces_shed m) (rm_http_traces_malformed m) (rm_grpc_traces_malformed m)
    (rm_gelf_tcp_oversize m) (rm_drop_warn m) (rm_oversize_warn m) (set_cell s (nanos_of now) (rm_last m)).

Definition liveness (m : ReceiverMetrics) : PerSource (option Z) :=
  map_sources (λ v, if (v =? i64_min)%Z then None else Some v) (rm_last m).

(** Also whether a warning is logged. *)
Definition record_drop (elapsed : Z) (s : ReceiverSource) (m : ReceiverMetrics) : bool * ReceiverMetrics :=
  let '(logged, t) := hit elapsed (rm_drop_warn m) in
  (bool_decide (is_Some logged),
   mkMetrics (set_cell s (u64_add (cell s (rm_dropped m)) 1) (rm_dropped m)) (rm_http_traces_shed m) (rm_grpc_traces_shed m)
     (rm_http_traces_malformed m) (rm_grpc_traces_malformed m) (rm_gelf_tcp_oversize m) t (rm_oversize_warn m) (rm_last m)).

Definition record_oversize_drop (elapsed : Z) (m : ReceiverMetrics) : option N * ReceiverMetrics :=
  let '(logged, t) := hit elapsed (rm_oversize_warn m) in
  (logged,
   mkMetrics (rm_dropped m) (rm_http_traces_shed m) (rm_grpc_traces_shed m) (rm_http_traces_malformed m)
     (rm_grpc_traces_malformed m) (u64_add (rm_gelf_tcp_oversize m) 1) (rm_drop_warn m) t (rm_last m)).
Definition oversize_dropped (m : ReceiverMetrics) : N := rm_gelf_tcp_oversize m.

Definition record_trace_batch_shed (t : TraceTransport) (m : ReceiverMetrics) : ReceiverMetrics :=
  let bump (u : TraceTransport) (n : N) := match t, u with OtlpHttp, OtlpHttp | OtlpGrpc, OtlpGrpc => u64_add n 1 | _, _ => n end in
  mkMetrics (rm_dropped m) (bump OtlpHttp (rm_http_traces_shed m)) (bump OtlpGrpc (rm_grpc_traces_shed m)) (rm_http_traces_malformed m)
    (rm_grpc_traces_malformed m) (rm_gelf_tcp_oversize m) (rm_drop_warn m) (rm_oversize_warn m) (rm_last m).
Definition record_trace_malformed (t : TraceTransport) (m : ReceiverMetrics) : ReceiverMetrics :=
  let bump (u : TraceTransport) (n : N) := match t, u with OtlpHttp, OtlpHttp | OtlpGrpc, OtlpGrpc => u64_add n 1 | _, _ => n end in
  mkMetrics (rm_dropped m) (rm_http_traces_shed m) (rm_grpc_traces_shed m) (bump OtlpHttp (rm_http_traces_malformed m))
    (bump OtlpGrpc (rm_grpc_traces_malformed m)) (rm_gelf_tcp_oversize m) (rm_drop_warn m) (rm_oversize_warn m) (rm_last m).

Definition trace_ingest_loss (m : ReceiverMetrics) : TraceIngestLoss :=
  mkLoss (u64_add (otlp_http_traces (rm_dropped m)) (otlp_grpc_traces (rm_dropped m)))
    (u64_add (rm_http_traces_shed m) (rm_grpc_traces_shed m))
    (u64_add (rm_http_traces_malformed m) (rm_grpc_traces_malformed m)).

Definition metrics_snapshot (m : ReceiverMetrics) : PerSource N := rm_dropped m.

(** ** Sending *)

Record Channel (A : Type) := mkChannel { ch_queue : list A; ch_capacity : nat; ch_closed : bool }.
Arguments mkChannel {A}. Arguments ch_queue {A}. Arguments ch_capacity {A}. Arguments ch_closed {A}.

Inductive TrySend (A : Type) := SendOk (c : Channel A) | SendFull | SendClosed.
Arguments SendOk {A}. Arguments SendFull {A}. Arguments SendClosed {A}.
Definition try_send {A} (x : A) (c : Channel A) : TrySend A :=
  if ch_closed c then SendClosed
  else if (ch_capacity c <=? length (ch_queue c))%nat then SendFull
  else SendOk (mkChannel (ch_queue c ++ [x]) (ch_capacity c) false).

Section send.
Context {X : Externals}.
(** [now] is the wall clock's, [elapsed] the monotonic one's. *)
Definition try_send_log (now elapsed : Z) (c : Channel LogEntry) (e : LogEntry) (s : ReceiverSource) (m : ReceiverMetrics)
  : bool * Channel LogEntry * ReceiverMetrics :=
  match try_send e c with
  | SendOk c => (true, c, record_received now s m)
  | SendFull => (false, c, (record_drop elapsed s m).2)
  | SendClosed => (false, c, m)
  end.
Definition try_send_span (now elapsed : Z) (c : Channel SpanEntry) (e : SpanEntry) (s : ReceiverSource) (m : ReceiverMetrics)
  : bool * Channel SpanEntry * ReceiverMetrics :=
  match try_send e c with
  | SendOk c => (true, c, record_received now s m)
  | SendFull => (false, c, (record_drop elapsed s m).2)
  | SendClosed => (false, c, m)
  end.
End send.
