(* ===== verification/Domains.v ===== *)
(** * Domains: a domain, its registry and its making
    ([daemon/domain.rs], [daemon/domain_lifecycle.rs], the parts of
    [daemon/rpc_handler.rs] that build one)

    A domain owns a pipeline, a span ring, bookmarks and metrics over one
    sequence counter. Its tasks and sockets are not modelled: what binding a
    port answers is an argument. *)

From S2P Require Import Prelude Text F64 Gelf Filter Matcher SeqCounter Epoch Bookmarks MemStore Pipeline SpanStore DomainData DataFile Session History Metrics.

Set Default Proof Using "Type".
Local Open Scope N_scope.

(** ** Identity and configuration *)

Inductive DomainError := InvalidDomainName (name : string).
Definition DomainId_new (name : string) : DomainError + DomainId :=
  if negb (is_valid_name name) then inl (InvalidDomainName name) else inr name.
Definition is_default (id : DomainId) : bool := String.eqb id default_domain.

Inductive DomainSource := SourceConfig | SourcePersistent | SourceEphemeral.
#[global] Instance domain_source_dec : EqDecision DomainSource.
Proof. solve_decision. Defined.
Definition domain_source_str (s : DomainSource) : string :=
  match s with SourceConfig => "config" | SourcePersistent => "persistent" | SourceEphemeral => "ephemeral" end.

(** A port of 0 is a receiver that is off. *)
Record DomainConfig := mkDomainConfig {
  dc_name : DomainId;
  dc_gelf_port : N;
  dc_otlp_grpc_port : N;
  dc_otlp_http_port : N;
  dc_log_buffer_size : N;
  dc_span_buffer_size : N;
  dc_source : DomainSource;
}.

(** What a domain loaded from a case knows about itself. *)
Record PostmortemInfo := mkPostmortem {
  pm_case : string;
  pm_captured_at : Z;
  pm_verdict : EvidenceVerdict;
  pm_logs_omitted : bool;
  pm_spans_omitted : bool;
  pm_registry_dropped : N;
  pm_registry : DomainRegistry;
}.

(** ** What a case holds, once read ([cases/load.rs], [cases/read.rs]) *)

Record SeqRange := mkSeqRange { sr_from : N; sr_to : N; sr_before_missing : N; sr_after_missing : N; sr_clamped : bool }.
Record SourceCounts := mkSourceCounts { sc_filter : N; sc_pre_trigger : N; sc_post_trigger : N }.
Record FileRef := mkFileRef { fr_file : string; fr_records : N; fr_by_source : option SourceCounts }.
Record AnchorRef := mkAnchorRef { ar_kind : string; ar_value : string; ar_seq : N; ar_at : Z }.
Record Provenance := mkProvenance { pv_core : string; pv_missing : list string }.
Record NarrowedSpan := mkNarrowed { na_from : N; na_to : N; na_filters : list string }.
Record RegistryFact := mkRegFact {
  rf_path : string;
  rf_value : string;
  rf_created_at : Z;
  rf_validated_at : Z;
  rf_ttl_secs : option N;
  rf_expired : option bool;
}.
Record RegistryBlock := mkRegistryBlock { rb_logmon_format : N; rb_facts : list RegistryFact; rb_dropped : N }.

Record FrontMatter := mkFront {
  fm_case : string;
  fm_logmon_format : N;
  fm_captured_at : Z;
  fm_domain : string;
  fm_incarnation : option string;
  fm_reason : string;
  fm_anchor : AnchorRef;
  fm_headline : string;
  fm_verdict : EvidenceVerdict;
  fm_seq_range : SeqRange;
  fm_logdata : option FileRef;
  fm_spandata : option FileRef;
  fm_narrowed_by : option (list NarrowedSpan);
  fm_provenance : Provenance;
  fm_asserted : gmap string string;
}.

Section domains.
Context {X : Externals}.

Record LoadedCase := mkLoadedCase {
  ca_stem : string;
  ca_front : FrontMatter;
  ca_logs : option (list LogEntry);
  ca_spans : option (list SpanEntry);
  ca_registry : option RegistryBlock;
}.
Definition from_seq (c : LoadedCase) : N := sr_from (fm_seq_range (ca_front c)).
Definition to_seq (c : LoadedCase) : N := sr_to (fm_seq_range (ca_front c)).

(** ** A domain *)

Record BoundDomain := mkBound {
  bd_config : DomainConfig;
  bd_pipeline : LogPipeline;
  bd_spans : SpanStore;
  bd_bookmarks : BookmarkStore;
  bd_metrics : ReceiverMetrics;
  bd_postmortem : option PostmortemInfo;
}.
Definition bd_name (d : BoundDomain) : DomainId := dc_name (bd_config d).
Definition set_bookmark_store (bs : BookmarkStore) (d : BoundDomain) : BoundDomain :=
  mkBound (bd_config d) (bd_pipeline d) (bd_spans d) bs (bd_metrics d) (bd_postmortem d).
Definition set_pipeline (p : LogPipeline) (d : BoundDomain) : BoundDomain :=
  mkBound (bd_config d) p (bd_spans d) (bd_bookmarks d) (bd_metrics d) (bd_postmortem d).
Definition set_span_store (s : SpanStore) (d : BoundDomain) : BoundDomain :=
  mkBound (bd_config d) (bd_pipeline d) s (bd_bookmarks d) (bd_metrics d) (bd_postmortem d).

Definition from_parts (config : DomainConfig) (p : LogPipeline) (s : SpanStore) (bs : BookmarkStore) (m : ReceiverMetrics)
  : BoundDomain := mkBound config p s bs m None.
Definition sealed_as (info : PostmortemInfo) (d : BoundDomain) : BoundDomain :=
  mkBound (bd_config d) (bd_pipeline d) (bd_spans d) (bd_bookmarks d) (bd_metrics d) (Some info).
Definition is_postmortem (d : BoundDomain) : bool := bool_decide (is_Some (bd_postmortem d)).
Definition fact_clock (now : Z) (d : BoundDomain) : Z :=
  match bd_postmortem d with Some pm => pm_captured_at pm | None => now end.
Definition new_with_metrics (config : DomainConfig) (initial_seq : N) (m : ReceiverMetrics) : BoundDomain :=
  let c := new_with_initial initial_seq in
  from_parts config (new_with_seq_counter (N.to_nat (dc_log_buffer_size config)) c)
    (SpanStore.new (N.to_nat (dc_span_buffer_size config))) Bookmarks.new m.

(** ** The registry of domains: keyed by the configured name *)

Definition DomainMap : Type := gmap DomainId BoundDomain.
Definition map_insert (d : BoundDomain) (m : DomainMap) : DomainMap := <[bd_name d := d]> m.
Definition map_contains (id : DomainId) (m : DomainMap) : bool := bool_decide (is_Some (m !! id)).
(** The order of a walk of the map is arbitrary: it is an argument. *)
Definition list_domains (order : DomainMap → list (DomainId * BoundDomain)) (m : DomainMap) : list BoundDomain := (order m).*2.

(** ** A new domain ([domain_lifecycle.rs]) *)

(** [None] auto-allocates, [Some 0] disables, [Some n] binds [n]. *)
Record DomainPortSpec := mkPorts { ps_gelf : option N; ps_otlp_grpc : option N; ps_otlp_http : option N }.

(** What the operating system answers: the attempt's free port, the start of
    the GELF receiver on a port (its port), and of the OTLP one on two. *)
Record Sockets := mkSockets {
  free_port : nat → string + N;
  gelf_start : nat → N → string + N;
  otlp_start : N → N → string + N * N;
}.

(** [remaining] attempts remain; the last failure is the one reported. *)
Fixpoint gelf_retry (so : Sockets) (attempt remaining : nat) (last_err : string) : string + option N :=
  match remaining with
  | O => inl last_err
  | S remaining =>
      match free_port so attempt with
      | inl e => inl e
      | inr p => match gelf_start so attempt p with
                 | inr port => inr (Some port)
                 | inl e => gelf_retry so (S attempt) remaining e
                 end
      end
  end.
Definition start_gelf (so : Sockets) (port : option N) : string + option N :=
  match port with
  | Some p => if p =? 0 then inr None else match gelf_start so 0 p with inl e => inl e | inr port => inr (Some port) end
  | None => gelf_retry so 0 5 "GELF port allocation failed"
  end.

(** Both arms at 0 turn OTLP off; one arm at 0 binds a port of the kernel's. *)
Definition start_otlp (so : Sockets) (ports : DomainPortSpec) : string + N * N :=
  if bool_decide (ps_otlp_grpc ports = Some 0) && bool_decide (ps_otlp_http ports = Some 0) then inr (0, 0)
  else otlp_start so (default 0 (ps_otlp_grpc ports)) (default 0 (ps_otlp_http ports)).

Definition spawn_ephemeral_domain (so : Sockets) (id : DomainId) (ports : DomainPortSpec) (log_buffer_size span_buffer_size : N)
  (source : DomainSource) : string + BoundDomain :=
  match start_gelf so (ps_gelf ports) with
  | inl e => inl e
  | inr gelf =>
      match start_otlp so ports with
      | inl e => inl e
      | inr (grpc, http) =>
          inr (new_with_metrics (mkDomainConfig id (default 0 gelf) grpc http log_buffer_size span_buffer_size source) 0 metrics_new)
      end
  end.

(** ** What is told of a domain *)

Record DomainInfo := mkDomainInfo {
  di_name : string;
  di_gelf_port : N;
  di_otlp_grpc_port : N;
  di_otlp_http_port : N;
  di_source : string;
  di_log_buffer_size : N;
  di_span_buffer_size : N;
  di_log_count : nat;
  di_span_count : nat;
  di_oldest_seq : option N;
  di_newest_seq : option N;
  di_last_log_received_at : option Z;
  di_last_span_received_at : option Z;
  di_idle_secs : option N;
  di_stale : bool;
  di_bound_sessions : list string;
}.

(** [Ord] on options: [None] first. *)
Definition opt_max (a b : option Z) : option Z :=
  match a, b with
  | Some x, Some y => Some (Z.max x y)
  | Some x, None => Some x
  | None, b => b
  end.

Definition domain_to_info (now : Z) (stale_after_secs : N) (d : BoundDomain) : DomainInfo :=
  let liv := liveness (bd_metrics d) in
  let last_log := opt_max (opt_max (gelf_udp liv) (gelf_tcp liv)) (opt_max (otlp_http_logs liv) (otlp_grpc_logs liv)) in
  let last_span := opt_max (otlp_http_traces liv) (otlp_grpc_traces liv) in
  let idle := (λ n, Z.to_N (Z.max 0 (i64_saturating_sub (nanos_of now) n) / 1000000000)) <$> opt_max last_log last_span in
  let c := bd_config d in
  mkDomainInfo (dc_name c) (dc_gelf_port c) (dc_otlp_grpc_port c) (dc_otlp_http_port c) (domain_source_str (dc_source c))
    (dc_log_buffer_size c) (dc_span_buffer_size c) (store_len (lp_store (bd_pipeline d))) (span_len (bd_spans d))
    (MemStore.oldest_seq (lp_store (bd_pipeline d))) (MemStore.newest_seq (lp_store (bd_pipeline d))) last_log last_span idle
    (match idle with Some i => stale_after_secs <=? i | None => false end) [].
Definition set_bound_sessions (l : list string) (i : DomainInfo) : DomainInfo :=
  mkDomainInfo (di_name i) (di_gelf_port i) (di_otlp_grpc_port i) (di_otlp_http_port i) (di_source i) (di_log_buffer_size i)
    (di_span_buffer_size i) (di_log_count i) (di_span_count i) (di_oldest_seq i) (di_newest_seq i) (di_last_log_received_at i)
    (di_last_span_received_at i) (di_idle_secs i) (di_stale i) l.

(** ** A domain from a case *)

(** Each stretch opens at its first seq and closes past its last. *)
Definition narrowing_of (front : FrontMatter) : list (N * FilterPolicy) :=
  sort_by_key fst
    (default [] (fm_narrowed_by front) ≫= λ n,
       [(na_from n, policy_new (na_filters n)); (sat_add (na_to n) 1, policy_new [])]).

Definition restored_registry (c : LoadedCase) : Registry :=
  let r := match ca_registry c with
           | Some block =>
               foldl (λ r f, registry_restore (rf_path f) (rf_value f) (rf_created_at f) (rf_validated_at f) (rf_ttl_secs f) r)
                 registry_new (rb_facts block)
           | None => registry_new
           end in
  match fm_incarnation (ca_front c) with
  | Some inc => (set_reserved "/logmon/incarnation" inc (fm_captured_at (ca_front c)) r).2
  | None => r
  end.

(** [None] is a failed assertion of one of the [from_records]. *)
Definition assemble_case_domain (id : DomainId) (c : LoadedCase) : option BoundDomain :=
  let front := ca_front c in
  let logs := default [] (ca_logs c) in
  let spans := default [] (ca_spans c) in
  let counter := new_with_initial (to_seq c) in
  pipeline ← Pipeline.from_records (Nat.max 1 (length logs)) counter (from_seq c - 1) (narrowing_of front) logs (from_seq c);
  span_store ← SpanStore.from_records (Nat.max 1 (length spans)) spans (from_seq c);
  let info := mkPostmortem (ca_stem c) (fm_captured_at front) (fm_verdict front) (bool_decide (ca_logs c = None))
                (bool_decide (ca_spans c = None)) (match ca_registry c with Some r => rb_dropped r | None => 0 end)
                (in_memory id (restored_registry c)) in
  let size (r : option FileRef) := match r with Some f => fr_records f | None => 0 end in
  Some (sealed_as info
          (from_parts (mkDomainConfig id 0 0 0 (size (fm_logdata front)) (size (fm_spandata front)) SourceEphemeral)
             pipeline span_store Bookmarks.new metrics_new)).
End domains.
