(* ===== verification/CaseLoad.v ===== *)
(** * CaseLoad: a case off the disk, validated
    ([cases/load.rs], [cases/bundle.rs], [cases/naming.rs])

    The zip crate gives an archive's entries, serde the records of their lines;
    both are arguments, and so are [read::parse_front_matter] and
    [read::parse_registry], which [CaseFront] models. A path is its
    directory and its last component. The texts of errors are not modelled. *)

From S2P Require Import Prelude Text F64 Gelf Filter Matcher Epoch MemStore DomainData Session Domains.

Set Default Proof Using "Type".
Local Open Scope N_scope.

(** ** Names *)

(** One [_] for each character outside the set, of however many bytes. *)
Fixpoint safe_name (s : string) : string :=
  match s with
  | EmptyString => EmptyString
  | String a s =>
      if is_continuation a then safe_name s
      else String (if is_ascii_alphanumeric a || Ascii.eqb a "-" || Ascii.eqb a "_" then a else "_"%char) (safe_name s)
  end.

Definition MAX_PREFIX_BYTES : nat := 48.
Definition LAST_RESORT_PREFIX : string := "case".
Definition usable_prefix (raw : string) : option string :=
  let s := String.substring 0 MAX_PREFIX_BYTES (safe_name raw) in
  if str_forall (λ a, negb (is_ascii_alphanumeric a)) s then None else Some s.
Definition resolve_prefix (param case_name : option string) (domain : string) : string :=
  let try_ (o : option string) (k : string) := match o ≫= usable_prefix with Some p => p | None => k end in
  try_ param (try_ case_name (try_ (Some domain) LAST_RESORT_PREFIX)).

Record CaseFiles := mkCaseFiles { cf_document : string; cf_logdata : string; cf_spandata : string }.
Definition file_names (stem : string) : CaseFiles :=
  mkCaseFiles (stem +:+ ".md") (stem +:+ ".logdata.jsonl") (stem +:+ ".spandata.jsonl").

Definition BUNDLE_SUFFIX : string := ".case.zip".
Definition registry_entry_name (stem : string) : string := stem +:+ ".registry.json".
Definition bundle_name (stem : string) : string := stem +:+ BUNDLE_SUFFIX.
Definition permitted (stem : string) : list string :=
  [cf_document (file_names stem); cf_logdata (file_names stem); cf_spandata (file_names stem); registry_entry_name stem].

(** [str::strip_suffix]. *)
Definition strip_suffix (suffix s : string) : option string := str_rev <$> strip_prefix (str_rev suffix) (str_rev s).
Definition stem_of_bundle (name : string) : option string := strip_suffix BUNDLE_SUFFIX name.

(** ** Bundles *)

Definition MAX_ENTRY_BYTES : N := 536870912.

Inductive BundleError :=
  | BundleIo
  | BundleZip
  | MissingEntry (name : string)
  | ForeignEntry (name : string).

(** An entry of an archive: its name, the size it declares and what reading it
    out gives (an error of the archive's, or its bytes). *)
Record ZipEntry := mkZipEntry { ze_name : string; ze_size : N; ze_read : option string }.

Record CaseBytes := mkCaseBytes {
  cb_stem : string;
  cb_document : string;
  cb_logdata : option string;
  cb_spandata : option string;
  cb_registry : option string;
}.

(** Every write succeeds but a name that is not the case's. *)
Fixpoint pack (stem : string) (entries : list (string * string)) : BundleError + list ZipEntry :=
  match entries with
  | [] => inr []
  | (name, data) :: entries =>
      if negb (bool_decide (name ∈ permitted stem)) then inl (ForeignEntry name)
      else match pack stem entries with
           | inl e => inl e
           | inr zs => inr (mkZipEntry name (N.of_nat (String.length data)) (Some data) :: zs)
           end
  end.

Fixpoint read_entries (allowed : list string) (zs : list ZipEntry) : BundleError + list (string * string) :=
  match zs with
  | [] => inr []
  | z :: zs =>
      if negb (bool_decide (ze_name z ∈ allowed)) then inl (ForeignEntry (ze_name z))
      else if MAX_ENTRY_BYTES <? ze_size z then inl BundleZip
      else match ze_read z with
           | None => inl BundleIo
           | Some data =>
               if MAX_ENTRY_BYTES <? N.of_nat (String.length data) then inl BundleZip
               else match read_entries allowed zs with
                    | inl e => inl e
                    | inr found => inr ((ze_name z, data) :: found)
                    end
           end
  end.

Definition take_entry (name : string) (found : list (string * string)) : option string :=
  snd <$> List.find (λ e, String.eqb e.1 name) found.

(** [None] is an archive the crate does not open. *)
Definition unpack (archive : option (list ZipEntry)) (stem : string) : BundleError + CaseBytes :=
  match archive with
  | None => inl BundleZip
  | Some zs =>
      match read_entries (permitted stem) zs with
      | inl e => inl e
      | inr found =>
          let files := file_names stem in
          match take_entry (cf_document files) found with
          | None => inl (MissingEntry (cf_document files))
          | Some document =>
              inr (mkCaseBytes stem document (take_entry (cf_logdata files) found) (take_entry (cf_spandata files) found)
                     (take_entry (registry_entry_name stem) found))
          end
      end
  end.

(** ** Text *)

(** [String::from_utf8]: the well-formed byte sequences of UTF-8. *)
Definition cont (a : ascii) : bool := in_range 128 191 a.
Fixpoint utf8_valid (s : string) : bool :=
  match s with
  | EmptyString => true
  | String a s1 =>
      if in_range 0 127 a then utf8_valid s1
      else match s1 with
      | EmptyString => false
      | String b s2 =>
          if in_range 194 223 a then cont b && utf8_valid s2
          else match s2 with
          | EmptyString => false
          | String c s3 =>
              if in_range 224 239 a then
                (if Ascii.eqb a (ascii_of_N 224) then in_range 160 191 b
                 else if Ascii.eqb a (ascii_of_N 237) then in_range 128 159 b
                 else cont b) && cont c && utf8_valid s3
              else match s3 with
              | EmptyString => false
              | String d s4 =>
                  in_range 240 244 a &&
                  (if Ascii.eqb a (ascii_of_N 240) then in_range 144 191 b
                   else if Ascii.eqb a (ascii_of_N 244) then in_range 128 143 b
                   else cont b) && cont c && cont d && utf8_valid s4
              end
          end
      end
  end.

(** [str::lines]: each ends with [\n] or [\r\n]; the last need not end. *)
Definition newline : ascii := ascii_of_N 10.
Definition strip_cr (s : string) : string := default s (strip_suffix (String (ascii_of_N 13) "") s).
Fixpoint ended_lines (pieces : list string) : list string :=
  match pieces with
  | [] => []
  | [p] => if String.eqb p "" then [] else [p]
  | p :: pieces => strip_cr p :: ended_lines pieces
  end.
Definition str_lines (s : string) : list string := ended_lines (str_split newline s).

(** ** Loading *)

Definition MAX_CASE_RECORDS : N := MAX_BUFFER_SIZE.
Definition CASE_FORMAT_VERSION : N := 1.

Inductive Evidence := LogData | SpanData.
Definition evidence_key (k : Evidence) : string := match k with LogData => "logdata" | SpanData => "spandata" end.

Inductive HeaderFault := NoHeader | HeaderUnreadable | HeaderNewer (version : N) | HeaderKind (kind : string).
Inductive RecordsFault :=
  | NotUtf8
  | BadRecord (line : nat)
  | InvertedWindow
  | OutsideWindow (seq : N)
  | NotAscending (seq prev : N).

Inductive LoadError {ParseError : Type} :=
  | NotAbsolute
  | LoadIo
  | LoadParse (e : ParseError)
  | LoadBundle (e : BundleError)
  | ForeignPointer (key : Evidence) (file : string)
  | DeclaredButMissing (file : string)
  | BadHeader (file : string) (f : HeaderFault)
  | BadRecords (f : RecordsFault)
  | CountMismatch (key : Evidence) (declared : N) (parsed : nat)
  | TooManyRecords (n : nat).
Arguments LoadError : clear implicits.

Definition and_then {E A B} (r : E + A) (f : A → E + B) : E + B := match r with inl e => inl e | inr a => f a end.
Declare Scope load_scope.
Notation "'let!' x := r 'in' k" := (and_then r (λ x, k)) (at level 10, x pattern, k at level 200) : load_scope.
Local Open Scope load_scope.

Section load.
Context {X : Externals} {ParseError : Type}.
Context (Header_from_json : string → option (N * string)) (LogEntry_from_json : string → option LogEntry)
  (SpanEntry_from_json : string → option SpanEntry).
Context (parse_front_matter : string → ParseError + FrontMatter)
  (parse_registry : option string → ParseError + option RegistryBlock).
Abbreviation err := (LoadError ParseError).

Definition check_pointer (key : Evidence) (declared : option string) (want : string) : err + unit :=
  match declared with
  | None => inr tt
  | Some f => if String.eqb f want then inr tt else inl (ForeignPointer key f)
  end.

Definition check_header (file header want_kind : string) : err + unit :=
  match Header_from_json header with
  | None => inl (BadHeader file HeaderUnreadable)
  | Some (version, kind) =>
      if CASE_FORMAT_VERSION <? version then inl (BadHeader file (HeaderNewer version))
      else if String.eqb kind want_kind then inr tt
      else inl (BadHeader file (HeaderKind kind))
  end.

(** The records of a file's lines, numbered from [n]; [parsed] of them so far. *)
Fixpoint read_records {T} (from_json : string → option T) (n parsed : nat) (lines : list string) : err + list T :=
  match lines with
  | [] => inr []
  | line :: lines =>
      if String.eqb (trim line) "" then read_records from_json (S n) parsed lines
      else if MAX_CASE_RECORDS <=? N.of_nat parsed then inl (TooManyRecords (S parsed))
      else match from_json line with
           | None => inl (BadRecords (BadRecord n))
           | Some r => let! rest := read_records from_json (S n) (S parsed) lines in inr (r :: rest)
           end
  end.

Definition evidence {T} (from_json : string → option T) (key : Evidence) (declared : option FileRef) (data : option string)
  : err + option (list T) :=
  match declared, data with
  | None, _ => inr None
  | Some d, None => inl (DeclaredButMissing (fr_file d))
  | Some d, Some raw =>
      if negb (utf8_valid raw) then inl (BadRecords NotUtf8)
      else match str_lines raw with
           | [] => inl (BadHeader (fr_file d) NoHeader)
           | header :: lines =>
               let! _ := check_header (fr_file d) header (evidence_key key) in
               let! out := read_records from_json 0 0 lines in
               if N.of_nat (length out) =? fr_records d then inr (Some out)
               else inl (CountMismatch key (fr_records d) (length out))
           end
  end.

Fixpoint check_seqs (from to : N) (prev : option N) (seqs : list N) : err + unit :=
  match seqs with
  | [] => inr tt
  | q :: seqs =>
      if (q <? from) || (to <? q) then inl (BadRecords (OutsideWindow q))
      else match prev with
           | Some p => if q <=? p then inl (BadRecords (NotAscending q p)) else check_seqs from to (Some q) seqs
           | None => check_seqs from to (Some q) seqs
           end
  end.
Definition validate_seqs (seqs : option (list N)) (front : FrontMatter) : err + unit :=
  match seqs with
  | None => inr tt
  | Some seqs =>
      let '(from, to) := (sr_from (fm_seq_range front), sr_to (fm_seq_range front)) in
      if to <? from then inl (BadRecords InvertedWindow) else check_seqs from to None seqs
  end.

Definition load_bytes (b : CaseBytes) : err + LoadedCase :=
  if negb (utf8_valid (cb_document b)) then inl (BadRecords NotUtf8)
  else
    let! front := match parse_front_matter (cb_document b) with inl e => inl (LoadParse e) | inr f => inr f end in
    let files := file_names (cb_stem b) in
    let! _ := check_pointer LogData (fr_file <$> fm_logdata front) (cf_logdata files) in
    let! _ := check_pointer SpanData (fr_file <$> fm_spandata front) (cf_spandata files) in
    let! logs := evidence LogEntry_from_json LogData (fm_logdata front) (cb_logdata b) in
    let! spans := evidence SpanEntry_from_json SpanData (fm_spandata front) (cb_spandata b) in
    let total := (length (default [] logs) + length (default [] spans))%nat in
    if MAX_CASE_RECORDS <? N.of_nat total then inl (TooManyRecords total)
    else
      let! _ := validate_seqs ((λ es : list LogEntry, seq <$> es) <$> logs) front in
      let! _ := validate_seqs ((λ ss : list SpanEntry, sp_seq <$> ss) <$> spans) front in
      let! registry := match parse_registry (cb_registry b) with inl e => inl (LoadParse e) | inr r => inr r end in
      inr (mkLoadedCase (cb_stem b) front logs spans registry).

(** ** The disk *)

Record CasePath := mkCasePath { cp_absolute : bool; cp_dir : string; cp_name : string }.
Inductive FileRead := FileMissing | FileIoError | FileBytes (data : string).

(** What follows the first dot. *)
Fixpoint after_dot (s : string) : option string :=
  match s with
  | EmptyString => None
  | String a s => if Ascii.eqb a "." then Some s else after_dot s
  end.
(** [Path::file_stem]: up to the last dot, unless that is the first character. *)
Definition file_stem (name : string) : option string :=
  if String.eqb name "" || String.eqb name ".." then None
  else Some match after_dot (str_rev name) with
            | Some before => if String.eqb before "" then name else str_rev before
            | None => name
            end.

Definition read_opt (fs : string → string → FileRead) (dir name : string) : err + option string :=
  match fs dir name with
  | FileBytes data => inr (Some data)
  | FileMissing => inr None
  | FileIoError => inl LoadIo
  end.
Definition read_loose (fs : string → string → FileRead) (p : CasePath) : err + CaseBytes :=
  match file_stem (cp_name p) with
  | None => inl NotAbsolute
  | Some stem =>
      let files := file_names stem in
      let! document := match fs (cp_dir p) (cp_name p) with FileBytes data => inr data | _ => inl LoadIo end in
      let! logdata := read_opt fs (cp_dir p) (cf_logdata files) in
      let! spandata := read_opt fs (cp_dir p) (cf_spandata files) in
      let! registry := read_opt fs (cp_dir p) (registry_entry_name stem) in
      inr (mkCaseBytes stem document logdata spandata registry)
  end.

(** [fs] reads a directory's file, [zip] opens an archive's bytes. *)
Definition load (fs : string → string → FileRead) (zip : string → option (list ZipEntry)) (p : CasePath) : err + LoadedCase :=
  if negb (cp_absolute p) then inl NotAbsolute
  else
    let! b := match stem_of_bundle (cp_name p) with
              | Some stem =>
                  match fs (cp_dir p) (cp_name p) with
                  | FileBytes data => match unpack (zip data) stem with inl e => inl (LoadBundle e) | inr b => inr b end
                  | _ => inl LoadIo
                  end
              | None => read_loose fs p
              end in
    load_bytes b.
End load.
