(* ===== verification/CaseFront.v ===== *)
(** * CaseFront: the front matter of a case document
    ([cases/read.rs], [cases/document.rs], [collector/document.rs])

    The reader scans the document as characters; every character it looks for is
    ASCII, so here it scans bytes. What is left of the text stands for the
    scanner's position, which never goes back. The offsets of errors and the
    words that describe what was found are not modelled, and the conversions of
    timestamps are arguments. The depth of the recursion is bounded by the text
    alone, here as in the code, where it takes stack. The rest of the document
    that [document::render] writes after the front matter is not modelled. *)

From S2P Require Import Prelude Text F64 Gelf Filter Matcher Epoch DomainData DataFile Session Domains CaseLoad.

Set Default Proof Using "Type".
Local Open Scope N_scope.
Local Open Scope load_scope.

(** ** Errors and values *)

(** [Starved] is no error of the code: it is what [value] answers when its fuel
    is spent, which it never is ([value_fed] of [CaseSpec]). *)
Inductive FrontError :=
  | NoFrontMatter
  | MalformedLine (line : nat) (text : string)
  | MissingKey (key : string)
  | WrongType (key : string)
  | BadEscape
  | UnterminatedString
  | BadFlow
  | BadTimestamp (key value : string)
  | BadVerdict (v : string)
  | FormatTooNew (found : N)
  | Starved.

Inductive FlowValue :=
  | VStr (s : string)
  | VBare (s : string)
  | VMap (m : gmap string FlowValue)
  | VSeq (items : list FlowValue).

Definition quote : ascii := ascii_of_N 34.
Definition backslash : ascii := ascii_of_N 92.
Definition tab : ascii := ascii_of_N 9.
Definition return_ : ascii := ascii_of_N 13.

(** ** Un-escaping *)

(** The escapes of one letter. *)
Definition escape_char (esc : ascii) : option string :=
  if Ascii.eqb esc backslash then Some (String backslash "")
  else if Ascii.eqb esc quote then Some (String quote "")
  else if Ascii.eqb esc "n" then Some (String newline "")
  else if Ascii.eqb esc "r" then Some (String return_ "")
  else if Ascii.eqb esc "t" then Some (String tab "")
  else if Ascii.eqb esc "N" then Some (bytes [194; 133])
  else if Ascii.eqb esc "L" then Some (bytes [226; 128; 168])
  else if Ascii.eqb esc "P" then Some (bytes [226; 128; 169])
  else None.

(** [char::from_u32] of two hex digits: always a character, of one byte or two. *)
Definition u32_max : N := 4294967295.
Definition char_of (n : N) : string := if n <? 128 then bytes [n] else bytes [192 + n / 64; 128 + n mod 64].

Fixpoint unescape (raw : string) : FrontError + string :=
  match raw with
  | EmptyString => inr EmptyString
  | String c it =>
      if negb (Ascii.eqb c backslash) then let! out := unescape it in inr (String c out)
      else match it with
           | EmptyString => inl BadEscape
           | String esc it =>
               match escape_char esc with
               | Some t => let! out := unescape it in inr (t +:+ out)
               | None =>
                   if Ascii.eqb esc "x" then
                     match it with
                     | String hi (String lo it) =>
                         match parse_hex u32_max (String hi (String lo EmptyString)) with
                         | Some n => let! out := unescape it in inr (char_of n +:+ out)
                         | None => inl BadEscape
                         end
                     | _ => inl BadEscape
                     end
                   else inl BadEscape
               end
           end
  end.

(** ** The scanner *)

Fixpoint skip_ws (s : string) : string :=
  match s with
  | String c rest => if Ascii.eqb c " " || Ascii.eqb c tab then skip_ws rest else s
  | EmptyString => EmptyString
  end.

(** From behind the opening quote: the text up to the closing one, escapes as
    they stand, and what follows it. *)
Fixpoint scan_quoted (s : string) : option (string * string) :=
  match s with
  | EmptyString => None
  | String c s =>
      if Ascii.eqb c quote then Some (EmptyString, s)
      else if Ascii.eqb c backslash then
        match s with
        | EmptyString => None
        | String e s => (λ p, (String c (String e p.1), p.2)) <$> scan_quoted s
        end
      else (λ p, (String c p.1, p.2)) <$> scan_quoted s
  end.
Definition quoted (s : string) : FrontError + (string * string) :=
  match scan_quoted s with
  | None => inl UnterminatedString
  | Some (raw, rest) => let! out := unescape raw in inr (out, rest)
  end.

Fixpoint take_until (stop : ascii → bool) (s : string) : string * string :=
  match s with
  | EmptyString => (EmptyString, EmptyString)
  | String c rest => if stop c then (EmptyString, s) else let '(w, r) := take_until stop rest in (String c w, r)
  end.
Definition ends_bare (c : ascii) : bool := Ascii.eqb c "," || Ascii.eqb c "}" || Ascii.eqb c "]".
Definition bare (s : string) : string * string := let '(w, rest) := take_until ends_bare s in (trim w, rest).

Definition ends_key (c : ascii) : bool := Ascii.eqb c ":" || Ascii.eqb c "," || Ascii.eqb c "}".
Definition map_key (s : string) : FrontError + (string * string) :=
  match s with
  | String c rest =>
      if Ascii.eqb c quote then quoted rest else let '(w, r) := take_until ends_key s in inr (trim w, r)
  | EmptyString => inr (EmptyString, EmptyString)
  end.

Fixpoint value (fuel : nat) (s : string) : FrontError + (FlowValue * string) :=
  match fuel with
  | O => inl Starved
  | S fuel =>
      match skip_ws s with
      | EmptyString => inr (VBare EmptyString, EmptyString)
      | String c rest =>
          if Ascii.eqb c quote then let! out := quoted rest in inr (VStr out.1, out.2)
          else if Ascii.eqb c "{" then flow_map fuel ∅ rest
          else if Ascii.eqb c "[" then flow_seq fuel [] rest
          else let '(w, rest) := bare (String c rest) in inr (VBare w, rest)
      end
  end
with flow_map (fuel : nat) (m : gmap string FlowValue) (s : string) : FrontError + (FlowValue * string) :=
  match fuel with
  | O => inl Starved
  | S fuel =>
      match skip_ws s with
      | EmptyString => inl BadFlow
      | String c rest =>
          if Ascii.eqb c "}" then inr (VMap m, rest)
          else if Ascii.eqb c "," then flow_map fuel m rest
          else
            let! key := map_key (String c rest) in
            match skip_ws key.2 with
            | String d rest =>
                if Ascii.eqb d ":" then let! v := value fuel rest in flow_map fuel (<[key.1 := v.1]> m) v.2
                else inl BadFlow
            | EmptyString => inl BadFlow
            end
      end
  end
with flow_seq (fuel : nat) (items : list FlowValue) (s : string) : FrontError + (FlowValue * string) :=
  match fuel with
  | O => inl Starved
  | S fuel =>
      match skip_ws s with
      | EmptyString => inl BadFlow
      | String c rest =>
          if Ascii.eqb c "]" then inr (VSeq items, rest)
          else if Ascii.eqb c "," then flow_seq fuel items rest
          else
            let! v := value fuel (String c rest) in
            if Nat.eqb (String.length v.2) (String.length (String c rest)) then inl BadFlow
            else flow_seq fuel (items ++ [v.1]) v.2
      end
  end.

(** Enough for any text: [value_fed] of [CaseSpec]. *)
Definition value_fuel (s : string) : nat := S (2 * String.length s).

(** ** Fields *)

Fixpoint collect {E A B} (f : A → E + B) (l : list A) : E + list B :=
  match l with
  | [] => inr []
  | a :: l => let! b := f a in let! bs := collect f l in inr (b :: bs)
  end.

Section fields.
Context (parse_rfc3339 : string → option Z).
Abbreviation ValueMap := (gmap string FlowValue).

Definition take_key (top : ValueMap) (key : string) : FrontError + FlowValue :=
  match top !! key with Some v => inr v | None => inl (MissingKey key) end.
Definition as_text (v : FlowValue) (key : string) : FrontError + string :=
  match v with VStr s | VBare s => inr s | _ => inl (WrongType key) end.
Definition as_u64 (v : FlowValue) (key : string) : FrontError + N :=
  let! t := as_text v key in match parse_u64 t with Some n => inr n | None => inl (WrongType key) end.
Definition as_bool (v : FlowValue) (key : string) : FrontError + bool :=
  let! t := as_text v key in
  if String.eqb t "true" then inr true else if String.eqb t "false" then inr false else inl (WrongType key).
Definition as_map (v : FlowValue) (key : string) : FrontError + ValueMap :=
  match v with VMap m => inr m | _ => inl (WrongType key) end.
Definition as_seq (v : FlowValue) (key : string) : FrontError + list FlowValue :=
  match v with VSeq items => inr items | _ => inl (WrongType key) end.
Definition as_time (v : FlowValue) (key : string) : FrontError + Z :=
  let! t := as_text v key in match parse_rfc3339 t with Some d => inr d | None => inl (BadTimestamp key t) end.
Definition sub_key (m : ValueMap) (outer inner : string) : FrontError + FlowValue :=
  match m !! inner with Some v => inr v | None => inl (WrongType outer) end.

(** ** The document *)

(** [str::find], to the text in front of the match. *)
Fixpoint before_match (pat s : string) : option string :=
  if starts_with pat s then Some EmptyString
  else match s with EmptyString => None | String a s => String a <$> before_match pat s end.

Definition fence_open : string := "---" +:+ String newline "".
Definition fence_close : string := String newline "---".
Definition fenced (doc : string) : FrontError + string :=
  match strip_prefix fence_open doc with
  | None => inl NoFrontMatter
  | Some body => match before_match fence_close body with None => inl NoFrontMatter | Some block => inr block end
  end.

(** The loop over the block's lines, numbered from [n]. A later line of the same
    key replaces the earlier one's value. *)
Fixpoint read_lines (n : nat) (top : ValueMap) (lines : list string) : FrontError + ValueMap :=
  match lines with
  | [] => inr top
  | line :: lines =>
      let trimmed := trim line in
      if String.eqb trimmed "" then read_lines (S n) top lines
      else match split_once ":" trimmed with
           | None => inl (MalformedLine (S n) trimmed)
           | Some (key, rest) =>
               let! v := value (value_fuel rest) rest in
               read_lines (S n) (<[trim key := v.1]> top) lines
           end
  end.

Definition read_anchor (top : ValueMap) : FrontError + AnchorRef :=
  let! v := take_key top "anchor" in
  let! m := as_map v "anchor" in
  let! kind := (let! v := sub_key m "anchor" "kind" in as_text v "anchor") in
  let! val := (let! v := sub_key m "anchor" "value" in as_text v "anchor") in
  let! seq := (let! v := sub_key m "anchor" "seq" in as_u64 v "anchor") in
  let! at_ := (let! v := sub_key m "anchor" "at" in as_time v "anchor") in
  inr (mkAnchorRef kind val seq at_).

Definition read_seq_range (top : ValueMap) : FrontError + SeqRange :=
  let! v := take_key top "seq_range" in
  let! sr := as_map v "seq_range" in
  let number inner := let! v := sub_key sr "seq_range" inner in as_u64 v "seq_range" in
  let! from := number "from"%string in
  let! to := number "to"%string in
  let! before := number "requested_before_missing"%string in
  let! after := number "requested_after_missing"%string in
  let! clamped := (let! v := sub_key sr "seq_range" "clamped" in as_bool v "seq_range") in
  inr (mkSeqRange from to before after clamped).

Definition read_by_source (m : ValueMap) (key : string) : FrontError + option SourceCounts :=
  match m !! "by_source"%string with
  | None => inr None
  | Some v =>
      let! c := as_map v key in
      let number inner := let! v := sub_key c key inner in as_u64 v key in
      let! filter := number "filter"%string in
      let! pre := number "pre_trigger"%string in
      let! post := number "post_trigger"%string in
      inr (Some (mkSourceCounts filter pre post))
  end.

(** An absent key is evidence that the capture omitted. *)
Definition file_ref (top : ValueMap) (key : string) : FrontError + option FileRef :=
  match top !! key with
  | None => inr None
  | Some v =>
      let! m := as_map v key in
      let! by_source := read_by_source m key in
      let! file := (let! v := sub_key m key "file" in as_text v key) in
      let! records := (let! v := sub_key m key "records" in as_u64 v key) in
      inr (Some (mkFileRef file records by_source))
  end.

Definition read_narrowed_span (it : FlowValue) : FrontError + NarrowedSpan :=
  let! m := as_map it "narrowed_by" in
  let! fs := (let! v := sub_key m "narrowed_by" "filters" in as_seq v "narrowed_by") in
  let! filters := collect (λ f, as_text f "narrowed_by") fs in
  let! from := (let! v := sub_key m "narrowed_by" "from" in as_u64 v "narrowed_by") in
  let! to := (let! v := sub_key m "narrowed_by" "to" in as_u64 v "narrowed_by") in
  inr (mkNarrowed from to filters).
Definition read_narrowed_by (top : ValueMap) : FrontError + option (list NarrowedSpan) :=
  match top !! "narrowed_by"%string with
  | None => inr None
  | Some v =>
      let! items := as_seq v "narrowed_by" in
      let! spans := collect read_narrowed_span items in
      inr (Some spans)
  end.

Definition read_provenance (top : ValueMap) : FrontError + Provenance :=
  let! v := take_key top "provenance" in
  let! m := as_map v "provenance" in
  let! core := (let! v := sub_key m "provenance" "core" in as_text v "provenance") in
  let! items := (let! v := sub_key m "provenance" "missing" in as_seq v "provenance") in
  let! missing := collect (λ v, as_text v "provenance") items in
  inr (mkProvenance core missing).

Definition read_asserted (top : ValueMap) : FrontError + gmap string string :=
  match top !! "asserted"%string with
  | None => inr ∅
  | Some v =>
      let! m := as_map v "asserted" in
      let! kvs := collect (λ kv, let! s := as_text kv.2 "asserted" in inr (kv.1, s)) (map_to_list m) in
      inr (list_to_map kvs)
  end.

Definition read_incarnation (top : ValueMap) : FrontError + option string :=
  let! v := take_key top "incarnation" in
  let! s := as_text v "incarnation" in
  inr (if String.eqb s "null" then None else Some s).

Definition verdict_of (s : string) : option EvidenceVerdict :=
  if String.eqb s "complete" then Some Complete
  else if String.eqb s "evicted" then Some Evicted
  else if String.eqb s "filtered" then Some Filtered
  else if String.eqb s "cannot_verify" then Some CannotVerify
  else None.
Definition read_verdict (top : ValueMap) : FrontError + EvidenceVerdict :=
  let! v := take_key top "verdict" in
  let! s := as_text v "verdict" in
  match verdict_of s with Some v => inr v | None => inl (BadVerdict s) end.

(** What the fields say, the version first. *)
Definition read_fields (top : ValueMap) : FrontError + FrontMatter :=
  let text key := let! v := take_key top key in as_text v key in
  let! declared := (let! v := take_key top "logmon_format" in as_u64 v "logmon_format") in
  let logmon_format := N.min declared u32_max in
  if CASE_FORMAT_VERSION <? logmon_format then inl (FormatTooNew logmon_format)
  else
    let! anchor := read_anchor top in
    let! seq_range := read_seq_range top in
    let! narrowed_by := read_narrowed_by top in
    let! provenance := read_provenance top in
    let! asserted := read_asserted top in
    let! incarnation := read_incarnation top in
    let! verdict := read_verdict top in
    let! case := text "case"%string in
    let! captured_at := (let! v := take_key top "captured_at" in as_time v "captured_at") in
    let! domain := text "domain"%string in
    let! reason := text "reason"%string in
    let! headline := text "headline"%string in
    let! logdata := file_ref top "logdata" in
    let! spandata := file_ref top "spandata" in
    inr (mkFront case logmon_format captured_at domain incarnation reason anchor headline verdict seq_range logdata spandata
           narrowed_by provenance asserted).

Definition parse_front_matter (doc : string) : FrontError + FrontMatter :=
  let! block := fenced doc in
  let! top := read_lines 0 ∅ (str_lines block) in
  read_fields top.

(** ** The registry's file *)

Definition MAX_REGISTRY_FACTS : nat := MAX_KEYS.
Definition parse_registry (from_json : string → option RegistryBlock) (bytes : option string) : FrontError + option RegistryBlock :=
  match bytes with
  | None => inr None
  | Some data =>
      match from_json data with
      | None => inl BadFlow
      | Some block =>
          if (MAX_REGISTRY_FACTS <? length (rb_facts block))%nat then inl BadFlow
          else if existsb (λ f, (MAX_VALUE_BYTES <? String.length (rf_value f))%nat) (rb_facts block) then inl BadFlow
          else if CASE_FORMAT_VERSION <? rb_logmon_format block then inl (FormatTooNew (rb_logmon_format block))
          else inr (Some block)
      end
  end.
End fields.

(** ** The writer's input ([cases/document.rs]) *)

Record CaseAnchor := mkCaseAnchor {
  an_kind : string;
  an_label : string;
  an_seq : N;
  an_at : Z;
  an_message : string;
  an_of_many : option N;
}.
Record CaseWindow := mkCaseWindow {
  wi_from : N;
  wi_to : N;
  wi_verdict : EvidenceVerdict;
  wi_narrowed_by : list Epoch.NarrowedSpan;
  wi_clamped : bool;
  wi_short_before : N;
  wi_short_after : N;
  wi_log_lost_below : N;
  wi_logs_evicted_before_window : option N;
  wi_spans_evicted_before_window : option N;
  wi_span_lost_below : N;
}.
Record FilePointer := mkFilePointer { fp_file : string; fp_records : N; fp_by_source : option SourceCounts }.
Record CollectorLine := mkCollectorLine {
  cl_name : string;
  cl_owner : string;
  cl_matched : N;
  cl_snapshots : nat;
  cl_latest_snapshot : option (string * Z);
  cl_zeroed_by : option string;
}.
Record CaseInput {X : Externals} := mkCaseInput {
  ci_stem : string;
  ci_captured_at : Z;
  ci_domain : string;
  ci_incarnation : option string;
  ci_reason : string;
  ci_anchor : CaseAnchor;
  ci_window : CaseWindow;
  ci_logdata : option FilePointer;
  ci_spandata : option FilePointer;
  ci_registry : list RegistryFact;
  ci_asserted : list ScopedFact;
  ci_neighbours : list LogEntry;
  ci_spans : list SpanEntry;
  ci_collectors : list CollectorLine;
}.
#[global] Arguments mkCaseInput {X}.

(** ** [SourceCounts::of] *)

Definition count_source (c : SourceCounts) (s : LogSource) : SourceCounts :=
  match s with
  | FilterSource => mkSourceCounts (sc_filter c + 1) (sc_pre_trigger c) (sc_post_trigger c)
  | PreTrigger => mkSourceCounts (sc_filter c) (sc_pre_trigger c + 1) (sc_post_trigger c)
  | PostTrigger => mkSourceCounts (sc_filter c) (sc_pre_trigger c) (sc_post_trigger c + 1)
  end.
Definition source_counts {X : Externals} (es : list LogEntry) : SourceCounts :=
  foldl (λ c e, count_source c (source e)) (mkSourceCounts 0 0 0) es.

Definition core_coverage (registry : list RegistryFact) : nat * list string :=
  let missing := List.filter (λ k, negb (existsb (λ f, String.eqb (rf_path f) k) registry)) CORE_KEYS in
  ((length CORE_KEYS - length missing)%nat, missing).

(** ** [yaml_str] *)

Definition hex_char (d : N) : ascii := ascii_of_N (if d <? 10 then 48 + d else 87 + d).
(** An escape of one letter, and the two hex digits of a control character. *)
Definition letter (esc : ascii) : string := String backslash (String esc "").
Definition hex_escape (c : ascii) : string :=
  letter "x" +:+ String (hex_char (N_of_ascii c / 16)) (String (hex_char (N_of_ascii c mod 16)) "").
(** What one byte is written as, the lead bytes of the three line breaks apart. *)
Definition escape_ascii (c : ascii) : string :=
  if Ascii.eqb c backslash then letter backslash
  else if Ascii.eqb c quote then letter quote
  else if Ascii.eqb c newline then letter "n"
  else if Ascii.eqb c return_ then letter "r"
  else if Ascii.eqb c tab then letter "t"
  else if (N_of_ascii c <? 32) || (N_of_ascii c =? 127) then hex_escape c
  else String c "".
Definition lead_C2 : ascii := ascii_of_N 194.
Definition lead_E2 : ascii := ascii_of_N 226.
Definition byte_80 : ascii := ascii_of_N 128.
Definition byte_85 : ascii := ascii_of_N 133.
Definition byte_A8 : ascii := ascii_of_N 168.
Definition byte_A9 : ascii := ascii_of_N 169.
Fixpoint yaml_body (s : string) : string :=
  match s with
  | EmptyString => EmptyString
  | String c s1 =>
      if Ascii.eqb c lead_C2 then
        match s1 with
        | String d s2 => if Ascii.eqb d byte_85 then letter "N" +:+ yaml_body s2 else String c (yaml_body s1)
        | EmptyString => String c EmptyString
        end
      else if Ascii.eqb c lead_E2 then
        match s1 with
        | String d (String e s3) =>
            if Ascii.eqb d byte_80 && Ascii.eqb e byte_A8 then letter "L" +:+ yaml_body s3
            else if Ascii.eqb d byte_80 && Ascii.eqb e byte_A9 then letter "P" +:+ yaml_body s3
            else String c (yaml_body s1)
        | _ => String c (yaml_body s1)
        end
      else escape_ascii c +:+ yaml_body s1
  end.
Definition yaml_str (s : string) : string := String quote (yaml_body s +:+ String quote "").

(** ** [front_matter] *)

(** [join], and what [format!] puts around it. *)
Definition comma_join (items : list string) : string := String.concat ", " items.
Definition flow_seq_text (items : list string) : string := String "[" (comma_join items +:+ "]").
Definition flow_entry (kv : string * string) : string := kv.1 +:+ ": " +:+ kv.2.
Definition flow_map_text (kvs : list (string * string)) : string := String "{" (comma_join (flow_entry <$> kvs) +:+ "}").

Definition bool_str (b : bool) : string := if b then "true" else "false".
Definition verdict_str (v : EvidenceVerdict) : string :=
  match v with Complete => "complete" | Evicted => "evicted" | Filtered => "filtered" | CannotVerify => "cannot_verify" end.

Definition by_source_text (c : SourceCounts) : string :=
  flow_map_text [("filter", pretty (sc_filter c)); ("pre_trigger", pretty (sc_pre_trigger c)); ("post_trigger", pretty (sc_post_trigger c))]%string.
Definition file_pointer (p : FilePointer) : string :=
  flow_map_text ([("file", yaml_str (fp_file p)); ("records", pretty (fp_records p))]%string ++
                 match fp_by_source p with Some c => [("by_source"%string, by_source_text c)] | None => [] end).
Definition narrowed_text (n : Epoch.NarrowedSpan) : string :=
  flow_map_text [("from", pretty (Epoch.from_seq n)); ("to", pretty (Epoch.to_seq n));
                 ("filters", flow_seq_text (yaml_str <$> ns_filters n))]%string.

Section writer.
Context {X : Externals} (to_rfc3339 : Z → string).

Definition anchor_text (a : CaseAnchor) : string :=
  flow_map_text [("kind", an_kind a); ("value", yaml_str (an_label a)); ("seq", pretty (an_seq a)); ("at", yaml_str (to_rfc3339 (an_at a)))]%string.
Definition seq_range_text (w : CaseWindow) : string :=
  flow_map_text [("from", pretty (wi_from w)); ("to", pretty (wi_to w)); ("requested_before_missing", pretty (wi_short_before w));
                 ("requested_after_missing", pretty (wi_short_after w)); ("clamped", bool_str (wi_clamped w))]%string.
Definition provenance_text (registry : list RegistryFact) : string :=
  let '(core, missing) := core_coverage registry in
  flow_map_text [("core", String quote (pretty core +:+ " of " +:+ pretty (length CORE_KEYS) +:+ String quote ""));
                 ("missing", flow_seq_text (yaml_str <$> missing))]%string.

(** The keys and what stands behind each, in the order of the document. *)
Definition front_entries (i : CaseInput) : list (string * string) :=
  [("case", ci_stem i);
   ("logmon_format", pretty CASE_FORMAT_VERSION);
   ("captured_at", yaml_str (to_rfc3339 (ci_captured_at i)));
   ("domain", yaml_str (ci_domain i));
   ("incarnation", match ci_incarnation i with Some v => yaml_str v | None => "null" end);
   ("reason", yaml_str (ci_reason i));
   ("anchor", anchor_text (ci_anchor i));
   ("headline", yaml_str (an_message (ci_anchor i)));
   ("verdict", verdict_str (wi_verdict (ci_window i)));
   ("seq_range", seq_range_text (ci_window i))]%string ++
  match ci_logdata i with Some p => [("logdata"%string, file_pointer p)] | None => [] end ++
  match ci_spandata i with Some p => [("spandata"%string, file_pointer p)] | None => [] end ++
  [("narrowed_by", flow_seq_text (narrowed_text <$> wi_narrowed_by (ci_window i)));
   ("provenance", provenance_text (ci_registry i));
   ("asserted", flow_map_text ((λ f, (yaml_str (sf_key f), yaml_str (sf_value f))) <$> ci_asserted i))]%string.

Definition line_of (kv : string * string) : string := flow_entry kv +:+ String newline "".
Definition front_matter (i : CaseInput) : string :=
  "---" +:+ String newline "" +:+ String.concat "" (line_of <$> front_entries i) +:+ "---" +:+ String newline (String newline "").
End writer.
