(* ===== verification/CaseSpec.v ===== *)
(** * CaseSpec: what a loaded case can be trusted for

    Whatever [load] accepts becomes a domain without a panic, holding exactly
    the case's records over exactly its window; a bundle gives back what was
    packed, and nothing under another name; the front matter that a capture
    writes is read back as it was, and no text keeps its reader going. *)

From S2P Require Import Prelude Text F64 Gelf Filter Matcher Samples SeqCounter Epoch Bookmarks MemStore Pipeline SpanStore DomainData DataFile DataSpec Session Metrics Domains CaseLoad CaseFront.

Set Default Proof Using "Type".
Local Open Scope N_scope.
Local Open Scope load_scope.

(** ** Records in their window *)

Definition in_window (from to : N) (seqs : list N) : Prop := ∀ q, q ∈ seqs → from ≤ q ∧ q ≤ to.

Section spec.
Context {X : Externals} {ParseError : Type}.

Lemma check_seqs_ok from to seqs : ∀ prev,
  check_seqs (ParseError := ParseError) from to prev seqs = inr tt →
  in_window from to seqs ∧ ascending (λ q, q) seqs ∧ (∀ p q, prev = Some p → q ∈ seqs → p < q).
Proof.
  induction seqs as [|q seqs IH]; simpl; intros prev.
  - intros _. split_and!; [by intros ? ?%elem_of_nil|apply ascending_nil|by intros ??? ?%elem_of_nil].
  - destruct (N.ltb_spec q from), (N.ltb_spec to q); simpl; try done.
    assert (check_seqs (ParseError := ParseError) from to (Some q) seqs = inr tt →
            in_window from to (q :: seqs) ∧ ascending (λ q, q) (q :: seqs)) as Hnext.
    { intros (Hw & Ha & Hp)%IH. split.
      - intros x [->|Hx]%elem_of_cons; [done|by apply Hw].
      - apply ascending_cons. split; [|done]. intros y Hy. by apply (Hp q). }
    destruct prev as [p|].
    + destruct (N.leb_spec q p); [done|]. intros E. destruct (Hnext E) as [Hw Ha]. split_and!; [done|done|].
      intros ? y [= <-] [->|Hy]%elem_of_cons; [done|]. apply ascending_cons in Ha as [Ha _]. specialize (Ha y Hy). lia.
    + intros E. destruct (Hnext E) as [Hw Ha]. split_and!; [done|done|by intros].
Qed.

Lemma logs_windows es : ascending (λ q, q) (seq <$> es) → MemStore.windows_ascending es = true.
Proof.
  induction es as [|e es IH]; [done|]. rewrite fmap_cons. intros [Hlt Ha]%ascending_cons. simpl. destruct es as [|e' es]; [done|].
  rewrite (IH Ha), (proj2 (N.ltb_lt _ _)) by (apply Hlt; by left). done.
Qed.
Lemma spans_windows ss : ascending (λ q, q) (sp_seq <$> ss) → SpanStore.windows_ascending ss = true.
Proof.
  induction ss as [|e es IH]; [done|]. rewrite fmap_cons. intros [Hlt Ha]%ascending_cons. simpl. destruct es as [|e' es]; [done|].
  rewrite (IH Ha), (proj2 (N.ltb_lt _ _)) by (apply Hlt; by left). done.
Qed.

Definition seqs_ok (c : LoadedCase) (seqs : list N) : Prop :=
  in_window (from_seq c) (to_seq c) seqs ∧ ascending (λ q, q) seqs.

Lemma validated front seqs : validate_seqs (ParseError := ParseError) seqs front = inr tt →
  let l := default [] seqs in in_window (sr_from (fm_seq_range front)) (sr_to (fm_seq_range front)) l ∧ ascending (λ q, q) l.
Proof.
  destruct seqs as [seqs|]; simpl; [|intros _; split; [by intros ? ?%elem_of_nil|apply ascending_nil]].
  destruct (_ <? _); [done|]. intros (Hw & Ha & _)%check_seqs_ok. done.
Qed.

(** ** What [load_bytes] accepts *)

Context (Header_from_json : string → option (N * string)) (LogEntry_from_json : string → option LogEntry)
  (SpanEntry_from_json : string → option SpanEntry).
Context (parse_front_matter : string → ParseError + FrontMatter)
  (parse_registry : option string → ParseError + option RegistryBlock).
Abbreviation load_bytes := (load_bytes Header_from_json LogEntry_from_json SpanEntry_from_json parse_front_matter parse_registry).

Lemma and_then_inr {E A B} (r : E + A) (f : A → E + B) b : and_then r f = inr b → ∃ a, r = inr a ∧ f a = inr b.
Proof. destruct r as [|a]; [done|]. simpl. eauto. Qed.

Record accepted (b : CaseBytes) (c : LoadedCase) : Prop := {
  ac_stem : ca_stem c = cb_stem b;
  ac_logs : seqs_ok c (seq <$> default [] (ca_logs c));
  ac_spans : seqs_ok c (sp_seq <$> default [] (ca_spans c));
  ac_total : N.of_nat (length (default [] (ca_logs c)) + length (default [] (ca_spans c))) ≤ MAX_CASE_RECORDS;
  ac_declared : (is_Some (ca_logs c) ↔ is_Some (fm_logdata (ca_front c))) ∧ (is_Some (ca_spans c) ↔ is_Some (fm_spandata (ca_front c)));
  ac_counts : (∀ r, fm_logdata (ca_front c) = Some r → fr_records r = N.of_nat (length (default [] (ca_logs c)))) ∧
              (∀ r, fm_spandata (ca_front c) = Some r → fr_records r = N.of_nat (length (default [] (ca_spans c))));
}.

Lemma evidence_ok {T} (from_json : string → option T) key declared data out :
  evidence (ParseError := ParseError) Header_from_json from_json key declared data = inr out →
  (is_Some out ↔ is_Some declared) ∧ (∀ r, declared = Some r → fr_records r = N.of_nat (length (default [] out))).
Proof.
  unfold evidence. destruct declared as [d|]; [|intros [= <-]; done]. destruct data as [raw|]; [|done].
  destruct (negb _); [done|]. destruct (str_lines raw) as [|header lines]; [done|].
  intros (u & _ & (recs & _ & H)%and_then_inr)%and_then_inr. destruct (N.eqb_spec (N.of_nat (length recs)) (fr_records d)); [|done].
  injection H as <-. split; [split; by eauto|]. intros ? [= <-]. done.
Qed.

Lemma load_bytes_accepted b c : load_bytes b = inr c → accepted b c.
Proof.
  unfold CaseLoad.load_bytes. destruct (negb _); [done|].
  intros (front & _ & (u1 & _ & (u2 & _ & (logs & Hl & (spans & Hs & H)%and_then_inr)%and_then_inr)%and_then_inr)%and_then_inr)%and_then_inr.
  destruct (N.ltb_spec MAX_CASE_RECORDS (N.of_nat (length (default [] logs) + length (default [] spans)))) as [|Ht]; [done|].
  apply and_then_inr in H as ([] & Hvl & ([] & Hvs & (reg & _ & [= <-])%and_then_inr)%and_then_inr).
  apply evidence_ok in Hl as [Hl1 Hl2], Hs as [Hs1 Hs2]. apply validated in Hvl, Hvs.
  constructor; try done.
  - by destruct logs.
  - by destruct spans.
Qed.

(** ** The domain of a case *)

(** Exactly the case's records, over exactly its window, and sealed. *)
Record holds_case (id : DomainId) (c : LoadedCase) (d : BoundDomain) : Prop := {
  hc_name : bd_name d = id;
  hc_logs : entries (inner (lp_store (bd_pipeline d))) = default [] (ca_logs c);
  hc_spans : ss_buffer (ss_inner (bd_spans d)) = default [] (ca_spans c);
  hc_room : (length (default [] (ca_logs c)) ≤ max_capacity (lp_store (bd_pipeline d)))%nat ∧
            (length (default [] (ca_spans c)) ≤ ss_capacity (ss_inner (bd_spans d)))%nat;
  hc_floor : Pipeline.lost_below (bd_pipeline d) = from_seq c ∧ ss_lost_below (bd_spans d) = from_seq c;
  hc_counter : current_seq (bd_pipeline d) = to_seq c;
  hc_sealed : ∃ pm, bd_postmortem d = Some pm ∧ pm_case pm = ca_stem c ∧ pm_captured_at pm = fm_captured_at (ca_front c) ∧
                (pm_logs_omitted pm = true ↔ fm_logdata (ca_front c) = None) ∧
                (pm_spans_omitted pm = true ↔ fm_spandata (ca_front c) = None);
}.

Lemma assembled id b c : accepted b c → ∃ d, assemble_case_domain id c = Some d ∧ holds_case id c d.
Proof.
  intros [_ [_ Hl] [_ Hs] _ [Dl Ds] _]. unfold assemble_case_domain, Pipeline.from_records, MemStore.from_records, SpanStore.from_records.
  rewrite (logs_windows _ Hl), (spans_windows _ Hs). cbn [fmap option_fmap option_map mbind option_bind]. eexists. split; [reflexivity|].
  constructor; try done; try (simpl; lia).
  eexists. split_and!; try done; simpl; rewrite bool_decide_eq_true; split; intros E.
  - apply eq_None_not_Some. intros H. apply Dl in H as [? H]. congruence.
  - apply eq_None_not_Some. intros H. apply Dl in H as [? H]. congruence.
  - apply eq_None_not_Some. intros H. apply Ds in H as [? H]. congruence.
  - apply eq_None_not_Some. intros H. apply Ds in H as [? H]. congruence.
Qed.
End spec.

(** C17: Whatever [load] accepts, from a bundle or from loose files, opens: the
    assertions of the two rings hold, so no file panics the daemon, and the
    domain holds exactly the case's records, all in the declared window and
    ascending, under the declared counts, and is sealed. *)
Theorem loaded_case_opens {X : Externals} {ParseError : Type} header log_json span_json
  (front : string → ParseError + FrontMatter) registry fs zip p id c :
  load header log_json span_json front registry fs zip p = inr c →
  seqs_ok c (seq <$> default [] (ca_logs c)) ∧ seqs_ok c (sp_seq <$> default [] (ca_spans c)) ∧
  N.of_nat (length (default [] (ca_logs c)) + length (default [] (ca_spans c))) ≤ MAX_CASE_RECORDS ∧
  ∃ d, assemble_case_domain id c = Some d ∧ holds_case id c d.
Proof.
  unfold load. destruct (negb _); [done|]. intros (b & _ & H)%and_then_inr. apply load_bytes_accepted in H as H.
  split_and!; [apply (ac_logs _ _ H)|apply (ac_spans _ _ H)|apply (ac_total _ _ H)|]. by eapply assembled.
Qed.

(** ** Bundles *)

(** What of a bundle's content is under a name. *)
Definition entry_of (b : CaseBytes) (name : string) : option string :=
  let files := file_names (cb_stem b) in
  if String.eqb name (cf_document files) then Some (cb_document b)
  else if String.eqb name (cf_logdata files) then cb_logdata b
  else if String.eqb name (cf_spandata files) then cb_spandata b
  else if String.eqb name (registry_entry_name (cb_stem b)) then cb_registry b
  else None.

Lemma pack_ok stem entries : ∀ zs,
  pack stem entries = inr zs → (∀ e, e ∈ entries → N.of_nat (String.length e.2) ≤ MAX_ENTRY_BYTES) →
  read_entries (permitted stem) zs = inr entries ∧ (∀ e, e ∈ entries → e.1 ∈ permitted stem).
Proof.
  induction entries as [|[name data] entries IH]; simpl; intros zs.
  - intros [= <-] _. split; [done|]. by intros ? ?%elem_of_nil.
  - case_bool_decide as Hp; [|done]. simpl. destruct (pack stem entries) as [|zs']; [done|]. intros [= <-] Hs.
    destruct (IH zs' eq_refl) as [Hr Hn]; [intros e He; apply Hs; by right|]. simpl. rewrite bool_decide_eq_true_2 by done. simpl.
    specialize (Hs (name, data) ltac:(by left)). simpl in Hs. rewrite (proj2 (N.ltb_ge _ _)) by done. rewrite Hr. split; [done|].
    intros e [->|He]%elem_of_cons; [done|by apply Hn].
Qed.

Lemma take_entry_None name found : (∀ e, e ∈ found → e.1 ≠ name) → take_entry name found = None.
Proof.
  unfold take_entry. induction found as [|e found IH]; [done|]. intros H. simpl.
  destruct (String.eqb_spec e.1 name) as [E|]; [exfalso; exact (H e ltac:(by left) E)|]. apply IH. intros e' He. apply H. by right.
Qed.
Lemma take_entry_is_Some name found : name ∈ found.*1 → is_Some (take_entry name found).
Proof.
  unfold take_entry. induction found as [|e found IH]; [by intros ?%elem_of_nil|]. rewrite fmap_cons, elem_of_cons. simpl.
  destruct (String.eqb_spec e.1 name) as [|Hn]; [by eexists|]. intros [E|]; [congruence|by apply IH].
Qed.

Lemma read_entries_permitted allowed zs : ∀ found,
  read_entries allowed zs = inr found → ∀ z, z ∈ zs → ze_name z ∈ allowed ∧ ze_size z ≤ MAX_ENTRY_BYTES.
Proof.
  induction zs as [|z zs IH]; simpl; intros found; [by intros _ ? ?%elem_of_nil|].
  case_bool_decide as Hp; [|done]. simpl. destruct (N.ltb_spec MAX_ENTRY_BYTES (ze_size z)) as [|Hs]; [done|]. destruct (ze_read z); [|done]. destruct (_ <? _); [done|].
  destruct (read_entries allowed zs) as [|found']; [done|]. intros _ z' [->|Hz]%elem_of_cons; [done|]. by apply (IH found').
Qed.

(** A packed bundle unpacks to the very bytes that went in, under each of
    the case's four names; what unpacks at all holds no other name and no entry
    past the size limit, so nothing an archive names reaches the disk. *)
Theorem bundle_roundtrip stem entries zs :
  pack stem entries = inr zs → cf_document (file_names stem) ∈ entries.*1 →
  (∀ e, e ∈ entries → N.of_nat (String.length e.2) ≤ MAX_ENTRY_BYTES) →
  (∃ b, unpack (Some zs) stem = inr b ∧ cb_stem b = stem ∧ ∀ name, entry_of b name = take_entry name entries) ∧
  (∀ archive b, unpack (Some archive) stem = inr b → ∀ z, z ∈ archive → ze_name z ∈ permitted stem ∧ ze_size z ≤ MAX_ENTRY_BYTES).
Proof.
  intros Hp Hd Hs. split.
  - destruct (pack_ok _ _ _ Hp Hs) as [Hr Hn]. unfold unpack. rewrite Hr. destruct (take_entry_is_Some _ _ Hd) as [doc Hdoc]. rewrite Hdoc.
    eexists. split_and!; [reflexivity|done|]. intros name. unfold entry_of. cbn [cb_stem cb_document cb_logdata cb_spandata cb_registry].
    repeat match goal with |- context [String.eqb name ?n] => destruct (String.eqb_spec name n) as [->|?]; [done|] end.
    symmetry. apply take_entry_None. intros e He E. apply Hn in He. rewrite E in He. unfold permitted in He.
    repeat (apply elem_of_cons in He as [He|He]; [done|]). by apply elem_of_nil in He.
  - intros archive b. unfold unpack. destruct (read_entries _ archive) as [|found] eqn:E; [done|]. intros _. by eapply read_entries_permitted.
Qed.

(** ** Witnesses *)

Section sample.
Definition sample_front (records : N) : FrontMatter :=
  mkFront "x" 1 50 "d" None "why" (mkAnchorRef "seq" "5" 5 40) "stalled" Complete (mkSeqRange 3 9 0 0 false)
    (Some (mkFileRef "x.logdata.jsonl" records None)) None None (mkProvenance "0 of 3" []) ∅.
Definition sample_record (line : string) : option LogEntry := (λ n, log_at n line) <$> parse_u64 line.
Definition sample_lines : string := String.append "H" (String newline (String.append "3" (String newline "5"))).
Definition sample_disk (dir name : string) : FileRead :=
  if String.eqb name "x.md" then FileBytes "# x" else if String.eqb name "x.logdata.jsonl" then FileBytes sample_lines else FileMissing.
Definition sample_load (records : N) : LoadError string + LoadedCase :=
  load (λ _, Some (1, "logdata"%string)) sample_record (λ _, None) (λ _, inr (sample_front records)) (λ _, inr None) sample_disk (λ _, None)
    (mkCasePath true "/d" "x.md").
End sample.

Lemma loaded_case_opens_witness :
  (∃ c d, sample_load 2 = inr c ∧ assemble_case_domain "x" c = Some d ∧ seq <$> entries (inner (lp_store (bd_pipeline d))) = [3; 5] ∧
     current_seq (bd_pipeline d) = 9) ∧
  sample_load 3 = inl (CountMismatch LogData 3 2).
Proof.
  split; [|vm_compute; reflexivity]. eexists _. destruct (loaded_case_opens _ _ _ _ _ _ _ _ "x" _ (eq_refl (sample_load 2))) as (_ & _ & _ & d & Hd & Hc).
  exists d. split_and!; [reflexivity|exact Hd|rewrite (hc_logs _ _ _ Hc); vm_compute; reflexivity|rewrite (hc_counter _ _ _ Hc); vm_compute; reflexivity].
Defined.

Lemma bundle_roundtrip_witness :
  (∃ zs b, pack "x" [("x.md", "# x"); ("x.logdata.jsonl", "H")]%string = inr zs ∧ unpack (Some zs) "x" = inr b ∧
     entry_of b "x.logdata.jsonl" = Some "H"%string ∧ entry_of b "../x" = None) ∧
  pack "x" [("../x", "# x")]%string = inl (ForeignEntry "../x").
Proof.
  split; [|vm_compute; reflexivity].
  destruct (bundle_roundtrip "x" [("x.md", "# x"); ("x.logdata.jsonl", "H")]%string _ eq_refl) as [(b & Hu & _ & He) _].
  - vm_compute. left.
  - intros e He. repeat (apply elem_of_cons in He as [->|He]; [vm_compute; discriminate|]). by apply elem_of_nil in He.
  - eexists _, b. split_and!; [reflexivity|exact Hu|rewrite He; vm_compute; reflexivity|rewrite He; vm_compute; reflexivity].
Defined.

(** ** Front matter: quoted text *)

(** [raw] is text between quotes that stands for [s], one escape at a time. *)
Inductive escapes : string → string → Prop :=
  | esc_nil : escapes "" ""
  | esc_plain c raw s :
      Ascii.eqb c backslash = false → Ascii.eqb c quote = false → Ascii.eqb c newline = false →
      escapes raw s → escapes (String c raw) (String c s)
  | esc_letter e t raw s :
      escape_char e = Some t → Ascii.eqb e newline = false → escapes raw s → escapes (letter e +:+ raw) (t +:+ s)
  | esc_hex c raw s : (N_of_ascii c <? 128) = true → escapes raw s → escapes (hex_escape c +:+ raw) (String c s).

(** Each byte's escape is the byte's. *)
Lemma hex_escape_ok c :
  parse_hex u32_max (String (hex_char (N_of_ascii c / 16)) (String (hex_char (N_of_ascii c mod 16)) "")) = Some (N_of_ascii c) ∧
  str_has newline (hex_escape c) = false ∧ str_has quote (hex_escape c) = false ∧
  Ascii.eqb (hex_char (N_of_ascii c mod 16)) backslash = false ∧ Ascii.eqb (hex_char (N_of_ascii c / 16)) backslash = false.
Proof.
  pose proof (every_ascii (λ c,
    match parse_hex u32_max (String (hex_char (N_of_ascii c / 16)) (String (hex_char (N_of_ascii c mod 16)) "")) with
    | Some n => (n =? N_of_ascii c) | None => false end &&
    negb (str_has newline (hex_escape c)) && negb (str_has quote (hex_escape c)) &&
    negb (Ascii.eqb (hex_char (N_of_ascii c mod 16)) backslash) && negb (Ascii.eqb (hex_char (N_of_ascii c / 16)) backslash))
    ltac:(vm_compute; reflexivity) c) as H.
  cbv beta in H. apply andb_true_iff in H as [[[[H ?%negb_true_iff]%andb_true_iff ?%negb_true_iff]%andb_true_iff ?%negb_true_iff]%andb_true_iff ?%negb_true_iff].
  split_and!; try done. destruct (parse_hex _ _); [|done]. by apply N.eqb_eq in H as ->.
Qed.

Lemma hex_escape_app c raw :
  (hex_escape c +:+ raw)%string =
  String backslash (String "x" (String (hex_char (N_of_ascii c / 16)) (String (hex_char (N_of_ascii c mod 16)) raw))).
Proof. done. Qed.

Lemma escape_ascii_escapes c raw s : escapes raw s → escapes (escape_ascii c +:+ raw) (String c s).
Proof.
  intros H. unfold escape_ascii. destruct (Ascii.eqb_spec c backslash) as [->|Hb]; [by apply (esc_letter backslash _ _ _ eq_refl)|].
  destruct (Ascii.eqb_spec c quote) as [->|Hq]; [by apply (esc_letter quote _ _ _ eq_refl)|].
  destruct (Ascii.eqb_spec c newline) as [->|Hn]; [by apply (esc_letter "n" _ _ _ eq_refl)|].
  destruct (Ascii.eqb_spec c return_) as [->|]; [by apply (esc_letter "r" _ _ _ eq_refl)|].
  destruct (Ascii.eqb_spec c tab) as [->|]; [by apply (esc_letter "t" _ _ _ eq_refl)|].
  destruct (_ || _) eqn:Hc.
  { apply esc_hex; [|done]. apply N.ltb_lt. apply orb_true_iff in Hc as [Hc%N.ltb_lt|Hc%N.eqb_eq]; lia. }
  apply esc_plain; [by apply Ascii.eqb_neq..|done].
Qed.

Lemma yaml_body_escapes s : escapes (yaml_body s) s.
Proof.
  induction s as [s IH] using (induction_ltof1 _ String.length). unfold ltof in IH.
  destruct s as [|c s1]; [constructor|]. simpl in IH. pose proof (IH s1 ltac:(lia)) as H1. simpl.
  destruct (Ascii.eqb_spec c lead_C2) as [->|Hc].
  { destruct s1 as [|d s2]; [by apply esc_plain|].
    destruct (Ascii.eqb_spec d byte_85) as [->|]; [|by apply esc_plain].
    apply (esc_letter "N" _ _ _ eq_refl); [done|]. apply IH. simpl. lia. }
  destruct (Ascii.eqb_spec c lead_E2) as [->|]; [|by apply escape_ascii_escapes].
  destruct s1 as [|d [|e s3]]; [by apply esc_plain..|].
  destruct (Ascii.eqb_spec d byte_80) as [->|]; simpl; [|by apply esc_plain].
  destruct (Ascii.eqb_spec e byte_A8) as [->|].
  { apply (esc_letter "L" _ _ _ eq_refl); [done|]. apply IH. simpl. lia. }
  destruct (Ascii.eqb_spec e byte_A9) as [->|]; [|by apply esc_plain].
  apply (esc_letter "P" _ _ _ eq_refl); [done|]. apply IH. simpl. lia.
Qed.

Lemma escapes_unescape raw s : escapes raw s → unescape raw = inr s.
Proof.
  induction 1 as [|c raw s Hb _ _ _ IH|e t raw s He _ _ IH|c raw s Hc _ IH]; [done| | |].
  - simpl. by rewrite Hb, IH.
  - change (letter e +:+ raw)%string with (String backslash (String e raw)). simpl. by rewrite He, IH.
  - destruct (hex_escape_ok c) as (Hx & _). rewrite hex_escape_app. cbn [unescape].
    change (escape_char "x") with (@None string). change (Ascii.eqb "x" "x") with true. cbv iota.
    change (negb (Ascii.eqb backslash backslash)) with false. cbv iota. rewrite Hx, IH.
    unfold char_of. rewrite Hc. simpl. by rewrite ascii_N_embedding.
Qed.

Lemma escapes_scan raw s tail : escapes raw s → scan_quoted (raw +:+ String quote tail) = Some (raw, tail).
Proof.
  induction 1 as [|c raw s Hb Hq _ _ IH|e t raw s He _ _ IH|c raw s Hc _ IH]; [done| | |].
  - rewrite String_app_cons. cbn [scan_quoted]. by rewrite Hq, Hb, IH.
  - unfold letter. rewrite !String_app_cons. cbn [scan_quoted]. change ("" +:+ raw)%string with raw. by rewrite IH.
  - destruct (hex_escape_ok c) as (_ & _ & Hq & H1 & H2). rewrite hex_escape_app. simpl in Hq.
    apply orb_false_iff in Hq as [Hq1 [Hq2 _]%orb_false_iff].
    rewrite !String_app_cons. cbn [scan_quoted]. simpl (Ascii.eqb backslash _). cbv iota. rewrite Hq1, Hq2, H1, H2, IH. done.
Qed.

Lemma escapes_line raw s : escapes raw s → str_has newline raw = false.
Proof.
  induction 1 as [|c raw s _ _ Hn _ IH|e t raw s He Hn _ IH|c raw s _ _ IH]; [done| | |].
  - simpl. by rewrite Hn.
  - rewrite str_has_app, IH. simpl. by rewrite Hn.
  - destruct (hex_escape_ok c) as (_ & Hn & _). by rewrite str_has_app, Hn.
Qed.

Lemma quoted_yaml s tail : quoted (yaml_body s +:+ String quote tail) = inr (s, tail).
Proof.
  pose proof (yaml_body_escapes s) as H. unfold quoted. by rewrite (escapes_scan _ _ _ H), (escapes_unescape _ _ H).
Qed.

(** ** Front matter: values

    [t] is text that reads back as [v] wherever it stands, on a line of its own
    or inside a collection. *)
Definition closes (tail : string) : bool := match tail with String c _ => ends_bare c | EmptyString => true end.
Definition opens (t : string) : bool :=
  match t with String c _ => negb (Ascii.eqb c " " || Ascii.eqb c tab || ends_bare c) | EmptyString => false end.

Record written (t : string) (v : FlowValue) : Prop := {
  wr_reads fuel tail : closes tail = true → (2 * String.length t < fuel)%nat → value fuel (t +:+ tail) = inr (v, tail);
  wr_opens : opens t = true;
  wr_last : ∃ t' a, t = (t' +:+ String a "")%string ∧ not_head rwhite_space a = true;
  wr_line : str_has newline t = false;
}.

Record written_key (t k : string) : Prop := {
  wk_reads tail : map_key (t +:+ String ":" tail) = inr (k, String ":" tail);
  wk_opens : opens t = true;
  wk_line : str_has newline t = false;
}.

Lemma opens_skip t s : opens t = true → skip_ws (t +:+ s) = (t +:+ s)%string.
Proof.
  destruct t as [|c t]; [done|]. simpl. intros [H _]%negb_true_iff%orb_false_iff. by rewrite H.
Qed.

Lemma value_space fuel s : value fuel (String " " s) = value fuel s.
Proof. by destruct fuel. Qed.
Lemma flow_map_space fuel m s : flow_map fuel m (String " " s) = flow_map fuel m s.
Proof. by destruct fuel. Qed.
Lemma flow_seq_space fuel items s : flow_seq fuel items (String " " s) = flow_seq fuel items s.
Proof. by destruct fuel. Qed.

Lemma yaml_str_app s tail : (yaml_str s +:+ tail)%string = String quote (yaml_body s +:+ String quote tail).
Proof. unfold yaml_str. by rewrite String_app_cons, <-(assoc_L String.append). Qed.

Lemma yaml_str_line s : str_has newline (yaml_str s) = false.
Proof. unfold yaml_str. simpl. rewrite str_has_app, (escapes_line _ _ (yaml_body_escapes s)). done. Qed.

Lemma yaml_str_written s : written (yaml_str s) (VStr s).
Proof.
  split; [|done| |apply yaml_str_line].
  - intros [|fuel] tail _ Hf; [lia|]. rewrite yaml_str_app. cbn [value]. change (skip_ws (String quote ?r)) with (String quote r).
    cbv iota. change (Ascii.eqb quote quote) with true. cbv iota. by rewrite quoted_yaml.
  - by exists (String quote (yaml_body s)), quote.
Qed.

Lemma yaml_str_key s : written_key (yaml_str s) s.
Proof. split; [|done|apply yaml_str_line]. intros tail. rewrite yaml_str_app. apply quoted_yaml. Qed.

(** *** Words *)

Definition word_char (c : ascii) : bool := is_ascii_alphanumeric c || Ascii.eqb c "-" || Ascii.eqb c "_".
Definition is_word (w : string) : bool := negb (String.eqb w "") && str_forall word_char w.

Definition word_char_test (c : ascii) : bool :=
  negb (word_char c) ||
  (negb (ends_bare c || ends_key c || Ascii.eqb c quote || Ascii.eqb c "{" || Ascii.eqb c "[" || Ascii.eqb c newline) &&
   opens (String c "") && not_head white_space c && not_head rwhite_space c).

Record plain_char (c : ascii) : Prop := {
  pc_bare : ends_bare c = false;
  pc_key : ends_key c = false;
  pc_quote : Ascii.eqb c quote = false;
  pc_brace : Ascii.eqb c "{" = false;
  pc_bracket : Ascii.eqb c "[" = false;
  pc_newline : Ascii.eqb c newline = false;
  pc_opens : opens (String c "") = true;
  pc_lead : not_head white_space c = true;
  pc_trail : not_head rwhite_space c = true;
}.
Lemma word_char_ok c : word_char c = true → plain_char c.
Proof.
  assert (word_char_test c = true) as H by (apply every_ascii; vm_compute; reflexivity).
  unfold word_char_test in H. intros E. rewrite E in H. simpl negb in H.
  rewrite orb_false_l, !andb_true_iff, negb_true_iff, !orb_false_iff in H. destruct_and! H. by split.
Qed.

Lemma is_word_cons w : is_word w = true → ∃ c w', w = String c w' ∧ word_char c = true ∧ str_forall word_char w = true.
Proof. destruct w as [|c w]; [done|]. unfold is_word. simpl. intros [??]%andb_true_iff. exists c, w. by rewrite !andb_true_iff. Qed.

Lemma is_word_snoc w : is_word w = true → ∃ w' c, w = (w' +:+ String c "")%string ∧ not_head rwhite_space c = true.
Proof.
  intros (c & w' & Ew & _ & H)%is_word_cons. rewrite <-str_forall_rev in H.
  destruct (str_rev w) as [|d r] eqn:E.
  { exfalso. apply (str_rev_nonempty w); [by rewrite Ew|done]. }
  simpl in H. apply andb_true_iff in H as [Hd _]. exists (str_rev r), d. split; [|by apply word_char_ok].
  rewrite <-(str_rev_involutive w), E. change (String d r) with (String d "" +:+ r)%string. by rewrite str_rev_append.
Qed.

Lemma is_word_trim w : is_word w = true → trim w = w.
Proof.
  intros H. apply trim_id. split.
  - destruct (is_word_cons _ H) as (c & w' & -> & Hc & _). by apply no_lead_head, word_char_ok.
  - destruct (is_word_snoc _ H) as (w' & c & -> & Hc). by apply no_trail_last.
Qed.

Lemma take_until_word stop w tail :
  (∀ c, word_char c = true → stop c = false) → str_forall word_char w = true →
  match tail with String c _ => stop c | EmptyString => true end = true → take_until stop (w +:+ tail) = (w, tail).
Proof.
  intros Hs Hw Ht. induction w as [|c w IH].
  - change ("" +:+ tail)%string with tail. destruct tail as [|c tail]; simpl in *; [done|]. by rewrite Ht.
  - rewrite String_app_cons. simpl in *. apply andb_true_iff in Hw as [Hc Hw]. by rewrite (Hs _ Hc), (IH Hw).
Qed.

Lemma word_line w : str_forall word_char w = true → str_has newline w = false.
Proof. induction w as [|c w IH]; [done|]. simpl. intros [Hc Hw]%andb_true_iff. by rewrite (pc_newline _ (word_char_ok _ Hc)), (IH Hw). Qed.

Lemma is_word_opens w : is_word w = true → opens w = true ∧ str_has newline w = false.
Proof.
  intros (c & w' & -> & Hc & Hw)%is_word_cons. split; [|by apply word_line].
  apply (pc_opens _ (word_char_ok _ Hc)).
Qed.

Lemma word_written w : is_word w = true → written w (VBare w).
Proof.
  intros H. destruct (is_word_opens _ H) as [Ho Hl]. split; [|done|by apply is_word_snoc|done].
  intros [|fuel] tail Ht Hf; [lia|]. cbn [value]. rewrite (opens_skip _ _ Ho).
  destruct (is_word_cons _ H) as (c & w' & E & Hc & Hw). rewrite E, String_app_cons.
  pose proof (word_char_ok _ Hc) as Hp. rewrite (pc_quote _ Hp), (pc_brace _ Hp), (pc_bracket _ Hp). unfold bare.
  rewrite <-String_app_cons, <-E, (take_until_word ends_bare), (is_word_trim _ H); [done| |done|done].
  intros d Hd. by apply word_char_ok.
Qed.

Lemma word_key w : is_word w = true → written_key w w.
Proof.
  intros H. destruct (is_word_opens _ H) as [Ho Hl]. split; [|done|done]. intros tail.
  destruct (is_word_cons _ H) as (c & w' & E & Hc & Hw). rewrite E, String_app_cons. unfold map_key.
  rewrite (pc_quote _ (word_char_ok _ Hc)).
  rewrite <-String_app_cons, <-E, (take_until_word ends_key), (is_word_trim _ H); [done| |done|done].
  intros d Hd. by apply word_char_ok.
Qed.

Lemma pretty_word (n : N) : n ≤ u64_max → is_word (pretty n) = true.
Proof.
  intros Hn. unfold is_word. destruct (String.eqb_spec (pretty n) "") as [E|_]; [by apply pretty_not_empty in E|]. simpl.
  destruct (pretty_digits n Hn) as [_ H]. revert H. apply str_forall_impl. intros a Ha.
  unfold word_char, is_ascii_alphanumeric. by rewrite Ha.
Qed.
Lemma number_written (n : N) : n ≤ u64_max → written (pretty n) (VBare (pretty n)).
Proof. intros H. by apply word_written, pretty_word. Qed.

(** *** Collections *)

Definition insert_all {A} (m : gmap string A) (kvs : list (string * A)) : gmap string A :=
  foldl (λ m kv, <[kv.1 := kv.2]> m) m kvs.

Lemma opens_head t : opens t = true → ∃ c r, t = String c r ∧ Ascii.eqb c "," = false ∧ Ascii.eqb c "}" = false ∧ Ascii.eqb c "]" = false.
Proof.
  destruct t as [|c r]; [done|]. simpl. unfold ends_bare.
  intros [_ [[? ?]%orb_false_iff ?]%orb_false_iff]%negb_true_iff%orb_false_iff. by exists c, r.
Qed.

Lemma written_length t v : written t v → (1 ≤ String.length t)%nat.
Proof. intros [_ Ho _ _]. destruct t; [done|]. simpl. lia. Qed.

(** The items behind the first, and the closing bracket. *)
Definition more (items : list string) (close : ascii) (tail : string) : string :=
  match items with [] => String close tail | _ => ", " +:+ comma_join items +:+ String close tail end.

Lemma comma_join_cons x l close tail : (comma_join (x :: l) +:+ String close tail)%string = (x +:+ more l close tail)%string.
Proof. unfold more, comma_join. destruct l; [done|]. simpl. by rewrite <-!(assoc_L String.append). Qed.

Lemma comma_join_line l : Forall (λ x, str_has newline x = false) l → str_has newline (comma_join l) = false.
Proof.
  induction 1 as [|x l Hx _ IH]; [done|]. unfold comma_join in *. destruct l as [|y l]; [done|].
  change (String.concat ", " (x :: y :: l)) with (x +:+ ", " +:+ String.concat ", " (y :: l))%string.
  by rewrite !str_has_app, Hx, IH.
Qed.

Lemma closes_more l close tail : ends_bare close = true → closes (more l close tail) = true.
Proof. by destruct l. Qed.

Definition written_entry (kt : string * string) (kv : string * FlowValue) : Prop := written_key kt.1 kv.1 ∧ written kt.2 kv.2.

Lemma flow_map_at fuel m s c rest :
  skip_ws s = String c rest → Ascii.eqb c "," = false → Ascii.eqb c "}" = false →
  flow_map (S fuel) m s =
  let! key := map_key (String c rest) in
  match skip_ws key.2 with
  | String d rest =>
      if Ascii.eqb d ":" then let! v := value fuel rest in flow_map fuel (<[key.1 := v.1]> m) v.2 else inl BadFlow
  | EmptyString => inl BadFlow
  end.
Proof. intros Hs H1 H2. cbn [flow_map]. by rewrite Hs, H1, H2. Qed.

Lemma flow_seq_at fuel items s c rest :
  skip_ws s = String c rest → Ascii.eqb c "," = false → Ascii.eqb c "]" = false →
  flow_seq (S fuel) items s =
  let! v := value fuel (String c rest) in
  if Nat.eqb (String.length v.2) (String.length (String c rest)) then inl BadFlow else flow_seq fuel (items ++ [v.1]) v.2.
Proof. intros Hs H1 H2. cbn [flow_seq]. by rewrite Hs, H1, H2. Qed.

Lemma flow_map_entry fuel m kt kv rest :
  written_entry kt kv → closes rest = true → (2 * String.length kt.2 < fuel)%nat →
  flow_map (S fuel) m (flow_entry kt +:+ rest) = flow_map fuel (<[kv.1 := kv.2]> m) rest.
Proof.
  destruct kt as [k t]. intros [[Hk Ho _] Hw] Hc Hf. simpl in Hk, Ho, Hw, Hf. unfold flow_entry. cbn [fst snd].
  rewrite <-!(assoc_L String.append). change ((": " +:+ t +:+ rest)%string) with (String ":" (String " " (t +:+ rest))).
  specialize (Hk (String " " (t +:+ rest))). destruct (opens_head _ Ho) as (c & r & -> & E1 & E2 & _).
  rewrite (flow_map_at _ _ _ c (r +:+ String ":" (String " " (t +:+ rest)))); [|by apply (opens_skip (String c r))|done|done].
  rewrite String_app_cons in Hk. rewrite Hk. cbn [and_then fst snd]. simpl (skip_ws _). cbv iota.
  rewrite value_space, (wr_reads _ _ Hw) by done. done.
Qed.

Lemma flow_seq_item fuel items t v rest :
  written t v → closes rest = true → (2 * String.length t < fuel)%nat →
  flow_seq (S fuel) items (t +:+ rest) = flow_seq fuel (items ++ [v]) rest.
Proof.
  intros Hw Hc Hf. pose proof (wr_opens _ _ Hw) as Ho. pose proof (wr_reads _ _ Hw fuel rest Hc Hf) as Hr.
  destruct (opens_head _ Ho) as (c & r & E & E1 & _ & E3). rewrite (flow_seq_at _ _ _ c (r +:+ rest)); [| |done|done].
  2: { rewrite (opens_skip _ _ Ho), E. done. }
  change (String c (r +:+ rest))%string with (String c r +:+ rest)%string. rewrite <-E, Hr. cbn [and_then fst snd].
  rewrite (proj2 (Nat.eqb_neq _ _)); [done|]. rewrite str_length_app. pose proof (written_length _ _ Hw). lia.
Qed.

Lemma comma_join_length x l :
  String.length (comma_join (x :: l)) = (String.length x + match l with [] => 0 | _ => 2 + String.length (comma_join l) end)%nat.
Proof. unfold comma_join. destruct l; [simpl; lia|]. cbn [String.concat]. rewrite !str_length_app. done. Qed.

Lemma flow_map_more fuel m kts tail :
  flow_map (S fuel) m (more (flow_entry <$> kts) "}" tail) =
  match kts with [] => inr (VMap m, tail) | _ => flow_map fuel m (comma_join (flow_entry <$> kts) +:+ String "}" tail) end.
Proof.
  destruct kts as [|kt kts]; [done|]. unfold more. rewrite fmap_cons.
  change (flow_map (S fuel) m (", " +:+ ?s)) with (flow_map fuel m (String " " s)). apply flow_map_space.
Qed.
Lemma flow_seq_more fuel items ts tail :
  flow_seq (S fuel) items (more ts "]" tail) =
  match ts with [] => inr (VSeq items, tail) | _ => flow_seq fuel items (comma_join ts +:+ String "]" tail) end.
Proof.
  destruct ts as [|t ts]; [done|]. unfold more.
  change (flow_seq (S fuel) items (", " +:+ ?s)) with (flow_seq fuel items (String " " s)). apply flow_seq_space.
Qed.

(** Fuel for the items and the closing bracket. *)
Lemma flow_map_items kts kvs : Forall2 written_entry kts kvs → ∀ fuel m tail,
  (2 * String.length (comma_join (flow_entry <$> kts)) + 2 ≤ fuel)%nat →
  flow_map fuel m (comma_join (flow_entry <$> kts) +:+ String "}" tail) = inr (VMap (insert_all m kvs), tail).
Proof.
  induction 1 as [|kt kv kts kvs He Hs IH]; intros fuel m tail Hf; [destruct fuel; [simpl in Hf; lia|done]|].
  rewrite fmap_cons in *. rewrite comma_join_length in Hf.
  assert (String.length kt.2 + 2 ≤ String.length (flow_entry kt))%nat as Hk.
  { unfold flow_entry. rewrite !str_length_app. simpl. lia. }
  destruct fuel as [|[|fuel]]; [lia..|]. rewrite comma_join_cons, (flow_map_entry _ _ _ kv); [|done|by apply closes_more|lia].
  rewrite flow_map_more. destruct Hs as [|kt' kv' kts kvs He' Hs]; [done|]. apply IH. rewrite fmap_cons in *. lia.
Qed.

Lemma flow_seq_items ts vs : Forall2 written ts vs → ∀ fuel items tail,
  (2 * String.length (comma_join ts) + 2 ≤ fuel)%nat →
  flow_seq fuel items (comma_join ts +:+ String "]" tail) = inr (VSeq (items ++ vs), tail).
Proof.
  induction 1 as [|t v ts vs Hw Hs IH]; intros fuel items tail Hf.
  { rewrite app_nil_r. destruct fuel; [simpl in Hf; lia|done]. }
  rewrite comma_join_length in Hf. pose proof (written_length _ _ Hw).
  destruct fuel as [|[|fuel]]; [lia..|]. rewrite comma_join_cons, (flow_seq_item _ _ _ v); [|done|by apply closes_more|lia].
  rewrite flow_seq_more. destruct Hs as [|t' v' ts vs Hw' Hs]; [done|].
  rewrite IH by lia. by rewrite <-(assoc_L (++)).
Qed.

Lemma map_written kts kvs : Forall2 written_entry kts kvs → written (flow_map_text kts) (VMap (insert_all ∅ kvs)).
Proof.
  intros H. unfold flow_map_text. split; [|done| |].
  - intros [|fuel] tail _ Hf; [lia|]. rewrite String_app_cons, <-(assoc_L String.append).
    change (value (S fuel) (String "{" ?r)) with (flow_map fuel ∅ r). apply flow_map_items; [done|].
    simpl in Hf. rewrite str_length_app in Hf. simpl in Hf. lia.
  - by exists (String "{" (comma_join (flow_entry <$> kts))), "}"%char.
  - change (str_has newline (String "{" ?r)) with (str_has newline r). rewrite str_has_app, comma_join_line; [done|].
    induction H as [|kt kv kts kvs [[_ _ Hk] [_ _ _ Ht]] _ IH]; [constructor|]. constructor; [|done].
    unfold flow_entry. by rewrite !str_has_app, Hk, Ht.
Qed.

Lemma seq_written ts vs : Forall2 written ts vs → written (flow_seq_text ts) (VSeq vs).
Proof.
  intros H. unfold flow_seq_text. split; [|done| |].
  - intros [|fuel] tail _ Hf; [lia|]. rewrite String_app_cons, <-(assoc_L String.append).
    change (value (S fuel) (String "[" ?r)) with (flow_seq fuel [] r). apply (flow_seq_items _ _ H).
    simpl in Hf. rewrite str_length_app in Hf. simpl in Hf. lia.
  - by exists (String "[" (comma_join ts)), "]"%char.
  - change (str_has newline (String "[" ?r)) with (str_has newline r). rewrite str_has_app, comma_join_line; [done|].
    induction H as [|t v ts vs [_ _ _ Ht] _ IH]; by constructor.
Qed.

(** ** Front matter: lines and fences *)

Definition no_break (l : string) : Prop := str_has newline l = false.

Lemma before_match_line l s :
  no_break l → before_match fence_close (l +:+ s) = String.append l <$> before_match fence_close s.
Proof.
  unfold no_break. induction l as [|c l IH]; simpl.
  - intros _. change ("" +:+ s)%string with s. by destruct (before_match fence_close s).
  - intros [Hc Hl]%orb_false_iff.
    assert (starts_with fence_close (String c (l +:+ s)) = false) as ->.
    { unfold starts_with, fence_close. cbn [strip_prefix]. by rewrite (Ascii.eqb_sym newline c), Hc. }
    rewrite (IH Hl). by destruct (before_match fence_close s).
Qed.

(** A line that [writeln!] wrote, or the block of them. *)
Definition block_of (ls : list string) : string := String.concat (String newline "") ls.

Lemma block_cons l ls : ls ≠ [] → block_of (l :: ls) = (l +:+ String newline (block_of ls))%string.
Proof. by destruct ls. Qed.

Lemma lines_block ls : ls ≠ [] →
  String.concat "" ((λ l, l +:+ String newline "") <$> ls) = (block_of ls +:+ String newline "")%string.
Proof.
  induction ls as [|l ls IH]; [done|]. intros _. destruct ls as [|l' ls]; [done|].
  rewrite block_cons by done. rewrite fmap_cons.
  change (String.concat "" (?x :: (?f <$> l' :: ls))) with (x +:+ String.concat "" (f <$> l' :: ls))%string.
  rewrite IH by done. by rewrite <-!(assoc_L String.append).
Qed.

Definition starts_key (l : string) : Prop := match l with String c _ => Ascii.eqb "-" c = false | EmptyString => False end.

Lemma before_match_block ls rest : ls ≠ [] → Forall no_break ls → Forall starts_key ls →
  before_match fence_close (block_of ls +:+ fence_close +:+ rest) = Some (block_of ls).
Proof.
  intros Hn Hl Hs. induction ls as [|l ls IH]; [done|]. clear Hn.
  apply Forall_cons in Hl as [Hl Hls]. apply Forall_cons in Hs as [Hs Hss].
  destruct ls as [|l' ls].
  - change (block_of [l]) with l. rewrite before_match_line by done.
    assert (before_match fence_close (fence_close +:+ rest) = Some EmptyString) as -> by done.
    simpl. by rewrite (right_id_L _ _).
  - rewrite block_cons by done. rewrite <-(assoc_L String.append), before_match_line by done. rewrite String_app_cons.
    specialize (IH ltac:(done) Hls Hss). cbn [before_match].
    assert (∃ c r, block_of (l' :: ls) = String c r ∧ Ascii.eqb "-" c = false) as (c & r & E & Hc).
    { apply Forall_cons in Hss as [Hk _]. destruct l' as [|c r]; [done|]. exists c.
      destruct ls; eexists; (split; [reflexivity|done]). }
    assert (starts_with fence_close (String newline (block_of (l' :: ls) +:+ fence_close +:+ rest)) = false) as ->.
    { rewrite E, String_app_cons. unfold starts_with, fence_close. cbn [strip_prefix]. rewrite Ascii.eqb_refl, Hc. done. }
    rewrite IH. done.
Qed.

Lemma split_block c ls : ls ≠ [] → Forall (λ l, str_has c l = false) ls → str_split c (String.concat (String c "") ls) = ls.
Proof.
  intros Hn Hl. induction ls as [|l ls IH]; [done|]. clear Hn. apply Forall_cons in Hl as [Hl Hls].
  assert (∀ l s, str_has c l = false →
          str_split c (l +:+ s) = match str_split c s with p :: ps => (l +:+ p)%string :: ps | [] => [] end) as Happ.
  { clear. intros l s. induction l as [|a l IH]; simpl.
    - intros _. change ("" +:+ s)%string with s. pose proof (str_split_nonempty c s). by destruct (str_split c s).
    - intros [Ha H]%orb_false_iff. rewrite Ha, (IH H).
      pose proof (str_split_nonempty c s). by destruct (str_split c s). }
  destruct ls as [|l' ls].
  - simpl. rewrite <-(right_id_L "" String.append l) at 1. rewrite Happ by done. simpl. by rewrite (right_id_L _ _).
  - change (String.concat (String c "") (l :: l' :: ls)) with (l +:+ String c (String.concat (String c "") (l' :: ls)))%string.
    specialize (IH ltac:(done) Hls). generalize dependent (String.concat (String c "") (l' :: ls)). intros r Hr.
    rewrite Happ by done. simpl. by rewrite Ascii.eqb_refl, Hr, (right_id_L _ _).
Qed.

Definition ends_plain (l : string) : Prop := ∃ l' a, l = (l' +:+ String a "")%string ∧ not_head rwhite_space a = true.

Lemma ends_plain_cr l : ends_plain l → strip_cr l = l ∧ String.eqb l "" = false.
Proof.
  intros (l' & a & -> & Ha). split.
  - unfold strip_cr, strip_suffix. rewrite str_rev_append. change (str_rev (String a "")) with (String a "").
    change (str_rev (String (ascii_of_N 13) "")) with (String return_ ""). rewrite String_app_cons. cbn [strip_prefix].
    destruct (Ascii.eqb return_ a) eqn:E; [|reflexivity].
    apply Ascii.eqb_eq in E as <-. by vm_compute in Ha.
  - apply String.eqb_neq. by destruct l'.
Qed.

Lemma block_lines ls : ls ≠ [] → Forall no_break ls → Forall ends_plain ls → str_lines (block_of ls) = ls.
Proof.
  intros Hn Hl He. unfold str_lines, block_of. rewrite split_block by done. clear Hn Hl.
  induction He as [|l ls Hl _ IH]; [done|]. destruct (ends_plain_cr _ Hl) as [Hc Hne]. simpl. rewrite Hc, Hne, IH. by destruct ls.
Qed.

(** *** The loop over the lines *)

Definition written_line (kt : string * string) (kv : string * FlowValue) : Prop :=
  kt.1 = kv.1 ∧ is_word kt.1 = true ∧ starts_key kt.1 ∧ written kt.2 kv.2.

Lemma word_has_no_colon w : str_forall word_char w = true → str_has ":" w = false.
Proof.
  induction w as [|c w IH]; [done|]. simpl. intros [Hc Hw]%andb_true_iff. rewrite (IH Hw), orb_false_r.
  pose proof (pc_key _ (word_char_ok _ Hc)) as H. unfold ends_key in H. by apply orb_false_iff in H as [[H _]%orb_false_iff _].
Qed.

Record line_ok (l : string) : Prop := { lo_break : no_break l; lo_key : starts_key l; lo_ends : ends_plain l; lo_trim : trim l = l }.
Lemma ends_plain_app s t : ends_plain t → ends_plain (s +:+ t).
Proof. intros (t' & a & -> & Ha). exists (s +:+ t')%string, a. by rewrite <-(assoc_L String.append). Qed.

Lemma written_line_ok kt kv : written_line kt kv → line_ok (flow_entry kt).
Proof.
  destruct kt as [k t]. intros (_ & Hk & Hd & [_ _ Ht Hl]). unfold flow_entry. cbn [fst snd] in *.
  destruct (is_word_cons _ Hk) as (c & k' & -> & Hc & Hw). pose proof (word_char_ok _ Hc) as Hp.
  assert (ends_plain (String c k' +:+ ": " +:+ t)) as He by by apply ends_plain_app, ends_plain_app.
  split; [| |exact He|].
  - unfold no_break. rewrite !str_has_app, (word_line _ Hw), Hl. done.
  - exact Hd.
  - apply trim_id. split; [by apply no_lead_head, pc_lead|]. destruct He as (l' & b & -> & Hb). by apply no_trail_last.
Qed.

Lemma read_lines_written kts kvs : Forall2 written_line kts kvs → ∀ n top,
  read_lines n top (flow_entry <$> kts) = inr (insert_all top kvs).
Proof.
  induction 1 as [|kt kv kts kvs H _ IH]; intros n top; [done|]. rewrite fmap_cons. cbn [read_lines].
  destruct (written_line_ok _ _ H) as [_ _ He Ht]. rewrite Ht. destruct (ends_plain_cr _ He) as [_ Hne]. rewrite Hne.
  destruct kt as [k t], H as (Ek & Hk & _ & Hw). cbn [fst snd] in *. unfold flow_entry. cbn [fst snd].
  change (": " +:+ t)%string with (String ":" (String " " t)).
  destruct (is_word_cons _ Hk) as (_ & _ & _ & _ & Hw'). rewrite split_once_first by by apply word_has_no_colon.
  rewrite value_space, (is_word_trim _ Hk), Ek.
  pose proof (wr_reads _ _ Hw (value_fuel (String " " t)) "" eq_refl) as Hr. rewrite (right_id_L "" String.append) in Hr.
  rewrite Hr by (unfold value_fuel; simpl; lia). cbn [and_then fst snd]. apply IH.
Qed.

(** A document whose front matter is these lines. *)
Lemma document_written parse kts kvs rest : kts ≠ [] → Forall2 written_line kts kvs →
  parse_front_matter parse (fence_open +:+ String.concat "" (line_of <$> kts) +:+ "---" +:+ rest) =
  read_fields parse (insert_all ∅ kvs).
Proof.
  intros Hn H. set (ls := flow_entry <$> kts).
  assert (ls ≠ []) as Hls by by destruct kts.
  assert (Forall line_ok ls) as Hok.
  { subst ls. clear Hn Hls. induction H as [|kt kv kts kvs Hw _ IH]; [constructor|]. constructor; [by eapply written_line_ok|done]. }
  assert (line_of <$> kts = (λ l, l +:+ String newline "")%string <$> ls) as ->.
  { subst ls. by rewrite <-list_fmap_compose. }
  unfold parse_front_matter, fenced. rewrite lines_block by done. rewrite <-!(assoc_L String.append).
  assert (∀ s, strip_prefix fence_open (fence_open +:+ s) = Some s) as -> by by intros s; apply strip_prefix_Some.
  change (String newline "" +:+ "---" +:+ rest)%string with (fence_close +:+ rest)%string.
  rewrite before_match_block; [|done|eapply Forall_impl; [exact Hok|by intros ? []]..]. cbn [and_then].
  rewrite block_lines; [|done|eapply Forall_impl; [exact Hok|by intros ? []]..].
  subst ls. by rewrite (read_lines_written _ _ H).
Qed.

(** ** Front matter: the round trip *)

Definition text_value (n : N) : FlowValue := VBare (pretty n).
Definition counts_value (c : SourceCounts) : FlowValue :=
  VMap (insert_all ∅ [("filter", text_value (sc_filter c)); ("pre_trigger", text_value (sc_pre_trigger c));
                      ("post_trigger", text_value (sc_post_trigger c))]%string).
Definition pointer_value (p : FilePointer) : FlowValue :=
  VMap (insert_all ∅ ([("file", VStr (fp_file p)); ("records", text_value (fp_records p))]%string ++
                      match fp_by_source p with Some c => [("by_source"%string, counts_value c)] | None => [] end)).
Definition narrowed_value (n : Epoch.NarrowedSpan) : FlowValue :=
  VMap (insert_all ∅ [("from", text_value (Epoch.from_seq n)); ("to", text_value (Epoch.to_seq n));
                      ("filters", VSeq (VStr <$> ns_filters n))]%string).
Definition core_text (registry : list RegistryFact) : string :=
  pretty (core_coverage registry).1 +:+ " of " +:+ pretty (length CORE_KEYS).

(** What a document says, for what was written into it. *)
Definition file_ref_of (p : FilePointer) : FileRef := mkFileRef (fp_file p) (fp_records p) (fp_by_source p).
(** The reader takes the text [null] for no incarnation. *)
Definition known_incarnation (o : option string) : option string :=
  match o with Some v => if String.eqb v "null" then None else Some v | None => None end.
Definition front_of {X : Externals} (i : CaseInput) : FrontMatter :=
  let a := ci_anchor i in
  let w := ci_window i in
  mkFront (ci_stem i) CASE_FORMAT_VERSION (ci_captured_at i) (ci_domain i) (known_incarnation (ci_incarnation i)) (ci_reason i)
    (mkAnchorRef (an_kind a) (an_label a) (an_seq a) (an_at a)) (an_message a) (wi_verdict w)
    (mkSeqRange (wi_from w) (wi_to w) (wi_short_before w) (wi_short_after w) (wi_clamped w))
    (file_ref_of <$> ci_logdata i) (file_ref_of <$> ci_spandata i)
    (Some ((λ n, mkNarrowed (Epoch.from_seq n) (Epoch.to_seq n) (ns_filters n)) <$> wi_narrowed_by w))
    (mkProvenance (core_text (ci_registry i)) (core_coverage (ci_registry i)).2)
    (insert_all ∅ ((λ f, (sf_key f, sf_value f)) <$> ci_asserted i)).

(** The numbers are machine integers, the stem and the anchor's kind are words,
    and chrono reads back the two timestamps that it printed. *)
Definition fits (n : N) : Prop := n ≤ u64_max.
Record pointer_fits (p : FilePointer) : Prop := {
  pf_records : fits (fp_records p);
  pf_counts c : fp_by_source p = Some c → fits (sc_filter c) ∧ fits (sc_pre_trigger c) ∧ fits (sc_post_trigger c);
}.
Record writable {X : Externals} (to_rfc3339 : Z → string) (parse : string → option Z) (i : CaseInput) : Prop := {
  wt_stem : is_word (ci_stem i) = true;
  wt_kind : is_word (an_kind (ci_anchor i)) = true;
  wt_anchor : fits (an_seq (ci_anchor i));
  wt_window : Forall fits [wi_from (ci_window i); wi_to (ci_window i); wi_short_before (ci_window i); wi_short_after (ci_window i)];
  wt_narrowed : Forall (λ n, fits (Epoch.from_seq n) ∧ fits (Epoch.to_seq n)) (wi_narrowed_by (ci_window i));
  wt_logdata p : ci_logdata i = Some p → pointer_fits p;
  wt_spandata p : ci_spandata i = Some p → pointer_fits p;
  wt_captured : parse (to_rfc3339 (ci_captured_at i)) = Some (ci_captured_at i);
  wt_at : parse (to_rfc3339 (an_at (ci_anchor i))) = Some (an_at (ci_anchor i));
}.

Create HintDb written.

Section roundtrip.
Context {X : Externals} (to_rfc3339 : Z → string) (parse : string → option Z).

Definition anchor_value (a : CaseAnchor) : FlowValue :=
  VMap (insert_all ∅ [("kind", VBare (an_kind a)); ("value", VStr (an_label a)); ("seq", text_value (an_seq a));
                      ("at", VStr (to_rfc3339 (an_at a)))]%string).
Definition range_value (w : CaseWindow) : FlowValue :=
  VMap (insert_all ∅ [("from", text_value (wi_from w)); ("to", text_value (wi_to w));
                      ("requested_before_missing", text_value (wi_short_before w));
                      ("requested_after_missing", text_value (wi_short_after w)); ("clamped", VBare (bool_str (wi_clamped w)))]%string).
Definition provenance_value (registry : list RegistryFact) : FlowValue :=
  VMap (insert_all ∅ [("core", VStr (core_text registry)); ("missing", VSeq (VStr <$> (core_coverage registry).2))]%string).
Definition facts_value (fs : list ScopedFact) : FlowValue := VMap (insert_all ∅ ((λ f, (sf_key f, VStr (sf_value f))) <$> fs)).

Definition front_values (i : CaseInput) : list (string * FlowValue) :=
  [("case", VBare (ci_stem i)); ("logmon_format", text_value CASE_FORMAT_VERSION);
   ("captured_at", VStr (to_rfc3339 (ci_captured_at i))); ("domain", VStr (ci_domain i));
   ("incarnation", match ci_incarnation i with Some v => VStr v | None => VBare "null" end);
   ("reason", VStr (ci_reason i)); ("anchor", anchor_value (ci_anchor i)); ("headline", VStr (an_message (ci_anchor i)));
   ("verdict", VBare (verdict_str (wi_verdict (ci_window i)))); ("seq_range", range_value (ci_window i))]%string ++
  match ci_logdata i with Some p => [("logdata"%string, pointer_value p)] | None => [] end ++
  match ci_spandata i with Some p => [("spandata"%string, pointer_value p)] | None => [] end ++
  [("narrowed_by", VSeq (narrowed_value <$> wi_narrowed_by (ci_window i))); ("provenance", provenance_value (ci_registry i));
   ("asserted", facts_value (ci_asserted i))]%string.

Lemma named_written k t v : is_word k = true → written t v → written_entry (k, t) (k, v).
Proof. intros Hk Hw. split; [by apply word_key|done]. Qed.

Lemma texts_written l : written (flow_seq_text (yaml_str <$> l)) (VSeq (VStr <$> l)).
Proof. apply seq_written. induction l as [|t l IH]; [constructor|]. rewrite !fmap_cons. constructor; [apply yaml_str_written|done]. Qed.

(** Text that needs no escape. *)
Lemma yaml_str_plain s : yaml_body s = s → String quote (s +:+ String quote "") = yaml_str s.
Proof. unfold yaml_str. by intros ->. Qed.

Lemma core_written registry :
  written (String quote (pretty (core_coverage registry).1 +:+ " of " +:+ pretty (length CORE_KEYS) +:+ String quote ""))
    (VStr (core_text registry)).
Proof.
  assert ((core_coverage registry).1 ≤ 3)%nat as H by (simpl; lia). unfold core_text.
  rewrite (assoc_L String.append), (assoc_L String.append), <-(assoc_L String.append (pretty _)), yaml_str_plain; [apply yaml_str_written|].
  destruct (core_coverage registry).1 as [|[|[|[|n]]]]; [vm_compute; reflexivity..|lia].
Qed.

Lemma bool_written b : written (bool_str b) (VBare (bool_str b)).
Proof. destruct b; by apply word_written. Qed.
Lemma verdict_written v : written (verdict_str v) (VBare (verdict_str v)).
Proof. destruct v; by apply word_written. Qed.
Lemma text_written n : fits n → written (pretty n) (text_value n).
Proof. apply number_written. Qed.

#[local] Hint Resolve yaml_str_written text_written bool_written verdict_written texts_written core_written : written.

(** The entries of a record, one value's lemma each. *)
Ltac entries := repeat (apply Forall2_cons; split; [apply named_written; [reflexivity|auto with written]|]); try apply Forall2_nil; try done.

Lemma pointer_written p : pointer_fits p → written (file_pointer p) (pointer_value p).
Proof.
  intros [Hr Hc]. unfold file_pointer, pointer_value. apply map_written. destruct (fp_by_source p) as [c|]; simpl.
  - destruct (Hc c eq_refl) as (H1 & H2 & H3).
    assert (written (by_source_text c) (counts_value c)) by (apply map_written; entries). entries.
  - entries.
Qed.
Lemma narrowed_written l : Forall (λ n, fits (Epoch.from_seq n) ∧ fits (Epoch.to_seq n)) l →
  written (flow_seq_text (narrowed_text <$> l)) (VSeq (narrowed_value <$> l)).
Proof.
  intros H. apply seq_written. induction H as [|n l [H1 H2] _ IH]; [constructor|]. rewrite !fmap_cons. constructor; [|done].
  apply map_written. entries.
Qed.
Lemma facts_written fs : written (flow_map_text ((λ f, (yaml_str (sf_key f), yaml_str (sf_value f))) <$> fs)) (facts_value fs).
Proof.
  apply map_written. induction fs as [|f fs IH]; [constructor|]. rewrite !fmap_cons. constructor; [|done].
  split; [apply yaml_str_key|apply yaml_str_written].
Qed.

Lemma line_written k t v : is_word k = true → starts_key k → written t v → written_line (k, t) (k, v).
Proof. done. Qed.
Lemma option_written {A} (o : option A) k t v : is_word k = true → starts_key k → (∀ p, o = Some p → written (t p) (v p)) →
  Forall2 written_line (match o with Some p => [(k, t p)] | None => [] end) (match o with Some p => [(k, v p)] | None => [] end).
Proof. intros Hk Hd H. destruct o; [|constructor]. constructor; [|constructor]. by apply line_written, H. Qed.

Lemma window_written w : Forall fits [wi_from w; wi_to w; wi_short_before w; wi_short_after w] →
  written (seq_range_text w) (range_value w).
Proof. rewrite !Forall_cons. intros (H1 & H2 & H3 & H4 & _). apply map_written. entries. Qed.
Lemma anchor_written a : is_word (an_kind a) = true → fits (an_seq a) → written (anchor_text to_rfc3339 a) (anchor_value a).
Proof. intros Hk Hs. pose proof (word_written _ Hk). apply map_written. entries. Qed.
Lemma provenance_written registry : written (provenance_text registry) (provenance_value registry).
Proof.
  unfold provenance_text, provenance_value. pose proof (core_written registry) as Hc. unfold core_text in *.
  destruct (core_coverage registry) as [core missing]. apply map_written. entries.
Qed.
Lemma incarnation_written o :
  written (match o with Some v => yaml_str v | None => "null" end) (match o with Some v => VStr v | None => VBare "null" end).
Proof. destruct o; [apply yaml_str_written|by apply word_written]. Qed.

#[local] Hint Resolve pointer_written narrowed_written facts_written window_written anchor_written provenance_written
  incarnation_written : written.

Lemma front_written i : writable to_rfc3339 parse i → Forall2 written_line (front_entries to_rfc3339 i) (front_values i).
Proof.
  intros H. pose proof (word_written _ (wt_stem _ _ _ H)). pose proof (wt_kind _ _ _ H). pose proof (wt_anchor _ _ _ H).
  pose proof (wt_window _ _ _ H). pose proof (wt_narrowed _ _ _ H). assert (fits CASE_FORMAT_VERSION) by done.
  repeat apply Forall2_app;
    repeat (apply Forall2_cons; split; [apply line_written; [reflexivity|reflexivity|auto with written]|]); try apply Forall2_nil; try done.
  - apply option_written; [done|done|]. intros p Hp. apply pointer_written. by apply (wt_logdata _ _ _ H).
  - apply option_written; [done|done|]. intros p Hp. apply pointer_written. by apply (wt_spandata _ _ _ H).
Qed.

(** *** Reading the fields back *)

Fixpoint last_of {A} (k : string) (kvs : list (string * A)) : option A :=
  match kvs with
  | [] => None
  | kv :: kvs => match last_of k kvs with Some v => Some v | None => if String.eqb kv.1 k then Some kv.2 else None end
  end.
Lemma insert_all_lookup {A} (kvs : list (string * A)) k : ∀ m,
  insert_all m kvs !! k = match last_of k kvs with Some v => Some v | None => m !! k end.
Proof.
  induction kvs as [|[k' v] kvs IH]; intros m; [done|]. simpl. rewrite IH. destruct (last_of k kvs); [done|].
  destruct (String.eqb_spec k' k) as [->|]; by simplify_map_eq.
Qed.

Lemma insert_all_fmap {A B} (f : A → B) (kvs : list (string * A)) : ∀ m,
  insert_all (f <$> m) ((λ kv, (kv.1, f kv.2)) <$> kvs) = f <$> insert_all m kvs.
Proof. induction kvs as [|[k v] kvs IH]; intros m; [done|]. rewrite fmap_cons. simpl. by rewrite <-fmap_insert, IH. Qed.

Lemma number_read n key : fits n → as_u64 (text_value n) key = inr n.
Proof.
  intros H. unfold as_u64, text_value. simpl. unfold parse_u64. destruct (pretty_digits n H) as [Hp Hd].
  assert (strip_prefix "+" (pretty n) = None) as ->.
  { destruct (pretty n) as [|c s]; [done|]. cbn [strip_prefix]. destruct (Ascii.eqb "+" c) eqn:E; [|reflexivity]. by apply Ascii.eqb_eq in E as <-. }
  destruct (String.eqb_spec (pretty n) "") as [E|_]; [by apply pretty_not_empty in E|]. by rewrite Hd, Hp.
Qed.
Lemma bool_read b key : as_bool (VBare (bool_str b)) key = inr b.
Proof. by destruct b. Qed.
Lemma texts_read l key : collect (λ v, as_text v key) (VStr <$> l) = inr l.
Proof. induction l as [|t l IH]; [done|]. rewrite fmap_cons. simpl. by rewrite IH. Qed.

Ltac fields :=
  repeat first [progress unfold take_key, sub_key | rewrite insert_all_lookup | progress cbn [and_then last_of String.eqb Ascii.eqb Bool.eqb fst snd as_map as_seq as_text app]
               | rewrite number_read by done | rewrite bool_read | rewrite texts_read]; try reflexivity.

Lemma anchor_read top a : top !! "anchor"%string = Some (anchor_value a) → fits (an_seq a) → parse (to_rfc3339 (an_at a)) = Some (an_at a) →
  read_anchor parse top = inr (mkAnchorRef (an_kind a) (an_label a) (an_seq a) (an_at a)).
Proof.
  intros Ht Hs Hp. unfold read_anchor, take_key. rewrite Ht. unfold anchor_value. fields. unfold as_time. fields. by rewrite Hp.
Qed.

Lemma range_read top w : top !! "seq_range"%string = Some (range_value w) →
  Forall fits [wi_from w; wi_to w; wi_short_before w; wi_short_after w] →
  read_seq_range top = inr (mkSeqRange (wi_from w) (wi_to w) (wi_short_before w) (wi_short_after w) (wi_clamped w)).
Proof.
  intros Ht. rewrite !Forall_cons. intros (H1 & H2 & H3 & H4 & _). unfold read_seq_range, take_key. rewrite Ht. unfold range_value. fields.
Qed.

Lemma pointer_read top key o : top !! key = pointer_value <$> o → (∀ p, o = Some p → pointer_fits p) →
  file_ref top key = inr (file_ref_of <$> o).
Proof.
  intros Ht Ho. unfold file_ref. rewrite Ht. destruct o as [p|]; [|done]. destruct (Ho p eq_refl) as [Hr Hc].
  unfold file_ref_of, pointer_value, read_by_source, counts_value. cbn [fmap option_fmap option_map].
  destruct (fp_by_source p) as [c|]; [destruct (Hc c eq_refl) as (H1 & H2 & H3); destruct c; cbn in H1, H2, H3|]; fields.
Qed.

Lemma narrowed_read top l : top !! "narrowed_by"%string = Some (VSeq (narrowed_value <$> l)) →
  Forall (λ n, fits (Epoch.from_seq n) ∧ fits (Epoch.to_seq n)) l →
  read_narrowed_by top = inr (Some ((λ n, mkNarrowed (Epoch.from_seq n) (Epoch.to_seq n) (ns_filters n)) <$> l)).
Proof.
  intros Ht H. unfold read_narrowed_by. rewrite Ht. cbn [as_seq and_then].
  assert (collect read_narrowed_span (narrowed_value <$> l) =
          inr ((λ n, mkNarrowed (Epoch.from_seq n) (Epoch.to_seq n) (ns_filters n)) <$> l)) as ->; [|done].
  clear Ht. induction H as [|n l [H1 H2] _ IH]; [done|]. rewrite !fmap_cons. cbn [collect].
  assert (read_narrowed_span (narrowed_value n) = inr (mkNarrowed (Epoch.from_seq n) (Epoch.to_seq n) (ns_filters n))) as ->.
  { unfold read_narrowed_span, narrowed_value. fields. }
  cbn [and_then]. by rewrite IH.
Qed.

Lemma provenance_read top registry : top !! "provenance"%string = Some (provenance_value registry) →
  read_provenance top = inr (mkProvenance (core_text registry) (core_coverage registry).2).
Proof. intros Ht. unfold read_provenance, take_key. rewrite Ht. unfold provenance_value. fields. Qed.

Definition text_of (v : FlowValue) : string := match v with VStr s | VBare s => s | _ => EmptyString end.
Lemma collect_texts kvs : (∀ kv, kv ∈ kvs → ∃ s, kv.2 = VStr s) →
  collect (λ kv : string * FlowValue, let! s := as_text kv.2 "asserted" in inr (kv.1, s)) kvs = inr (prod_map id text_of <$> kvs).
Proof.
  induction kvs as [|[k v] kvs IH]; [done|]. intros H. destruct (H (k, v) ltac:(by left)) as [s E]. simpl in E. subst v.
  rewrite fmap_cons. simpl. rewrite IH; [done|]. intros kv Hkv. apply H. by right.
Qed.

Lemma facts_read top fs : top !! "asserted"%string = Some (facts_value fs) →
  read_asserted top = inr (insert_all ∅ ((λ f, (sf_key f, sf_value f)) <$> fs)).
Proof.
  intros Ht. unfold read_asserted. rewrite Ht. unfold facts_value. cbn [as_map and_then].
  set (m := insert_all ∅ ((λ f, (sf_key f, sf_value f)) <$> fs)).
  assert (insert_all ∅ ((λ f, (sf_key f, VStr (sf_value f))) <$> fs) = VStr <$> m) as ->.
  { unfold m. rewrite <-insert_all_fmap, fmap_empty, <-list_fmap_compose. done. }
  rewrite collect_texts; cbn [and_then].
  - rewrite list_to_map_fmap, list_to_map_to_list, <-map_fmap_compose. f_equal. by rewrite <-(map_fmap_id m) at 2.
  - intros [k v] [s [<- _]]%elem_of_map_to_list%lookup_fmap_Some. by exists s.
Qed.

Lemma verdict_read top v : top !! "verdict"%string = Some (VBare (verdict_str v)) → read_verdict top = inr v.
Proof. intros Ht. unfold read_verdict, take_key. rewrite Ht. by destruct v. Qed.
Lemma incarnation_read top o :
  top !! "incarnation"%string = Some (match o with Some v => VStr v | None => VBare "null" end) →
  read_incarnation top = inr (known_incarnation o).
Proof.
  intros Ht. unfold read_incarnation, take_key. rewrite Ht. by destruct o as [v|].
Qed.

Lemma front_value i k v : last_of k (front_values i) = v → insert_all ∅ (front_values i) !! k = v.
Proof. intros <-. rewrite insert_all_lookup. by destruct (last_of k (front_values i)). Qed.
Lemma front_pointers i :
  last_of "logdata" (front_values i) = pointer_value <$> ci_logdata i ∧
  last_of "spandata" (front_values i) = pointer_value <$> ci_spandata i.
Proof. unfold front_values. by destruct (ci_logdata i), (ci_spandata i). Qed.

(** A key's value, whichever evidence the document points at. *)
Ltac front_key := apply front_value; unfold front_values;
  match goal with i : CaseInput |- _ => destruct (ci_logdata i), (ci_spandata i); reflexivity end.

Lemma take_front top k v : top !! k = Some v → take_key top k = inr v.
Proof. unfold take_key. by intros ->. Qed.

Lemma fields_read i : writable to_rfc3339 parse i → read_fields parse (insert_all ∅ (front_values i)) = inr (front_of i).
Proof.
  intros [Hs Hk Ha Hw Hn Hl Hsp Hc Hat]. destruct (front_pointers i) as [El Es]. unfold read_fields.
  rewrite (take_front _ "logmon_format" (text_value CASE_FORMAT_VERSION)) by front_key. cbn [and_then].
  rewrite number_read by done. cbn [and_then].
  replace (CASE_FORMAT_VERSION <? N.min CASE_FORMAT_VERSION u32_max) with false by reflexivity.
  rewrite (anchor_read _ (ci_anchor i)) by first [done | front_key]. cbn [and_then].
  rewrite (range_read _ (ci_window i)) by first [done | front_key]. cbn [and_then].
  rewrite (narrowed_read _ (wi_narrowed_by (ci_window i))) by first [done | front_key]. cbn [and_then].
  rewrite (provenance_read _ (ci_registry i)) by front_key. cbn [and_then].
  rewrite (facts_read _ (ci_asserted i)) by front_key. cbn [and_then].
  rewrite (incarnation_read _ (ci_incarnation i)) by first [done | front_key]. cbn [and_then].
  rewrite (verdict_read _ (wi_verdict (ci_window i))) by front_key. cbn [and_then].
  rewrite (take_front _ "case" (VBare (ci_stem i))) by front_key. cbn [and_then as_text].
  rewrite (take_front _ "captured_at" (VStr (to_rfc3339 (ci_captured_at i)))) by front_key.
  unfold as_time at 1. cbn [and_then as_text]. rewrite Hc. cbn [and_then].
  rewrite (take_front _ "domain" (VStr (ci_domain i))) by front_key. cbn [and_then as_text].
  rewrite (take_front _ "reason" (VStr (ci_reason i))) by front_key. cbn [and_then as_text].
  rewrite (take_front _ "headline" (VStr (an_message (ci_anchor i)))) by front_key. cbn [and_then as_text].
  rewrite (pointer_read _ "logdata" (ci_logdata i)) by first [done | by apply front_value].
  cbn [and_then]. rewrite (pointer_read _ "spandata" (ci_spandata i)) by first [done | by apply front_value].
  reflexivity.
Qed.
End roundtrip.

(** ** Front matter: the reader always answers *)

Lemma skip_ws_length s : (String.length (skip_ws s) ≤ String.length s)%nat.
Proof. induction s as [|c s IH]; [done|]. simpl. destruct (_ || _); simpl; lia. Qed.

Lemma take_until_length stop s : (String.length (take_until stop s).2 ≤ String.length s)%nat.
Proof. induction s as [|c s IH]; [done|]. simpl. destruct (stop c); [done|]. destruct (take_until stop s). simpl in *. lia. Qed.

Lemma scan_quoted_length s raw rest : scan_quoted s = Some (raw, rest) → (String.length rest < String.length s)%nat.
Proof.
  revert raw rest. induction s as [s IH] using (induction_ltof1 _ String.length). unfold ltof in IH. intros raw rest.
  destruct s as [|c s]; [done|]. simpl in IH. cbn [scan_quoted]. destruct (Ascii.eqb c quote); [intros [= _ <-]; simpl; lia|].
  destruct (Ascii.eqb c backslash).
  - destruct s as [|e s]; [done|]. intros ([a b] & E & [= _ ->])%fmap_Some. apply IH in E; simpl in *; lia.
  - intros ([a b] & E & [= _ ->])%fmap_Some. apply IH in E; simpl in *; lia.
Qed.

Lemma quoted_length s out rest : quoted s = inr (out, rest) → (String.length rest < String.length s)%nat.
Proof.
  unfold quoted. destruct (scan_quoted s) as [[raw r]|] eqn:E; [|done]. apply scan_quoted_length in E.
  by intros (a & _ & [= _ <-])%and_then_inr.
Qed.

Lemma map_key_length s key : map_key s = inr key → (String.length key.2 ≤ String.length s)%nat.
Proof.
  destruct s as [|c s]; [by intros [= <-]|]. unfold map_key. destruct (Ascii.eqb c quote).
  - destruct key as [k r]. intros H%quoted_length. simpl. lia.
  - pose proof (take_until_length ends_key (String c s)) as H. destruct (take_until _ _). by intros [= <-].
Qed.

Lemma bare_length s : (String.length (bare s).2 ≤ String.length s)%nat.
Proof. unfold bare. pose proof (take_until_length ends_bare s). by destruct (take_until _ _). Qed.

Lemma value_length fuel :
  (∀ s v, value fuel s = inr v → (String.length v.2 ≤ String.length s)%nat) ∧
  (∀ m s v, flow_map fuel m s = inr v → (String.length v.2 ≤ String.length s)%nat) ∧
  (∀ items s v, flow_seq fuel items s = inr v → (String.length v.2 ≤ String.length s)%nat).
Proof.
  induction fuel as [|fuel (IHv & IHm & IHs)]; [done|]. split_and!.
  - intros s v. pose proof (skip_ws_length s) as Hl. cbn [value]. destruct (skip_ws s) as [|c r]; [by intros [= <-]|]. simpl in Hl.
    case_goal; [intros ([o q] & H%quoted_length & [= <-])%and_then_inr; simpl; lia|].
    case_goal; [intros H%IHm; lia|]. case_goal; [intros H%IHs; lia|].
    pose proof (bare_length (String c r)) as Hb. destruct (bare _) as [w q]. intros [= <-]. simpl in *. lia.
  - intros m s v. pose proof (skip_ws_length s) as Hl. cbn [flow_map]. destruct (skip_ws s) as [|c r]; [done|]. simpl in Hl.
    case_goal; [intros [= <-]; simpl; lia|]. case_goal; [intros H%IHm; lia|].
    intros (key & Hk%map_key_length & H)%and_then_inr. pose proof (skip_ws_length key.2). simpl in Hk.
    destruct (skip_ws key.2) as [|d q]; [done|]. revert H. case_goal; [|done].
    intros (w & Hv%IHv & H%IHm)%and_then_inr. simpl in *. lia.
  - intros items s v. pose proof (skip_ws_length s) as Hl. cbn [flow_seq]. destruct (skip_ws s) as [|c r]; [done|]. simpl in Hl.
    case_goal; [intros [= <-]; simpl; lia|]. case_goal; [intros H%IHs; lia|].
    intros (w & Hv%IHv & H)%and_then_inr. revert H. case_goal; [done|]. intros H%IHs. simpl in *. lia.
Qed.

(** [r] is an answer of the code's. *)
Definition answers {A} (r : FrontError + A) : Prop := r ≠ inl Starved.

Lemma answers_then {A B} (r : FrontError + A) (f : A → FrontError + B) :
  answers r → (∀ a, r = inr a → answers (f a)) → answers (and_then r f).
Proof. unfold answers. destruct r as [e|a]; simpl; [congruence|auto]. Qed.

Lemma unescape_answers s : answers (unescape s).
Proof.
  induction s as [s IH] using (induction_ltof1 _ String.length). unfold ltof in IH.
  destruct s as [|c s]; [done|]. simpl in IH. cbn [unescape]. case_goal.
  { apply answers_then; [apply IH; lia|done]. }
  destruct s as [|e s]; [done|]. simpl in IH. destruct (escape_char e).
  { apply answers_then; [apply IH; lia|done]. }
  case_goal; [|done]. destruct s as [|h [|l s]]; [done..|]. simpl in IH. destruct (parse_hex _ _); [|done].
  apply answers_then; [apply IH; lia|done].
Qed.
Lemma quoted_answers s : answers (quoted s).
Proof. unfold quoted. destruct (scan_quoted s) as [[raw r]|]; [|done]. apply answers_then; [apply unescape_answers|done]. Qed.
Lemma map_key_answers s : answers (map_key s).
Proof. destruct s as [|c s]; [done|]. unfold map_key. case_goal; [apply quoted_answers|]. by destruct (take_until _ _). Qed.

(** The fuel that is enough: the text, twice over. *)
Lemma value_fed fuel :
  (∀ s, (2 * String.length s < fuel)%nat → answers (value fuel s)) ∧
  (∀ m s, (2 * String.length s + 1 < fuel)%nat → answers (flow_map fuel m s)) ∧
  (∀ items s, (2 * String.length s + 1 < fuel)%nat → answers (flow_seq fuel items s)).
Proof.
  induction fuel as [|fuel (IHv & IHm & IHs)]; [split_and!; intros; lia|]. split_and!.
  - intros s Hf. pose proof (skip_ws_length s) as Hl. cbn [value]. destruct (skip_ws s) as [|c r]; [done|]. simpl in Hl.
    case_goal; [apply answers_then; [apply quoted_answers|done]|].
    case_goal; [apply IHm; lia|]. case_goal; [apply IHs; lia|]. by destruct (bare _).
  - intros m s Hf. pose proof (skip_ws_length s) as Hl. cbn [flow_map]. destruct (skip_ws s) as [|c r]; [done|]. simpl in Hl.
    case_goal; [done|]. case_goal; [apply IHm; lia|]. apply answers_then; [apply map_key_answers|].
    intros key Hk%map_key_length. pose proof (skip_ws_length key.2). simpl in Hk. destruct (skip_ws key.2) as [|d q]; [done|]. simpl in *.
    case_goal; [|done]. apply answers_then; [apply IHv; lia|]. intros w Hv%value_length. apply IHm. lia.
  - intros items s Hf. pose proof (skip_ws_length s) as Hl. cbn [flow_seq]. destruct (skip_ws s) as [|c r]; [done|]. simpl in Hl.
    case_goal; [done|]. case_goal; [apply IHs; lia|]. apply answers_then; [apply IHv; simpl; lia|].
    intros w Hv%value_length. destruct (Nat.eqb_spec (String.length w.2) (String.length (String c r))) as [|Hne]; [done|].
    apply IHs. simpl in *. lia.
Qed.

Lemma collect_answers {A B} (f : A → FrontError + B) l : (∀ a, answers (f a)) → answers (collect f l).
Proof. intros H. induction l as [|a l IH]; [done|]. simpl. apply answers_then; [apply H|]. intros b _. by apply answers_then. Qed.

Section answers.
Context (parse : string → option Z).

Lemma as_text_answers v key : answers (as_text v key).
Proof. by destruct v. Qed.
Lemma as_map_answers v key : answers (as_map v key).
Proof. by destruct v. Qed.
Lemma as_seq_answers v key : answers (as_seq v key).
Proof. by destruct v. Qed.
Lemma take_key_answers top key : answers (take_key top key).
Proof. unfold take_key. by destruct (top !! key). Qed.
Lemma sub_key_answers m outer inner : answers (sub_key m outer inner).
Proof. unfold sub_key. by destruct (m !! inner). Qed.

Create HintDb answers.
#[local] Hint Resolve as_text_answers as_map_answers as_seq_answers take_key_answers sub_key_answers collect_answers : answers.

(** A chain of accessors, each of which answers. *)
Ltac answering :=
  repeat first [ solve [eauto with answers] | apply answers_then; [|intros ? _] | apply collect_answers; intros ?
               | match goal with |- answers (match ?x with _ => _ end) => destruct x end | done ].

Lemma as_u64_answers v key : answers (as_u64 v key).
Proof. unfold as_u64. answering. Qed.
Lemma as_bool_answers v key : answers (as_bool v key).
Proof. unfold as_bool. answering. Qed.
Lemma as_time_answers v key : answers (as_time parse v key).
Proof. unfold as_time. answering. Qed.
#[local] Hint Resolve as_u64_answers as_bool_answers as_time_answers : answers.

Lemma read_fields_answers top : answers (read_fields parse top).
Proof.
  unfold read_fields, read_anchor, read_seq_range, read_narrowed_by, read_narrowed_span, read_provenance, read_asserted,
    read_incarnation, read_verdict, file_ref, read_by_source. answering.
Qed.

Lemma read_lines_answers lines : ∀ n top, answers (read_lines n top lines).
Proof.
  induction lines as [|l lines IH]; intros n top; [done|]. cbn [read_lines]. case_goal; [apply IH|].
  destruct (split_once ":" (trim l)) as [[k r]|]; [|done]. apply answers_then; [|intros v _; apply IH].
  apply value_fed. unfold value_fuel. lia.
Qed.

Lemma parse_front_matter_answers doc : answers (parse_front_matter parse doc).
Proof.
  unfold parse_front_matter, fenced. apply answers_then.
  - destruct (strip_prefix _ _); [|done]. by destruct (before_match _ _).
  - intros block _. apply answers_then; [apply read_lines_answers|]. intros top _. apply read_fields_answers.
Qed.
End answers.

(** The stems that captures make are words: a prefix of [resolve_prefix], a dash
    and the digits of the time. *)
Lemma safe_name_word s : str_forall word_char (safe_name s) = true.
Proof.
  induction s as [|c s IH]; [done|]. cbn [safe_name]. destruct (is_continuation c); [done|]. cbn [str_forall]. rewrite IH, andb_true_r.
  unfold word_char. destruct (is_ascii_alphanumeric c || Ascii.eqb c "-" || Ascii.eqb c "_") eqn:E; done.
Qed.
Lemma substring_forall p n s : str_forall p s = true → str_forall p (String.substring 0 n s) = true.
Proof.
  revert n. induction s as [|c s IH]; intros [|n]; try done. simpl. intros [-> H]%andb_true_iff. by apply IH.
Qed.
Lemma usable_prefix_word raw p : usable_prefix raw = Some p → is_word p = true.
Proof.
  unfold usable_prefix. destruct (str_forall _ _) eqn:E; [done|]. intros [= <-]. unfold is_word.
  rewrite (substring_forall _ _ _ (safe_name_word raw)), andb_true_r. apply negb_true_iff, String.eqb_neq. intros E0. by rewrite E0 in E.
Qed.
Lemma resolve_prefix_word param case_name domain digits : str_forall word_char digits = true →
  is_word (resolve_prefix param case_name domain +:+ "-" +:+ digits) = true.
Proof.
  intros Hd. assert (∀ p, is_word p = true → is_word (p +:+ "-" +:+ digits) = true) as Happ.
  { intros p (c & w & -> & _ & Hp)%is_word_cons. unfold is_word. rewrite !str_forall_app, Hp, Hd. done. }
  apply Happ. unfold resolve_prefix.
  assert (∀ o k, is_word k = true → is_word (match o ≫= usable_prefix with Some p => p | None => k end) = true) as H.
  { intros o k Hk. destruct (o ≫= usable_prefix) as [p|] eqn:E; [|done]. apply bind_Some in E as (raw & _ & E). by apply usable_prefix_word in E. }
  by apply H, H, H.
Qed.

(** C18: What the capture writes in front of a case document, the loader reads
    back, whatever the document says behind its closing fence: the domain, the
    reason, the headline, the anchor's value, the files' names, the filters and the
    facts whatever text they hold, every 64-bit number, range and count, which
    evidence was omitted, and of facts under one key the last. An incarnation comes
    back too, but for one of the text [null], which reads as none; the stem and the
    anchor's kind are written without quotes, and come back if they are made of
    letters, digits, dashes and underscores, as [resolve_prefix] makes a stem
    ([resolve_prefix_word]); the timestamps if chrono reads back what it prints.
    And the scanner ends on any bytes at all, in a case or an error, for its calls
    never nest deeper than twice the text is long; the stack that such a nesting
    takes is not modelled. *)
Theorem front_matter_roundtrip {X : Externals} to_rfc3339 parse :
  (∀ i rest, writable to_rfc3339 parse i → parse_front_matter parse (front_matter to_rfc3339 i +:+ rest) = inr (front_of i)) ∧
  (∀ doc, parse_front_matter parse doc ≠ inl Starved).
Proof.
  split; [|apply parse_front_matter_answers]. intros i rest H.
  unfold front_matter. change ("---" +:+ String newline "" +:+ ?s)%string with (fence_open +:+ s)%string.
  rewrite <-!(assoc_L String.append), (document_written _ _ (front_values to_rfc3339 i)); [|done|by apply (front_written _ parse)].
  by apply fields_read.
Qed.

(** *** What the reader takes that is never written *)

Definition flow_text (s : string) : FrontError + FlowValue := let! v := value (value_fuel s) s in inr v.1.

(** A sign in front of a hex digit: [\x+a] is a line break. *)
Example sign_in_escape :
  flow_text (String quote (letter "x" +:+ "+a" +:+ String quote "")) = inr (VStr (String newline "")).
Proof. vm_compute. reflexivity. Qed.

(** What stands behind a value on its line is not looked at. *)
Example trailing_text_ignored s t : flow_text (yaml_str s +:+ String " " t) = inr (VStr s).
Proof.
  unfold flow_text, value_fuel. rewrite yaml_str_app. cbn [value].
  change (skip_ws (String quote ?r)) with (String quote r). cbv iota. change (Ascii.eqb quote quote) with true. cbv iota.
  by rewrite quoted_yaml.
Qed.

Section front_sample.
Local Existing Instance sample_externals.
Definition sample_rfc3339 (t : Z) : string := pretty (Z.to_N t).
Definition sample_parse (s : string) : option Z := Z.of_N <$> parse_u64 s.
Definition sample_case : CaseInput :=
  mkCaseInput "x-1" 7%Z (bytes [65; 10; 194; 133; 34; 92; 226; 128; 168; 1]) (Some "i"%string) "why: {a, b}"
    (mkCaseAnchor "seq" "5" 5 3%Z "boom" None)
    (mkCaseWindow 3 9 Filtered [Epoch.mkNarrowed 3 5 ["l>=WARN"; "a, }b"]%string; Epoch.mkNarrowed 6 7 []] true 1 2 0 None None 0)
    (Some (mkFilePointer "x-1.logdata.jsonl" 2 (Some (mkSourceCounts 1 1 0)))) None []
    [mkFact "@/a" "b"; mkFact "@/a" "c: d"] [] [] [].
End front_sample.

Lemma front_matter_roundtrip_witness :
  writable (X := sample_externals) sample_rfc3339 sample_parse sample_case ∧
  fm_domain <$> match parse_front_matter sample_parse (front_matter sample_rfc3339 sample_case +:+ "# x") with
                | inr f => Some f | inl _ => None end = Some (ci_domain sample_case).
Proof.
  assert (writable (X := sample_externals) sample_rfc3339 sample_parse sample_case) as H.
  { assert (∀ n, (n <=? 9) = true → fits n) as Hf.
    { intros n Hn%N.leb_le. unfold fits. transitivity 9; [done|by vm_compute]. }
    split; [reflexivity|reflexivity|by apply Hf| | | |discriminate|reflexivity|reflexivity].
    - repeat (apply Forall_cons; split; [by apply Hf|]). by apply Forall_nil.
    - repeat (apply Forall_cons; split; [split; by apply Hf|]). by apply Forall_nil.
    - intros p [= <-]. split; [by apply Hf|]. intros c [= <-]. split_and!; by apply Hf. }
  split; [exact H|]. rewrite (proj1 (front_matter_roundtrip (X := sample_externals) sample_rfc3339 sample_parse) sample_case "# x" H). reflexivity.
Defined.
