(* ===== verification/Reads.v ===== *)
(** * Reads: the methods that query a domain ([daemon/rpc_handler.rs])

    A method is a function of the caller's domain ([None]: the one it is bound
    to is gone) and of the request's parameters, to a reply or a refusal and the
    domain after it. A reply is what is in its JSON, before its encoding. *)

From Stdlib Require Import SpecFloat.
From stdpp Require Import sorting.
From S2P Require Import Prelude Text F64 Gelf Filter Matcher SeqCounter Epoch Bookmarks Resolver MemStore Cursor Pipeline SpanStore DataFile Session Export Measure Threshold Collector History Project Diff LogProfile LogFields Params Metrics Domains.

Set Default Proof Using "Type".
Local Open Scope N_scope.
Local Open Scope rpc_scope.

Definition u128_max : N := 340282366920938463463374607431768211455.
Definition parse_hex128 (s : string) : option N := parse_hex u128_max s.

(** [f64::round]: half away from zero. *)
Definition f64_round (x : f64) : f64 :=
  match x with
  | S754_finite s m e =>
      if (0 <=? e)%Z then x
      else
        let d := (2 ^ (- e))%Z in
        let q := ((2 * Z.pos m + d) / (2 * d))%Z in
        if (q =? 0)%Z then S754_zero s else binary_normalize 53 1024 (if s then - q else q)%Z 0 s
  | _ => x
  end.

Inductive SlowGroupBy := SlowNone | SlowName.
Definition SlowGroupBy_ALL : list SlowGroupBy := [SlowNone; SlowName].
Definition slow_as_str (g : SlowGroupBy) : string := match g with SlowNone => "none" | SlowName => "name" end.
Definition slow_accepted : string := one_of (slow_as_str <$> SlowGroupBy_ALL).
Definition slow_parse (s : string) : option SlowGroupBy :=
  if String.eqb s "none" || String.eqb s "" then Some SlowNone
  else if String.eqb s "name" then Some SlowName
  else None.

Section reads.
Context {X : Externals} {J : JsonScalars} {JN : JsonNumbers} {JR : JsonReader}.

Definition vanished (id : string) : RpcError :=
  ErrText ("domain " +:+ dquote +:+ id +:+ dquote +:+ " no longer exists — use_domain to rebind").

Definition resolve_domain (id : string) (d : option BoundDomain) : RpcError + BoundDomain :=
  match d with Some d => inr d | None => inl (vanished id) end.

Definition require_evidence (d : option BoundDomain) (spans : bool) : RpcError + unit :=
  match d ≫= bd_postmortem with
  | None => inr tt
  | Some pm =>
      if negb (if spans then pm_spans_omitted pm else pm_logs_omitted pm) then inr tt
      else
        let what := if spans then "Span" else "Log" in
        let lower := if spans then "spans" else "logs" in
        err (what +:+ " evidence was OMITTED from the case `" +:+ pm_case pm +:+
             "` when it was captured, so this domain cannot answer questions about " +:+ lower +:+
             ". That is different from a capture that found none: an empty result here would read as a finding about the system rather than a fact about the capture. Re-capture with "
             +:+ lower +:+ " included, or read the case's document for what it does carry.")
  end.

Definition live_reason (op : string) : string :=
  let among := existsb (String.eqb op) in
  if among ["add_collector"; "edit_collector"; "remove_collector"; "snapshot_collector"; "reset_collector"] then
    "Collectors measure a running system. Armed on a case they would report zero forever, which reads as `I measured and nothing happened` rather than `I could not measure`. Use profile_traces or profile_logs, which project over the records already here."
  else if among ["add_trigger"; "edit_trigger"; "remove_trigger"] then
    "A trigger that cannot fire looks like an all-clear. Nothing will arrive on this domain to fire it."
  else if among ["add_filter"; "edit_filter"; "remove_filter"] then
    "Filters shape what gets STORED at ingest. With no ingest they would do nothing while you believed the domain had been narrowed. Filter the query instead."
  else if among ["clear_logs"; "clear_domain"] then
    "A live buffer refills; this one cannot. Deleting the domain is the honest way to discard a case."
  else if among ["update_domain_data"; "remove_domain_data"] then
    "This provenance was captured with the case and describes the machine it came from. Editing it here would make the document and the domain disagree about what was true."
  else if String.eqb op "create_case" then
    "These records are already an archive. Copy the case file rather than capturing it again — a second-generation case would carry today's captured_at over months-old evidence."
  else "Nothing arrives on a postmortem domain, so this would do nothing.".

Definition require_live (d : option BoundDomain) (op : string) : RpcError + unit :=
  match d with
  | Some d =>
      match bd_postmortem d with
      | None => inr tt
      | Some pm => err ("`" +:+ op +:+ "` is not available on `" +:+ bd_name d +:+ "`, which holds the loaded case `" +:+ pm_case pm +:+
                        "` rather than a running system. " +:+ live_reason op)
      end
  | None => inr tt
  end.

(** ** Filters *)

Definition lift_parse {A} (r : parse_res A) : RpcError + A := match r with inl e => inl (ErrParse e) | inr a => inr a end.
Definition blank (s : string) : bool := String.eqb (trim s) "".

Definition parse_and_resolve_filter (now : Z) (filter : option string) (session : string) (d : BoundDomain)
  : (RpcError + option ParsedFilter * option CursorCommit) * BookmarkStore :=
  let bs := bd_bookmarks d in
  match filter with
  | None => (inr (None, None), bs)
  | Some s =>
      if blank s then (inr (None, None), bs)
      else match parse_filter s with
           | inl e => (inl (ErrParse e), bs)
           | inr parsed =>
               let '(r, bs) := resolve_bookmarks_at now parsed session (late_counter (inner (lp_store (bd_pipeline d)))) bs in
               (match r with inl e => inl (ErrResolve e) | inr r => inr (Some (rf_filter r), rf_commit r) end, bs)
           end
  end.

(** The refusal of a cursor, before anything is resolved. *)
Definition refuse_cursor (filter : option string) (text : string) : RpcError + unit :=
  match filter with
  | None => inr tt
  | Some s =>
      if blank s then inr tt
      else let? parsed := lift_parse (parse_filter s) in
           if contains_cursor_qualifier parsed then err text else inr tt
  end.

Definition parse_and_resolve_filter_without_cursor (now : Z) (filter : option string) (session method : string) (d : BoundDomain)
  : (RpcError + option ParsedFilter) * BookmarkStore :=
  match refuse_cursor filter ("cursor qualifier not permitted in " +:+ method) with
  | inl e => (inl e, bd_bookmarks d)
  | inr _ =>
      let '(r, bs) := parse_and_resolve_filter now filter session d in
      (let? r := r in inr r.1, bs)
  end.

(** The filter of [logs.fields] and [logs.profile]: an absent one is [ALL]. *)
Definition whole_ring_filter (now : Z) (filter : option string) (session method : string) (d : BoundDomain)
  : (RpcError + ParsedFilter) * BookmarkStore :=
  let bs := bd_bookmarks d in
  let s := default "ALL" filter in
  match (if blank s then inr FAll else lift_parse (parse_filter s)) with
  | inl e => (inl e, bs)
  | inr parsed =>
      if contains_cursor_qualifier parsed
      then (err ("cursor qualifier not permitted in " +:+ method +:+ "; use b>= for a read-only window"), bs)
      else
        let '(r, bs) := resolve_bookmarks now parsed session bs in
        (match r with inl e => inl (ErrResolve e) | inr r => inr (rf_filter r) end, bs)
  end.

(** A method that may move bookmarks: [f] gives its outcome and the bookmarks after. *)
Definition on_domain {R} (id : string) (d : option BoundDomain) (f : BoundDomain → (RpcError + R) * BookmarkStore)
  : (RpcError + R) * option BoundDomain :=
  match resolve_domain id d with
  | inl e => (inl e, d)
  | inr b => let '(r, bs) := f b in (r, Some (set_bookmark_store bs b))
  end.
Definition reading {R} (id : string) (spans : bool) (d : option BoundDomain) (f : BoundDomain → (RpcError + R) * BookmarkStore)
  : (RpcError + R) * option BoundDomain :=
  match require_evidence d spans with inl e => (inl e, d) | inr _ => on_domain id d f end.

(** Parameters first, then the rest. *)
Definition given {P R} (b : BoundDomain) (p : RpcError + P) (f : P → (RpcError + R) * BookmarkStore) : (RpcError + R) * BookmarkStore :=
  match p with inl e => (inl e, bd_bookmarks b) | inr p => f p end.
Definition pure {R} (b : BoundDomain) (r : RpcError + R) : (RpcError + R) * BookmarkStore := (r, bd_bookmarks b).

Definition evicted_of (f : option ParsedFilter) (floor : N) : option N := f ≫= λ f, evicted_before_window f floor.

(** ** logs.* *)

Definition for_each_log {S : Type} (f : option ParsedFilter) (visit : S → LogEntry → S) (s0 : S) (p : LogPipeline)
  : ScanCounts * RecentStats * S :=
  let '(counts, st) := MemStore.for_each_matching f visit s0 (lp_store p) in
  (counts, mkRecent (c_scanned counts) (c_scanned counts) (c_oldest_seq counts) (c_newest_seq counts) (c_lost_below counts), st).

Record FieldsReply := mkFieldsReply {
  fl_fields : list FieldStats;
  fl_counts : ScanCounts;
  fl_stats : RecentStats;
  fl_evicted : option N;
  fl_names_capped : bool;
}.

Definition logs_fields walk rows values (now : Z) (id session : string) (params : Value) (d : option BoundDomain)
  : (RpcError + FieldsReply) * option BoundDomain :=
  reading id false d (λ b,
    given b (let? filter := opt_str params "filter" in
             let? top := opt_usize params "top_values" in
             let? min := opt_f64 params "min_coverage_pct" in
             inr (filter, N.to_nat (default 3 top), default (f64_of_Z 0) min))
      (λ '(filter, top, min),
         let '(r, bs) := whole_ring_filter now filter session "logs.fields" b in
         (let? resolved := r in
          let '(counts, stats, map) := for_each_log (Some resolved) (fields_observe walk) fields_new (bd_pipeline b) in
          let fields := fields_finish rows values (N.of_nat (c_matched counts)) top map in
          let fields := if f64_gt min (f64_of_Z 0) then List.filter (λ f, f64_ge (fs_coverage_pct f) min) fields else fields in
          inr (mkFieldsReply fields counts stats (evicted_before_window resolved (c_lost_below counts)) (fm_names_capped map)), bs))).

(** The axis and the keys to group by. *)
Definition profile_axis (group_by : option string) (group_keys : option (list string)) : RpcError + Axis * list string :=
  let axis_str := default "none" group_by in
  match axis_parse axis_str with
  | None => err ("unknown group_by `" +:+ axis_str +:+ "`: expected " +:+ axis_accepted)
  | Some axis =>
      let keys := default [] group_keys in
      if (MAX_GROUP_BY_KEYS <? length keys)%nat then
        err ("too many group_keys (" +:+ pretty (N.of_nat (length keys)) +:+ " > " +:+ pretty (N.of_nat MAX_GROUP_BY_KEYS) +:+
             "): each one multiplies the number of distinct rows, and the table is capped — group by one or two fields, which is the case this is built for")
      else if bool_decide (axis = AxField) && bool_decide (keys = []) then
        err ("group_by=" +:+ dquote +:+ "field" +:+ dquote +:+
             " needs group_keys naming the emitter fields to group along — run list_log_fields first, and use a row's `field` name")
      else if bool_decide (axis ≠ AxField) && negb (bool_decide (keys = [])) then
        err ("group_keys is only meaningful with group_by=" +:+ dquote +:+ "field" +:+ dquote +:+ "; got group_by=" +:+ dquote +:+
             axis_as_str axis +:+ dquote +:+ ", which names a built-in field and takes no keys")
      else inr (axis, keys)
  end.

Record ProfileReply := mkProfileReply {
  pr_groups : list LogGroup;
  pr_grouped_by : option Axis;
  pr_group_keys : option (list string);
  pr_groups_total : option nat;
  pr_cardinality_capped : bool;
  pr_levels : LevelCounts;
  pr_counts : ScanCounts;
  pr_stats : RecentStats;
  pr_bounds : Bounds;
  pr_evicted : option N;
  pr_suppressed : list LogSuppressed;
}.

Definition logs_profile order (now : Z) (id session : string) (params : Value) (d : option BoundDomain)
  : (RpcError + ProfileReply) * option BoundDomain :=
  reading id false d (λ b,
    given b (let? filter := opt_str params "filter" in
             let? top := opt_usize params "top_n" in
             let? group_by := opt_str params "group_by" in
             let? _ := match axis_parse (default "none" group_by) with None => profile_axis group_by None | Some _ => inr (AxNone, []) end in
             let? keys := opt_str_array params "group_keys" in
             let? ak := profile_axis group_by keys in
             inr (filter, N.to_nat (default 20 top), ak))
      (λ '(filter, top, (axis, keys)),
         let '(r, bs) := whole_ring_filter now filter session "logs.profile" b in
         (let? resolved := r in
          let '(counts, stats, map) := for_each_log (Some resolved) groups_observe (groups_new axis keys) (bd_pipeline b) in
          let '(groups, total) := groups_finish order map top in
          let grouped := negb (bool_decide (axis = AxNone)) in
          inr (mkProfileReply groups (if grouped then Some axis else None) (if bool_decide (keys = []) then None else Some keys)
                 (if grouped then Some total else None) (gm_capped map) (gm_levels map) counts stats (groups_bounds map)
                 (evicted_before_window resolved (c_lost_below counts)) (groups_suppressed map)), bs))).

(** A lookup by trace scans nothing, and reports the ring's length as scanned. *)
Record RecentReply := mkRecentReply {
  rc_logs : list LogEntry;
  rc_scanned : nat;
  rc_buffer_total : nat;
  rc_oldest_seq : option N;
  rc_newest_seq : option N;
  rc_evicted : option N;
  rc_cursor : option CursorOutcome;
}.

Definition recent_by_trace (t : N) (p : LogPipeline) : RecentReply :=
  let s := lp_store p in
  mkRecentReply (logs_by_trace_id t s) (store_len s) (store_len s) (MemStore.oldest_seq s) (MemStore.newest_seq s) None None.

Definition recent_reply (es : list LogEntry) (stats : RecentStats) (resolved : option ParsedFilter) (cursor : option CursorOutcome) : RecentReply :=
  mkRecentReply es (rs_scanned stats) (rs_buffer_total stats) (rs_buffer_oldest_seq stats) (rs_buffer_newest_seq stats)
    (evicted_of resolved (rs_lost_below stats)) cursor.

Definition logs_recent (now : Z) (id session : string) (params : Value) (d : option BoundDomain)
  : (RpcError + RecentReply) * option BoundDomain :=
  reading id false d (λ b,
    let p := bd_pipeline b in
    given b (let? count := opt_usize params "count" in
             let? filter := opt_str params "filter" in
             let? trace := opt_str params "trace_id" in
             inr (N.to_nat (default 50 count), filter, trace))
      (λ '(count, filter, trace),
         match trace with
         | Some hex =>
             pure b (let? _ := refuse_cursor filter "cursor qualifier not permitted in logs.recent with trace_id" in
                     match parse_hex128 hex with
                     | None => err "invalid trace_id"
                     | Some t => inr (recent_by_trace t p)
                     end)
         | None =>
             let '(r, bs) := parse_and_resolve_filter now filter session b in
             match r with
             | inl e => (inl e, bs)
             | inr (resolved, Some c) =>
                 let read := cursor_read count resolved (cursor_pos c) (lp_store p) in
                 let '(outcome, bs) := commit_cursor now c read (cr_len read) bs in
                 (inr (recent_reply (into_kept_entries (cr_len read) read) (stats_of_view (cr_view read)) resolved (Some outcome)), bs)
             | inr (resolved, None) =>
                 let '(es, stats) := recent_logs_with_stats count resolved false p in
                 (inr (recent_reply es stats resolved None), bs)
             end
         end)).

Definition context_params (default_window : N) (params : Value) : RpcError + N * nat * nat :=
  let? q := req_u64 params "seq" in
  let? before := opt_context_window params "before" in
  let? after := opt_context_window params "after" in
  inr (q, N.to_nat (default default_window before), N.to_nat (default default_window after)).

Definition logs_context (id : string) (params : Value) (d : option BoundDomain) : (RpcError + list LogEntry) * option BoundDomain :=
  reading id false d (λ b,
    given b (context_params 10 params) (λ '(q, before, after), pure b (inr (Pipeline.context_by_seq q before after (bd_pipeline b))))).

Definition logs_clear (id : string) (d : option BoundDomain) : (RpcError + nat) * option BoundDomain :=
  match (let? _ := require_live d "clear_logs" in resolve_domain id d) with
  | inl e => (inl e, d)
  | inr b => let '(n, p) := clear_logs (bd_pipeline b) in (inr n, Some (set_pipeline p b))
  end.

Definition domains_clear (id : string) (d : option BoundDomain) : (RpcError + nat * nat) * option BoundDomain :=
  match (let? _ := require_live d "clear_domain" in resolve_domain id d) with
  | inl e => (inl e, d)
  | inr b =>
      let '(n, p) := clear_logs (bd_pipeline b) in
      let '(m, ss) := SpanStore.clear (bd_spans b) in
      (inr (n, m), Some (set_span_store ss (set_pipeline p b)))
  end.

(** ** traces.* and spans.* *)

Definition trace_of (hex text : string) : RpcError + N := match parse_hex128 hex with Some t => inr t | None => err text end.

Record TracesReply := mkTracesReply { tr_traces : list TraceSummary; tr_total : nat; tr_oldest_seq : option N; tr_newest_seq : option N }.

(** [None] in the reply is the panic of [recent_traces] on an empty trace. *)
Definition traces_recent (now : Z) (id session : string) (params : Value) (d : option BoundDomain)
  : (RpcError + option TracesReply) * option BoundDomain :=
  reading id true d (λ b,
    given b (let? count := opt_usize params "count" in
             let? filter := opt_str params "filter" in
             inr (N.to_nat (default 20 count), filter))
      (λ '(count, filter),
         let '(r, bs) := parse_and_resolve_filter_without_cursor now filter session "traces.recent" b in
         (let? resolved := r in
          inr ((λ ts, mkTracesReply ts (span_len (bd_spans b)) (SpanStore.oldest_seq (bd_spans b)) (SpanStore.newest_seq (bd_spans b))) <$>
               recent_traces count resolved (λ t, u32_of_nat (count_by_trace_id t (lp_store (bd_pipeline b)))) (bd_spans b)), bs))).

Record TraceReply := mkTraceReply { tg_spans : list SpanEntry; tg_logs : list LogEntry }.

Definition traces_get (now : Z) (id session : string) (params : Value) (d : option BoundDomain)
  : (RpcError + TraceReply) * option BoundDomain :=
  reading id true d (λ b,
    given b (let? hex := req_str params "trace_id" in
             let? t := trace_of hex "invalid trace_id: must be 32-char hex" in
             let? include_logs := opt_bool params "include_logs" in
             let? filter := opt_str params "filter" in
             inr (t, default true include_logs, filter))
      (λ '(t, include_logs, filter),
         let '(r, bs) := parse_and_resolve_filter_without_cursor now filter session "traces.get" b in
         (let? resolved := r in
          inr (mkTraceReply (List.filter (span_matches resolved) (get_trace t (bd_spans b)))
                 (if (include_logs : bool) then logs_by_trace_id t (lp_store (bd_pipeline b)) else [])), bs))).

(** A row of the breakdown, under the root. *)
Record BreakdownRow := mkBreakdown { br_name : string; br_self_ms : f64; br_total_ms : f64; br_percentage : f64; br_is_error : bool }.

(** What [as_f64] reads back of a number in a JSON value: what is not finite is
    [null] there. *)
Definition read_back (v : f64) : f64 := if is_finite v then v else f64_of_Z 0.

Definition breakdown_row (spans : list SpanEntry) (root_duration : f64) (child : SpanEntry) : BreakdownRow :=
  let grandchildren := List.filter (λ s, bool_decide (sp_parent_span_id s = Some (sp_span_id child))) spans in
  let self := f64_max (f64_sub (sp_duration_ms child) (f64_sum (sp_duration_ms <$> grandchildren))) (f64_of_Z 0) in
  mkBreakdown (sp_name child) self (sp_duration_ms child)
    (if f64_gt root_duration (f64_of_Z 0) then f64_round (f64_mul (f64_div self root_duration) (f64_of_Z 100)) else f64_of_Z 0)
    (is_error child).

Record SummaryReply := mkSummaryReply { sm_root : string; sm_total_ms : f64; sm_breakdown : list BreakdownRow; sm_other_ms : f64; sm_span_count : nat }.

Definition trace_breakdown (spans : list SpanEntry) : SummaryReply :=
  let root := root_of spans in
  let root_duration := match root with Some r => sp_duration_ms r | None => f64_of_Z 0 end in
  let children := List.filter (λ s, bool_decide (sp_parent_span_id s = sp_span_id <$> root)) spans in
  let rows := stable_sort (λ a b, f64_gt (read_back (br_self_ms a)) (read_back (br_self_ms b))) (breakdown_row spans root_duration <$> children) in
  let accounted := f64_sum ((λ r, read_back (br_self_ms r)) <$> rows) in
  mkSummaryReply (match root with Some r => sp_name r | None => "[no root]" end) root_duration rows
    (f64_max (f64_sub root_duration accounted) (f64_of_Z 0)) (length spans).

Definition traces_summary (id : string) (params : Value) (d : option BoundDomain) : (RpcError + SummaryReply) * option BoundDomain :=
  reading id true d (λ b,
    given b (let? hex := req_str params "trace_id" in
             let? t := trace_of hex "invalid trace_id" in
             inr (hex, t))
      (λ '(hex, t),
         let spans := get_trace t (bd_spans b) in
         pure b (if bool_decide (spans = []) then err ("no spans found for trace " +:+ hex) else inr (trace_breakdown spans)))).

Definition quantile_ms (sorted : list f64) (q : f64) : f64 :=
  default (f64_of_Z 0) (quantile_index (length sorted) q ≫= λ i, sorted !! i).

Record SlowGroup := mkSlowGroup { sg_name : string; sg_avg_ms : f64; sg_p50_ms : f64; sg_p95_ms : f64; sg_max_ms : f64; sg_count : nat }.

Definition total_le (x y : f64) : Prop := f64_total_cmp x y ≠ Gt.
#[global] Instance total_le_dec x y : Decision (total_le x y).
Proof. unfold total_le. apply _. Defined.

Definition slow_group (min_duration : f64) (nd : string * list f64) : option SlowGroup :=
  let durations := merge_sort total_le nd.2 in
  last durations ≫= λ max,
    if f64_gt min_duration max then None
    else
      let avg := f64_div (f64_sum durations) (f64_of_N (N.of_nat (length durations))) in
      Some (mkSlowGroup nd.1 (f64_div (f64_round (f64_mul avg (f64_of_Z 10))) (f64_of_Z 10))
              (quantile_ms durations (f64_div (f64_of_Z 50) (f64_of_Z 100))) (quantile_ms durations (f64_div (f64_of_Z 95) (f64_of_Z 100))) max (length durations)).

Definition slow_le (x y : SlowGroup) : Prop := f64_total_cmp (read_back (sg_avg_ms y)) (read_back (sg_avg_ms x)) ≠ Gt.
#[global] Instance slow_le_dec x y : Decision (slow_le x y).
Proof. unfold slow_le. apply _. Defined.

Inductive SlowReply := SlowGroups (groups : list SlowGroup) (population : nat) (floor : f64) | SlowSpans (spans : list SpanEntry).

Definition slow_by_name (order : list (string * list f64) → list (string * list f64)) (min_duration : f64) (count : nat)
  (resolved : option ParsedFilter) (s : SpanStore) : SlowReply :=
  let groups := map_to_list (duration_by_name resolved s) in
  SlowGroups (take count (merge_sort slow_le (omap (slow_group min_duration) (order groups))))
    (sum_list_with (λ nd, length nd.2) groups) min_duration.

Definition traces_slow order (now : Z) (id session : string) (params : Value) (d : option BoundDomain)
  : (RpcError + SlowReply) * option BoundDomain :=
  reading id true d (λ b,
    given b (let? min := opt_f64 params "min_duration_ms" in
             let? count := opt_usize params "count" in
             let? filter := opt_str params "filter" in
             inr (default (f64_of_Z 100) min, N.to_nat (default 20 count), filter))
      (λ '(min, count, filter),
         let '(r, bs) := parse_and_resolve_filter_without_cursor now filter session "traces.slow" b in
         (let? resolved := r in
          let? group_by := opt_str params "group_by" in
          let? g := match group_by with
                    | None => inr SlowNone
                    | Some s => match slow_parse s with Some g => inr g | None => err ("unknown group_by `" +:+ s +:+ "`: expected " +:+ slow_accepted) end
                    end in
          inr match g with
              | SlowName => slow_by_name order min count resolved (bd_spans b)
              | SlowNone => SlowSpans (slow_spans min count resolved (bd_spans b))
              end, bs))).

Record TraceLogsReply := mkTraceLogs { tl_logs : list LogEntry; tl_cursor : option CursorOutcome }.

Definition traces_logs (now : Z) (id session : string) (params : Value) (d : option BoundDomain)
  : (RpcError + TraceLogsReply) * option BoundDomain :=
  reading id false d (λ b,
    given b (let? hex := req_str params "trace_id" in
             let? t := trace_of hex "invalid trace_id" in
             let? filter := opt_str params "filter" in
             inr (t, filter))
      (λ '(t, filter),
         let s := lp_store (bd_pipeline b) in
         let '(r, bs) := parse_and_resolve_filter now filter session b in
         match r with
         | inl e => (inl e, bs)
         | inr (resolved, Some c) =>
             let read := cursor_read_trace t resolved (cursor_pos c) s in
             let '(outcome, bs) := commit_cursor now c read (cr_len read) bs in
             (inr (mkTraceLogs (into_kept_entries (cr_len read) read) (Some outcome)), bs)
         | inr (resolved, None) =>
             (inr (mkTraceLogs (List.filter (opt_matches resolved) (logs_by_trace_id t s)) None), bs)
         end)).

Definition spans_context (id : string) (params : Value) (d : option BoundDomain) : (RpcError + list SpanEntry) * option BoundDomain :=
  reading id true d (λ b,
    given b (context_params 5 params) (λ '(q, before, after), pure b (inr (SpanStore.context_by_seq q before after (bd_spans b))))).

Record SpansReply := mkSpansReply { se_spans : list SpanEntry; se_matched : nat; se_capped : bool; se_oldest_seq : option N; se_newest_seq : option N; se_evicted : option N }.

Definition spans_export (now : Z) (id session : string) (params : Value) (d : option BoundDomain)
  : (RpcError + SpansReply) * option BoundDomain :=
  reading id true d (λ b,
    given b (let? count := opt_usize params "count" in
             let? filter := opt_str params "filter" in
             inr (default u64_max count, filter))
      (λ '(count, filter),
         let '(r, bs) := parse_and_resolve_filter_without_cursor now filter session "spans.export" b in
         (let? resolved := r in
          let? from := opt_u64 params "from_seq" in
          let? to := opt_u64 params "to_seq" in
          let resolved := lower_seq_range resolved from to in
          let '(matched, spans) :=
            SpanStore.for_each_matching resolved (λ acc s, if N.of_nat (length acc) <? count then acc ++ [s] else acc) [] (bd_spans b) in
          let floor := N.max (ss_lost_below (bd_spans b)) (sat_add (origin_seq (lp_epochs (bd_pipeline b))) 1) in
          inr (mkSpansReply spans matched (count <? N.of_nat matched) (SpanStore.oldest_seq (bd_spans b)) (SpanStore.newest_seq (bd_spans b))
                 (evicted_of resolved floor)), bs))).

(** ** bookmarks.* *)

Definition sweep_bookmarks victim (b : BoundDomain) : BookmarkStore :=
  sweep victim (Pipeline.lost_below (bd_pipeline b)) (ss_lost_below (bd_spans b)) (bd_bookmarks b).

Record AddedBookmark := mkAdded { ab_qualified_name : string; ab_seq : N; ab_replaced : bool }.

Definition bookmarks_add victim (now : Z) (id session : string) (params : Value) (d : option BoundDomain)
  : (RpcError + AddedBookmark) * option BoundDomain :=
  on_domain id d (λ b,
    given b (let? name := req_str params "name" in
             let? replace := opt_bool params "replace" in
             let? start := opt_u64 params "start_seq" in
             let? description := opt_str params "description" in
             inr (name, default false replace, default (current_seq (bd_pipeline b)) start, description))
      (λ '(name, replace, start, description),
         let '(r, bs) := add_at now session name start (late_counter (inner (lp_store (bd_pipeline b)))) description replace (sweep_bookmarks victim b) in
         (match r with
          | inl e => inl (ErrBookmark e)
          | inr (bm, replaced) => inr (mkAdded (b_qualified_name bm) (b_seq bm) replaced)
          end, bs))).

Definition bookmarks_list victim (id : string) (params : Value) (d : option BoundDomain) : (RpcError + list Bookmark) * option BoundDomain :=
  on_domain id d (λ b,
    let bs := sweep_bookmarks victim b in
    (let? session := opt_str params "session" in
     inr (List.filter (λ bm, match session with Some s => String.eqb (b_session bm) s | None => true end) (list_bookmarks bs)), bs)).

Definition bookmarks_remove (id session : string) (params : Value) (d : option BoundDomain) : (RpcError + string) * option BoundDomain :=
  on_domain id d (λ b,
    given b (req_str params "name") (λ name,
      let q := qualify name session in
      let '(e, bs) := Bookmarks.remove q (bd_bookmarks b) in
      (match e with Some e => inl (ErrBookmark e) | None => inr q end, bs))).

Definition bookmarks_clear (id session : string) (params : Value) (d : option BoundDomain) : (RpcError + nat * string) * option BoundDomain :=
  on_domain id d (λ b,
    given b (opt_str params "session") (λ named,
      let session := default session named in
      let '(n, bs) := clear_session session (bd_bookmarks b) in (inr (n, session), bs))).
End reads.
