(* ===== verification/Broker.v ===== *)
(** * Broker: the handlers that change more than one component
    ([daemon/rpc_handler.rs], the session's life in [daemon/server.rs])

    The handler's state is the domains, the sessions, the collectors and the
    store of provenance. A request runs to its end before another; what it
    takes from outside (clocks, walk orders, sockets, the disk's answers) is
    its [Env]. *)

From S2P Require Import Prelude Text F64 Gelf Filter Matcher SeqCounter Epoch Trigger Bookmarks Resolver MemStore Pipeline SpanStore DomainData DataFile Session Processor Measure Threshold Collector History Persist CollReg Project LogProfile LogFields Params Metrics Domains CaseLoad Reads.

Set Default Proof Using "Type".
Local Open Scope N_scope.
Local Open Scope rpc_scope.

Record DomainPolicy := mkPolicy {
  max_domains : nat;
  default_log_buffer_size : N;
  default_span_buffer_size : N;
  stale_after_secs : N;
}.

(** The parameters of [domains.create], decoded. *)
Record DomainsCreate := mkDomainsCreate {
  rq_domain : string;
  rq_gelf_port : option N;
  rq_otlp_grpc_port : option N;
  rq_otlp_http_port : option N;
  rq_log_buffer_size : option N;
  rq_span_buffer_size : option N;
  rq_persist : bool;
}.

Definition quoted (s : string) : string := dquote +:+ s +:+ dquote.

Section broker.
Context {X : Externals} {SK : SketchCrate} {J : JsonScalars} {JR : JsonReader}.

Record Broker := mkBroker {
  br_domains : DomainMap;
  br_sessions : SessionRegistry;
  br_collectors : Sys;
  br_data : option DomainDataStore;
  br_disk : Disk;
}.
Definition set_domains (m : DomainMap) (b : Broker) : Broker := mkBroker m (br_sessions b) (br_collectors b) (br_data b) (br_disk b).
Definition set_sessions (r : SessionRegistry) (b : Broker) : Broker := mkBroker (br_domains b) r (br_collectors b) (br_data b) (br_disk b).
Definition set_collectors (s : Sys) (b : Broker) : Broker := mkBroker (br_domains b) (br_sessions b) s (br_data b) (br_disk b).
Definition set_data (s : option DomainDataStore) (d : Disk) (b : Broker) : Broker :=
  mkBroker (br_domains b) (br_sessions b) (br_collectors b) s d.

Record Env := mkEnv {
  ev_now : Z;
  ev_sessions : Order;
  ev_domains : DomainMap → list (DomainId * BoundDomain);
  ev_sockets : Sockets;
  ev_renamed : bool;
  ev_open_error : option string;
  ev_write_error : option string;
}.
Context (policy : DomainPolicy) (to_rfc3339 : Z → string).

(** ** The bound domain *)

Definition bound_id (id : SessionId) (b : Broker) : DomainId := domain_of id (br_sessions b).
Definition bound (id : SessionId) (b : Broker) : option BoundDomain := br_domains b !! bound_id id b.
Definition resolve (id : SessionId) (b : Broker) : RpcError + BoundDomain := resolve_domain (bound_id id b) (bound id b).
Definition live (id : SessionId) (op : string) (b : Broker) : RpcError + unit := require_live (bound id b) op.

(** A domain's buffer sized by the sessions bound to it. *)
Definition sync_one (ev : Env) (reg : SessionRegistry) (d : BoundDomain) : BoundDomain :=
  set_pipeline (sync_pre_buffer_size_for_domain (ev_sessions ev) (bd_name d) reg (bd_pipeline d)) d.
Definition sync_at (ev : Env) (id : DomainId) (b : Broker) : Broker :=
  set_domains (alter (sync_one ev (br_sessions b)) id (br_domains b)) b.
Definition resync_pre_buffers (ev : Env) (b : Broker) : Broker :=
  set_domains (sync_one ev (br_sessions b) <$> br_domains b) b.

(** ** domains.* *)

Definition port_matches (existing : N) (requested : option N) : bool :=
  match requested with None => true | Some p => p =? existing end.

Definition ensure_idempotent (ev : Env) (existing : BoundDomain) (requested : DomainPortSpec) : RpcError + DomainInfo :=
  match bd_postmortem existing with
  | Some pm =>
      err ("domain `" +:+ bd_name existing +:+ "` holds the loaded case `" +:+ pm_case pm +:+
           "` rather than a running system, so it cannot be ensured as a live domain. Delete it first, or pick another name.")
  | None =>
      let c := bd_config existing in
      if port_matches (dc_gelf_port c) (ps_gelf requested) && port_matches (dc_otlp_grpc_port c) (ps_otlp_grpc requested) &&
         port_matches (dc_otlp_http_port c) (ps_otlp_http requested)
      then inr (domain_to_info (ev_now ev) (stale_after_secs policy) existing)
      else err ("domain " +:+ quoted (bd_name existing) +:+ " already exists with different ports")
  end.

Definition domain_id (name : string) : RpcError + DomainId :=
  match DomainId_new name with inl (InvalidDomainName n) => err ("invalid domain name: " +:+ n) | inr id => inr id end.

Definition same_port (n1 : string) (p1 : option N) (n2 : string) (p2 : option N) : RpcError + unit :=
  match p1, p2 with
  | Some a, Some b => if negb (a =? 0) && (a =? b) then err (n1 +:+ " and " +:+ n2 +:+ " must differ (both = " +:+ pretty a +:+ ")") else inr tt
  | _, _ => inr tt
  end.

Definition api_created (b : Broker) : nat :=
  size (filter (λ kd : DomainId * BoundDomain, dc_source (bd_config kd.2) ≠ SourceConfig) (br_domains b)).

Definition domain_room (b : Broker) (doing : string) : RpcError + unit :=
  if (max_domains policy <=? api_created b)%nat
  then err ("max_domains (" +:+ pretty (N.of_nat (max_domains policy)) +:+ ") reached — delete a domain before " +:+ doing +:+ " another")
  else inr tt.

Definition buffer_size (name : string) (n : N) : RpcError + unit :=
  if MAX_BUFFER_SIZE <? n then err (name +:+ " " +:+ pretty n +:+ " exceeds the maximum " +:+ pretty MAX_BUFFER_SIZE) else inr tt.

Definition domains_create (ev : Env) (req : DomainsCreate) (b : Broker) : (RpcError + DomainInfo) * Broker :=
  let requested := mkPorts (rq_gelf_port req) (rq_otlp_grpc_port req) (rq_otlp_http_port req) in
  match (if rq_persist req then err "persistent domains are not yet supported — create with persist=false (ephemeral)"
         else
           let? id := domain_id (rq_domain req) in
           let? _ := same_port "gelf_port" (rq_gelf_port req) "otlp_grpc_port" (rq_otlp_grpc_port req) in
           let? _ := same_port "gelf_port" (rq_gelf_port req) "otlp_http_port" (rq_otlp_http_port req) in
           let? _ := same_port "otlp_grpc_port" (rq_otlp_grpc_port req) "otlp_http_port" (rq_otlp_http_port req) in
           match br_domains b !! id with
           | Some existing => let? info := ensure_idempotent ev existing requested in inr (info, None)
           | None =>
               let? _ := domain_room b "creating" in
               let logs := default (default_log_buffer_size policy) (rq_log_buffer_size req) in
               let spans := default (default_span_buffer_size policy) (rq_span_buffer_size req) in
               let? _ := buffer_size "log_buffer_size" logs in
               let? _ := buffer_size "span_buffer_size" spans in
               match spawn_ephemeral_domain (ev_sockets ev) id requested logs spans SourceEphemeral with
               | inl e => err ("could not create domain: " +:+ e)
               | inr d => inr (domain_to_info (ev_now ev) (stale_after_secs policy) d, Some d)
               end
           end) with
  | inl e => (inl e, b)
  | inr (info, None) => (inr info, b)
  | inr (info, Some d) => (inr info, set_domains (map_insert d (br_domains b)) b)
  end.

Definition domains_delete (name : string) (b : Broker) : (RpcError + string) * Broker :=
  match domain_id name with
  | inl e => (inl e, b)
  | inr id =>
      match br_domains b !! id with
      | None => (err ("domain " +:+ quoted id +:+ " does not exist"), b)
      | Some d =>
          if bool_decide (dc_source (bd_config d) = SourceConfig)
          then (err ("cannot delete config-declared domain " +:+ quoted id +:+ " — edit config.json"), b)
          else (inr name, set_domains (delete id (br_domains b)) b)
      end
  end.

Definition info_before (a b : DomainInfo) : bool := String.leb (di_name a) (di_name b).
Definition domains_list (ev : Env) (b : Broker) : list DomainInfo :=
  stable_sort (λ x y, info_before x y && negb (info_before y x))
    ((λ d, set_bound_sessions (sessions_bound_to (ev_sessions ev) (bd_name d) (br_sessions b))
             (domain_to_info (ev_now ev) (stale_after_secs policy) d)) <$> list_domains (ev_domains ev) (br_domains b)).

(** The reply: the domain, and the warning of a switch between two domains. *)
Definition domains_use (ev : Env) (id : SessionId) (name : string) (b : Broker) : (RpcError + DomainInfo * option string) * Broker :=
  match domain_id name with
  | inl e => (inl e, b)
  | inr new_id =>
      match br_domains b !! new_id with
      | None => (err ("domain " +:+ quoted new_id +:+ " does not exist — create it first"), b)
      | Some new_domain =>
          let old_id := bound_id id b in
          let b := set_sessions (set_domain id new_id (br_sessions b)) b in
          let b := if bool_decide (old_id = new_id) then b else sync_at ev old_id b in
          let b := sync_at ev new_id b in
          let warning :=
            if negb (bool_decide (old_id = new_id)) && negb (is_default old_id) then
              Some ("session " +:+ id_string id +:+ " was bound to " +:+ quoted old_id +:+ " and is now rebound to " +:+ quoted new_id +:+
                    ". If you did not just switch domains on purpose, another client is sharing this session (two agent conversations behind one MCP server process?) and your reads may silently target its domain. Fix the setup: give each client its own `--session <name>` — do NOT paper over it by re-binding before each query, which only hides the collision.")
            else None in
          (inr (domain_to_info (ev_now ev) (stale_after_secs policy) new_domain, warning), b)
      end
  end.

(** ** filters.* and triggers.* *)

Definition bookmarks_refused : string :=
  "bookmarks and cursors (b>=, b<=, c>=) are not allowed in registered filters, triggers or collectors — use them only in query tools".
Definition refuse_bookmark_in (parsed : ParsedFilter) : RpcError + unit :=
  if contains_bookmark_qualifier parsed then err bookmarks_refused else inr tt.
Definition refuse_bookmark_qualifier (filter : string) : RpcError + unit :=
  let? parsed := lift_parse (parse_filter filter) in refuse_bookmark_in parsed.
(** An edit's filter that does not parse is left to the session layer. *)
Definition refuse_bookmark_in_edit (filter : option string) : RpcError + unit :=
  match parse_filter <$> filter with Some (inr parsed) => refuse_bookmark_in parsed | _ => inr tt end.
Definition refuse_oversize_pre_window (pre : N) : RpcError + unit :=
  if MAX_BUFFER_SIZE <? pre then err ("pre_window " +:+ pretty pre +:+ " exceeds the maximum of " +:+ pretty MAX_BUFFER_SIZE +:+ " records") else inr tt.

Definition lift_session {A} (r : SessionError + A) : RpcError + A := match r with inl e => inl (ErrSession e) | inr a => inr a end.
Definition lift_session_error {A} (r : option SessionError) (a : A) : RpcError + A :=
  match r with Some e => inl (ErrSession e) | None => inr a end.

(** Read the parameters, then change the sessions; a success resizes the bound
    domain's buffer when [sync]. *)
Definition session_change {P A} (ev : Env) (id : SessionId) (sync : bool) (p : RpcError + P)
  (f : P → SessionRegistry → (RpcError + A) * SessionRegistry) (b : Broker) : (RpcError + A) * Broker :=
  match p with
  | inl e => (inl e, b)
  | inr p =>
      let '(r, reg) := f p (br_sessions b) in
      let b' := set_sessions reg b in
      (r, match r with inr _ => if sync then sync_at ev (bound_id id b) b' else b' | inl _ => b' end)
  end.

Definition filters_list (id : SessionId) (b : Broker) : list FilterInfo := list_filters id (br_sessions b).

Definition filters_add (ev : Env) (id : SessionId) (params : Value) (b : Broker) : (RpcError + N) * Broker :=
  session_change ev id true
    (let? _ := live id "add_filter" b in
     let? _ := resolve id b in
     let? filter := req_str params "filter" in
     let? _ := refuse_bookmark_qualifier filter in
     let? desc := opt_str params "description" in
     inr (filter, desc))
    (λ '(filter, desc) reg, let '(r, reg) := add_filter id filter desc reg in (lift_session r, reg)) b.

Definition filters_edit (ev : Env) (id : SessionId) (params : Value) (b : Broker) : (RpcError + FilterInfo) * Broker :=
  session_change ev id false
    (let? _ := live id "edit_filter" b in
     let? filter_id := req_u32 params "id" in
     let? filter := opt_str params "filter" in
     let? _ := refuse_bookmark_in_edit filter in
     let? desc := opt_str params "description" in
     inr (filter_id, filter, desc))
    (λ '(filter_id, filter, desc) reg, let '(r, reg) := edit_filter id filter_id filter desc reg in (lift_session r, reg)) b.

Definition filters_remove (ev : Env) (id : SessionId) (params : Value) (b : Broker) : (RpcError + N) * Broker :=
  session_change ev id true
    (let? _ := live id "remove_filter" b in
     let? _ := resolve id b in
     req_u32 params "id")
    (λ filter_id reg, let '(e, reg) := remove_filter id filter_id reg in (lift_session_error e filter_id, reg)) b.

Definition triggers_list (id : SessionId) (b : Broker) : list TriggerInfo := list_session_triggers id (br_sessions b).

Definition triggers_add (ev : Env) (id : SessionId) (params : Value) (b : Broker) : (RpcError + N) * Broker :=
  session_change ev id true
    (let? _ := live id "add_trigger" b in
     let? _ := resolve id b in
     let? filter := req_str params "filter" in
     let? _ := refuse_bookmark_qualifier filter in
     let? pre := opt_u32 params "pre_window" in
     let pre := default DEFAULT_TRIGGER_PRE_WINDOW pre in
     let? _ := refuse_oversize_pre_window pre in
     let? post := opt_u32 params "post_window" in
     let? ctx := opt_u32 params "notify_context" in
     let? desc := opt_str params "description" in
     let? oneshot := opt_bool params "oneshot" in
     inr (filter, pre, default DEFAULT_TRIGGER_POST_WINDOW post, default DEFAULT_TRIGGER_NOTIFY_CONTEXT ctx, desc, default false oneshot))
    (λ '(filter, pre, post, ctx, desc, oneshot) reg,
       let '(r, reg) := add_trigger id filter pre post ctx desc oneshot reg in (lift_session r, reg)) b.

Definition triggers_edit (ev : Env) (id : SessionId) (params : Value) (b : Broker) : (RpcError + TriggerInfo) * Broker :=
  session_change ev id true
    (let? _ := live id "edit_trigger" b in
     let? _ := resolve id b in
     let? trigger_id := req_u32 params "id" in
     let? filter := opt_str params "filter" in
     let? _ := refuse_bookmark_in_edit filter in
     let? pre := opt_u32 params "pre_window" in
     let? _ := match pre with Some p => refuse_oversize_pre_window p | None => inr tt end in
     let? post := opt_u32 params "post_window" in
     let? ctx := opt_u32 params "notify_context" in
     let? desc := opt_str params "description" in
     let? oneshot := opt_bool params "oneshot" in
     inr (trigger_id, filter, pre, post, ctx, desc, oneshot))
    (λ '(trigger_id, filter, pre, post, ctx, desc, oneshot) reg,
       let '(r, reg) := edit_trigger id trigger_id filter pre post ctx desc oneshot reg in (lift_session r, reg)) b.

Definition triggers_remove (ev : Env) (id : SessionId) (params : Value) (b : Broker) : (RpcError + N) * Broker :=
  session_change ev id true
    (let? _ := live id "remove_trigger" b in
     let? _ := resolve id b in
     req_u32 params "id")
    (λ trigger_id reg, let '(e, reg) := remove_trigger id trigger_id reg in (lift_session_error e trigger_id, reg)) b.

(** ** session.* *)

Definition sessions_list (ev : Env) (b : Broker) : list SessionInfo := list_sessions (ev_sessions ev) (ev_now ev) (br_sessions b).

(** What a cleanup changes under the registry's lock, and what it counts. *)
Record Cleanup := mkCleanup {
  cl_domains : DomainMap;
  cl_collectors : Sys;
  cl_files : option PendingFiles;
  cl_bookmarks : nat;
  cl_released : nat;
}.
Definition cleanup_start (b : Broker) : Cleanup := mkCleanup (br_domains b) (br_collectors b) None 0 0.

Definition map_bookmarks (f : BookmarkStore → nat * BookmarkStore) (m : DomainMap) : nat * DomainMap :=
  (sum_list_with (λ kd : DomainId * BoundDomain, (f (bd_bookmarks kd.2)).1) (map_to_list m),
   (λ d, set_bookmark_store (f (bd_bookmarks d)).2 d) <$> m).

Definition clear_bookmarks_everywhere (id : SessionId) (m : DomainMap) : nat * DomainMap := map_bookmarks (clear_session (id_string id)) m.

(** Collectors first, then, when [bookmarks], the bookmarks. *)
Definition release (id : SessionId) (bookmarks : bool) (w : Cleanup) : Cleanup :=
  let '(p, s) := detach_session id (cl_collectors w) in
  let released := length (pf_unlink p) in
  if bookmarks then
    let '(n, m) := clear_bookmarks_everywhere id (cl_domains w) in mkCleanup m s (Some p) n released
  else mkCleanup (cl_domains w) s (Some p) (cl_bookmarks w) released.

(** The sessions and the cleanup's state back, the collectors' files after it. *)
Definition finish_cleanup (reg : SessionRegistry) (w : Cleanup) (b : Broker) : Broker :=
  set_collectors (match cl_files w with Some p => finish p (cl_collectors w) | None => cl_collectors w end)
    (set_domains (cl_domains w) (set_sessions reg b)).

Definition sessions_drop (ev : Env) (params : Value) (b : Broker) : (RpcError + string * nat) * Broker :=
  match req_str params "name" with
  | inl e => (inl e, b)
  | inr name =>
      let '(e, reg, w) := Session.drop_session name (release (Named name)) (br_sessions b) (cleanup_start b) in
      let b := finish_cleanup reg w b in
      match e with
      | Some (AlreadyConnected n) => (inl (ErrSession (AlreadyConnected n)), b)
      | _ =>
          let b := if bool_decide (e = None) then resync_pre_buffers ev b else b in
          (if (cl_released w =? 0)%nat then lift_session_error e (name, 0%nat) else inr (name, cl_released w), b)
      end
  end.

(** Under the registry's lock: what is keyed by a name changes hands. *)
Definition transfer (old new_id : SessionId) (displaced : bool) (w : Cleanup) : Cleanup :=
  let '(p1, s) := if displaced then detach_session new_id (cl_collectors w) else (mkPending [] [], cl_collectors w) in
  let '(p2, s) := move_owner old new_id s in
  let '(old_key, new_key) := (id_string old, id_string new_id) in
  let step bs :=
    let '(n, bs) := if displaced then clear_session new_key bs else (0%nat, bs) in
    let '(k, bs) := Bookmarks.rename_session old_key new_key bs in ((n + k)%nat, bs) in
  let '(n, m) := map_bookmarks step (cl_domains w) in
  mkCleanup m s (Some (absorb p1 p2)) n (length (pf_moved p2)).

Definition sessions_rename (ev : Env) (id : SessionId) (name : string) (b : Broker) : (RpcError + string * bool) * Broker :=
  let '(r, reg, w) := Session.rename id name (transfer id) (ev_now ev) (br_sessions b) (cleanup_start b) in
  match r with
  | inl e => (inl (ErrSession e), b)
  | inr (new_id, displaced) =>
      let b := finish_cleanup reg w b in
      (inr (name, displaced), if displaced : bool then resync_pre_buffers ev b else b)
  end.

Inductive ExpiredDisposal := ExpiredDisposed (bookmarks collectors : nat) | ExpiredNotAbandoned | ExpiredGone.
Definition dispose_expired_session (ev : Env) (id : SessionId) (ttl : Z) (b : Broker) : ExpiredDisposal * Broker :=
  let '(outcome, reg, w) := dispose_if_expired id ttl (release id true) (ev_now ev) (br_sessions b) (cleanup_start b) in
  let b := finish_cleanup reg w b in
  match outcome with
  | Disposed => (ExpiredDisposed (cl_bookmarks w) (cl_released w), resync_pre_buffers ev b)
  | NotAbandoned => (ExpiredNotAbandoned, b)
  | Session.Gone => (ExpiredGone, b)
  end.

Definition clear_session_bookmarks (id : SessionId) (b : Broker) : nat * Broker :=
  let clear_one '(n, m) d :=
    match m !! d with
    | Some x => let '(k, bs) := clear_session (id_string id) (bd_bookmarks x) in ((n + k)%nat, <[d := set_bookmark_store bs x]> m)
    | None => (n, m)
    end in
  let '(n, m) := foldl clear_one (0%nat, br_domains b) (touched_domains id (br_sessions b)) in
  (n, set_domains m b).
Definition clear_session_collectors (id : SessionId) (b : Broker) : nat * Broker :=
  let '(p, s) := detach_session id (br_collectors b) in
  (length (pf_unlink p), set_collectors (finish p s) b).

(** ** A connection's session ([server.rs]) *)

Definition PROTOCOL_VERSION : N := 1.
Record SessionStartParams := mkStart {
  st_name : option string;
  st_protocol_version : N;
  st_client_info : option Value;
  st_domain : option string;
}.
Inductive StartRefusal :=
  | WrongVersion (v : N)
  | ClientInfoTooLarge
  | NoSuchDomain (id : DomainId)
  | BadDomainName (name : string)
  | StartSession (e : SessionError).

Record SessionStartResult := mkStarted {
  sr_session_id : SessionId;
  sr_is_new : bool;
  sr_queued_notifications : nat;
  sr_trigger_count : nat;
  sr_filter_count : nat;
  sr_buffer_size : nat;
  sr_queued : list PipelineEvent;
}.

Definition start_checks (p : SessionStartParams) (b : Broker) : StartRefusal + option DomainId :=
  if negb (st_protocol_version p =? PROTOCOL_VERSION) then inl (WrongVersion (st_protocol_version p))
  else if match st_client_info p with Some ci => (4096 <? String.length (Value_to_string ci))%nat | None => false end then inl ClientInfoTooLarge
  else match st_domain p with
       | None => inr None
       | Some name =>
           match DomainId_new name with
           | inl _ => inl (BadDomainName name)
           | inr id => if map_contains id (br_domains b) then inr (Some id) else inl (NoSuchDomain id)
           end
       end.

Definition claim (ev : Env) (uuid : string) (name : option string) (reg : SessionRegistry)
  : option ((SessionError + SessionId * bool) * SessionRegistry) :=
  match name with
  | Some name => claim_named name (ev_now ev) reg
  | None => (λ '(id, reg), (inr (id, true), reg)) <$> create_anonymous uuid (ev_now ev) reg
  end.

Definition build_session_start_result (ev : Env) (id : SessionId) (b : Broker) : SessionStartResult :=
  let info := Session.get (ev_now ev) id (br_sessions b) in
  let count (f : SessionInfo → nat) := match info with Some i => f i | None => 0%nat end in
  mkStarted id true (count si_queue_size) (count si_trigger_count) (count si_filter_count)
    (match br_domains b !! bound_id id b with Some d => store_len (lp_store (bd_pipeline d)) | None => 0%nat end) [].

(** The handshake, up to the queued notifications; [None] is a seeded
    trigger's panic. *)
Definition start_session (ev : Env) (uuid : string) (p : SessionStartParams) (b : Broker)
  : option ((StartRefusal + SessionStartResult) * Broker) :=
  match start_checks p b with
  | inl r => Some (inl r, b)
  | inr connect =>
      '(claimed, reg) ← claim ev uuid (st_name p) (br_sessions b);
      match claimed with
      | inl e => Some (inl (StartSession e), set_sessions reg b)
      | inr (id, is_new) =>
          let reg := match st_client_info p with Some ci => set_client_info id (Some ci) reg | None => reg end in
          let reg := match connect with Some d => set_domain id d reg | None => reg end in
          let b := resync_pre_buffers ev (set_sessions reg b) in
          let r := build_session_start_result ev id b in
          let '(queued, reg) := drain_notifications id (br_sessions b) in
          Some (inr (mkStarted id is_new (sr_queued_notifications r) (sr_trigger_count r) (sr_filter_count r) (sr_buffer_size r) queued),
                set_sessions reg b)
      end
  end.

Definition is_anonymous (id : SessionId) : bool := match id with Anonymous _ => true | Named _ => false end.
Definition disconnect_session (ev : Env) (id : SessionId) (b : Broker) : Broker :=
  let b := if is_anonymous id then (clear_session_collectors id (clear_session_bookmarks id b).2).2 else b in
  let b := set_sessions (disconnect id (ev_now ev) (br_sessions b)) b in
  if is_anonymous id then resync_pre_buffers ev b else b.

(** ** domain_data.* *)

(** The registry a session writes: its domain's, opened if need be, or the
    case's own. *)
Definition open_registry (ev : Env) (id : SessionId) (b : Broker) : (RpcError + DomainRegistry) * Broker :=
  match br_data b with
  | None => (err "domain_data is not available on this broker", b)
  | Some store =>
      match resolve id b with
      | inl e => (inl e, b)
      | inr d =>
          match bd_postmortem d with
          | Some pm => (inr (pm_registry pm), b)
          | None =>
              let '(reg, store, disk) :=
                for_domain to_rfc3339 (bd_name d) (ev_now ev) (ev_renamed ev) (ev_open_error ev) store (br_disk b) in
              (inr reg, set_data (Some store) disk b)
          end
      end
  end.

(** A mutated registry is the domain's own again. *)
Definition put_registry (id : SessionId) (reg : DomainRegistry) (disk : Disk) (b : Broker) : Broker :=
  match bound id b with
  | Some d =>
      match bd_postmortem d with
      | Some pm =>
          let pm := mkPostmortem (pm_case pm) (pm_captured_at pm) (pm_verdict pm) (pm_logs_omitted pm) (pm_spans_omitted pm)
                      (pm_registry_dropped pm) reg in
          set_domains (<[bound_id id b := sealed_as pm d]> (br_domains b)) b
      | None => set_data ((λ s, set_open (<[bd_name d := reg]> (dd_open s)) s) <$> br_data b) disk b
      end
  | None => b
  end.

Definition mutate_bound {T} (ev : Env) (id : SessionId) (reg : DomainRegistry) (f : Registry → T * Registry) (b : Broker)
  : T * option string * Broker :=
  let '(out, saved, reg, disk) := mutate f (ev_write_error ev) reg (br_disk b) in (out, saved, put_registry id reg disk b).

Definition unzip_entries (l : list (nat * DataEntry)) : list nat * list DataEntry := (l.*1, l.*2).

(** [None] is a panic in a lifetime's text. *)
Definition apply_data_entries (ev : Env) (id : SessionId) (raw : option Value) (b : Broker)
  : option ((RpcError + list DataOutcome * option string) * Broker) :=
  let '(r, b) := open_registry ev id b in
  match r with
  | inl e => Some (inl e, b)
  | inr reg =>
      match parse_data_entries raw with
      | inl e => Some (inl e, b)
      | inr None => None
      | inr (Some (indexed, rejected)) =>
          let '(indices, entries) := unzip_entries indexed in
          let '(applied, saved, b) := mutate_bound ev id reg (update entries (ev_now ev)) b in
          Some (inr (merge_outcomes applied indices rejected, saved), b)
      end
  end.

(** One entry of a case's: a sigilled one is kept aside. *)
Definition scope_step (st : list (nat * DataEntry) * ScopedData * list (nat * DataOutcome)) (ie : nat * DataEntry)
  : list (nat * DataEntry) * ScopedData * list (nat * DataOutcome) :=
  let '(for_registry, scoped, rejected) := st in
  let '(i, e) := ie in
  if negb (is_scoped e) then (for_registry ++ [(i, e)], scoped, rejected)
  else match scope_one e scoped with
       | (None, scoped) => (for_registry, scoped, rejected ++ [(i, mkDataOutcome (de_path e) Scoped)])
       | (Some o, scoped) => (for_registry, scoped, rejected ++ [(i, o)])
       end.

Definition apply_case_data_entries (ev : Env) (id : SessionId) (raw : option Value) (b : Broker)
  : option ((RpcError + list DataOutcome * option string * ScopedData) * Broker) :=
  if match raw with None => true | Some v => match Value_as_array v with Some [] => true | _ => false end end then Some (inr ([], None, []), b)
  else
    let '(r, b) := open_registry ev id b in
    match r with
    | inl e => Some (inl e, b)
    | inr reg =>
        match parse_data_entries raw with
        | inl e => Some (inl e, b)
        | inr None => None
        | inr (Some (indexed, rejected)) =>
            let '(for_registry, scoped, rejected) := foldl scope_step ([], [], rejected) indexed in
            let '(indices, entries) := unzip_entries for_registry in
            let '(applied, saved, b) :=
              if bool_decide (entries = []) then ([], None, b) else mutate_bound ev id reg (update entries (ev_now ev)) b in
            Some (inr (merge_outcomes applied indices rejected, saved, scoped), b)
        end
    end.

Definition domain_data_update (ev : Env) (id : SessionId) (params : Value) (b : Broker)
  : option ((RpcError + list DataOutcome * option string) * Broker) :=
  match live id "update_domain_data" b with
  | inl e => Some (inl e, b)
  | inr _ => apply_data_entries ev id (Value_get "entries" params) b
  end.

Definition domain_data_remove (ev : Env) (id : SessionId) (params : Value) (b : Broker)
  : (RpcError + list RemoveOutcome * option string) * Broker :=
  match live id "remove_domain_data" b with
  | inl e => (inl e, b)
  | inr _ =>
      let '(r, b) := open_registry ev id b in
      match (let? reg := r in
             let? patterns := opt_str_array params "patterns" in
             let patterns := default [] patterns in
             if bool_decide (patterns = []) then err "patterns is required and must be a non-empty array" else inr (reg, patterns)) with
      | inl e => (inl e, b)
      | inr (reg, patterns) =>
          let '(out, saved, b) := mutate_bound ev id reg (registry_remove patterns) b in (inr (out, saved), b)
      end
  end.

Record DomainDataKey := mkDataKey {
  dk_path : string;
  dk_entry : Entry;
  dk_age_secs : Z;
  dk_ttl : option string;
  dk_expired : bool;
}.
Record DomainDataGet := mkDataGet { dg_domain : string; dg_keys : list DomainDataKey; dg_total : nat; dg_missing_core : list string }.

Definition data_key (now : Z) (pe : string * Entry) : option DomainDataKey :=
  (λ expired, mkDataKey pe.1 pe.2 (num_seconds (entry_age now pe.2)) (render_duration <$> en_ttl_secs pe.2) expired) <$> is_expired now pe.2.

Definition read_registry (now : Z) (prefix : option string) (cutoff : option Z) (name : string) (r : Registry) : option DomainDataGet :=
  keys ← mapM (data_key now) (query prefix cutoff r);
  Some (mkDataGet name keys (size (rg_entries r)) (List.filter (λ k, bool_decide (registry_get k r = None)) CORE_KEYS)).

(** [ago]: chrono's instant so many seconds before another, where both the
    length and the instant are representable. *)
Definition domain_data_get (ago : Z → N → option Z) (ev : Env) (id : SessionId) (params : Value) (b : Broker)
  : option ((RpcError + DomainDataGet) * Broker) :=
  match (let? d := resolve id b in
         let? prefix := opt_str params "prefix" in
         let now := fact_clock (ev_now ev) d in
         let? secs := opt_u64 params "validated_before_secs" in
         let? cutoff := match secs with
                        | None => inr None
                        | Some s =>
                            match (if Z.of_N s <=? i64_max then ago now s else None)%Z with
                            | Some t => inr (Some t)
                            | None => err ("`validated_before_secs` is " +:+ pretty s +:+ ", which is not a usable age in seconds")
                            end
                        end in
         inr (bd_name d, now, prefix, cutoff)) with
  | inl e => Some (inl e, b)
  | inr (name, now, prefix, cutoff) =>
      let '(r, b) := open_registry ev id b in
      match r with
      | inl e => Some (inl e, b)
      | inr reg => (λ g, (inr g, b)) <$> read_registry now prefix cutoff name (dr_data reg)
      end
  end.

(** ** cases.load *)

Inductive LoadRefusal (ParseError : Type) := RefusedCase (e : LoadError ParseError) | RefusedRequest (e : RpcError).
Arguments RefusedCase {ParseError}. Arguments RefusedRequest {ParseError}.

Record CaseLoaded := mkCaseLoaded {
  cl_domain : DomainId;
  cl_case : string;
  cl_verdict : EvidenceVerdict;
  cl_seq_range : N * N;
  cl_logs : option nat;
  cl_spans : option nat;
  cl_registry_facts : nat;
  cl_registry_dropped : N;
  cl_anchor : N * string;
}.

(** [load] of the path the request names; [None] is a panic of a ring's assertion. *)
Definition cases_load {ParseError} (load : string → LoadError ParseError + LoadedCase) (params : Value) (b : Broker)
  : option ((LoadRefusal ParseError + CaseLoaded) * Broker) :=
  let refuse (e : RpcError) := Some (inl (RefusedRequest e), b) in
  match req_str params "path" with
  | inl e => refuse e
  | inr raw =>
      match load raw with
      | inl e => Some (inl (RefusedCase e), b)
      | inr case =>
          match (let? wanted := opt_str params "domain" in
                 let? id := domain_id (default (ca_stem case) wanted) in
                 match br_domains b !! id with
                 | Some existing =>
                     err ("domain `" +:+ id +:+ "` already exists and " +:+
                          match bd_postmortem existing with
                          | Some pm => "holds the case `" +:+ pm_case pm +:+ "`"
                          | None => "is a live domain"
                          end +:+
                          ". A postmortem domain is constituted by ONE case — its frozen clock, incarnation, registry and seq range all belong to that capture — so loading a second into it has no coherent meaning. Pass `domain` to name a new one, or delete this first.")
                 | None => let? _ := domain_room b "loading" in inr id
                 end) with
          | inl e => refuse e
          | inr id =>
              d ← assemble_case_domain id case;
              let front := ca_front case in
              Some (inr (mkCaseLoaded (bd_name d) (ca_stem case) (fm_verdict front) (from_seq case, to_seq case) (length <$> ca_logs case)
                           (length <$> ca_spans case) (match ca_registry case with Some r => length (rb_facts r) | None => 0%nat end)
                           (match ca_registry case with Some r => rb_dropped r | None => 0 end) (ar_seq (fm_anchor front), fm_headline front)),
                    set_domains (map_insert d (br_domains b)) b)
          end
      end
  end.

(** ** Every request of the model *)

(** A read of the bound domain: its bookmarks may move, nothing else of the broker. *)
Definition on_bound {R} (id : SessionId) (f : string → option BoundDomain → (RpcError + R) * option BoundDomain) (b : Broker)
  : (RpcError + R) * Broker :=
  let '(r, d) := f (bound_id id b) (bound id b) in
  (r, match d with Some d => set_domains (<[bound_id id b := d]> (br_domains b)) b | None => b end).

Inductive Request :=
  | RqDomainsCreate (req : DomainsCreate)
  | RqDomainsDelete (name : string)
  | RqDomainsUse (id : SessionId) (name : string)
  | RqDomainsClear (id : SessionId)
  | RqLogsClear (id : SessionId)
  | RqLogsRecent (id : SessionId) (params : Value)
  | RqTracesLogs (id : SessionId) (params : Value)
  | RqBookmarksAdd (id : SessionId) (params : Value)
  | RqBookmarksRemove (id : SessionId) (params : Value)
  | RqBookmarksClear (id : SessionId) (params : Value)
  | RqFiltersAdd (id : SessionId) (params : Value)
  | RqFiltersEdit (id : SessionId) (params : Value)
  | RqFiltersRemove (id : SessionId) (params : Value)
  | RqTriggersAdd (id : SessionId) (params : Value)
  | RqTriggersEdit (id : SessionId) (params : Value)
  | RqTriggersRemove (id : SessionId) (params : Value)
  | RqSessionsRename (id : SessionId) (name : string)
  | RqSessionsDrop (params : Value)
  | RqCasesLoad (case : string → LoadError string + LoadedCase) (params : Value)
  | RqDataUpdate (id : SessionId) (params : Value)
  | RqDataRemove (id : SessionId) (params : Value)
  | RqConnect (uuid : string) (p : SessionStartParams)
  | RqDisconnect (id : SessionId)
  | RqExpire (id : SessionId) (ttl : Z).

(** The broker after a request: [None] is a panic. *)
Definition serve (ev : Env) (victim : gset string → option string) (rq : Request) (b : Broker) : option Broker :=
  match rq with
  | RqDomainsCreate req => Some (domains_create ev req b).2
  | RqDomainsDelete name => Some (domains_delete name b).2
  | RqDomainsUse id name => Some (domains_use ev id name b).2
  | RqDomainsClear id => Some (on_bound id domains_clear b).2
  | RqLogsClear id => Some (on_bound id logs_clear b).2
  | RqLogsRecent id params => Some (on_bound id (λ d, logs_recent (ev_now ev) d (id_string id) params) b).2
  | RqTracesLogs id params => Some (on_bound id (λ d, traces_logs (ev_now ev) d (id_string id) params) b).2
  | RqBookmarksAdd id params => Some (on_bound id (λ d, bookmarks_add victim (ev_now ev) d (id_string id) params) b).2
  | RqBookmarksRemove id params => Some (on_bound id (λ d, bookmarks_remove d (id_string id) params) b).2
  | RqBookmarksClear id params => Some (on_bound id (λ d, bookmarks_clear d (id_string id) params) b).2
  | RqFiltersAdd id params => Some (filters_add ev id params b).2
  | RqFiltersEdit id params => Some (filters_edit ev id params b).2
  | RqFiltersRemove id params => Some (filters_remove ev id params b).2
  | RqTriggersAdd id params => Some (triggers_add ev id params b).2
  | RqTriggersEdit id params => Some (triggers_edit ev id params b).2
  | RqTriggersRemove id params => Some (triggers_remove ev id params b).2
  | RqSessionsRename id name => Some (sessions_rename ev id name b).2
  | RqSessionsDrop params => Some (sessions_drop ev params b).2
  | RqCasesLoad case params => snd <$> cases_load case params b
  | RqDataUpdate id params => snd <$> domain_data_update ev id params b
  | RqDataRemove id params => Some (domain_data_remove ev id params b).2
  | RqConnect uuid p => snd <$> start_session ev uuid p b
  | RqDisconnect id => Some (disconnect_session ev id b)
  | RqExpire id ttl => Some (dispose_expired_session ev id ttl b).2
  end.

Fixpoint serve_all (victim : gset string → option string) (rqs : list (Env * Request)) (b : Broker) : option Broker :=
  match rqs with
  | [] => Some b
  | (ev, rq) :: rqs => serve ev victim rq b ≫= serve_all victim rqs
  end.
End broker.
