(* ===== verification/BrokerSpec.v ===== *)
(** * BrokerSpec: what every request keeps

    A broker on which the theorems are applied, where a JSON value is a string
    (an object's is [key=value;key=value], an array's [a|b]). Then: a domain
    keeps its configuration, a case's domain keeps its evidence, and the number
    of created domains keeps its bound. *)

From S2P Require Import Prelude Text F64 Gelf Filter Matcher Samples SeqCounter PreBuffer Epoch Trigger Bookmarks BookmarksSpec Resolver MemStore Pipeline SpanStore DomainData DataFile Session SessionSpec Processor Measure Threshold Collector CollectorSamples History Persist CollReg Project LogProfile LogFields Params Metrics Domains CaseLoad CaseSpec Reads Broker.

Set Default Proof Using "Type".
Local Open Scope N_scope.

Definition field (key s : string) : option string := head (omap (strip_prefix (key +:+ "=")) (str_split ";" s)).
#[export] Instance sample_reader : JsonReader := {|
  Value_get := field;
  Value_is_null := λ s, String.eqb s "null";
  Value_as_u64 := parse_u64;
  Value_as_f64 := λ s, (λ n, f64_of_Z (Z.of_N n)) <$> parse_u64 s;
  Value_as_array := λ s, Some (str_split "|" s);
  Value_is_object := λ _, true;
|}.

(** A port of 0 is the kernel's to choose. *)
Definition sample_sockets : Sockets := mkSockets (λ n, inr (40000 + N.of_nat n)) (λ _ p, inr p) (λ g h, inr (if g =? 0 then 50001 else g, if h =? 0 then 50002 else h)).
Definition sample_env : Env := mkEnv 100 map_to_list map_to_list sample_sockets false None None.
Lemma sample_order : order_ok (ev_sessions sample_env).
Proof. intros m. done. Qed.
Definition sample_policy : DomainPolicy := mkPolicy 1 100 100 60.
Definition sample_config : DomainConfig := mkDomainConfig default_domain 12201 4317 4318 100 100 SourceConfig.
Definition sample_broker : Broker :=
  mkBroker {[ default_domain := new_with_metrics sample_config 0 metrics_new ]} ∅ (sys_new 100000 false) (Some (store_new "1")) ∅.

Definition no_victim (_ : gset string) : option string := None.
Definition no_rfc (_ : Z) : string := "".
Definition sampled (rqs : list Request) : list (Env * Request) := pair sample_env <$> rqs.
Definition on_sample (rqs : list Request) : option Broker := serve_all sample_policy no_rfc no_victim (sampled rqs) sample_broker.

Definition create (name : string) : Request := RqDomainsCreate (mkDomainsCreate name None None None None None false).
Definition connect (name : string) : Request := RqConnect "u" (mkStart (Some name) 1 None None).
Definition a : SessionId := Named "a".

Definition buffer_sizes (b : Broker) : list (DomainId * nat) := (λ kd : DomainId * BoundDomain, (kd.1, PreBuffer.capacity (lp_pre_buffer (bd_pipeline kd.2)))) <$> map_to_list (br_domains b).

Example three_windows :
  (buffer_sizes <$> on_sample [connect "a"; create "t3"; RqDomainsUse a "t3"; RqTriggersAdd a "filter=l>=ERROR;pre_window=700"])
  = Some [("t3", 700%nat); ("default", 0%nat)]%string.
Proof. vm_compute. reflexivity. Qed.

(** A domain brought back under a session still bound to it has no buffer, while
    the session's triggers ask for one. *)
Example brought_back :
  (λ b, (buffer_sizes b, max_pre_window_for_domain map_to_list "t3" (br_sessions b))) <$>
    on_sample [connect "a"; create "t3"; RqDomainsUse a "t3"; RqDomainsDelete "t3"; create "t3"]
  = Some ([("t3", 0%nat); ("default", 0%nat)]%string, 500).
Proof. vm_compute. reflexivity. Qed.

(** One OTLP port of 0 does not turn its receiver off, and the same creation
    again is refused. *)
Definition half_otlp : DomainsCreate := mkDomainsCreate "t3" None (Some 0) (Some 4318) None None false.
Example half_otlp_port :
  let '(r, b) := domains_create sample_policy sample_env half_otlp sample_broker in
  (di_otlp_grpc_port <$> match r with inr i => Some i | inl _ => None end) = Some 50001 ∧
  (domains_create sample_policy sample_env half_otlp b).1 = err ("domain " +:+ quoted "t3" +:+ " already exists with different ports").
Proof. vm_compute. split; reflexivity. Qed.

Section spec.
Context {X : Externals} {SK : SketchCrate} {J : JsonScalars} {JR : JsonReader}.
Context (policy : DomainPolicy) (to_rfc3339 : Z → string) (victim : gset string → option string).

(** ** What happens to one domain *)

(** The evidence: what queries of records answer from. *)
Definition evidence_of (d : BoundDomain) : InMemoryStore * EpochLog * SeqCounter * SpanStore :=
  (lp_store (bd_pipeline d), lp_epochs (bd_pipeline d), lp_seq (bd_pipeline d), bd_spans d).

(** A domain goes on as itself; one of a case goes on with all its evidence. *)
Definition kept (d d' : BoundDomain) : Prop :=
  bd_config d' = bd_config d ∧ bd_postmortem d' = bd_postmortem d ∧
  (is_Some (bd_postmortem d) → evidence_of d' = evidence_of d).
Lemma kept_refl d : kept d d.
Proof. done. Qed.
Lemma kept_trans d1 d2 d3 : kept d1 d2 → kept d2 d3 → kept d1 d3.
Proof. intros (E1 & P1 & V1) (E2 & P2 & V2). split_and!; [congruence|congruence|]. intros H. rewrite V2 by congruence. by apply V1. Qed.
Lemma kept_name d d' : kept d d' → bd_name d' = bd_name d.
Proof. intros (E & _ & _). unfold bd_name. by rewrite E. Qed.

Lemma map_fmap (f : BoundDomain → BoundDomain) (m : DomainMap) k : (f <$> m : DomainMap) !! k = f <$> m !! k.
Proof. apply (lookup_fmap (M:=gmap DomainId)). Qed.
Lemma map_alter (f : BoundDomain → BoundDomain) (m : DomainMap) k k' :
  (alter f k m : DomainMap) !! k' = if decide (k = k') then f <$> m !! k' else m !! k'.
Proof. etrans; [apply (lookup_alter (M:=gmap DomainId))|]. by destruct (decide (k = k')) as [->|]. Qed.
Lemma map_insert_at (m : DomainMap) k d k' : (<[k := d]> m : DomainMap) !! k' = if decide (k = k') then Some d else m !! k'.
Proof. apply (lookup_insert (M:=gmap DomainId)). Qed.
Lemma map_delete (m : DomainMap) k k' : (delete k m : DomainMap) !! k' = if decide (k = k') then None else m !! k'.
Proof. apply (lookup_delete (M:=gmap DomainId)). Qed.

(** ** Relations a domain goes on under *)

Class Keeps (R : BoundDomain → BoundDomain → Prop) : Prop := {
  keeps_refl d : R d d;
  keeps_trans d1 d2 d3 : R d1 d2 → R d2 d3 → R d1 d3;
  keeps_bookmarks d bs : R d (set_bookmark_store bs d);
}.
#[global] Instance kept_keeps : Keeps kept.
Proof. split; [apply kept_refl|apply kept_trans|done]. Qed.

(** No domain comes or goes. *)
Definition all_in (R : BoundDomain → BoundDomain → Prop) (m m' : DomainMap) : Prop := ∀ k, option_Forall2 R (m !! k) (m' !! k).
Definition all_kept : DomainMap → DomainMap → Prop := all_in kept.

Section keeps.
Context {R : BoundDomain → BoundDomain → Prop} {K : Keeps R}.
#[local] Set Default Proof Using "Type K".

Lemma all_in_refl m : all_in R m m.
Proof. intros k. destruct (m !! k); constructor. apply keeps_refl. Qed.
Lemma all_in_trans m1 m2 m3 : all_in R m1 m2 → all_in R m2 m3 → all_in R m1 m3.
Proof.
  intros H1 H2 k. specialize (H1 k). specialize (H2 k). destruct (m1 !! k), (m2 !! k), (m3 !! k); inversion_clear H1; inversion_clear H2; constructor.
  by eapply keeps_trans.
Qed.
Lemma all_in_fmap (f : BoundDomain → BoundDomain) m : (∀ d, R d (f d)) → all_in R m (f <$> m).
Proof. intros Hf k. rewrite map_fmap. destruct (m !! k); constructor. apply Hf. Qed.
Lemma all_in_alter (f : BoundDomain → BoundDomain) k m : (∀ d, R d (f d)) → all_in R m (alter f k m).
Proof. intros Hf k'. rewrite map_alter. destruct (m !! k'), (decide (k = k')); constructor; [apply Hf|apply keeps_refl]. Qed.
Lemma all_in_insert k d d' m : m !! k = Some d → R d d' → all_in R m (<[k := d']> m).
Proof.
  intros Hk Hd k'. rewrite map_insert_at. destruct (decide (k = k')) as [<-|Hne]; [rewrite Hk; by constructor|].
  destruct (m !! k'); constructor. apply keeps_refl.
Qed.

Lemma map_bookmarks_in f m : all_in R m (map_bookmarks f m).2.
Proof. apply all_in_fmap. intros d. apply keeps_bookmarks. Qed.
Lemma release_in id bookmarks w : all_in R (cl_domains w) (cl_domains (release id bookmarks w)).
Proof.
  unfold release. destruct (detach_session id (cl_collectors w)) as [p s]. destruct bookmarks; [|apply all_in_refl].
  pose proof (map_bookmarks_in (clear_session (id_string id)) (cl_domains w)) as H. unfold clear_bookmarks_everywhere. by destruct (map_bookmarks _ _).
Qed.
Lemma transfer_in old new displaced w : all_in R (cl_domains w) (cl_domains (transfer old new displaced w)).
Proof.
  unfold transfer. destruct (if displaced : bool then _ else _) as [p1 s]. destruct (move_owner old new s) as [p2 s2].
  match goal with |- context [map_bookmarks ?f ?m] => pose proof (map_bookmarks_in f m) as H; by destruct (map_bookmarks f m) end.
Qed.
Lemma clear_session_bookmarks_in id b : all_in R (br_domains b) (br_domains (clear_session_bookmarks id b).2).
Proof.
  unfold clear_session_bookmarks. generalize (touched_domains id (br_sessions b)). intros ds.
  match goal with |- context [foldl ?f ?a ds] => set (step := f); assert (∀ n m, all_in R m (foldl step (n, m) ds).2) as H end.
  { induction ds as [|d ds IH]; intros n m; [apply all_in_refl|]. simpl. destruct (m !! d) as [x|] eqn:E; [|apply IH].
    destruct (clear_session (id_string id) (bd_bookmarks x)) as [k bs]. eapply all_in_trans; [|apply IH]. eapply all_in_insert; [done|apply keeps_bookmarks]. }
  specialize (H 0%nat (br_domains b)). by destruct (foldl _ _ _).
Qed.

Definition read_in (d d' : option BoundDomain) : Prop := option_Forall2 R d d'.
Lemma read_refl d : read_in d d.
Proof. destruct d; constructor. apply keeps_refl. Qed.
Lemma on_domain_in {T} id d (f : BoundDomain → (RpcError + T) * BookmarkStore) : read_in d (on_domain id d f).2.
Proof.
  unfold on_domain. destruct d as [b|]; [|constructor]. simpl. destruct (f b) as [r bs]. constructor. apply keeps_bookmarks.
Qed.
Lemma reading_in {T} id spans d (f : BoundDomain → (RpcError + T) * BookmarkStore) : read_in d (reading id spans d f).2.
Proof. unfold reading. destruct (require_evidence d spans); [apply read_refl|apply on_domain_in]. Qed.
Lemma on_bound_in {T} id (f : string → option BoundDomain → (RpcError + T) * option BoundDomain) b :
  (∀ i d, read_in d (f i d).2) → all_in R (br_domains b) (br_domains (on_bound id f b).2).
Proof.
  intros Hf. unfold on_bound. specialize (Hf (bound_id id b) (bound id b)). unfold bound in *.
  destruct (f (bound_id id b) (br_domains b !! bound_id id b)) as [r d']. simpl in *.
  destruct (br_domains b !! bound_id id b) as [d|] eqn:E; inversion Hf; subst; [|apply all_in_refl].
  by eapply all_in_insert.
Qed.
End keeps.

Lemma kept_sync ev reg d : kept d (sync_one ev reg d).
Proof. done. Qed.
Lemma sync_at_kept ev id b : all_kept (br_domains b) (br_domains (sync_at ev id b)).
Proof. apply all_in_alter. intros d. apply kept_sync. Qed.
Lemma resync_kept ev b : all_kept (br_domains b) (br_domains (resync_pre_buffers ev b)).
Proof. apply all_in_fmap. intros d. apply kept_sync. Qed.

(** ** Requests that keep every domain *)

Lemma session_change_kept {P A} ev id sync (p : RpcError + P) (f : P → SessionRegistry → (RpcError + A) * SessionRegistry) b :
  all_kept (br_domains b) (br_domains (session_change ev id sync p f b).2).
Proof.
  unfold session_change. destruct p as [e|p]; [apply all_in_refl|]. destruct (f p (br_sessions b)) as [[e|a] reg]; [apply all_in_refl|].
  simpl. destruct sync; [apply (sync_at_kept ev (bound_id id b) (set_sessions reg b))|apply all_in_refl].
Qed.

Lemma domains_use_kept ev id name b : all_kept (br_domains b) (br_domains (domains_use policy ev id name b).2).
Proof.
  unfold domains_use. destruct (domain_id name) as [e|new_id]; [apply all_in_refl|]. destruct (br_domains b !! new_id) as [d|]; [|apply all_in_refl].
  cbn [snd]. case_bool_decide; (eapply all_in_trans; [|apply sync_at_kept]); [apply all_in_refl|].
  apply (sync_at_kept ev (bound_id id b) (set_sessions _ b)).
Qed.

Lemma sessions_drop_kept ev params b : all_kept (br_domains b) (br_domains (sessions_drop ev params b).2).
Proof.
  unfold sessions_drop. destruct (req_str params "name") as [e|name]; [apply all_in_refl|]. unfold Session.drop_session.
  destruct (br_sessions b !! Named name) as [st|]; [destruct (s_connected st)|]; cbn [snd fst].
  - apply all_in_refl.
  - rewrite bool_decide_eq_true_2 by done. eapply all_in_trans; [|apply resync_kept]. apply (release_in (Named name) true (cleanup_start b)).
  - rewrite bool_decide_eq_false_2 by done. apply (release_in (Named name) false (cleanup_start b)).
Qed.

Lemma sessions_rename_kept ev id name b : all_kept (br_domains b) (br_domains (sessions_rename ev id name b).2).
Proof.
  unfold sessions_rename. destruct (Session.rename _ _ _ _ _ _) as [[[e|[new_id displaced]] reg] w] eqn:E; [apply all_in_refl|]. cbn [snd].
  assert (all_kept (br_domains b) (cl_domains w)) as Hw.
  { unfold Session.rename in E. repeat case_match; simplify_eq; try apply all_in_refl;
    apply (transfer_in id (Named name) _ (cleanup_start b)). }
  destruct displaced; [|done]. eapply all_in_trans; [exact Hw|]. apply (resync_kept ev (finish_cleanup reg w b)).
Qed.

Lemma dispose_kept ev id ttl b : all_kept (br_domains b) (br_domains (dispose_expired_session ev id ttl b).2).
Proof.
  unfold dispose_expired_session, dispose_if_expired. destruct (br_sessions b !! id) as [st|]; [|apply all_in_refl].
  destruct (abandoned _ _ _); [|apply all_in_refl]. cbn [snd]. eapply all_in_trans; [|apply resync_kept].
  apply (release_in id true (cleanup_start b)).
Qed.

Lemma disconnect_kept ev id b : all_kept (br_domains b) (br_domains (disconnect_session ev id b)).
Proof.
  unfold disconnect_session, clear_session_collectors. pose proof (clear_session_bookmarks_in (R := kept) id b) as Hc.
  destruct (is_anonymous id); [|apply all_in_refl]. destruct (detach_session _ _) as [p s]. eapply all_in_trans; [exact Hc|].
  apply (resync_kept ev (set_sessions _ (set_collectors _ (clear_session_bookmarks id b).2))).
Qed.

Lemma start_session_kept ev uuid p b r b' : start_session ev uuid p b = Some (r, b') → all_kept (br_domains b) (br_domains b').
Proof.
  unfold start_session. destruct (start_checks p b) as [e|connect]; [intros [= <- <-]; apply all_in_refl|].
  intros ([[e|[id is_new]] reg] & _ & H)%bind_Some; [injection H as <- <-; apply all_in_refl|].
  match type of H with context [resync_pre_buffers ev ?x] => pose proof (resync_kept ev x) as Hr end.
  destruct (drain_notifications _ _) as [queued reg']. by injection H as <- <-.
Qed.

(** ** Reads of the bound domain *)

(** An operation on a live domain only is refused on a case's. *)
Lemma require_live_open d op u : require_live (Some d) op = inr u → bd_postmortem d = None.
Proof. simpl. by destruct (bd_postmortem d). Qed.
Lemma logs_clear_kept id d : read_in (R := kept) d (logs_clear id d).2.
Proof.
  unfold logs_clear. destruct (require_live d "clear_logs") as [e|u] eqn:E; [apply read_refl|]. destruct d as [d|]; [|constructor]. simpl.
  constructor. apply require_live_open in E. split_and!; [done|done|]. rewrite E. by intros [? ?].
Qed.
Lemma domains_clear_kept id d : read_in (R := kept) d (domains_clear id d).2.
Proof.
  unfold domains_clear. destruct (require_live d "clear_domain") as [e|u] eqn:E; [apply read_refl|]. destruct d as [d|]; [|constructor]. simpl.
  destruct (SpanStore.clear (bd_spans d)) as [m ss].
  constructor. apply require_live_open in E. split_and!; [done|done|]. rewrite E. by intros [? ?].
Qed.

(** ** Provenance *)

Lemma open_registry_domains ev id b : br_domains (open_registry to_rfc3339 ev id b).2 = br_domains b ∧ br_sessions (open_registry to_rfc3339 ev id b).2 = br_sessions b.
Proof.
  unfold open_registry. destruct (br_data b) as [store|]; [|done]. destruct (resolve id b) as [e|d]; [done|]. destruct (bd_postmortem d); [done|].
  by destruct (for_domain _ _ _ _ _ _ _) as [[reg st] disk].
Qed.

(** On a live domain the write goes to the store. *)
Lemma put_registry_domains id reg disk b : (∀ d, bound id b = Some d → bd_postmortem d = None) → br_domains (put_registry id reg disk b) = br_domains b.
Proof. intros Hl. unfold put_registry. destruct (bound id b) as [d|] eqn:E; [|done]. by rewrite (Hl d eq_refl). Qed.
Lemma mutate_bound_domains {T} ev id reg (f : Registry → T * Registry) b out saved b' :
  (∀ d, bound id b = Some d → bd_postmortem d = None) → mutate_bound ev id reg f b = (out, saved, b') → br_domains b' = br_domains b.
Proof.
  intros Hl. unfold mutate_bound. destruct (mutate f _ reg _) as [[[o s] r] disk]. intros [= <- <- <-]. by apply put_registry_domains.
Qed.
Lemma live_open id op b u : live id op b = inr u → ∀ d, bound id b = Some d → bd_postmortem d = None.
Proof. unfold live. intros H d E. rewrite E in H. by eapply require_live_open. Qed.
Lemma bound_domains id b b' : br_domains b' = br_domains b → br_sessions b' = br_sessions b → bound id b' = bound id b.
Proof. unfold bound, bound_id. by intros -> ->. Qed.

Lemma data_update_domains ev id params b r b' : domain_data_update to_rfc3339 ev id params b = Some (r, b') → br_domains b' = br_domains b.
Proof.
  unfold domain_data_update. destruct (live id _ b) as [e|u] eqn:E; [by intros [= <- <-]|]. unfold apply_data_entries.
  destruct (open_registry_domains ev id b) as [E1 E2]. destruct (open_registry to_rfc3339 ev id b) as [[e|reg] b1]; simpl in *; [by intros [= <- <-]|].
  destruct (parse_data_entries _) as [e|[[indexed rejected]|]]; [by intros [= <- <-]| |done]. unfold unzip_entries.
  destruct (mutate_bound _ _ _ _ b1) as [[applied saved] b2] eqn:Em. intros [= <- <-]. rewrite <-E1. eapply mutate_bound_domains, Em.
  intros d. rewrite (bound_domains id b b1 E1 E2). by eapply live_open.
Qed.
Lemma data_remove_domains ev id params b : br_domains (domain_data_remove to_rfc3339 ev id params b).2 = br_domains b.
Proof.
  unfold domain_data_remove. destruct (live id _ b) as [e|u] eqn:E; [done|].
  destruct (open_registry_domains ev id b) as [E1 E2]. destruct (open_registry to_rfc3339 ev id b) as [r b1]. simpl in *.
  destruct (rbind r _) as [e|[reg patterns]]; [done|].
  destruct (mutate_bound _ _ _ _ b1) as [[out saved] b2] eqn:Em. simpl. rewrite <-E1. eapply mutate_bound_domains, Em.
  intros d. rewrite (bound_domains id b b1 E1 E2). by eapply live_open.
Qed.

(** ** What a request does to the map *)

Lemma rbind_inr {A B} (r : RpcError + A) (f : A → RpcError + B) b : rbind r f = inr b → ∃ a, r = inr a ∧ f a = inr b.
Proof. destruct r as [|a]; [done|]. eauto. Qed.

(** A created domain: under a free valid name, within the policy's bound. *)
Record created (b : Broker) (d : BoundDomain) : Prop := {
  cr_free : br_domains b !! bd_name d = None;
  cr_valid : is_valid_name (bd_name d) = true;
  cr_source : dc_source (bd_config d) = SourceEphemeral;
  cr_room : (api_created b < max_domains policy)%nat;
  cr_buffer : pb_capacity (lp_pre_buffer (bd_pipeline d)) = 0%nat;
}.

Inductive map_step (rq : Request) (b : Broker) : DomainMap → Prop :=
  | ms_kept m : all_kept (br_domains b) m → map_step rq b m
  | ms_new d : created b d → map_step rq b (map_insert d (br_domains b))
  | ms_gone name d : rq = RqDomainsDelete name → br_domains b !! (name : DomainId) = Some d → dc_source (bd_config d) ≠ SourceConfig →
      map_step rq b (delete (name : DomainId) (br_domains b)).

Lemma domain_id_ok name id : domain_id name = inr id → id = name ∧ is_valid_name id = true.
Proof. unfold domain_id, DomainId_new. destruct (is_valid_name name) eqn:E; [|done]. simpl. by intros [= ->]. Qed.
Lemma domain_room_ok b doing u : domain_room policy b doing = inr u → (api_created b < max_domains policy)%nat.
Proof. unfold domain_room. destruct (Nat.leb_spec (max_domains policy) (api_created b)); [done|]. done. Qed.

Lemma spawn_ok so id ports logs spans d : spawn_ephemeral_domain so id ports logs spans SourceEphemeral = inr d →
  bd_name d = id ∧ dc_source (bd_config d) = SourceEphemeral ∧ bd_postmortem d = None ∧ pb_capacity (lp_pre_buffer (bd_pipeline d)) = 0%nat.
Proof.
  unfold spawn_ephemeral_domain. destruct (start_gelf so _) as [e|gelf]; [done|]. destruct (start_otlp so ports) as [e|[grpc http]]; [done|].
  by intros [= <-].
Qed.

(** A creation leaves the broker alone or adds one domain. *)
Lemma create_new ev req b : (domains_create policy ev req b).2 = b ∨
  ∃ d, created b d ∧ (domains_create policy ev req b).2 = set_domains (map_insert d (br_domains b)) b.
Proof.
  unfold domains_create. match goal with |- context [match ?P with inl _ => _ | inr _ => _ end] => destruct P as [e|[info [d|]]] eqn:E end;
    [by left| |by left].
  right. exists d. split; [|done]. destruct (rq_persist req); [done|]. apply rbind_inr in E as (id & [-> Hv]%domain_id_ok & E).
  do 3 apply rbind_inr in E as ([] & _ & E). destruct (br_domains b !! (rq_domain req : DomainId)) eqn:Hfree; [by apply rbind_inr in E as (? & _ & ?)|].
  apply rbind_inr in E as (u & Hroom%domain_room_ok & E). do 2 apply rbind_inr in E as ([] & _ & E).
  destruct (spawn_ephemeral_domain _ _ _ _ _ _) as [e|d'] eqn:Es; [done|]. injection E as <- ->.
  apply spawn_ok in Es as (En & Hsrc & _ & Hcap). constructor; rewrite ?En; done.
Qed.
Lemma create_step ev req b : map_step (RqDomainsCreate req) b (br_domains (domains_create policy ev req b).2).
Proof. destruct (create_new ev req b) as [->|(d & Hd & ->)]; [apply ms_kept, all_in_refl|by apply ms_new]. Qed.

Lemma assemble_ok id c d : assemble_case_domain id c = Some d →
  bd_name d = id ∧ dc_source (bd_config d) = SourceEphemeral ∧ pb_capacity (lp_pre_buffer (bd_pipeline d)) = 0%nat.
Proof.
  unfold assemble_case_domain, Pipeline.from_records. intros (p & Hp & (ss & _ & [= <-])%bind_Some)%bind_Some.
  apply fmap_Some in Hp as (st & _ & ->). done.
Qed.
Lemma load_new {PE} (case : string → LoadError PE + LoadedCase) params b r b' : cases_load policy case params b = Some (r, b') →
  b' = b ∨ ∃ d, created b d ∧ b' = set_domains (map_insert d (br_domains b)) b.
Proof.
  unfold cases_load. destruct (req_str params "path") as [e|raw]; [intros [= <- <-]; by left|].
  destruct (case raw) as [e|c]; [intros [= <- <-]; by left|].
  match goal with |- context [match ?P with inl _ => _ | inr _ => _ end] => destruct P as [e|id] eqn:E end; [intros [= <- <-]; by left|].
  intros (d & Hd & [= <- <-])%bind_Some. right. exists d. split; [|done]. apply rbind_inr in E as (wanted & _ & (id' & [-> Hv]%domain_id_ok & E)%rbind_inr).
  destruct (br_domains b !! (default (ca_stem c) wanted : DomainId)) eqn:Hfree; [done|]. apply rbind_inr in E as (u & Hroom%domain_room_ok & [= <-]).
  apply assemble_ok in Hd as (En & Hsrc & Hcap). constructor; rewrite ?En; done.
Qed.
Lemma load_step (case : string → LoadError string + LoadedCase) params b r b' : cases_load policy case params b = Some (r, b') → map_step (RqCasesLoad case params) b (br_domains b').
Proof. intros [->|(d & Hd & ->)]%load_new; [apply ms_kept, all_in_refl|by apply ms_new]. Qed.

Lemma delete_step name b : map_step (RqDomainsDelete name) b (br_domains (domains_delete name b).2).
Proof.
  unfold domains_delete. destruct (domain_id name) as [e|id] eqn:E; [apply ms_kept, all_in_refl|]. apply domain_id_ok in E as [-> _].
  destruct (br_domains b !! (name : DomainId)) as [d|] eqn:Ed; [|apply ms_kept, all_in_refl]. case_bool_decide; [apply ms_kept, all_in_refl|].
  by eapply ms_gone.
Qed.

Lemma serve_step ev rq b b' : serve policy to_rfc3339 ev victim rq b = Some b' → map_step rq b (br_domains b').
Proof.
  assert (∀ m, m = br_domains b → map_step rq b m) as Hsame by (intros m ->; apply ms_kept, all_in_refl).
  destruct rq; simpl; try (intros [= <-]); try (apply ms_kept; first
    [apply domains_use_kept|apply session_change_kept|apply sessions_rename_kept|apply sessions_drop_kept|apply disconnect_kept|apply dispose_kept]).
  - apply create_step.
  - apply delete_step.
  - apply ms_kept, on_bound_in. intros; apply domains_clear_kept.
  - apply ms_kept, on_bound_in. intros; apply logs_clear_kept.
  - apply ms_kept, on_bound_in. intros; apply reading_in.
  - apply ms_kept, on_bound_in. intros; apply reading_in.
  - apply ms_kept, on_bound_in. intros; apply on_domain_in.
  - apply ms_kept, on_bound_in. intros; apply on_domain_in.
  - apply ms_kept, on_bound_in. intros; apply on_domain_in.
  - intros ([r b1] & H & ->)%fmap_Some. by eapply load_step.
  - intros ([r b1] & H & ->)%fmap_Some. apply Hsame. by eapply data_update_domains.
  - apply Hsame, data_remove_domains.
  - intros ([r b1] & H & ->)%fmap_Some. apply ms_kept. by eapply start_session_kept.
Qed.

(** ** The registry of domains over a run *)

Definition created_keys (m : DomainMap) : gset DomainId := dom (filter (λ kd : DomainId * BoundDomain, dc_source (bd_config kd.2) ≠ SourceConfig) m).
Lemma created_count b : api_created b = size (created_keys (br_domains b)).
Proof. symmetry. apply (size_dom (M:=gmap DomainId) (D:=gset DomainId)). Qed.
Lemma created_keys_elem m k : k ∈ created_keys m ↔ ∃ d, m !! k = Some d ∧ dc_source (bd_config d) ≠ SourceConfig.
Proof.
  etrans; [apply (elem_of_dom (M:=gmap DomainId) (D:=gset DomainId))|]. split.
  - intros [d [H1 H2]%(map_lookup_filter_Some (M:=gmap DomainId))]. eauto.
  - intros (d & H1 & H2). exists d. by apply (map_lookup_filter_Some (M:=gmap DomainId)).
Qed.
Lemma all_kept_Some m m' k d : all_kept m m' → m !! k = Some d → ∃ d', m' !! k = Some d' ∧ kept d d'.
Proof. intros H Hk. specialize (H k). rewrite Hk in H. inversion H; subst. eauto. Qed.
Lemma all_kept_back m m' k d' : all_kept m m' → m' !! k = Some d' → ∃ d, m !! k = Some d ∧ kept d d'.
Proof. intros H Hk. specialize (H k). rewrite Hk in H. inversion H; subst. eauto. Qed.

(** Keyed by valid names, never above the bound, and [default] is there. *)
Record registry_ok (m : DomainMap) : Prop := {
  ro_keyed : ∀ k d, m !! k = Some d → bd_name d = k ∧ is_valid_name k = true;
  ro_default : ∃ d, m !! default_domain = Some d ∧ dc_source (bd_config d) = SourceConfig;
  ro_bound : (size (created_keys m) ≤ max_domains policy)%nat;
}.

Lemma step_ok rq b m : registry_ok (br_domains b) → map_step rq b m → registry_ok m.
Proof.
  intros [K (d0 & D0 & S0) B] [m' Hk|d [Cf Cv Cs Cr _]|name d -> Hd Hsrc]; constructor.
  - intros k d' (d & Hd & Hkd)%(all_kept_back _ _ _ _ Hk). destruct (K k d Hd) as [? ?]. by rewrite (kept_name _ _ Hkd).
  - destruct (all_kept_Some _ _ _ _ Hk D0) as (d' & Hd' & E & _). exists d'. by rewrite E.
  - replace (created_keys m') with (created_keys (br_domains b)); [done|]. apply set_eq. intros k. rewrite !created_keys_elem. split.
    + intros (d & Hd & Hs). destruct (all_kept_Some _ _ _ _ Hk Hd) as (d' & Hd' & E & _). exists d'. by rewrite E.
    + intros (d' & Hd' & Hs). destruct (all_kept_back _ _ _ _ Hk Hd') as (d & Hd & E & _). exists d. by rewrite <-E.
  - intros k d'. unfold map_insert. rewrite map_insert_at. destruct (decide (bd_name d = k)) as [<-|]; [by intros [= <-]|apply K].
  - exists d0. unfold map_insert. rewrite map_insert_at. destruct (decide _) as [E|]; [|done]. congruence.
  - rewrite created_count in Cr. assert (created_keys (map_insert d (br_domains b)) ⊆ {[bd_name d]} ∪ created_keys (br_domains b)) as Hsub.
    { intros k (d' & Hd' & Hs)%created_keys_elem. unfold map_insert in Hd'. rewrite map_insert_at in Hd'.
      destruct (decide (bd_name d = k)) as [<-|]; [set_solver|]. apply elem_of_union_r, created_keys_elem. eauto. }
    apply subseteq_size in Hsub. pose proof (size_union_alt {[bd_name d]} (created_keys (br_domains b))) as Hu. rewrite size_singleton in Hu.
    assert (size (created_keys (br_domains b) ∖ {[bd_name d]}) ≤ size (created_keys (br_domains b)))%nat by (apply subseteq_size; set_solver). lia.
  - intros k d'. rewrite map_delete. destruct (decide _); [done|apply K].
  - exists d0. rewrite map_delete. destruct (decide _) as [E|]; [|done]. subst. rewrite D0 in Hd. by simplify_eq.
  - etrans; [|exact B]. apply subseteq_size. intros k (d' & Hd' & Hs)%created_keys_elem. rewrite map_delete in Hd'.
    destruct (decide _); [done|]. apply created_keys_elem. eauto.
Qed.

Lemma step_config rq b m k d : map_step rq b m → br_domains b !! k = Some d → dc_source (bd_config d) = SourceConfig →
  ∃ d', m !! k = Some d' ∧ kept d d'.
Proof.
  intros [m' Hk|x [Cf _ _ _ _]|name x -> Hx Hsrc] Hd Hs.
  - by eapply all_kept_Some.
  - exists d. unfold map_insert. rewrite map_insert_at. destruct (decide _) as [E|]; [congruence|]. split; [done|apply kept_refl].
  - exists d. rewrite map_delete. destruct (decide _) as [E|]; [subst; rewrite Hx in Hd; by simplify_eq|]. split; [done|apply kept_refl].
Qed.
Lemma step_undeleted rq b m (k : DomainId) d : map_step rq b m → rq ≠ RqDomainsDelete k → br_domains b !! k = Some d → ∃ d', m !! k = Some d' ∧ kept d d'.
Proof.
  intros [m' Hk|x [Cf _ _ _ _]|name x -> Hx Hsrc] Hn Hd.
  - by eapply all_kept_Some.
  - exists d. unfold map_insert. rewrite map_insert_at. destruct (decide _) as [E|]; [congruence|]. split; [done|apply kept_refl].
  - exists d. rewrite map_delete. destruct (decide _) as [E|]; [congruence|]. split; [done|apply kept_refl].
Qed.
End spec.

(** C14: Over any run of requests the domains stay keyed by their valid names,
    the created ones never exceed [max_domains], and [default] and every other
    configured domain outlive the run with their configuration. *)
Theorem domains_invariant {X : Externals} {SK : SketchCrate} {J : JsonScalars} {JR : JsonReader} policy to_rfc3339 victim rqs : ∀ b b',
  registry_ok policy (br_domains b) → serve_all policy to_rfc3339 victim rqs b = Some b' →
  registry_ok policy (br_domains b') ∧
  ∀ k d, br_domains b !! k = Some d → dc_source (bd_config d) = SourceConfig → ∃ d', br_domains b' !! k = Some d' ∧ bd_config d' = bd_config d.
Proof.
  induction rqs as [|[ev rq] rqs IH]; simpl; intros b b' Hok.
  - intros [= <-]. split; [done|]. intros k d Hd _. by exists d.
  - intros (b1 & H1%serve_step & H)%bind_Some. destruct (IH b1 b' (step_ok _ _ _ _ Hok H1) H) as [Hok' Hc]. split; [done|].
    intros k d Hd Hs. destruct (step_config _ _ _ _ k d H1 Hd Hs) as (d1 & Hd1 & E1 & _). rewrite <-E1 in Hs |- *. by apply Hc.
Qed.

(** C12: A loaded case never changes: over any run of requests that does not
    delete its domain, its records, its spans, its epochs and its counter stay
    those it was loaded with, and so do its provenance and its clock. *)
Theorem case_never_changes {X : Externals} {SK : SketchCrate} {J : JsonScalars} {JR : JsonReader} policy to_rfc3339 victim rqs : ∀ b b' (k : DomainId) d pm,
  (∀ ev name, (ev, RqDomainsDelete name) ∈ rqs → name ≠ k) → serve_all policy to_rfc3339 victim rqs b = Some b' →
  br_domains b !! k = Some d → bd_postmortem d = Some pm →
  ∃ d', br_domains b' !! k = Some d' ∧ evidence_of d' = evidence_of d ∧ bd_postmortem d' = Some pm.
Proof.
  induction rqs as [|[ev rq] rqs IH]; simpl; intros b b' k d pm Hn.
  - intros [= <-] Hd Hpm. by exists d.
  - intros (b1 & H1%serve_step & H)%bind_Some Hd Hpm.
    destruct (step_undeleted _ _ _ _ k d H1) as (d1 & Hd1 & _ & Ep & Ev); [|done|].
    { intros ->. eapply (Hn ev k); [by left|done]. }
    destruct (IH b1 b' k d1 pm) as (d' & Hd' & Ev' & Ep'); [|done|done|congruence|].
    { intros ev' name Hin. apply (Hn ev'). by right. }
    exists d'. split_and!; [done| |done]. rewrite Ev'. apply Ev. by rewrite Hpm.
Qed.

(** ** Witnesses *)

Lemma sample_registry_ok : registry_ok sample_policy (br_domains sample_broker).
Proof.
  split.
  - intros k d. change (br_domains sample_broker !! k) with (({[default_domain := new_with_metrics sample_config 0 metrics_new]} : gmap string BoundDomain) !! k).
    intros [<- <-]%lookup_singleton_Some. split; reflexivity.
  - exists (new_with_metrics sample_config 0 metrics_new). split; reflexivity.
  - vm_compute. lia.
Qed.

Definition sample_run : list (Env * Request) := sampled [create "t3"; create "t4"; RqDomainsDelete "default"; RqDomainsDelete "t3"].
Lemma domains_invariant_witness :
  ∃ b', serve_all sample_policy no_rfc no_victim sample_run sample_broker = Some b' ∧ registry_ok sample_policy (br_domains b') ∧
    ∃ d, br_domains b' !! default_domain = Some d ∧ bd_config d = sample_config.
Proof.
  assert (is_Some (serve_all sample_policy no_rfc no_victim sample_run sample_broker)) as [b' E] by by_eval. exists b'. split; [done|].
  destruct (domains_invariant sample_policy no_rfc no_victim sample_run sample_broker b' sample_registry_ok E) as [H1 H2].
  split; [exact H1|]. apply (H2 default_domain (new_with_metrics sample_config 0 metrics_new)); reflexivity.
Defined.

Definition with_case : Broker :=
  default sample_broker (on_sample [RqCasesLoad (λ _, sample_load 2) "path=/d/x.md"; RqConnect "u" (mkStart (Some "a") 1 None (Some "x"))]%string).
Definition case_run : list (Env * Request) :=
  sampled [RqLogsClear a; RqTriggersAdd a "filter=l>=ERROR"; RqDataUpdate a "entries=path=/a;value=1"; RqDomainsClear a]%string.
Definition seqs_at (k : DomainId) (b : Broker) : option (list N * bool) :=
  (λ d, (seq <$> entries (inner (lp_store (bd_pipeline d))), is_postmortem d)) <$> br_domains b !! k.
Lemma case_never_changes_witness :
  ∃ b', serve_all sample_policy no_rfc no_victim case_run with_case = Some b' ∧ seqs_at "x" b' = Some ([3; 5], true).
Proof.
  assert (is_Some (serve_all sample_policy no_rfc no_victim case_run with_case)) as [b' E] by by_eval. exists b'. split; [done|].
  assert (seqs_at "x" with_case = Some ([3; 5], true)) as Hx by (vm_compute; reflexivity).
  unfold seqs_at in *. apply fmap_Some in Hx as (d & Hd & Hx). injection Hx as Hseqs Hpm.
  unfold is_postmortem in Hpm. symmetry in Hpm. apply bool_decide_eq_true in Hpm as [pm Hpm].
  destruct (case_never_changes sample_policy no_rfc no_victim case_run with_case b' "x"%string d pm) as (d' & Hd' & Hev & Hpm'); [|exact E|exact Hd|exact Hpm|].
  - intros ev name Hin. simpl in Hin. repeat (apply elem_of_cons in Hin as [Hin|Hin]; [discriminate|]). exfalso. exact (not_elem_of_nil _ Hin).
  - rewrite Hd'. cbn [fmap option_fmap option_map]. injection Hev as Hst _ _ _. rewrite Hst, <-Hseqs. unfold is_postmortem. by rewrite Hpm'.
Defined.
