(* ===== verification/BrokerData.v ===== *)
(** * BrokerData: the state the handlers share stays consistent

    After every request each domain's buffer is as long as the longest window
    a session bound to it asks for, unless the request brings back a domain
    that a session was still bound to. A batch of facts is answered entry by
    entry, and dropping a session takes exactly what is its own. *)

From S2P Require Import Prelude Text F64 Gelf Filter Matcher Samples SeqCounter PreBuffer Epoch Trigger Bookmarks Resolver MemStore Pipeline SpanStore DomainData DataFile Session SessionSpec Processor Measure Threshold Collector CollectorSamples History Persist CollReg Project LogProfile LogFields Params Metrics Domains CaseLoad Reads Broker BrokerSpec.

Set Default Proof Using "Type".
Local Open Scope N_scope.

Section spec.
Context {X : Externals} {SK : SketchCrate} {J : JsonScalars} {JR : JsonReader}.
Context (policy : DomainPolicy) (to_rfc3339 : Z → string) (victim : gset string → option string).

(** ** What the sessions ask for *)

Definition within (reg : SessionRegistry) (k : DomainId) (n : N) : Prop :=
  ∀ id st, reg !! id = Some st → s_domain st = k → max_pre_window (s_triggers st) ≤ n.

Lemma foldr_max_le l n : foldr N.max 0 l ≤ n ↔ ∀ x, x ∈ l → x ≤ n.
Proof.
  induction l as [|x l IH]; simpl; [split; [by intros _ ? ?%elem_of_nil|lia]|]. rewrite N.max_lub_iff, IH. split.
  - intros [Hx Hl] y [->|Hy]%elem_of_cons; [done|by apply Hl].
  - intros H. split; [apply H; by left|]. intros y Hy. apply H. by right.
Qed.

Lemma max_within ord k reg n : order_ok ord → (max_pre_window_for_domain ord k reg ≤ n ↔ within reg k n).
Proof.
  intros Ho. unfold max_pre_window_for_domain. rewrite foldr_max_le. split.
  - intros H id st Hst Hd. apply H. apply list_elem_of_fmap. exists (id, st). split; [done|]. apply elem_of_lfilter. split.
    + unfold is_in_domain. simpl. by apply String.eqb_eq.
    + rewrite (Ho reg). by apply (elem_of_map_to_list (M:=gmap SessionId)).
  - intros H x ([id st] & -> & [Hd Hin]%elem_of_lfilter)%list_elem_of_fmap. apply (H id st).
    + rewrite (Ho reg) in Hin. by apply (elem_of_map_to_list (M:=gmap SessionId)) in Hin.
    + by apply String.eqb_eq in Hd.
Qed.

(** The buffer holds as many records as its domain's sessions ask for. *)
Definition cap (d : BoundDomain) : nat := pb_capacity (lp_pre_buffer (bd_pipeline d)).
Definition asked (reg : SessionRegistry) (k : DomainId) (n : nat) : Prop := ∀ m, N.of_nat n ≤ m ↔ within reg k m.
Definition sized (b : Broker) : Prop := ∀ k d, br_domains b !! k = Some d → asked (br_sessions b) k (cap d).

Definition same_asks (reg reg' : SessionRegistry) (k : DomainId) : Prop := ∀ m, within reg k m ↔ within reg' k m.
Lemma same_asks_refl reg k : same_asks reg reg k.
Proof. done. Qed.
Lemma same_asks_trans r1 r2 r3 k : same_asks r1 r2 k → same_asks r2 r3 k → same_asks r1 r3 k.
Proof. intros H1 H2 m. by rewrite (H1 m). Qed.

(** The same domains, their buffers' sizes too. *)
Definition calm (d d' : BoundDomain) : Prop := bd_name d' = bd_name d ∧ cap d' = cap d.
#[global] Instance calm_keeps : Keeps calm.
Proof.
  split; [done| |done]. intros d1 d2 d3 [N1 C1] [N2 C2]. split; congruence.
Qed.

Definition keyed (m : DomainMap) : Prop := ∀ k d, m !! k = Some d → bd_name d = k.

(** ** Steps that leave the sizes right *)

Lemma sized_calm b b' : all_in calm (br_domains b) (br_domains b') → (∀ k, same_asks (br_sessions b) (br_sessions b') k) →
  sized b → sized b'.
Proof.
  intros Hc Hs H k d' Hd' m. specialize (Hc k). rewrite Hd' in Hc. destruct (br_domains b !! k) as [d|] eqn:E; inversion Hc as [? ? [_ C]|]; subst.
  rewrite C, <-(Hs k m). by apply H.
Qed.

Lemma asked_sync ord k reg : order_ok ord → asked reg k (N.to_nat (max_pre_window_for_domain ord k reg)).
Proof. intros Ho m. rewrite N2Nat.id. by apply max_within. Qed.
Lemma sync_one_cap ev reg d : cap (sync_one ev reg d) = N.to_nat (max_pre_window_for_domain (ev_sessions ev) (bd_name d) reg).
Proof. unfold cap. simpl. unfold resize, expire. by destruct (expire_loop _ _ _). Qed.

Lemma keyed_in (R : BoundDomain → BoundDomain → Prop) m m' : (∀ d d', R d d' → bd_name d' = bd_name d) → all_in R m m' → keyed m → keyed m'.
Proof.
  intros Hn Hc Hk k d' Hd'. specialize (Hc k). rewrite Hd' in Hc. destruct (m !! k) as [d|] eqn:E; inversion Hc as [? ? N|]; subst.
  rewrite (Hn _ _ N). by apply Hk.
Qed.

(** Every buffer resized, and one. *)
Lemma sized_resync ev b : order_ok (ev_sessions ev) → keyed (br_domains b) → sized (resync_pre_buffers ev b).
Proof.
  intros Ho Hk k d'. unfold resync_pre_buffers. cbn [br_domains set_domains br_sessions]. rewrite map_fmap. destruct (br_domains b !! k) as [d|] eqn:E; [|done].
  intros [= <-]. rewrite sync_one_cap, (Hk k d E). by apply asked_sync.
Qed.
Lemma sized_sync_at ev k b : order_ok (ev_sessions ev) → keyed (br_domains b) →
  (∀ k' d, k' ≠ k → br_domains b !! k' = Some d → asked (br_sessions b) k' (cap d)) → sized (sync_at ev k b).
Proof.
  intros Ho Hk H k' d'. unfold sync_at. cbn [br_domains set_domains br_sessions]. rewrite map_alter. destruct (decide (k = k')) as [<-|Hne]; [|by apply H].
  destruct (br_domains b !! k) as [d|] eqn:E; [|done]. intros [= <-]. rewrite sync_one_cap, (Hk k d E). by apply asked_sync.
Qed.

(** ** One session's change *)

(** Only [id]'s entry changes, and it stays bound where it was. *)
Definition only (id : SessionId) (reg reg' : SessionRegistry) : Prop :=
  (∀ i, i ≠ id → reg' !! i = reg !! i) ∧ (∀ st', reg' !! id = Some st' → ∃ st, reg !! id = Some st ∧ s_domain st' = s_domain st).
Lemma only_refl id reg : only id reg reg.
Proof. split; [done|eauto]. Qed.
Lemma only_insert id reg st st' : reg !! id = Some st → s_domain st' = s_domain st → only id reg (<[id := st']> reg).
Proof.
  intros Hst Hd. split; [intros i Hi; by apply reg_insert_ne|]. intros x. rewrite reg_insert. intros [= <-]. eauto.
Qed.
Lemma only_asks id reg reg' k : only id reg reg' → k ≠ domain_of id reg → same_asks reg reg' k.
Proof.
  intros [Ho Hd] Hk m. unfold domain_of in Hk. split; intros H i st Hst Hs.
  - destruct (decide (i = id)) as [->|Hi]; [|rewrite Ho in Hst by done; by eapply H].
    destruct (Hd st Hst) as (st0 & E & Es). rewrite E in Hk. congruence.
  - destruct (decide (i = id)) as [->|Hi]; [rewrite Hst in Hk; congruence|]. rewrite <-Ho in Hst by done. by eapply H.
Qed.

Lemma session_change_sized {P A} ev id (p : RpcError + P) (f : P → SessionRegistry → (RpcError + A) * SessionRegistry) b :
  order_ok (ev_sessions ev) → keyed (br_domains b) → sized b →
  (∀ p, only id (br_sessions b) (f p (br_sessions b)).2 ∧ ∀ e, (f p (br_sessions b)).1 = inl e → (f p (br_sessions b)).2 = br_sessions b) →
  sized (session_change ev id true p f b).2.
Proof.
  intros Ho Hk Hs Hf. unfold session_change. destruct p as [e|p]; [done|]. destruct (Hf p) as [Hon He].
  destruct (f p (br_sessions b)) as [[e|a] reg]; simpl in *.
  - rewrite (He e eq_refl). by destruct b.
  - apply sized_sync_at; [done|done|]. intros k' d Hne Hd m. cbn [br_sessions set_sessions].
    rewrite <-(only_asks id (br_sessions b) reg k' Hon Hne m). by apply Hs.
Qed.

(** Filters leave the windows alone. *)
Lemma same_windows id reg st st' : reg !! id = Some st → s_domain st' = s_domain st → s_triggers st' = s_triggers st →
  ∀ k, same_asks reg (<[id := st']> reg) k.
Proof.
  intros Hst Hd Ht k m. split; intros H i x Hx Hs; destruct (decide (i = id)) as [->|Hi].
  - rewrite reg_insert in Hx. injection Hx as <-. rewrite Ht. apply (H id st); congruence.
  - rewrite reg_insert_ne in Hx by done. by eapply H.
  - rewrite Hst in Hx. injection Hx as <-. rewrite <-Ht. apply (H id st'); [by rewrite reg_insert|congruence].
  - apply (H i x); [by rewrite reg_insert_ne|done].
Qed.

Lemma on_triggers_only {A} id (dflt : A) f reg : only id reg (on_triggers id dflt f reg).2.
Proof.
  unfold on_triggers. destruct (reg !! id) as [st|] eqn:E; [|apply only_refl]. destruct (f (s_triggers st)) as [a t].
  by apply (only_insert id reg st).
Qed.
Lemma on_triggers_same {A} id (dflt : A) f reg (bad : A → Prop) :
  (∀ t, bad (f t).1 → (f t).2 = t) → bad (on_triggers id dflt f reg).1 → (on_triggers id dflt f reg).2 = reg.
Proof.
  unfold on_triggers. intros Hf. destruct (reg !! id) as [st|] eqn:E; [|done]. specialize (Hf (s_triggers st)).
  destruct (f (s_triggers st)) as [a t]. simpl in *. intros Hb. rewrite (Hf Hb). apply (insert_id (M:=gmap SessionId)). etrans; [exact E|]. by destruct st.
Qed.

(** ** Each request *)

Lemma calm_bound {T} id (f : string → option BoundDomain → (RpcError + T) * option BoundDomain) b :
  (∀ i d, read_in (R := calm) d (f i d).2) → sized b → sized (on_bound id f b).2.
Proof.
  intros Hf. apply sized_calm; [by apply on_bound_in|]. intros k. unfold on_bound. destruct (f _ _) as [r [d|]]; apply same_asks_refl.
Qed.
Lemma logs_clear_calm i d : read_in (R := calm) d (logs_clear i d).2.
Proof. unfold logs_clear. destruct (require_live d _); [apply read_refl|]. destruct d as [d|]; [|constructor]. by constructor. Qed.
Lemma domains_clear_calm i d : read_in (R := calm) d (domains_clear i d).2.
Proof.
  unfold domains_clear. destruct (require_live d _); [apply read_refl|]. destruct d as [d|]; [|constructor]. simpl.
  destruct (SpanStore.clear (bd_spans d)) as [m ss]. by constructor.
Qed.

Section requests.
Context (ev : Env) (b : Broker) (Ho : order_ok (ev_sessions ev)) (Hk : keyed (br_domains b)) (Hs : sized b).
#[local] Set Default Proof Using "All".

Lemma triggers_add_sized id params : sized (triggers_add ev id params b).2.
Proof.
  apply session_change_sized; [done..|]. intros [[[[[filter pre] post] ctx] desc] oneshot]. unfold add_trigger.
  match goal with |- context [on_triggers id ?d ?f ?r] => pose proof (on_triggers_only id d f r) as H1; pose proof (on_triggers_same id d f r (λ a, ∃ e, a = inl e)) as H2;
    destruct (on_triggers id d f r) as [r' reg'] end.
  simpl in *. split; [done|]. intros e He. apply H2; [|destruct r'; [by eexists|done]]. intros t. unfold Trigger.add. destruct (parse_filter filter); [done|]. by intros [? ?].
Qed.
Lemma triggers_edit_sized id params : sized (triggers_edit ev id params b).2.
Proof.
  apply session_change_sized; [done..|]. intros [[[[[[tid filter] pre] post] ctx] desc] oneshot]. unfold edit_trigger.
  match goal with |- context [on_triggers id ?d ?f ?r] => pose proof (on_triggers_only id d f r) as H1; pose proof (on_triggers_same id d f r (λ a, ∃ e, a = inl e)) as H2;
    destruct (on_triggers id d f r) as [r' reg'] end.
  simpl in *. split; [done|]. intros e He. apply H2; [|destruct r'; [by eexists|done]]. intros t. unfold Trigger.edit.
  destruct filter as [fs|]; [destruct (parse_filter fs); [done|]|]; (destruct (find_trigger tid (triggers t)); [by intros [? ?]|done]).
Qed.
Lemma triggers_remove_sized id params : sized (triggers_remove ev id params b).2.
Proof.
  apply session_change_sized; [done..|]. intros tid. unfold remove_trigger.
  match goal with |- context [on_triggers id ?d ?f ?r] => pose proof (on_triggers_only id d f r) as H1; pose proof (on_triggers_same id d f r (λ a, ∃ e, a = Some e)) as H2;
    destruct (on_triggers id d f r) as [r' reg'] end.
  simpl in *. split; [done|]. intros e He. apply H2; [|destruct r'; [by eexists|done]]. intros t. unfold Trigger.remove.
  destruct (find_trigger tid (triggers t)); [|done]. by intros [? ?].
Qed.

Lemma filters_add_sized id params : sized (filters_add ev id params b).2.
Proof.
  apply session_change_sized; [done..|]. intros [filter desc]. unfold add_filter. destruct (parse_filter filter) as [e|c]; [split; [apply only_refl|done]|].
  destruct (br_sessions b !! id) as [st|] eqn:E; simpl; (split; [|done]); [by apply (only_insert id _ st)|apply only_refl].
Qed.
Lemma filters_remove_sized id params : sized (filters_remove ev id params b).2.
Proof.
  apply session_change_sized; [done..|]. intros fid. unfold remove_filter.
  destruct (br_sessions b !! id) as [st|] eqn:E; simpl; [|split; [apply only_refl|done]]. destruct (remove_first_filter fid (s_filters st)); simpl;
    (split; [|done]); [by apply (only_insert id _ st)|apply only_refl].
Qed.
Lemma filters_edit_sized id params : sized (filters_edit ev id params b).2.
Proof.
  unfold filters_edit, session_change. destruct (rbind _ _) as [e|[[fid filter] desc]]; [done|]. unfold edit_filter.
  destruct (match filter with None => inr None | Some f => _ end) as [e|nc]; [by destruct b|].
  destruct (br_sessions b !! id) as [st|] eqn:E; [|by destruct b]. destruct (edit_first fid _ (s_filters st)) as [[x fs]|]; [|by destruct b].
  simpl. eapply sized_calm; [|intros k; by apply (same_windows id (br_sessions b) st)|exact Hs]. apply all_in_refl.
Qed.

Lemma domains_use_sized id name : sized (domains_use policy ev id name b).2.
Proof.
  unfold domains_use. destruct (domain_id name) as [e|new_id]; [done|]. destruct (br_domains b !! new_id) as [d|]; [|done]. cbn [snd].
  set (reg := set_domain id new_id (br_sessions b)).
  assert (∀ k, k ≠ bound_id id b → k ≠ new_id → same_asks (br_sessions b) reg k) as Hother.
  { intros k H1 H2 m. unfold reg, set_domain, bound_id, domain_of in *. split; intros H i st Hst Hd; destruct (decide (i = id)) as [->|Hi].
    - rewrite reg_alter in Hst. destruct (br_sessions b !! id) as [st0|] eqn:E; [|done]. injection Hst as <-. unfold bind_domain in Hd. case_bool_decide; simpl in Hd; congruence.
    - rewrite reg_alter_ne in Hst by done. by eapply H.
    - rewrite Hst in H1. congruence.
    - apply (H i st); [by rewrite reg_alter_ne|done]. }
  set (b1 := set_sessions reg b).
  assert (∀ k d', k ≠ new_id → br_domains (if bool_decide (bound_id id b = new_id) then b1 else sync_at ev (bound_id id b) b1) !! k = Some d' →
          asked reg k (cap d')) as Hrest.
  { intros k d' Hk' Hd'. case_bool_decide as Eb.
    - intros m. rewrite <-(Hother k ltac:(congruence) Hk' m). by apply Hs.
    - assert (∀ k' x, k' ≠ new_id → br_domains (sync_at ev (bound_id id b) b1) !! k' = Some x → asked reg k' (cap x)) as Hsync.
      { intros k' x Hn. unfold sync_at. cbn [br_domains set_domains br_sessions]. rewrite map_alter. destruct (decide _) as [<-|Hne].
        - destruct (br_domains b1 !! bound_id id b) as [y|] eqn:Ey; [|done]. intros [= <-]. rewrite sync_one_cap, (Hk _ y Ey). by apply asked_sync.
        - intros Hx m. rewrite <-(Hother k' ltac:(congruence) Hn m). by apply Hs. }
      by apply Hsync. }
  apply sized_sync_at; [done| |].
  - case_bool_decide; [done|]. eapply (keyed_in kept), Hk; [apply kept_name|]. apply (sync_at_kept ev (bound_id id b) b1).
  - intros k d' Hne Hd'. replace (br_sessions _) with reg by (by case_bool_decide). by apply Hrest.
Qed.

(** After the sessions lose or change one, every buffer is resized. *)
Lemma resynced b1 : all_in calm (br_domains b) (br_domains b1) → sized (resync_pre_buffers ev b1).
Proof. intros Hc. apply sized_resync; [done|]. eapply (keyed_in calm); [by intros ? ? []|exact Hc|exact Hk]. Qed.

Lemma sessions_drop_sized params : sized (sessions_drop ev params b).2.
Proof.
  unfold sessions_drop. destruct (req_str params "name") as [e|name]; [done|]. unfold Session.drop_session.
  destruct (br_sessions b !! Named name) as [st|]; [destruct (s_connected st)|]; cbn [snd fst].
  - by destruct b.
  - rewrite bool_decide_eq_true_2 by done. apply resynced. apply (release_in (Named name) true (cleanup_start b)).
  - rewrite bool_decide_eq_false_2 by done. eapply sized_calm; [|intros k; apply same_asks_refl|exact Hs].
    apply (release_in (Named name) false (cleanup_start b)).
Qed.
Lemma dispose_sized id ttl : sized (dispose_expired_session ev id ttl b).2.
Proof.
  unfold dispose_expired_session, dispose_if_expired. destruct (br_sessions b !! id) as [st|]; [|by destruct b].
  destruct (abandoned _ _ _); [|by destruct b]. apply resynced. apply (release_in id true (cleanup_start b)).
Qed.

(** A rename in place moves one entry to another name. *)
Lemma moved_asks id new_id reg st st' k : reg !! id = Some st → reg !! new_id = None → id ≠ new_id → s_domain st' = s_domain st →
  s_triggers st' = s_triggers st → same_asks reg (<[new_id := st']> (delete id reg)) k.
Proof.
  intros Hst Hnew Hne Hd Ht m. split; intros H i x Hx Hs'.
  - destruct (decide (i = new_id)) as [->|Hi].
    + rewrite reg_insert in Hx. injection Hx as <-. rewrite Ht. apply (H id st); congruence.
    + rewrite reg_insert_ne in Hx by done. destruct (decide (i = id)) as [->|Hi']; [by rewrite reg_delete in Hx|]. rewrite reg_delete_ne in Hx by done. by eapply H.
  - destruct (decide (i = id)) as [->|Hi].
    + rewrite Hst in Hx. injection Hx as <-. rewrite <-Ht. apply (H new_id st'); [by rewrite reg_insert|congruence].
    + apply (H i x); [|done]. rewrite reg_insert_ne by congruence. by rewrite reg_delete_ne.
Qed.
Lemma sessions_rename_sized id name : sized (sessions_rename ev id name b).2.
Proof.
  unfold sessions_rename, Session.rename. destruct (negb (is_valid_name name)); [done|]. case_bool_decide as Esame; [by destruct b|].
  destruct (br_sessions b !! id) as [st|] eqn:E; [|done]. destruct (negb _ && _); [done|].
  destruct (br_sessions b !! Named name) as [ex|] eqn:En; [destruct (s_connected ex); [done|]|].
  - destruct (delete (Named name) (br_sessions b) !! id); [|done]. apply resynced. apply (transfer_in id (Named name) true (cleanup_start b)).
  - rewrite E. eapply sized_calm; [apply (transfer_in id (Named name) false (cleanup_start b))| |exact Hs].
    intros k. by apply (moved_asks id (Named name) (br_sessions b) st).
Qed.

Lemma disconnect_sized id : sized (disconnect_session ev id b).
Proof.
  unfold disconnect_session. pose proof (clear_session_bookmarks_in (R := calm) id b) as Hc. destruct id as [uuid|name].
  - simpl. apply resynced. unfold clear_session_collectors. destruct (detach_session (Anonymous uuid) (br_collectors (clear_session_bookmarks (Anonymous uuid) b).2)) as [p s]. exact Hc.
  - simpl. apply (sized_calm b); [apply all_in_refl| |exact Hs]. intros k m. cbn [br_sessions set_sessions]. split; intros H i x Hx Hd.
    + destruct (decide (i = Named name)) as [->|Hi]; [|rewrite reg_alter_ne in Hx by done; by eapply H].
      rewrite reg_alter in Hx. destruct (br_sessions b !! Named name) as [y|] eqn:Ey; [|done]. injection Hx as <-. by apply (H (Named name) y).
    + destruct (decide (i = Named name)) as [->|Hi]; [|apply (H i x); [by rewrite reg_alter_ne|done]].
      apply (H (Named name) (set_connected false (ev_now ev) x)); [|done]. by rewrite reg_alter, Hx.
Qed.

Lemma drained_asks id reg k : same_asks reg (drain_notifications id reg).2 k.
Proof.
  unfold drain_notifications. destruct (reg !! id) as [st|] eqn:E; [|done]. by apply (same_windows id reg st).
Qed.
Lemma claim_refused uuid name reg e reg' : claim ev uuid name reg = Some (inl e, reg') → reg' = reg.
Proof.
  unfold claim. destruct name as [name|].
  - unfold claim_named. destruct (negb _); [congruence|]. destruct (refuse_an_anonymous_id _ _); [congruence|].
    destruct (reg !! Named name) as [ex|]; [destruct (s_connected ex); congruence|]. by intros (? & _ & ?)%fmap_Some.
  - by intros ([? ?] & _ & ?)%fmap_Some.
Qed.
Lemma start_session_sized uuid p r b' : start_session ev uuid p b = Some (r, b') → sized b'.
Proof.
  unfold start_session. destruct (start_checks p b) as [e|connect]; [by intros [= <- <-]|].
  intros ([[e|[id is_new]] reg] & Hc & H)%bind_Some.
  - injection H as <- <-. apply claim_refused in Hc as ->. by destruct b.
  - match type of H with context [resync_pre_buffers ev ?x] => set (b1 := x) in H; pose proof (resynced b1 (all_in_refl _)) as Hr end.
    pose proof (drained_asks id (br_sessions (resync_pre_buffers ev b1))) as Hd.
    destruct (drain_notifications id (br_sessions (resync_pre_buffers ev b1))) as [queued reg'] eqn:Eq. injection H as <- <-.
    apply (sized_calm (resync_pre_buffers ev b1)); [apply all_in_refl| |exact Hr]. exact Hd.
Qed.

End requests.

Lemma sized_inserted b d : sized b → (∀ i st, br_sessions b !! i = Some st → s_domain st ≠ bd_name d) → cap d = 0%nat →
  sized (set_domains (map_insert d (br_domains b)) b).
Proof.
  intros Hs Hfree Hcap k d'. unfold map_insert. cbn [br_domains set_domains br_sessions]. rewrite map_insert_at. destruct (decide _) as [<-|]; [|by apply Hs].
  intros [= <-] m. rewrite Hcap. split; [|lia]. intros _ i st Hst Hd. by destruct (Hfree i st).
Qed.

Lemma mutate_bound_sessions {T} ev id reg (f : Registry → T * Registry) b : br_sessions (mutate_bound ev id reg f b).2 = br_sessions b.
Proof.
  unfold mutate_bound. destruct (mutate f _ reg _) as [[[o s] r] disk]. simpl. unfold put_registry. destruct (bound id b) as [d|]; [|done].
  by destruct (bd_postmortem d).
Qed.
Lemma data_update_sessions ev id params b r b' : domain_data_update to_rfc3339 ev id params b = Some (r, b') → br_sessions b' = br_sessions b.
Proof.
  unfold domain_data_update. destruct (live id _ b) as [e|u] eqn:E; [by intros [= <- <-]|]. unfold apply_data_entries.
  destruct (open_registry_domains to_rfc3339 ev id b) as [_ E2]. destruct (open_registry to_rfc3339 ev id b) as [[e|reg] b1]; simpl in *; [by intros [= <- <-]|].
  destruct (parse_data_entries _) as [e|[[indexed rejected]|]]; [by intros [= <- <-]| |done]. unfold unzip_entries.
  match goal with |- context [mutate_bound ev id reg ?f b1] => pose proof (mutate_bound_sessions ev id reg f b1) as Em; destruct (mutate_bound ev id reg f b1) as [[? ?] b2] end.
  intros [= <- <-]. by rewrite <-E2.
Qed.
Lemma data_remove_sessions ev id params b : br_sessions (domain_data_remove to_rfc3339 ev id params b).2 = br_sessions b.
Proof.
  unfold domain_data_remove. destruct (live id _ b) as [e|u] eqn:E; [done|].
  destruct (open_registry_domains to_rfc3339 ev id b) as [_ E2]. destruct (open_registry to_rfc3339 ev id b) as [r b1]. simpl in *.
  destruct (rbind r _) as [e|[reg patterns]]; [done|].
  match goal with |- context [mutate_bound ev id reg ?f b1] => pose proof (mutate_bound_sessions ev id reg f b1) as Em; destruct (mutate_bound ev id reg f b1) as [[? ?] b2] end.
  simpl in *. by rewrite Em.
Qed.
Lemma sized_data b b' : br_domains b' = br_domains b → br_sessions b' = br_sessions b → sized b → sized b'.
Proof. intros E1 E2 H k d. rewrite E1, E2. apply H. Qed.

(** A request that brings in a domain under [k]. *)
Definition brings (b b' : Broker) (k : DomainId) : Prop := br_domains b !! k = None ∧ is_Some (br_domains b' !! k).
Definition nobody_bound (b : Broker) (k : DomainId) : Prop := ∀ i st, br_sessions b !! i = Some st → s_domain st ≠ k.

Lemma sized_created b d : created policy b d → sized b →
  (∀ k, brings b (set_domains (map_insert d (br_domains b)) b) k → nobody_bound b k) → sized (set_domains (map_insert d (br_domains b)) b).
Proof.
  intros [Cf _ _ _ Cc] Hs Hn. apply sized_inserted; [done| |done]. apply Hn. split; [done|]. unfold map_insert. cbn [br_domains set_domains].
  rewrite map_insert_at, decide_True by done. by eexists.
Qed.
Lemma create_sized ev req b : sized b → (∀ k, brings b (domains_create policy ev req b).2 k → nobody_bound b k) → sized (domains_create policy ev req b).2.
Proof.
  intros Hs Hn. pose proof (create_new policy ev req b) as [E|(d & Hd & E)]; rewrite E in *; [done|]. by apply sized_created.
Qed.
Lemma load_sized {PE} (case : string → LoadError PE + LoadedCase) params b r b' : cases_load policy case params b = Some (r, b') → sized b →
  (∀ k, brings b b' k → nobody_bound b k) → sized b'.
Proof. intros H Hs Hn. destruct (load_new policy case params b r b' H) as [->|(d & Hd & ->)]; [done|]. by apply sized_created. Qed.

Lemma delete_sized name b : sized b → sized (domains_delete name b).2.
Proof.
  intros Hs. unfold domains_delete. destruct (domain_id name) as [e|id]; [done|]. destruct (br_domains b !! id) as [d|]; [|done].
  case_bool_decide; [done|]. intros k x. cbn [snd br_domains set_domains br_sessions]. rewrite map_delete. destruct (decide _); [done|apply Hs].
Qed.
End spec.

(** C13: After any request every domain's pre-trigger buffer holds exactly as
    many records as the longest window of the sessions bound to it asks for,
    whichever request changed a trigger, a binding or the sessions themselves —
    provided no domain is brought in under a name a session is bound to. *)
Theorem buffers_sized {X : Externals} {SK : SketchCrate} {J : JsonScalars} {JR : JsonReader} policy to_rfc3339 victim ev rq b b' :
  order_ok (ev_sessions ev) → keyed (br_domains b) → sized b → serve policy to_rfc3339 ev victim rq b = Some b' →
  (∀ k, brings b b' k → nobody_bound b k) → sized b'.
Proof.
  intros Ho Hk Hs. destruct rq; simpl; try (intros [= <-]).
  - by apply create_sized.
  - intros _. by apply delete_sized.
  - intros _. by apply domains_use_sized.
  - intros _. apply calm_bound; [intros; apply domains_clear_calm|done].
  - intros _. apply calm_bound; [intros; apply logs_clear_calm|done].
  - intros _. apply calm_bound; [intros; apply reading_in|done].
  - intros _. apply calm_bound; [intros; apply reading_in|done].
  - intros _. apply calm_bound; [intros; apply on_domain_in|done].
  - intros _. apply calm_bound; [intros; apply on_domain_in|done].
  - intros _. apply calm_bound; [intros; apply on_domain_in|done].
  - intros _. by apply filters_add_sized.
  - intros _. by apply filters_edit_sized.
  - intros _. by apply filters_remove_sized.
  - intros _. by apply triggers_add_sized.
  - intros _. by apply triggers_edit_sized.
  - intros _. by apply triggers_remove_sized.
  - intros _. by apply sessions_rename_sized.
  - intros _. by apply sessions_drop_sized.
  - intros ([r b1] & H & ->)%fmap_Some Hn. by eapply load_sized.
  - intros ([r b1] & H & ->)%fmap_Some _. eapply sized_data, Hs; [by eapply data_update_domains|by eapply data_update_sessions].
  - intros _. eapply sized_data, Hs; [apply data_remove_domains|apply data_remove_sessions].
  - intros ([r b1] & H & ->)%fmap_Some _. by eapply start_session_sized.
  - intros _. by apply disconnect_sized.
  - intros _. by apply dispose_sized.
Qed.

Lemma sample_alone id st : br_sessions sample_broker !! id = Some st → False.
Proof. change (br_sessions sample_broker !! id) with ((∅ : gmap SessionId SessionState) !! id). rewrite lookup_empty. discriminate. Qed.
Lemma sample_sized : sized sample_broker.
Proof.
  intros k d Hd m. assert (cap d = 0%nat) as ->.
  { change (br_domains sample_broker !! k) with (({[default_domain := new_with_metrics sample_config 0 metrics_new]} : gmap string BoundDomain) !! k) in Hd.
    apply lookup_singleton_Some in Hd as [_ <-]. reflexivity. }
  split; [|lia]. intros _ id st Hst. exfalso. exact (sample_alone id st Hst).
Qed.

Lemma buffers_sized_witness :
  ∃ b', serve sample_policy no_rfc sample_env no_victim (connect "a") sample_broker = Some b' ∧ sized b' ∧
    buffer_sizes b' = [("default"%string, 500%nat)].
Proof.
  assert (is_Some (serve sample_policy no_rfc sample_env no_victim (connect "a") sample_broker)) as [b' E] by by_eval.
  assert (buffer_sizes <$> serve sample_policy no_rfc sample_env no_victim (connect "a") sample_broker = Some [("default"%string, 500%nat)]) as Hb
    by (vm_compute; reflexivity).
  exists b'. split; [exact E|]. split; [|rewrite E in Hb; by injection Hb].
  apply (buffers_sized sample_policy no_rfc no_victim sample_env (connect "a") sample_broker b' sample_order).
  - intros k d Hd. by apply sample_registry_ok.
  - exact sample_sized.
  - exact E.
  - intros k _ i st Hst. exfalso. exact (sample_alone i st Hst).
Defined.

Section spec.
Context {X : Externals} {SK : SketchCrate} {J : JsonScalars} {JR : JsonReader}.

(** ** Merging by index *)

Definition index_of (io : nat * DataOutcome) : N := N.of_nat io.1.

(** Outcomes under the indices [0 .. n): each once. *)
Definition indexed_by (l : list (nat * DataOutcome)) (i n : nat) : Prop := NoDup l.*1 ∧ ∀ k, k ∈ l.*1 ↔ (i ≤ k < i + n)%nat.

Lemma seq_ascending n : ∀ i, ascending N.of_nat (List.seq i n).
Proof.
  induction n as [|n IH]; intros i; simpl; [apply ascending_nil|]. apply ascending_cons. split; [|apply IH].
  intros k Hk. apply elem_of_seq in Hk. lia.
Qed.
Lemma ascending_keys (l : list (nat * DataOutcome)) : ascending index_of l → ascending N.of_nat l.*1.
Proof.
  induction l as [|io l IH]; intros H; [apply ascending_nil|]. apply ascending_cons in H as [H1 H2]. rewrite fmap_cons. apply ascending_cons. split; [|by apply IH].
  intros k (x & -> & Hx)%list_elem_of_fmap. by apply (H1 x).
Qed.

Lemma merged l n : indexed_by l 0 n → (sort_by_key index_of l).*1 = List.seq 0 n.
Proof.
  intros [Hnd Hk]. apply (ascending_ext N.of_nat).
  - apply ascending_keys, sort_by_key_ascending. clear Hk. induction l as [|x l IH]; [constructor|]. rewrite fmap_cons in *. apply NoDup_cons in Hnd as [Hx Hl].
    apply NoDup_cons. split; [|by apply IH]. intros (y & Ey & Hy)%list_elem_of_fmap. apply Hx. apply list_elem_of_fmap. exists y. split; [|done]. by apply Nat2N.inj.
  - apply seq_ascending.
  - intros k. rewrite elem_of_seq, <-Hk. split; intros (x & -> & Hx)%list_elem_of_fmap; apply list_elem_of_fmap; exists x; (split; [done|]).
    + by apply elem_of_sort_by_key in Hx.
    + by apply elem_of_sort_by_key.
Qed.
Lemma merged_at l n i o : indexed_by l 0 n → (snd <$> sort_by_key index_of l) !! i = Some o → (i, o) ∈ l.
Proof.
  intros Hi Ho. apply merged in Hi. apply list_lookup_fmap_Some in Ho as ([k o'] & -> & Hio).
  assert ((sort_by_key index_of l).*1 !! i = Some k) as Hk by (rewrite list_lookup_fmap, Hio; done). rewrite Hi in Hk.
  apply lookup_seq in Hk as [-> _]. simpl in *. apply elem_of_sort_by_key with (key := index_of). by apply list_elem_of_lookup_2 in Hio.
Qed.

(** ** Reading the entries *)

(** Entry [i]'s own path. *)
Definition path_at (items : list Value) (i : nat) (p : string) : Prop := ∃ item v, items !! i = Some item ∧ Value_get "path" item = Some v ∧ Value_as_str v = Some p.

Lemma parse_one_path i item p : parse_one i item = inr (Some p) →
  ∃ v, Value_get "path" item = Some v ∧ Value_as_str v = Some (match p with PEntry e => de_path e | PReject o => do_path o end).
Proof.
  unfold parse_one. intros (path & Hp & H)%rbind_inr. destruct (Value_get "path" item) as [v|]; [|done]. destruct (Value_is_null v); [done|].
  destruct (Value_as_str v) as [s|] eqn:Es; [|done]. injection Hp as <-. exists v. split; [done|]. rewrite Es. f_equal.
  repeat case_match; simplify_eq; done.
Qed.

(** The entries and the rejections share out the indices. *)
Definition shares (items : list Value) (i : nat) (entries : list (nat * DataEntry)) (rejected : list (nat * DataOutcome)) : Prop :=
  NoDup (entries.*1 ++ rejected.*1) ∧ (∀ k, k ∈ entries.*1 ++ rejected.*1 ↔ (i ≤ k < i + length items)%nat) ∧
  (∀ k e, (k, e) ∈ entries → path_at items (k - i) (de_path e)) ∧ (∀ k o, (k, o) ∈ rejected → path_at items (k - i) (do_path o)).

Lemma path_at_later item items k i p : (S i ≤ k)%nat → path_at items (k - S i) p → path_at (item :: items) (k - i) p.
Proof. intros Hk (it & v & H & ? & ?). exists it, v. split; [|done]. replace (k - i)%nat with (S (k - S i)) by lia. done. Qed.

Lemma parse_items_shares items : ∀ i entries rejected, parse_items i items = inr (Some (entries, rejected)) → shares items i entries rejected.
Proof.
  induction items as [|item items IH]; simpl; intros i entries rejected.
  - intros [= <- <-]. split_and!; [constructor| |by intros ?? ?%elem_of_nil..]. intros k. simpl. rewrite elem_of_nil. lia.
  - intros ([p|] & Hp & H)%rbind_inr; [|done]. apply parse_one_path in Hp. apply rbind_inr in H as ([[es rs]|] & Hr & H); [|done].
    destruct (IH _ _ _ Hr) as (Hnd & Hk & He & Ho). destruct Hp as (v & Hv & Hpath).
    assert (i ∉ es.*1 ++ rs.*1) as Hi by (rewrite Hk; lia).
    assert (∀ q, Value_as_str v = Some q → path_at (item :: items) (i - i) q) as Hhere by (intros q Hq; exists item, v; by rewrite Nat.sub_diag).
    destruct p as [e|o]; injection H as <- <-; (split_and!; [| | |]); try (rewrite fmap_cons).
    + by apply NoDup_cons.
    + intros k. rewrite <-app_comm_cons, elem_of_cons, Hk. simpl. lia.
    + intros k e' [[= -> ->]|Hin]%elem_of_cons; [by apply Hhere|]. apply path_at_later; [|by apply He].
      enough (k ∈ es.*1 ++ rs.*1) by (apply Hk in H; lia). apply elem_of_app. left. apply list_elem_of_fmap. by exists (k, e').
    + intros k o Hin. apply path_at_later; [|by apply Ho]. enough (k ∈ es.*1 ++ rs.*1) by (apply Hk in H; lia).
      apply elem_of_app. right. apply list_elem_of_fmap. by exists (k, o).
    + apply NoDup_Permutation_proper with (x := i :: (es.*1 ++ rs.*1)); [by rewrite <-Permutation_middle|by apply NoDup_cons].
    + intros k. rewrite <-Permutation_middle, elem_of_cons, Hk. simpl. lia.
    + intros k e' Hin. apply path_at_later; [|by apply He]. enough (k ∈ es.*1 ++ rs.*1) by (apply Hk in H; lia).
      apply elem_of_app. left. apply list_elem_of_fmap. by exists (k, e').
    + intros k o' [[= -> ->]|Hin]%elem_of_cons; [by apply Hhere|]. apply path_at_later; [|by apply Ho].
      enough (k ∈ es.*1 ++ rs.*1) by (apply Hk in H; lia). apply elem_of_app. right. apply list_elem_of_fmap. by exists (k, o').
Qed.

Lemma update_paths es now : ∀ r, do_path <$> (update es now r).1 = de_path <$> es.
Proof.
  induction es as [|e es IH]; intros r; [done|]. simpl. destruct (apply_one e now r) as [o r1]. specialize (IH r1). destruct (update es now r1) as [os r2].
  change (de_path e :: (do_path <$> os) = de_path e :: (de_path <$> es)). f_equal. exact IH.
Qed.

(** What is applied under the entries' indices and what is rejected answer
    every item, in order. *)
Lemma merged_outcomes items entries rejected applied :
  shares items 0 entries rejected → do_path <$> applied = de_path <$> entries.*2 →
  length (merge_outcomes applied entries.*1 rejected) = length items ∧
  ∀ i o, merge_outcomes applied entries.*1 rejected !! i = Some o → path_at items i (do_path o).
Proof.
  intros (Hnd & Hk & He & Ho) Hpaths.
  assert (length applied = length entries.*1) as Hlen by (rewrite length_fmap; apply (f_equal length) in Hpaths; by rewrite !length_fmap in Hpaths).
  assert ((zip entries.*1 applied).*1 = entries.*1) as Hz by (apply fst_zip; lia).
  assert (indexed_by (zip entries.*1 applied ++ rejected) 0 (length items)) as Hi by (split; rewrite fmap_app, Hz; done).
  assert ((sort_by_key index_of (zip entries.*1 applied ++ rejected)).*1 = List.seq 0 (length items)) as Hm by by apply merged.
  unfold merge_outcomes. split.
  - rewrite length_fmap. apply (f_equal length) in Hm. by rewrite length_fmap, length_seq in Hm.
  - intros i o Hio. apply (merged_at _ _ i o Hi) in Hio. apply elem_of_app in Hio as [Hz'|Hr].
    + apply list_elem_of_lookup in Hz' as (j & Hj). rewrite lookup_zip_with in Hj. destruct (entries.*1 !! j) as [k|] eqn:Ek; [|done].
      destruct (applied !! j) as [a|] eqn:Ea; [|done]. injection Hj as -> ->. apply list_lookup_fmap_Some in Ek as ([k e] & -> & Hke).
      assert (do_path o = de_path e) as ->.
      { apply (f_equal (λ l, l !! j)) in Hpaths. rewrite !list_lookup_fmap, Ea, Hke in Hpaths. simpl in Hpaths. congruence. }
      apply list_elem_of_lookup_2 in Hke. specialize (He k e Hke). by rewrite Nat.sub_0_r in He.
    + specialize (Ho i o Hr). by rewrite Nat.sub_0_r in Ho.
Qed.

(** ** The sigilled entries of a case *)

Lemma shares_move items i es k e todo rejected o :
  shares items i (es ++ (k, e) :: todo) rejected → do_path o = de_path e → shares items i (es ++ todo) (rejected ++ [(k, o)]).
Proof.
  intros (Hnd & Hk & He & Ho) Hp.
  assert ((es ++ todo).*1 ++ (rejected ++ [(k, o)]).*1 ≡ₚ (es ++ (k, e) :: todo).*1 ++ rejected.*1) as HP.
  { rewrite !fmap_app, fmap_cons. simpl. by rewrite (app_assoc _ (rejected.*1)), <-Permutation_cons_append, <-(Permutation_middle es.*1). }
  split_and!.
  - by rewrite HP.
  - intros x. by rewrite HP.
  - intros x y Hin. apply He. rewrite elem_of_app, elem_of_cons. apply elem_of_app in Hin as [?|?]; auto.
  - intros x y [Hin|[= -> ->]%list_elem_of_singleton]%elem_of_app; [by apply Ho|]. rewrite Hp. apply He. rewrite elem_of_app, elem_of_cons. auto.
Qed.
Lemma scope_one_path e scoped o sc : scope_one e scoped = (Some o, sc) → do_path o = de_path e.
Proof. unfold scope_one. repeat case_match; intros; by simplify_eq. Qed.
Lemma scope_shares items todo : ∀ es scoped rejected,
  shares items 0 (es ++ todo) rejected → let '(es', _, rejected') := foldl scope_step (es, scoped, rejected) todo in shares items 0 es' rejected'.
Proof.
  induction todo as [|[k e] todo IH]; intros es scoped rejected Hs; simpl; [by rewrite app_nil_r in Hs|].
  destruct (is_scoped e); simpl; [|apply IH; by rewrite <-app_assoc].
  destruct (scope_one e scoped) as [[o|] sc] eqn:E; apply IH; eapply shares_move; try done. by eapply scope_one_path.
Qed.

Lemma applied_paths ev id reg es b applied saved b' :
  mutate_bound ev id reg (update es (ev_now ev)) b = (applied, saved, b') → do_path <$> applied = de_path <$> es.
Proof.
  unfold mutate_bound, mutate. pose proof (update_paths es (ev_now ev) (dr_data reg)) as Hu. destruct (update es (ev_now ev) (dr_data reg)) as [out r].
  destruct (dr_ephemeral _); [by intros [= <- <- <-]|]. destruct (ev_write_error ev); by intros [= <- <- <-].
Qed.
Lemma parsed_shares raw indexed rejected : parse_data_entries raw = inr (Some (indexed, rejected)) →
  ∃ v items, raw = Some v ∧ Value_as_array v = Some items ∧ shares items 0 indexed rejected.
Proof.
  unfold parse_data_entries. destruct raw as [v|]; [|done]. simpl. destruct (Value_as_array v) as [[|x items]|] eqn:Ea; [done| |done].
  intros H. exists v, (x :: items). split_and!; [done|done|]. by apply parse_items_shares.
Qed.
Definition answered (raw : option Value) (outcomes : list DataOutcome) : Prop :=
  ∃ v items, raw = Some v ∧ Value_as_array v = Some items ∧ length outcomes = length items ∧ ∀ i o, outcomes !! i = Some o → path_at items i (do_path o).
End spec.

(** A batch refused as a whole is not answered. *)
Ltac refused_batch :=
  intros [H|(H1 & H2 & ? & H)]; [done|]; match type of H2 with ?raw ≠ _ => destruct raw as [v|]; [|done] end;
  simpl in H1; match type of H1 with context [Value_as_array ?x] => destruct (Value_as_array x) as [[|]|] end; done.

(** C22: A batch of provenance entries is answered entry by entry in the
    caller's order: as many outcomes as entries sent, the i-th under the i-th
    entry's own path, whether it was applied, rejected before the registry or,
    in a case, kept aside as sigilled. *)
Theorem batch_answered {X : Externals} {SK : SketchCrate} {J : JsonScalars} {JR : JsonReader} to_rfc3339 ev id raw b outcomes saved b' :
  apply_data_entries to_rfc3339 ev id raw b = Some (inr (outcomes, saved), b') ∨
  (raw ≫= Value_as_array ≠ Some [] ∧ raw ≠ None ∧
   ∃ scoped, apply_case_data_entries to_rfc3339 ev id raw b = Some (inr (outcomes, saved, scoped), b')) →
  answered raw outcomes.
Proof.
  unfold apply_data_entries, apply_case_data_entries. destruct (open_registry to_rfc3339 ev id b) as [[e|reg] b1] eqn:Eo.
  { refused_batch. }
  destruct (parse_data_entries raw) as [e|[[indexed rejected]|]] eqn:Ep; cycle 2.
  { refused_batch. }
  { refused_batch. }
  destruct (parsed_shares _ _ _ Ep) as (v & items & -> & Ha & Hs). unfold unzip_entries.
  intros [H|(Hne & _ & scoped & H)]; exists v, items; (split; [done|split; [done|]]).
  - destruct (mutate_bound _ _ _ _ b1) as [[applied s] b2] eqn:Em. injection H as <- <- <-. by eapply merged_outcomes, applied_paths.
  - simpl in Hne. rewrite Ha in Hne, H. destruct items as [|item items]; [done|]. pose proof (scope_shares _ indexed [] [] rejected Hs) as Hs'.
    destruct (foldl scope_step _ indexed) as [[fr sc] rj]. case_bool_decide as Efr.
    + injection H as <- <- <- <-. apply merged_outcomes; [done|]. by rewrite Efr.
    + destruct (mutate_bound _ _ _ _ b1) as [[applied s] b2] eqn:Em. injection H as <- <- <- <-. by eapply merged_outcomes, applied_paths.
Qed.

(** ** A session's removal *)

Section drop.
Context {X : Externals} {SK : SketchCrate} {J : JsonScalars} {JR : JsonReader}.

Definition all_bookmarks (m : DomainMap) (k : DomainId) : option (gmap string Bookmark) := (λ d, bookmarks (bd_bookmarks d)) <$> m !! k.
Definition not_of (name : string) (bm : gmap string Bookmark) : gmap string Bookmark := filter (λ kb, b_session kb.2 ≠ name) bm.

Lemma cleared_bookmarks id m k : all_bookmarks (clear_bookmarks_everywhere id m).2 k = not_of (id_string id) <$> all_bookmarks m k.
Proof. unfold all_bookmarks. cbn [clear_bookmarks_everywhere map_bookmarks snd]. rewrite map_fmap. by destruct (m !! k). Qed.
Lemma resync_bookmarks ev b k : all_bookmarks (br_domains (resync_pre_buffers ev b)) k = all_bookmarks (br_domains b) k.
Proof. unfold all_bookmarks, resync_pre_buffers. cbn [br_domains set_domains]. rewrite map_fmap. by destruct (br_domains b !! k). Qed.
End drop.

(** C21: [sessions.drop] of a connected session is refused and takes nothing; of
    a disconnected one it removes the session, exactly its bookmarks in every
    domain and exactly its collectors; of a name nobody holds it reclaims the
    collectors alone, and is an error when there were none. *)
Theorem drop_exact {X : Externals} {SK : SketchCrate} {J : JsonScalars} {JR : JsonReader} ev params b name r b' :
  req_str params "name" = inr name → sessions_drop ev params b = (r, b') →
  let id := Named name in
  let mine := length (List.filter (owned_by id) (sy_entries (br_collectors b))) in
  let others := List.filter (λ e, negb (owned_by id e)) (sy_entries (br_collectors b)) in
  match br_sessions b !! id with
  | Some st =>
      if s_connected st then r = inl (ErrSession (AlreadyConnected name)) ∧ b' = b
      else r = inr (name, mine) ∧ br_sessions b' = delete id (br_sessions b) ∧ sy_entries (br_collectors b') = others ∧
           ∀ k, all_bookmarks (br_domains b') k = not_of name <$> all_bookmarks (br_domains b) k
  | None =>
      r = (if (mine =? 0)%nat then inl (ErrSession (SessionNotFound name)) else inr (name, mine)) ∧
      br_sessions b' = br_sessions b ∧ br_domains b' = br_domains b ∧ sy_entries (br_collectors b') = others
  end.
Proof.
  intros Hname. unfold sessions_drop. rewrite Hname. unfold Session.drop_session.
  destruct (br_sessions b !! Named name) as [st|] eqn:E; [destruct (s_connected st)|]; cbn [fst snd].
  - intros [= <- <-]. split; [done|]. by destruct b.
  - rewrite bool_decide_eq_true_2 by done. intros [= <- <-]. split_and!; [|done|done|].
    + simpl. rewrite length_fmap. by destruct (length _).
    + intros k. rewrite resync_bookmarks. apply (cleared_bookmarks (Named name)).
  - rewrite bool_decide_eq_false_2 by done. intros [= <- <-]. simpl. rewrite length_fmap. by split_and!.
Qed.

(** ** Witnesses *)

Definition batch : string := "path=/a;value=1|path=/logmon/x;value=2|path=/a".
Lemma batch_answered_witness :
  ∃ outcomes saved b', apply_data_entries no_rfc sample_env a (Some batch) sample_broker = Some (inr (outcomes, saved), b') ∧
    answered (Some batch) outcomes ∧ do_outcome <$> outcomes = [Created; Rejected ReservedPrefix; Validated].
Proof.
  assert (((λ r : (RpcError + list DataOutcome * option string) * Broker, match r.1 with inr x => Some (do_outcome <$> x.1) | inl _ => None end) <$> apply_data_entries no_rfc sample_env a (Some batch) sample_broker)
          = Some (Some [Created; Rejected ReservedPrefix; Validated])) as Ho by (vm_compute; reflexivity).
  apply fmap_Some in Ho as ([r b'] & E & Ho). destruct r as [e|[outcomes saved]]; [discriminate Ho|]. exists outcomes, saved, b'. split; [exact E|]. split.
  - exact (batch_answered no_rfc sample_env a (Some batch) sample_broker outcomes saved b' (or_introl E)).
  - injection Ho as ->. reflexivity.
Defined.

Definition armed : option Broker := on_sample [connect "a"; RqBookmarksAdd a "name=m"; RqDisconnect a]%string.
Lemma drop_exact_witness :
  ∃ b b', armed = Some b ∧ sessions_drop sample_env "name=a" b = (inr ("a"%string, 0%nat), b') ∧
    size <$> all_bookmarks (br_domains b) default_domain = Some 1%nat ∧ all_bookmarks (br_domains b') default_domain = Some ∅.
Proof.
  assert (is_Some armed) as [b Hb] by by_eval. exists b, (sessions_drop sample_env "name=a" b).2. split; [exact Hb|].
  pose proof (drop_exact sample_env "name=a" b "a" _ _ eq_refl (surjective_pairing _)) as H.
  assert (is_Some (armed ≫= λ b, br_sessions b !! Named "a") ∧ (armed ≫= λ b, s_connected <$> br_sessions b !! Named "a") = Some false) as [[st Hst] Hc]
    by (split; [by_eval|vm_compute; reflexivity]).
  rewrite Hb in Hst, Hc. simpl in Hst, Hc. cbv zeta in H. rewrite Hst in H, Hc. injection Hc as Hc. rewrite Hc in H. destruct H as (Hr & _ & _ & Hbm).
  assert ((λ b, (length (List.filter (owned_by (Named "a")) (sy_entries (br_collectors b))), not_of "a" <$> all_bookmarks (br_domains b) default_domain,
            size <$> all_bookmarks (br_domains b) default_domain)) <$> armed = Some (0%nat, Some ∅, Some 1%nat)) as Hv by (vm_compute; reflexivity).
  rewrite Hb in Hv. injection Hv as Hl Hn Hne.
  split; [|split; [exact Hne|by rewrite Hbm]]. rewrite Hl in Hr. rewrite <-Hr. apply surjective_pairing.
Defined.
