(* ===== verification/GelfRecv.v ===== *)
(** * GelfRecv: GELF messages, from the wire to the log channel
    ([gelf/message.rs], [gelf/tcp.rs], [gelf/udp.rs])

    A connection's bytes are cut at NULs within a bounded buffer; what a sender
    splits into writes does not show in them. [serde_json]'s reading of a text
    and chrono's of an instant are arguments. *)

From Stdlib Require Import SpecFloat.
From S2P Require Import Prelude Text F64 Gelf Filter Matcher Samples DomainData Measure Threshold Collector CollectorSamples History Params Metrics Domains Reads Broker BrokerSpec.

Set Default Proof Using "Type".
Local Open Scope N_scope.

(** ** Casts of an [f64] *)

(** Toward zero; the casts saturate, and take no number for 0. *)
Definition f64_trunc (x : f64) : Z :=
  match x with
  | S754_finite s m e =>
      let q := (if 0 <=? e then Z.pos m * 2 ^ e else Z.pos m / 2 ^ (- e))%Z in (if s then - q else q)%Z
  | _ => 0%Z
  end.
Definition f64_as (lo hi : Z) (x : f64) : Z :=
  match x with
  | S754_infinity s => if s then lo else hi
  | _ => Z.max lo (Z.min hi (f64_trunc x))
  end.
Definition f64_as_i64 (x : f64) : Z := f64_as i64_min i64_max x.
Definition f64_as_u32 (x : f64) : Z := f64_as 0 (Z.of_N u32_max) x.

Definition nul : ascii := Ascii.zero.

(** The reading of a JSON text, its object, and chrono's [timestamp_opt]. *)
Class GelfInput {X : Externals} := {
  from_slice : string → option Value;
  Value_as_object : Value → option (gmap string Value);
  timestamp_opt : Z → Z → option Z;
}.

Inductive GelfParseError := InvalidJson | MissingField (field : string).

Section message.
Context {X : Externals} {J : JsonScalars} {JR : JsonReader} {GI : GelfInput}.

(** ** A message *)

Definition text_field (obj : gmap string Value) (key : string) : option string := obj !! key ≫= Value_as_str.

(** Parse, and remove only on success. *)
Definition parse_promoted {T} (fields : gmap string Value) (key : string) (parse : string → option T) : option T * gmap string Value :=
  let parsed := text_field fields key ≫= parse in
  (parsed, match parsed with Some _ => delete key fields | None => fields end).

Definition gelf_level (obj : gmap string Value) : Level :=
  let syslog_level := default 6 (obj !! "level" ≫= Value_as_u64) mod 256 in
  default (Level_from_syslog syslog_level) (text_field obj "_level" ≫= Level_from_name).

Definition gelf_timestamp (now : Z) (obj : gmap string Value) : Z :=
  match obj !! "timestamp" ≫= Value_as_f64 with
  | None => now
  | Some ts =>
      let secs := f64_as_i64 ts in
      let nanos := f64_as_u32 (f64_mul (f64_sub ts (f64_of_Z secs)) (f64_of_Z 1000000000)) in
      default now (timestamp_opt secs nanos)
  end.

Definition additional (kv : string * Value) : option (string * Value) :=
  if String.eqb kv.1 "_level" then None else (λ k, (k, kv.2)) <$> strip_prefix "_" kv.1.
Definition gelf_additional (obj : gmap string Value) : gmap string Value := list_to_map (omap additional (map_to_list obj)).

Definition parse_gelf_message (now : Z) (bytes : string) (sq : N) : GelfParseError + LogEntry :=
  match from_slice bytes with
  | None => inl InvalidJson
  | Some v =>
      match Value_as_object v with
      | None => inl (MissingField "root object")
      | Some obj =>
          match text_field obj "host" with
          | None => inl (MissingField "host")
          | Some host =>
              match text_field obj "short_message" with
              | None => inl (MissingField "short_message")
              | Some message =>
                  let '(tid, fields) := parse_promoted (gelf_additional obj) "trace_id" (parse_hex u128_max) in
                  let '(sid, fields) := parse_promoted fields "span_id" (parse_hex u64_max) in
                  inr (mkLogEntry sq (gelf_timestamp now obj) (gelf_level obj) message (text_field obj "full_message") host
                         (text_field obj "facility") (text_field obj "file") ((λ n, n mod 2 ^ 32) <$> (obj !! "line" ≫= Value_as_u64))
                         fields tid sid [] FilterSource)
              end
          end
      end
  end.

(** ** What a listener does with one *)

(** The channel and the metrics of the domain, and the listener's own throttles. *)
Record Listener := mkListener {
  li_channel : Channel LogEntry;
  li_metrics : ReceiverMetrics;
  li_malformed : Throttle;
  li_read_errors : Throttle;
}.

Definition gelf_message (s : ReceiverSource) (now elapsed : Z) (bytes : string) (l : Listener) : Listener :=
  match parse_gelf_message now bytes 0 with
  | inr entry => let '(_, c, m) := try_send_log now elapsed (li_channel l) entry s (li_metrics l) in mkListener c m (li_malformed l) (li_read_errors l)
  | inl _ => mkListener (li_channel l) (li_metrics l) (hit elapsed (li_malformed l)).2 (li_read_errors l)
  end.

(** ** UDP: a datagram is a message *)

Fixpoint strip_nuls (s : string) : string :=
  match s with
  | EmptyString => EmptyString
  | String a s => let r := strip_nuls s in if Ascii.eqb a nul && String.eqb r EmptyString then EmptyString else String a r
  end.
Definition udp_datagram (now elapsed : Z) (datagram : string) (l : Listener) : Listener := gelf_message GelfUdp now elapsed (strip_nuls datagram) l.

(** ** TCP: messages end in a NUL *)

Definition MAX_GELF_TCP_MESSAGE_BYTES : nat := 64 * 1024.
Definition SKIP_CHUNK : nat := 8 * 1024.

(** All that the connection still brings, and whether it then fails or ends. *)
Record Input := mkInput { in_bytes : string; in_fails : bool }.

(** [take(limit).read_until(0)]: what is read, and what is left. *)
Fixpoint chunk (limit : nat) (s : string) : string * string :=
  match limit, s with
  | O, _ => (EmptyString, s)
  | S _, EmptyString => (EmptyString, EmptyString)
  | S limit, String a s => if Ascii.eqb a nul then (String a EmptyString, s) else let '(c, r) := chunk limit s in (String a c, r)
  end.
Fixpoint ends_nul (s : string) : bool :=
  match s with EmptyString => false | String a EmptyString => Ascii.eqb a nul | String _ s => ends_nul s end.
(** [None] is a read error. *)
Definition read_until (limit : nat) (i : Input) : option (string * Input) :=
  let '(c, r) := chunk limit (in_bytes i) in
  if in_fails i && negb (ends_nul c) && (String.length c <? limit)%nat then None else Some (c, mkInput r (in_fails i)).

(** [None] for [false]. *)
Fixpoint skip_past_nul (fuel : nat) (i : Input) : option Input :=
  match fuel with
  | O => None
  | S fuel =>
      match read_until SKIP_CHUNK i with
      | None => None
      | Some (c, i) => if String.eqb c EmptyString then None else if ends_nul c then Some i else skip_past_nul fuel i
      end
  end.

Fixpoint pop_last (s : string) : string :=
  match s with EmptyString => EmptyString | String a EmptyString => EmptyString | String a s => String a (pop_last s) end.

(** [clock k]: the wall and the monotonic clock at the [k]-th message. *)
Fixpoint serve_connection (fuel : nat) (clock : nat → Z * Z) (k max_message : nat) (i : Input) (l : Listener) : option Listener :=
  match fuel with
  | O => None
  | S fuel =>
      let '(now, elapsed) := clock k in
      match read_until (max_message + 1) i with
      | None => Some (mkListener (li_channel l) (li_metrics l) (li_malformed l) (hit elapsed (li_read_errors l)).2)
      | Some (buf, i) =>
          if String.eqb buf EmptyString then Some l
          else if (max_message <? String.length buf)%nat then
            let l := mkListener (li_channel l) (record_oversize_drop elapsed (li_metrics l)).2 (li_malformed l) (li_read_errors l) in
            if ends_nul buf then serve_connection fuel clock (S k) max_message i l
            else match skip_past_nul (S (String.length (in_bytes i))) i with
                 | None => Some l
                 | Some i => serve_connection fuel clock (S k) max_message i l
                 end
          else
            let buf := if ends_nul buf then pop_last buf else buf in
            if String.eqb buf EmptyString then serve_connection fuel clock k max_message i l
            else serve_connection fuel clock (S k) max_message i (gelf_message GelfTcp now elapsed buf l)
      end
  end.
End message.

(** ** The messages of a connection, without a buffer *)

Inductive Frame := FrOversize | FrMessage (bytes : string) | FrReadFailed.

(** A piece that a NUL ends: the NUL counts. *)
Definition ended_frame (max : nat) (p : string) : list Frame :=
  if (max <? S (String.length p))%nat then [FrOversize] else if String.eqb p EmptyString then [] else [FrMessage p].
(** What the connection leaves unended. *)
Definition last_frame (max : nat) (fails : bool) (p : string) : list Frame :=
  if (max <? String.length p)%nat then [FrOversize]
  else if fails then [FrReadFailed] else if String.eqb p EmptyString then [] else [FrMessage p].
Fixpoint frames_of (max : nat) (fails : bool) (pieces : list string) : list Frame :=
  match pieces with
  | [] => []
  | [p] => last_frame max fails p
  | p :: pieces => ended_frame max p ++ frames_of max fails pieces
  end.
Definition frames (max : nat) (i : Input) : list Frame := frames_of max (in_fails i) (str_split nul (in_bytes i)).

Section spec.
Context {X : Externals} {J : JsonScalars} {JR : JsonReader} {GI : GelfInput}.

Definition deliver_one (f : Frame) (now elapsed : Z) (l : Listener) : Listener :=
  match f with
  | FrOversize => mkListener (li_channel l) (record_oversize_drop elapsed (li_metrics l)).2 (li_malformed l) (li_read_errors l)
  | FrMessage s => gelf_message GelfTcp now elapsed s l
  | FrReadFailed => mkListener (li_channel l) (li_metrics l) (li_malformed l) (hit elapsed (li_read_errors l)).2
  end.
Fixpoint deliver (clock : nat → Z * Z) (k : nat) (fs : list Frame) (l : Listener) : Listener :=
  match fs with
  | [] => l
  | f :: fs => deliver clock (S k) fs (deliver_one f (clock k).1 (clock k).2 l)
  end.
End spec.

(** Up to the first NUL, and what follows it. *)
Fixpoint cut (s : string) : string * option string :=
  match s with
  | EmptyString => (EmptyString, None)
  | String a s => if Ascii.eqb a nul then (EmptyString, Some s) else let '(p, o) := cut s in (String a p, o)
  end.

Lemma split_cut s : str_split nul s = match cut s with (p, Some r) => p :: str_split nul r | (p, None) => [p] end.
Proof.
  induction s as [|a s IH]; [done|]. simpl. destruct (Ascii.eqb a nul); [done|]. rewrite IH. by destruct (cut s) as [p [r|]].
Qed.
Lemma split_not_nil s : str_split nul s ≠ [].
Proof. rewrite split_cut. by destruct (cut s) as [p [r|]]. Qed.

Lemma frames_cut max s fails : frames max (mkInput s fails) =
  match cut s with (p, Some r) => ended_frame max p ++ frames max (mkInput r fails) | (p, None) => last_frame max fails p end.
Proof.
  unfold frames. simpl. rewrite split_cut. destruct (cut s) as [p [r|]]; [|done]. pose proof (split_not_nil r) as Hn. by destruct (str_split nul r).
Qed.

Lemma cut_length s : (String.length s = String.length (cut s).1 + match (cut s).2 with Some r => S (String.length r) | None => 0 end)%nat.
Proof. induction s as [|a s IH]; [done|]. simpl. destruct (Ascii.eqb a nul); [done|]. destruct (cut s) as [p o]. simpl in *. lia. Qed.

(** A bounded read, of a piece that fits and of one that does not. *)
Lemma chunk_fits s : ∀ limit, (String.length (cut s).1 < limit)%nat →
  chunk limit s = match cut s with (p, Some r) => (p +:+ String nul EmptyString, r) | (p, None) => (p, EmptyString) end.
Proof.
  induction s as [|a s IH]; intros [|limit] H; simpl in *; try lia; [done|]. destruct (Ascii.eqb_spec a nul) as [->|]; [done|].
  specialize (IH limit). destruct (cut s) as [p o]. simpl in *. rewrite IH by lia. by destruct o.
Qed.
Lemma chunk_long s : ∀ limit, (limit ≤ String.length (cut s).1)%nat →
  ∃ c r, chunk limit s = (c, r) ∧ String.length c = limit ∧ ends_nul c = false ∧ (cut r).2 = (cut s).2 ∧ (String.length s = limit + String.length r)%nat.
Proof.
  induction s as [|a s IH]; intros [|limit] H; simpl in *; try lia.
  - by exists EmptyString, EmptyString.
  - by exists EmptyString, (String a s).
  - destruct (Ascii.eqb_spec a nul) as [->|Hn]; simpl in H; [lia|]. destruct (IH limit) as (c & r & -> & Hc & He & Ho & Hl).
    { destruct (cut s). simpl in *. lia. }
    exists (String a c), r. split_and!; [done|simpl; lia| |by destruct (cut s)|lia].
    simpl. destruct c; [by apply Ascii.eqb_neq|done].
Qed.

Lemma ends_nul_app p : ends_nul (p +:+ String nul EmptyString) = true.
Proof.
  induction p as [|a p IH]; [done|]. simpl in *. destruct (p +:+ String nul EmptyString) eqn:E; [by destruct p|]. done.
Qed.
Lemma pop_last_app p : pop_last (p +:+ String nul EmptyString) = p.
Proof. induction p as [|a p IH]; [done|]. simpl in *. destruct (p +:+ String nul EmptyString) eqn:E; [by destruct p|]. by rewrite IH. Qed.
Lemma length_snoc p a : String.length (p +:+ String a EmptyString) = S (String.length p).
Proof. induction p as [|b p IH]; [done|]. simpl in *. by rewrite IH. Qed.
Lemma snoc_not_empty p a : String.eqb (p +:+ String a EmptyString) EmptyString = false.
Proof. by destruct p. Qed.
Lemma cut_no_nul s : ends_nul (cut s).1 = false.
Proof.
  induction s as [|a s IH]; [done|]. simpl. destruct (Ascii.eqb_spec a nul) as [|Hn]; [done|]. destruct (cut s) as [p o]. simpl in *.
  destruct p; [by apply Ascii.eqb_neq|done].
Qed.

Lemma read_fits limit s fails : (String.length (cut s).1 < limit)%nat →
  read_until limit (mkInput s fails) =
  match cut s with
  | (p, Some r) => Some (p +:+ String nul EmptyString, mkInput r fails)
  | (p, None) => if fails then None else Some (p, mkInput EmptyString fails)
  end.
Proof.
  intros H. pose proof (cut_no_nul s) as Hn. unfold read_until. simpl. rewrite chunk_fits by done. destruct (cut s) as [p [r|]]; simpl in *.
  - rewrite ends_nul_app. simpl. by rewrite andb_false_r.
  - rewrite Hn, (proj2 (Nat.ltb_lt _ _)) by done. by destruct fails.
Qed.
Lemma read_long limit s fails : (limit ≤ String.length (cut s).1)%nat →
  ∃ c r, read_until limit (mkInput s fails) = Some (c, mkInput r fails) ∧ String.length c = limit ∧ ends_nul c = false ∧
    (cut r).2 = (cut s).2 ∧ (String.length s = limit + String.length r)%nat.
Proof.
  intros H. destruct (chunk_long s limit H) as (c & r & E & Hl & He & Ho & Hs). exists c, r. unfold read_until. simpl. rewrite E, Hl, Nat.ltb_irrefl, andb_false_r.
  by split_and!.
Qed.

(** Skipping ends, past the next NUL if there is one. *)
Lemma skip_past_cut fails fuel : ∀ s, (String.length s < fuel)%nat →
  skip_past_nul fuel (mkInput s fails) = (λ r, mkInput r fails) <$> (cut s).2.
Proof.
  assert (1 ≤ SKIP_CHUNK)%nat as Hn by (apply Nat.leb_le; reflexivity).
  induction fuel as [|fuel IH]; intros s Hs; [lia|]. cbn [skip_past_nul]. revert Hn IH. generalize SKIP_CHUNK at 1 2. intros n Hn IH.
  destruct (Nat.lt_ge_cases (String.length (cut s).1) n) as [Hl|Hl].
  - rewrite read_fits by done. pose proof (cut_no_nul s) as Hnn. pose proof (cut_length s) as Hc. destruct (cut s) as [p [r|]]; simpl in *.
    + by rewrite snoc_not_empty, ends_nul_app.
    + destruct fails; [done|]. destruct (String.eqb_spec p EmptyString) as [|Hp]; [done|]. rewrite Hnn. destruct p; [done|]. simpl in Hc. by rewrite IH by (simpl; lia).
  - destruct (read_long n s fails Hl) as (c & r & -> & Hc & He & Ho & Hlen). destruct (String.eqb_spec c EmptyString) as [->|]; [simpl in Hc; lia|].
    rewrite He, IH by lia. by rewrite Ho.
Qed.

(** C19: However long a connection lives and whatever it sends, its reader ends,
    having handled exactly the pieces between its NULs, in order: each that fits
    the limit with its NUL as a message, each longer one counted as oversize and
    skipped to its NUL, and an unended one as a message when the connection
    closes but not when it fails; and no read holds more than the limit and one
    byte. *)
Theorem connection_frames {X : Externals} {J : JsonScalars} {JR : JsonReader} {GI : GelfInput} clock max fails fuel : ∀ s k l,
  (String.length s < fuel)%nat →
  serve_connection fuel clock k max (mkInput s fails) l = Some (deliver clock k (frames max (mkInput s fails)) l) ∧
  ∀ buf i, read_until (max + 1) (mkInput s fails) = Some (buf, i) → (String.length buf ≤ max + 1)%nat.
Proof.
  induction fuel as [|fuel IH]; intros s k l Hs; [lia|]. cbn [serve_connection]. rewrite frames_cut.
  pose proof (cut_length s) as Hc. destruct (Nat.lt_ge_cases (String.length (cut s).1) (max + 1)) as [Hl|Hl].
  - rewrite (read_fits (max + 1)) by done. pose proof (cut_no_nul s) as Hn. destruct (cut s) as [p [r|]]; simpl in *; (split; [|intros buf i]).
    + rewrite snoc_not_empty, length_snoc, ends_nul_app, pop_last_app. unfold ended_frame. destruct (max <? S (String.length p))%nat.
      * destruct (clock k) as [now elapsed] eqn:Ek. simpl. rewrite Ek. by rewrite (proj1 (IH r _ _ ltac:(lia))).
      * destruct (String.eqb_spec p EmptyString).
        -- simpl. destruct (clock k). by rewrite (proj1 (IH r _ _ ltac:(lia))).
        -- destruct (clock k) as [now elapsed] eqn:Ek. simpl. rewrite Ek. by rewrite (proj1 (IH r _ _ ltac:(lia))).
    + intros [= <- <-]. rewrite length_snoc. lia.
    + unfold last_frame. rewrite (proj2 (Nat.ltb_ge _ _)) by lia. destruct fails; [by destruct (clock k) as [now elapsed] eqn:Ek; simpl; rewrite Ek|].
      destruct (clock k) as [now elapsed] eqn:Ek. destruct (String.eqb_spec p EmptyString) as [|Hp]; [done|]. rewrite (proj2 (Nat.ltb_ge _ _)) by lia. rewrite Hn.
      destruct (String.eqb_spec p EmptyString) as [|_]; [done|]. destruct p; [done|]. simpl in Hc. rewrite (proj1 (IH EmptyString _ _ ltac:(simpl; lia))). simpl. by rewrite Ek.
    + destruct fails; [done|]. intros [= <- <-]. lia.
  - destruct (read_long (max + 1) s fails Hl) as (c & r & -> & Hcl & He & Ho & Hlen). split; [|intros buf i [= <- <-]; lia].
    destruct (clock k) as [now elapsed] eqn:Ek. destruct (String.eqb_spec c EmptyString) as [->|]; [simpl in Hcl; lia|].
    rewrite (proj2 (Nat.ltb_lt _ _)) by lia. rewrite He. simpl in_bytes. rewrite skip_past_cut, Ho by lia. pose proof (cut_length r) as Hr. rewrite Ho in Hr.
    destruct (cut s) as [p [r'|]]; simpl in *.
    + unfold ended_frame. rewrite (proj2 (Nat.ltb_lt _ _)) by lia. simpl. rewrite Ek. by rewrite (proj1 (IH r' _ _ ltac:(lia))).
    + unfold last_frame. rewrite (proj2 (Nat.ltb_lt _ _)) by lia. simpl. by rewrite Ek.
Qed.

(** ** What a message keeps *)

Section fields.
Context {X : Externals} {J : JsonScalars} {JR : JsonReader} {GI : GelfInput}.

Lemma strip_underscore s k : strip_prefix "_" s = Some k ↔ s = String "_" k.
Proof.
  destruct s as [|a s]; [done|]. cbn [strip_prefix]. destruct (Ascii.eqb_spec "_" a) as [<-|Hn]; (split; [intros [= ->]|intros [= ->]]); done.
Qed.
Lemma additional_Some kv k v : additional kv = Some (k, v) ↔ kv = (String "_" k, v) ∧ k ≠ "level"%string.
Proof.
  destruct kv as [key w]. unfold additional. cbn [fst snd]. destruct (String.eqb_spec key "_level") as [->|Hn].
  - split; [done|]. intros [E H]. simplify_eq.
  - split.
    + intros (k' & Hk%strip_underscore & [= -> ->])%fmap_Some. subst key. split; [done|]. by intros ->.
    + intros [[= -> ->] _]. by rewrite (proj2 (strip_underscore _ k) eq_refl).
Qed.
Lemma additional_keys (l : list (string * Value)) k : k ∈ (omap additional l).*1 → String "_" k ∈ l.*1.
Proof.
  intros ([k' v] & -> & (kv & Hin & [-> _]%additional_Some)%list_elem_of_omap)%list_elem_of_fmap. apply list_elem_of_fmap. by exists (String "_" k', v).
Qed.
Lemma additional_NoDup (l : list (string * Value)) : NoDup l.*1 → NoDup (omap additional l).*1.
Proof.
  induction l as [|kv l IH]; [by constructor|]. rewrite fmap_cons, NoDup_cons. intros [Hn Hl]. simpl. destruct (additional kv) as [[k v]|] eqn:E; [|by apply IH].
  rewrite fmap_cons, NoDup_cons. split; [|by apply IH]. apply additional_Some in E as [-> _]. by intros H%additional_keys.
Qed.
Lemma gelf_additional_lookup obj k v : gelf_additional obj !! k = Some v ↔ obj !! String "_" k = Some v ∧ k ≠ "level"%string.
Proof.
  unfold gelf_additional. rewrite <-elem_of_list_to_map by apply additional_NoDup, NoDup_fst_map_to_list. rewrite list_elem_of_omap. split.
  - intros (kv & Hin & [-> Hn]%additional_Some). by apply elem_of_map_to_list in Hin.
  - intros [Hv Hn]. exists (String "_" k, v). split; [by apply elem_of_map_to_list|by apply additional_Some].
Qed.

Lemma promoted_or_kept {T} fields key (parse : string → option T) k v : fields !! k = Some v →
  let '(r, fields') := parse_promoted fields key parse in
  fields' !! k = Some v ∨ (k = key ∧ is_Some r ∧ r = (Value_as_str v ≫= parse)).
Proof.
  intros Hv. unfold parse_promoted. destruct (text_field fields key ≫= parse) as [x|] eqn:E; [|by left].
  destruct (decide (key = k)) as [->|Hn]; [right|left; by rewrite lookup_delete_ne].
  unfold text_field in E. rewrite Hv in E. simpl in E. by split_and!.
Qed.

(** A field with an underscore is kept: under its name without it, or, when it
    reads as a number in hexadecimal, as the record's trace or span id. Only
    [_level] is not, whatever it holds. *)
Lemma gelf_fields_kept now bytes sq e v obj k w :
  parse_gelf_message now bytes sq = inr e → from_slice bytes = Some v → Value_as_object v = Some obj →
  obj !! String "_" k = Some w → k ≠ "level"%string →
  additional_fields e !! k = Some w ∨
  (k = "trace_id" ∧ is_Some (trace_id e) ∧ trace_id e = (Value_as_str w ≫= parse_hex u128_max))%string ∨
  (k = "span_id" ∧ is_Some (span_id e) ∧ span_id e = (Value_as_str w ≫= parse_hex u64_max))%string.
Proof.
  unfold parse_gelf_message. intros H Hv Hobj Hw Hk. rewrite Hv, Hobj in H. destruct (text_field obj "host"); [|done]. destruct (text_field obj "short_message"); [|done].
  pose proof (promoted_or_kept (gelf_additional obj) "trace_id" (parse_hex u128_max) k w) as H1. rewrite gelf_additional_lookup in H1. specialize (H1 (conj Hw Hk)).
  destruct (parse_promoted (gelf_additional obj) _ _) as [tid fields].
  pose proof (promoted_or_kept fields "span_id" (parse_hex u64_max) k w) as H2. destruct (parse_promoted fields _ _) as [sid fields']. injection H as <-. simpl.
  destruct H1 as [H1|H1]; [|by right; left]. destruct (H2 H1) as [H3|H3]; [by left|by right; right].
Qed.
End fields.

(** ** Witnesses *)

(** A message is [key=value;key=value]. *)
#[local] Instance sample_gelf : GelfInput := {|
  from_slice := λ s, if str_contains "=" s then Some s else None;
  Value_as_object := λ s, Some (list_to_map (omap (λ f, match str_split "=" f with [k; v] => Some (k, v) | _ => None end) (str_split ";" s)));
  timestamp_opt := λ secs nanos, Some (secs * 1000000000 + nanos)%Z;
|}.

Definition bytes_of (pieces : list string) : string := String.concat (String nul EmptyString) pieces.
Definition sample_stream : string := bytes_of ["host=h;short_message=a;_level=WARN;_user=7;_trace_id=ff"; "host=h;short_message=b;x=aaaaaaaaaaaaaaaaaaaaaaaaaaaaaaaaaaaaaaaaaaaaaaaaaa"; ""; "junk"; "host=h;short_message=c"]%string.
Definition sample_listener : Listener := mkListener (mkChannel [] 8 false) metrics_new throttle_new throttle_new.
Definition sample_clock (k : nat) : Z * Z := (Z.of_nat k, Z.of_nat k).
Definition outcome (l : Listener) : list string * N * N := (message <$> ch_queue (li_channel l), oversize_dropped (li_metrics l), th_count (li_malformed l)).

Lemma connection_frames_witness :
  outcome <$> serve_connection 1000 sample_clock 0 60 (mkInput sample_stream false) sample_listener = Some (["a"; "c"]%string, 1, 1) ∧
  outcome <$> serve_connection 1000 sample_clock 0 60 (mkInput sample_stream true) sample_listener = Some (["a"]%string, 1, 1).
Proof.
  assert (String.length sample_stream < 1000)%nat as Hl by (apply Nat.ltb_lt; reflexivity).
  rewrite !(proj1 (connection_frames sample_clock 60 _ 1000 sample_stream 0 sample_listener Hl)). split; vm_compute; reflexivity.
Defined.

Definition sample_message (s : string) : option (Level * list (string * string) * option N) :=
  match parse_gelf_message 5 s 0 with inr e => Some (level e, map_to_list (additional_fields e), trace_id e) | inl _ => None end.
(** An id that does not parse is kept as a field, a level that does not parse is
    on no record. *)
Example level_field_lost :
  (sample_message "host=h;short_message=a;_trace_id=zz", sample_message "host=h;short_message=a;_level=NOTICE", sample_message "host=h;short_message=a;_trace_id=ff")
  = (Some (Info, [("trace_id", "zz")], None), Some (Info, [], None), Some (Info, [], Some 255))%string.
Proof. vm_compute. reflexivity. Qed.
