(* ===== verification/ReadsSpec.v ===== *)
(** * ReadsSpec: what the query methods promise

    A method that takes no cursor leaves the domain as it was, refused or not;
    a profile and an export say of the whole ring what they say; a batch of
    entries has one outcome per entry, in the caller's order. *)

From stdpp Require Import sorting.
From S2P Require Import Prelude Text F64 Gelf Filter Matcher Samples SeqCounter Epoch Bookmarks Resolver MemStore MemStoreInv Cursor Pipeline SpanStore DomainData Export Measure Threshold Collector CollectorSamples Project Capped LogProfile LogProfileSpec LogFields Params Metrics Domains Reads Broker BrokerSpec.

Set Default Proof Using "Type".
Local Open Scope N_scope.

Section spec.
Context {X : Externals} {J : JsonScalars} {JN : JsonNumbers} {JR : JsonReader}.

(** ** Without a cursor nothing moves *)

Lemma resolve_loop_still now session late qs : ∀ out cursor s,
  existsb is_cursor_qualifier qs = false → (resolve_loop now session late qs out cursor s).2 = s.
Proof.
  induction qs as [|q qs IH]; intros out cursor s Hq; [done|]. apply orb_false_iff in Hq as [Hq Hqs].
  destruct q; simpl; try done; try (by apply IH). destruct (get _ _); [by apply IH|done].
Qed.
Lemma resolve_still now f session late s : contains_cursor_qualifier f = false → (resolve_bookmarks_at now f session late s).2 = s.
Proof. destruct f; try done. apply resolve_loop_still. Qed.

Lemma without_cursor_still now filter session method b :
  (parse_and_resolve_filter_without_cursor now filter session method b).2 = bd_bookmarks b.
Proof.
  unfold parse_and_resolve_filter_without_cursor, parse_and_resolve_filter, refuse_cursor. destruct filter as [s|]; [|done].
  destruct (blank s); [done|]. destruct (parse_filter s) as [e|parsed]; [done|]. simpl.
  destruct (contains_cursor_qualifier parsed) eqn:E; [done|].
  pose proof (resolve_still now parsed session (late_counter (inner (lp_store (bd_pipeline b)))) (bd_bookmarks b) E) as Hs.
  destruct (resolve_bookmarks_at _ _ _ _ _) as [r bs]. done.
Qed.
Lemma whole_ring_still now filter session method b : (whole_ring_filter now filter session method b).2 = bd_bookmarks b.
Proof.
  unfold whole_ring_filter. destruct (if blank _ then _ else _) as [e|parsed]; [done|].
  destruct (contains_cursor_qualifier parsed) eqn:E; [done|].
  pose proof (resolve_still now parsed session 0 (bd_bookmarks b) E) as Hs. unfold resolve_bookmarks. destruct (resolve_bookmarks_at _ _ _ _ _) as [r bs]. done.
Qed.

Lemma reading_still {R} id spans d (f : BoundDomain → (RpcError + R) * BookmarkStore) :
  (∀ b, (f b).2 = bd_bookmarks b) → (reading id spans d f).2 = d.
Proof.
  intros Hf. unfold reading, on_domain, resolve_domain. destruct (require_evidence d spans); [done|]. destruct d as [b|]; [|done].
  specialize (Hf b). destruct (f b) as [r bs]. simpl in *. subst bs. by destruct b.
Qed.
Lemma given_still {P R} b (p : RpcError + P) (f : P → (RpcError + R) * BookmarkStore) :
  (∀ p, (f p).2 = bd_bookmarks b) → (given b p f).2 = bd_bookmarks b.
Proof. intros Hf. destruct p; [done|apply Hf]. Qed.

(** C15: A query that supports no cursor leaves its domain exactly as it was,
    whether it answers or refuses, whatever the request holds: its bookmarks and
    cursors neither move nor appear. *)
Theorem queries_leave_domain walk rows values order order' now id session params d :
  (logs_fields walk rows values now id session params d).2 = d ∧
  (logs_profile order now id session params d).2 = d ∧
  (logs_context id params d).2 = d ∧
  (traces_recent now id session params d).2 = d ∧
  (traces_get now id session params d).2 = d ∧
  (traces_summary id params d).2 = d ∧
  (traces_slow order' now id session params d).2 = d ∧
  (spans_context id params d).2 = d ∧
  (spans_export now id session params d).2 = d.
Proof.
  split_and!; apply reading_still; intros b; apply given_still; intros p; repeat case_match; subst; try done; simpl in *;
    match goal with
    | H : whole_ring_filter ?n ?f ?s ?m ?b = (_, ?bs) |- ?bs = _ => by rewrite <-(whole_ring_still n f s m b), H
    | H : parse_and_resolve_filter_without_cursor ?n ?f ?s ?m ?b = (_, ?bs) |- ?bs = _ => by rewrite <-(without_cursor_still n f s m b), H
    end.
Qed.

(** ** What a profile is of *)

(** The walk visits the matching records, in the ring's order. *)
Lemma walk_matching {S : Type} f (visit : S → LogEntry → S) s0 st :
  let '(counts, r) := MemStore.for_each_matching f visit s0 st in
  c_matched counts = length (List.filter (opt_matches f) (entries (inner st))) ∧
  c_scanned counts = length (entries (inner st)) ∧
  r = foldl visit s0 (List.filter (opt_matches f) (entries (inner st))).
Proof.
  unfold MemStore.for_each_matching. generalize (entries (inner st)). intros es.
  assert (∀ n k r, foldl (λ '(scanned, matched, st), λ e,
     if opt_matches f e then (Datatypes.S scanned, Datatypes.S matched, visit st e) else (Datatypes.S scanned, matched, st)) (n, k, r) es
     = ((n + length es)%nat, (k + length (List.filter (opt_matches f) es))%nat, foldl visit r (List.filter (opt_matches f) es))) as Hf.
  { induction es as [|e es IH]; intros n k r; simpl; [by rewrite !Nat.add_0_r|].
    destruct (opt_matches f e); rewrite IH; simpl; f_equal; f_equal; lia. }
  specialize (Hf 0%nat 0%nat s0). by rewrite Hf.
Qed.

Lemma observe_totals m e :
  gm_levels (groups_observe m e) = bump (gm_levels m) (level e) ∧
  gm_first (groups_observe m e) = match gm_first m with Some (s, _) => if seq e <? s then Some (seq e, timestamp e) else gm_first m | None => Some (seq e, timestamp e) end ∧
  gm_last (groups_observe m e) = match gm_last m with Some (s, _) => if s <? seq e then Some (seq e, timestamp e) else gm_last m | None => Some (seq e, timestamp e) end.
Proof.
  destruct m as [a keys accs cap present structured alt levels matched fst' lst']. unfold groups_observe. cbn.
  destruct (bool_decide (a = AxNone)); [done|]. destruct (foldl _ _ _) as [[key ?] ?]. by destruct (_ && _).
Qed.

(** The levels of what was walked, and its ends. *)
Record totals (es : list LogEntry) (m : GroupMap) : Prop := {
  to_levels : all_levels (gm_levels m) es;
  to_first : gm_first m = (λ e, (seq e, timestamp e)) <$> head es;
  to_last : gm_last m = (λ e, (seq e, timestamp e)) <$> last es;
}.
Lemma totals_run a keys es : ascending seq es → totals es (foldl groups_observe (groups_new a keys) es).
Proof.
  induction es as [|e es IH] using rev_ind; intros Hs; [split; [by intros []|done..]|].
  rewrite foldl_app. cbn [foldl]. apply ascending_app in Hs as (Hs & _ & Hlt). destruct (IH Hs) as [TL TF TE].
  destruct (observe_totals (foldl groups_observe (groups_new a keys) es) e) as (E1 & E2 & E3). split.
  - rewrite E1. by apply all_levels_snoc.
  - rewrite E2, TF. destruct es as [|e' es]; [done|]. cbn [head fmap option_fmap option_map app].
    by rewrite (proj2 (N.ltb_ge _ _)) by (apply N.lt_le_incl, Hlt; [by left|by left]).
  - rewrite E3, TE, last_snoc. destruct (last es) as [e'|] eqn:El; [|done]. cbn [fmap option_fmap option_map].
    by rewrite (proj2 (N.ltb_lt _ _)) by (apply Hlt; [by apply last_Some_elem_of|by left]).
Qed.

Lemma levels_sum c es : all_levels c es → levels_total c = N.of_nat (length es).
Proof.
  intros Hc. unfold levels_total. change (lc_trace c) with (level_count c Trace). change (lc_debug c) with (level_count c Debug).
  change (lc_info c) with (level_count c Info). change (lc_warn c) with (level_count c Warn). change (lc_error c) with (level_count c Error).
  rewrite !Hc. clear. unfold with_level. induction es as [|e es IH]; [done|]. cbn [List.filter].
  destruct (level e); simpl; simpl in IH; lia.
Qed.

Lemma profile_axis_ok g k axis keys : profile_axis g k = inr (axis, keys) →
  axis_parse (default "none" g) = Some axis ∧ keys = default [] k ∧ (length keys ≤ MAX_GROUP_BY_KEYS)%nat ∧ (axis = AxField ↔ keys ≠ []).
Proof.
  unfold profile_axis. destruct (axis_parse _) as [a|]; [|done]. destruct (Nat.ltb_spec MAX_GROUP_BY_KEYS (length (default [] k))) as [|Hl]; [done|].
  generalize dependent (default [] k). intros l Hl. repeat case_bool_decide; simpl; intros E; simplify_eq; (split_and!; [done..|split; intros; try done; exfalso; tauto]).
Qed.

Definition ring_of (b : BoundDomain) : list LogEntry := entries (inner (lp_store (bd_pipeline b))).

(** What a request asks a profile for: the parameters of that name, the axis
    that [group_by] names ([none] when it is absent) and its keys. *)
Record asks (params : Value) (filter : option string) (top : nat) (axis : Axis) (keys : list string) : Prop := {
  as_filter : opt_str params "filter" = inr filter;
  as_top : ∃ n, opt_usize params "top_n" = inr n ∧ top = N.to_nat (default 20 n);
  as_axis : ∃ g, opt_str params "group_by" = inr g ∧ axis_parse (default "none" g) = Some axis;
  as_keys : ∃ k, opt_str_array params "group_keys" = inr k ∧ keys = default [] k;
  as_bounded : (length keys ≤ MAX_GROUP_BY_KEYS)%nat;
  as_field : axis = AxField ↔ keys ≠ [];
}.

(** The groups of [recs]: [ks] are the keys with a row, each row is of exactly the
    records that have its key, the absent row of those without the axis and the
    overflow row of the rest, which there are only once the table is full. *)
Record grouped (axis : Axis) (keys : list string) (top : nat) (recs : list LogEntry) (r : ProfileReply)
  (ks : list (list MemberKey)) (rows : list LogGroup) (absent overflow : option LogGroup) : Prop := {
  gd_keys : NoDup ks ∧ (length ks ≤ KEY_CAP)%nat;
  gd_rows : Forall2 (row_for axis keys recs) ks rows;
  gd_sorted : StronglySorted real_le rows;
  gd_absent : bucket_row absent RsAbsent (absent_key axis keys) (records_of axis keys (absent_key axis keys) recs);
  gd_overflow : bucket_row overflow RsOverflow (overflow_key axis keys)
    (List.filter (λ e, negb (bool_decide (key_of axis keys e ∈ absent_key axis keys :: ks))) recs);
  gd_full : is_Some overflow → (KEY_CAP ≤ length ks + length (option_list absent))%nat;
  gd_capped : pr_cardinality_capped r = bool_decide (is_Some overflow);
  gd_groups : pr_groups r = take top rows ++ option_list absent ++ option_list overflow;
  gd_total : pr_groups_total r = Some (length rows + length (option_list absent ++ option_list overflow))%nat;
  gd_sum : sum_list_with count_of (rows ++ option_list absent ++ option_list overflow) = length recs;
}.

Lemma groups_axis axis keys es : gm_axis (foldl groups_observe (groups_new axis keys) es) = axis.
Proof.
  induction es as [|e l IH] using rev_ind; [done|]. rewrite foldl_app. cbn [foldl]. revert IH.
  destruct (foldl _ _ l) as [a' k' ?????????]. unfold groups_observe. cbn [gm_axis]. intros ->.
  destruct (bool_decide (axis = AxNone)); [done|]. destruct (foldl _ _ _) as [[key ?] ?]. by destruct (_ && _).
Qed.

(** C16: [logs.profile] is of every record in the ring that its filter matches, and
    of nothing else, grouped as the request asks: the matched and scanned counts,
    the counts by level and the ends are those records'; without an axis there are
    no groups, and with one each of at most [KEY_CAP] rows is of exactly the records
    that have its key (their count by level, the first and the last by seq with
    that record's time and message), no two rows of one key, a row for the records
    that lack the axis, and one for those of the keys that did not fit, which is
    there only when the table filled up and exactly when the reply says so. The
    reply has the [top_n] first of the rows in their order (20 when the request does
    not say), then those two; it says how many there are; and the counts of all the
    rows add up to the matched. *)
Theorem profile_of_ring order now id session params b r d' :
  ascending seq (ring_of b) → (∀ l, order l ≡ₚ l) →
  logs_profile order now id session params (Some b) = (inr r, d') →
  ∃ filter top axis keys resolved,
    asks params filter top axis keys ∧ (whole_ring_filter now filter session "logs.profile" b).1 = inr resolved ∧
    let recs := List.filter (opt_matches (Some resolved)) (ring_of b) in
    c_scanned (pr_counts r) = length (ring_of b) ∧ c_matched (pr_counts r) = length recs ∧
    levels_total (pr_levels r) = N.of_nat (length recs) ∧ all_levels (pr_levels r) recs ∧
    bd_first_seq (pr_bounds r) = seq <$> head recs ∧ bd_last_seq (pr_bounds r) = seq <$> last recs ∧
    (axis = AxNone → pr_groups r = [] ∧ pr_groups_total r = None) ∧
    (axis ≠ AxNone → ∃ ks rows absent overflow, grouped axis keys top recs r ks rows absent overflow).
Proof.
  intros Hs Ho. unfold logs_profile, reading, on_domain, resolve_domain. destruct (require_evidence (Some b) false); [done|].
  unfold given. set (P := rbind (opt_str params "filter") _). destruct P as [e|[[filter top] [axis keys]]] eqn:EP; [done|].
  destruct (whole_ring_filter now filter session "logs.profile" b) as [rf bs] eqn:Ew. destruct rf as [e|resolved]; [done|]. simpl.
  unfold for_each_log. pose proof (walk_matching (Some resolved) groups_observe (groups_new axis keys) (lp_store (bd_pipeline b))) as Hw. fold (ring_of b) in Hw.
  destruct (MemStore.for_each_matching _ _ _ _) as [counts m]. destruct Hw as (Hm & Hsc & ->).
  set (recs := List.filter (opt_matches (Some resolved)) (ring_of b)) in *.
  destruct (groups_finish order _ top) as [groups total] eqn:Ef. intros [= <- <-]. cbn [pr_counts pr_levels pr_bounds pr_groups pr_groups_total].
  assert (ascending seq recs) as Hr by by apply ascending_lfilter. pose proof (totals_run axis keys recs Hr) as [TL TF TE].
  exists filter, top, axis, keys, resolved. fold recs. split; [|rewrite Ew; split_and!; try done].
  - subst P. unfold rbind in EP.
    repeat match type of EP with context [match ?x with inl _ => _ | inr _ => _ end] => destruct x eqn:? ; [done|] end.
    simplify_eq. match goal with H : profile_axis _ _ = inr _ |- _ => apply profile_axis_ok in H as (? & ? & ? & ?) end.
    split; [done|eauto..|done|done].
  - by apply levels_sum.
  - unfold groups_bounds. cbn [bd_first_seq]. rewrite TF. by destruct (head recs).
  - unfold groups_bounds. cbn [bd_last_seq]. rewrite TE. by destruct (last recs).
  - intros Ha. unfold groups_finish in Ef. rewrite groups_axis in Ef. rewrite bool_decide_eq_true_2 in Ef |- * by done.
    by injection Ef as <- <-.
  - intros Ha. destruct (account_of axis keys recs Ha (ascending_NoDup (λ n, n) _ (ascending_seqs _ Hr)))
      as (ks & rows & ab & ov & H1 & H2 & _ & H4 & H5 & H6 & H7 & H8 & H9 & H10 & Hfin).
    specialize (Hfin order top Ho). unfold profile_summarize in Hfin. rewrite Ef in Hfin. injection Hfin as -> ->.
    exists ks, rows, ab, ov. split; try done. cbn [pr_groups_total]. by rewrite bool_decide_eq_false_2.
Qed.

(** ** What an export is of *)

Lemma first_spans (c : N) (ms : list SpanEntry) : ∀ acc : list SpanEntry, N.of_nat (length acc) ≤ c →
  foldl (λ (acc : list SpanEntry) (s : SpanEntry), if N.of_nat (length acc) <? c then acc ++ [s] else acc) acc ms = acc ++ take (N.to_nat c - length acc) ms.
Proof.
  induction ms as [|s ms IH]; intros acc Hl; simpl; [by rewrite take_nil, app_nil_r|]. destruct (N.ltb_spec (N.of_nat (length acc)) c) as [Hlt|Hge].
  - rewrite IH by (rewrite length_app; simpl; lia). rewrite length_app, <-app_assoc. simpl.
    replace (N.to_nat c - length acc)%nat with (S (N.to_nat c - (length acc + 1))) by lia. done.
  - rewrite IH by lia. replace (N.to_nat c - length acc)%nat with 0%nat by lia. done.
Qed.

(** [spans.export] replies with the first [count] of the ring's spans that
    its filter and its inclusive range match, counts all of those, and says it
    is capped exactly when it left some out. *)
Theorem spans_page now id session params b r d' :
  spans_export now id session params (Some b) = (inr r, d') →
  ∃ count filter resolved from to,
    opt_usize params "count" = inr count ∧ opt_str params "filter" = inr filter ∧
    opt_u64 params "from_seq" = inr from ∧ opt_u64 params "to_seq" = inr to ∧
    (parse_and_resolve_filter_without_cursor now filter session "spans.export" b).1 = inr resolved ∧
    let ms := List.filter (span_matches (lower_seq_range resolved from to)) (ss_buffer (ss_inner (bd_spans b))) in
    se_spans r = take (N.to_nat (default u64_max count)) ms ∧ se_matched r = length ms ∧
    (se_capped r = true ↔ (length (se_spans r) < length ms)%nat).
Proof.
  unfold spans_export, reading, on_domain, resolve_domain. destruct (require_evidence (Some b) true); [done|]. unfold given.
  destruct (opt_usize params "count") as [e|count]; [done|]. destruct (opt_str params "filter") as [e|filter]; [done|]. cbn [rbind].
  destruct (parse_and_resolve_filter_without_cursor now filter session "spans.export" b) as [[e|resolved] bs] eqn:Ew; [done|]. cbn [rbind].
  destruct (opt_u64 params "from_seq") as [e|from]; [done|]. cbn [rbind]. destruct (opt_u64 params "to_seq") as [e|to]; [done|]. cbn [rbind].
  unfold SpanStore.for_each_matching. set (ms := List.filter _ _). rewrite first_spans by (simpl; lia). simpl app. rewrite Nat.sub_0_r. intros [= <- <-].
  exists count, filter, resolved, from, to. rewrite Ew. cbn [se_spans se_matched se_capped fst]. split_and!; [done..|].
  fold ms. rewrite N.ltb_lt, length_take. lia.
Qed.
End spec.

(** ** Witnesses *)

#[local] Instance sample_numbers : JsonNumbers := {| Value_is_f64 := λ _, false |}.
Definition sample_ring : BoundDomain :=
  from_parts sample_config (append_to_store (error_at 2 "b") (append_to_store (log_at 1 "a") (Pipeline.new 10))) (SpanStore.new 10) Bookmarks.new metrics_new.

Definition answers {A B : Type} (r : (RpcError + A) * B) : bool := match r.1 with inr _ => true | inl _ => false end.
Lemma answers_inv {A B : Type} (r : (RpcError + A) * B) : answers r = true → ∃ a d, r = (inr a, d).
Proof. destruct r as [[e|a] d]; [done|by eauto]. Qed.

Lemma profile_of_ring_witness :
  ∃ r, (logs_profile id 5 "default" "a" "filter=l>=INFO;group_by=level;top_n=1" (Some sample_ring)).1 = inr r ∧
    levels_total (pr_levels r) = N.of_nat (c_matched (pr_counts r)) ∧ c_scanned (pr_counts r) = 2%nat ∧
    (λ g, (lg_key g, count_of g)) <$> pr_groups r = [("ERROR"%string, 1%nat)] ∧ pr_groups_total r = Some 2%nat.
Proof.
  match goal with |- ∃ r, ?x.1 = _ ∧ _ => destruct (answers_inv x) as (r & d' & E); [vm_compute; reflexivity|] end.
  exists r. split; [rewrite E; reflexivity|].
  assert (ascending seq (ring_of sample_ring)) as Hasc.
  { assert (ring_of sample_ring = [log_at 1 "a"; error_at 2 "b"]) as -> by (vm_compute; reflexivity). repeat constructor. }
  destruct (profile_of_ring _ _ _ _ _ _ _ _ Hasc (λ l, reflexivity l) E) as (f & top & axis & keys & resolved & _ & _ & H1 & H2 & H3 & _).
  rewrite H1, H2, H3. split; [reflexivity|]. split; [reflexivity|].
  apply (f_equal fst) in E. cbn [fst] in E. split.
  - apply (f_equal (λ x : RpcError + ProfileReply, match x with inr r => (λ g, (lg_key g, count_of g)) <$> pr_groups r | _ => [] end)) in E.
    etrans; [symmetry; exact E|]. vm_compute. reflexivity.
  - apply (f_equal (λ x : RpcError + ProfileReply, match x with inr r => pr_groups_total r | _ => None end)) in E.
    etrans; [symmetry; exact E|]. vm_compute. reflexivity.
Defined.

Definition sample_spans_ring : BoundDomain :=
  let '(_, s, c) := SpanStore.insert (sample_span "b" 20 15) SeqCounter.new (SpanStore.new 10) in
  let '(_, s, c) := SpanStore.insert (sample_span "a" 10 30) c s in set_span_store s sample_ring.
Lemma spans_page_witness :
  ∃ r, (spans_export 5 "default" "a" "count=1" (Some sample_spans_ring)).1 = inr r ∧ (length (se_spans r) ≤ 1)%nat ∧
    (se_capped r = true ↔ (length (se_spans r) < se_matched r)%nat).
Proof.
  match goal with |- ∃ r, ?x.1 = _ ∧ _ => destruct (answers_inv x) as (r & d' & E); [vm_compute; reflexivity|] end.
  exists r. split; [rewrite E; reflexivity|].
  destruct (spans_page _ _ _ _ _ _ _ E) as (c & f & resolved & from & to & Hc & _ & _ & _ & _ & Hs & Hm & Hcap).
  injection Hc as <-. rewrite Hm. split; [|exact Hcap]. rewrite Hs, length_take. apply Nat.le_min_l.
Defined.

(** A refused read leaves behind the cursor it would have created. *)
Example refused_read_creates :
  let '(r, d) := logs_recent 5 "default" "a" "filter=c>=new, b>=missing" (Some sample_ring) in
  (match r with inl _ => true | inr _ => false end, (λ d, elements (dom (bookmarks (bd_bookmarks d)))) <$> d) = (true, Some ["a/new"%string]).
Proof. vm_compute. reflexivity. Qed.
