(* ===== verification/MetricsSpec.v ===== *)
(** * MetricsSpec: what a receiver loses, it counts

    Receivers offer records and spans to two bounded channels, processors take
    from them until they stop, which closes the channel. Every offer is in the
    channel, in the counter of its source, or came after the stop; and the warnings
    about the counted ones are a minute apart and never further behind. *)

From stdpp Require Import sorting.
From S2P Require Import Prelude Text F64 Gelf Filter Matcher Samples Measure Threshold Collector CollectorSamples History Metrics.

Set Default Proof Using "Type".
Local Open Scope N_scope.

Section spec.
Context {X : Externals}.

(** ** Runs *)

Inductive Step :=
  | OfferLog (now elapsed : Z) (s : ReceiverSource) (e : LogEntry)
  | OfferSpan (now elapsed : Z) (s : ReceiverSource) (e : SpanEntry)
  | TakeLog
  | TakeSpan
  | StopLogs
  | StopSpans.

(** An offer, and what became of it: [of_gone] when its processor had stopped. *)
Record Offer := mkOffer {
  of_entry : LogEntry + SpanEntry;
  of_source : ReceiverSource;
  of_now : Z;
  of_elapsed : Z;
  of_sent : bool;
  of_gone : bool;
  of_warned : bool;
}.
Record Intake := mkIntake {
  in_logs : Channel LogEntry;
  in_spans : Channel SpanEntry;
  in_metrics : ReceiverMetrics;
  in_taken_logs : list LogEntry;
  in_taken_spans : list SpanEntry;
  in_left_logs : list LogEntry;
  in_left_spans : list SpanEntry;
  in_offers : list Offer;
}.
Definition intake_new (logs spans : nat) : Intake := mkIntake (mkChannel [] logs false) (mkChannel [] spans false) metrics_new [] [] [] [] [].

Definition received {A} (c : Channel A) : list A * Channel A :=
  match ch_queue c with [] => ([], c) | x :: q => ([x], mkChannel q (ch_capacity c) (ch_closed c)) end.

(** Dropping a receiver closes its channel and drops what was queued. *)
Definition stopped {A} (c : Channel A) : list A * Channel A := (ch_queue c, mkChannel [] (ch_capacity c) true).

Definition intake_step (i : Intake) (x : Step) : Intake :=
  match x with
  | OfferLog now elapsed s e =>
      let '(sent, c, m) := try_send_log now elapsed (in_logs i) e s (in_metrics i) in
      let gone := ch_closed (in_logs i) in
      mkIntake c (in_spans i) m (in_taken_logs i) (in_taken_spans i) (in_left_logs i) (in_left_spans i)
        (in_offers i ++ [mkOffer (inl e) s now elapsed sent gone (negb sent && negb gone && (record_drop elapsed s (in_metrics i)).1)])
  | OfferSpan now elapsed s e =>
      let '(sent, c, m) := try_send_span now elapsed (in_spans i) e s (in_metrics i) in
      let gone := ch_closed (in_spans i) in
      mkIntake (in_logs i) c m (in_taken_logs i) (in_taken_spans i) (in_left_logs i) (in_left_spans i)
        (in_offers i ++ [mkOffer (inr e) s now elapsed sent gone (negb sent && negb gone && (record_drop elapsed s (in_metrics i)).1)])
  | TakeLog => let '(l, c) := received (in_logs i) in 
      mkIntake c (in_spans i) (in_metrics i) (in_taken_logs i ++ l) (in_taken_spans i) (in_left_logs i) (in_left_spans i) (in_offers i)
  | TakeSpan => let '(l, c) := received (in_spans i) in 
      mkIntake (in_logs i) c (in_metrics i) (in_taken_logs i) (in_taken_spans i ++ l) (in_left_logs i) (in_left_spans i) (in_offers i)
  | StopLogs => let '(l, c) := stopped (in_logs i) in
      mkIntake c (in_spans i) (in_metrics i) (in_taken_logs i) (in_taken_spans i) (in_left_logs i ++ l) (in_left_spans i) (in_offers i)
  | StopSpans => let '(l, c) := stopped (in_spans i) in
      mkIntake (in_logs i) c (in_metrics i) (in_taken_logs i) (in_taken_spans i) (in_left_logs i) (in_left_spans i ++ l) (in_offers i)
  end.
Definition intake_run (logs spans : nat) (xs : list Step) : Intake := foldl intake_step (intake_new logs spans) xs.

Definition sent_logs (os : list Offer) : list LogEntry :=
  omap (λ o, match of_entry o with inl e => if of_sent o then Some e else None | inr _ => None end) os.
Definition sent_spans (os : list Offer) : list SpanEntry :=
  omap (λ o, match of_entry o with inr e => if of_sent o then Some e else None | inl _ => None end) os.
(** Refused by a full channel, and lost to a closed one. *)
Definition refused (os : list Offer) : list Offer := List.filter (λ o, negb (of_sent o) && negb (of_gone o)) os.
Definition lost (os : list Offer) : list Offer := List.filter (λ o, negb (of_sent o) && of_gone o) os.
Definition of_from (s : ReceiverSource) (os : list Offer) : list Offer := List.filter (λ o, bool_decide (of_source o = s)) os.
Definition accepted (os : list Offer) : list Offer := List.filter of_sent os.
Definition warnings (os : list Offer) : list Z := of_elapsed <$> List.filter of_warned os.

(** ** The channels *)

Record channel_ok {A} (cap : nat) (taken left sent : list A) (c : Channel A) : Prop := {
  ck_sent : taken ++ left ++ ch_queue c = sent;
  ck_bound : (length (ch_queue c) ≤ cap)%nat;
  ck_capacity : ch_capacity c = cap;
  ck_open : ch_closed c = false → left = [];
  ck_stopped : ch_closed c = true → ch_queue c = [];
}.

Lemma received_ok {A} cap (taken left sent : list A) c : channel_ok cap taken left sent c →
  let '(l, c') := received c in channel_ok cap (taken ++ l) left sent c' ∧ ch_closed c' = ch_closed c.
Proof.
  intros [<- Hl Hc Ho Hs]. unfold received. destruct (ch_queue c) as [|x q] eqn:E.
  - split; [|done]. split; rewrite ?E, ?app_nil_r; done.
  - destruct (ch_closed c) eqn:Ec; [by specialize (Hs eq_refl)|]. split; [|done]. rewrite (Ho eq_refl).
    split; simpl; [by rewrite <-app_assoc|simpl in Hl; lia|done..].
Qed.
Lemma stopped_ok {A} cap (taken left sent : list A) c : channel_ok cap taken left sent c →
  let '(l, c') := stopped c in channel_ok cap taken (left ++ l) sent c' ∧ ch_closed c' = true.
Proof.
  intros [<- Hl Hc Ho Hs]. simpl. split; [|done]. split; simpl; [by rewrite app_nil_r|lia|done..].
Qed.
Lemma offered_ok {A} cap (taken left sent : list A) x c : channel_ok cap taken left sent c →
  match try_send x c with
  | SendOk c' => channel_ok cap taken left (sent ++ [x]) c' ∧ ch_closed c = false ∧ ch_closed c' = false
  | SendFull => (length (ch_queue c) = cap)%nat ∧ ch_closed c = false
  | SendClosed => ch_closed c = true
  end.
Proof.
  intros [<- Hl Hc Ho Hs]. unfold try_send. destruct (ch_closed c) eqn:Ec; [done|]. rewrite Hc.
  destruct (Nat.leb_spec cap (length (ch_queue c))); [lia|]. split; [|done].
  split; simpl; [by rewrite (Ho eq_refl), !app_assoc|rewrite length_app; simpl; lia|done..].
Qed.

(** ** The counters *)

Lemma cell_set {A} s t (x : A) p : cell t (set_cell s x p) = if decide (s = t) then x else cell t p.
Proof. destruct s, t; reflexivity. Qed.
Lemma cell_map {A B} (f : A → B) s p : cell s (map_sources f p) = f (cell s p).
Proof. by destruct s. Qed.

Record counted (os : list Offer) (m : ReceiverMetrics) : Prop := {
  ct_dropped s : cell s (rm_dropped m) = u64_wrap (N.of_nat (length (of_from s (refused os))));
  ct_last s : cell s (rm_last m) = default i64_min (nanos_of ∘ of_now <$> last (of_from s (accepted os)));
  ct_warn : th_last (rm_drop_warn m) = default i64_min (last (warnings os));
}.

Lemma lfilter_snoc {A} (P : A → bool) l x : List.filter P (l ++ [x]) = List.filter P l ++ (if P x then [x] else []).
Proof. rewrite List.filter_app. simpl. by destruct (P x). Qed.
Lemma u64_wrap_succ n : u64_add (u64_wrap (N.of_nat n)) 1 = u64_wrap (N.of_nat (n + 1)).
Proof. unfold u64_add, u64_wrap. rewrite N.Div0.add_mod_idemp_l. f_equal. lia. Qed.

Lemma counted_sent os m e s now elapsed : counted os m → counted (os ++ [mkOffer e s now elapsed true false false]) (record_received now s m).
Proof.
  intros [D L W]. split.
  - intros t. unfold refused, of_from. rewrite lfilter_snoc. simpl. rewrite app_nil_r. apply D.
  - intros t. unfold accepted, of_from. rewrite !lfilter_snoc. simpl. rewrite lfilter_snoc. simpl. rewrite cell_set. destruct (decide (s = t)) as [->|Hn].
    + by rewrite bool_decide_eq_true_2, last_snoc by done.
    + rewrite bool_decide_eq_false_2, app_nil_r by done. apply L.
  - unfold warnings. rewrite lfilter_snoc. simpl. by rewrite app_nil_r.
Qed.

Lemma hit_last elapsed t : (0 ≤ elapsed ≤ i64_max)%Z →
  hit elapsed t = (if (INTERVAL_NANOS <=? i64_saturating_sub elapsed (th_last t))%Z then Some (u64_add (th_count t) 1) else None,
                   mkThrottle (u64_add (th_count t) 1) (if (INTERVAL_NANOS <=? i64_saturating_sub elapsed (th_last t))%Z then elapsed else th_last t)).
Proof. intros [_ H]. unfold hit. rewrite (proj2 (Z.leb_le _ _)) by done. unfold hit_at. by destruct (_ <=? _)%Z. Qed.

Lemma counted_refused os m e s now elapsed : (0 ≤ elapsed ≤ i64_max)%Z → counted os m →
  counted (os ++ [mkOffer e s now elapsed false false (record_drop elapsed s m).1]) (record_drop elapsed s m).2.
Proof.
  intros He [D L W]. unfold record_drop. rewrite hit_last by done. set (b := (_ <=? _)%Z). split.
  - intros t. unfold refused, of_from. rewrite lfilter_snoc. cbn [of_sent of_gone negb andb]. rewrite lfilter_snoc. simpl. rewrite cell_set. destruct (decide (s = t)) as [->|Hn].
    + rewrite bool_decide_eq_true_2 by done. rewrite length_app. simpl. by rewrite D, u64_wrap_succ.
    + rewrite bool_decide_eq_false_2, app_nil_r by done. apply D.
  - intros t. unfold accepted, of_from. rewrite lfilter_snoc. simpl. rewrite app_nil_r. apply L.
  - unfold warnings. rewrite lfilter_snoc. cbn [of_warned snd fst rm_drop_warn th_last]. destruct b.
    + rewrite bool_decide_eq_true_2 by by eexists. cbv iota. rewrite fmap_app. simpl. by rewrite last_snoc.
    + rewrite bool_decide_eq_false_2, app_nil_r by by intros [? ?]. done.
Qed.

(** ** The warnings *)

Record paced (os : list Offer) : Prop := {
  pc_apart : Sorted.StronglySorted (λ x y, x + INTERVAL_NANOS ≤ y)%Z (warnings os);
  pc_near : ∀ o, o ∈ refused os → ∃ w, w ∈ warnings os ∧ (w ≤ of_elapsed o < w + INTERVAL_NANOS)%Z;
}.

Lemma sorted_last (R : Z → Z → Prop) l w : Sorted.StronglySorted R l → last l = Some w → ∀ x, x ∈ l → x = w ∨ R x w.
Proof.
  intros Hs (l' & ->)%last_Some x [Hx| ->%list_elem_of_singleton]%elem_of_app; [|by left]. right.
  apply StronglySorted_app in Hs as (H & _). by apply H; [|left].
Qed.

Lemma warnings_elapsed os w : w ∈ warnings os → w ∈ of_elapsed <$> os.
Proof. unfold warnings. intros (o & -> & [_ Ho]%elem_of_lfilter)%list_elem_of_fmap. apply list_elem_of_fmap. by exists o. Qed.

Lemma counted_lost os m e s now elapsed : counted os m → counted (os ++ [mkOffer e s now elapsed false true false]) m.
Proof.
  intros [D L W]. split.
  - intros t. unfold refused. rewrite lfilter_snoc. simpl. rewrite app_nil_r. apply D.
  - intros t. unfold accepted. rewrite lfilter_snoc. simpl. rewrite app_nil_r. apply L.
  - unfold warnings. rewrite lfilter_snoc. simpl. by rewrite app_nil_r.
Qed.

Lemma paced_quiet os o : of_sent o || of_gone o = true → of_warned o = false → paced os → paced (os ++ [o]).
Proof.
  intros Hs Hw [A N]. assert (warnings (os ++ [o]) = warnings os) as E by (unfold warnings; by rewrite lfilter_snoc, Hw, app_nil_r).
  split; rewrite E; [done|]. unfold refused. rewrite lfilter_snoc, <-negb_orb, Hs. simpl. by rewrite app_nil_r.
Qed.

Lemma paced_refused os m e s now elapsed :
  (0 ≤ elapsed ≤ i64_max)%Z → (∀ t, t ∈ of_elapsed <$> os → 0 ≤ t ≤ elapsed)%Z → counted os m → paced os →
  paced (os ++ [mkOffer e s now elapsed false false (record_drop elapsed s m).1]).
Proof.
  intros He Hb [_ _ W] [A N]. set (o := mkOffer _ _ _ _ _ _ _). set (b := (INTERVAL_NANOS <=? i64_saturating_sub elapsed (th_last (rm_drop_warn m)))%Z).
  assert (of_warned o = b) as Ho.
  { subst o. unfold record_drop. rewrite hit_last by done. fold b. cbn [of_warned fst]. by destruct b; [apply bool_decide_eq_true_2; eexists|apply bool_decide_eq_false_2; intros [? ?]]. }
  assert (warnings (os ++ [o]) = warnings os ++ (if b then [elapsed] else [])) as Ew.
  { unfold warnings. rewrite lfilter_snoc, Ho, fmap_app. by destruct b. }
  assert (refused (os ++ [o]) = refused os ++ [o]) as Er by (unfold refused; by rewrite lfilter_snoc).
  assert (match last (warnings os) with Some w => (b = true ↔ w + INTERVAL_NANOS ≤ elapsed)%Z ∧ (0 ≤ w ≤ elapsed)%Z | None => b = true end) as Hl.
  { subst b. rewrite W. destruct (last (warnings os)) as [w|] eqn:El; simpl.
    - assert (0 ≤ w ≤ elapsed)%Z as Hw by by apply Hb, warnings_elapsed, last_Some_elem_of. split; [|done].
      rewrite Z.leb_le. unfold i64_saturating_sub, i64_min, i64_max, INTERVAL_NANOS in *. lia.
    - apply Z.leb_le. unfold i64_saturating_sub, i64_min, i64_max, INTERVAL_NANOS in *. lia. }
  split; rewrite Ew.
  - destruct b; [|by rewrite app_nil_r]. apply StronglySorted_app. split_and!; [|done|repeat constructor].
    intros x y Hx ->%list_elem_of_singleton. destruct (last (warnings os)) as [w|] eqn:El.
    + destruct Hl as [[Hl _] _]. specialize (Hl eq_refl). destruct (sorted_last _ _ _ A El x Hx) as [->|Hr]; [done|]. unfold INTERVAL_NANOS in *. lia.
    + apply last_None in El. rewrite El in Hx. destruct (not_elem_of_nil _ Hx).
  - rewrite Er. intros o' [Ho'|Ho']%elem_of_app.
    + destruct (N o' Ho') as (w & Hw & Hi). exists w. split; [|done]. apply elem_of_app. by left.
    + apply list_elem_of_singleton in Ho' as ->. subst o. cbn [of_elapsed]. destruct b eqn:Eb.
      * exists elapsed. split; [apply elem_of_app; right; by left|]. unfold INTERVAL_NANOS. lia.
      * destruct (last (warnings os)) as [w|] eqn:El; [|done]. destruct Hl as [Hl Hw]. exists w. rewrite app_nil_r.
        split; [by apply last_Some_elem_of|]. destruct (Z.le_gt_cases (w + INTERVAL_NANOS) elapsed) as [H%Hl|]; [done|lia].
Qed.

(** ** The whole run *)

Definition step_elapsed (x : Step) : option Z :=
  match x with OfferLog _ t _ _ | OfferSpan _ t _ _ => Some t | _ => None end.
Definition clock_ok (xs : list Step) : Prop :=
  Sorted.StronglySorted Z.le (omap step_elapsed xs) ∧ ∀ t, t ∈ omap step_elapsed xs → (0 ≤ t ≤ i64_max)%Z.

Record intake_ok (logs spans : nat) (i : Intake) : Prop := {
  io_logs : channel_ok logs (in_taken_logs i) (in_left_logs i) (sent_logs (in_offers i)) (in_logs i);
  io_spans : channel_ok spans (in_taken_spans i) (in_left_spans i) (sent_spans (in_offers i)) (in_spans i);
  io_counted : counted (in_offers i) (in_metrics i);
  io_paced : paced (in_offers i);
}.

Lemma intake_new_ok logs spans : intake_ok logs spans (intake_new logs spans).
Proof.
  split; [| |split; [by intros []..|done]|split; [constructor|by intros ? ?%elem_of_nil]]; (split; simpl; [done|lia|done..]).
Qed.

Lemma sent_logs_snoc os o : sent_logs (os ++ [o]) = sent_logs os ++ match of_entry o with inl e => if of_sent o then [e] else [] | inr _ => [] end.
Proof. unfold sent_logs. rewrite omap_app. simpl. by destruct (of_entry o), (of_sent o). Qed.
Lemma sent_spans_snoc os o : sent_spans (os ++ [o]) = sent_spans os ++ match of_entry o with inr e => if of_sent o then [e] else [] | inl _ => [] end.
Proof. unfold sent_spans. rewrite omap_app. simpl. by destruct (of_entry o), (of_sent o). Qed.

Lemma intake_step_ok logs spans i x :
  (∀ t, step_elapsed x = Some t → (0 ≤ t ≤ i64_max)%Z ∧ ∀ u, u ∈ of_elapsed <$> in_offers i → (0 ≤ u ≤ t)%Z) →
  intake_ok logs spans i → intake_ok logs spans (intake_step i x).
Proof.
  intros Ht [L S C P]. destruct x as [now t s e|now t s e| | | |]; simpl.
  - destruct (Ht t eq_refl) as [Hr Hu]. unfold try_send_log. pose proof (offered_ok _ _ _ _ e _ L) as Ho.
    destruct (try_send e (in_logs i)) as [c| |].
    + destruct Ho as (Ho & -> & _). split; simpl; [by rewrite sent_logs_snoc|by rewrite sent_spans_snoc, app_nil_r|by apply counted_sent|by apply paced_quiet].
    + destruct Ho as [_ ->]. split; simpl; [by rewrite sent_logs_snoc, app_nil_r|by rewrite sent_spans_snoc, app_nil_r|by apply counted_refused|by apply paced_refused].
    + rewrite Ho. split; simpl; [by rewrite sent_logs_snoc, app_nil_r|by rewrite sent_spans_snoc, app_nil_r|by apply counted_lost|by apply paced_quiet].
  - destruct (Ht t eq_refl) as [Hr Hu]. unfold try_send_span. pose proof (offered_ok _ _ _ _ e _ S) as Ho.
    destruct (try_send e (in_spans i)) as [c| |].
    + destruct Ho as (Ho & -> & _). split; simpl; [by rewrite sent_logs_snoc, app_nil_r|by rewrite sent_spans_snoc|by apply counted_sent|by apply paced_quiet].
    + destruct Ho as [_ ->]. split; simpl; [by rewrite sent_logs_snoc, app_nil_r|by rewrite sent_spans_snoc, app_nil_r|by apply counted_refused|by apply paced_refused].
    + rewrite Ho. split; simpl; [by rewrite sent_logs_snoc, app_nil_r|by rewrite sent_spans_snoc, app_nil_r|by apply counted_lost|by apply paced_quiet].
  - pose proof (received_ok _ _ _ _ _ L) as H. destruct (received (in_logs i)). by destruct H.
  - pose proof (received_ok _ _ _ _ _ S) as H. destruct (received (in_spans i)). by destruct H.
  - split; [apply (stopped_ok _ _ _ _ _ L)|done..].
  - split; [done|apply (stopped_ok _ _ _ _ _ S)|done..].
Qed.

(** What is lost uncounted came after its processor stopped. *)
Definition stop_of (o : Offer) : Step := match of_entry o with inl _ => StopLogs | inr _ => StopSpans end.
Record stops_known (xs : list Step) (i : Intake) : Prop := {
  sk_logs : ch_closed (in_logs i) = true → StopLogs ∈ xs;
  sk_spans : ch_closed (in_spans i) = true → StopSpans ∈ xs;
  sk_gone o : o ∈ in_offers i → of_gone o = true → stop_of o ∈ xs;
}.
Lemma try_send_closed {A} (x : A) c : match try_send x c with SendOk c' => ch_closed c' = ch_closed c | _ => True end.
Proof. unfold try_send. destruct (ch_closed c); [done|]. by destruct (_ <=? _)%nat. Qed.
Lemma received_closed {A} (c : Channel A) : ch_closed (received c).2 = ch_closed c.
Proof. unfold received. by destruct (ch_queue c). Qed.

Lemma run_stops logs spans xs : stops_known xs (intake_run logs spans xs).
Proof.
  unfold intake_run. induction xs as [|x xs [L S G]] using rev_ind; [split; [done|done|by intros ? ?%elem_of_nil]|].
  rewrite foldl_app. cbn [foldl]. set (i := foldl intake_step _ xs) in *. clearbody i.
  assert (∀ y, y ∈ xs → y ∈ xs ++ [x]) as Hl by (intros; apply elem_of_app; by left).
  assert (x ∈ xs ++ [x]) as Hx by (apply elem_of_app; right; by left).
  destruct x as [now t s e|now t s e| | | |]; simpl.
  - unfold try_send_log. pose proof (try_send_closed e (in_logs i)) as Hc.
    destruct (try_send e (in_logs i)); (split; simpl; [rewrite ?Hc; auto|auto|]);
      (intros o [Ho| ->%list_elem_of_singleton]%elem_of_app Hg; [by apply Hl, G|simpl in Hg; auto]).
  - unfold try_send_span. pose proof (try_send_closed e (in_spans i)) as Hc.
    destruct (try_send e (in_spans i)); (split; simpl; [auto|rewrite ?Hc; auto|]);
      (intros o [Ho| ->%list_elem_of_singleton]%elem_of_app Hg; [by apply Hl, G|simpl in Hg; auto]).
  - pose proof (received_closed (in_logs i)) as Hc. destruct (received (in_logs i)). simpl in Hc.
    split; simpl; [rewrite Hc; auto|auto|intros o Ho Hg; by apply Hl, G].
  - pose proof (received_closed (in_spans i)) as Hc. destruct (received (in_spans i)). simpl in Hc.
    split; simpl; [auto|rewrite Hc; auto|intros o Ho Hg; by apply Hl, G].
  - split; simpl; [auto|auto|intros o Ho Hg; by apply Hl, G].
  - split; simpl; [auto|auto|intros o Ho Hg; by apply Hl, G].
Qed.

Lemma offers_elapsed i x : of_elapsed <$> in_offers (intake_step i x) = (of_elapsed <$> in_offers i) ++ match step_elapsed x with Some t => [t] | None => [] end.
Proof.
  destruct x; simpl; [destruct (try_send_log _ _ _ _ _ _) as [[]]|destruct (try_send_span _ _ _ _ _ _) as [[]]|destruct (received (in_logs i))|destruct (received (in_spans i))| |];
    simpl; rewrite ?app_nil_r; try done; by rewrite fmap_app.
Qed.
Lemma run_elapsed logs spans xs : of_elapsed <$> in_offers (intake_run logs spans xs) = omap step_elapsed xs.
Proof.
  unfold intake_run. induction xs as [|x xs IH] using rev_ind; [done|]. rewrite foldl_app. cbn [foldl]. by rewrite offers_elapsed, IH, omap_app.
Qed.

Lemma run_ok logs spans xs : clock_ok xs → intake_ok logs spans (intake_run logs spans xs).
Proof.
  induction xs as [|x xs IH] using rev_ind; [intros _; apply intake_new_ok|]. unfold clock_ok. rewrite omap_app. intros [Hs Hb].
  apply StronglySorted_app in Hs as (Hle & Hs & _). unfold intake_run in *. rewrite foldl_app. cbn [foldl]. apply intake_step_ok.
  - intros t Et. assert (t ∈ omap step_elapsed [x]) as Hin by (simpl; rewrite Et; by left). split; [apply Hb, elem_of_app; by right|].
    intros u Hu. fold (intake_run logs spans xs) in Hu. rewrite run_elapsed in Hu. split; [by apply Hb, elem_of_app; left|by apply Hle].
  - apply IH. split; [done|]. intros t Ht. apply Hb, elem_of_app. by left.
Qed.
End spec.

(** C20: A receiver loses an entry uncounted only once the processor it feeds has
    stopped. Over any run of offers, takes and stops: the processors have got, in
    order, or will get from channels never longer than their capacity, every entry
    whose offer was answered with true, but for what a stop found still queued;
    every offer that a full channel refused is in its source's drop counter; the
    only other offers not accepted, which no counter has, came after the stop of
    their processor. The liveness of a source is its last accepted offer; a refusal
    is warned of less than a minute before it or at it, while two warnings are at
    least a minute apart. *)
Theorem intake_accounted {X : Externals} logs spans xs :
  clock_ok xs →
  let i := intake_run logs spans xs in
  in_taken_logs i ++ in_left_logs i ++ ch_queue (in_logs i) = sent_logs (in_offers i) ∧
  (length (ch_queue (in_logs i)) ≤ logs)%nat ∧ (StopLogs ∉ xs → in_left_logs i = []) ∧
  in_taken_spans i ++ in_left_spans i ++ ch_queue (in_spans i) = sent_spans (in_offers i) ∧
  (length (ch_queue (in_spans i)) ≤ spans)%nat ∧ (StopSpans ∉ xs → in_left_spans i = []) ∧
  (∀ s, cell s (metrics_snapshot (in_metrics i)) = u64_wrap (N.of_nat (length (of_from s (refused (in_offers i)))))) ∧
  (∀ o, o ∈ in_offers i → o ∈ accepted (in_offers i) ∨ o ∈ refused (in_offers i) ∨ stop_of o ∈ xs) ∧
  (∀ s, (∀ o, o ∈ in_offers i → i64_min < of_now o)%Z →
     cell s (liveness (in_metrics i)) = nanos_of ∘ of_now <$> last (of_from s (accepted (in_offers i)))) ∧
  Sorted.StronglySorted (λ x y, x + INTERVAL_NANOS ≤ y)%Z (warnings (in_offers i)) ∧
  (∀ o, o ∈ refused (in_offers i) → ∃ w, w ∈ warnings (in_offers i) ∧ (w ≤ of_elapsed o < w + INTERVAL_NANOS)%Z).
Proof.
  intros Hc i. destruct (run_ok logs spans xs Hc) as [[L1 L2 _ L3 _] [S1 S2 _ S3 _] [D A _] [P1 P2]].
  destruct (run_stops logs spans xs) as [KL KS KG]. split_and!; try done.
  - intros Hn. apply L3. destruct (ch_closed (in_logs _)); [|done]. by destruct (Hn (KL eq_refl)).
  - intros Hn. apply S3. destruct (ch_closed (in_spans _)); [|done]. by destruct (Hn (KS eq_refl)).
  - intros o Ho. destruct (of_sent o) eqn:Es; [left; apply elem_of_lfilter; by rewrite Es|]. right.
    destruct (of_gone o) eqn:Eg; [right; by apply KG|left]. apply elem_of_lfilter. by rewrite Es, Eg.
  - intros s Hn. unfold liveness. rewrite cell_map. fold i in A. rewrite A.
    destruct (last (of_from s (accepted (in_offers i)))) as [o|] eqn:El; simpl; [|done].
  assert (o ∈ in_offers i) as Ho.
  { apply last_Some_elem_of in El. unfold of_from, accepted in El. apply elem_of_lfilter in El as [_ El]. by apply elem_of_lfilter in El as [_ El]. }
  specialize (Hn o Ho). unfold nanos_of. destruct (Z.eqb_spec (if fits_i64 (of_now o) then of_now o else i64_max) i64_min) as [E|]; [|done].
  destruct (fits_i64 (of_now o)); [lia|discriminate E].
Qed.

(** ** Witness *)

(** One record fits; the second and third are refused within a minute of each other. *)
Definition sample_steps : list Step :=
  [OfferLog 10 5 GelfUdp (log_at 1 "a"); OfferLog 11 6 GelfUdp (log_at 2 "b"); OfferLog 12 7 GelfTcp (log_at 3 "c");
   TakeLog; OfferLog 70 80000000000 GelfTcp (log_at 4 "d");
   OfferSpan 71 80000000000 OtlpGrpcTraces (sample_span "s" 0 1); OfferSpan 71 80000000001 OtlpGrpcTraces (sample_span "t" 0 1);
   StopLogs; OfferLog 72 80000000002 GelfTcp (log_at 5 "e")].
Lemma intake_accounted_witness :
  clock_ok sample_steps ∧
  seq <$> in_taken_logs (intake_run 1 1 sample_steps) ++ in_left_logs (intake_run 1 1 sample_steps) ++
          ch_queue (in_logs (intake_run 1 1 sample_steps)) = [1; 4] ∧
  length (lost (in_offers (intake_run 1 1 sample_steps))) = 1%nat ∧
  cell GelfUdp (metrics_snapshot (in_metrics (intake_run 1 1 sample_steps))) = 1 ∧
  warnings (in_offers (intake_run 1 1 sample_steps)) = [6; 80000000001]%Z.
Proof.
  assert (clock_ok sample_steps) as Hc.
  { split; [repeat constructor; discriminate|]. intros t Ht. cbn in Ht.
    repeat (apply elem_of_cons in Ht as [->|Ht]; [split; discriminate|]). destruct (not_elem_of_nil _ Ht). }
  destruct (intake_accounted 1 1 sample_steps Hc) as (Hl & _ & _ & _ & _ & _ & Hd & _). split_and!; [exact Hc|rewrite Hl; reflexivity|reflexivity|rewrite Hd; reflexivity|reflexivity].
Defined.
